(* ===== verification/_CoqProject ===== *)
-Q . S2P
Prelude.v
Std.v
F64.v
Config.v
Coll.v
Schedule.v
Notify.v
Pacer.v
Gate.v
Options.v
Plan.v
Barrier.v
Startup.v
Active.v
Key.v
Tags.v
Metrics.v
Registry.v
Agg.v
Requests.v
Checks.v
Text.v
Thresholds.v
ThresholdsEval.v
Summary.v
Exit.v
Report.v
ReportProps.v
Loops.v
RunProps.v
Progress.v
Value.v
Store.v
Wire.v
Coerce.v
Codec.v
CodecLemmas.v
CodecProps.v
Proto.v
Paths.v
Durations.v
Serde.v
YamlText.v
ScenarioYaml.v
YamlProps.v
JsonOut.v
JsonProps.v
Lua.v
LuaValues.v
LuaValuesProps.v
LuaOptions.v
LuaOptionsProps.v
HttpClient.v
HttpModule.v
MetricsModule.v
GrpcClient.v
SharedGrpc.v
GrpcModule.v
SharedModule.v
SharedProps.v
SharedBarrier.v
Loader.v
Lifecycle.v
LifecycleProps.v
RunCommand.v
RunCommandProps.v
HumanOut.v
HumanProps.v
Init.v
TestServer.v
Modules.v
Protoc.v
