(* ===== verification/Prelude.v ===== *)
(** * wrkr: a verification library for the load-testing tool

    wrkr runs a Lua script as many virtual users (VUs), records what their
    requests, iterations and checks do in a registry of metrics, and reports it
    with an exit code a pipeline can act on.  This library models the program from
    its command line to its wire formats, in the vocabulary of the source, and
    proves what its parts promise to one another.

    ** The program, and which file models which part

    _The data and the metrics_ (wrkr-core/src/config.rs, wrkr-metrics/src).
    Config.v has the records and enums of a run.  Key.v is the interner, Tags.v
    the tag sets, Metrics.v the storages and handles over a heap of shared cells,
    Registry.v the registry with its folds, Agg.v the queries.

    _Planning a run_ (wrkr-core/src/run.rs, schedule.rs, gate.rs, pacer.rs).
    Options.v resolves command line, scenario and script options into scenarios;
    Schedule.v is the ramping schedule, Gate.v the iteration gate, Pacer.v the
    arrival-rate pacer; Plan.v turns scenarios into VUs, gates, schedules and
    pacers.

    _Running it_ (run.rs, vu.rs of wrkr-core and wrkr-lua).  Startup.v is the
    protocol between the runner and the VUs from initialisation over the barrier
    and the start signal to the join; Loops.v the three work loops over the
    shared gate and pacer; Active.v the gauges of active VUs; Progress.v the
    progress task beside them.  All are step relations in which any number of
    VUs interleave at their accesses to shared objects.

    _Recording and reporting_ (request_metrics.rs, iteration_metrics.rs,
    metrics_context.rs, modules/check/record.rs, metrics_agg.rs, thresholds.rs,
    thresholds_eval.rs, summary.rs, progress.rs; wrkr/src/exit_codes.rs).
    Requests.v and Checks.v record; Thresholds.v parses threshold expressions and
    ThresholdsEval.v evaluates them; Summary.v computes live figures and the
    summary; Exit.v the exit code; Report.v, ReportProps.v and RunProps.v compose
    them from the registration to the report.

    _The script's side_ (wrkr-lua/src).  Lua.v is the interface of the
    interpreter's values; LuaValues.v (and LuaValuesProps.v) the conversions to and
    from the dynamic values of Value.v; LuaOptions.v (and LuaOptionsProps.v) the reader of a
    script's Options; Loader.v the search path and read_file; Lifecycle.v (and
    LifecycleProps.v) Setup, Teardown and HandleSummary; Modules.v the
    registration of the modules and what [require] gives; HttpModule.v,
    GrpcModule.v, MetricsModule.v and SharedModule.v the modules with
    behaviour of their own.

    _Clients and shared state_ (wrkr-http, wrkr-grpc, wrkr-shared).  HttpClient.v
    is the HTTP client, GrpcClient.v the gRPC client, SharedGrpc.v the client
    VUs share; Store.v the shared store, with SharedProps.v and SharedBarrier.v
    what scripts may rely on of it.  Wire.v, Coerce.v, Codec.v (with CodecLemmas.v
    and CodecProps.v) are the protobuf codec, Proto.v the metadata that drives it,
    Protoc.v the compilation of a schema.

    _The command line and its formats_ (wrkr/src).  RunCommand.v (and
    RunCommandProps.v) is wrkr run and wrkr scenario export from the arguments to
    the exit code, Init.v wrkr init; Paths.v has the paths and a script's output
    files, Durations.v durations, Serde.v, YamlText.v, ScenarioYaml.v and
    YamlProps.v the YAML format, JsonOut.v and JsonProps.v the NDJSON output,
    HumanOut.v and HumanProps.v the text output and the progress bars.
    TestServer.v is the server of wrkr-testserver.

    Prelude.v, Coll.v, Std.v, F64.v and Text.v are what the components share:
    results and their monad, machine integers, collections and their iteration
    order, the parts of the Rust standard library that are called, binary64 and
    strings.

    ** Conventions

    A machine integer is the [Z] it denotes, with wrapping, saturation and casts
    written out; an [f64] is a [spec_float]; a [Duration] or [Instant] its
    nanoseconds; a [&str] its UTF-8 bytes.  [Result] is [result E], [?] the bind
    of its monad, a panic is [None] or an error constructor of its own.  A
    [HashMap] or [DashMap] is a [gmap] or a list of entries, and the order in
    which it is iterated is the class [MapIter], so that nothing depends on it.
    Shared objects are cells of a heap or fields of a world; a lock section or an
    atomic access is one step; atomics are sequentially consistent.

    Code that is not part of the program is an interface, a class of operations
    with its documented behaviour as laws and with an instance showing the laws
    can be met: [NotifyOps] (Notify.v), [BarrierOps] (Barrier.v) and [WatchOps]
    (Store.v) for tokio; [HistOps] (Metrics.v) for hdrhistogram; [LuaTables] and
    [LuaLaws] (Lua.v) and the interpreter of Lifecycle.v for mlua;
    [EnumDescriptor] (Codec.v) and [DescriptorPool] (Proto.v) for prost-reflect;
    the HTTP and gRPC transports of HttpClient.v and GrpcClient.v; serde_yaml and
    humantime (Serde.v, Durations.v, instances in YamlText.v); the disk, the
    process and the environment (Loader.v, Init.v, Protoc.v, RunCommand.v).

    ** What the theorems show

    - The report is right: ReportProps.v from recorded events to the summary and
      the exit code; RunProps.v from the work loops to the summary;
      ThresholdsEval.v that the violations are exactly the expressions that do not
      hold; Progress.v that progress updates cover what was recorded without
      gap or overlap; JsonProps.v and HumanProps.v that both outputs say it,
      LifecycleProps.v that HandleSummary is told it.
    - The run does what was asked: Options.v that accepted scenarios satisfy what
      the executors rely on; Plan.v that the VUs match the scenarios; Loops.v that
      constant VUs run exactly the configured iterations, that every arrival slot
      is accounted for, and that ramping VUs follow the schedule; Pacer.v the
      accounting of slots; Active.v the peak; Schedule.v that the schedule refines
      the piecewise-linear target, without a panic and within its bounds.
    - Starting and stopping: Startup.v that nobody works before everybody is
      ready, what the runner's result is, and what alone can block it; Store.v that
      no wake-up is lost; SharedProps.v and SharedBarrier.v the hand-over of
      values and the meeting of VUs; SharedGrpc.v that the shared client is
      loaded and connected once.
    - Formats: CodecProps.v, Proto.v, YamlProps.v, Thresholds.v and LuaValuesProps.v
      the round trips; CodecLemmas.v and CodecProps.v that decoding ends on every
      input; Proto.v that the builder with cache computes the plain recursion.
    - One call, one record: HttpModule.v, GrpcModule.v and MetricsModule.v.
    - Containment and errors: Loader.v and Paths.v that a script reads and writes
      below its directories only; RunCommandProps.v the order of the stages and
      their failures; Init.v which files are written; Protoc.v how protoc is run;
      Modules.v that a module is one object; TestServer.v that both aggregations
      agree; and the places where the code does less than it means to
      (Registry.get_handle_race_loses, LuaValuesProps.unsupported_key_loses_entries,
      YamlProps.malformed_loads_as_default, with others among the findings).

    ** Fuel and bounds

    The decoder's loops take the number of bytes left as fuel and CodecLemmas.v
    shows that more fuel changes nothing, so the fuel bounds nothing the code does not
    bound.  Proto.v's builder takes fuel for the messages in progress, which the
    set of names bounds; Proto.v shows enough fuel gives the result.  The depth 64 of
    LuaValues.v is the code's.  Loops of compare-exchange and the work loops are
    step relations without fuel.  Text scanners take the length of the text, of
    which every round takes away at least one character.

    ** Not modelled, and why

    - Third-party behaviour: drawing progress bars, sockets and TLS, running Lua,
      the text of JSON and YAML, command-line parsing by clap and the messages of
      error chains: the interfaces above stand for what the program relies on.
    - json_util.rs transcodes between mlua and serde_json and adds nothing of its
      own; HttpModule.v takes the encoder as an argument.  debugger.rs's start is
      a chunk of Lua; Modules.v has when it is attempted.
    - Plumbing without decisions: the traits of output.rs and
      runtime/script_runtime.rs, constructors and getters, re-exports; the
      sockets of the test server; build scripts.
    - init/language.rs and lua_decode.rs are not part of any build: no file
      declares them as modules.
    - Weak memory: the counters are independent, and the orderings that publish
      data are release-acquire in tokio's types.
    - What stays open: conversions of arguments done by mlua before a closure
      runs, and the wall clock, which is an argument wherever it is read. *)

From Stdlib Require Export ZArith Lia.
From stdpp Require Export base tactics numbers list gmap strings sorting.

#[global] Open Scope Z_scope.

(** ** Results

    Rust's [Result<T, E>].  The error type comes first, so that [result E] is a
    monad in stdpp's sense and the [x ← c; k] notation plays the part of [?]. *)
Inductive result (E A : Type) : Type :=
  | Ok (a : A)
  | Err (e : E).
Arguments Ok {E A} a.
Arguments Err {E A} e.

#[export] Instance result_ret {E} : MRet (result E) := λ A a, Ok a.
#[export] Instance result_bind {E} : MBind (result E) := λ A B f m,
  match m with Ok a => f a | Err e => Err e end.
#[export] Instance result_fmap {E} : FMap (result E) := λ A B f m,
  match m with Ok a => Ok (f a) | Err e => Err e end.

(** [Option::ok_or]. *)
Definition ok_or {E A} (o : option A) (e : E) : result E A :=
  match o with Some a => Ok a | None => Err e end.

(** [map_err]. *)
Definition map_err {E E' A} (f : E → E') (r : result E A) : result E' A :=
  match r with Ok a => Ok a | Err e => Err (f e) end.

Definition is_ok {E A} (r : result E A) : bool :=
  match r with Ok _ => true | Err _ => false end.

Lemma bind_Ok {E A B} (m : result E A) (f : A → result E B) b :
  m ≫= f = Ok b ↔ ∃ a, m = Ok a ∧ f a = Ok b.
Proof.
  unfold mbind, result_bind. destruct m; split.
  - eauto.
  - intros (? & [= ->] & ?); done.
  - done.
  - intros (? & [=] & _).
Qed.

(** ** Machine integers

    A [w]-bit integer is the [Z] it denotes; the operations below are the
    ones the code calls, with their wrap-around or saturation. *)
Definition u64_max : Z := 2 ^ 64 - 1.
Definition i64_min : Z := - 2 ^ 63.
Definition i64_max : Z := 2 ^ 63 - 1.
Definition i128_min : Z := - 2 ^ 127.
Definition i128_max : Z := 2 ^ 127 - 1.

Definition in_u64 (z : Z) : Prop := 0 ≤ z ≤ u64_max.
Definition in_u32 (z : Z) : Prop := 0 ≤ z < 2 ^ 32.
Definition in_i64 (z : Z) : Prop := i64_min ≤ z ≤ i64_max.
Definition in_i32 (z : Z) : Prop := - 2 ^ 31 ≤ z < 2 ^ 31.

(** Casts ([as u64], [as u32], [as i64], [as i32]) reduce modulo the width. *)
Definition as_u64 (z : Z) : Z := z mod 2 ^ 64.
Definition as_u32 (z : Z) : Z := z mod 2 ^ 32.
Definition as_u8 (z : Z) : Z := z mod 2 ^ 8.
Definition as_i64 (z : Z) : Z :=
  let w := as_u64 z in if w <? 2 ^ 63 then w else w - 2 ^ 64.
Definition as_i32 (z : Z) : Z :=
  let w := as_u32 z in if w <? 2 ^ 31 then w else w - 2 ^ 32.

(** [saturating_*] and [wrapping_*] (and [fetch_add], which wraps). *)
Definition u64_sat_add (a b : Z) : Z := Z.min u64_max (a + b).
Definition u64_sat_sub (a b : Z) : Z := Z.max 0 (a - b).
Definition u64_wrap_add (a b : Z) : Z := as_u64 (a + b).
Definition i64_sat_add (a b : Z) : Z := Z.max i64_min (Z.min i64_max (a + b)).
Definition i64_wrap_add (a b : Z) : Z := as_i64 (a + b).
Definition i128_sat_mul (a b : Z) : Z := Z.max i128_min (Z.min i128_max (a * b)).

#[global] Arguments as_u64 : simpl never.
#[global] Arguments as_u32 : simpl never.
#[global] Arguments as_u8 : simpl never.
#[global] Arguments as_i64 : simpl never.
#[global] Arguments as_i32 : simpl never.
#[global] Arguments u64_max : simpl never.
#[global] Arguments u64_sat_add : simpl never.
#[global] Arguments u64_sat_sub : simpl never.
#[global] Arguments u64_wrap_add : simpl never.
#[global] Arguments i64_sat_add : simpl never.
#[global] Arguments i64_wrap_add : simpl never.
#[global] Arguments i128_sat_mul : simpl never.

(** [Ord::clamp]; Rust panics when [lo > hi], which is [None] here. *)
Definition clamp (z lo hi : Z) : option Z :=
  if lo <=? hi then Some (Z.max lo (Z.min hi z)) else None.

(** The unfolding the arithmetic goals start with. *)
Ltac ints :=
  unfold in_u64, in_u32, in_i64, in_i32, u64_sat_add, u64_sat_sub, u64_wrap_add,
    i64_sat_add, i64_wrap_add, as_u64, as_u32, as_u8, u64_max, i64_min, i64_max,
    i128_min, i128_max in *.
Ltac ints_lia := ints; lia.

(** Reduce a boolean comparison of [Z] or [nat] to the proposition it decides. *)
Ltac bool_cases :=
  repeat match goal with
  | H : context [?a <=? ?b] |- _ => destruct (Z.leb_spec a b)
  | H : context [?a <? ?b] |- _ => destruct (Z.ltb_spec a b)
  | H : context [?a =? ?b] |- _ => destruct (Z.eqb_spec a b)
  | |- context [?a <=? ?b] => destruct (Z.leb_spec a b)
  | |- context [?a <? ?b] => destruct (Z.ltb_spec a b)
  | |- context [?a =? ?b] => destruct (Z.eqb_spec a b)
  end.

(** Prove [Forall P l] for a list given by its elements. *)
Tactic Notation "each" tactic3(tac) :=
  repeat (apply Forall_cons_2; [tac|]); try apply Forall_nil_2.

(** Decide a closed conjunction of integer comparisons. *)
Ltac closed_ineq := vm_compute; repeat split; discriminate.

Create HintDb wrkr.

Lemma as_u64_small z : in_u64 z → as_u64 z = z.
Proof. ints; intros; apply Z.mod_small; lia. Qed.
Lemma as_u32_small z : in_u32 z → as_u32 z = z.
Proof. ints; intros; apply Z.mod_small; lia. Qed.
Lemma as_u64_range z : in_u64 (as_u64 z).
Proof. ints. pose proof (Z.mod_pos_bound z (2^64)). lia. Qed.
Lemma as_i64_range z : in_i64 (as_i64 z).
Proof.
  unfold as_i64. pose proof (as_u64_range z). bool_cases; ints_lia.
Qed.
Lemma as_i64_small z : in_i64 z → as_i64 z = z.
Proof.
  intros Hz. unfold as_i64. ints. destruct (Z.ltb_spec (z mod 2 ^ 64) (2^63)) as [H|H].
  - destruct (Z_lt_le_dec z 0).
    + rewrite <- (Z_mod_plus_full z 1), Z.mod_small in H by lia. lia.
    + apply Z.mod_small; lia.
  - destruct (Z_lt_le_dec z 0).
    + rewrite <- (Z_mod_plus_full z 1), Z.mod_small by lia. lia.
    + rewrite Z.mod_small in H by lia. lia.
Qed.
Lemma as_i64_as_u64 z : in_i64 z → as_i64 (as_u64 z) = z.
Proof.
  intros Hz. rewrite <- (as_i64_small z Hz) at 2. unfold as_i64, as_u64.
  rewrite Z.mod_mod by lia. done.
Qed.
Lemma as_u64_as_i64 z : in_u64 z → as_u64 (as_i64 z) = z.
Proof.
  intros Hz. unfold as_i64. rewrite (as_u64_small z Hz).
  bool_cases; [by apply as_u64_small|].
  ints. rewrite <- (Z_mod_plus_full _ 1), Z.mod_small by lia. lia.
Qed.

#[export] Hint Resolve as_u64_range as_i64_range as_u64_small : wrkr.

(** ** Generic list lemmas *)

(** [Vec::is_empty]. *)
Definition is_empty {A} (l : list A) : bool :=
  match l with [] => true | _ => false end.

Lemma is_empty_false {A} (l : list A) : l ≠ [] → is_empty l = false.
Proof. by destruct l. Qed.
Lemma is_empty_true {A} (l : list A) : is_empty l = true ↔ l = [].
Proof. by destruct l. Qed.

(** The last element of a non-empty list is found at its last index. *)
Lemma last_lookup_pred {A} (l : list A) : last l = l !! pred (length l).
Proof. apply last_lookup. Qed.
