(* ===== verification/Std.v ===== *)
(** * Pieces of the Rust standard library the code computes with

    [std::time::Duration] (as a number of nanoseconds), [<[T]>::binary_search_by]
    and [partition_point] (the halving loop of [core::slice]), with the
    contracts their documentation gives. *)
From S2P Require Import Prelude.

(** ** [std::time::Duration]

    A duration is 64 bits of seconds and a sub-second count of nanoseconds:
    here the total number of nanoseconds. *)
Module Duration.
Definition NANOS_PER_SEC : Z := 10 ^ 9.
Definition MAX : Z := u64_max * NANOS_PER_SEC + (NANOS_PER_SEC - 1).
Definition ZERO : Z := 0.
Definition from_secs (s : Z) : Z := s * NANOS_PER_SEC.
Definition from_millis (ms : Z) : Z := ms * 10 ^ 6.
Definition from_nanos (ns : Z) : Z := ns.
Definition saturating_add (a b : Z) : Z := Z.min MAX (a + b).
Definition saturating_sub (a b : Z) : Z := Z.max 0 (a - b).
Definition is_zero (a : Z) : bool := a =? 0.
Definition as_micros (a : Z) : Z := a / 1000.
Definition valid (d : Z) : Prop := 0 ≤ d ≤ MAX.
End Duration.

(** ** Binary search *)
Module Slice.
Local Open Scope nat_scope.

(** The loop of [core::slice::binary_search_by], [base] and [size] being its
    two variables and [gt] the test for [Ordering::Greater]; [size] halves, so
    [length l] iterations are enough. *)
Fixpoint search_loop {A} (fuel : nat) (l : list A) (gt : A → bool) (base size : nat) : nat :=
  match fuel with
  | O => base
  | S fuel =>
      if size <=? 1 then base
      else
        let half := size / 2 in
        let mid := base + half in
        let base' := match l !! mid with
                     | Some y => if gt y then base else mid
                     | None => base
                     end in
        search_loop fuel l gt base' (size - half)
  end.

(** [Ok i]: an index holding [x]; [Err i]: the index where [x] could be inserted. *)
Definition binary_search (l : list Z) (x : Z) : result nat nat :=
  match l with
  | [] => Err 0
  | _ =>
      let base := search_loop (length l) l (λ y, x <? y)%Z 0 (length l) in
      match l !! base with
      | Some y => if (y =? x)%Z then Ok base
                  else Err (base + (if (y <? x)%Z then 1 else 0))
      | None => Err base
      end
  end.

(** [match .. { Ok(i) => i, Err(i) => i }]. *)
Definition search_index (l : list Z) (x : Z) : nat :=
  match binary_search l x with Ok i => i | Err i => i end.

(** [partition_point]: the same loop, the predicate as [Less], its negation as
    [Greater]. *)
Definition partition_point {A} (l : list A) (pred : A → bool) : nat :=
  match l with
  | [] => 0
  | _ =>
      let base := search_loop (length l) l (λ y, negb (pred y)) 0 (length l) in
      match l !! base with
      | Some y => base + (if pred y then 1 else 0)
      | None => base
      end
  end.

Definition sorted (l : list Z) : Prop :=
  ∀ i j a b, i ≤ j → l !! i = Some a → l !! j = Some b → (a ≤ b)%Z.

(** Once a test is true along the list, it stays true. *)
Definition upward {A} (l : list A) (gt : A → bool) : Prop :=
  ∀ i j a b, i ≤ j → l !! i = Some a → l !! j = Some b → gt a = true → gt b = true.

Lemma search_loop_spec {A} fuel (l : list A) gt base size :
  upward l gt → size ≤ fuel → 1 ≤ size → base + size ≤ length l →
  (base = 0 ∨ ∃ y, l !! base = Some y ∧ gt y = false) →
  (∀ j y, base + size ≤ j → l !! j = Some y → gt y = true) →
  let b := search_loop fuel l gt base size in
  b < length l ∧ (b = 0 ∨ ∃ y, l !! b = Some y ∧ gt y = false) ∧
  (∀ j y, b < j → l !! j = Some y → gt y = true).
Proof.
  intros Hs. revert base size.
  induction fuel as [|fuel IH]; intros base size Hf Hsz Hlen Hlo Hhi; [lia|].
  cbn [search_loop]. destruct (Nat.leb_spec size 1).
  { split_and!; [lia|done|]. intros; eapply Hhi; [|done]; lia. }
  pose proof (Nat.div_lt size 2 ltac:(lia) ltac:(lia)).
  pose proof (Nat.div_le_lower_bound size 2 1 ltac:(lia) ltac:(lia)).
  pose proof (Nat.Div0.mul_div_le size 2).
  cbv zeta. set (half := size / 2) in *.
  destruct (lookup_lt_is_Some_2 l (base + half)) as [y Hy]; [lia|].
  rewrite Hy. destruct (gt y) eqn:Hgt.
  - apply IH; try lia; [done|].
    intros j z Hj Hz. by apply (Hs (base + half) j y z ltac:(lia) Hy Hz).
  - apply IH; try lia; [right; eauto|].
    intros j z Hj Hz. eapply Hhi; [|done]. lia.
Qed.

(** The documented contract of [binary_search] on a sorted slice. *)
Lemma binary_search_spec l x :
  sorted l →
  match binary_search l x with
  | Ok i => l !! i = Some x
  | Err i => i ≤ length l ∧ (∀ j y, j < i → l !! j = Some y → (y < x)%Z) ∧
             (∀ j y, i ≤ j → l !! j = Some y → (x < y)%Z)
  end.
Proof.
  intros Hs. unfold binary_search. destruct l as [|h t] eqn:El.
  { simpl. split_and!; [lia| lia|]. intros j y _. by rewrite lookup_nil. }
  rewrite <- El in *. assert (0 < length l) by (rewrite El; simpl; lia).
  destruct (search_loop_spec (length l) l (λ y, x <? y)%Z 0 (length l)) as (Hb & Hlo & Hhi);
    [|lia|lia|lia|by left| |].
  { intros i j a b Hij Ha Hb. pose proof (Hs i j a b Hij Ha Hb).
    rewrite !Z.ltb_lt. lia. }
  { intros j y Hj Hy. apply lookup_lt_Some in Hy. lia. }
  set (b := search_loop _ _ _ _ _) in *.
  destruct (lookup_lt_is_Some_2 l b Hb) as [y Hy]. rewrite Hy.
  destruct (Z.eqb_spec y x) as [->|Hne]; [done|].
  destruct (Z.ltb_spec y x) as [Hlt|Hge].
  - split_and!; [lia| |].
    + intros j z Hj Hz. pose proof (Hs j b z y ltac:(lia) Hz Hy). lia.
    + intros j z Hj Hz. apply Z.ltb_lt. eapply Hhi; [|done]. lia.
  - assert (b = 0) as E by (destruct Hlo as [?|(z & Hz & Hg%Z.ltb_ge)]; [done|]; simplify_eq; lia).
    rewrite E in *. split_and!; [lia|lia|].
    intros j z Hj Hz. destruct (decide (j = 0)) as [->|]; [simplify_eq; lia|].
    apply Z.ltb_lt. apply (Hhi j z); [lia|done].
Qed.

(** The contract of [partition_point]: on a partitioned slice, the number of
    elements the predicate holds of. *)
Lemma partition_point_spec {A} (l : list A) pred :
  upward l (λ y, negb (pred y)) →
  let n := partition_point l pred in
  n ≤ length l ∧ (∀ j y, j < n → l !! j = Some y → pred y = true) ∧
  (∀ j y, n ≤ j → l !! j = Some y → pred y = false).
Proof.
  intros Hs. unfold partition_point. destruct l as [|h t] eqn:El.
  { simpl. split_and!; [lia|lia|]. intros j y _. by rewrite lookup_nil. }
  rewrite <- El in *. assert (0 < length l) by (rewrite El; simpl; lia).
  destruct (search_loop_spec (length l) l (λ y, negb (pred y)) 0 (length l))
    as (Hb & Hlo & Hhi); [done|lia|lia|lia|by left| |].
  { intros j y Hj Hy. apply lookup_lt_Some in Hy. lia. }
  set (b := search_loop _ _ _ _ _) in *.
  destruct (lookup_lt_is_Some_2 l b Hb) as [y Hy]. rewrite Hy.
  assert (∀ j z, b < j → l !! j = Some z → pred z = false) as Hr.
  { intros j z Hj Hz. specialize (Hhi j z Hj Hz). by apply negb_true_iff in Hhi. }
  destruct (pred y) eqn:Hp.
  - split_and!; [lia| |intros j z ??; apply (Hr j z); [lia|done]].
    intros j z Hj Hz. destruct (pred z) eqn:Hz'; [done|].
    enough (negb (pred y) = true) by (by rewrite Hp in *).
    apply (Hs j b z y); [lia|done|done|by rewrite Hz'].
  - assert (b = 0) as ->.
    { destruct Hlo as [?|(z & Hz & Hg)]; [done|]. simplify_eq. by rewrite Hp in Hg. }
    split_and!; [lia|lia|]. intros j z _ Hz.
    destruct (decide (j = 0)) as [->|]; [by simplify_eq|]. apply (Hr j z); [lia|done].
Qed.

(** When every element is below [x], or the first one not below [x] is at
    [i] and is unique, the search ends at [i]. *)
Lemma search_index_spec l x i y :
  sorted l → l !! i = Some y → (x ≤ y)%Z →
  (∀ j z, j < i → l !! j = Some z → (z < x)%Z) →
  (∀ j z, i < j → l !! j = Some z → (x < z)%Z) →
  search_index l x = i.
Proof.
  intros Hs Hi Hxy Hlo Hhi. unfold search_index.
  pose proof (binary_search_spec l x Hs) as Hb.
  destruct (binary_search l x) as [k|k].
  - destruct (Nat.lt_trichotomy k i) as [?|[?|?]]; [|done|].
    + specialize (Hlo k x ltac:(done) Hb). lia.
    + specialize (Hhi k x ltac:(done) Hb). lia.
  - destruct Hb as (Hk & Hl & Hr). destruct (Nat.lt_trichotomy k i) as [?|[?|?]]; [|done|].
    + destruct (lookup_lt_is_Some_2 l k) as [z Hz]; [apply lookup_lt_Some in Hi; lia|].
      specialize (Hlo k z ltac:(done) Hz). specialize (Hr k z ltac:(lia) Hz). lia.
    + specialize (Hl i y ltac:(done) Hi). lia.
Qed.
End Slice.
