(* ===== verification/F64.v ===== *)
(** * IEEE-754 binary64 as the code uses it

    An [f64] is a [spec_float] of the Standard Library at precision 53 and
    maximal exponent 1024; the operators, casts and [str::parse::<f64>] are
    those of Rust, round-to-nearest-even.  All NaNs are one value. *)
From Stdlib Require Import SpecFloat.
From S2P Require Import Prelude.

Definition f64 := spec_float.
Definition prec : Z := 53.
Definition emax : Z := 1024.

Definition f_zero : f64 := S754_zero false.
Definition f_inf : f64 := S754_infinity false.

(** [u64 as f64], [i64 as f64]. *)
Definition of_Z (z : Z) : f64 := binary_normalize prec emax z 0 false.

Definition fadd : f64 → f64 → f64 := SFadd prec emax.
Definition fsub : f64 → f64 → f64 := SFsub prec emax.
Definition fmul : f64 → f64 → f64 := SFmul prec emax.
Definition fdiv : f64 → f64 → f64 := SFdiv prec emax.
Definition fsqrt : f64 → f64 := SFsqrt prec emax.

(** Comparisons: every one is false on a NaN. *)
Definition flt (a b : f64) : bool := SFltb a b.
Definition fle (a b : f64) : bool := SFleb a b.
Definition fgt (a b : f64) : bool := SFltb b a.
Definition fge (a b : f64) : bool := SFleb b a.
Definition feq (a b : f64) : bool := SFeqb a b.

(** [f64::max]: a NaN operand gives the other one. *)
Definition fmax (a b : f64) : f64 :=
  match a, b with
  | S754_nan, _ => b
  | _, S754_nan => a
  | _, _ => if flt a b then b else a
  end.

(** The integer part of a finite float, truncated towards zero. *)
Definition trunc (f : f64) : Z :=
  match f with
  | S754_finite s m e =>
      let v := if 0 <=? e then Z.shiftl (Zpos m) e else Z.shiftr (Zpos m) (- e) in
      if s then - v else v
  | _ => 0
  end.

(** [f64 as u64], [f64 as i64]: truncation, saturating, NaN to 0. *)
Definition to_u64 (f : f64) : Z :=
  match f with
  | S754_infinity s => if s then 0 else u64_max
  | _ => Z.max 0 (Z.min u64_max (trunc f))
  end.
Definition to_i64 (f : f64) : Z :=
  match f with
  | S754_infinity s => if s then i64_min else i64_max
  | _ => Z.max i64_min (Z.min i64_max (trunc f))
  end.

(** [f64::floor] and [f64::round] (half away from zero). *)
Definition signed (s : bool) (z : Z) : f64 :=
  if z =? 0 then S754_zero s else of_Z (if s then - z else z).
Definition floor (f : f64) : f64 :=
  match f with
  | S754_finite s m e =>
      if 0 <=? e then f
      else let v := if s then - Z.shiftr (- Zneg m + (2 ^ (- e) - 1)) (- e)
                    else Z.shiftr (Zpos m) (- e) in
           if v =? 0 then S754_zero s else of_Z v
  | _ => f
  end.
Definition round (f : f64) : f64 :=
  match f with
  | S754_finite s m e =>
      if 0 <=? e then f
      else signed s (Z.shiftr (2 * Zpos m + 2 ^ (- e)) (1 - e))
  | _ => f
  end.

(** The decimal [(-1)^s * m * 10^e], correctly rounded. *)
Definition of_decimal (s : bool) (m e : Z) : f64 :=
  match m with
  | Zpos p =>
      let digits := Z.log2 m in
      if 2000 <? e then S754_infinity s
      else if e <? - 2000 - digits then S754_zero s
      else if 0 <=? e then
        binary_normalize prec emax (if s then - (m * 10 ^ e) else m * 10 ^ e) 0 s
      else
        let '(q, ex, lx) := SFdiv_core_binary prec emax m 0 (10 ^ (- e)) 0 in
        binary_round_aux prec emax s q ex lx
  | _ => S754_zero s
  end.

(** ** Bit patterns ([from_bits], [to_bits]) and the [f32] conversions *)

(** A pattern of [mw] mantissa bits and [ew] exponent bits. *)
Definition from_bits (mw ew : Z) (b : Z) : spec_float :=
  let m := b mod 2 ^ mw in
  let e := Z.shiftr b mw mod 2 ^ ew in
  let s := Z.testbit b (mw + ew) in
  let emin := 3 - 2 ^ (ew - 1) - (mw + 1) in
  if e =? 0 then
    match m with Zpos p => S754_finite s p emin | _ => S754_zero s end
  else if e =? 2 ^ ew - 1 then (if m =? 0 then S754_infinity s else S754_nan)
  else match m + 2 ^ mw with Zpos p => S754_finite s p (emin + e - 1) | _ => S754_nan end.

Definition to_bits (mw ew : Z) (f : spec_float) : Z :=
  let emin := 3 - 2 ^ (ew - 1) - (mw + 1) in
  let sign (s : bool) := if s then 2 ^ (mw + ew) else 0 in
  match f with
  | S754_zero s => sign s
  | S754_infinity s => sign s + (2 ^ ew - 1) * 2 ^ mw
  | S754_nan => (2 ^ ew - 1) * 2 ^ mw + 2 ^ (mw - 1)
  | S754_finite s m e =>
      if Zpos m <? 2 ^ mw then sign s + Zpos m
      else sign s + (e - emin + 1) * 2 ^ mw + (Zpos m - 2 ^ mw)
  end.

Definition f64_from_bits : Z → f64 := from_bits 52 11.
Definition f64_to_bits : f64 → Z := to_bits 52 11.

(** [f64::from(f32::from_bits(b))] is exact; [f as f32] rounds. *)
Definition f64_from_f32_bits (b : Z) : f64 :=
  match from_bits 23 8 b with
  | S754_finite s m e => binary_normalize prec emax (if s then Zneg m else Zpos m) e s
  | f => f
  end.
Definition f32_bits_of_f64 (f : f64) : Z :=
  to_bits 23 8
    match f with
    | S754_finite s m e => binary_normalize 24 128 (if s then Zneg m else Zpos m) e s
    | f => f
    end.

(** ** Checks against known values *)
Example of_Z_3 : f64_to_bits (of_Z 3) = 0x4008000000000000.
Proof. reflexivity. Qed.
Example div_1_3 : f64_to_bits (fdiv (of_Z 1) (of_Z 3)) = 0x3FD5555555555555.
Proof. reflexivity. Qed.
Example decimal_01 : f64_to_bits (of_decimal false 1 (-1)) = 0x3FB999999999999A.
Proof. reflexivity. Qed.
Example decimal_5em324 : f64_to_bits (of_decimal false 5 (-324)) = 1.
Proof. vm_compute. reflexivity. Qed.
Example f32_15 : f32_bits_of_f64 (of_decimal false 15 (-1)) = 0x3FC00000.
Proof. reflexivity. Qed.
Example f32_min : f64_to_bits (f64_from_f32_bits 1) = 0x36A0000000000000.
Proof. reflexivity. Qed.
Example round_half : trunc (round (of_decimal true 25 (-1))) = -3.
Proof. reflexivity. Qed.
Example floor_neg : trunc (floor (of_decimal true 21 (-1))) = -3.
Proof. reflexivity. Qed.

(** ** Lemmas *)
Lemma to_u64_range f : in_u64 (to_u64 f).
Proof. destruct f as [|[]| |]; simpl; ints_lia. Qed.
Lemma to_i64_range f : in_i64 (to_i64 f).
Proof. destruct f as [|[]| |]; simpl; ints_lia. Qed.

Lemma compare_nan a : flt S754_nan a = false ∧ fle S754_nan a = false ∧
  fgt S754_nan a = false ∧ fge S754_nan a = false ∧ feq S754_nan a = false.
Proof. by destruct a. Qed.
