(* ===== verification/Config.v ===== *)
(** * Run configuration data (wrkr-core/src/config.rs, thresholds.rs, metrics_context.rs)

    The records and enums the runner is configured with.  A [Duration] is its
    number of nanoseconds, a [u64] the [Z] it denotes, a string its UTF-8 bytes. *)
From S2P Require Import Prelude Std.

(** [config.rs]: [Stage]. *)
Record Stage := mkStage { st_duration : Z; st_target : Z }.

(** [config.rs]: [RunConfig], the overrides given on the command line. *)
Record RunConfig := mkRunConfig {
  cfg_iterations : option Z;
  cfg_vus : option Z;
  cfg_duration : option Z }.

(** [config.rs]: [ScenarioExecutor]. *)
Inductive ScenarioExecutor :=
  | ConstantVus (vus : Z)
  | RampingVus (start_vus : Z) (stages : list Stage)
  | RampingArrivalRate (start_rate time_unit pre_allocated_vus max_vus : Z)
      (stages : list Stage).

(** [config.rs]: [ScenarioExecutorKind]. *)
Inductive ScenarioExecutorKind := KConstantVus | KRampingVus | KRampingArrivalRate.

(** The [strum::EnumString] derivation: the listed strings, matched exactly. *)
Definition parse_executor_kind (s : string) : option ScenarioExecutorKind :=
  if decide (s ∈ ["constant-vus"; "constant"; "per-vu-iterations"]%string)
  then Some KConstantVus
  else if decide (s = "ramping-vus"%string) then Some KRampingVus
  else if decide (s ∈ ["ramping-arrival-rate"; "ramping-rps"]%string)
  then Some KRampingArrivalRate
  else None.

Definition is_ramping (k : ScenarioExecutorKind) : bool :=
  match k with KRampingVus | KRampingArrivalRate => true | KConstantVus => false end.

(** [metrics_context.rs]: [MetricsContext]. *)
Record MetricsContext := mkMetricsContext {
  mc_scenario : string;
  mc_scenario_tags : list (string * string) }.

(** [config.rs]: [ScenarioConfig], a resolved scenario. *)
Record ScenarioConfig := mkScenarioConfig {
  sc_exec : string;
  sc_metrics_ctx : MetricsContext;
  sc_executor : ScenarioExecutor;
  sc_iterations : option Z;
  sc_duration : option Z }.

(** [thresholds.rs]: [ThresholdSet]. *)
Record ThresholdSet := mkThresholdSet {
  ts_metric : string;
  ts_tags : list (string * string);
  ts_expressions : list string }.

(** [config.rs]: [ScenarioOptions], a scenario as a script declares it. *)
Record ScenarioOptions := mkScenarioOptions {
  so_name : string;
  so_exec : option string;
  so_tags : list (string * string);
  so_executor : option string;
  so_vus : option Z;
  so_iterations : option Z;
  so_duration : option Z;
  so_start_vus : option Z;
  so_stages : list Stage;
  so_start_rate : option Z;
  so_time_unit : option Z;
  so_pre_allocated_vus : option Z;
  so_max_vus : option Z }.

(** [config.rs]: [ScriptOptions]. *)
Record ScriptOptions := mkScriptOptions {
  op_vus : option Z;
  op_iterations : option Z;
  op_duration : option Z;
  op_scenarios : list ScenarioOptions;
  op_thresholds : list ThresholdSet }.

#[export] Instance Stage_eq_dec : EqDecision Stage.
Proof. solve_decision. Defined.
#[export] Instance ScenarioExecutor_eq_dec : EqDecision ScenarioExecutor.
Proof. solve_decision. Defined.
#[export] Instance MetricsContext_eq_dec : EqDecision MetricsContext.
Proof. solve_decision. Defined.
#[export] Instance ScenarioConfig_eq_dec : EqDecision ScenarioConfig.
Proof. solve_decision. Defined.
