(* ===== verification/Coll.v ===== *)
(** * Collections: iteration order, saturating sums and the order of strings

    A [HashMap] or [DashMap] is a [gmap]; the order in which it is iterated is
    unspecified, so it is an argument of every definition that iterates.  The
    file also has the sums the metric folds compute. *)
From S2P Require Import Prelude.

(** ** Iteration order *)
Class MapIter := {
  map_iter : ∀ {K A} `{Countable K}, gmap K A → list (K * A);
  map_iter_perm {K A} `{Countable K} (m : gmap K A) : map_iter m ≡ₚ map_to_list m }.

(** An instance for evaluation. *)
#[export] Instance default_iter : MapIter := {|
  map_iter _ _ _ _ m := map_to_list m;
  map_iter_perm _ _ _ _ m := reflexivity _ |}.

(** The opposite order. *)
Definition reverse_iter : MapIter := {|
  map_iter _ _ _ _ m := reverse (map_to_list m);
  map_iter_perm _ _ _ _ m := reverse_Permutation _ |}.

Lemma elem_of_map_iter `{MapIter} `{Countable K} {A} (m : gmap K A) k x :
  (k, x) ∈ map_iter m ↔ m !! k = Some x.
Proof. rewrite map_iter_perm. apply elem_of_map_to_list. Qed.

Lemma NoDup_fst_map_iter `{MapIter} `{Countable K} {A} (m : gmap K A) : NoDup (map_iter m).*1.
Proof. rewrite map_iter_perm. apply NoDup_fst_map_to_list. Qed.

(** ** Sums *)
Definition sumf {A} (f : A → Z) (l : list A) : Z := foldr (λ x acc, f x + acc) 0 l.

Lemma sumf_cons {A} (f : A → Z) x l : sumf f (x :: l) = f x + sumf f l.
Proof. done. Qed.
Lemma sumf_app {A} (f : A → Z) l k : sumf f (l ++ k) = sumf f l + sumf f k.
Proof. induction l as [|x l IH]; [done|]. rewrite <- app_comm_cons, !sumf_cons, IH. lia. Qed.
#[export] Instance sumf_perm {A} (f : A → Z) : Proper ((≡ₚ) ==> (=)) (sumf f).
Proof. induction 1; rewrite ?sumf_cons; simpl in *; lia. Qed.
Lemma sumf_ext {A} (f g : A → Z) l : (∀ x, x ∈ l → f x = g x) → sumf f l = sumf g l.
Proof.
  induction l as [|x l IH]; intros Hfg; [done|]. rewrite !sumf_cons, (Hfg x), IH; set_solver.
Qed.
Lemma sumf_nonneg {A} (f : A → Z) l : (∀ x, x ∈ l → 0 ≤ f x) → 0 ≤ sumf f l.
Proof.
  induction l as [|x l IH]; intros Hf; [done|]. rewrite sumf_cons.
  pose proof (Hf x ltac:(set_solver)). pose proof (IH ltac:(set_solver)). lia.
Qed.
Lemma sumf_le {A} (f g : A → Z) l : (∀ x, x ∈ l → f x ≤ g x) → sumf f l ≤ sumf g l.
Proof.
  induction l as [|x l IH]; intros Hf; [done|]. rewrite !sumf_cons.
  pose proof (Hf x ltac:(set_solver)). pose proof (IH ltac:(set_solver)). lia.
Qed.
Lemma sumf_elem_le {A} (f : A → Z) l x :
  (∀ y, y ∈ l → 0 ≤ f y) → x ∈ l → f x ≤ sumf f l.
Proof.
  induction l as [|y l IH]; intros Hf Hx; [set_solver|]. rewrite sumf_cons.
  pose proof (Hf y ltac:(set_solver)). pose proof (sumf_nonneg f l ltac:(set_solver)).
  apply elem_of_cons in Hx as [->|Hx]; [lia|]. specialize (IH ltac:(set_solver) Hx). lia.
Qed.

Lemma sumf_zero {A} (f : A → Z) l : (∀ x, x ∈ l → f x = 0) → sumf f l = 0.
Proof.
  induction l as [|x l IH]; intros Hf; [done|]. rewrite sumf_cons, (Hf x), IH; [done| |]; set_solver.
Qed.
Lemma sumf_pos {A} (f : A → Z) l : 0 < sumf f l → ∃ x, x ∈ l ∧ 0 < f x.
Proof.
  induction l as [|x l IH]; [done|]. rewrite sumf_cons. intros H.
  destruct (decide (0 < f x)); [exists x; split; [by left|done]|]. destruct IH as (y & Hy & Hf); [lia|].
  exists y. split; [by right|done].
Qed.

Lemma sumf_insert {A} (f : A → Z) (l : list A) i x y :
  l !! i = Some x → sumf f (<[i := y]> l) = sumf f l - f x + f y.
Proof.
  revert i. induction l as [|z l IH]; intros [|i] Hi; simplify_eq/=; rewrite ?sumf_cons; [lia|].
  rewrite (IH i Hi). lia.
Qed.

(** A loop of saturating additions computes the saturated sum: [get] reads the
    accumulator out of the loop's state. *)
Lemma foldl_sat {A St} (get : St → Z) (step : St → A → St) (f : A → Z) (l : list A) (s : St) :
  (∀ s x, x ∈ l → in_u64 (get s) → get (step s x) = u64_sat_add (get s) (f x)) →
  in_u64 (get s) → (∀ x, x ∈ l → 0 ≤ f x) →
  get (foldl step s l) = Z.min u64_max (get s + sumf f l).
Proof.
  revert s. induction l as [|x l IH]; intros s Hstep Hs Hf; simpl.
  { unfold sumf; simpl. ints_lia. }
  pose proof (Hf x ltac:(set_solver)). pose proof (sumf_nonneg f l ltac:(set_solver)).
  pose proof (Hstep s x ltac:(set_solver) Hs) as Hx.
  rewrite IH; rewrite ?Hx; [ints_lia|set_solver|ints_lia|set_solver].
Qed.

(** A loop of additions that does not saturate. *)
Lemma foldl_exact {A St} (get : St → Z) (inv : St → Prop) (step : St → A → St) (f : A → Z)
    (l : list A) (s : St) :
  (∀ s x, x ∈ l → inv s → get s + f x ≤ u64_max →
     inv (step s x) ∧ get (step s x) = get s + f x) →
  inv s → (∀ x, x ∈ l → 0 ≤ f x) → get s + sumf f l ≤ u64_max →
  inv (foldl step s l) ∧ get (foldl step s l) = get s + sumf f l.
Proof.
  revert s. induction l as [|x l IH]; intros s Hstep Hs Hf Hmax; simpl.
  { unfold sumf; simpl. split; [done|lia]. }
  rewrite sumf_cons in *.
  pose proof (Hf x ltac:(set_solver)). pose proof (sumf_nonneg f l ltac:(set_solver)).
  destruct (Hstep s x ltac:(set_solver) Hs ltac:(lia)) as [Hs1 Hx].
  destruct (IH (step s x)) as [? IHe]; [set_solver|done|set_solver|lia|].
  split; [done|]. rewrite IHe, Hx. lia.
Qed.

(** The sum of a map's values, over the keys [P] selects or over all. *)
Definition map_sum_on `{Countable K} (P : K → bool) (m : gmap K Z) : Z :=
  sumf (λ p, if P p.1 then p.2 else 0) (map_to_list m).
Definition map_sum `{Countable K} (m : gmap K Z) : Z := sumf snd (map_to_list m).

Lemma map_sum_on_all `{Countable K} (m : gmap K Z) : map_sum m = map_sum_on (λ _, true) m.
Proof. apply sumf_ext. by intros [k v]. Qed.

Lemma map_sum_on_empty `{Countable K} P : map_sum_on P (∅ : gmap K Z) = 0.
Proof. unfold map_sum_on. by rewrite map_to_list_empty. Qed.

Lemma map_sum_on_insert `{Countable K} P (m : gmap K Z) k v :
  map_sum_on P (<[k := v]> m) =
  map_sum_on P m + (if P k then v - default 0 (m !! k) else 0).
Proof.
  unfold map_sum_on. destruct (m !! k) as [c|] eqn:Hk; simpl.
  - rewrite <- (insert_delete_id m k c Hk) at 2. rewrite <- (insert_delete_eq m).
    rewrite !map_to_list_insert by apply lookup_delete_eq. rewrite !sumf_cons. simpl.
    destruct (P k); lia.
  - rewrite map_to_list_insert by done. rewrite sumf_cons. simpl. destruct (P k); lia.
Qed.

Lemma map_sum_empty `{Countable K} : map_sum (∅ : gmap K Z) = 0.
Proof. rewrite map_sum_on_all. apply map_sum_on_empty. Qed.

Lemma map_sum_insert `{Countable K} (m : gmap K Z) k v :
  map_sum (<[k := v]> m) = map_sum m - default 0 (m !! k) + v.
Proof. rewrite !map_sum_on_all, map_sum_on_insert. lia. Qed.

Lemma map_sum_lookup_le `{Countable K} (m : gmap K Z) k v :
  map_Forall (λ _ x, 0 ≤ x) m → m !! k = Some v → v ≤ map_sum m.
Proof.
  intros Hm Hk. apply (sumf_elem_le snd _ (k, v)).
  - intros [k' v'] Hx%elem_of_map_to_list. by apply (Hm k').
  - by apply elem_of_map_to_list.
Qed.

Lemma length_omap_le {A B} (f : A → option B) (l : list A) : (length (omap f l) ≤ length l)%nat.
Proof. induction l as [|x l IH]; csimpl; [lia|]. destruct (f x); csimpl; lia. Qed.

(** ** Strings are ordered by their bytes *)
Definition str_le (a b : string) : Prop := String.leb a b = true.
#[export] Instance str_le_dec a b : Decision (str_le a b).
Proof. unfold str_le. apply _. Defined.
#[export] Instance str_le_total : Total str_le.
Proof. intros a b. apply String.leb_total. Qed.
#[export] Instance str_le_trans : Transitive str_le.
Proof.
  unfold str_le, String.leb. intros a. induction a as [|x a IH]; intros [|y b] [|z c]; simpl; try done.
  unfold Ascii.compare.
  destruct (N.compare_spec (Ascii.N_of_ascii x) (Ascii.N_of_ascii y)) as [E1|E1|E1]; [| |done];
  destruct (N.compare_spec (Ascii.N_of_ascii y) (Ascii.N_of_ascii z)) as [E2|E2|E2]; try done;
  destruct (N.compare_spec (Ascii.N_of_ascii x) (Ascii.N_of_ascii z)) as [E3|E3|E3]; try lia; try done.
  apply IH.
Qed.
#[export] Instance str_le_antisymm : AntiSymm (=) str_le.
Proof. intros a b. apply String.leb_antisym. Qed.
