(* ===== verification/Schedule.v ===== *)
(** * The ramping schedule (wrkr-core/src/schedule.rs)

    [RampingU64Schedule]: a piecewise-linear target over a list of stages,
    evaluated by binary search on the stages' cumulative ends.  Indexing a
    vector out of range panics, which is [None] here. *)
From S2P Require Import Prelude Std Config.

Record RampingU64Schedule := mkSchedule {
  sch_start : Z;
  sch_stages : list Stage;
  sch_cumulative_ends : list Z }.

Record StageSnapshot := mkStageSnapshot {
  ss_index : nat;
  ss_count : nat;
  ss_stage_elapsed : Z;
  ss_stage_remaining : Z;
  ss_start_target : Z;
  ss_end_target : Z;
  ss_current_target : Z }.

(** The loop of [new]: [acc] is the running sum of the durations. *)
Fixpoint cumulative (acc : Z) (stages : list Stage) : list Z :=
  match stages with
  | [] => []
  | s :: rest =>
      let acc := Duration.saturating_add acc (st_duration s) in
      acc :: cumulative acc rest
  end.

Definition new (start : Z) (stages : list Stage) : RampingU64Schedule :=
  mkSchedule start stages (cumulative Duration.ZERO stages).

Definition total_duration (s : RampingU64Schedule) : Z :=
  default Duration.ZERO (last (sch_cumulative_ends s)).

Definition is_done (s : RampingU64Schedule) (elapsed : Z) : bool :=
  total_duration s <=? elapsed.

(** What the three queries read for the stage at [idx]: the times it starts and
    ends at and the targets it ramps between. *)
Record Window := mkWindow {
  w_start : Z; w_end : Z; w_start_target : Z; w_end_target : Z }.

Definition window (s : RampingU64Schedule) (idx : nat) : option Window :=
  stage_end ← sch_cumulative_ends s !! idx;
  stage_start ← match idx with
                | O => Some Duration.ZERO
                | S i => sch_cumulative_ends s !! i
                end;
  stage ← sch_stages s !! idx;
  start_target ← match idx with
                 | O => Some (sch_start s)
                 | S i => st_target <$> sch_stages s !! i
                 end;
  Some (mkWindow stage_start stage_end start_target (st_target stage)).

(** The linear interpolation inside a stage, in [i128], [/] truncating. *)
Definition interpolate (start_target end_target stage_elapsed stage_duration : Z) : Z :=
  let delta := end_target - start_target in
  let cur := start_target +
    Z.quot (i128_sat_mul delta stage_elapsed) (Z.max stage_duration 1) in
  as_u64 (Z.max 0 (Z.min u64_max cur)).

Definition target_at (s : RampingU64Schedule) (elapsed : Z) : option Z :=
  if is_empty (sch_stages s) then Some (sch_start s)
  else
    if elapsed =? Duration.ZERO then Some (sch_start s)
    else if total_duration s <=? elapsed then
      Some (default (sch_start s) (st_target <$> last (sch_stages s)))
    else
      let idx := Slice.search_index (sch_cumulative_ends s) elapsed in
      w ← window s idx;
      let stage_duration := Duration.saturating_sub (w_end w) (w_start w) in
      let stage_elapsed := Duration.saturating_sub elapsed (w_start w) in
      Some (if Duration.is_zero stage_duration then w_end_target w
            else interpolate (w_start_target w) (w_end_target w)
                   stage_elapsed stage_duration).

(** [None] for a panic, [Some None] for the [None] the function returns. *)
Definition stage_snapshot_at (s : RampingU64Schedule) (elapsed : Z) :
    option (option StageSnapshot) :=
  if is_empty (sch_stages s) then Some None
  else
    let total := total_duration s in
    let clamped := Z.min elapsed total in
    let idx := if total <=? clamped then pred (length (sch_stages s))
               else Slice.search_index (sch_cumulative_ends s) clamped in
    w ← window s idx;
    let stage_duration := Duration.saturating_sub (w_end w) (w_start w) in
    let stage_elapsed := Duration.saturating_sub clamped (w_start w) in
    let stage_remaining := Duration.saturating_sub stage_duration stage_elapsed in
    current ← target_at s clamped;
    Some (Some (mkStageSnapshot idx (length (sch_stages s)) stage_elapsed
      stage_remaining (w_start_target w) (w_end_target w) current)).

(** [Duration::from_millis(50)], [next_recheck_in]'s conservative default. *)
Definition default_sleep : Z := Duration.from_millis 50.

Definition next_recheck_in (s : RampingU64Schedule) (elapsed vu_index : Z) : option Z :=
  if is_empty (sch_stages s) then Some default_sleep
  else
    if total_duration s <=? elapsed then Some Duration.ZERO
    else
      let idx := Slice.search_index (sch_cumulative_ends s) elapsed in
      w ← window s idx;
      let stage_duration := Duration.saturating_sub (w_end w) (w_start w) in
      let stage_elapsed := Duration.saturating_sub elapsed (w_start w) in
      let until_end := Z.min (Duration.saturating_sub (w_end w) elapsed) default_sleep in
      cur_target ← target_at s elapsed;
      Some
        (if vu_index <=? cur_target then Duration.from_millis 1
         else if w_end_target w <=? w_start_target w then until_end
         else
           let delta := w_end_target w - w_start_target w in
           if delta <=? 0 then default_sleep
           else if vu_index <=? w_start_target w then Duration.from_millis 0
           else if w_end_target w <? vu_index then until_end
           else
             let needed_ns := Z.max 0
               (Z.quot (i128_sat_mul (vu_index - w_start_target w) stage_duration) delta) in
             let wait_ns := Z.max 0 (needed_ns - stage_elapsed) in
             let wait := Duration.from_nanos (as_u64 (Z.min wait_ns u64_max)) in
             Z.min wait default_sleep).

(** ** The ideal schedule

    The target as the documentation describes it: walk the stages, ramping
    linearly from the previous target to the stage's own over its duration. *)
Fixpoint ideal_target (start : Z) (stages : list Stage) (elapsed : Z) : Z :=
  match stages with
  | [] => start
  | s :: rest =>
      if elapsed <=? st_duration s then
        start + Z.quot ((st_target s - start) * elapsed) (st_duration s)
      else ideal_target (st_target s) rest (elapsed - st_duration s)
  end.

(** The sum of the stages' durations. *)
Definition sum_durations (stages : list Stage) : Z := foldr (λ s n, st_duration s + n) 0 stages.

(** Stages a script can give: [u64] targets and durations, each stage of some
    length, and all of them together within 2^63 nanoseconds (292 years). *)
Definition stages_ok (start : Z) (stages : list Stage) : Prop :=
  in_u64 start ∧ Forall (λ s, in_u64 (st_target s) ∧ 0 < st_duration s) stages ∧
  sum_durations stages ≤ 2 ^ 63.

(** ** Lemmas *)

(** *** Interpolation *)
Lemma quot_ramp_bounds delta a d :
  0 ≤ a ≤ d → 0 < d →
  Z.min 0 delta ≤ Z.quot (i128_sat_mul delta a) d ≤ Z.max 0 delta.
Proof.
  intros Ha Hd.
  assert (Z.min 0 (delta * a) ≤ i128_sat_mul delta a ≤ Z.max 0 (delta * a))
    by (unfold i128_sat_mul; ints_lia).
  destruct (Z.le_ge_cases 0 delta) as [Hs|Hs].
  - split; [transitivity 0; [lia|]; apply Z.quot_pos; nia|].
    apply Z.quot_le_upper_bound; nia.
  - rewrite <- (Z.opp_involutive (i128_sat_mul delta a)), Z.quot_opp_l by lia.
    assert (0 ≤ Z.quot (- i128_sat_mul delta a) d) by (apply Z.quot_pos; nia).
    assert (Z.quot (- i128_sat_mul delta a) d ≤ - delta)
      by (apply Z.quot_le_upper_bound; nia).
    lia.
Qed.

Lemma interpolate_hull lo hi a b e d :
  0 ≤ lo → hi ≤ u64_max → lo ≤ a ≤ hi → lo ≤ b ≤ hi → 0 ≤ e ≤ d → 0 < d →
  lo ≤ interpolate a b e d ≤ hi.
Proof.
  intros Hlo Hhi Ha Hb He Hd. unfold interpolate.
  rewrite (Z.max_l d 1) by lia.
  pose proof (quot_ramp_bounds (b - a) e d He Hd).
  rewrite Z.min_r, Z.max_r, as_u64_small by ints_lia. lia.
Qed.

(** Without [i128] saturation the interpolation is the exact truncated ramp. *)
Lemma interpolate_exact a b e d :
  in_u64 a → in_u64 b → 0 ≤ e ≤ d → 0 < d → d ≤ 2 ^ 63 →
  interpolate a b e d = a + Z.quot ((b - a) * e) d.
Proof.
  intros Ha Hb He Hd Hd63. unfold interpolate.
  pose proof (quot_ramp_bounds (b - a) e d He Hd) as Hq.
  assert (i128_sat_mul (b - a) e = (b - a) * e) as Hsat.
  { assert (- 2 ^ 127 ≤ (b - a) * e ≤ 2 ^ 127 - 1) by (ints; nia).
    unfold i128_sat_mul; ints_lia. }
  rewrite Hsat in *.
  rewrite (Z.max_l d 1), Z.min_r, Z.max_r, as_u64_small by ints_lia. done.
Qed.

(** *** Cumulative ends *)
Lemma length_cumulative acc stages : length (cumulative acc stages) = length stages.
Proof. revert acc. induction stages; intros; simpl; auto. Qed.

Lemma cumulative_ge acc stages i e :
  0 ≤ acc ≤ Duration.MAX → Forall (λ s, 0 ≤ st_duration s) stages →
  cumulative acc stages !! i = Some e → acc ≤ e ≤ Duration.MAX.
Proof.
  intros Hacc Hst. revert acc i Hacc.
  induction Hst as [|s rest Hs Hrest IH]; intros acc i Hacc; [done|]. simpl.
  assert (acc ≤ Duration.saturating_add acc (st_duration s) ≤ Duration.MAX)
    by (unfold Duration.saturating_add; lia).
  destruct i as [|i]; simpl; [intros [= <-]; lia|].
  intros He. apply IH in He; lia.
Qed.

Lemma cumulative_sorted acc stages :
  0 ≤ acc ≤ Duration.MAX → Forall (λ s, 0 ≤ st_duration s) stages →
  Slice.sorted (cumulative acc stages).
Proof.
  intros Hacc Hst. revert acc Hacc.
  induction Hst as [|s rest Hs Hrest IH]; intros acc Hacc i j a b Hij; [done|]. simpl.
  assert (0 ≤ Duration.saturating_add acc (st_duration s) ≤ Duration.MAX)
    by (unfold Duration.saturating_add; lia).
  destruct i as [|i], j as [|j]; simpl; intros Ha Hb; simplify_eq; [lia| |lia|].
  - apply cumulative_ge in Hb; [lia|done|done].
  - apply (IH _ ltac:(done) i j); [lia|done|done].
Qed.

Definition valid_stages (stages : list Stage) : Prop :=
  Forall (λ s, 0 ≤ st_duration s) stages.

Lemma ends_sorted start stages :
  valid_stages stages → Slice.sorted (sch_cumulative_ends (new start stages)).
Proof.
  intros. apply cumulative_sorted; [|done].
  unfold Duration.ZERO, Duration.MAX, Duration.NANOS_PER_SEC; ints_lia.
Qed.

Lemma window_is_Some start stages i :
  (i < length stages)%nat →
  ∃ w st, window (new start stages) i = Some w ∧ stages !! i = Some st ∧
    cumulative Duration.ZERO stages !! i = Some (w_end w) ∧
    w_end_target w = st_target st ∧
    (w_start_target w = start ∨ ∃ st', st' ∈ stages ∧ w_start_target w = st_target st').
Proof.
  intros Hi. unfold window; simpl.
  destruct (lookup_lt_is_Some_2 (cumulative Duration.ZERO stages) i) as [e He];
    [by rewrite length_cumulative|].
  destruct (lookup_lt_is_Some_2 stages i Hi) as [st Hst].
  rewrite He; simpl. destruct i as [|i].
  - simpl. rewrite Hst; simpl. eexists _, st; split_and!; eauto.
  - destruct (lookup_lt_is_Some_2 (cumulative Duration.ZERO stages) i) as [e' He'];
      [rewrite length_cumulative; lia|].
    destruct (lookup_lt_is_Some_2 stages i) as [st' Hst']; [lia|].
    rewrite He'; simpl. rewrite Hst, Hst'; simpl. eexists _, st; split_and!; eauto.
    right. exists st'. split; [|done]. by eapply list_elem_of_lookup_2.
Qed.

(** Before the end of the schedule the search lands on a stage that ends no
    earlier than the time searched for. *)
Lemma search_in_range start stages e :
  valid_stages stages → 0 ≤ e < total_duration (new start stages) →
  let idx := Slice.search_index (cumulative Duration.ZERO stages) e in
  (idx < length stages)%nat ∧
  ∀ y, cumulative Duration.ZERO stages !! idx = Some y → e ≤ y.
Proof.
  intros Hv He idx. subst idx. unfold Slice.search_index.
  pose proof (Slice.binary_search_spec _ e (ends_sorted start stages Hv)) as Hb.
  simpl in Hb. unfold total_duration in He; simpl in He. rewrite last_lookup in He.
  rewrite <- (length_cumulative Duration.ZERO stages).
  set (l := cumulative Duration.ZERO stages) in *.
  destruct (Slice.binary_search l e) as [i|i].
  - split; [by apply lookup_lt_Some in Hb|]. intros; simplify_eq; lia.
  - destruct Hb as (Hle & Hl & Hr). split; [|intros y Hy; specialize (Hr i y ltac:(lia) Hy); lia].
    destruct (decide (i = length l)) as [->|]; [|lia].
    destruct (l !! pred (length l)) as [y|] eqn:Hy; simpl in He.
    + assert (pred (length l) < length l)%nat by (by eapply lookup_lt_Some).
      specialize (Hl _ y ltac:(done) Hy). lia.
    + unfold Duration.ZERO in *. lia.
Qed.

(** *** Targets stay in the hull of the configured targets *)
Section hull.
Context (lo hi start : Z) (stages : list Stage).
Context (Hlo : 0 ≤ lo) (Hhi : hi ≤ u64_max) (Hstart : lo ≤ start ≤ hi).
Context (Hstages : Forall (λ s, lo ≤ st_target s ≤ hi ∧ 0 ≤ st_duration s) stages).

Lemma hull_target st : st ∈ stages → lo ≤ st_target st ≤ hi.
Proof. rewrite Forall_forall in Hstages. intros H. apply (Hstages st H). Qed.

Lemma hull_valid : valid_stages stages.
Proof. eapply Forall_impl; [exact Hstages|]. simpl; tauto. Qed.

Lemma target_at_hull elapsed :
  0 ≤ elapsed →
  ∃ t, target_at (new start stages) elapsed = Some t ∧ lo ≤ t ≤ hi.
Proof.
  intros He. unfold target_at.
  destruct (is_empty _); [by exists start|].
  destruct (Z.eqb_spec elapsed Duration.ZERO); [by exists start|].
  destruct (Z.leb_spec (total_duration (new start stages)) elapsed) as [|Hlt].
  - eexists; split; [done|]. simpl.
    destruct (last stages) as [st|] eqn:Hl; simpl; [|done].
    by apply hull_target, last_Some_elem_of.
  - destruct (search_in_range start stages elapsed hull_valid ltac:(done)) as [Hi Hend].
    simpl in *. set (idx := Slice.search_index _ _) in *.
    destruct (window_is_Some start stages idx Hi) as (w & st & -> & Hst & Hce & Het & Hstt).
    cbn [mbind option_bind]. eexists; split; [done|].
    assert (lo ≤ w_end_target w ≤ hi) as Hb
      by (rewrite Het; by eapply hull_target, list_elem_of_lookup_2).
    assert (lo ≤ w_start_target w ≤ hi) as Ha.
    { destruct Hstt as [->|(st' & Hin & ->)]; [done|by apply hull_target]. }
    unfold Duration.is_zero. destruct (Z.eqb_spec (Duration.saturating_sub (w_end w) (w_start w)) 0); [done|].
    specialize (Hend _ Hce). unfold Duration.saturating_sub in *.
    apply interpolate_hull; try done; lia.
Qed.
End hull.

(** *** Positions: without saturation the cumulative ends are prefix sums *)
Definition pos (stages : list Stage) (i : nat) : Z := sum_durations (take i stages).

Definition prev_target (start : Z) (stages : list Stage) (i : nat) : Z :=
  match i with
  | O => start
  | S j => default start (st_target <$> stages !! j)
  end.

Definition positive_stages (stages : list Stage) : Prop :=
  Forall (λ s, 0 < st_duration s) stages.

Lemma positive_valid stages : positive_stages stages → valid_stages stages.
Proof. intros H. eapply Forall_impl; [exact H|]. simpl; lia. Qed.

Lemma pos_S stages i st :
  stages !! i = Some st → pos stages (S i) = pos stages i + st_duration st.
Proof.
  revert i. induction stages as [|s rest IH]; intros [|i] Hi; simplify_eq/=.
  - unfold pos; simpl. lia.
  - specialize (IH i Hi). unfold pos in *; simpl in *. lia.
Qed.

Lemma pos_mono stages i j :
  positive_stages stages → (i ≤ j ≤ length stages)%nat → pos stages i ≤ pos stages j.
Proof.
  intros Hp [Hij Hj]. induction Hij as [|j Hij IH]; [lia|].
  destruct (lookup_lt_is_Some_2 stages j) as [st Hst]; [lia|].
  rewrite (pos_S _ _ _ Hst). pose proof (Forall_lookup_1 _ _ _ _ Hp Hst) as Hpos.
  simpl in Hpos. specialize (IH ltac:(lia)). lia.
Qed.

Lemma pos_lt stages i j :
  positive_stages stages → (i < j ≤ length stages)%nat → pos stages i < pos stages j.
Proof.
  intros Hp [Hij Hj]. destruct (lookup_lt_is_Some_2 stages i) as [st Hst]; [lia|].
  pose proof (pos_mono stages (S i) j Hp ltac:(lia)) as Hm.
  rewrite (pos_S _ _ _ Hst) in Hm. pose proof (Forall_lookup_1 _ _ _ _ Hp Hst) as Hpos.
  simpl in Hpos. lia.
Qed.

Lemma sum_durations_nonneg stages : valid_stages stages → 0 ≤ sum_durations stages.
Proof. induction 1; simpl; lia. Qed.

Lemma pos_ge_0 stages i : valid_stages stages → 0 ≤ pos stages i.
Proof. intros Hv. by apply sum_durations_nonneg, Forall_take. Qed.

Lemma pos_all stages : pos stages (length stages) = sum_durations stages.
Proof. unfold pos. by rewrite take_ge. Qed.

Lemma cumulative_lookup acc stages i :
  0 ≤ acc → valid_stages stages → acc + sum_durations stages ≤ Duration.MAX →
  (i < length stages)%nat → cumulative acc stages !! i = Some (acc + pos stages (S i)).
Proof.
  intros Hacc Hv. revert acc i Hacc.
  induction Hv as [|s rest Hs Hrest IH]; intros acc i Hacc Hsum Hi; [simpl in *; lia|].
  pose proof (sum_durations_nonneg rest Hrest). simpl in *.
  unfold Duration.saturating_add. rewrite Z.min_r by lia.
  destruct i as [|i]; simpl; [unfold pos; simpl; f_equal; lia|].
  rewrite IH by lia. unfold pos; simpl. f_equal; lia.
Qed.

(** The shared setting of the exact results: a schedule a script can give. *)
Section exact.
Context (start : Z) (stages : list Stage) (Hok : stages_ok start stages).

Lemma ok_positive : positive_stages stages.
Proof. destruct Hok as (_ & H & _). eapply Forall_impl; [exact H|]. simpl; tauto. Qed.
Lemma ok_valid : valid_stages stages.
Proof. apply positive_valid, ok_positive. Qed.
Lemma ok_target st : st ∈ stages → in_u64 (st_target st).
Proof. destruct Hok as (_ & H & _). rewrite Forall_forall in H. intros Hi; apply (H st Hi). Qed.
Lemma ok_duration st : st ∈ stages → 0 < st_duration st.
Proof. destruct Hok as (_ & H & _). rewrite Forall_forall in H. intros Hi; apply (H st Hi). Qed.
Lemma ok_sum : sum_durations stages ≤ 2 ^ 63.
Proof. apply Hok. Qed.
Lemma ok_start : in_u64 start.
Proof. apply Hok. Qed.
Hint Resolve ok_positive ok_valid ok_start : core.

Lemma ends_lookup i :
  (i < length stages)%nat →
  cumulative Duration.ZERO stages !! i = Some (pos stages (S i)).
Proof.
  intros Hi. rewrite cumulative_lookup; [|done|done| |done].
  - unfold Duration.ZERO. f_equal; lia.
  - pose proof ok_sum. unfold Duration.ZERO, Duration.MAX, Duration.NANOS_PER_SEC; ints_lia.
Qed.

Lemma total_duration_new : total_duration (new start stages) = sum_durations stages.
Proof.
  unfold total_duration; simpl. rewrite last_lookup, length_cumulative.
  destruct (decide (stages = [])) as [->|Hne]; [done|].
  assert (0 < length stages)%nat by (destruct stages; simpl; [done|lia]).
  rewrite ends_lookup, Nat.succ_pred_pos, pos_all by lia. done.
Qed.

Lemma prev_target_u64 i : in_u64 (prev_target start stages i).
Proof.
  destruct i as [|i]; simpl; [done|].
  destruct (stages !! i) as [st|] eqn:E; simpl; [|done].
  by eapply ok_target, list_elem_of_lookup_2.
Qed.

Lemma window_new i st :
  stages !! i = Some st →
  window (new start stages) i =
    Some (mkWindow (pos stages i) (pos stages (S i)) (prev_target start stages i) (st_target st)).
Proof.
  intros Hst. pose proof (lookup_lt_Some _ _ _ Hst) as Hi.
  unfold window; simpl. rewrite (ends_lookup i Hi); simpl.
  destruct i as [|i]; simpl; [by rewrite Hst|].
  rewrite ends_lookup by lia; simpl. rewrite Hst; simpl.
  destruct (lookup_lt_is_Some_2 stages i) as [st' Hst']; [lia|].
  by rewrite Hst'.
Qed.

(** A time belongs to stage [i] when it is after the stage's start and not
    after its end; time 0 belongs to the first stage. *)
Definition in_stage (i : nat) (st : Stage) (e : Z) : Prop :=
  stages !! i = Some st ∧ (pos stages i < e ∨ (e = 0 ∧ i = 0%nat)) ∧ e ≤ pos stages (S i).

Lemma search_in_stage i st e :
  in_stage i st e → Slice.search_index (cumulative Duration.ZERO stages) e = i.
Proof.
  intros (Hst & Hlo & Hhi). pose proof (lookup_lt_Some _ _ _ Hst) as Hi.
  eapply Slice.search_index_spec; [by apply (ends_sorted start)|by apply ends_lookup|done| |].
  - intros j z Hj. rewrite ends_lookup by lia. intros [= <-].
    destruct Hlo as [Hlo|[-> ->]]; [|lia].
    pose proof (pos_mono stages (S j) i ok_positive ltac:(lia)). lia.
  - intros j z Hj Hz. pose proof (lookup_lt_Some _ _ _ Hz) as Hjl.
    rewrite length_cumulative in Hjl. rewrite ends_lookup in Hz by done. injection Hz as <-.
    pose proof (pos_lt stages (S i) (S j) ok_positive ltac:(lia)). lia.
Qed.

Lemma in_stage_ex e :
  stages ≠ [] → 0 ≤ e ≤ sum_durations stages → ∃ i st, in_stage i st e.
Proof.
  intros Hne He. unfold in_stage.
  assert (∀ n, (n ≤ length stages)%nat → e ≤ pos stages n →
    ∃ i st, stages !! i = Some st ∧ (pos stages i < e ∨ (e = 0 ∧ i = 0%nat)) ∧
      e ≤ pos stages (S i)) as H.
  { induction n as [|n IH]; intros Hn Hle.
    - unfold pos in Hle; simpl in Hle. assert (e = 0) as -> by lia.
      destruct (lookup_lt_is_Some_2 stages 0) as [st Hst]; [destruct stages; simpl; [done|lia]|].
      exists 0%nat, st. split_and!; [done|by right|].
      pose proof (pos_mono stages 0 1 ok_positive ltac:(apply lookup_lt_Some in Hst; lia)).
      unfold pos in *; simpl in *; lia.
    - destruct (Z.le_gt_cases e (pos stages n)); [apply IH; lia|].
      destruct (lookup_lt_is_Some_2 stages n) as [st Hst]; [lia|].
      exists n, st. split_and!; [done|left; lia|done]. }
  apply (H (length stages)); [done|]. rewrite pos_all. lia.
Qed.

(** The target inside a stage: the ramp from the previous target. *)
Definition ramp (i : nat) (st : Stage) (e : Z) : Z :=
  prev_target start stages i +
    Z.quot ((st_target st - prev_target start stages i) * (e - pos stages i)) (st_duration st).

Lemma pos_0 : pos stages 0 = 0.
Proof. done. Qed.

Lemma stage_span i st e :
  in_stage i st e → 0 ≤ e - pos stages i ≤ st_duration st ∧
    pos stages (S i) - pos stages i = st_duration st.
Proof.
  intros (Hst & Hlo & Hhi). rewrite (pos_S _ _ _ Hst) in *.
  destruct Hlo as [|[-> ->]]; rewrite ?pos_0 in *; lia.
Qed.

Lemma pos_le_sum i st : stages !! i = Some st → pos stages (S i) ≤ sum_durations stages.
Proof.
  intros Hst. rewrite <- pos_all. apply lookup_lt_Some in Hst.
  apply pos_mono; [done|lia].
Qed.

Lemma pos_nonneg i : 0 ≤ pos stages i.
Proof. apply pos_ge_0, ok_valid. Qed.

Lemma target_at_in_stage i st e :
  in_stage i st e → target_at (new start stages) e = Some (ramp i st e).
Proof.
  intros Hin. pose proof Hin as (Hst & Hlo & Hhi).
  destruct (stage_span _ _ _ Hin) as [Hel Hdur].
  pose proof (ok_duration st ltac:(by eapply list_elem_of_lookup_2)) as Hpos.
  pose proof (pos_le_sum _ _ Hst) as Hsum.
  unfold target_at; simpl. rewrite is_empty_false by (intros ->; done).
  unfold Duration.ZERO in *.
  destruct (Z.eqb_spec e 0) as [->|Hne0].
  { destruct Hlo as [Hlo|[_ ->]]; [pose proof (pos_nonneg i); lia|].
    unfold ramp; simpl. rewrite pos_0, Z.mul_0_r, Z.quot_0_l by lia. f_equal; lia. }
  rewrite total_duration_new.
  destruct (Z.leb_spec (sum_durations stages) e) as [Hge|Hlt].
  - assert (e = pos stages (S i)) as -> by lia.
    assert (i = pred (length stages)) as ->.
    { destruct (decide (S i = length stages)); [lia|].
      pose proof (lookup_lt_Some _ _ _ Hst).
      pose proof (pos_lt stages (S i) (length stages) ok_positive ltac:(lia)) as Hlt.
      rewrite pos_all in Hlt. lia. }
    rewrite last_lookup, Hst; simpl. f_equal. unfold ramp.
    rewrite Hdur, Z.quot_mul by lia. lia.
  - fold Duration.ZERO. rewrite (search_in_stage _ _ _ Hin), (window_new _ _ Hst). simpl.
    unfold Duration.saturating_sub, Duration.is_zero.
    rewrite !Z.max_r, Hdur by lia.
    rewrite (proj2 (Z.eqb_neq _ _)) by lia. f_equal. unfold ramp.
    pose proof ok_sum. pose proof (pos_nonneg i).
    apply interpolate_exact; [apply prev_target_u64| |lia|lia|lia].
    by eapply ok_target, list_elem_of_lookup_2.
Qed.

Lemma target_at_after e :
  stages ≠ [] → sum_durations stages < e →
  target_at (new start stages) e = Some (default start (st_target <$> last stages)).
Proof.
  intros Hne He. pose proof (sum_durations_nonneg stages ok_valid).
  unfold target_at; simpl. rewrite is_empty_false by done.
  unfold Duration.ZERO. rewrite (proj2 (Z.eqb_neq _ _)) by lia.
  rewrite total_duration_new, (proj2 (Z.leb_le _ _)) by lia. done.
Qed.
End exact.

(** The walk of [ideal_target] reaches the same stage. *)
Lemma ideal_target_in_stage start stages i st e :
  positive_stages stages → in_stage stages i st e →
  ideal_target start stages e = ramp start stages i st e.
Proof.
  intros Hp. revert start i e.
  induction Hp as [|s rest Hs Hrest IH]; intros start i e (Hst & Hlo & Hhi); [done|].
  simpl. destruct i as [|i]; simpl in Hst.
  - injection Hst as ->. unfold pos, ramp in *; simpl in *.
    rewrite (proj2 (Z.leb_le _ _)) by lia. by rewrite Z.sub_0_r.
  - assert (pos (s :: rest) (S i) = st_duration s + pos rest i) as E1 by done.
    assert (pos (s :: rest) (S (S i)) = st_duration s + pos rest (S i)) as E2 by done.
    pose proof (pos_ge_0 rest i (positive_valid _ Hrest)).
    destruct Hlo as [Hlo|[_ ?]]; [|done].
    rewrite (proj2 (Z.leb_gt _ _)) by lia.
    rewrite (IH _ i); [|split_and!; [done|left; lia|lia]].
    unfold ramp. rewrite E1.
    assert (prev_target (st_target s) rest i = prev_target start (s :: rest) (S i)) as ->.
    { destruct i as [|i]; simpl; [done|].
      destruct (lookup_lt_is_Some_2 rest i) as [st' ->]; [apply lookup_lt_Some in Hst; lia|done]. }
    do 3 f_equal. lia.
Qed.

Lemma ideal_target_after start stages e :
  positive_stages stages → sum_durations stages < e →
  ideal_target start stages e = default start (st_target <$> last stages).
Proof.
  intros Hp. revert start e. induction Hp as [|s rest Hs Hrest IH]; intros start e He; [done|].
  simpl in *. pose proof (sum_durations_nonneg rest (positive_valid _ Hrest)).
  rewrite (proj2 (Z.leb_gt _ _)) by lia. rewrite IH by lia.
  rewrite last_cons. by destruct (last rest).
Qed.

Lemma ramp_quot_eq x d a : 0 < d → 0 ≤ x → 0 ≤ a → Z.quot (a * x) d = a * x / d.
Proof. intros. apply Z.quot_div_nonneg; nia. Qed.

(** Inside a ramp-down stage the target never rises. *)
Lemma ramp_down_anti start stages i st e e' :
  stages_ok start stages → in_stage stages i st e → in_stage stages i st e' → e ≤ e' →
  st_target st ≤ prev_target start stages i →
  ramp start stages i st e' ≤ ramp start stages i st e.
Proof.
  intros Hok Hin Hin' Hle Hdown. unfold ramp.
  destruct (stage_span _ _ _ _ Hin) as [He Hd].
  destruct (stage_span _ _ _ _ Hin') as [He' _].
  pose proof (ok_duration _ _ Hok st ltac:(eapply list_elem_of_lookup_2, Hin)).
  set (p := prev_target start stages i) in *.
  replace ((st_target st - p) * (e' - pos stages i))
    with (- ((p - st_target st) * (e' - pos stages i))) by lia.
  replace ((st_target st - p) * (e - pos stages i))
    with (- ((p - st_target st) * (e - pos stages i))) by lia.
  rewrite !Z.quot_opp_l, !ramp_quot_eq by lia.
  enough ((p - st_target st) * (e - pos stages i) / st_duration st ≤
          (p - st_target st) * (e' - pos stages i) / st_duration st) by lia.
  apply Z.div_le_mono; nia.
Qed.

(** Inside a ramp-up stage the target does not exceed the stage's own. *)
Lemma ramp_up_le start stages i st e :
  stages_ok start stages → in_stage stages i st e →
  prev_target start stages i ≤ st_target st → ramp start stages i st e ≤ st_target st.
Proof.
  intros Hok Hin Hup. unfold ramp.
  destruct (stage_span _ _ _ _ Hin) as [He Hd].
  pose proof (ok_duration _ _ Hok st ltac:(eapply list_elem_of_lookup_2, Hin)).
  rewrite ramp_quot_eq by lia.
  set (p := prev_target start stages i) in *.
  enough ((st_target st - p) * (e - pos stages i) / st_duration st ≤ st_target st - p) by lia.
  apply Z.div_le_upper_bound; nia.
Qed.

(** Before the needed number of nanoseconds has passed, a ramp-up stage is
    still below the wanted index. *)
Lemma ramp_up_before a b d want t :
  a < want ≤ b → 0 < d → 0 ≤ t → t < Z.quot ((want - a) * d) (b - a) →
  a + Z.quot ((b - a) * t) d < want.
Proof.
  intros Hw Hd Ht Hlt.
  rewrite ramp_quot_eq by lia. rewrite Z.quot_div_nonneg in Hlt by nia.
  enough ((b - a) * t / d < want - a) by lia.
  apply Z.div_lt_upper_bound; [lia|].
  assert ((b - a) * ((want - a) * d / (b - a)) ≤ (want - a) * d) by (apply Z.mul_div_le; lia).
  nia.
Qed.

(** The value [next_recheck_in] returns for a virtual user that is not yet
    wanted, in stage [i]. *)
Lemma next_recheck_in_stage start stages i st e v :
  stages_ok start stages → in_stage stages i st e → e < sum_durations stages →
  in_u64 v → ramp start stages i st e < v →
  ∃ wait, next_recheck_in (new start stages) e v = Some wait ∧ 0 ≤ wait ≤ default_sleep ∧
    (st_target st ≤ prev_target start stages i ∨ st_target st < v →
       wait ≤ pos stages (S i) - e) ∧
    (prev_target start stages i < v ≤ st_target st →
       wait ≤ Z.max 0 (Z.quot ((v - prev_target start stages i) * st_duration st)
                         (st_target st - prev_target start stages i) - (e - pos stages i))).
Proof.
  intros Hok Hin Hlt Hv Hr. pose proof Hin as (Hst & Hlo & Hhi).
  destruct (stage_span _ _ _ _ Hin) as [He Hd].
  pose proof (list_elem_of_lookup_2 _ _ _ Hst) as Hel.
  pose proof (ok_duration _ _ Hok st Hel). pose proof (ok_target _ _ Hok st Hel) as Htgt.
  pose proof (prev_target_u64 start stages Hok i) as Hprev.
  pose proof (ok_sum _ _ Hok). pose proof (pos_le_sum start stages Hok _ _ Hst).
  pose proof (pos_ge_0 stages i (ok_valid _ _ Hok)).
  unfold next_recheck_in. simpl sch_stages. rewrite is_empty_false by (intros ->; done).
  rewrite (total_duration_new _ _ Hok), (proj2 (Z.leb_gt _ _)) by lia.
  cbn [sch_cumulative_ends new].
  rewrite (search_in_stage _ _ Hok _ _ _ Hin), (window_new _ _ Hok _ _ Hst),
    (target_at_in_stage _ _ Hok _ _ _ Hin).
  cbn [mbind option_bind w_start w_end w_start_target w_end_target].
  unfold Duration.saturating_sub, default_sleep, Duration.from_millis, Duration.from_nanos.
  set (p := prev_target start stages i) in *.
  eexists; split; [done|]. rewrite (proj2 (Z.leb_gt _ _)) by lia.
  destruct (Z.leb_spec (st_target st) p); [lia|].
  rewrite (proj2 (Z.leb_gt _ 0)) by lia.
  destruct (Z.leb_spec v p); [lia|].
  destruct (Z.ltb_spec (st_target st) v); [lia|].
  rewrite (Z.max_r 0 (pos stages (S i) - pos stages i)), Hd by lia.
  assert (i128_sat_mul (v - p) (st_duration st) = (v - p) * st_duration st) as ->
    by (unfold i128_sat_mul; ints; nia).
  set (q := Z.quot ((v - p) * st_duration st) (st_target st - p)).
  assert (0 ≤ q) by (apply Z.quot_pos; nia).
  rewrite (Z.max_r 0 q), (Z.max_r 0 (e - pos stages i)) by lia.
  assert (q ≤ st_duration st).
  { apply Z.quot_le_upper_bound; [lia|]. nia. }
  rewrite as_u64_small by ints_lia.
  split_and!; [ints_lia|ints_lia|lia|ints_lia].
Qed.

(** A ramp-up stage is never below the target it starts from. *)
Lemma ramp_ge_prev start stages i st e :
  stages_ok start stages → in_stage stages i st e →
  prev_target start stages i ≤ st_target st →
  prev_target start stages i ≤ ramp start stages i st e.
Proof.
  intros Hok Hin Hup. unfold ramp. destruct (stage_span _ _ _ _ Hin) as [He Hd].
  pose proof (ok_duration _ _ Hok st ltac:(eapply list_elem_of_lookup_2, Hin)).
  rewrite ramp_quot_eq by lia. set (p := prev_target start stages i) in *.
  assert (0 ≤ (st_target st - p) * (e - pos stages i) / st_duration st)
    by (apply Z.div_pos; nia). lia.
Qed.

(** A sleep within the bounds of [next_recheck_in_stage] ends in its stage. *)
Lemma sleep_in_stage start stages i st e v wait e' :
  stages_ok start stages → in_stage stages i st e → ramp start stages i st e < v →
  (st_target st ≤ prev_target start stages i ∨ st_target st < v →
     wait ≤ pos stages (S i) - e) →
  (prev_target start stages i < v ≤ st_target st →
     wait ≤ Z.max 0 (Z.quot ((v - prev_target start stages i) * st_duration st)
                       (st_target st - prev_target start stages i) - (e - pos stages i))) →
  e ≤ e' < e + wait → in_stage stages i st e'.
Proof.
  intros Hok Hin Hid Hend Hup He'. pose proof Hin as (Hst & Hlo & Hhi).
  destruct (stage_span _ _ _ _ Hin) as [Hel Hd].
  pose proof (ok_duration _ _ Hok st ltac:(by eapply list_elem_of_lookup_2)).
  set (p := prev_target start stages i) in *.
  split_and!; [done| |].
  - destruct Hlo as [|[-> ->]]; [left; lia|].
    destruct (decide (e' = 0)) as [->|]; [by right|left; rewrite pos_0; lia].
  - destruct (Z.le_gt_cases (st_target st) p) as [|Hg]; [specialize (Hend ltac:(by left)); lia|].
    destruct (Z.lt_ge_cases (st_target st) v); [specialize (Hend ltac:(by right)); lia|].
    pose proof (ramp_ge_prev start stages i st e Hok Hin ltac:(fold p; lia)) as Hp.
    fold p in Hp. specialize (Hup ltac:(lia)).
    assert (Z.quot ((v - p) * st_duration st) (st_target st - p) ≤ st_duration st)
      by (apply Z.quot_le_upper_bound; nia). lia.
Qed.

Lemma target_at_ideal start stages elapsed :
  stages_ok start stages → 0 ≤ elapsed →
  target_at (new start stages) elapsed = Some (ideal_target start stages elapsed).
Proof.
  intros Hok He. destruct (decide (stages = [])) as [->|Hne]; [done|].
  destruct (Z.le_gt_cases elapsed (sum_durations stages)) as [Hle|Hgt].
  - destruct (in_stage_ex start stages Hok elapsed Hne ltac:(lia)) as (i & st & Hin).
    rewrite (target_at_in_stage _ _ Hok _ _ _ Hin), (ideal_target_in_stage _ _ i st); [done| |done].
    by apply (ok_positive start).
  - rewrite (target_at_after _ _ Hok) by done.
    rewrite ideal_target_after; [done|by apply (ok_positive start)|lia].
Qed.

(** A virtual user that [next_recheck_in] puts to sleep is not wanted at
    any moment before it wakes up, and it sleeps at most 50 ms. *)
Lemma next_recheck_never_oversleeps start stages elapsed vu_index :
  stages_ok start stages → 0 ≤ elapsed → in_u64 vu_index →
  ideal_target start stages elapsed < vu_index →
  ∃ wait, next_recheck_in (new start stages) elapsed vu_index = Some wait ∧
    0 ≤ wait ≤ Duration.from_millis 50 ∧
    ∀ e', elapsed ≤ e' < elapsed + wait →
      ∃ t, target_at (new start stages) e' = Some t ∧ t < vu_index.
Proof.
  intros Hok He Hv Hid. destruct (decide (stages = [])) as [->|Hne].
  { exists default_sleep. split_and!; [done|done|done|]. intros e' _. by exists start. }
  destruct (Z.le_gt_cases (sum_durations stages) elapsed) as [Hge|Hlt].
  { exists 0. split_and!; [|done|done|intros; lia].
    unfold next_recheck_in; simpl. rewrite is_empty_false by done.
    by rewrite (total_duration_new _ _ Hok), (proj2 (Z.leb_le _ _)) by lia. }
  destruct (in_stage_ex start stages Hok elapsed Hne ltac:(lia)) as (i & st & Hin).
  pose proof (ok_positive _ _ Hok) as Hp.
  rewrite (ideal_target_in_stage _ _ _ _ _ Hp Hin) in Hid.
  destruct (next_recheck_in_stage _ _ _ _ _ _ Hok Hin Hlt Hv Hid)
    as (wait & Hw & Hwb & Hend & Hup).
  exists wait. split_and!; [done|unfold default_sleep in *; lia..|]. intros e' He'.
  pose proof (sleep_in_stage _ _ _ _ _ _ _ e' Hok Hin Hid Hend Hup He') as Hin'.
  exists (ramp start stages i st e'). split; [by apply target_at_in_stage|].
  destruct (Z.le_gt_cases (st_target st) (prev_target start stages i)) as [Hdn|Hupw].
  - pose proof (ramp_down_anti start stages i st elapsed e' Hok Hin Hin' ltac:(lia) Hdn). lia.
  - destruct (Z.lt_ge_cases (st_target st) vu_index) as [Hov|Hov].
    + pose proof (ramp_up_le start stages i st e' Hok Hin' ltac:(lia)). lia.
    + pose proof (ramp_ge_prev start stages i st elapsed Hok Hin ltac:(lia)).
      pose proof (ok_duration _ _ Hok st ltac:(eapply list_elem_of_lookup_2, Hin)).
      destruct (stage_span _ _ _ _ Hin), (stage_span _ _ _ _ Hin').
      specialize (Hup ltac:(lia)). unfold ramp in *. apply ramp_up_before; lia.
Qed.

(** ** Properties *)


(** C29. The target is always defined (no index panic) and never leaves the
    range spanned by the start value and the stages' targets, for any
    durations, zero-length stages and saturating arithmetic included. *)
Theorem target_at_bounded lo hi start stages elapsed :
  0 ≤ lo → hi ≤ u64_max → lo ≤ start ≤ hi →
  Forall (λ s, lo ≤ st_target s ≤ hi ∧ 0 ≤ st_duration s) stages → 0 ≤ elapsed →
  ∃ t, target_at (new start stages) elapsed = Some t ∧ lo ≤ t ≤ hi.
Proof. intros. by apply (target_at_hull lo hi start stages). Qed.

(** The progress snapshot locates the clamped time in a stage of the
    schedule: elapsed and remaining time add up to that stage's duration, and
    the reported current target is the ideal one. *)
Theorem stage_snapshot_correct start stages elapsed :
  stages_ok start stages → stages ≠ [] → 0 ≤ elapsed →
  let clamped := Z.min elapsed (sum_durations stages) in
  ∃ sn st, stage_snapshot_at (new start stages) elapsed = Some (Some sn) ∧
    stages !! ss_index sn = Some st ∧ ss_count sn = length stages ∧
    pos stages (ss_index sn) + ss_stage_elapsed sn = clamped ∧
    ss_stage_elapsed sn + ss_stage_remaining sn = st_duration st ∧
    ss_end_target sn = st_target st ∧
    ss_current_target sn = ideal_target start stages clamped.
Proof.
  intros Hok Hne He clamped.
  pose proof (sum_durations_nonneg stages (ok_valid _ _ Hok)).
  destruct (in_stage_ex start stages Hok clamped Hne ltac:(lia)) as (i & st & Hin).
  pose proof Hin as (Hst & Hlo & Hhi). destruct (stage_span _ _ _ _ Hin) as [Hel Hd].
  assert ((if sum_durations stages <=? clamped then pred (length stages)
           else Slice.search_index (cumulative Duration.ZERO stages) clamped) = i) as Hidx.
  { destruct (Z.leb_spec (sum_durations stages) clamped); [|by apply (search_in_stage start _ Hok i st)].
    destruct (decide (S i = length stages)); [lia|]. pose proof (lookup_lt_Some _ _ _ Hst).
    pose proof (pos_lt stages (S i) (length stages) (ok_positive _ _ Hok) ltac:(lia)) as Hl.
    rewrite pos_all in Hl. lia. }
  exists (mkStageSnapshot i (length stages) (clamped - pos stages i)
    (st_duration st - (clamped - pos stages i)) (prev_target start stages i) (st_target st)
    (ramp start stages i st clamped)), st; simpl.
  split_and!; [|done|done|lia|lia|done|].
  - unfold stage_snapshot_at. simpl sch_stages. rewrite is_empty_false by done.
    rewrite (total_duration_new _ _ Hok). fold clamped. cbn [sch_cumulative_ends new].
    rewrite Hidx, (window_new _ _ Hok _ _ Hst), (target_at_in_stage _ _ Hok _ _ _ Hin).
    simpl. unfold Duration.saturating_sub. rewrite !Z.max_r, Hd by lia. done.
  - symmetry. apply ideal_target_in_stage; [by apply (ok_positive start)|done].
Qed.

(** ** Witnesses: a ramp 0 → 10 over 2 s, then down to 4 over 3 s *)
Definition demo_stages : list Stage :=
  [mkStage (Duration.from_secs 2) 10; mkStage (Duration.from_secs 3) 4].

Lemma demo_ok : stages_ok 0 demo_stages.
Proof. split_and!; [ints_lia|each closed_ineq|done]. Qed.


Lemma target_at_bounded_witness :
  ∃ t, target_at (new 3 [mkStage 0 7; mkStage 5 1]) 2 = Some t ∧ 1 ≤ t ≤ 7.
Proof.
  apply (target_at_bounded 1 7); [done|done|lia|each closed_ineq|done].
Defined.

Lemma stage_snapshot_correct_witness :
  ∃ sn st, stage_snapshot_at (new 0 demo_stages) (Duration.from_secs 4) = Some (Some sn) ∧
    demo_stages !! ss_index sn = Some st ∧ ss_count sn = 2%nat ∧
    pos demo_stages (ss_index sn) + ss_stage_elapsed sn = Duration.from_secs 4 ∧
    ss_stage_elapsed sn + ss_stage_remaining sn = st_duration st ∧
    ss_end_target sn = st_target st ∧
    ss_current_target sn = ideal_target 0 demo_stages (Duration.from_secs 4).
Proof.
  apply (stage_snapshot_correct 0 demo_stages (Duration.from_secs 4)); [exact demo_ok|done|done].
Defined.

Example next_recheck_value :
  next_recheck_in (new 0 demo_stages) (Duration.from_millis 180) 1 =
    Some (Duration.from_millis 20).
Proof. reflexivity. Qed.
