(* ===== verification/Notify.v ===== *)
(** * The interface of [tokio::sync::Notify] the runner relies on

    [Notify] is third-party code: what the pacer and the start signal use of it
    is a class of operations with the documented behaviour of
    [notify_waiters] and [notified] as laws.  A future returned by [notified]
    receives the wake-ups of the [notify_waiters] calls made after it was
    created; no permit is stored for later ones. *)
From S2P Require Import Prelude.

Class NotifyOps := {
  notify : Type;
  token : Type;
  notify_new : notify;
  notified : notify → token;
  notify_waiters : notify → notify;
  woken : notify → token → bool }.

Class NotifyLaws (N : NotifyOps) := {
  (** a token is created on the present state or an earlier one *)
  issued : notify → token → Prop;
  issued_notified n : issued n (notified n);
  issued_mono n t : issued n t → issued (notify_waiters n) t;
  woken_notified n : woken n (notified n) = false;
  woken_waiters n t : issued n t → woken (notify_waiters n) t = true }.

(** A concrete instance: the number of [notify_waiters] calls so far, a token
    remembering the number at its creation. *)
#[export] Instance counting_notify : NotifyOps := {|
  notify := nat; token := nat; notify_new := 0%nat;
  notified n := n; notify_waiters := S;
  woken n t := (t <? n)%nat |}.

#[export, program] Instance counting_notify_laws : NotifyLaws counting_notify := {|
  issued n t := (t ≤ n)%nat |}.
Next Obligation. simpl; lia. Qed.
Next Obligation. intros ?? H; cbn in *; lia. Qed.
Next Obligation. intros n; simpl. apply Nat.ltb_irrefl. Qed.
Next Obligation. intros ?? H; cbn [woken counting_notify notify_waiters] in *. apply Nat.ltb_lt. cbn in *; lia. Qed.
