(* ===== verification/Pacer.v ===== *)
(** * The arrival-rate pacer (wrkr-core/src/pacer.rs)

    [ArrivalPacer] first as sequential operations, then as the atomic actions
    of one pacer task and any number of virtual users, interleaved.  The
    relaxed atomics are sequentially consistent here; [compare_exchange_weak]
    may fail spuriously. *)
From S2P Require Import Prelude Notify.

Record ArrivalPacer := mkPacer {
  scheduled_total : Z;
  claimed_total : Z;
  dropped_total : Z;
  active_vus : Z;
  pre_allocated_vus : Z;
  max_vus : Z;
  done_flag : bool }.

Definition new (pre_allocated_vus max_vus : Z) : ArrivalPacer :=
  mkPacer 0 0 0 pre_allocated_vus pre_allocated_vus max_vus false.

Definition add_scheduled (n : Z) (p : ArrivalPacer) : ArrivalPacer :=
  mkPacer (u64_wrap_add (scheduled_total p) n) (claimed_total p) (dropped_total p)
    (active_vus p) (pre_allocated_vus p) (max_vus p) (done_flag p).
Definition add_dropped (n : Z) (p : ArrivalPacer) : ArrivalPacer :=
  mkPacer (scheduled_total p) (claimed_total p) (u64_wrap_add (dropped_total p) n)
    (active_vus p) (pre_allocated_vus p) (max_vus p) (done_flag p).
Definition set_claimed (n : Z) (p : ArrivalPacer) : ArrivalPacer :=
  mkPacer (scheduled_total p) n (dropped_total p)
    (active_vus p) (pre_allocated_vus p) (max_vus p) (done_flag p).
Definition set_active (n : Z) (p : ArrivalPacer) : ArrivalPacer :=
  mkPacer (scheduled_total p) (claimed_total p) (dropped_total p)
    n (pre_allocated_vus p) (max_vus p) (done_flag p).
Definition set_done (p : ArrivalPacer) : ArrivalPacer :=
  mkPacer (scheduled_total p) (claimed_total p) (dropped_total p)
    (active_vus p) (pre_allocated_vus p) (max_vus p) true.

(** ** The decisions of [update_due] and [update_active_vus] *)

(** How much of [add_due] fits: the backlog is bounded by [max_vus.max(1)]. *)
Definition due_split (max_vus claimed scheduled add_due : Z) : Z * Z :=
  let backlog := u64_sat_sub scheduled claimed in
  let max_backlog := Z.max max_vus 1 in
  let allowed_to_add := u64_sat_sub max_backlog backlog in
  let to_add := Z.min add_due allowed_to_add in
  (to_add, u64_sat_sub add_due to_add).

(** [clamp(1, max_vus)] panics when [max_vus] is 0: [None]. *)
Definition desired_vus (pre max_vus claimed scheduled : Z) : option Z :=
  let backlog := u64_sat_sub scheduled claimed in
  let desired := if backlog =? 0 then pre else Z.max pre (u64_sat_add backlog 1) in
  clamp desired 1 max_vus.

Definition update_active_vus (p : ArrivalPacer) : option ArrivalPacer :=
  desired ← desired_vus (pre_allocated_vus p) (max_vus p) (claimed_total p) (scheduled_total p);
  Some (set_active desired p).

Definition add_if (b : Z) (f : Z → ArrivalPacer → ArrivalPacer) (p : ArrivalPacer) : ArrivalPacer :=
  if b =? 0 then p else f b p.

Definition update_due (add_due : Z) (p : ArrivalPacer) : option ArrivalPacer :=
  if add_due =? 0 then update_active_vus p
  else
    let '(to_add, dropped) :=
      due_split (max_vus p) (claimed_total p) (scheduled_total p) add_due in
    update_active_vus (add_if dropped add_dropped (add_if to_add add_scheduled p)).

(** ** Atomic actions *)
Section concurrent.
Context {N : NotifyOps}.

(** The shared state: the atomics and the [Notify]. *)
Record Shared := mkShared { sh_pacer : ArrivalPacer; sh_notify : notify }.

(** Where a virtual user is in [claim_next]. *)
Inductive claim_pc :=
  | CLoop                    (* about to read [done] *)
  | CDone                    (* [done] was set: about to read [claimed] *)
  | CDoneClaimed (c : Z)     (* about to read [scheduled] and compare *)
  | CLoad                    (* about to read [claimed] *)
  | CLoaded (c : Z)          (* about to read [scheduled] *)
  | CCas (c s : Z)           (* about to compare, and exchange *)
  | CNotified                (* about to create the [notified()] future *)
  | CWait (t : token)        (* awaiting it *)
  | CRet (b : bool).         (* returned *)

(** One atomic action of [claim_next]; [spurious] makes the weak exchange
    fail.  [None]: the future is not ready, or the call has returned. *)
Definition claim_step (spurious : bool) (sh : Shared) (pc : claim_pc) :
    option (Shared * claim_pc) :=
  let p := sh_pacer sh in
  match pc with
  | CLoop => Some (sh, if done_flag p then CDone else CLoad)
  | CDone => Some (sh, CDoneClaimed (claimed_total p))
  | CDoneClaimed c => Some (sh, if scheduled_total p <=? c then CRet false else CLoad)
  | CLoad => Some (sh, CLoaded (claimed_total p))
  | CLoaded c => Some (sh, CCas c (scheduled_total p))
  | CCas c s =>
      if c <? s then
        if (claimed_total p =? c) && negb spurious
        then Some (mkShared (set_claimed (u64_sat_add c 1) p) (sh_notify sh), CRet true)
        else Some (sh, CLoop)
      else Some (sh, CNotified)
  | CNotified => Some (sh, CWait (notified (sh_notify sh)))
  | CWait t => if woken (sh_notify sh) t then Some (sh, CLoop) else None
  | CRet _ => None
  end.

(** Where the pacer task is: in [update_due], [update_active_vus] (with the
    wake-up of [update_due] still to come or not), [mark_done], or ended. *)
Inductive upd_pc :=
  | UIdle
  | UDue (add_due : Z)
  | UDueClaimed (add_due c : Z)
  | UAdd (add_due c s : Z)
  | UDrop (dropped : Z)
  | UActive (wake : bool)
  | UActiveClaimed (c : Z) (wake : bool)
  | UActiveStore (c s : Z) (wake : bool)
  | UNotify
  | UDoneStore
  | UDoneNotify
  | UEnd.

(** Entering [update_due]. *)
Definition call_update_due (add_due : Z) : upd_pc :=
  if add_due =? 0 then UActive false else UDue add_due.

Definition upd_step (sh : Shared) (pc : upd_pc) : option (Shared * upd_pc) :=
  let p := sh_pacer sh in
  let n := sh_notify sh in
  match pc with
  | UDue d => Some (sh, UDueClaimed d (claimed_total p))
  | UDueClaimed d c => Some (sh, UAdd d c (scheduled_total p))
  | UAdd d c s =>
      let '(to_add, dropped) := due_split (max_vus p) c s d in
      Some (mkShared (add_if to_add add_scheduled p) n, UDrop dropped)
  | UDrop d => Some (mkShared (add_if d add_dropped p) n, UActive true)
  | UActive w => Some (sh, UActiveClaimed (claimed_total p) w)
  | UActiveClaimed c w => Some (sh, UActiveStore c (scheduled_total p) w)
  | UActiveStore c s w =>
      desired ← desired_vus (pre_allocated_vus p) (max_vus p) c s;
      Some (mkShared (set_active desired p) n, if w then UNotify else UIdle)
  | UNotify => Some (mkShared p (notify_waiters n), UIdle)
  | UDoneStore => Some (mkShared (set_done p) n, UDoneNotify)
  | UDoneNotify => Some (mkShared p (notify_waiters n), UEnd)
  | UIdle | UEnd => None
  end.

(** A configuration: the shared state, the pacer task, the virtual users, and
    two ghosts: the sum of the [add_due] arguments so far and the number of
    [claim_next] calls that returned [true]. *)
Record Config := mkConfig {
  cf_shared : Shared;
  cf_upd : upd_pc;
  cf_claimers : list claim_pc;
  cf_due : Z;
  cf_granted : Z }.

Definition granted_by (pc : claim_pc) : Z := match pc with CRet true => 1 | _ => 0 end.

Inductive step : Config → Config → Prop :=
  | step_claim sh u cs due g i pc spurious sh' pc' :
      cs !! i = Some pc → claim_step spurious sh pc = Some (sh', pc') →
      step (mkConfig sh u cs due g)
        (mkConfig sh' u (<[i:=pc']> cs) due (g + granted_by pc'))
  | step_call sh u cs due g i b :
      cs !! i = Some (CRet b) →
      step (mkConfig sh u cs due g) (mkConfig sh u (<[i:=CLoop]> cs) due g)
  | step_upd sh u cs due g sh' u' :
      upd_step sh u = Some (sh', u') →
      step (mkConfig sh u cs due g) (mkConfig sh' u' cs due g)
  | step_upd_call sh cs due g d :
      in_u64 d → due + d ≤ u64_max →
      step (mkConfig sh UIdle cs due g) (mkConfig sh (call_update_due d) cs (due + d) g)
  | step_mark_done sh cs due g :
      step (mkConfig sh UIdle cs due g) (mkConfig sh UDoneStore cs due g).

(** [n] virtual users about to call [claim_next] on a new pacer. *)
Definition init (pre max : Z) (n : nat) : Config :=
  mkConfig (mkShared (new pre max) notify_new) UIdle (replicate n CLoop) 0 0.

Definition reachable (pre max : Z) (n : nat) : Config → Prop :=
  rtc step (init pre max n).
End concurrent.

(** ** The invariant of the interleavings *)
Section invariant.
Context {N : NotifyOps} (pre max : Z).

(** What the pacer task still owes the totals. *)
Definition pending (u : upd_pc) : Z :=
  match u with
  | UDue d | UDueClaimed d _ | UAdd d _ _ | UDrop d => d
  | _ => 0
  end.

Definition upd_ok (p : ArrivalPacer) (u : upd_pc) : Prop :=
  0 ≤ pending u ∧
  match u with
  | UDueClaimed _ c => 0 ≤ c ≤ claimed_total p
  | UAdd _ c s => 0 ≤ c ≤ claimed_total p ∧ s = scheduled_total p
  | UActiveClaimed c _ => 0 ≤ c
  | UActiveStore c s _ => 0 ≤ c ∧ 0 ≤ s
  | _ => True
  end ∧
  (done_flag p = true ↔ u = UDoneNotify ∨ u = UEnd).

Definition claim_ok (p : ArrivalPacer) (pc : claim_pc) : Prop :=
  match pc with
  | CDone => done_flag p = true
  | CDoneClaimed c => done_flag p = true ∧ c ≤ claimed_total p
  | CCas _ s => s ≤ scheduled_total p
  | CRet false => done_flag p = true ∧ scheduled_total p ≤ claimed_total p
  | _ => True
  end.

Record pacer_ok (p : ArrivalPacer) : Prop := {
  ok_pre : pre_allocated_vus p = pre;
  ok_max : max_vus p = max;
  ok_claimed : 0 ≤ claimed_total p ≤ scheduled_total p;
  ok_backlog : scheduled_total p - claimed_total p ≤ Z.max max 1;
  ok_dropped : 0 ≤ dropped_total p;
  ok_active : 1 ≤ pre ≤ max → 1 ≤ active_vus p ≤ max }.

Definition inv (cf : Config) : Prop :=
  let p := sh_pacer (cf_shared cf) in
  pacer_ok p ∧ upd_ok p (cf_upd cf) ∧ Forall (claim_ok p) (cf_claimers cf) ∧
  scheduled_total p + dropped_total p + pending (cf_upd cf) = cf_due cf ∧
  cf_due cf ≤ u64_max ∧ cf_granted cf = claimed_total p.

(** How the totals move: they only grow, and not the schedule once done. *)
Definition evolves (p p' : ArrivalPacer) : Prop :=
  claimed_total p ≤ claimed_total p' ∧ scheduled_total p ≤ scheduled_total p' ∧
  (done_flag p = true → done_flag p' = true ∧ scheduled_total p' = scheduled_total p).

Lemma claim_ok_evolves p p' pc : evolves p p' → claim_ok p pc → claim_ok p' pc.
Proof.
  intros (? & ? & Hd). destruct pc as [| |c| |c|c s| |t|[]]; simpl; try done.
  - intros H'. by apply Hd.
  - intros [H' ?]. split; [by apply Hd|lia].
  - lia.
  - intros [H' ?]. destruct (Hd H'). split; [done|lia].
Qed.

Lemma claim_step_ok spurious sh pc sh' pc' :
  pacer_ok (sh_pacer sh) → claim_ok (sh_pacer sh) pc →
  scheduled_total (sh_pacer sh) ≤ u64_max →
  claim_step spurious sh pc = Some (sh', pc') →
  pacer_ok (sh_pacer sh') ∧ claim_ok (sh_pacer sh') pc' ∧
  evolves (sh_pacer sh) (sh_pacer sh') ∧
  scheduled_total (sh_pacer sh') = scheduled_total (sh_pacer sh) ∧
  dropped_total (sh_pacer sh') = dropped_total (sh_pacer sh) ∧
  done_flag (sh_pacer sh') = done_flag (sh_pacer sh) ∧
  claimed_total (sh_pacer sh') = claimed_total (sh_pacer sh) + granted_by pc'.
Proof.
  intros Hp Hpc Hmax Hstep. destruct sh as [p n]; simpl in *.
  destruct pc as [| |c| |c|c s| |t|b]; simplify_eq/=.
  - unfold evolves. destruct (done_flag p) eqn:Hd; simpl; split_and!; try done; lia.
  - unfold evolves. split_and!; simpl; try done; lia.
  - unfold evolves. destruct Hpc as [Hd Hc].
    destruct (Z.leb_spec (scheduled_total p) c); simpl; split_and!; try done; try lia.
  - unfold evolves; split_and!; simpl; try done; lia.
  - unfold evolves; split_and!; simpl; try done; lia.
  - destruct (Z.ltb_spec c s) as [Hcs|]; simplify_eq/=.
    2: { unfold evolves; split_and!; simpl; try done; lia. }
    destruct (Z.eqb_spec (claimed_total p) c) as [<-|]; simplify_eq/=.
    2: { unfold evolves; split_and!; simpl; try done; lia. }
    destruct spurious; simplify_eq/=.
    { unfold evolves; split_and!; simpl; try done; lia. }
    destruct Hp as [? ? Hc ? ? ?].
    assert (u64_sat_add (claimed_total p) 1 = claimed_total p + 1) as E by ints_lia.
    split_and!; simpl; rewrite ?E; try done; [constructor; simpl; rewrite ?E; try done; lia|].
    unfold evolves; simpl; rewrite ?E; split_and!; try done; lia.
  - unfold evolves; split_and!; simpl; try done; lia.
  - destruct (woken n t); simplify_eq/=. unfold evolves; split_and!; simpl; try done; lia.
Qed.

Lemma upd_ok_evolves p p' u :
  claimed_total p ≤ claimed_total p' → scheduled_total p' = scheduled_total p →
  done_flag p' = done_flag p → upd_ok p u → upd_ok p' u.
Proof.
  intros Hc Hs Hd (H1 & H2 & H3). unfold upd_ok. rewrite Hd, Hs.
  split_and!; [done| |done]. destruct u; try done; lia.
Qed.

Lemma due_split_spec m c s d :
  0 ≤ d ≤ u64_max → 0 ≤ c → 0 ≤ s → let '(a, r) := due_split m c s d in
  0 ≤ a ∧ 0 ≤ r ∧ a + r = d ∧ (a = 0 ∨ s + a ≤ c + Z.max m 1 ∨ s < c).
Proof. intros. unfold due_split. ints_lia. Qed.

#[local] Opaque due_split.

Lemma desired_vus_range p m c s d :
  0 ≤ c → 0 ≤ s → 1 ≤ p ≤ m → desired_vus p m c s = Some d → 1 ≤ d ≤ m.
Proof.
  intros Hc Hs Hp. unfold desired_vus, clamp. rewrite (proj2 (Z.leb_le 1 m)) by lia.
  intros [= <-]. lia.
Qed.

Lemma not_done p u :
  (done_flag p = true ↔ u = UDoneNotify ∨ u = UEnd) →
  u ≠ UDoneNotify → u ≠ UEnd → done_flag p ≠ true.
Proof. intros [H _] ?? [|]%H; done. Qed.

Lemma done_iff p u :
  done_flag p ≠ true → u ≠ UDoneNotify → u ≠ UEnd →
  (done_flag p = true ↔ u = UDoneNotify ∨ u = UEnd).
Proof. intros ???; split; [done|intros [|]; done]. Qed.

Lemma upd_ok_running p u :
  done_flag p ≠ true → u ≠ UDoneNotify → u ≠ UEnd → 0 ≤ pending u →
  match u with
  | UDueClaimed _ c => 0 ≤ c ≤ claimed_total p
  | UAdd _ c s => 0 ≤ c ≤ claimed_total p ∧ s = scheduled_total p
  | UActiveClaimed c _ => 0 ≤ c
  | UActiveStore c s _ => 0 ≤ c ∧ 0 ≤ s
  | _ => True
  end → upd_ok p u.
Proof. intros. split_and!; [done|done|by apply done_iff]. Qed.

Lemma evolves_running p p' :
  claimed_total p ≤ claimed_total p' → scheduled_total p ≤ scheduled_total p' →
  done_flag p ≠ true → evolves p p'.
Proof. intros. by split_and!. Qed.

(** Adding a checked amount to the schedule or to the dropped count. *)
Lemma add_scheduled_ok p a :
  pacer_ok p → 0 ≤ a → scheduled_total p + a ≤ u64_max →
  a = 0 ∨ scheduled_total p + a ≤ claimed_total p + Z.max max 1 →
  let p' := add_if a add_scheduled p in
  pacer_ok p' ∧ scheduled_total p' = scheduled_total p + a ∧
  claimed_total p' = claimed_total p ∧ dropped_total p' = dropped_total p ∧
  done_flag p' = done_flag p.
Proof.
  intros Hp Ha Hle Hb. unfold add_if. destruct (Z.eqb_spec a 0) as [->|Hne].
  { split_and!; [done|lia|done..]. }
  destruct Hb as [?|Hb]; [done|]. destruct Hp as [? ? ? ? ? ?].
  assert (u64_wrap_add (scheduled_total p) a = scheduled_total p + a) as E
    by (unfold u64_wrap_add; apply as_u64_small; ints_lia).
  simpl. split_and!; [|done..]. constructor; simpl; rewrite ?E; try done; lia.
Qed.

Lemma add_dropped_ok p a :
  pacer_ok p → 0 ≤ a → dropped_total p + a ≤ u64_max →
  let p' := add_if a add_dropped p in
  pacer_ok p' ∧ dropped_total p' = dropped_total p + a ∧
  claimed_total p' = claimed_total p ∧ scheduled_total p' = scheduled_total p ∧
  done_flag p' = done_flag p.
Proof.
  intros Hp Ha Hle. unfold add_if. destruct (Z.eqb_spec a 0) as [->|Hne].
  { split_and!; [done|lia|done..]. }
  destruct Hp as [? ? ? ? ? ?].
  assert (u64_wrap_add (dropped_total p) a = dropped_total p + a) as E
    by (unfold u64_wrap_add; apply as_u64_small; ints_lia).
  simpl. split_and!; [|done..]. constructor; simpl; rewrite ?E; try done; lia.
Qed.

Lemma upd_step_ok sh u sh' u' due :
  pacer_ok (sh_pacer sh) → upd_ok (sh_pacer sh) u →
  scheduled_total (sh_pacer sh) + dropped_total (sh_pacer sh) + pending u = due →
  due ≤ u64_max → upd_step sh u = Some (sh', u') →
  pacer_ok (sh_pacer sh') ∧ upd_ok (sh_pacer sh') u' ∧
  evolves (sh_pacer sh) (sh_pacer sh') ∧
  claimed_total (sh_pacer sh') = claimed_total (sh_pacer sh) ∧
  scheduled_total (sh_pacer sh') + dropped_total (sh_pacer sh') + pending u' = due.
Proof.
  intros Hp (Hpend & Hpc & Hdone) Hdue Hmax Hstep. destruct sh as [p n]; simpl in *.
  pose proof Hp as [Epre Emax Hcl Hbl Hdr Hact]. pose proof (not_done _ _ Hdone) as Hnd.
  destruct u as [|d|d c|d c s|d|w|c w|c s w| | | |]; simplify_eq/=.
  1,2,5,6,8: split_and!; [done|apply upd_ok_running; simpl; auto with lia
    |apply evolves_running; auto with lia|done|lia].
  - destruct Hpc as [Hc ->].
    pose proof (due_split_spec (max_vus p) c (scheduled_total p) d) as Hsp.
    destruct (due_split _ _ _ _) as [a r]. simplify_eq/=.
    destruct Hsp as (Ha & Hr & Har & Hb); [lia|lia|lia|].
    destruct (add_scheduled_ok p a Hp) as (Hp' & Es & Ec & Ed & Ef); [done|lia|lia|].
    split_and!; [done|apply upd_ok_running; rewrite ?Ef; auto
      |apply evolves_running; auto with lia|done|lia].
  - destruct (add_dropped_ok p d Hp) as (Hp' & Ed & Ec & Es & Ef); [done|lia|].
    split_and!; [done|apply upd_ok_running; rewrite ?Ef; simpl; auto with lia
      |apply evolves_running; auto with lia|done|lia].
  - destruct (desired_vus _ _ c s) as [x|] eqn:Hx; simplify_eq/=.
    assert (1 ≤ pre_allocated_vus p ≤ max_vus p → 1 ≤ x ≤ max_vus p).
    { intros ?. eapply (desired_vus_range (pre_allocated_vus p)); [| |done|done]; lia. }
    split_and!; [constructor; simpl; rewrite <- ?Epre, <- ?Emax in *; auto with lia
      |apply upd_ok_running; destruct w; simpl; auto with lia
      |apply evolves_running; simpl; auto with lia|done|destruct w; simpl; lia].
  - split_and!; [by constructor|split_and!; [done|done|split; [by left|done]]
      |by apply evolves_running; auto|done|lia].
  - split_and!; [done|split_and!; [done|done|naive_solver]| |done|lia].
    split_and!; [done|done|]. intros ?; split; done.
Qed.

Lemma inv_step cf cf' : inv cf → step cf cf' → inv cf'.
Proof.
  intros (Hp & Hu & Hcs & Hsum & Hmax & Hg) Hstep.
  destruct Hstep as [sh u cs due g i pc sp sh' pc' Hi Hst|sh u cs due g i b Hi
    |sh u cs due g sh' u' Hst|sh cs due g d Hd Hle|sh cs due g]; unfold inv; simpl in *.
  - pose proof (Forall_lookup_1 _ _ _ _ Hcs Hi) as Hpc.
    destruct Hu as (Hpend & ?).
    destruct (claim_step_ok _ _ _ _ _ Hp Hpc ltac:(destruct Hp; lia) Hst)
      as (Hp' & Hpc' & Hev & Hs & Hdr & Hd & Hc).
    split_and!; [done| | |lia|done|lia].
    + eapply upd_ok_evolves; [| | |by split]; [apply Hev|done|done].
    + apply Forall_insert; [|done].
      eapply Forall_impl; [exact Hcs|]. intros ?; by apply claim_ok_evolves.
  - split_and!; try done. by apply Forall_insert.
  - destruct (upd_step_ok _ _ _ _ _ Hp Hu Hsum Hmax Hst) as (Hp' & Hu' & Hev & Hc & Hsum').
    split_and!; try done; [|lia].
    eapply Forall_impl; [exact Hcs|]. intros ?; by apply claim_ok_evolves.
  - destruct Hu as (? & _ & Hdone). unfold call_update_due, upd_ok.
    pose proof (not_done _ _ Hdone ltac:(done) ltac:(done)) as Hnd.
    destruct Hd as [Hd _]. destruct (Z.eqb_spec d 0) as [->|]; simpl in *;
      (split_and!; [done|lia|done|by apply done_iff|done|lia|lia|done]).
  - destruct Hu as (? & _ & Hdone). unfold upd_ok.
    pose proof (not_done _ _ Hdone ltac:(done) ltac:(done)) as Hnd.
    split_and!; try done. by apply done_iff.
Qed.

Lemma inv_init n : 1 ≤ pre ≤ max → inv (init pre max n).
Proof.
  intros Hpm. unfold inv, init, upd_ok; simpl.
  split_and!; try done; [constructor; simpl; lia|naive_solver|by apply Forall_replicate].
Qed.

Lemma inv_reachable n cf : 1 ≤ pre ≤ max → reachable pre max n cf → inv cf.
Proof.
  intros Hpm Hr. unfold reachable in Hr.
  remember (init pre max n) as c0 eqn:E.
  assert (inv c0) as H0 by (subst; by apply inv_init). clear E.
  induction Hr; [done|]. apply IHHr. by eapply inv_step.
Qed.
End invariant.

(** ** Properties *)

(** C8. In every interleaving of the pacer task with any number of virtual
    users, each scheduled iteration is claimed at most once, the backlog stays
    within [max(max_vus, 1)], the active count within [1, max_vus], and every
    due iteration is scheduled, dropped, or still being added. *)
Theorem pacer_accounting {N : NotifyOps} pre max n cf :
  1 ≤ pre ≤ max → reachable pre max n cf →
  let p := sh_pacer (cf_shared cf) in
  cf_granted cf = claimed_total p ∧ 0 ≤ claimed_total p ≤ scheduled_total p ∧
  scheduled_total p - claimed_total p ≤ Z.max max 1 ∧
  1 ≤ active_vus p ≤ max ∧
  scheduled_total p + dropped_total p + pending (cf_upd cf) = cf_due cf.
Proof.
  intros Hpm Hr p. destruct (inv_reachable _ _ _ _ Hpm Hr) as (Hp & _ & _ & Hs & _ & Hg).
  destruct Hp as [? ? ? ? ? Hact]. specialize (Hact Hpm). subst p. split_and!; lia.
Qed.

(** [claim_next] returns [false] only once the pacer is done and every
    iteration it scheduled has been handed out: no scheduled work is lost. *)
Theorem claim_false_drained {N : NotifyOps} pre max n cf i :
  1 ≤ pre ≤ max → reachable pre max n cf → cf_claimers cf !! i = Some (CRet false) →
  done_flag (sh_pacer (cf_shared cf)) = true ∧
  cf_granted cf = scheduled_total (sh_pacer (cf_shared cf)).
Proof.
  intros Hpm Hr Hi. destruct (inv_reachable _ _ _ _ Hpm Hr) as (Hp & _ & Hcs & _ & _ & Hg).
  destruct (Forall_lookup_1 _ _ _ _ Hcs Hi) as [Hd Hle]. destruct Hp as [? ? ? ? ? ?].
  split; [done|lia].
Qed.

(** The atomic actions of the pacer task alone. *)
Definition upd_rel {N : NotifyOps} (a b : Shared * upd_pc) : Prop :=
  upd_step (fst a) (snd a) = Some b.

Lemma upd_rel_store {N : NotifyOps} p n w p' :
  update_active_vus p = Some p' →
  ∃ n', rtc upd_rel (mkShared p n, UActive w) (mkShared p' n', UIdle).
Proof.
  unfold update_active_vus. intros Hp.
  destruct (desired_vus _ _ _ _) as [x|] eqn:Hx; simplify_eq/=.
  exists (if w then notify_waiters n else n).
  do 2 (eapply rtc_l; [reflexivity|]).
  eapply rtc_l; [unfold upd_rel; simpl; by rewrite Hx|].
  destruct w; [|by apply rtc_refl]. eapply rtc_l; [reflexivity|]. by apply rtc_refl.
Qed.

(** [update_due] never panics on a pacer the configuration admits, and the
    pacer task running its atomic actions alone computes exactly [update_due]. *)
Theorem update_due_refined {N : NotifyOps} p n d :
  1 ≤ max_vus p →
  ∃ p' n', update_due d p = Some p' ∧
    rtc upd_rel (mkShared p n, call_update_due d) (mkShared p' n', UIdle).
Proof.
  intros Hm. assert (∀ q, max_vus q = max_vus p → ∃ q', update_active_vus q = Some q') as Hact.
  { intros q Hq. unfold update_active_vus, desired_vus, clamp.
    rewrite Hq, (proj2 (Z.leb_le 1 (max_vus p))) by done. simpl. eauto. }
  unfold update_due, call_update_due. destruct (Z.eqb_spec d 0) as [->|Hd].
  { destruct (Hact p eq_refl) as [p' Hp']. destruct (upd_rel_store _ n false _ Hp') as [n' ?].
    by exists p', n'. }
  destruct (due_split _ _ _ d) as [a r] eqn:Hs.
  set (q := add_if r add_dropped (add_if a add_scheduled p)).
  assert (max_vus q = max_vus p) as Hq
    by (unfold q, add_if; destruct (r =? 0), (a =? 0); done).
  destruct (Hact q Hq) as [p' Hp']. destruct (upd_rel_store _ n true _ Hp') as [n' Hrun].
  exists p', n'. split; [done|].
  do 2 (eapply rtc_l; [reflexivity|]).
  eapply rtc_l; [unfold upd_rel; cbn [fst snd upd_step sh_pacer sh_notify]; by rewrite Hs|].
  eapply rtc_l; [reflexivity|]. done.
Qed.

(** A wake-up can be lost: a virtual user that found the pacer neither
    done nor behind, and creates its [notified()] future only after
    [mark_done] has notified, waits for ever: no step is left. *)
Theorem claim_next_lost_wakeup {N : NotifyOps} (L : NotifyLaws N) :
  ∃ cf t, reachable 1 1 1 cf ∧ done_flag (sh_pacer (cf_shared cf)) = true ∧
    cf_claimers cf = [CWait t] ∧ ∀ cf', ¬ step cf cf'.
Proof.
  set (p := set_done (new 1 1)). set (n := notify_waiters notify_new).
  exists (mkConfig (mkShared p n) UEnd [CWait (notified n)] 0 0), (notified n).
  split_and!; [|done|done|].
  - unfold reachable, init; simpl.
    do 4 (eapply rtc_l;
      [eapply (step_claim _ _ _ _ _ 0%nat _ false); [reflexivity|reflexivity]|]; simpl).
    eapply rtc_l; [apply step_mark_done|].
    do 2 (eapply rtc_l; [by apply step_upd|]; simpl).
    eapply rtc_l; [eapply (step_claim _ _ _ _ _ 0%nat _ false); [reflexivity|reflexivity]|]; simpl.
    by apply rtc_refl.
  - intros cf' Hst. inversion Hst as [? ? ? ? ? i pc sp ? ? Hi Hs|? ? ? ? ? i b Hi| | |];
      simplify_eq; destruct i as [|i]; simplify_eq/=.
    by rewrite woken_notified in Hs.
Qed.

(** ** Witnesses *)
Definition demo_drained : Config :=
  mkConfig (mkShared (set_done (new 1 2)) 1%nat) UEnd [CRet false] 0 0.

Lemma demo_drained_reachable : reachable 1 2 1 demo_drained.
Proof.
  unfold reachable, init; simpl.
  eapply rtc_l; [apply step_mark_done|].
  do 2 (eapply rtc_l; [by apply step_upd|]; simpl).
  do 3 (eapply rtc_l;
    [eapply (step_claim _ _ _ _ _ 0%nat _ false); [reflexivity|reflexivity]|]; simpl).
  apply rtc_refl.
Qed.

(** One iteration scheduled and claimed, one dropped ([max_vus] is 1). *)
Definition demo_claimed : Config :=
  mkConfig (mkShared (set_claimed 1 (mkPacer 1 0 1 1 1 1 false)) 1%nat) UIdle [CRet true] 2 1.

Lemma demo_claimed_reachable : reachable 1 1 1 demo_claimed.
Proof.
  unfold reachable, init; simpl.
  eapply rtc_l; [apply (step_upd_call _ _ _ _ 2); ints_lia|]; simpl.
  do 8 (eapply rtc_l; [by apply step_upd|]; simpl).
  do 4 (eapply rtc_l;
    [eapply (step_claim _ _ _ _ _ 0%nat _ false); [reflexivity|reflexivity]|]; simpl).
  apply rtc_refl.
Qed.

Lemma pacer_accounting_witness :
  cf_granted demo_claimed = claimed_total (sh_pacer (cf_shared demo_claimed)) ∧
  dropped_total (sh_pacer (cf_shared demo_claimed)) = 1.
Proof.
  destruct (pacer_accounting 1 1 1 demo_claimed ltac:(lia) demo_claimed_reachable) as (H & _).
  split; [exact H|reflexivity].
Defined.

Lemma claim_false_drained_witness :
  done_flag (sh_pacer (cf_shared demo_drained)) = true ∧
  cf_granted demo_drained = scheduled_total (sh_pacer (cf_shared demo_drained)).
Proof.
  apply (claim_false_drained 1 2 1 demo_drained 0%nat);
    [lia|exact demo_drained_reachable|reflexivity].
Defined.

Lemma update_due_refined_witness :
  ∃ p' n', update_due 5 (new 2 3) = Some p' ∧
    rtc upd_rel (@mkShared counting_notify (new 2 3) 0%nat, call_update_due 5)
      (mkShared p' n', UIdle).
Proof. apply (@update_due_refined counting_notify (new 2 3) 0%nat 5). simpl; lia. Defined.

Lemma claim_next_lost_wakeup_witness :
  ∃ (cf : Config) t, reachable 1 1 1 cf ∧ done_flag (sh_pacer (cf_shared cf)) = true ∧
    cf_claimers cf = [CWait t] ∧ ∀ cf', ¬ step cf cf'.
Proof. apply (claim_next_lost_wakeup counting_notify_laws). Defined.

Example update_due_value : update_due 5 (new 2 3) = Some (mkPacer 3 0 2 3 2 3 false).
Proof. reflexivity. Qed.
