(* ===== verification/Gate.v ===== *)
(** * The iteration gate (wrkr-core/src/gate.rs)

    [IterationGate]: the shared counter and the deadline that decide whether a
    constant-VUs user runs another iteration.  An [Instant] is a number of
    nanoseconds; adding a duration beyond the clock's range panics ([None]). *)
From S2P Require Import Prelude Std.

Record IterationGate := mkGate {
  counter : Z;
  iterations : option Z;
  gate_duration : option Z;
  deadline : option Z }.

Definition new (iterations duration : option Z) : IterationGate :=
  mkGate 0 iterations duration None.

(** 63-bit seconds of the monotonic clock. *)
Definition INSTANT_MAX : Z := (2 ^ 63 - 1) * Duration.NANOS_PER_SEC + (Duration.NANOS_PER_SEC - 1).

Definition instant_add (t d : Z) : option Z :=
  if t + d <=? INSTANT_MAX then Some (t + d) else None.

(** [start_at]: the first deadline set wins ([OnceLock]). *)
Definition start_at (started : Z) (g : IterationGate) : option IterationGate :=
  match deadline g with
  | Some _ => Some g
  | None =>
      match gate_duration g with
      | Some d =>
          t ← instant_add started d;
          Some (mkGate (counter g) (iterations g) (gate_duration g) (Some t))
      | None => Some g
      end
  end.

Definition fetch_add (g : IterationGate) : Z * IterationGate :=
  (counter g, mkGate (u64_wrap_add (counter g) 1) (iterations g) (gate_duration g) (deadline g)).

(** The deadline part of [next], at the clock reading [now]. *)
Definition past_deadline (now : Z) (g : IterationGate) : bool :=
  match deadline g with Some d => d <=? now | None => false end.

(** The counting part of [next]. *)
Definition count (g : IterationGate) : bool * IterationGate :=
  match iterations g with
  | Some total => let '(idx, g) := fetch_add g in (idx <? total, g)
  | None =>
      match gate_duration g with
      | None => let '(idx, g) := fetch_add g in (negb (0 <? idx), g)
      | Some _ => (true, g)
      end
  end.

Definition next (now : Z) (g : IterationGate) : option (bool * IterationGate) :=
  g ← match gate_duration g, deadline g with
      | Some _, None => start_at now g
      | _, _ => Some g
      end;
  if (if gate_duration g then past_deadline now g else false) then Some (false, g)
  else Some (count g).

(** ** Interleaved calls

    Every virtual user of a scenario calls [next] on the same gate; the
    actions on the shared fields are the deadline's read, its one-time set and
    the counter's [fetch_add]. *)
Inductive next_pc :=
  | NStart (now : Z)       (* the clock is read; about to read the deadline *)
  | NSet (now : Z)         (* about to set it *)
  | NCheck (now : Z)       (* about to compare with it *)
  | NCount                 (* about to count *)
  | NRet (b : bool).

#[export] Instance next_pc_eq_dec : EqDecision next_pc.
Proof. solve_decision. Defined.

Definition next_step (g : IterationGate) (pc : next_pc) : option (IterationGate * next_pc) :=
  match pc with
  | NStart now =>
      Some (g, match gate_duration g, deadline g with
               | None, _ => NCount
               | Some _, None => NSet now
               | Some _, Some _ => NCheck now
               end)
  | NSet now => g' ← start_at now g; Some (g', NCheck now)
  | NCheck now => Some (g, if past_deadline now g then NRet false else NCount)
  | NCount => let '(b, g') := count g in Some (g', NRet b)
  | NRet _ => None
  end.

(** Ghosts: how many calls have counted, and how many returned [true]. *)
Record Config := mkConfig {
  cf_gate : IterationGate;
  cf_users : list next_pc;
  cf_counted : Z;
  cf_passed : Z }.

Definition counts (pc : next_pc) : Z := match pc with NCount => 1 | _ => 0 end.
Definition passes (pc : next_pc) : Z := match pc with NRet true => 1 | _ => 0 end.

Inductive step : Config → Config → Prop :=
  | step_next g us n k i pc g' pc' :
      us !! i = Some pc → next_step g pc = Some (g', pc') →
      step (mkConfig g us n k)
        (mkConfig g' (<[i:=pc']> us) (n + counts pc) (k + passes pc'))
  | step_call g us n k i b now :
      us !! i = Some (NRet b) →
      step (mkConfig g us n k) (mkConfig g (<[i:=NStart now]> us) n k).

(** [u] users that have not called yet, on a gate the runner may have started. *)
Definition init (g : IterationGate) (u : nat) : Config :=
  mkConfig g (replicate u (NRet false)) 0 0.

(** The number of iterations the gate admits, when it counts them. *)
Definition limit (iterations duration : option Z) : option Z :=
  match iterations, duration with
  | Some n, _ => Some n
  | None, None => Some 1
  | None, Some _ => None
  end.

(** ** Lemmas *)
Lemma start_at_fields t g g' :
  start_at t g = Some g' →
  counter g' = counter g ∧ iterations g' = iterations g ∧ gate_duration g' = gate_duration g ∧
  (∀ d, deadline g = Some d → deadline g' = Some d).
Proof.
  unfold start_at. intros H. destruct (deadline g) eqn:Hd; simplify_eq; [split_and!; congruence|].
  destruct (gate_duration g) eqn:Hg; simplify_eq/=; [|split_and!; congruence].
  destruct (instant_add _ _); simplify_eq/=. split_and!; congruence.
Qed.

Lemma count_spec g b g' :
  count g = (b, g') →
  iterations g' = iterations g ∧ gate_duration g' = gate_duration g ∧ deadline g' = deadline g ∧
  match limit (iterations g) (gate_duration g) with
  | Some l => counter g' = u64_wrap_add (counter g) 1 ∧ b = (counter g <? l)
  | None => counter g' = counter g ∧ b = true
  end.
Proof.
  unfold count, limit, fetch_add. intros H.
  destruct (iterations g) eqn:Hi, (gate_duration g) eqn:Hd; simplify_eq/=; rewrite ?Hi, ?Hd;
    split_and!; try done.
  bool_cases; try done; lia.
Qed.

Definition counted_ok (iters dur : option Z) (cf : Config) : Prop :=
  iterations (cf_gate cf) = iters ∧ gate_duration (cf_gate cf) = dur ∧ 0 ≤ cf_counted cf ∧
  match limit iters dur with
  | Some l => cf_counted cf ≤ u64_max →
      counter (cf_gate cf) = cf_counted cf ∧ cf_passed cf = Z.min l (cf_counted cf)
  | None => cf_passed cf = cf_counted cf
  end.

Lemma next_step_fields g pc g' pc' :
  next_step g pc = Some (g', pc') →
  iterations g' = iterations g ∧ gate_duration g' = gate_duration g ∧
  (∀ d, deadline g = Some d → deadline g' = Some d) ∧
  (counts pc = 0 → counter g' = counter g ∧ passes pc' = 0).
Proof.
  intros H. destruct pc as [now|now|now| |b]; simplify_eq/=.
  - split_and!; try done. intros _. by destruct (gate_duration g'), (deadline g').
  - destruct (start_at now g) as [g1|] eqn:Hs; simplify_eq/=.
    destruct (start_at_fields _ _ _ Hs) as (? & ? & ? & ?). split_and!; try done.
  - split_and!; try done. by destruct (past_deadline _ _).
  - destruct (count g) as [b g1] eqn:Hc; simplify_eq/=.
    destruct (count_spec _ _ _ Hc) as (? & ? & Hd & _). split_and!; try done. by rewrite Hd.
Qed.

Lemma counted_ok_step iters dur cf cf' :
  counted_ok iters dur cf → step cf cf' → counted_ok iters dur cf'.
Proof.
  intros (Hi & Hd & Hn & Hl) Hstep. unfold counted_ok.
  destruct Hstep as [g us n k i pc g' pc' Hpc Hs|]; simpl in *; [|done].
  destruct (next_step_fields _ _ _ _ Hs) as (Ei & Ed & _ & Ek).
  rewrite Ei, Ed. destruct (decide (pc = NCount)) as [->|Hne].
  - simpl in *. destruct (count g) as [b g1] eqn:Hc; simplify_eq/=.
    destruct (count_spec _ _ _ Hc) as (_ & _ & _ & Hs').
    split_and!; [done|done|lia|].
    destruct (limit _ _) as [l|]; destruct Hs' as [Hctr ->]; simpl; [|lia].
    intros Hle. destruct (Hl ltac:(lia)) as [Ec Ep]. rewrite Hctr, Ec.
    unfold u64_wrap_add. rewrite as_u64_small by ints_lia.
    split; [done|]. destruct (Z.ltb_spec n l); simpl; lia.
  - assert (counts pc = 0) as E by (by destruct pc). destruct (Ek E) as [Ec Ep].
    rewrite E, Ep, Ec, !Z.add_0_r. by split_and!.
Qed.

Lemma counted_ok_reachable g u cf :
  counter g = 0 → (∀ n, iterations g = Some n → 0 ≤ n) →
  rtc step (init g u) cf → counted_ok (iterations g) (gate_duration g) cf.
Proof.
  intros Hc Hn Hr. remember (init g u) as c0 eqn:E.
  assert (counted_ok (iterations g) (gate_duration g) c0) as H0.
  { subst c0. unfold counted_ok, limit; simpl. split_and!; try done.
    destruct (iterations g) as [m|] eqn:Hm; [|destruct (gate_duration g); simpl; [done|]].
    - intros _. split; [done|]. specialize (Hn m eq_refl). lia.
    - intros _. split; [done|lia]. }
  clear E. induction Hr as [|? ? ? Hst ? IH]; [done|].
  apply IH. by eapply counted_ok_step.
Qed.

(** ** Properties *)

(** Whatever the interleaving of the virtual users' calls, exactly the
    first [limit] counted calls pass the gate: a run of [n] iterations shared
    by any number of users starts [n] of them, and a gate with neither
    iterations nor duration starts one. *)
Theorem gate_admits_exactly iters dur u cf l :
  limit iters dur = Some l → 0 ≤ l →
  rtc step (init (new iters dur) u) cf → cf_counted cf ≤ u64_max →
  cf_passed cf = Z.min l (cf_counted cf).
Proof.
  intros Hl Hpos Hr Hle.
  destruct (counted_ok_reachable (new iters dur) u cf) as (_ & _ & _ & Hok); [done| |done|].
  { simpl. intros n ->. by simplify_eq/=. }
  simpl in Hok. rewrite Hl in Hok. by apply Hok.
Qed.

(** The deadline the runner sets is final, and from it on no call passes;
    before it, a gate without an iteration count lets every call pass. *)
Theorem gate_deadline started d iters now g :
  start_at started (new iters (Some d)) = Some g →
  deadline g = Some (started + d) ∧
  (started + d ≤ now → next now g = Some (false, g)) ∧
  (now < started + d → iters = None → next now g = Some (true, g)) ∧
  ∀ now', start_at now' g = Some g.
Proof.
  unfold start_at, instant_add; simpl. intros H.
  destruct (Z.leb_spec (started + d) INSTANT_MAX); simplify_eq/=.
  unfold next, past_deadline, count; simpl.
  split_and!; [done| | |done].
  - intros. by rewrite (proj2 (Z.leb_le _ _)).
  - intros Hlt ->. by rewrite (proj2 (Z.leb_gt _ _)).
Qed.

(** Left to itself, a gate the runner did not start sets its deadline from
    the first call: the call at [now] passes (for a positive duration) and the
    calls from [now + d] on do not. *)
Theorem gate_lazy_deadline d now now' :
  0 < d → now + d ≤ INSTANT_MAX →
  ∃ g, next now (new None (Some d)) = Some (true, g) ∧ deadline g = Some (now + d) ∧
    next now' g = Some (negb (now + d <=? now'), g).
Proof.
  intros Hd Hle. unfold next, start_at, instant_add, past_deadline; simpl.
  rewrite (proj2 (Z.leb_le _ _)) by done. simpl.
  rewrite (proj2 (Z.leb_gt _ _)) by lia.
  eexists; split_and!; [done|done|]. unfold count; simpl.
  by destruct (now + d <=? now').
Qed.

(** ** Witnesses *)
Definition demo_run : Config :=
  mkConfig (mkGate 2 (Some 1) None None) [NRet true; NRet false] 2 1.

Lemma demo_run_reachable : rtc step (init (new (Some 1) None) 2) demo_run.
Proof.
  unfold init; simpl.
  eapply rtc_l; [apply (step_call _ _ _ _ 0%nat false 5); reflexivity|]; simpl.
  eapply rtc_l; [apply (step_call _ _ _ _ 1%nat false 5); reflexivity|]; simpl.
  eapply rtc_l; [eapply (step_next _ _ _ _ 1%nat); reflexivity|]; simpl.
  eapply rtc_l; [eapply (step_next _ _ _ _ 0%nat); reflexivity|]; simpl.
  eapply rtc_l; [eapply (step_next _ _ _ _ 0%nat); reflexivity|]; simpl.
  eapply rtc_l; [eapply (step_next _ _ _ _ 1%nat); reflexivity|]; simpl.
  apply rtc_refl.
Qed.

Lemma gate_admits_exactly_witness : cf_passed demo_run = 1.
Proof.
  apply (gate_admits_exactly (Some 1) None 2 demo_run 1);
    [reflexivity|lia|exact demo_run_reachable|closed_ineq].
Defined.

Lemma gate_deadline_witness :
  ∃ g, start_at 100 (new None (Some 50)) = Some g ∧ next 150 g = Some (false, g).
Proof.
  eexists; split; [reflexivity|].
  apply (gate_deadline 100 50 None 150); [reflexivity|lia].
Defined.

Lemma gate_lazy_deadline_witness :
  ∃ g, next 7 (new None (Some 10)) = Some (true, g) ∧ deadline g = Some (7 + 10) ∧
    next 17 g = Some (negb (7 + 10 <=? 17), g).
Proof. apply (gate_lazy_deadline 10 7 17); [lia|closed_ineq]. Defined.
