(* ===== verification/Options.v ===== *)
(** * Resolving script options into scenarios (wrkr-core/src/run.rs, error.rs)

    [scenarios_from_options]: the command line overrides the scenario, which
    overrides the script's global options; invalid combinations are errors. *)
From S2P Require Import Prelude Std Config.

(** [error.rs]: [Error], the sources of wrapped errors as their messages. *)
Inductive Error :=
  | EIo (msg : string)
  | EJoin (msg : string)
  | EVu (msg : string)
  | InvalidVus
  | InvalidIterations
  | InvalidExecutor
  | InvalidStages
  | InvalidStartVus
  | InvalidStartRate
  | InvalidTimeUnit
  | InvalidPreAllocatedVus
  | InvalidMaxVus
  | InvalidOutputPath (path : string)
  | EThresholdEval (metric error : string).

#[export] Instance Error_eq_dec : EqDecision Error.
Proof. solve_decision. Defined.

Local Notation result := (result Error).

(** [Option::or]. *)
Definition or {A} (a b : option A) : option A := match a with Some _ => a | None => b end.

(** [if cond { return Err(e) }]. *)
Definition guard_err (cond : bool) (e : Error) : result unit := if cond then Err e else Ok tt.

Definition is_some {A} (o : option A) : bool := match o with Some _ => true | None => false end.

Definition is_zero_opt (o : option Z) : bool := match o with Some n => n =? 0 | None => false end.

Definition cli_overrides_set (cfg : RunConfig) : bool :=
  is_some (cfg_vus cfg) || is_some (cfg_iterations cfg) || is_some (cfg_duration cfg).

(** [stages.iter().map(|st| st.target).max().unwrap_or(0)]. *)
Definition max_stage (stages : list Stage) : Z := foldr (λ s, Z.max (st_target s)) 0 stages.

(** [stages.iter().fold(ZERO, |acc, st| acc.saturating_add(st.duration))]. *)
Definition total_stages (stages : list Stage) : Z :=
  foldl (λ acc s, Duration.saturating_add acc (st_duration s)) Duration.ZERO stages.

(** The arm that builds a constant-VUs scenario (also taken when a ramping
    scenario is overridden from the command line). *)
Definition constant_scenario (opts : ScriptOptions) (cfg : RunConfig) (s : ScenarioOptions)
    (exec : string) (ctx : MetricsContext) : result ScenarioConfig :=
  let vus := default 1 (or (or (cfg_vus cfg) (so_vus s)) (op_vus opts)) in
  _ ← guard_err (vus =? 0) InvalidVus;
  let iterations := or (or (cfg_iterations cfg) (so_iterations s)) (op_iterations opts) in
  _ ← guard_err (is_zero_opt iterations) InvalidIterations;
  let duration := or (or (cfg_duration cfg) (so_duration s)) (op_duration opts) in
  mret (mkScenarioConfig exec ctx (ConstantVus vus) iterations duration).

Definition ramping_vus_scenario (opts : ScriptOptions) (s : ScenarioOptions)
    (exec : string) (ctx : MetricsContext) : result ScenarioConfig :=
  _ ← guard_err (is_some (so_iterations s) || is_some (op_iterations opts)) InvalidIterations;
  _ ← guard_err (is_empty (so_stages s)) InvalidStages;
  let start_vus := default 0 (so_start_vus s) in
  let max_vus := Z.max (max_stage (so_stages s)) start_vus in
  _ ← guard_err (max_vus =? 0) InvalidVus;
  let total_duration := total_stages (so_stages s) in
  _ ← guard_err (Duration.is_zero total_duration) InvalidStages;
  mret (mkScenarioConfig exec ctx (RampingVus start_vus (so_stages s)) None
    (Some total_duration)).

Definition ramping_arrival_rate_scenario (opts : ScriptOptions) (s : ScenarioOptions)
    (exec : string) (ctx : MetricsContext) : result ScenarioConfig :=
  _ ← guard_err (is_some (so_iterations s) || is_some (op_iterations opts)) InvalidIterations;
  _ ← guard_err (is_empty (so_stages s)) InvalidStages;
  let start_rate := default 0 (so_start_rate s) in
  let time_unit := default (Duration.from_secs 1) (so_time_unit s) in
  _ ← guard_err (Duration.is_zero time_unit) InvalidTimeUnit;
  let pre := default 1 (so_pre_allocated_vus s) in
  _ ← guard_err (pre =? 0) InvalidPreAllocatedVus;
  let max_vus := default pre (so_max_vus s) in
  _ ← guard_err (max_vus <? pre) InvalidMaxVus;
  let total_duration := total_stages (so_stages s) in
  _ ← guard_err (Duration.is_zero total_duration) InvalidStages;
  mret (mkScenarioConfig exec ctx
    (RampingArrivalRate start_rate time_unit pre max_vus (so_stages s)) None
    (Some total_duration)).

(** The body of the loop over [opts.scenarios]. *)
Definition resolve_scenario (opts : ScriptOptions) (cfg : RunConfig) (s : ScenarioOptions) :
    result ScenarioConfig :=
  let exec := default "Default"%string (so_exec s) in
  let ctx := mkMetricsContext (so_name s) (so_tags s) in
  let executor_name := default "constant-vus"%string (so_executor s) in
  kind ← ok_or (parse_executor_kind executor_name) InvalidExecutor;
  if cli_overrides_set cfg && is_ramping kind then constant_scenario opts cfg s exec ctx
  else
    match kind with
    | KConstantVus => constant_scenario opts cfg s exec ctx
    | KRampingVus => ramping_vus_scenario opts s exec ctx
    | KRampingArrivalRate => ramping_arrival_rate_scenario opts s exec ctx
    end.

Definition scenarios_from_options (opts : ScriptOptions) (cfg : RunConfig) :
    result (list ScenarioConfig) :=
  if negb (is_empty (op_scenarios opts)) then
    mapM (resolve_scenario opts cfg) (op_scenarios opts)
  else
    let vus := default 1 (or (cfg_vus cfg) (op_vus opts)) in
    _ ← guard_err (vus =? 0) InvalidVus;
    let duration := or (cfg_duration cfg) (op_duration opts) in
    let iterations := or (or (cfg_iterations cfg) (op_iterations opts))
                         (if is_some duration then None else Some 1) in
    _ ← guard_err (is_zero_opt iterations) InvalidIterations;
    mret [mkScenarioConfig "Default" (mkMetricsContext "Default" []) (ConstantVus vus)
            iterations duration].

(** ** What the runner may assume of a resolved scenario *)
Definition opt_nonneg (o : option Z) : Prop := ∀ n, o = Some n → 0 ≤ n.

Definition stages_nonneg (stages : list Stage) : Prop :=
  Forall (λ s, 0 ≤ st_target s ∧ 0 ≤ st_duration s) stages.

(** [u64]s and durations are non-negative. *)
Definition scenario_options_wf (s : ScenarioOptions) : Prop :=
  opt_nonneg (so_vus s) ∧ opt_nonneg (so_iterations s) ∧ opt_nonneg (so_start_vus s) ∧
  opt_nonneg (so_start_rate s) ∧ opt_nonneg (so_time_unit s) ∧
  opt_nonneg (so_pre_allocated_vus s) ∧ opt_nonneg (so_max_vus s) ∧
  stages_nonneg (so_stages s).

Definition options_wf (opts : ScriptOptions) (cfg : RunConfig) : Prop :=
  opt_nonneg (op_vus opts) ∧ opt_nonneg (op_iterations opts) ∧
  opt_nonneg (cfg_vus cfg) ∧ opt_nonneg (cfg_iterations cfg) ∧
  Forall scenario_options_wf (op_scenarios opts).

Definition valid_scenario (c : ScenarioConfig) : Prop :=
  match sc_executor c with
  | ConstantVus vus => 1 ≤ vus ∧ ∀ n, sc_iterations c = Some n → 1 ≤ n
  | RampingVus start stages =>
      sc_iterations c = None ∧ stages ≠ [] ∧ 0 ≤ start ∧ 1 ≤ Z.max (max_stage stages) start ∧
      sc_duration c = Some (total_stages stages) ∧ 0 < total_stages stages
  | RampingArrivalRate rate unit pre max stages =>
      sc_iterations c = None ∧ stages ≠ [] ∧ 0 ≤ rate ∧ 0 < unit ∧ 1 ≤ pre ≤ max ∧
      sc_duration c = Some (total_stages stages) ∧ 0 < total_stages stages
  end.

(** ** Lemmas *)
Lemma guard_err_Ok c e : guard_err c e = Ok tt ↔ c = false.
Proof. unfold guard_err. by destruct c. Qed.

Lemma guard_bind_Ok {A} c e (k : unit → result A) a :
  (x ← guard_err c e; k x) = Ok a ↔ c = false ∧ k tt = Ok a.
Proof.
  rewrite bind_Ok. split.
  - intros ([] & H%guard_err_Ok & ?). done.
  - intros [-> ?]. by exists tt.
Qed.

Lemma guard_bind_Err {A} c e (k : unit → result A) e' :
  (x ← guard_err c e; k x) = Err e' ↔ (c = true ∧ e = e') ∨ (c = false ∧ k tt = Err e').
Proof. destruct c; simpl; unfold mbind, result_bind; simpl; naive_solver. Qed.

Lemma mapM_Ok {A B} (f : A → result B) l k :
  mapM f l = Ok k ↔ Forall2 (λ a b, f a = Ok b) l k.
Proof.
  revert k. induction l as [|a l IH]; intros k; simpl.
  - split; [by intros [= <-]|by inversion 1].
  - rewrite bind_Ok. setoid_rewrite bind_Ok. split.
    + intros (b & Hb & bs & Hbs%IH & [= <-]). by constructor.
    + inversion 1 as [|? b ? bs Hb Hbs]; subst. exists b; split; [done|].
      exists bs; split; [by apply IH|done].
Qed.

(** The error returned is that of the first scenario that fails. *)
Lemma mapM_Err {A B} (f : A → result B) l e :
  mapM f l = Err e ↔
  ∃ l1 a l2, l = l1 ++ a :: l2 ∧ Forall (λ x, is_ok (f x) = true) l1 ∧ f a = Err e.
Proof.
  induction l as [|a l IH]; simpl.
  - split; [done|]. by intros ([] & ? & ? & ? & _).
  - destruct (f a) as [b|e0] eqn:Hf; unfold mbind at 1, result_bind at 1; simpl.
    + destruct (mapM f l) as [bs|e1] eqn:Hm; unfold mbind, result_bind; simpl.
      * split; [done|]. intros (l1 & x & l2 & Hl & Hall & Hx). destruct l1; simplify_eq/=; [congruence|].
        inversion Hall; subst. assert (Ok bs = Err e) as [=]. apply IH. by eexists _, _, _.
      * split.
        -- intros [= ->]. destruct (proj1 IH eq_refl) as (l1 & x & l2 & -> & Hall & Hx).
           exists (a :: l1), x, l2. split_and!; [done| |done]. constructor; [by rewrite Hf|done].
        -- intros (l1 & x & l2 & Hl & Hall & Hx). destruct l1; simplify_eq/=; [congruence|].
           inversion Hall; subst. apply IH. by eexists _, _, _.
    + split.
      * intros [= ->]. by exists [], a, l.
      * intros (l1 & x & l2 & Hl & Hall & Hx). destruct l1; simplify_eq/=; [congruence|].
        inversion Hall as [|? ? Hok]; subst. by rewrite Hf in Hok.
Qed.

Lemma total_stages_nonneg stages : stages_nonneg stages → 0 ≤ total_stages stages.
Proof.
  unfold total_stages. intros H.
  assert (∀ acc, 0 ≤ acc →
    0 ≤ foldl (λ acc s, Duration.saturating_add acc (st_duration s)) acc stages) as Hg; [|by apply Hg].
  induction H as [|s l [_ Hs] Hl IH]; intros acc Hacc; simpl; [done|].
  apply IH. unfold Duration.saturating_add, Duration.MAX, Duration.NANOS_PER_SEC; ints_lia.
Qed.

Lemma default_or_nonneg (l : list (option Z)) d :
  0 ≤ d → Forall opt_nonneg l → 0 ≤ default d (foldl or None l).
Proof.
  intros Hd. assert (∀ o, opt_nonneg o → Forall opt_nonneg l → opt_nonneg (foldl or o l)) as Hg.
  { induction l as [|x l IH]; intros o Ho Hl; simpl; [done|].
    inversion Hl; subst. apply IH; [by destruct o|done]. }
  intros Hl. specialize (Hg None ltac:(done) Hl).
  destruct (foldl _ _ _) as [n|]; simpl; [by apply Hg|done].
Qed.

Lemma opt_nonneg_or a b : opt_nonneg a → opt_nonneg b → opt_nonneg (or a b).
Proof. by destruct a. Qed.
Lemma opt_nonneg_default d o : 0 ≤ d → opt_nonneg o → 0 ≤ default d o.
Proof. destruct o as [n|]; simpl; [|done]. intros _ H. by apply H. Qed.
#[local] Hint Resolve opt_nonneg_or opt_nonneg_default : core.

Lemma constant_scenario_valid opts cfg s exec ctx c :
  options_wf opts cfg → scenario_options_wf s →
  constant_scenario opts cfg s exec ctx = Ok c → valid_scenario c.
Proof.
  intros (? & ? & ? & ? & _) (? & ? & _). unfold constant_scenario.
  rewrite !guard_bind_Ok. intros (Hv%Z.eqb_neq & Hi & [= <-]). unfold valid_scenario; simpl.
  assert (0 ≤ default 1 (or (or (cfg_vus cfg) (so_vus s)) (op_vus opts))) by auto with lia.
  split; [lia|]. intros n Hn. rewrite Hn in Hi. simpl in Hi. apply Z.eqb_neq in Hi.
  assert (opt_nonneg (or (or (cfg_iterations cfg) (so_iterations s)) (op_iterations opts)))
    as Hnn by auto. specialize (Hnn n Hn). lia.
Qed.

Lemma ramping_vus_valid opts s exec ctx c :
  scenario_options_wf s → ramping_vus_scenario opts s exec ctx = Ok c → valid_scenario c.
Proof.
  intros (? & ? & ? & ? & ? & ? & ? & Hst). unfold ramping_vus_scenario.
  rewrite !guard_bind_Ok. intros (_ & Hne & Hm%Z.eqb_neq & Ht%Z.eqb_neq & [= <-]).
  unfold valid_scenario; simpl. pose proof (total_stages_nonneg _ Hst).
  assert (0 ≤ default 0 (so_start_vus s)) by auto with lia.
  split_and!; [done|by intros E; rewrite E in Hne|done|lia|done|lia].
Qed.

Lemma ramping_arrival_rate_valid opts s exec ctx c :
  scenario_options_wf s → ramping_arrival_rate_scenario opts s exec ctx = Ok c →
  valid_scenario c.
Proof.
  intros (? & ? & ? & ? & ? & ? & ? & Hst). unfold ramping_arrival_rate_scenario.
  rewrite !guard_bind_Ok.
  intros (_ & Hne & Hu%Z.eqb_neq & Hp%Z.eqb_neq & Hm%Z.ltb_ge & Ht%Z.eqb_neq & [= <-]).
  unfold valid_scenario; simpl. pose proof (total_stages_nonneg _ Hst).
  assert (0 ≤ default 0 (so_start_rate s)) by auto with lia.
  assert (0 ≤ default (Duration.from_secs 1) (so_time_unit s)) by (by apply opt_nonneg_default).
  assert (0 ≤ default 1 (so_pre_allocated_vus s)) by auto with lia.
  split_and!; [done|by intros E; rewrite E in Hne|done|lia|lia|lia|done|lia].
Qed.

Lemma resolve_scenario_valid opts cfg s c :
  options_wf opts cfg → scenario_options_wf s →
  resolve_scenario opts cfg s = Ok c → valid_scenario c.
Proof.
  intros Ho Hs. unfold resolve_scenario. rewrite bind_Ok. intros (k & _ & H).
  destruct (cli_overrides_set cfg && is_ramping k); [by eapply constant_scenario_valid|].
  destruct k; [by eapply constant_scenario_valid|by eapply ramping_vus_valid
    |by eapply ramping_arrival_rate_valid].
Qed.

(** Name, tags and entry function of a resolved scenario. *)
Lemma resolve_scenario_identity opts cfg s c :
  resolve_scenario opts cfg s = Ok c →
  sc_metrics_ctx c = mkMetricsContext (so_name s) (so_tags s) ∧
  sc_exec c = default "Default"%string (so_exec s).
Proof.
  unfold resolve_scenario. rewrite bind_Ok. intros (k & _ & H).
  destruct (cli_overrides_set cfg && is_ramping k); [|destruct k];
    unfold constant_scenario, ramping_vus_scenario, ramping_arrival_rate_scenario in H;
    rewrite !guard_bind_Ok in H; unfold mret, result_ret in H; destruct_and?; by simplify_eq/=.
Qed.

Lemma resolve_ignores_ramping opts cfg s c :
  cli_overrides_set cfg = true → resolve_scenario opts cfg s = Ok c →
  sc_executor c = ConstantVus (default 1 (or (or (cfg_vus cfg) (so_vus s)) (op_vus opts))) ∧
  sc_iterations c = or (or (cfg_iterations cfg) (so_iterations s)) (op_iterations opts) ∧
  sc_duration c = or (or (cfg_duration cfg) (so_duration s)) (op_duration opts).
Proof.
  intros Hcli. unfold resolve_scenario. rewrite bind_Ok, Hcli. intros (k & _ & H).
  assert (constant_scenario opts cfg s (default "Default"%string (so_exec s))
    (mkMetricsContext (so_name s) (so_tags s)) = Ok c) as Hc by (by destruct k).
  revert Hc. unfold constant_scenario. rewrite !guard_bind_Ok. intros (_ & _ & [= <-]). done.
Qed.

(** ** Properties *)

(** C19. Every resolved scenario is one the runner can execute: positive VU and
    iteration counts, non-empty stages of positive total length, a positive
    time unit and [1 <= pre_allocated_vus <= max_vus]. *)
Theorem scenarios_valid opts cfg out :
  options_wf opts cfg → scenarios_from_options opts cfg = Ok out →
  Forall valid_scenario out.
Proof.
  intros Ho. pose proof Ho as (? & ? & ? & ? & Hss). unfold scenarios_from_options.
  destruct (negb _) eqn:He.
  - rewrite mapM_Ok. intros Hall. apply Forall_lookup. intros i c Hc.
    destruct (Forall2_lookup_r _ _ _ _ _ Hall Hc) as (s & Hs & Hres).
    eapply resolve_scenario_valid; [done| |done]. by eapply Forall_lookup_1.
  - rewrite !guard_bind_Ok. intros (Hv%Z.eqb_neq & Hi & [= <-]).
    apply Forall_singleton. unfold valid_scenario; simpl.
    assert (0 ≤ default 1 (or (cfg_vus cfg) (op_vus opts))) by auto with lia.
    split; [lia|]. intros n Hn. rewrite Hn in Hi. apply Z.eqb_neq in Hi.
    assert (opt_nonneg (or (or (cfg_iterations cfg) (op_iterations opts))
      (if is_some (or (cfg_duration cfg) (op_duration opts)) then None else Some 1))) as Hnn.
    { apply opt_nonneg_or; [by auto|]. destruct (is_some _); [done|]. intros ? [= <-]; lia. }
    specialize (Hnn n Hn). lia.
Qed.

(** The declared scenarios are resolved one for one, in order, keeping name,
    tags and entry function; a failure is the error of the first scenario
    that does not resolve. *)
Theorem scenarios_in_order opts cfg :
  op_scenarios opts ≠ [] →
  match scenarios_from_options opts cfg with
  | Ok out => Forall2 (λ s c, sc_metrics_ctx c = mkMetricsContext (so_name s) (so_tags s) ∧
      sc_exec c = default "Default"%string (so_exec s)) (op_scenarios opts) out
  | Err e => ∃ before s after, op_scenarios opts = before ++ s :: after ∧
      Forall (λ x, is_ok (resolve_scenario opts cfg x) = true) before ∧
      resolve_scenario opts cfg s = Err e
  end.
Proof.
  intros Hne. unfold scenarios_from_options. rewrite is_empty_false by done. simpl.
  destruct (mapM _ _) as [out|e] eqn:Hm.
  - apply mapM_Ok in Hm. eapply Forall2_impl; [exact Hm|].
    intros s c Hc. exact (resolve_scenario_identity _ _ _ _ Hc).
  - by apply mapM_Err.
Qed.

(** Any command-line override turns every scenario into a constant-VUs one,
    ramping executors included, and takes precedence field by field. *)
Theorem cli_overrides_win opts cfg out :
  cli_overrides_set cfg = true → op_scenarios opts ≠ [] →
  scenarios_from_options opts cfg = Ok out →
  Forall2 (λ s c,
    sc_executor c = ConstantVus (default 1 (or (or (cfg_vus cfg) (so_vus s)) (op_vus opts))) ∧
    sc_iterations c = or (or (cfg_iterations cfg) (so_iterations s)) (op_iterations opts) ∧
    sc_duration c = or (or (cfg_duration cfg) (so_duration s)) (op_duration opts))
    (op_scenarios opts) out.
Proof.
  intros Hcli Hne. unfold scenarios_from_options. rewrite is_empty_false by done. simpl.
  rewrite mapM_Ok. intros H. eapply Forall2_impl; [exact H|].
  intros s c Hc. exact (resolve_ignores_ramping _ _ _ _ Hcli Hc).
Qed.

(** ** Witnesses *)
Definition demo_ramp : ScenarioOptions :=
  mkScenarioOptions "ramp" None [("tier", "core")] (Some "ramping-vus"%string) None None None
    (Some 0) [mkStage (Duration.from_secs 10) 5] None None None None.

Definition demo_opts : ScriptOptions := mkScriptOptions (Some 2) None None [demo_ramp] [].

Definition demo_config : ScenarioConfig :=
  mkScenarioConfig "Default" (mkMetricsContext "ramp" [("tier", "core")])
    (RampingVus 0 [mkStage (Duration.from_secs 10) 5]) None (Some (Duration.from_secs 10)).

Lemma demo_opts_wf cfg :
  opt_nonneg (cfg_vus cfg) → opt_nonneg (cfg_iterations cfg) → options_wf demo_opts cfg.
Proof.
  intros ??. split_and!; try done; [by intros ? [= <-]|].
  each (split_and!; try done; [by intros ? [= <-]|each closed_ineq]).
Qed.

Lemma scenarios_valid_witness : Forall valid_scenario [demo_config].
Proof.
  apply (scenarios_valid demo_opts (mkRunConfig None None None));
    [by apply demo_opts_wf|reflexivity].
Defined.

Lemma scenarios_in_order_witness :
  op_scenarios demo_opts ≠ [] ∧
  Forall2 (λ s c, sc_metrics_ctx c = mkMetricsContext (so_name s) (so_tags s) ∧
    sc_exec c = default "Default"%string (so_exec s)) [demo_ramp] [demo_config].
Proof.
  split; [done|]. exact (scenarios_in_order demo_opts (mkRunConfig None None None) ltac:(done)).
Defined.

Lemma cli_overrides_win_witness :
  Forall2 (λ s c,
    sc_executor c = ConstantVus (default 1 (or (or (Some 7) (so_vus s)) (Some 2))) ∧
    sc_iterations c = or (or (Some 3) (so_iterations s)) None ∧
    sc_duration c = or (or None (so_duration s)) None)
    [demo_ramp]
    [mkScenarioConfig "Default" (mkMetricsContext "ramp" [("tier", "core")])
       (ConstantVus 7) (Some 3) None].
Proof.
  exact (cli_overrides_win demo_opts (mkRunConfig (Some 3) (Some 7) None) _
    eq_refl ltac:(done) eq_refl).
Defined.
