(* ===== verification/Plan.v ===== *)
(** * Planning a run (wrkr-core/src/run.rs, first half of [run_scenarios]; vu.rs data)

    From the resolved scenarios to the gates, pacers, schedules and virtual
    users of the run.  [Arc]s of gates and pacers are indices into the plan's
    lists; the handles every VU shares (barrier, start signal, first error) are
    in Startup.v. *)
From S2P Require Import Prelude Coll Std Config Options.
From S2P Require Schedule Gate Pacer.

(** [vu.rs]: [VuWork]. *)
Inductive VuWork :=
  | WConstant (gate : nat)
  | WRampingVus (schedule : Schedule.RampingU64Schedule)
  | WRampingArrivalRate (schedule : Schedule.RampingU64Schedule) (time_unit : Z) (pacer : nat).

(** [vu.rs]: [VuContext], what differs between the VUs of a run. *)
Record VuContext := mkVuContext {
  vc_vu_id : Z;
  vc_max_vus : Z;
  vc_metrics_ctx : MetricsContext;
  vc_scenario_vu : Z;
  vc_exec : string;
  vc_work : VuWork }.

Inductive ScenarioProgressInfo :=
  | PiConstantVus (vus : Z) (duration : option Z)
  | PiRampingVus (schedule : Schedule.RampingU64Schedule)
  | PiRampingArrivalRate (schedule : Schedule.RampingU64Schedule) (time_unit : Z)
      (pacer : nat) (max_vus : Z).

Record ProgressScenario := mkProgressScenario {
  ps_name : string;
  ps_exec : string;
  ps_progress : ScenarioProgressInfo }.

(** An entry of [pacers]: the pacer and what its task needs. *)
Record PacerTask := mkPacerTask {
  pt_pacer : Pacer.ArrivalPacer;
  pt_schedule : Schedule.RampingU64Schedule;
  pt_time_unit : Z;
  pt_total_duration : Z }.

Record Plan := mkPlan {
  pl_next_vu_id : Z;
  pl_gates : list Gate.IterationGate;
  pl_pacers : list PacerTask;
  pl_names : list string;
  pl_progress : list ProgressScenario;
  pl_vus : list VuContext }.

(** The closure [scenario_max_vus]. *)
Definition scenario_max_vus (s : ScenarioConfig) : Z :=
  match sc_executor s with
  | ConstantVus vus => vus
  | RampingVus start_vus stages => Z.max (max_stage stages) start_vus
  | RampingArrivalRate _ _ _ max_vus _ => max_vus
  end.

(** [total_vus]: a [usize] sum, which wraps in a release build. *)
Definition total_vus (scenarios : list ScenarioConfig) : Z :=
  foldl (λ n s, u64_wrap_add n (Z.min (scenario_max_vus s) u64_max)) 0 scenarios.

(** The barrier's parties: the VUs and the runner. *)
Definition barrier_parties (scenarios : list ScenarioConfig) : Z :=
  u64_sat_add (total_vus scenarios) 1.

(** [if progress.is_some() { progress_scenarios.push(..) }]. *)
Definition push_progress (progress : bool) (s : ScenarioConfig) (info : ScenarioProgressInfo)
    (l : list ProgressScenario) : list ProgressScenario :=
  if progress then l ++ [mkProgressScenario (mc_scenario (sc_metrics_ctx s)) (sc_exec s) info] else l.

(** The [match] that builds a scenario's work. *)
Definition make_work (progress : bool) (s : ScenarioConfig) (p : Plan) : VuWork * Plan :=
  match sc_executor s with
  | ConstantVus vus =>
      let gate := length (pl_gates p) in
      (WConstant gate,
       mkPlan (pl_next_vu_id p) (pl_gates p ++ [Gate.new (sc_iterations s) (sc_duration s)])
         (pl_pacers p) (pl_names p)
         (push_progress progress s (PiConstantVus vus (sc_duration s)) (pl_progress p)) (pl_vus p))
  | RampingVus start_vus stages =>
      let schedule := Schedule.new start_vus stages in
      (WRampingVus schedule,
       mkPlan (pl_next_vu_id p) (pl_gates p) (pl_pacers p) (pl_names p)
         (push_progress progress s (PiRampingVus schedule) (pl_progress p)) (pl_vus p))
  | RampingArrivalRate start_rate time_unit pre_allocated_vus max_vus stages =>
      let schedule := Schedule.new start_rate stages in
      let pacer := length (pl_pacers p) in
      (WRampingArrivalRate schedule time_unit pacer,
       mkPlan (pl_next_vu_id p) (pl_gates p)
         (pl_pacers p ++ [mkPacerTask (Pacer.new pre_allocated_vus max_vus) schedule time_unit
                            (Schedule.total_duration schedule)])
         (pl_names p)
         (push_progress progress s (PiRampingArrivalRate schedule time_unit pacer max_vus)
            (pl_progress p)) (pl_vus p))
  end.

(** [if !scenario_names.iter().any(..) { scenario_names.push(..) }]. *)
Definition add_name (name : string) (p : Plan) : Plan :=
  mkPlan (pl_next_vu_id p) (pl_gates p) (pl_pacers p)
    (if existsb (λ s, bool_decide (s = name)) (pl_names p) then pl_names p else pl_names p ++ [name])
    (pl_progress p) (pl_vus p).

(** One round of [for scenario_vu in 1..=scenario_vus_max]. *)
Definition spawn_vu (max_vus : Z) (s : ScenarioConfig) (work : VuWork) (p : Plan) (scenario_vu : Z)
    : Plan :=
  mkPlan (u64_sat_add (pl_next_vu_id p) 1) (pl_gates p) (pl_pacers p) (pl_names p) (pl_progress p)
    (pl_vus p ++ [mkVuContext (pl_next_vu_id p) max_vus (sc_metrics_ctx s) scenario_vu
                    (sc_exec s) work]).

(** One round of [for scenario in scenarios]. *)
Definition plan_scenario (progress : bool) (max_vus : Z) (p : Plan) (s : ScenarioConfig) : Plan :=
  let p := add_name (mc_scenario (sc_metrics_ctx s)) p in
  let '(work, p) := make_work progress s p in
  foldl (spawn_vu max_vus s work) p (seqZ 1 (scenario_max_vus s)).

Definition plan (progress : bool) (scenarios : list ScenarioConfig) : Plan :=
  foldl (plan_scenario progress (total_vus scenarios)) (mkPlan 1 [] [] [] [] []) scenarios.

(** ** What a plan must be *)
Definition constants (scenarios : list ScenarioConfig) : list Gate.IterationGate :=
  omap (λ s, match sc_executor s with
             | ConstantVus _ => Some (Gate.new (sc_iterations s) (sc_duration s))
             | _ => None
             end) scenarios.

Definition arrivals (scenarios : list ScenarioConfig) : list PacerTask :=
  omap (λ s, match sc_executor s with
             | RampingArrivalRate rate unit pre max stages =>
                 let schedule := Schedule.new rate stages in
                 Some (mkPacerTask (Pacer.new pre max) schedule unit (Schedule.total_duration schedule))
             | _ => None
             end) scenarios.

(** The work of a scenario planned after [before]: its own gate or pacer. *)
Definition work_after (before : list ScenarioConfig) (s : ScenarioConfig) : VuWork :=
  match sc_executor s with
  | ConstantVus _ => WConstant (length (constants before))
  | RampingVus start stages => WRampingVus (Schedule.new start stages)
  | RampingArrivalRate rate unit _ _ stages =>
      WRampingArrivalRate (Schedule.new rate stages) unit (length (arrivals before))
  end.

(** The VUs of one scenario: numbered from 1, alike in everything else. *)
Record block_ok (before : list ScenarioConfig) (s : ScenarioConfig) (b : list VuContext) : Prop := {
  bo_numbers : vc_scenario_vu <$> b = seqZ 1 (scenario_max_vus s);
  bo_alike : Forall (λ v, vc_metrics_ctx v = sc_metrics_ctx s ∧ vc_exec v = sc_exec s ∧
                          vc_work v = work_after before s) b }.

Record planned (progress : bool) (max_vus : Z) (scenarios : list ScenarioConfig) (p : Plan) : Prop := {
  pd_next : pl_next_vu_id p = 1 + sumf scenario_max_vus scenarios;
  pd_ids : vc_vu_id <$> pl_vus p = seqZ 1 (sumf scenario_max_vus scenarios);
  pd_max : Forall (λ v, vc_max_vus v = max_vus) (pl_vus p);
  pd_gates : pl_gates p = constants scenarios;
  pd_pacers : pl_pacers p = arrivals scenarios;
  pd_names : NoDup (pl_names p) ∧
    ∀ n, n ∈ pl_names p ↔ n ∈ (λ s, mc_scenario (sc_metrics_ctx s)) <$> scenarios;
  pd_progress : ps_name <$> pl_progress p =
    if progress then (λ s, mc_scenario (sc_metrics_ctx s)) <$> scenarios else [];
  pd_blocks : ∃ blocks, pl_vus p = concat blocks ∧ length blocks = length scenarios ∧
    ∀ i s b, scenarios !! i = Some s → blocks !! i = Some b → block_ok (take i scenarios) s b }.

(** ** Lemmas *)
Lemma add_name_names name p :
  NoDup (pl_names p) →
  NoDup (pl_names (add_name name p)) ∧
  ∀ n, n ∈ pl_names (add_name name p) ↔ n ∈ pl_names p ∨ n = name.
Proof.
  intros Hnd. unfold add_name. simpl. destruct (existsb _ _) eqn:He.
  - apply existsb_exists in He as (x & Hx%list_elem_of_In & ->%bool_decide_eq_true).
    split; [done|]. set_solver.
  - assert (name ∉ pl_names p) as Hn.
    { intros Hin. apply not_true_iff_false in He. apply He, existsb_exists. exists name.
      split; [by apply list_elem_of_In|by apply bool_decide_true]. }
    split; [|set_solver]. apply NoDup_app. split_and!; [done|set_solver|apply NoDup_singleton].
Qed.

(** The VUs [spawn_vu] adds. *)
Lemma spawn_vus max_vus s work k n p :
  0 ≤ n → 1 ≤ pl_next_vu_id p → pl_next_vu_id p + n ≤ u64_max →
  let p' := foldl (spawn_vu max_vus s work) p (seqZ k n) in
  pl_next_vu_id p' = pl_next_vu_id p + n ∧ pl_gates p' = pl_gates p ∧
  pl_pacers p' = pl_pacers p ∧ pl_names p' = pl_names p ∧ pl_progress p' = pl_progress p ∧
  ∃ b, pl_vus p' = pl_vus p ++ b ∧ vc_vu_id <$> b = seqZ (pl_next_vu_id p) n ∧
    vc_scenario_vu <$> b = seqZ k n ∧
    Forall (λ v, vc_max_vus v = max_vus ∧ vc_metrics_ctx v = sc_metrics_ctx s ∧
                 vc_exec v = sc_exec s ∧ vc_work v = work) b.
Proof.
  intros Hn. revert k p. pattern n. apply natlike_ind; [| |done]; clear n Hn.
  - intros k p _ _. rewrite seqZ_nil by lia. cbn. split_and!; try done; [lia|].
    exists []. by rewrite app_nil_r.
  - intros n Hn IH k p H1 H2. rewrite seqZ_cons by lia. rewrite Z.pred_succ. cbn [foldl].
    assert (pl_next_vu_id (spawn_vu max_vus s work p k) = pl_next_vu_id p + 1) as Hnext
      by (simpl; ints_lia).
    destruct (IH (Z.succ k) (spawn_vu max_vus s work p k)) as (E1 & E2 & E3 & E4 & E5 & b & Eb & Hid & Hk & Hb);
      [rewrite Hnext; lia..|].
    rewrite E1, E2, E3, E4, E5, Hnext. split_and!; try done; [lia|].
    eexists (_ :: b). rewrite Eb, !fmap_cons, Hid, Hk, Hnext.
    cbn [spawn_vu pl_vus]. rewrite <- app_assoc. split_and!; [done| |done|by constructor].
    rewrite (seqZ_cons _ (Z.succ n)) by lia. by rewrite Z.pred_succ.
Qed.

Lemma make_work_spec progress s p before :
  pl_gates p = constants before → pl_pacers p = arrivals before →
  let '(work, p') := make_work progress s p in
  work = work_after before s ∧ pl_next_vu_id p' = pl_next_vu_id p ∧ pl_names p' = pl_names p ∧
  pl_vus p' = pl_vus p ∧ pl_gates p' = constants (before ++ [s]) ∧
  pl_pacers p' = arrivals (before ++ [s]) ∧
  ps_name <$> pl_progress p' = (ps_name <$> pl_progress p) ++
    if progress then [mc_scenario (sc_metrics_ctx s)] else [].
Proof.
  intros Hg Hp. unfold make_work, work_after, constants, arrivals in *.
  rewrite !omap_app. simpl. unfold push_progress.
  destruct (sc_executor s); simpl; rewrite ?Hg, ?Hp, ?app_nil_r;
    (split_and!; try done; destruct progress; by rewrite ?fmap_app, ?app_nil_r).
Qed.

Lemma planned_step progress max_vus before s p :
  0 ≤ sumf scenario_max_vus before → 0 ≤ scenario_max_vus s →
  1 + sumf scenario_max_vus (before ++ [s]) ≤ u64_max →
  planned progress max_vus before p →
  planned progress max_vus (before ++ [s]) (plan_scenario progress max_vus p s).
Proof.
  intros Hb Hs Hmax [D1 D2 D3 D4 D5 [D6 D7] D8 (blocks & D9 & D10 & D11)].
  rewrite sumf_app, sumf_cons in Hmax. change (sumf scenario_max_vus []) with 0 in Hmax.
  unfold plan_scenario. set (name := mc_scenario (sc_metrics_ctx s)).
  destruct (add_name_names name p D6) as [N1 N2].
  pose proof (make_work_spec progress s (add_name name p) before D4 D5) as Hw.
  destruct (make_work progress s (add_name name p)) as [work q].
  destruct Hw as (-> & W1 & W2 & W3 & W4 & W5 & W6). simpl in W1, W3, W6.
  destruct (spawn_vus max_vus s (work_after before s) 1 (scenario_max_vus s) q)
    as (S1 & S2 & S3 & S4 & S5 & b & Sb & Hid & Hk & Hall); [done|lia|lia|].
  constructor.
  - rewrite S1, W1, D1, sumf_app, sumf_cons. change (sumf scenario_max_vus []) with 0. lia.
  - rewrite Sb, fmap_app, W3, D2, Hid, W1, D1, sumf_app, sumf_cons.
    change (sumf scenario_max_vus []) with 0. rewrite Z.add_0_r. by rewrite seqZ_app by lia.
  - rewrite Sb, W3. apply Forall_app. split; [done|]. eapply Forall_impl; [done|]. by intros v (? & _).
  - by rewrite S2.
  - by rewrite S3.
  - rewrite S4, W2. split; [done|]. intros n. rewrite N2, fmap_app, D7. set_solver.
  - rewrite S5, W6, D8, fmap_app. by destruct progress.
  - exists (blocks ++ [b]). rewrite Sb, W3, D9, concat_app, !length_app, D10. simpl.
    rewrite app_nil_r. split_and!; [done|done|]. intros i s' b' Hs' Hb'.
    destruct (decide (i < length before)%nat) as [Hi|Hi].
    + rewrite lookup_app_l in Hs' by done. rewrite lookup_app_l in Hb' by lia.
      rewrite take_app_le by lia. by apply D11.
    + pose proof (lookup_lt_Some _ _ _ Hs') as Hl. rewrite length_app in Hl. simpl in Hl.
      assert (i = length before) as -> by lia. rewrite take_app_length.
      rewrite list_lookup_middle in Hs' by done. rewrite list_lookup_middle in Hb' by done.
      simplify_eq. constructor; [done|]. eapply Forall_impl; [done|]. by intros v (_ & ?).
Qed.

Lemma valid_max_vus s : valid_scenario s → 1 ≤ scenario_max_vus s.
Proof. unfold valid_scenario, scenario_max_vus. destruct (sc_executor s); intros; lia. Qed.

Lemma sum_max_vus_nonneg scenarios :
  Forall valid_scenario scenarios → 0 ≤ sumf scenario_max_vus scenarios.
Proof.
  intros Hv. apply sumf_nonneg. intros s Hs. rewrite Forall_forall in Hv.
  pose proof (valid_max_vus s (Hv s Hs)). lia.
Qed.

Lemma total_vus_sum scenarios :
  Forall valid_scenario scenarios → sumf scenario_max_vus scenarios ≤ u64_max →
  total_vus scenarios = sumf scenario_max_vus scenarios.
Proof.
  induction scenarios as [|s scenarios IH] using rev_ind; intros Hv Hle; [done|].
  apply Forall_app in Hv as [Hv Hs]. inversion Hs as [|? ? Hs' _]; subst.
  rewrite sumf_app, sumf_cons in *. change (sumf scenario_max_vus []) with 0 in *.
  pose proof (valid_max_vus s Hs'). pose proof (sum_max_vus_nonneg _ Hv).
  unfold total_vus in *. rewrite foldl_app. simpl. rewrite IH by (done || lia).
  unfold u64_wrap_add. rewrite as_u64_small; ints_lia.
Qed.

Lemma plan_planned progress scenarios :
  Forall valid_scenario scenarios → 1 + sumf scenario_max_vus scenarios ≤ u64_max →
  planned progress (total_vus scenarios) scenarios (plan progress scenarios).
Proof.
  unfold plan. generalize (total_vus scenarios) as max_vus. intros max_vus.
  induction scenarios as [|s scenarios IH] using rev_ind; intros Hv Hle.
  { constructor; cbn; try done; [split; [constructor|set_solver]|by destruct progress|].
    by exists []. }
  apply Forall_app in Hv as [Hv Hs]. inversion Hs as [|? ? Hs' _]; subst.
  pose proof (sum_max_vus_nonneg _ Hv). pose proof (valid_max_vus s Hs') as Hmax.
  rewrite foldl_app. apply planned_step; [done|lia|done|]. apply IH; [done|].
  rewrite sumf_app, sumf_cons in Hle. change (sumf scenario_max_vus []) with 0 in Hle. lia.
Qed.

(** A ramping scenario's target never exceeds its number of VUs. *)
Lemma max_stage_ge stages st : st ∈ stages → st_target st ≤ max_stage stages.
Proof.
  induction stages as [|x stages IH]; intros Hin; [set_solver|].
  apply elem_of_cons in Hin as [->|Hin]; simpl; [lia|]. specialize (IH Hin). lia.
Qed.

Lemma target_within_vus start stages elapsed :
  0 ≤ start → Forall (λ s, 0 ≤ st_target s ∧ 0 ≤ st_duration s) stages →
  Z.max (max_stage stages) start ≤ u64_max → 0 ≤ elapsed →
  ∃ t, Schedule.target_at (Schedule.new start stages) elapsed = Some t ∧
    0 ≤ t ≤ Z.max (max_stage stages) start.
Proof.
  intros Hs Hst Hmax He. apply Schedule.target_at_hull; try lia.
  apply Forall_forall. intros st Hin. pose proof (max_stage_ge stages st Hin).
  pose proof (proj1 (Forall_forall _ _) Hst st Hin) as [? ?]. lia.
Qed.

Lemma max_vus_le scenarios s :
  Forall valid_scenario scenarios → s ∈ scenarios →
  scenario_max_vus s ≤ sumf scenario_max_vus scenarios.
Proof.
  intros Hv Hs. apply sumf_elem_le; [|done]. intros x Hx. rewrite Forall_forall in Hv.
  pose proof (valid_max_vus x (Hv x Hx)). lia.
Qed.

(** ** Properties *)

(** C15. The runner spawns what the scenarios ask for: as many VUs as the
    barrier waits for besides the runner itself, with the identifiers 1, 2, ..
    over all scenarios; each scenario gets its own block of VUs, numbered from
    1, that share one gate, schedule or pacer with no other scenario; the report
    names each scenario once; and at no time is a ramping scenario's target
    larger than its number of VUs. *)
Theorem plan_correct progress scenarios :
  Forall valid_scenario scenarios →
  Forall (λ s, match sc_executor s with RampingVus _ stages => stages_nonneg stages | _ => True end)
    scenarios →
  1 + sumf scenario_max_vus scenarios ≤ u64_max →
  let p := plan progress scenarios in
  planned progress (total_vus scenarios) scenarios p ∧
  barrier_parties scenarios = Z.of_nat (length (pl_vus p)) + 1 ∧
  ∀ i s start stages elapsed, scenarios !! i = Some s → sc_executor s = RampingVus start stages →
    0 ≤ elapsed → ∃ t, Schedule.target_at (Schedule.new start stages) elapsed = Some t ∧
      0 ≤ t ≤ scenario_max_vus s.
Proof.
  intros Hv Hst Hmax. pose proof (plan_planned progress scenarios Hv Hmax) as Hp. cbv zeta.
  pose proof (sum_max_vus_nonneg _ Hv) as Hpos. split_and!; [done| |].
  - unfold barrier_parties. rewrite total_vus_sum by (done || lia).
    pose proof (f_equal length (pd_ids _ _ _ _ Hp)) as Hl. rewrite length_fmap, length_seqZ in Hl.
    rewrite Hl. ints_lia.
  - intros i s start stages elapsed Hi He Helapsed. apply list_elem_of_lookup_2 in Hi as Hin.
    pose proof (Forall_lookup_1 _ _ _ _ Hv Hi) as Hvs. pose proof (Forall_lookup_1 _ _ _ _ Hst Hi) as Hss.
    pose proof (max_vus_le _ _ Hv Hin) as Hle.
    unfold valid_scenario, scenario_max_vus in *. rewrite He in *.
    apply target_within_vus; [apply Hvs|done|lia|done].
Qed.

(** ** Witnesses *)
Definition demo_scenarios : list ScenarioConfig :=
  let ctx name := mkMetricsContext name [] in
  let stages := [mkStage (Duration.from_secs 10) 2] in
  [mkScenarioConfig "Default" (ctx "a"%string) (ConstantVus 2) (Some 5) None;
   mkScenarioConfig "Ramp" (ctx "b"%string) (RampingVus 0 stages) None (Some (Duration.from_secs 10));
   mkScenarioConfig "Default" (ctx "a"%string) (ConstantVus 1) (Some 1) None].

Lemma demo_scenarios_valid : Forall valid_scenario demo_scenarios.
Proof.
  each ltac:(unfold valid_scenario; simpl; split_and!; try done; try lia; intros; simplify_eq; lia).
Qed.

Example demo_plan_names : pl_names (plan true demo_scenarios) = ["a"; "b"]%string.
Proof. reflexivity. Qed.

Lemma plan_correct_witness :
  vc_work <$> pl_vus (plan true demo_scenarios) =
    (let ramp := Schedule.new 0 [mkStage (Duration.from_secs 10) 2] in
     [WConstant 0; WConstant 0; WRampingVus ramp; WRampingVus ramp; WConstant 1]) ∧
  barrier_parties demo_scenarios = 6.
Proof.
  split; [reflexivity|].
  apply (plan_correct true demo_scenarios demo_scenarios_valid); [|closed_ineq].
  each ltac:(simpl; try done; each closed_ineq).
Defined.
