(* ===== verification/Barrier.v ===== *)
(** * The interface of [tokio::sync::Barrier] the runner relies on

    Third-party code: a barrier of [n] parties as a class of operations.  A
    call of [wait] arrives and gets a ticket; the documented behaviour, that
    the calls return once the [n]-th has arrived, is the law of the tickets of
    the first [n] arrivals; the runner makes no others, and the shared store's
    later ones need only that they come later. *)
From S2P Require Import Prelude.

Class BarrierOps := {
  barrier : Type;
  ticket : Type;
  barrier_new : Z → barrier;
  arrive : barrier → ticket * barrier;
  released : barrier → ticket → bool }.

Class BarrierLaws (B : BarrierOps) := {
  parties : barrier → Z;
  arrivals : barrier → Z;
  (** a ticket of the first generation *)
  first : barrier → ticket → Prop;
  parties_new n : 1 ≤ n → parties (barrier_new n) = n;
  arrivals_new n : 1 ≤ n → arrivals (barrier_new n) = 0;
  parties_arrive b : parties (arrive b).2 = parties b;
  arrivals_arrive b : arrivals (arrive b).2 = arrivals b + 1;
  first_arrive b : arrivals b < parties b → first (arrive b).2 (arrive b).1;
  first_mono b t : first b t → first (arrive b).2 t;
  released_first b t : first b t → released b t = true ↔ parties b ≤ arrivals b }.

(** A concrete instance: the parties and the number of arrivals so far, a
    ticket remembering how many came before it. *)
#[export] Instance counting_barrier : BarrierOps := {|
  barrier := Z * nat; ticket := nat;
  barrier_new n := (n, 0%nat);
  arrive b := (b.2, (b.1, S b.2));
  released b t := (Z.of_nat t / b.1 + 1) * b.1 <=? Z.of_nat b.2 |}.

#[export, program] Instance counting_barrier_laws : BarrierLaws counting_barrier := {|
  parties b := b.1; arrivals b := Z.of_nat b.2;
  first b t := Z.of_nat t < b.1 |}.
Next Obligation. done. Qed.
Next Obligation. done. Qed.
Next Obligation. done. Qed.
Next Obligation. intros [n k]. cbn [arrive counting_barrier fst snd]. rewrite Nat2Z.inj_succ. lia. Qed.
Next Obligation. done. Qed.
Next Obligation. done. Qed.
Next Obligation.
  intros b t Hb. cbn [released counting_barrier]. cbn beta in Hb. rewrite Z.leb_le.
  rewrite Z.div_small by (cbn in *; lia). cbn in *. lia.
Qed.
