(* ===== verification/Startup.v ===== *)
(** * Starting and joining a run (wrkr-core/src/run.rs, second half of
    [run_scenarios]; wrkr-core/src/vu.rs, [StartSignal]; wrkr-lua/src/vu.rs,
    up to the work loop)

    One runner and [n] virtual users, interleaved action by action: every VU
    builds its interpreter, reports a failure, and meets the runner at the
    barrier; the runner aborts the run or starts the gates and the start
    signal; in the end it awaits the VUs in order.  What a VU does between the
    start signal and its result is in Loops.v. *)
From S2P Require Import Prelude Coll Std Config Notify Barrier.
From S2P Require Gate.

Section startup.
Context {N : NotifyOps} {B : BarrierOps}.

(** What the VUs' contexts and the runner share. *)
Record Shared := mkShared {
  sh_init_error : option string;      (* [Mutex<Option<String>>] *)
  sh_barrier : barrier;
  sh_started : bool;                  (* [StartSignal::started] *)
  sh_notify : notify;                 (* [StartSignal::notify] *)
  sh_run_started : option Z;          (* [OnceLock<Instant>] *)
  sh_gates : list Gate.IterationGate;
  sh_aborted : bool }.                (* every task's [abort] was called *)

Definition set_init_error (m : string) (sh : Shared) : Shared :=
  mkShared (Some m) (sh_barrier sh) (sh_started sh) (sh_notify sh) (sh_run_started sh)
    (sh_gates sh) (sh_aborted sh).
Definition set_barrier (b : barrier) (sh : Shared) : Shared :=
  mkShared (sh_init_error sh) b (sh_started sh) (sh_notify sh) (sh_run_started sh)
    (sh_gates sh) (sh_aborted sh).
Definition set_started (sh : Shared) : Shared :=
  mkShared (sh_init_error sh) (sh_barrier sh) true (sh_notify sh) (sh_run_started sh)
    (sh_gates sh) (sh_aborted sh).
Definition set_notify (k : notify) (sh : Shared) : Shared :=
  mkShared (sh_init_error sh) (sh_barrier sh) (sh_started sh) k (sh_run_started sh)
    (sh_gates sh) (sh_aborted sh).
(** [OnceLock::set]: the first value stays. *)
Definition set_run_started (now : Z) (sh : Shared) : Shared :=
  mkShared (sh_init_error sh) (sh_barrier sh) (sh_started sh) (sh_notify sh)
    (match sh_run_started sh with Some t => Some t | None => Some now end)
    (sh_gates sh) (sh_aborted sh).
Definition set_gates (gs : list Gate.IterationGate) (sh : Shared) : Shared :=
  mkShared (sh_init_error sh) (sh_barrier sh) (sh_started sh) (sh_notify sh) (sh_run_started sh)
    gs (sh_aborted sh).
Definition set_aborted (sh : Shared) : Shared :=
  mkShared (sh_init_error sh) (sh_barrier sh) (sh_started sh) (sh_notify sh) (sh_run_started sh)
    (sh_gates sh) true.

(** Where a VU is in [run_vu]. *)
Inductive vu_pc :=
  | VInit                             (* creating the interpreter, loading the script *)
  | VInitErr (msg : string)           (* failed: about to lock [init_error] *)
  | VErrArrive (msg : string)         (* about to call [ready_barrier.wait()] *)
  | VErrWait (t : ticket) (msg : string)
  | VInitFailed (msg : string)        (* returned the error *)
  | VReady                            (* about to call [ready_barrier.wait()] *)
  | VWaitReady (t : ticket)
  | SLoop                             (* [StartSignal::wait]: about to load [started] *)
  | SNotified                         (* about to create the [notified()] future *)
  | SWait (k : token)                 (* awaiting it *)
  | VEnter                            (* about to read [run_started] *)
  | VRun (started : Z)                (* in the work loop *)
  | VDone (res : option string)       (* returned; [Some] is the error *)
  | VAborted.

(** One action of a VU; [res] is what the script's initialisation or its work
    loop ends with, [now] the clock. *)
Definition vu_step (res : option string) (now : Z) (sh : Shared) (pc : vu_pc) :
    option (Shared * vu_pc) :=
  match pc with
  | VInit => Some (sh, match res with None => VReady | Some msg => VInitErr msg end)
  | VInitErr msg =>
      Some (match sh_init_error sh with
            | None => set_init_error msg sh
            | Some _ => sh
            end, VErrArrive msg)
  | VErrArrive msg =>
      let '(t, b) := arrive (sh_barrier sh) in Some (set_barrier b sh, VErrWait t msg)
  | VErrWait t msg => if released (sh_barrier sh) t then Some (sh, VInitFailed msg) else None
  | VReady => let '(t, b) := arrive (sh_barrier sh) in Some (set_barrier b sh, VWaitReady t)
  | VWaitReady t => if released (sh_barrier sh) t then Some (sh, SLoop) else None
  | SLoop => Some (sh, if sh_started sh then VEnter else SNotified)
  | SNotified => Some (sh, SWait (notified (sh_notify sh)))
  | SWait k => if woken (sh_notify sh) k then Some (sh, SLoop) else None
  | VEnter => Some (sh, VRun (default now (sh_run_started sh)))
  | VRun _ => Some (sh, VDone res)
  | VInitFailed _ | VDone _ | VAborted => None
  end.

(** The awaits where an aborted task is dropped. *)
Definition awaiting (pc : vu_pc) : bool :=
  match pc with VErrWait _ _ | VWaitReady _ | SWait _ | VRun _ => true | _ => false end.

(** What joining the task gives: not ended yet, or its result; awaiting an
    aborted task gives an error of its own. *)
Definition ended (pc : vu_pc) : option (option string) :=
  match pc with
  | VInitFailed msg => Some (Some msg)
  | VDone res => Some res
  | VAborted => Some (Some "task was cancelled"%string)
  | _ => None
  end.

(** Where the runner is. *)
Inductive runner_pc :=
  | RArrive                           (* about to call [ready_barrier.wait()] *)
  | RWait (t : ticket)
  | RCheck                            (* about to lock [init_error] *)
  | RAbort (msg : string)             (* aborting the handles *)
  | RReap (msg : string) (k : nat)    (* awaiting the [k]-th aborted handle *)
  | RClock                            (* about to read the clock and set [run_started] *)
  | RGates (now : Z) (k : nat)        (* about to start the [k]-th gate *)
  | RStart                            (* [StartSignal::start]: about to store *)
  | RStartNotify                      (* about to notify *)
  | RJoin (k : nat)                   (* awaiting the [k]-th handle *)
  | RReturn (err : option string).    (* [None]: on to the summary *)

(** One action of the runner; [None] while it waits, and when starting a gate
    panics. *)
Definition runner_step (now : Z) (vus : list vu_pc) (sh : Shared) (pc : runner_pc) :
    option (Shared * runner_pc) :=
  match pc with
  | RArrive => let '(t, b) := arrive (sh_barrier sh) in Some (set_barrier b sh, RWait t)
  | RWait t => if released (sh_barrier sh) t then Some (sh, RCheck) else None
  | RCheck => Some (sh, match sh_init_error sh with Some msg => RAbort msg | None => RClock end)
  | RAbort msg => Some (set_aborted sh, RReap msg 0)
  | RReap msg k =>
      match vus !! k with
      | None => Some (sh, RReturn (Some msg))
      | Some vu => _ ← ended vu; Some (sh, RReap msg (S k))
      end
  | RClock => Some (set_run_started now sh, RGates now 0)
  | RGates now k =>
      match sh_gates sh !! k with
      | None => Some (sh, RStart)
      | Some g => g' ← Gate.start_at now g; Some (set_gates (<[k := g']> (sh_gates sh)) sh, RGates now (S k))
      end
  | RStart => Some (set_started sh, RStartNotify)
  | RStartNotify => Some (set_notify (notify_waiters (sh_notify sh)) sh, RJoin 0)
  | RJoin k =>
      match vus !! k with
      | None => Some (sh, RReturn None)
      | Some vu => res ← ended vu;
          Some (sh, match res with Some err => RReturn (Some err) | None => RJoin (S k) end)
      end
  | RReturn _ => None
  end.

(** A configuration, with a ghost: the messages of the failed initialisations
    in the order they locked [init_error]. *)
Record Config := mkConfig {
  cf_shared : Shared;
  cf_runner : runner_pc;
  cf_vus : list vu_pc;
  cf_failures : list string }.

Definition failure (pc : vu_pc) : list string :=
  match pc with VInitErr msg => [msg] | _ => [] end.

Inductive step : Config → Config → Prop :=
  | step_vu sh r vus fs i pc res now sh' pc' :
      vus !! i = Some pc → vu_step res now sh pc = Some (sh', pc') →
      step (mkConfig sh r vus fs) (mkConfig sh' r (<[i := pc']> vus) (fs ++ failure pc))
  | step_abort sh r vus fs i pc :
      vus !! i = Some pc → sh_aborted sh = true → awaiting pc = true →
      step (mkConfig sh r vus fs) (mkConfig sh r (<[i := VAborted]> vus) fs)
  | step_runner sh r vus fs now sh' r' :
      runner_step now vus sh r = Some (sh', r') →
      step (mkConfig sh r vus fs) (mkConfig sh' r' vus fs).

(** [n] VUs, and a barrier of [n + 1] parties. *)
Definition init (gates : list Gate.IterationGate) (n : nat) : Config :=
  mkConfig (mkShared None (barrier_new (u64_sat_add (Z.of_nat n) 1)) false notify_new None gates false)
    RArrive (replicate n VInit) [].

Definition reachable (gates : list Gate.IterationGate) (n : nat) : Config → Prop :=
  rtc step (init gates n).
End startup.

(** ** The invariant *)
Section invariant.
Context {N : NotifyOps} {B : BarrierOps} {L : BarrierLaws B}.
Context (gates : list Gate.IterationGate) (n : nat).

(** Every VU and the runner have arrived. *)
Definition full (sh : Shared) : Prop := Z.of_nat n + 1 ≤ arrivals (sh_barrier sh).

Definition has_arrived (pc : vu_pc) : Z :=
  match pc with VInit | VInitErr _ | VErrArrive _ | VReady => 0 | _ => 1 end.
Definition runner_arrived (r : runner_pc) : Z := match r with RArrive => 0 | _ => 1 end.

Definition vu_ok (sh : Shared) (fs : list string) (pc : vu_pc) : Prop :=
  match pc with
  | VInit | VInitErr _ | VReady => True
  | VErrArrive m => m ∈ fs
  | VErrWait t m => m ∈ fs ∧ first (sh_barrier sh) t
  | VInitFailed m => m ∈ fs ∧ full sh
  | VWaitReady t => first (sh_barrier sh) t
  | SLoop | SNotified | SWait _ => full sh
  | VEnter | VDone _ => full sh ∧ sh_started sh = true
  | VRun s => full sh ∧ sh_started sh = true ∧ sh_run_started sh = Some s
  | VAborted => full sh ∧ sh_aborted sh = true
  end.

(** Nothing has been started. *)
Definition quiet (sh : Shared) : Prop :=
  sh_started sh = false ∧ sh_aborted sh = false ∧ sh_run_started sh = None ∧ sh_gates sh = gates.

Definition gates_started (now : Z) (sh : Shared) : Prop :=
  sh_run_started sh = Some now ∧ Forall2 (λ g g', Gate.start_at now g = Some g') gates (sh_gates sh).

Definition runner_ok (sh : Shared) (vus : list vu_pc) (r : runner_pc) : Prop :=
  match r with
  | RArrive => quiet sh
  | RWait t => quiet sh ∧ first (sh_barrier sh) t
  | RCheck => quiet sh ∧ full sh
  | RClock => quiet sh ∧ full sh ∧ sh_init_error sh = None
  | RGates now k =>
      full sh ∧ sh_started sh = false ∧ sh_aborted sh = false ∧ sh_init_error sh = None ∧
      sh_run_started sh = Some now ∧
      ∃ l, Forall2 (λ g g', Gate.start_at now g = Some g') (take k gates) l ∧
        sh_gates sh = l ++ drop k gates
  | RStart =>
      full sh ∧ sh_started sh = false ∧ sh_aborted sh = false ∧ sh_init_error sh = None ∧
      ∃ now, gates_started now sh
  | RStartNotify => sh_started sh = true
  | RJoin k => sh_started sh = true ∧ ∀ j pc, (j < k)%nat → vus !! j = Some pc → pc = VDone None
  | RAbort m => full sh ∧ sh_started sh = false ∧ sh_aborted sh = false ∧ sh_init_error sh = Some m
  | RReap m _ => sh_aborted sh = true ∧ sh_init_error sh = Some m
  | RReturn None => sh_started sh = true ∧ Forall (λ pc, pc = VDone None) vus
  | RReturn (Some e) =>
      sh_started sh = true ∧ VDone (Some e) ∈ vus ∨ sh_aborted sh = true ∧ sh_init_error sh = Some e
  end.

Record inv (cf : Config) : Prop := {
  iv_len : length (cf_vus cf) = n;
  iv_parties : parties (sh_barrier (cf_shared cf)) = Z.of_nat n + 1;
  iv_count : arrivals (sh_barrier (cf_shared cf)) =
    sumf has_arrived (cf_vus cf) + runner_arrived (cf_runner cf);
  iv_error : sh_init_error (cf_shared cf) = head (cf_failures cf);
  iv_vus : Forall (vu_ok (cf_shared cf) (cf_failures cf)) (cf_vus cf);
  iv_started : sh_started (cf_shared cf) = true →
    full (cf_shared cf) ∧ sh_aborted (cf_shared cf) = false ∧
    sh_init_error (cf_shared cf) = None ∧ ∃ now, gates_started now (cf_shared cf);
  iv_aborted : sh_aborted (cf_shared cf) = true →
    full (cf_shared cf) ∧ sh_started (cf_shared cf) = false;
  iv_runner : runner_ok (cf_shared cf) (cf_vus cf) (cf_runner cf) }.

(** How the shared state moves. *)
Record evolves (sh : Shared) (fs : list string) (sh' : Shared) (fs' : list string) : Prop := {
  ev_first t : first (sh_barrier sh) t → first (sh_barrier sh') t;
  ev_arrivals : arrivals (sh_barrier sh) ≤ arrivals (sh_barrier sh');
  ev_fs m : m ∈ fs → m ∈ fs';
  ev_started : sh_started sh = true → sh_started sh' = true;
  ev_run s : sh_run_started sh = Some s → sh_run_started sh' = Some s;
  ev_aborted : sh_aborted sh = true → sh_aborted sh' = true }.

Lemma vu_ok_evolves sh fs sh' fs' pc : evolves sh fs sh' fs' → vu_ok sh fs pc → vu_ok sh' fs' pc.
Proof.
  intros [E1 E2 E3 E4 E5 E6]. assert (full sh → full sh') as E7 by (unfold full; lia).
  destruct pc; simpl; naive_solver.
Qed.

Lemma has_arrived_range pc : 0 ≤ has_arrived pc ≤ 1.
Proof. destruct pc; simpl; lia. Qed.

Lemma sumf_all {A} (f : A → Z) l :
  (∀ x, 0 ≤ f x ≤ 1) → sumf f l ≤ Z.of_nat (length l) ∧
  (Z.of_nat (length l) ≤ sumf f l → ∀ x, x ∈ l → f x = 1).
Proof.
  intros Hf. induction l as [|x l [IH1 IH2]]; [split; [done|set_solver]|].
  rewrite sumf_cons. cbn [length]. pose proof (Hf x). split; [lia|].
  intros Hle y [->|Hy]%elem_of_cons; [lia|]. apply IH2; [lia|done].
Qed.

(** Before the last arrival the runner has done nothing, and afterwards no VU
    is left in its initialisation. *)
Lemma full_arrived cf i pc :
  inv cf → full (cf_shared cf) → cf_vus cf !! i = Some pc → has_arrived pc = 1.
Proof.
  intros Hi Hf Hl. pose proof (sumf_all has_arrived (cf_vus cf) has_arrived_range) as [H1 H2].
  rewrite (iv_len _ Hi) in *. pose proof (iv_count _ Hi) as Hc. unfold full in Hf.
  apply H2; [|by eapply list_elem_of_lookup_2]. destruct (cf_runner cf); simpl in *; lia.
Qed.

Lemma not_full cf i pc :
  inv cf → cf_vus cf !! i = Some pc → has_arrived pc = 0 →
  arrivals (sh_barrier (cf_shared cf)) < Z.of_nat n + 1 ∧ quiet (cf_shared cf) ∧
  (cf_runner cf = RArrive ∨ ∃ t, cf_runner cf = RWait t).
Proof.
  intros Hi Hl Hz. assert (¬ full (cf_shared cf)) as Hf.
  { intros Hf. pose proof (full_arrived _ _ _ Hi Hf Hl). lia. }
  split; [unfold full in Hf; lia|]. pose proof (iv_runner _ Hi) as Hr.
  assert (sh_started (cf_shared cf) ≠ true) as Hs by (intros Hs; by apply Hf, (iv_started _ Hi Hs)).
  assert (sh_aborted (cf_shared cf) ≠ true) as Ha by (intros Ha; by apply Hf, (iv_aborted _ Hi Ha)).
  destruct (cf_runner cf) as [| | | | | | | | | |[|]]; simpl in Hr; try (exfalso; tauto).
  - split; [done|by left].
  - split; [apply Hr|eauto].
Qed.

(** What an action of a VU does. *)
Inductive vu_effect (sh : Shared) (pc : vu_pc) (sh' : Shared) (pc' : vu_pc) : Prop :=
  | ve_error m : pc = VInitErr m → pc' = VErrArrive m →
      sh' = (if sh_init_error sh then sh else set_init_error m sh) → vu_effect sh pc sh' pc'
  | ve_arrive t : has_arrived pc = 0 → has_arrived pc' = 1 → failure pc = [] →
      (t, sh_barrier sh') = arrive (sh_barrier sh) → sh' = set_barrier (sh_barrier sh') sh →
      (pc = VReady ∧ pc' = VWaitReady t ∨ ∃ m, pc = VErrArrive m ∧ pc' = VErrWait t m) →
      vu_effect sh pc sh' pc'
  | ve_local : sh' = sh → has_arrived pc' = has_arrived pc → failure pc = [] →
      (∀ fs, parties (sh_barrier sh) = Z.of_nat n + 1 →
         (sh_started sh = true → ∃ s, sh_run_started sh = Some s) →
         vu_ok sh fs pc → vu_ok sh fs pc') → vu_effect sh pc sh' pc'.

Lemma released_full sh t :
  parties (sh_barrier sh) = Z.of_nat n + 1 → first (sh_barrier sh) t →
  released (sh_barrier sh) t = true → full sh.
Proof. intros Hp Hf Hr. apply (released_first _ _ Hf) in Hr. unfold full. lia. Qed.

Lemma vu_step_effect res now sh pc sh' pc' :
  vu_step res now sh pc = Some (sh', pc') → vu_effect sh pc sh' pc'.
Proof.
  intros Hs. destruct pc as [|m|m|t m|m| |t| | |k| |s|r|]; simpl in Hs; simplify_eq.
  - apply ve_local; [done|by destruct res|done|]. by destruct res.
  - eapply ve_error; [done|done|]. by destruct (sh_init_error sh).
  - destruct (arrive _) as [t b] eqn:E; simplify_eq. by eapply (ve_arrive _ _ _ _ t); eauto.
  - destruct (released _ _) eqn:Hr; simplify_eq. apply ve_local; try done.
    intros fs Hp _ [Hm Hf]. split; [done|]. by eapply released_full.
  - destruct (arrive _) as [t b] eqn:E; simplify_eq. by eapply (ve_arrive _ _ _ _ t); eauto.
  - destruct (released _ _) eqn:Hr; simplify_eq. apply ve_local; try done.
    intros fs Hp _ Hf. by eapply released_full.
  - apply ve_local; try done; [by destruct (sh_started _)|].
    intros fs _ _ Hf. destruct (sh_started sh') eqn:E; simpl; [done|exact Hf].
  - by apply ve_local.
  - destruct (woken _ _); simplify_eq. by apply ve_local.
  - apply ve_local; try done. intros fs _ Hrun [Hf Hst]. destruct (Hrun Hst) as [s Hs].
    simpl. by rewrite Hs.
  - apply ve_local; try done. intros fs _ _ (? & ? & ?). done.
Qed.

(** The runner's condition survives the actions of the VUs. *)
Lemma runner_ok_vu sh vus r i pc pc' :
  runner_ok sh vus r → vus !! i = Some pc → ended pc = None → runner_ok sh (<[i := pc']> vus) r.
Proof.
  intros Hr Hi He. destruct r as [| | | | | | | | |k|[e|]]; simpl in *; try done.
  - destruct Hr as [? Hr]. split; [done|]. intros j pc0 Hj Hl.
    destruct (decide (i = j)) as [->|Hne].
    + rewrite (Hr j pc Hj Hi) in He. done.
    + rewrite list_lookup_insert_ne in Hl by done. by eapply Hr.
  - destruct Hr as [[? Hin]|?]; [left|by right]. split; [done|].
    apply list_elem_of_lookup_1 in Hin as [j Hj]. apply list_elem_of_lookup_2 with j.
    rewrite list_lookup_insert_ne; [done|]. intros ->. by simplify_eq/=.
  - destruct Hr as [_ Hr]. rewrite (Forall_lookup_1 _ _ _ _ Hr Hi) in He. done.
Qed.

Lemma ended_step res now sh pc sh' pc' : vu_step res now sh pc = Some (sh', pc') → ended pc = None.
Proof. by destruct pc. Qed.

Lemma count_insert vus i pc pc' :
  vus !! i = Some pc →
  sumf has_arrived (<[i := pc']> vus) = sumf has_arrived vus - has_arrived pc + has_arrived pc'.
Proof. apply sumf_insert. Qed.

(** The VUs after one of them has moved. *)
Lemma vus_ok_insert sh fs sh' fs' vus i pc' :
  evolves sh fs sh' fs' → Forall (vu_ok sh fs) vus → vu_ok sh' fs' pc' →
  Forall (vu_ok sh' fs') (<[i := pc']> vus).
Proof.
  intros He Hv Hp. apply Forall_insert; [|done]. eapply Forall_impl; [exact Hv|].
  intros pc. by apply vu_ok_evolves.
Qed.

(** A VU moves while the runner is still at the barrier. *)
Lemma inv_quiet_vu sh r vus fs i pc sh' pc' :
  inv (mkConfig sh r vus fs) → vus !! i = Some pc → has_arrived pc = 0 →
  evolves sh fs sh' (fs ++ failure pc) → vu_ok sh' (fs ++ failure pc) pc' →
  parties (sh_barrier sh') = parties (sh_barrier sh) →
  arrivals (sh_barrier sh') = arrivals (sh_barrier sh) + has_arrived pc' →
  quiet sh' → sh_init_error sh' = head (fs ++ failure pc) →
  inv (mkConfig sh' r (<[i := pc']> vus) (fs ++ failure pc)).
Proof.
  intros Hi Hl Hz Hev Hok Hp Ha Hq He.
  destruct (not_full _ _ _ Hi Hl Hz) as (Hlt & _ & Hr). destruct Hi as [I1 I2 I3 I4 I5 I6 I7 I8]. simpl in *.
  constructor; simpl.
  - by rewrite length_insert.
  - by rewrite Hp.
  - rewrite (count_insert _ _ _ _ Hl), Ha. lia.
  - done.
  - by eapply vus_ok_insert.
  - destruct Hq as (-> & _). done.
  - destruct Hq as (_ & -> & _). done.
  - destruct Hr as [->|[t ->]]; simpl in *; [done|]. split; [done|].
    apply (ev_first _ _ _ _ Hev), I8.
Qed.

Lemma inv_vu sh r vus fs i pc res now sh' pc' :
  inv (mkConfig sh r vus fs) → vus !! i = Some pc → vu_step res now sh pc = Some (sh', pc') →
  inv (mkConfig sh' r (<[i := pc']> vus) (fs ++ failure pc)).
Proof.
  intros Hi Hl Hs. pose proof (ended_step _ _ _ _ _ _ Hs) as Hend.
  destruct (vu_step_effect _ _ _ _ _ _ Hs) as [m -> -> ->|t Hz H1 Hf Ha Hb Hpc| -> Hsame Hf Hok].
  - destruct (not_full _ _ _ Hi Hl eq_refl) as (_ & Hq & _). simpl in Hq.
    pose proof (iv_error _ Hi) as He. simpl in He.
    set (sh' := if sh_init_error sh then sh else set_init_error m sh).
    assert (sh_barrier sh' = sh_barrier sh ∧ quiet sh' ∧ sh_started sh' = sh_started sh ∧
      sh_run_started sh' = sh_run_started sh ∧ sh_aborted sh' = sh_aborted sh ∧
      sh_init_error sh' = head (fs ++ [m])) as (E1 & E2 & E3 & E4 & E5 & E6).
    { unfold sh'. destruct (sh_init_error sh) eqn:E; simpl; split_and!; try done;
        rewrite ?E; destruct fs; simpl in *; congruence. }
    clearbody sh'. apply (inv_quiet_vu sh r vus fs i (VInitErr m)); simpl; rewrite ?E1; try done; [|set_solver|lia].
    constructor; rewrite ?E1, ?E3, ?E4, ?E5; try done. set_solver.
  - destruct (not_full _ _ _ Hi Hl Hz) as (Hlt & Hq & _). simpl in Hlt, Hq.
    pose proof (arrivals_arrive (sh_barrier sh)) as Harr. pose proof (parties_arrive (sh_barrier sh)) as Hpar.
    pose proof (λ t, first_mono (sh_barrier sh) t) as Hmono.
    pose proof (first_arrive (sh_barrier sh)) as Hfirst. rewrite <- Ha in *. simpl in *.
    pose proof (iv_parties _ Hi) as Hp. simpl in Hp. specialize (Hfirst ltac:(lia)).
    pose proof (iv_error _ Hi) as He. simpl in He.
    assert (evolves sh fs sh' (fs ++ failure pc)) as Hev.
    { rewrite Hf, app_nil_r, Hb. constructor; simpl; try done. lia. }
    apply (inv_quiet_vu sh r vus fs i pc); rewrite ?Hf, ?app_nil_r in *; try done; [|lia|by rewrite Hb..].
    pose proof (Forall_lookup_1 _ _ _ _ (iv_vus _ Hi) Hl) as Hvu. simpl in Hvu.
    destruct Hpc as [[-> ->]|(m & -> & ->)]; simpl in *; [done|]. split; [set_solver|done].
  - rewrite Hf, app_nil_r. pose proof (Forall_lookup_1 _ _ _ _ (iv_vus _ Hi) Hl) as Hvu.
    destruct Hi as [I1 I2 I3 I4 I5 I6 I7 I8]. simpl in *.
    constructor; simpl; try done.
    + by rewrite length_insert.
    + rewrite (count_insert _ _ _ _ Hl). lia.
    + apply Forall_insert; [done|]. apply (Hok fs); try done.
      intros Hst. destruct (I6 Hst) as (_ & _ & _ & s & Hs' & _). by exists s.
    + by eapply runner_ok_vu.
Qed.

Lemma inv_abort sh r vus fs i pc :
  inv (mkConfig sh r vus fs) → vus !! i = Some pc → sh_aborted sh = true → awaiting pc = true →
  inv (mkConfig sh r (<[i := VAborted]> vus) fs).
Proof.
  intros Hi Hl Ha Hw. destruct (iv_aborted _ Hi Ha) as [Hfull _].
  pose proof (full_arrived _ _ _ Hi Hfull Hl) as H1. destruct Hi as [I1 I2 I3 I4 I5 I6 I7 I8]. simpl in *.
  constructor; simpl; try done.
  - by rewrite length_insert.
  - rewrite (count_insert _ _ _ _ Hl). simpl. lia.
  - by apply Forall_insert.
  - eapply runner_ok_vu; [done|done|]. by destruct pc.
Qed.

(** The runner acts after the barrier. *)
Lemma inv_runner_frame sh r vus fs sh' r' :
  inv (mkConfig sh r vus fs) → runner_arrived r = 1 → runner_arrived r' = 1 →
  evolves sh fs sh' fs → sh_barrier sh' = sh_barrier sh → sh_init_error sh' = sh_init_error sh →
  (sh_started sh' = true → full sh' ∧ sh_aborted sh' = false ∧ sh_init_error sh' = None ∧
     ∃ now, gates_started now sh') →
  (sh_aborted sh' = true → full sh' ∧ sh_started sh' = false) →
  runner_ok sh' vus r' → inv (mkConfig sh' r' vus fs).
Proof.
  intros [I1 I2 I3 I4 I5 I6 I7 I8] Hr Hr' Hev Hb He Hs Ha Hok. simpl in *.
  constructor; simpl; rewrite ?Hb; try done; [lia|congruence|].
  eapply Forall_impl; [exact I5|]. intros pc. by apply vu_ok_evolves.
Qed.

(** Nothing changes but where the runner is. *)
Lemma inv_runner_same sh r vus fs r' :
  inv (mkConfig sh r vus fs) → runner_arrived r = 1 → runner_arrived r' = 1 →
  runner_ok sh vus r' → inv (mkConfig sh r' vus fs).
Proof.
  intros Hi Hr Hr' Hok. pose proof (iv_started _ Hi). pose proof (iv_aborted _ Hi).
  by eapply inv_runner_frame.
Qed.

Lemma Forall_lookup_lt (P : vu_pc → Prop) vus k :
  vus !! k = None → (∀ j pc, (j < k)%nat → vus !! j = Some pc → P pc) → Forall P vus.
Proof.
  intros Hk Hp. apply Forall_lookup. intros j pc Hj. apply (Hp j); [|done].
  apply lookup_ge_None in Hk. apply lookup_lt_Some in Hj. lia.
Qed.

(** A handle the runner awaits after the start. *)
Lemma joined sh vus r fs k pc res :
  inv (mkConfig sh r vus fs) → sh_started sh = true → vus !! k = Some pc → ended pc = Some res →
  pc = VDone res.
Proof.
  intros Hi Hs Hl He. destruct (iv_started _ Hi Hs) as (_ & Ha & Hn & _).
  pose proof (Forall_lookup_1 _ _ _ _ (iv_vus _ Hi) Hl) as Hv. pose proof (iv_error _ Hi) as Herr.
  simpl in *. destruct pc; simplify_eq/=; [|done|destruct Hv; congruence].
  destruct Hv as [Hv _]. rewrite Hn in Herr. destruct fs; [set_solver|done].
Qed.

Lemma inv_runner now sh r vus fs sh' r' :
  inv (mkConfig sh r vus fs) → runner_step now vus sh r = Some (sh', r') →
  inv (mkConfig sh' r' vus fs).
Proof.
  intros Hi Hs. pose proof (iv_runner _ Hi) as Hr. pose proof (iv_error _ Hi) as He.
  pose proof (iv_started _ Hi) as Hst. pose proof (iv_aborted _ Hi) as Hab. simpl in Hr, He, Hst, Hab.
  destruct r as [|t| |m|m k| |t k| | |k|e]; simpl in Hs, Hr.
  - destruct (arrive (sh_barrier sh)) as [t b] eqn:Ea. simplify_eq.
    pose proof (arrivals_arrive (sh_barrier sh)) as Harr. pose proof (parties_arrive (sh_barrier sh)) as Hpar.
    pose proof (λ t, first_mono (sh_barrier sh) t) as Hmono.
    pose proof (first_arrive (sh_barrier sh)) as Hfirst. rewrite Ea in *. simpl in *.
    destruct Hi as [I1 I2 I3 I4 I5 _ _ _]. simpl in *. destruct Hr as (Q1 & Q2 & Q3 & Q4).
    constructor; simpl; try done; try congruence; [lia| |].
    + eapply Forall_impl; [exact I5|]. intros pc. apply vu_ok_evolves. constructor; simpl; try done. lia.
    + split; [done|]. apply Hfirst.
      destruct (sumf_all has_arrived vus has_arrived_range). lia.
  - destruct (released _ _) eqn:Hrel; simplify_eq. destruct Hr as [Hq Hf].
    eapply inv_runner_same; try done. split; [done|].
    eapply released_full; [apply (iv_parties _ Hi)|done|done].
  - simplify_eq. destruct Hr as [(Q1 & Q2 & Q3) Hf].
    destruct (sh_init_error sh') as [m|] eqn:E; by eapply inv_runner_same.
  - simplify_eq. destruct Hr as (Hf & Hs & Ha & Hm).
    eapply inv_runner_frame; try done. simpl. congruence.
  - destruct Hr as [Ha Hm]. destruct (vus !! k) as [pc|] eqn:Hk.
    + destruct (ended pc); simplify_eq/=. by eapply inv_runner_same.
    + simplify_eq. eapply inv_runner_same; try done. simpl. by right.
  - simplify_eq. destruct Hr as ((Q1 & Q2 & Q3 & Q4) & Hf & Hn).
    eapply inv_runner_frame; try done; simpl; rewrite ?Q3; try congruence.
    { constructor; simpl; try done. by rewrite Q3. }
    split_and!; try done. exists []. by rewrite Q4.
  - destruct Hr as (Hf & Hs1 & Ha & Hn & Hrun & l & Hl & Hg). rewrite Hg in Hs.
    pose proof (Forall2_length _ _ _ Hl) as Hlen. rewrite length_take in Hlen.
    destruct (decide (k < length gates)%nat) as [Hk|Hk].
    + destruct (lookup_lt_is_Some_2 gates k Hk) as [g Hgk].
      rewrite (drop_S gates g k Hgk) in Hs, Hg. assert (length l = k) as Hk' by lia.
      rewrite list_lookup_middle in Hs by done.
      destruct (Gate.start_at t g) as [g'|] eqn:Hstart; simplify_eq/=.
      eapply inv_runner_frame; try done; simpl; try congruence.
      split_and!; try done. exists (l ++ [g']). split.
      * rewrite (take_S_r _ _ _ Hgk). apply Forall2_app; [done|]. by constructor.
      * rewrite list_insert_middle || rewrite insert_app_r_alt by lia.
        rewrite ?Nat.sub_diag. simpl. by rewrite <- app_assoc.
    + rewrite drop_ge, app_nil_r in Hs, Hg by lia. rewrite lookup_ge_None_2 in Hs by lia. simplify_eq.
      rewrite take_ge in Hl by lia. eapply inv_runner_same; try done.
      split_and!; try done. by exists t.
  - simplify_eq. destruct Hr as (Hf & Hs1 & Ha & Hn & t & Hg).
    eapply inv_runner_frame; try done; simpl; [|congruence]. intros _. split_and!; try done. by exists t.
  - simplify_eq. destruct (Hst Hr) as (Hf & Ha & Hn & t & Hg).
    eapply inv_runner_frame; try done; simpl.
    split; [done|]. intros j pc Hj. lia.
  - destruct Hr as [Hs1 Hall]. destruct (vus !! k) as [pc|] eqn:Hk.
    + destruct (ended pc) as [res|] eqn:Hend; simplify_eq/=.
      pose proof (joined _ _ _ _ _ _ _ Hi Hs1 Hk Hend) as ->.
      eapply inv_runner_same; try done; [by destruct res|]. destruct res as [e|]; simpl.
      * left. split; [done|]. by eapply list_elem_of_lookup_2.
      * split; [done|]. intros j pc Hj Hl. destruct (decide (j = k)) as [->|]; [by simplify_eq|].
        apply (Hall j); [lia|done].
    + simplify_eq. eapply inv_runner_same; try done. simpl. split; [done|]. by eapply Forall_lookup_lt.
  - done.
Qed.

Lemma startup_init : Z.of_nat n + 1 ≤ u64_max → inv (init gates n).
Proof.
  intros Hn. unfold init. replace (u64_sat_add (Z.of_nat n) 1) with (Z.of_nat n + 1) by ints_lia.
  constructor; simpl; try done.
  - apply length_replicate.
  - apply parties_new. lia.
  - rewrite arrivals_new by lia. clear. induction n as [|k IH]; [done|].
    cbn [replicate]. rewrite sumf_cons. cbn [has_arrived]. lia.
  - by apply Forall_replicate.
Qed.

Lemma startup_reachable cf : Z.of_nat n + 1 ≤ u64_max → reachable gates n cf → inv cf.
Proof.
  intros Hn Hr. unfold reachable in Hr. remember (init gates n) as c0 eqn:E.
  assert (inv c0) as H0 by (subst; by apply startup_init). clear E.
  induction Hr as [|c1 c2 c3 Hst _ IH]; [done|]. apply IH.
  destruct Hst; [by eapply inv_vu|by eapply inv_abort|by eapply inv_runner].
Qed.

(** A failed initialisation keeps the run from starting. *)
Lemma failed_not_started cf : inv cf → cf_failures cf ≠ [] → sh_started (cf_shared cf) = false.
Proof.
  intros Hi Hf. destruct (sh_started _) eqn:Hs; [|done].
  destruct (iv_started _ Hi Hs) as (_ & _ & Hn & _). rewrite (iv_error _ Hi) in Hn.
  by destruct (cf_failures cf).
Qed.

Lemma not_full_arriving cf :
  inv cf → ¬ full (cf_shared cf) → runner_arrived (cf_runner cf) = 1 →
  ∃ i pc, cf_vus cf !! i = Some pc ∧ has_arrived pc = 0.
Proof.
  intros Hi Hf Hr. assert (¬ (∀ x, x ∈ cf_vus cf → has_arrived x = 1)) as Hn.
  { intros Hall. apply Hf. unfold full. rewrite (iv_count _ Hi), Hr, <- (iv_len _ Hi).
    assert (∀ l, (∀ x, x ∈ l → has_arrived x = 1) → sumf has_arrived l = Z.of_nat (length l)) as Hl.
    { clear. intros l. induction l as [|x l IH]; intros Hl; [done|].
      rewrite sumf_cons, (Hl x), IH by set_solver. cbn [length]. lia. }
    rewrite Hl by done. lia. }
  assert (¬ Forall (λ x, has_arrived x = 1) (cf_vus cf)) as Hn' by (by rewrite Forall_forall).
  apply not_Forall_Exists in Hn'; [|intros x; apply _].
  apply Exists_exists in Hn' as (x & Hx & H1). apply list_elem_of_lookup_1 in Hx as [i Hi'].
  exists i, x. split; [done|]. pose proof (has_arrived_range x). simpl in H1. lia.
Qed.

(** A VU that can move on its own. *)
Definition can_move (sh : Shared) (pc : vu_pc) : Prop :=
  match ended pc, pc with
  | Some _, _ => False
  | None, VErrWait t _ | None, VWaitReady t => released (sh_barrier sh) t = true
  | None, SWait k => woken (sh_notify sh) k = true
  | None, _ => True
  end.

Lemma can_move_step sh r vus fs i pc :
  vus !! i = Some pc → can_move sh pc → ∃ cf', step (mkConfig sh r vus fs) cf'.
Proof.
  intros Hl Hm. assert (∃ sh' pc', vu_step None 0 sh pc = Some (sh', pc')) as (sh' & pc' & Hs).
  { destruct pc; simpl in *; try done; rewrite ?Hm; eauto; destruct (arrive _); eauto. }
  eexists. by eapply step_vu.
Qed.

Lemma full_can_move sh fs pc :
  parties (sh_barrier sh) = Z.of_nat n + 1 → full sh → vu_ok sh fs pc → ended pc = None →
  can_move sh pc ∨ ∃ k, pc = SWait k.
Proof.
  intros Hp Hf Hv He. unfold full in Hf.
  destruct pc; simpl in *; try done; eauto; left; unfold can_move; simpl; try done;
    apply released_first; try lia; try done; apply Hv.
Qed.

End invariant.

(** ** Properties *)

(** C10. No VU starts working before every VU has been initialised: when one is
    in its work loop, each of them has loaded the script and passed the
    barrier, none has failed, the gates have their deadlines, and all measure
    the run from the same instant. *)
Theorem startup_synchronised {N : NotifyOps} {B : BarrierOps} (L : BarrierLaws B) gates n cf i s :
  Z.of_nat n + 1 ≤ u64_max → reachable gates n cf → cf_vus cf !! i = Some (VRun s) →
  cf_failures cf = [] ∧
  Forall2 (λ g g', Gate.start_at s g = Some g') gates (sh_gates (cf_shared cf)) ∧
  ∀ j pc, cf_vus cf !! j = Some pc →
    match pc with
    | VWaitReady _ | SLoop | SNotified | SWait _ | VEnter | VDone _ => True
    | VRun s' => s' = s
    | _ => False
    end.
Proof.
  intros Hn Hr Hl. pose proof (startup_reachable gates n cf Hn Hr) as Hi.
  destruct (Forall_lookup_1 _ _ _ _ (iv_vus _ _ _ Hi) Hl) as (Hf & Hs & Hrun).
  destruct (iv_started _ _ _ Hi Hs) as (_ & Ha & He & s' & Hrun' & Hg). rewrite (iv_error _ _ _ Hi) in He.
  assert (cf_failures cf = []) as Hfs by (by destruct (cf_failures cf)).
  assert (s' = s) as -> by congruence. split_and!; [done|done|]. intros j pc Hj.
  pose proof (full_arrived gates n _ _ _ Hi Hf Hj) as H1.
  pose proof (Forall_lookup_1 _ _ _ _ (iv_vus _ _ _ Hi) Hj) as Hv. rewrite Hfs in Hv.
  destruct pc; simpl in *; try done.
  - destruct Hv as [Hv _]. set_solver.
  - destruct Hv as [Hv _]. set_solver.
  - destruct Hv as (_ & _ & Hv). congruence.
  - destruct Hv as [_ Hv]. congruence.
Qed.

(** C11. A failed initialisation stops the run: the start signal is never given
    and no VU works.  The runner's result is the first failure that was
    recorded; without failures it is the error of a VU's own work, and it is a
    success only when every VU returned one. *)
Theorem run_outcome {N : NotifyOps} {B : BarrierOps} (L : BarrierLaws B) gates n cf :
  Z.of_nat n + 1 ≤ u64_max → reachable gates n cf →
  (cf_failures cf ≠ [] → sh_started (cf_shared cf) = false ∧
     ∀ i pc, cf_vus cf !! i = Some pc →
       match pc with VEnter | VRun _ | VDone _ => False | _ => True end) ∧
  ∀ res, cf_runner cf = RReturn res →
    match res, cf_failures cf with
    | None, fs => fs = [] ∧ Forall (λ pc, pc = VDone None) (cf_vus cf)
    | Some err, [] => VDone (Some err) ∈ cf_vus cf
    | Some err, m :: _ => err = m
    end.
Proof.
  intros Hn Hr. pose proof (startup_reachable gates n cf Hn Hr) as Hi. split.
  - intros Hf. pose proof (failed_not_started gates n cf Hi Hf) as Hs. split; [done|].
    intros i pc Hl. pose proof (Forall_lookup_1 _ _ _ _ (iv_vus _ _ _ Hi) Hl) as Hv.
    destruct pc; simpl in Hv; try done; destruct Hv; naive_solver congruence.
  - intros res Hres. pose proof (iv_runner _ _ _ Hi) as Hrun. rewrite Hres in Hrun.
    pose proof (failed_not_started gates n cf Hi) as Hns. pose proof (iv_error _ _ _ Hi) as He.
    pose proof (iv_aborted _ _ _ Hi) as Ha.
    destruct res as [e|], (cf_failures cf) as [|m fs]; simpl in Hrun, He.
    + destruct Hrun as [[_ ?]|[_ ?]]; [done|congruence].
    + specialize (Hns ltac:(done)). destruct Hrun as [[? _]|[_ ?]]; congruence.
    + by destruct Hrun.
    + specialize (Hns ltac:(done)). destruct Hrun; congruence.
Qed.

(** C16. Starting never gets stuck but for one reason: when no action is left,
    the runner has returned, or a gate's deadline is beyond the clock's range
    and its computation panicked, or the run was started while a VU was on its
    way to wait for the start signal, whose wake-up it missed. *)
Theorem deadlock_only_lost_wakeup {N : NotifyOps} {B : BarrierOps} (L : BarrierLaws B) gates n cf :
  Z.of_nat n + 1 ≤ u64_max → reachable gates n cf → (∀ cf', ¬ step cf cf') →
  (∃ res, cf_runner cf = RReturn res) ∨
  (∃ now k g, cf_runner cf = RGates now k ∧ sh_gates (cf_shared cf) !! k = Some g ∧
     Gate.start_at now g = None) ∨
  (∃ i k, sh_started (cf_shared cf) = true ∧ cf_vus cf !! i = Some (SWait k) ∧
     woken (sh_notify (cf_shared cf)) k = false).
Proof.
  intros Hn Hr Hstuck. pose proof (startup_reachable gates n cf Hn Hr) as Hi.
  pose proof (iv_runner _ _ _ Hi) as Hrun. pose proof (iv_parties _ _ _ Hi) as Hp.
  pose proof (iv_vus _ _ _ Hi) as Hvus.
  assert (∀ i pc, cf_vus cf !! i = Some pc → ¬ can_move (cf_shared cf) pc) as Hvu.
  { intros i pc Hl Hm. destruct cf. destruct (can_move_step _ cf_runner0 _ cf_failures0 _ _ Hl Hm) as [cf' ?].
    by apply (Hstuck cf'). }
  assert (∀ now, runner_step now (cf_vus cf) (cf_shared cf) (cf_runner cf) = None) as Hrs.
  { intros now. destruct (runner_step _ _ _ _) as [[sh' r']|] eqn:E; [|done].
    destruct cf. exfalso. by eapply Hstuck, step_runner. }
  assert (∀ k pc, full n (cf_shared cf) → cf_vus cf !! k = Some pc → ended pc = None →
    ∃ t, pc = SWait t) as Hwait.
  { intros k pc Hf Hl He. pose proof (Forall_lookup_1 _ _ _ _ Hvus Hl) as Hv.
    destruct (full_can_move n _ _ _ Hp Hf Hv He) as [Hm|?]; [|done]. by destruct (Hvu k pc Hl). }
  destruct (cf_runner cf) as [|t| |m|m k| |now k| | |k|res] eqn:Er; simpl in Hrs, Hrun;
    try (specialize (Hrs 0); done).
  - specialize (Hrs 0). by destruct (arrive _).
  - destruct Hrun as [_ Hf]. specialize (Hrs 0). destruct (released _ _) eqn:Hrel; [done|].
    destruct (not_full_arriving gates n cf Hi) as (i & pc & Hl & Hz); [| by rewrite Er|].
    { unfold full. intros Hfull. enough (released (sh_barrier (cf_shared cf)) t = true) by congruence.
      apply (released_first _ _ Hf). lia. }
    exfalso. apply (Hvu i pc Hl). by destruct pc.
  - specialize (Hrs 0). destruct Hrun as [Ha _]. destruct (iv_aborted _ _ _ Hi Ha) as [Hf _].
    destruct (_ !! k) as [pc|] eqn:Hl; [|done]. destruct (ended pc) eqn:He; [done|].
    destruct (Hwait k pc Hf Hl He) as [t ->]. destruct cf. exfalso. by eapply Hstuck, step_abort.
  - specialize (Hrs 0). right; left. destruct (_ !! k) as [g|] eqn:Hg; [|done].
    exists now, k, g. split_and!; [done..|]. by destruct (Gate.start_at now g).
  - specialize (Hrs 0). destruct Hrun as [Hs _]. destruct (iv_started _ _ _ Hi Hs) as [Hf _].
    destruct (_ !! k) as [pc|] eqn:Hl; [|done]. destruct (ended pc) as [r|] eqn:He; [by destruct r|].
    destruct (Hwait k pc Hf Hl He) as [t ->]. right; right. exists k, t. split_and!; [done..|].
    specialize (Hvu k _ Hl). by apply not_true_is_false.
  - eauto.
Qed.

(** ** Running a schedule *)
Section schedule.
Context {N : NotifyOps} {B : BarrierOps}.

(** Whose turn it is, and what the environment gives it. *)
Inductive action :=
  | AVu (i : nat) (res : option string)
  | AAbort (i : nat)
  | ARunner (now : Z).

Definition act (cf : Config) (a : action) : option Config :=
  let 'mkConfig sh r vus fs := cf in
  match a with
  | AVu i res =>
      pc ← vus !! i; '(sh', pc') ← vu_step res 0 sh pc;
      Some (mkConfig sh' r (<[i := pc']> vus) (fs ++ failure pc))
  | AAbort i =>
      pc ← vus !! i;
      if sh_aborted sh && awaiting pc then Some (mkConfig sh r (<[i := VAborted]> vus) fs) else None
  | ARunner now => '(sh', r') ← runner_step now vus sh r; Some (mkConfig sh' r' vus fs)
  end.

Fixpoint acts (l : list action) (cf : Config) : option Config :=
  match l with [] => Some cf | a :: l => cf ← act cf a; acts l cf end.

Lemma action_step cf a cf' : act cf a = Some cf' → step cf cf'.
Proof.
  destruct cf as [sh r vus fs], a as [i res|i|now]; simpl; intros H.
  - destruct (vus !! i) as [pc|] eqn:Hl; [|done]. simpl in H.
    destruct (vu_step _ _ _ _) as [[sh' pc']|] eqn:Hs; simplify_eq/=. by eapply step_vu.
  - destruct (vus !! i) as [pc|] eqn:Hl; [|done]. simpl in H.
    destruct (sh_aborted sh) eqn:Ha, (awaiting pc) eqn:Hw; simplify_eq/=. by eapply step_abort.
  - destruct (runner_step _ _ _ _) as [[sh' r']|] eqn:Hs; simplify_eq/=. by eapply step_runner.
Qed.

Lemma actions_reachable l cf cf' : acts l cf = Some cf' → rtc step cf cf'.
Proof.
  revert cf. induction l as [|a l IH]; intros cf H; simplify_eq/=; [done|].
  destruct (act cf a) as [cf1|] eqn:Ha; [|done]. eapply rtc_l; [by eapply action_step|]. by apply IH.
Qed.
End schedule.

(** The start signal can be missed: a VU that reads the flag just before it
    is set, and creates its [notified()] future only after the notification,
    waits for ever, and with it the runner that awaits it. *)
Theorem start_signal_lost_wakeup {N : NotifyOps} (L : NotifyLaws N) :
  ∃ cf k, reachable [] 1 cf ∧ sh_started (cf_shared cf) = true ∧ cf_runner cf = RJoin 0 ∧
    cf_vus cf = [SWait k] ∧ ∀ cf', ¬ step cf cf'.
Proof.
  set (cf := mkConfig (@mkShared N counting_barrier None (2, 2%nat) true (notify_waiters notify_new) (Some 0) [] false)
    (RJoin 0) [SWait (notified (notify_waiters notify_new))] []).
  exists cf, (notified (notify_waiters notify_new)). split_and!; try done.
  - apply (actions_reachable [AVu 0 None; AVu 0 None; ARunner 0; AVu 0 None; AVu 0 None; ARunner 0;
      ARunner 0; ARunner 0; ARunner 0; ARunner 0; ARunner 0; AVu 0 None]). reflexivity.
  - intros cf' Hst. inversion Hst as [? ? ? ? i pc res now ? ? Hl Hs|? ? ? ? i pc Hl Ha|]; simplify_eq.
    destruct i as [|i]; simplify_eq/=. by rewrite woken_notified in Hs.
Qed.

(** ** Witnesses *)
Definition demo_gate : Gate.IterationGate := Gate.new None (Some (Duration.from_secs 10)).

(** Two VUs that work; and two of which one's script does not load. *)
Definition demo_run : list action :=
  [AVu 0 None; AVu 0 None; AVu 1 None; AVu 1 None; ARunner 7; AVu 0 None; ARunner 7; ARunner 7;
   ARunner 7; ARunner 7; ARunner 7; ARunner 7; ARunner 7; AVu 0 None; AVu 0 None; AVu 1 None].
Definition demo_fail : list action :=
  [AVu 0 None; AVu 1 (Some "no Default"%string); AVu 1 None; AVu 0 None; AVu 1 None; ARunner 7;
   ARunner 7; ARunner 7; ARunner 7; AVu 0 None; AVu 0 None; AVu 0 None; AAbort 0; ARunner 7;
   AVu 1 None; ARunner 7; ARunner 7].
Definition demo_end (l : list action) : Config :=
  default (init [demo_gate] 2) (acts l (init [demo_gate] 2)).

Lemma demo_reachable l : is_Some (acts l (init [demo_gate] 2)) → reachable [demo_gate] 2 (demo_end l).
Proof. intros [cf Hcf]. unfold demo_end. rewrite Hcf. by eapply actions_reachable. Qed.

Lemma startup_synchronised_witness :
  cf_vus (demo_end demo_run) !! 0%nat = Some (VRun 7) ∧ cf_failures (demo_end demo_run) = [].
Proof.
  split; [reflexivity|].
  apply (startup_synchronised counting_barrier_laws [demo_gate] 2 (demo_end demo_run) 0 7);
    [closed_ineq|apply demo_reachable; by eexists|reflexivity].
Defined.

Lemma run_outcome_witness :
  cf_runner (demo_end demo_fail) = RReturn (Some "no Default"%string) ∧
  sh_started (cf_shared (demo_end demo_fail)) = false.
Proof.
  split; [reflexivity|].
  apply (run_outcome counting_barrier_laws [demo_gate] 2 (demo_end demo_fail));
    [closed_ineq|apply demo_reachable; by eexists|done].
Defined.

Lemma deadlock_only_lost_wakeup_witness :
  (∀ cf', ¬ step (demo_end demo_fail) cf') ∧ ∃ res, cf_runner (demo_end demo_fail) = RReturn res.
Proof.
  assert (∀ cf', ¬ step (demo_end demo_fail) cf') as Hstuck.
  { intros cf' Hst. change (demo_end demo_fail) with (mkConfig (cf_shared (demo_end demo_fail))
      (cf_runner (demo_end demo_fail)) (cf_vus (demo_end demo_fail)) (cf_failures (demo_end demo_fail))) in Hst.
    inversion Hst as [? ? ? ? i pc res now ? ? Hl Hs|? ? ? ? i pc Hl Ha Hw|? ? ? ? ? ? ? Hs]; subst;
      [destruct i as [|[|i]]; [..|done]; injection Hl as <-; done..|done]. }
  split; [exact Hstuck|].
  destruct (deadlock_only_lost_wakeup counting_barrier_laws [demo_gate] 2 (demo_end demo_fail))
    as [H|[(now & k & g & [=] & _)|(i & k & [=] & _)]];
    [closed_ineq|apply demo_reachable; by eexists|exact Hstuck|exact H].
Defined.

Lemma start_signal_lost_wakeup_witness :
  ∃ (cf : Config) k, reachable [] 1 cf ∧ sh_started (cf_shared cf) = true ∧ cf_runner cf = RJoin 0 ∧
    cf_vus cf = [SWait k] ∧ ∀ cf', ¬ step cf cf'.
Proof. apply (start_signal_lost_wakeup counting_notify_laws). Defined.
