(* ===== verification/Active.v ===== *)
(** * Active VUs and their peak (wrkr-core/src/vu.rs, [enter_active_vu] and
    [ActiveVuGuard])

    Two gauges of a scenario, [vu_active] and [vu_active_max], updated by all
    its VUs: the counter by [fetch_add] and [fetch_sub], the peak by a loop of
    weak compare-exchanges.  The handles are taken as resolved: what
    [Registry::get_handle] does when two VUs create a gauge together is in
    Registry.v. *)
From S2P Require Import Prelude Coll.

Record Gauges := mkGauges { active : Z; peak : Z }.

Inductive pc :=
  | EOut                     (* not entered, or the guard has been dropped *)
  | ELoad (new : Z)          (* counted in: about to load the peak *)
  | ECas (new cur : Z)       (* [new > cur]: about to exchange *)
  | EIn.                     (* holding the guard *)

(** [while new_active > cur]. *)
Definition check (new cur : Z) : pc := if cur <? new then ECas new cur else EIn.

(** One action of a VU: entering, updating the peak, or dropping the guard;
    [spurious] makes the weak exchange fail. *)
Definition vu_step (spurious : bool) (g : Gauges) (p : pc) : Gauges * pc :=
  match p with
  | EOut => (mkGauges (i64_wrap_add (active g) 1) (peak g), ELoad (i64_sat_add (active g) 1))
  | ELoad new => (g, check new (peak g))
  | ECas new cur =>
      if (peak g =? cur) && negb spurious then (mkGauges (active g) new, EIn) else (g, check new (peak g))
  | EIn => (mkGauges (as_i64 (active g - 1)) (peak g), EOut)
  end.

(** The gauges, the VUs, and a ghost: the largest number of VUs that have been
    counted in at the same time. *)
Record Config := mkConfig { cf_gauges : Gauges; cf_vus : list pc; cf_high : Z }.

Inductive step : Config → Config → Prop :=
  | step_vu g vus h i p spurious g' p' :
      vus !! i = Some p → vu_step spurious g p = (g', p') →
      step (mkConfig g vus h) (mkConfig g' (<[i := p']> vus) (Z.max h (active g'))).

Definition init (u : nat) : Config := mkConfig (mkGauges 0 0) (replicate u EOut) 0.

(** ** The invariant *)
Definition inside (p : pc) : Z := match p with EOut => 0 | _ => 1 end.

(** A value on its way to the peak. *)
Definition pending (p : pc) : option Z := match p with ELoad n | ECas n _ => Some n | _ => None end.

Record inv (u : nat) (cf : Config) : Prop := {
  iv_len : length (cf_vus cf) = u;
  iv_active : active (cf_gauges cf) = sumf inside (cf_vus cf);
  iv_high : active (cf_gauges cf) ≤ cf_high cf ≤ Z.of_nat u;
  iv_peak : 0 ≤ peak (cf_gauges cf) ≤ cf_high cf;
  iv_pending : ∀ i p n, cf_vus cf !! i = Some p → pending p = Some n → n ≤ cf_high cf;
  iv_reached : peak (cf_gauges cf) = cf_high cf ∨
    ∃ i p, cf_vus cf !! i = Some p ∧ pending p = Some (cf_high cf);
  iv_cas : ∀ i n cur, cf_vus cf !! i = Some (ECas n cur) → cur < n }.

Lemma inside_le l : 0 ≤ sumf inside l ≤ Z.of_nat (length l).
Proof.
  induction l as [|p l IH]; [done|]. rewrite sumf_cons. cbn [length].
  assert (0 ≤ inside p ≤ 1) by (destruct p; simpl; lia). lia.
Qed.

Lemma check_pending new cur : pending (check new cur) = if cur <? new then Some new else None.
Proof. unfold check. by destruct (cur <? new). Qed.

(** The gauges and the high mark move, and one VU with them. *)
Lemma inv_move u g vus h i p g' p' :
  inv u (mkConfig g vus h) → Z.of_nat u ≤ i64_max → vus !! i = Some p →
  active g' = active g - inside p + inside p' →
  (∀ n, pending p' = Some n → n ≤ Z.max h (active g')) →
  0 ≤ peak g' ≤ Z.max h (active g') → peak g ≤ peak g' →
  (active g' ≤ h → ∀ n, pending p = Some n → pending p' = Some n ∨ n ≤ peak g') →
  (h < active g' → pending p' = Some (active g')) →
  (∀ n cur, p' = ECas n cur → cur < n) →
  inv u (mkConfig g' (<[i := p']> vus) (Z.max h (active g'))).
Proof.
  intros [I1 I2 I3 I4 I5 I6 I7] Hu Hi Ha Hn Hp Hmono Hkeep Hnew Hcas. simpl in *.
  assert (active g' = sumf inside (<[i := p']> vus)) as Hsum by (rewrite (sumf_insert _ _ _ _ _ Hi); lia).
  pose proof (inside_le (<[i := p']> vus)) as Hle. rewrite length_insert, I1 in Hle.
  constructor; simpl; [by rewrite length_insert|done|lia|lia| | |].
  - intros j q n Hj Hq. destruct (decide (i = j)) as [<-|Hne].
    + rewrite list_lookup_insert_eq in Hj by (by eapply lookup_lt_Some). simplify_eq. by apply Hn.
    + rewrite list_lookup_insert_ne in Hj by done. specialize (I5 j q n Hj Hq). lia.
  - destruct (Z.lt_ge_cases h (active g')) as [Hlt|Hge].
    + right. exists i, p'. rewrite list_lookup_insert_eq by (by eapply lookup_lt_Some).
      split; [done|]. rewrite (Hnew Hlt). f_equal. lia.
    + rewrite Z.max_l by lia. destruct I6 as [Hpk|(j & q & Hj & Hq)]; [left; lia|].
      destruct (decide (i = j)) as [<-|Hne].
      * rewrite Hi in Hj. simplify_eq. destruct (Hkeep Hge h Hq) as [Hk|Hk]; [|left; lia].
        right. exists i, p'. by rewrite list_lookup_insert_eq by (by eapply lookup_lt_Some).
      * right. exists j, q. by rewrite list_lookup_insert_ne.
  - intros j n cur Hj. destruct (decide (i = j)) as [<-|Hne].
    + rewrite list_lookup_insert_eq in Hj by (by eapply lookup_lt_Some). simplify_eq. by apply (Hcas n cur).
    + rewrite list_lookup_insert_ne in Hj by done. by eapply I7.
Qed.

Lemma gauges_step u cf cf' : Z.of_nat u < i64_max → inv u cf → step cf cf' → inv u cf'.
Proof.
  intros Hu Hi Hst. destruct Hst as [g vus h i p sp g' p' Hl Hs].
  pose proof (iv_active _ _ Hi) as Ha. pose proof (iv_peak _ _ Hi) as Hp. pose proof (iv_high _ _ Hi) as Hh.
  pose proof (iv_pending _ _ Hi i p) as Hn. pose proof (iv_cas _ _ Hi i) as Hc. simpl in *.
  pose proof (inside_le vus) as Hle. rewrite (iv_len _ _ Hi : length vus = u) in Hle.
  assert (Hcheck : ∀ new, pending p = Some new → (g', p') = (g, check new (peak g)) →
    inv u (mkConfig g' (<[i := p']> vus) (Z.max h (active g')))).
  { intros new Hpe [= -> ->]. specialize (Hn new Hl Hpe).
    assert (inside p = 1) as E by (by destruct p). assert (inside (check new (peak g)) = 1) as E'
      by (unfold check; by destruct (_ <? _)).
    eapply inv_move; try done; try lia; rewrite ?check_pending.
    - intros n Hn'. destruct (_ <? _); simplify_eq. lia.
    - intros _ n Hpn. rewrite Hpe in Hpn. injection Hpn as <-. destruct (Z.ltb_spec (peak g) new); [by left|right; lia].
    - intros n cur. unfold check. destruct (Z.ltb_spec (peak g) new); [|done]. intros [= <- <-]. lia. }
  destruct p as [|new|new cur|]; simpl in Hs.
  - assert (i64_wrap_add (active g) 1 = active g + 1) as E1 by (unfold i64_wrap_add; apply as_i64_small; ints_lia).
    assert (i64_sat_add (active g) 1 = active g + 1) as E2 by (ints_lia).
    rewrite E1, E2 in Hs. simplify_eq.
    eapply inv_move; try done; simpl; try lia; intros; simplify_eq; try lia; f_equal; lia.
  - by eapply Hcheck.
  - destruct ((peak g =? cur) && negb sp) eqn:E; [|by eapply Hcheck].
    apply andb_true_iff in E as [E%Z.eqb_eq _]. simplify_eq. specialize (Hc new (peak g) Hl).
    specialize (Hn new Hl eq_refl).
    eapply inv_move; try done; simpl; try lia. intros _ n [= <-]. right; lia.
  - assert (1 ≤ active g) as Hpos.
    { rewrite Ha. pose proof (sumf_elem_le inside vus EIn) as Hel. apply Hel.
      - intros q _. destruct q; simpl; lia.
      - by eapply list_elem_of_lookup_2. }
    assert (as_i64 (active g - 1) = active g - 1) as E by (apply as_i64_small; ints_lia).
    rewrite E in Hs. simplify_eq. eapply inv_move; try done; simpl; lia.
Qed.

Lemma gauges_init u : inv u (init u).
Proof.
  assert (sumf inside (replicate u EOut) = 0) as Hz.
  { induction u as [|u IH]; [done|]. cbn [replicate]. by rewrite sumf_cons, IH. }
  constructor; simpl; [apply length_replicate|lia|lia|lia| |by left|].
  - intros i p n Hi. apply lookup_replicate_1 in Hi as [-> _]. done.
  - intros i n cur Hi. by apply lookup_replicate_1 in Hi as [? _].
Qed.

(** ** Properties *)


(** ** Witness *)

(** Both VUs are counted in before either updates the peak, and the second one
    does it first; then one leaves. *)
Definition demo_end : Config := mkConfig (mkGauges 1 2) [EOut; EIn] 2.

Lemma demo_end_reachable : rtc step (init 2) demo_end.
Proof.
  eapply rtc_l; [eapply (step_vu _ _ _ 0%nat EOut false _ (ELoad 1)); reflexivity|]; simpl.
  eapply rtc_l; [eapply (step_vu _ _ _ 1%nat EOut false _ (ELoad 2)); reflexivity|]; simpl.
  eapply rtc_l; [eapply (step_vu _ _ _ 0%nat _ false _ (ECas 1 0)); reflexivity|]; simpl.
  eapply rtc_l; [eapply (step_vu _ _ _ 1%nat _ false _ (ECas 2 0)); reflexivity|]; simpl.
  eapply rtc_l; [eapply (step_vu _ _ _ 1%nat _ false _ EIn); reflexivity|]; simpl.
  eapply rtc_l; [eapply (step_vu _ _ _ 0%nat _ false _ EIn); reflexivity|]; simpl.
  eapply rtc_l; [eapply (step_vu _ _ _ 0%nat _ false _ EOut); reflexivity|]; simpl.
  apply rtc_refl.
Qed.

