(* ===== verification/Key.v ===== *)
(** * The string interner (wrkr-metrics/src/key.rs)

    [Interner]: strings to dense [u32] identifiers.  [get_or_intern] reads
    under the read lock first and, on a miss, takes the write locks and checks
    again: the two phases are separate definitions, so that other threads'
    calls can come in between. *)
From S2P Require Import Prelude.

(** [KeyId(u32)], ordered by its number. *)
Abbreviation KeyId := Z.

Record Interner := mkInterner { in_map : gmap string KeyId; in_vec : list string }.

Definition new : Interner := mkInterner ∅ [].

(** The phase under the read lock. *)
Definition intern_read (s : string) (i : Interner) : option KeyId := in_map i !! s.

(** The phase under the write locks: check again, then push. *)
Definition intern_write (s : string) (i : Interner) : KeyId * Interner :=
  match in_map i !! s with
  | Some id => (id, i)
  | None =>
      let id := as_u32 (Z.of_nat (length (in_vec i))) in
      (id, mkInterner (<[s := id]> (in_map i)) (in_vec i ++ [s]))
  end.

Definition get_or_intern (s : string) (i : Interner) : KeyId * Interner :=
  match intern_read s i with
  | Some id => (id, i)
  | None => intern_write s i
  end.

Definition resolve (id : KeyId) (i : Interner) : option string := in_vec i !! Z.to_nat id.

(** Interning a list of strings from left to right. *)
Fixpoint intern_all (ss : list string) (i : Interner) : list KeyId * Interner :=
  match ss with
  | [] => ([], i)
  | s :: ss =>
      let '(id, i) := get_or_intern s i in
      let '(ids, i) := intern_all ss i in
      (id :: ids, i)
  end.

(** ** Invariant: the map and the vector are inverse to each other *)
Record interner_wf (i : Interner) : Prop := {
  wf_map : ∀ s id, in_map i !! s = Some id ↔ 0 ≤ id ∧ in_vec i !! Z.to_nat id = Some s;
  wf_len : Z.of_nat (length (in_vec i)) ≤ 2 ^ 32 }.

(** [i'] knows every string [i] knows, under the same identifier. *)
Definition extends (i i' : Interner) : Prop := in_vec i `prefix_of` in_vec i'.

#[export] Instance extends_preorder : PreOrder extends.
Proof. split; unfold extends; [intros ?; done|]. intros ? ? ? ? ?. by etrans. Qed.

(** There is an identifier left for another string. *)
Definition has_room (i : Interner) : Prop := Z.of_nat (length (in_vec i)) < 2 ^ 32.

Lemma new_wf : interner_wf new.
Proof. split; [|done]. intros s id. unfold new; simpl. rewrite lookup_empty, lookup_nil. naive_solver. Qed.

Lemma wf_resolve i s id : interner_wf i → in_map i !! s = Some id → resolve id i = Some s.
Proof. intros [Hm _] H. by apply Hm in H as [_ ?]. Qed.

Lemma intern_write_spec s i :
  interner_wf i → has_room i →
  let '(id, i') := intern_write s i in
  interner_wf i' ∧ extends i i' ∧ in_map i' !! s = Some id ∧ 0 ≤ id < 2 ^ 32.
Proof.
  intros Hwf Hroom. pose proof Hwf as [Hm Hl]. unfold intern_write.
  destruct (in_map i !! s) as [id|] eqn:Hs.
  { pose proof (proj1 (Hm s id) Hs) as [Hid Hv]. apply lookup_lt_Some in Hv.
    split_and!; [done|done|done|lia|unfold has_room in *; lia]. }
  unfold has_room in Hroom. set (n := Z.of_nat (length (in_vec i))) in *.
  rewrite as_u32_small by ints_lia.
  split_and!; [|by exists [s]|simpl; by rewrite lookup_insert_eq|lia|lia].
  split; simpl; [|rewrite length_app; simpl; lia].
  intros s' id. destruct (decide (s = s')) as [<-|Hne].
  - rewrite lookup_insert_eq. split.
    + intros [= <-]. split; [lia|]. unfold n. rewrite Nat2Z.id.
      by apply list_lookup_middle.
    + intros [Hid Hv]. apply lookup_app_Some in Hv as [Hv|[Hge Hv]].
      * assert (in_map i !! s = Some id) by (by apply Hm). congruence.
      * apply list_lookup_singleton_Some in Hv as [Hv _]. f_equal. unfold n. lia.
  - rewrite lookup_insert_ne by done. rewrite Hm.
    split; intros [Hid Hv]; (split; [done|]).
    + by apply lookup_app_l_Some.
    + apply lookup_app_Some in Hv as [Hv|[Hge Hv]]; [done|].
      apply list_lookup_singleton_Some in Hv as [_ Hv]. congruence.
Qed.

Lemma get_or_intern_spec s i :
  interner_wf i → has_room i →
  let '(id, i') := get_or_intern s i in
  interner_wf i' ∧ extends i i' ∧ in_map i' !! s = Some id ∧ 0 ≤ id < 2 ^ 32.
Proof.
  intros Hwf Hroom. pose proof (intern_write_spec s i Hwf Hroom) as H.
  unfold get_or_intern, intern_read. unfold intern_write in *.
  by destruct (in_map i !! s).
Qed.

Lemma extends_map i i' s id :
  interner_wf i → interner_wf i' → extends i i' →
  in_map i !! s = Some id → in_map i' !! s = Some id.
Proof.
  intros [Hm _] [Hm' _] He Hs. apply Hm in Hs as [Hid Hv]. apply Hm'. split; [done|].
  destruct He as [l ->]. by apply lookup_app_l_Some.
Qed.

Lemma get_or_intern_length s i :
  (length (in_vec (snd (get_or_intern s i))) ≤ S (length (in_vec i)))%nat.
Proof.
  unfold get_or_intern, intern_read, intern_write.
  destruct (in_map i !! s); simpl; rewrite ?length_app; simpl; lia.
Qed.

(** There are identifiers left for [n] more strings. *)
Definition room_for (n : nat) (i : Interner) : Prop :=
  Z.of_nat (length (in_vec i)) + Z.of_nat n ≤ 2 ^ 32.

Lemma intern_all_spec ss i :
  interner_wf i → room_for (length ss) i →
  let '(ids, i') := intern_all ss i in
  interner_wf i' ∧ extends i i' ∧
  (length (in_vec i') ≤ length (in_vec i) + length ss)%nat ∧
  Forall2 (λ s id, in_map i' !! s = Some id) ss ids.
Proof.
  unfold room_for. revert i. induction ss as [|s ss IH]; intros i Hwf Hroom; simpl in *.
  { split_and!; [done|done|lia|constructor]. }
  pose proof (get_or_intern_spec s i Hwf ltac:(unfold has_room; lia)) as H.
  pose proof (get_or_intern_length s i) as Hlen.
  destruct (get_or_intern s i) as [id i1]. destruct H as (Hwf1 & He1 & Hs & _). simpl in Hlen.
  specialize (IH i1 Hwf1 ltac:(lia)). destruct (intern_all ss i1) as [ids i2].
  destruct IH as (Hwf2 & He2 & Hl2 & Hall).
  split_and!; [done|by etrans|lia|]. constructor; [|done]. by apply (extends_map i1 i2).
Qed.

(** As long as the table has not overflowed, a call meets its specification. *)
Definition in_capacity (i : Interner) : Prop := Z.of_nat (length (in_vec i)) < 2 ^ 32.

Lemma get_or_intern_capacity s i :
  interner_wf i → in_capacity (get_or_intern s i).2 →
  let '(id, i') := get_or_intern s i in
  interner_wf i' ∧ extends i i' ∧ in_map i' !! s = Some id ∧ in_capacity i.
Proof.
  intros Hwf Hcap. pose proof (get_or_intern_spec s i Hwf) as Hs.
  assert (has_room i) as Hroom.
  { revert Hcap. unfold get_or_intern, intern_read, intern_write, in_capacity, has_room.
    destruct (in_map i !! s); simpl; [done|]. rewrite length_app. lia. }
  specialize (Hs Hroom). destruct (get_or_intern s i) as [id i'].
  destruct Hs as (? & ? & ? & _). by split_and!.
Qed.

(** ** Properties *)

(** Interning is injective and stable: two strings get the same identifier
    exactly when they are equal, the second call changes nothing the first
    one returned, and the identifier resolves back to the string. *)
Theorem intern_injective s t i :
  interner_wf i → Z.of_nat (length (in_vec i)) + 1 < 2 ^ 32 →
  let '(a, i1) := get_or_intern s i in
  let '(b, i2) := get_or_intern t i1 in
  (a = b ↔ s = t) ∧ resolve a i2 = Some s ∧ resolve b i2 = Some t ∧ interner_wf i2.
Proof.
  intros Hwf Hroom.
  pose proof (get_or_intern_spec s i Hwf ltac:(unfold has_room; lia)) as H1.
  assert (∀ a i1, get_or_intern s i = (a, i1) → has_room i1) as Hr1.
  { intros a i1. unfold get_or_intern, intern_read, intern_write, has_room.
    destruct (in_map i !! s); intros [= <- <-]; simpl; [lia|]. rewrite length_app; simpl; lia. }
  destruct (get_or_intern s i) as [a i1]. destruct H1 as (Hwf1 & _ & Ha & _).
  pose proof (get_or_intern_spec t i1 Hwf1 (Hr1 _ _ eq_refl)) as H2.
  destruct (get_or_intern t i1) as [b i2]. destruct H2 as (Hwf2 & He & Hb & _).
  pose proof (extends_map _ _ _ _ Hwf1 Hwf2 He Ha) as Ha2.
  pose proof (wf_resolve _ _ _ Hwf2 Ha2) as Ra. pose proof (wf_resolve _ _ _ Hwf2 Hb) as Rb.
  split_and!; try done. split; [intros ->; congruence|intros ->; congruence].
Qed.

(** The re-check under the write lock closes the race: when a thread misses
    [s] under the read lock and other threads intern any strings [ss] before
    it gets the write locks, it still ends with the identifier [s] resolves
    to, disturbs no identifier of [ss], and adds no entry if [s] was in [ss]. *)
Theorem intern_race_safe s ss i :
  interner_wf i → room_for (S (length ss)) i → intern_read s i = None →
  let '(ids, i1) := intern_all ss i in
  let '(id, i2) := intern_write s i1 in
  interner_wf i2 ∧ resolve id i2 = Some s ∧
  Forall2 (λ t idt, resolve idt i2 = Some t) ss ids ∧ (s ∈ ss → i2 = i1).
Proof.
  unfold room_for. intros Hwf Hroom _.
  pose proof (intern_all_spec ss i Hwf ltac:(unfold room_for; lia)) as Hall.
  destruct (intern_all ss i) as [ids i1]. destruct Hall as (Hwf1 & _ & Hl & Hall).
  pose proof (intern_write_spec s i1 Hwf1 ltac:(unfold has_room; lia)) as Hw.
  assert (s ∈ ss → snd (intern_write s i1) = i1) as Hin.
  { intros (k & Hk)%list_elem_of_lookup_1.
    destruct (Forall2_lookup_l _ _ _ _ _ Hall Hk) as (id & _ & Hid).
    unfold intern_write. by rewrite Hid. }
  destruct (intern_write s i1) as [id i2]. destruct Hw as (Hwf2 & He & Hid & _).
  split_and!; [done|by eapply wf_resolve| |done].
  eapply Forall2_impl; [exact Hall|]. intros t idt Ht.
  eapply wf_resolve; [done|]. by apply (extends_map i1 i2).
Qed.

(** ** Witnesses *)
Lemma intern_injective_witness :
  let '(a, i1) := get_or_intern "scenario" new in
  let '(b, i2) := get_or_intern "status" i1 in
  (a = b ↔ "scenario"%string = "status"%string) ∧ resolve a i2 = Some "scenario"%string ∧
  resolve b i2 = Some "status"%string ∧ interner_wf i2.
Proof. apply (intern_injective "scenario" "status" new); [exact new_wf|done]. Defined.

Lemma intern_race_safe_witness :
  let '(ids, i1) := intern_all ["b"; "a"]%string new in
  let '(id, i2) := intern_write "a" i1 in
  interner_wf i2 ∧ resolve id i2 = Some "a"%string ∧
  Forall2 (λ t idt, resolve idt i2 = Some t) ["b"; "a"]%string ids ∧
  (("a"%string ∈ ["b"; "a"]%string) → i2 = i1).
Proof.
  apply (intern_race_safe "a" ["b"; "a"]%string new); [exact new_wf|done|reflexivity].
Defined.
