(* ===== verification/Tags.v ===== *)
(** * Tag sets (wrkr-metrics/src/tags.rs)

    [TagSet]: pairs of key and value identifiers, meant to be sorted; looked up
    by binary search. *)
From S2P Require Import Prelude Std Key.

Abbreviation TagSet := (list (Z * Z)).

Definition from_sorted_iter (l : list (Z * Z)) : TagSet := l.

Definition tags_is_empty (t : TagSet) : bool := is_empty t.
Definition tags_len (t : TagSet) : nat := length t.

(** The derived order of pairs: lexicographic. *)
Definition pair_compare (a b : Z * Z) : comparison :=
  match a.1 ?= b.1 with Eq => a.2 ?= b.2 | c => c end.

Definition pair_le (a b : Z * Z) : Prop := a.1 < b.1 ∨ (a.1 = b.1 ∧ a.2 ≤ b.2).

#[export] Instance pair_le_dec a b : Decision (pair_le a b).
Proof. unfold pair_le. apply _. Defined.
#[export] Instance pair_le_po : PartialOrder pair_le.
Proof.
  unfold pair_le. split; [split|].
  - intros ?. right. lia.
  - intros ???. lia.
  - intros [] [] ??; simpl in *. f_equal; lia.
Qed.
#[export] Instance pair_le_total : Total pair_le.
Proof. intros [] []. unfold pair_le; simpl. lia. Qed.

(** [contains]: [binary_search_by] on the pair. *)
Definition tags_contains (t : TagSet) (key value : Z) : bool :=
  match t with
  | [] => false
  | _ =>
      let base := Slice.search_loop (length t) t
        (λ p, match pair_compare p (key, value) with Gt => true | _ => false end)
        0 (length t) in
      match t !! base with
      | Some p => match pair_compare p (key, value) with Eq => true | _ => false end
      | None => false
      end
  end.

(** [get]: the first pair whose key is not below [key], if it has that key. *)
Definition get (t : TagSet) (key : Z) : option Z :=
  let idx := Slice.partition_point t (λ p, p.1 <? key) in
  p ← t !! idx;
  if p.1 =? key then Some p.2 else None.

Definition project (t : TagSet) (keys : list Z) : TagSet :=
  if is_empty keys then []
  else omap (λ key, (λ v, (key, v)) <$> get t key) keys.

(** ** Lemmas *)

(** Sorted by key, as [get] needs. *)
Definition keys_sorted (t : TagSet) : Prop :=
  ∀ i j a b, (i ≤ j)%nat → t !! i = Some a → t !! j = Some b → a.1 ≤ b.1.

Lemma StronglySorted_lookup_le {A} (R : relation A) (l : list A) i j a b :
  StronglySorted R l → (i < j)%nat → l !! i = Some a → l !! j = Some b → R a b.
Proof.
  intros Hs. revert i j. induction Hs as [|x l Hs IH Hall]; intros i j Hij Ha Hb; [done|].
  destruct j as [|j]; [lia|]. simpl in Hb. destruct i as [|i]; simplify_eq/=.
  - by eapply Forall_lookup_1.
  - apply (IH i j); [lia|done|done].
Qed.

Lemma sorted_keys_sorted t : Sorted pair_le t → keys_sorted t.
Proof.
  intros Hs%Sorted_StronglySorted; [|apply _]. intros i j a b Hij Ha Hb.
  destruct (decide (i = j)) as [->|]; [simplify_eq; lia|].
  pose proof (StronglySorted_lookup_le _ _ i j a b Hs ltac:(lia) Ha Hb) as H.
  unfold pair_le in H. lia.
Qed.

(** [get] finds the value of the first pair with the key. *)
Lemma get_spec t key :
  keys_sorted t →
  match get t key with
  | Some v => ∃ i, t !! i = Some (key, v) ∧ ∀ j p, (j < i)%nat → t !! j = Some p → p.1 < key
  | None => ∀ v, (key, v) ∉ t
  end.
Proof.
  intros Hs. unfold get.
  pose proof (Slice.partition_point_spec t (λ p, p.1 <? key)) as Hp. simpl in Hp.
  destruct Hp as (Hn & Hlo & Hhi).
  { intros i j a b Hij Ha Hb. pose proof (Hs i j a b Hij Ha Hb).
    rewrite !negb_true_iff, !Z.ltb_ge. lia. }
  set (n := Slice.partition_point _ _) in *.
  destruct (t !! n) as [[k v]|] eqn:Hk; simpl.
  - destruct (Z.eqb_spec k key) as [->|Hne].
    + exists n. split; [done|]. intros j p Hj Hjp. apply Z.ltb_lt. by eapply Hlo.
    + intros v' (j & Hj)%list_elem_of_lookup_1.
      destruct (Nat.lt_ge_cases j n) as [Hlt|Hge].
      * specialize (Hlo _ _ Hlt Hj). apply Z.ltb_lt in Hlo. simpl in Hlo. lia.
      * pose proof (Hs n j _ _ Hge Hk Hj) as Hle. specialize (Hhi n _ ltac:(lia) Hk).
        apply Z.ltb_ge in Hhi. simpl in *. lia.
  - intros v' (j & Hj)%list_elem_of_lookup_1. apply lookup_ge_None in Hk.
    pose proof (lookup_lt_Some _ _ _ Hj).
    specialize (Hlo j _ ltac:(lia) Hj). apply Z.ltb_lt in Hlo. simpl in Hlo. lia.
Qed.

Lemma get_None_iff t key : keys_sorted t → get t key = None ↔ ∀ v, (key, v) ∉ t.
Proof.
  intros Hs. pose proof (get_spec t key Hs) as H. destruct (get t key) as [v|]; [|done].
  destruct H as (i & Hi & _). split; [done|]. intros Hn. destruct (Hn v).
  by eapply list_elem_of_lookup_2.
Qed.

(** When no key repeats, [get] is the value paired with the key. *)
Lemma get_Some_iff t key v :
  keys_sorted t → NoDup t.*1 → get t key = Some v ↔ (key, v) ∈ t.
Proof.
  intros Hs Hnd. pose proof (get_spec t key Hs) as H. split.
  - intros Hg. rewrite Hg in H. destruct H as (i & Hi & _). by eapply list_elem_of_lookup_2.
  - intros Hin. destruct (get t key) as [v'|]; [|by destruct (H v)].
    destruct H as (i & Hi & _). f_equal.
    apply list_elem_of_lookup_1 in Hin as (j & Hj).
    assert (i = j) as ->.
    { eapply NoDup_lookup; [exact Hnd| |];
        rewrite list_lookup_fmap; [by rewrite Hi|by rewrite Hj]. }
    by simplify_eq.
Qed.

(** ** Properties *)

(** On a sorted tag set with distinct keys, the binary-search lookup is
    exactly membership: [get k] is the one value paired with [k], and [None]
    when no pair has the key. *)
Theorem get_is_membership t key :
  Sorted pair_le t → NoDup t.*1 →
  (∀ v, get t key = Some v ↔ (key, v) ∈ t) ∧ (get t key = None ↔ key ∉ t.*1).
Proof.
  intros Hs%sorted_keys_sorted Hnd. split; [intros v; by apply get_Some_iff|].
  rewrite get_None_iff by done. rewrite list_elem_of_fmap. split.
  - intros Hn ([k v] & -> & Hin). by apply (Hn v).
  - intros Hn v Hin. apply Hn. by exists (key, v).
Qed.

Lemma get_is_membership_witness :
  get [(1, 2); (3, 1); (7, 9)] 3 = Some 1 ∧ get [(1, 2); (3, 1); (7, 9)] 4 = None.
Proof.
  assert (Sorted pair_le [(1, 2); (3, 1); (7, 9)]) as Hs.
  { repeat (constructor; [|try (constructor; left; simpl; lia)]); constructor. }
  assert (NoDup ([(1, 2); (3, 1); (7, 9)] : TagSet).*1) as Hn by (repeat constructor; set_solver).
  split.
  - apply (get_is_membership _ 3 Hs Hn). set_solver.
  - apply (get_is_membership _ 4 Hs Hn). set_solver.
Defined.
