(* ===== verification/Metrics.v ===== *)
(** * Metric storage and handles (wrkr-metrics/src/metrics.rs)

    The four kinds of series.  A storage or a handle holds shared pointers
    ([Arc]) to atomics or to a locked histogram: here a location in a heap of
    cells, so that two handles of one series alias.  [hdrhistogram] is
    third-party code: its operations are a class. *)
From S2P Require Import Prelude F64.

(** The operations of [hdrhistogram::Histogram<u64>] the code calls.  [record]
    and [add] ignore the error they may return, which leaves the histogram as
    it was; [with_bounds 1 3_600_000_000 3] satisfies the constructor's
    conditions, so it does not fail. *)
Class HistOps := {
  hist : Type;
  hist_with_bounds : Z → Z → Z → hist;
  hist_record : Z → hist → hist;
  hist_add : hist → hist → hist;
  hist_len : hist → Z;
  hist_value_at_quantile : hist → f64 → Z;
  hist_min : hist → Z;
  hist_max : hist → Z;
  hist_mean : hist → f64;
  hist_stdev : hist → f64 }.

(** Upper bound: one hour in microseconds. *)
Definition HIST_LOW : Z := 1.
Definition HIST_HIGH : Z := 3600000000.
Definition HIST_SIGFIG : Z := 3.

(** Documented behaviour: an empty histogram has length 0, recording a value
    within the bounds adds one to it, adding a histogram adds its length; the
    length saturates. *)
Class HistLaws (H : HistOps) := {
  hist_len_new : hist_len (hist_with_bounds HIST_LOW HIST_HIGH HIST_SIGFIG) = 0;
  hist_len_record v h :
    HIST_LOW ≤ v ≤ HIST_HIGH → hist_len (hist_record v h) = u64_sat_add (hist_len h) 1;
  hist_len_add a b : hist_len (hist_add a b) = u64_sat_add (hist_len a) (hist_len b);
  hist_len_range h : in_u64 (hist_len h) }.

(** An instance for evaluation: the list of recorded values, in order. *)
Definition quantile_index (n : Z) (q : f64) : Z :=
  Z.max 1 (trunc (round (fmul q (of_Z n)))).
#[export] Instance list_hist : HistOps := {|
  hist := list Z;
  hist_with_bounds _ _ _ := [];
  hist_record v h := if (HIST_LOW <=? v) && (v <=? HIST_HIGH) then v :: h else h;
  hist_add a b := a ++ b;
  hist_len h := Z.min u64_max (Z.of_nat (length h));
  hist_value_at_quantile h q :=
    default 0 (merge_sort Z.le h !! Z.to_nat (quantile_index (Z.of_nat (length h)) q - 1));
  hist_min h := match h with [] => 0 | v :: h => foldr Z.min v h end;
  hist_max h := foldr Z.max 0 h;
  hist_mean h := fdiv (of_Z (foldr Z.add 0 h)) (of_Z (Z.of_nat (length h)));
  hist_stdev h := f_zero |}.

#[export] Instance list_hist_laws : HistLaws list_hist.
Proof.
  split; simpl; [done| | |].
  - intros v h [H1 H2]. rewrite (proj2 (Z.leb_le _ _) H1), (proj2 (Z.leb_le _ _) H2).
    simpl length. ints_lia.
  - intros a b. rewrite length_app. ints_lia.
  - intros h. ints_lia.
Qed.

Module MetricKind.
Inductive t := Counter | Gauge | Rate | Histogram.
#[export] Instance eq_dec : EqDecision t.
Proof. solve_decision. Defined.
End MetricKind.

(** Locations of the shared atomics. *)
Abbreviation loc := nat.

Module MetricStorage.
Inductive t := Counter (a : loc) | Gauge (a : loc) | Rate (a : loc) | Histogram (a : loc).
#[export] Instance eq_dec : EqDecision t.
Proof. solve_decision. Defined.
Definition location (s : t) : loc :=
  match s with Counter a | Gauge a | Rate a | Histogram a => a end.
End MetricStorage.

Module MetricHandle.
Inductive t := Counter (a : loc) | Gauge (a : loc) | Rate (a : loc) | Histogram (a : loc).
#[export] Instance eq_dec : EqDecision t.
Proof. solve_decision. Defined.
End MetricHandle.

Record HistogramSummary := mkHistogramSummary {
  hs_p50 : option f64; hs_p75 : option f64; hs_p90 : option f64; hs_p95 : option f64;
  hs_p99 : option f64; hs_min : option f64; hs_max : option f64; hs_mean : option f64;
  hs_stdev : option f64; hs_count : Z }.

Module MetricValue.
Inductive t :=
  | Counter (v : Z)
  | Gauge (v : Z)
  | Rate (total hits : Z) (rate : option f64)
  | Histogram (h : HistogramSummary).
End MetricValue.

Record MetricSeriesSummary := mkSeriesSummary {
  ms_name : string;
  ms_kind : MetricKind.t;
  ms_tags : list (string * string);
  ms_values : MetricValue.t }.

(** [hits as f64 / total as f64] when there is a total. *)
Definition rate_of (total hits : Z) : option f64 :=
  if 0 <? total then Some (fdiv (of_Z hits) (of_Z total)) else None.

Section heap.
Context {H : HistOps}.

(** What an [Arc] points to: an [AtomicU64], an [AtomicI64], a [Rate] pair or a
    [Mutex<Histogram>]. *)
Inductive Cell :=
  | CCounter (v : Z)
  | CGauge (v : Z)
  | CRate (total hits : Z)
  | CHist (h : hist).

Abbreviation Heap := (list Cell).

Definition new_default_histogram : hist := hist_with_bounds HIST_LOW HIST_HIGH HIST_SIGFIG.

Definition summarize_histogram (h : hist) : HistogramSummary :=
  let count := hist_len h in
  let when (v : f64) := if 0 <? count then Some v else None in
  let map_val v := of_Z v in
  let q d := when (map_val (hist_value_at_quantile h (of_decimal false d (-2)))) in
  mkHistogramSummary (q 50) (q 75) (q 90) (q 95) (q 99)
    (when (map_val (hist_min h))) (when (map_val (hist_max h)))
    (when (hist_mean h)) (when (hist_stdev h)) count.

(** [MetricStorage::new]: allocates the atomics of a fresh series. *)
Definition storage_new (kind : MetricKind.t) (h : Heap) : MetricStorage.t * Heap :=
  let a := length h in
  match kind with
  | MetricKind.Counter => (MetricStorage.Counter a, h ++ [CCounter 0])
  | MetricKind.Gauge => (MetricStorage.Gauge a, h ++ [CGauge 0])
  | MetricKind.Rate => (MetricStorage.Rate a, h ++ [CRate 0 0])
  | MetricKind.Histogram => (MetricStorage.Histogram a, h ++ [CHist new_default_histogram])
  end.

(** ** Reading and writing cells; a cell of another type is never there *)
Definition load_counter (a : loc) (h : Heap) : Z :=
  match h !! a with Some (CCounter v) => v | _ => 0 end.
Definition load_gauge (a : loc) (h : Heap) : Z :=
  match h !! a with Some (CGauge v) => v | _ => 0 end.
Definition load_rate (a : loc) (h : Heap) : Z * Z :=
  match h !! a with Some (CRate total hits) => (total, hits) | _ => (0, 0) end.
Definition load_hist (a : loc) (h : Heap) : hist :=
  match h !! a with Some (CHist x) => x | _ => new_default_histogram end.

Definition update_cell (a : loc) (f : Cell → Cell) (h : Heap) : Heap := alter f a h.

Definition counter_fetch_add (n : Z) (c : Cell) : Cell :=
  match c with CCounter v => CCounter (u64_wrap_add v n) | c => c end.
Definition gauge_store (n : Z) (c : Cell) : Cell :=
  match c with CGauge _ => CGauge n | c => c end.
Definition gauge_fetch_add (n : Z) (c : Cell) : Cell :=
  match c with CGauge v => CGauge (i64_wrap_add v n) | c => c end.
Definition gauge_fetch_sub (n : Z) (c : Cell) : Cell :=
  match c with CGauge v => CGauge (i64_wrap_add v (- n)) | c => c end.
Definition rate_add (hits total : Z) (c : Cell) : Cell :=
  match c with CRate t x => CRate (u64_wrap_add t total) (u64_wrap_add x hits) | c => c end.
Definition hist_observe (v : Z) (c : Cell) : Cell :=
  match c with CHist x => CHist (hist_record v x) | c => c end.

(** ** [MetricHandle]'s methods: a method of another kind does nothing *)
Definition increment (m : MetricHandle.t) (value : Z) (h : Heap) : Heap :=
  match m with MetricHandle.Counter a => update_cell a (counter_fetch_add value) h | _ => h end.
Definition set_gauge (m : MetricHandle.t) (value : Z) (h : Heap) : Heap :=
  match m with MetricHandle.Gauge a => update_cell a (gauge_store value) h | _ => h end.
Definition increment_gauge (m : MetricHandle.t) (value : Z) (h : Heap) : Heap :=
  match m with MetricHandle.Gauge a => update_cell a (gauge_fetch_add value) h | _ => h end.
Definition decrement_gauge (m : MetricHandle.t) (value : Z) (h : Heap) : Heap :=
  match m with MetricHandle.Gauge a => update_cell a (gauge_fetch_sub value) h | _ => h end.
Definition add_rate (m : MetricHandle.t) (hits total : Z) (h : Heap) : Heap :=
  match m with MetricHandle.Rate a => update_cell a (rate_add hits total) h | _ => h end.
Definition observe_histogram (m : MetricHandle.t) (value : Z) (h : Heap) : Heap :=
  match m with MetricHandle.Histogram a => update_cell a (hist_observe value) h | _ => h end.

Definition get_counter (m : MetricHandle.t) (h : Heap) : Z :=
  match m with MetricHandle.Counter a => load_counter a h | _ => 0 end.
Definition get_gauge (m : MetricHandle.t) (h : Heap) : Z :=
  match m with MetricHandle.Gauge a => load_gauge a h | _ => 0 end.
Definition get_rate (m : MetricHandle.t) (h : Heap) : Z * Z :=
  match m with MetricHandle.Rate a => load_rate a h | _ => (0, 0) end.

(** The cell a storage points to has its type. *)
Definition cell_typed (h : Heap) (s : MetricStorage.t) : Prop :=
  match s with
  | MetricStorage.Counter a => ∃ v, h !! a = Some (CCounter v)
  | MetricStorage.Gauge a => ∃ v, h !! a = Some (CGauge v)
  | MetricStorage.Rate a => ∃ t x, h !! a = Some (CRate t x)
  | MetricStorage.Histogram a => ∃ x, h !! a = Some (CHist x)
  end.

Definition storage_kind (s : MetricStorage.t) : MetricKind.t :=
  match s with
  | MetricStorage.Counter _ => MetricKind.Counter
  | MetricStorage.Gauge _ => MetricKind.Gauge
  | MetricStorage.Rate _ => MetricKind.Rate
  | MetricStorage.Histogram _ => MetricKind.Histogram
  end.

(** The cell of a series nothing was recorded in. *)
Definition fresh_cell (c : Cell) : Prop :=
  match c with
  | CCounter v | CGauge v => v = 0
  | CRate total hits => total = 0 ∧ hits = 0
  | CHist x => x = new_default_histogram
  end.

Lemma storage_new_spec kind h s h' :
  storage_new kind h = (s, h') →
  storage_kind s = kind ∧ MetricStorage.location s = length h ∧ cell_typed h' s ∧
  (∃ c, h' = h ++ [c] ∧ fresh_cell c).
Proof.
  unfold storage_new. destruct kind; intros [= <- <-]; simpl;
    (split_and!; [done|done| |eexists; split; [reflexivity|done]]); repeat eexists;
    by apply list_lookup_middle.
Qed.

Lemma cell_typed_app h h' s : cell_typed h s → cell_typed (h ++ h') s.
Proof.
  destruct s; simpl; [intros [v Hc]; exists v|intros [v Hc]; exists v
    |intros (v & x & Hc); exists v, x|intros [v Hc]; exists v]; by apply lookup_app_l_Some.
Qed.

Lemma lookup_update_cell h a b (f : Cell → Cell) :
  update_cell a f h !! b = if decide (a = b) then f <$> h !! b else h !! b.
Proof.
  unfold update_cell. case_decide as E.
  - subst. by rewrite list_lookup_alter_eq.
  - by rewrite list_lookup_alter_ne.
Qed.
End heap.
Arguments Cell : clear implicits.
Arguments Cell {H}.
