(* ===== verification/Registry.v ===== *)
(** * The metric registry (wrkr-metrics/src/registry.rs)

    [Registry]: metric definitions by index, and for each metric the series of
    each tag set.  The shared atomics are the heap of Metrics.v, so that the
    handles given out and the series stored alias.  [get_handle] reads and
    inserts without a lock around both: its two phases are definitions of
    their own. *)
From S2P Require Import Prelude Coll F64 Key Tags Metrics.

(** [MetricId(u32)]. *)
Abbreviation MetricId := Z.

Record MetricDef := mkMetricDef { md_name : KeyId; md_kind : MetricKind.t }.

Section registry.
Context {H : HistOps} {M : MapIter}.

Record Registry := mkRegistry {
  reg_interner : Interner;
  reg_defs : list MetricDef;
  reg_storage : gmap MetricId (gmap TagSet MetricStorage.t);
  reg_heap : list Cell }.

(** [Registry::default]. *)
Definition empty_registry : Registry := mkRegistry Key.new [] ∅ [].

Definition with_interner (r : Registry) (i : Interner) : Registry :=
  mkRegistry i (reg_defs r) (reg_storage r) (reg_heap r).
Definition with_heap (r : Registry) (h : list Cell) : Registry :=
  mkRegistry (reg_interner r) (reg_defs r) (reg_storage r) h.

(** [defs.iter().enumerate().find(|(_, d)| d.name == name_id)] *)
Definition find_def (defs : list MetricDef) (name : KeyId) : option (nat * MetricDef) :=
  list_find (λ d, md_name d = name) defs.

Definition lookup_metric (name : string) (r : Registry) :
    option (MetricId * MetricKind.t) * Registry :=
  let '(name_id, i) := get_or_intern name (reg_interner r) in
  ((λ p, (as_u32 (Z.of_nat p.1), md_kind p.2)) <$> find_def (reg_defs r) name_id,
   with_interner r i).

Definition register (name : string) (kind : MetricKind.t) (r : Registry) : MetricId * Registry :=
  let '(name_id, i) := get_or_intern name (reg_interner r) in
  match find_def (reg_defs r) name_id with
  | Some (idx, _) => (as_u32 (Z.of_nat idx), with_interner r i)
  | None =>
      let id := as_u32 (Z.of_nat (length (reg_defs r))) in
      (id, mkRegistry i (reg_defs r ++ [mkMetricDef name_id kind])
             (<[id := ∅]> (reg_storage r)) (reg_heap r))
  end.

Definition resolve_key (key : string) (r : Registry) : KeyId * Registry :=
  let '(id, i) := get_or_intern key (reg_interner r) in (id, with_interner r i).

Definition resolve_key_id (id : KeyId) (r : Registry) : option string :=
  resolve id (reg_interner r).

(** The [map] of [resolve_tags]: key, then value, pair by pair. *)
Fixpoint resolve_pairs (tags : list (string * string)) (r : Registry) :
    list (KeyId * KeyId) * Registry :=
  match tags with
  | [] => ([], r)
  | (k, v) :: tags =>
      let '(kid, r) := resolve_key k r in
      let '(vid, r) := resolve_key v r in
      let '(l, r) := resolve_pairs tags r in
      ((kid, vid) :: l, r)
  end.

Definition resolve_tags (tags : list (string * string)) (r : Registry) : TagSet * Registry :=
  let '(resolved, r) := resolve_pairs tags r in
  (from_sorted_iter (merge_sort pair_le resolved), r).

Definition storage_to_handle (s : MetricStorage.t) : MetricHandle.t :=
  match s with
  | MetricStorage.Counter a => MetricHandle.Counter a
  | MetricStorage.Gauge a => MetricHandle.Gauge a
  | MetricStorage.Rate a => MetricHandle.Rate a
  | MetricStorage.Histogram a => MetricHandle.Histogram a
  end.

(** What the first phase of [get_handle] finds out: the handle to return
    ([inl]), or the kind of series to create ([inr]). *)
Definition get_handle_read (metric : MetricId) (tags : TagSet) (r : Registry) :
    option (MetricHandle.t + MetricKind.t) :=
  series_map ← reg_storage r !! metric;
  match series_map !! tags with
  | Some storage => Some (inl (storage_to_handle storage))
  | None => d ← reg_defs r !! Z.to_nat metric; Some (inr (md_kind d))
  end.

(** The second phase: [MetricStorage::new], then [series_map.insert], which
    replaces the entry if there is one. *)
Definition get_handle_insert (metric : MetricId) (tags : TagSet) (kind : MetricKind.t)
    (r : Registry) : MetricHandle.t * Registry :=
  let '(new_storage, h) := storage_new kind (reg_heap r) in
  (storage_to_handle new_storage,
   mkRegistry (reg_interner r) (reg_defs r)
     (alter (λ series_map, <[tags := new_storage]> series_map) metric (reg_storage r)) h).

(** [get_handle] when no other thread runs in between. *)
Definition get_handle (metric : MetricId) (tags : TagSet) (r : Registry) :
    option MetricHandle.t * Registry :=
  match get_handle_read metric tags r with
  | None => (None, r)
  | Some (inl h) => (Some h, r)
  | Some (inr kind) => let '(h, r) := get_handle_insert metric tags kind r in (Some h, r)
  end.

(** The series in the order they are visited. *)
Definition series (metric : MetricId) (r : Registry) : list (TagSet * MetricStorage.t) :=
  match reg_storage r !! metric with
  | None => []
  | Some series_map => map_iter series_map
  end.

(** [visit_series] with the state its closure captures. *)
Definition visit_series {St} (metric : MetricId) (r : Registry)
    (visit : St → TagSet → MetricStorage.t → St) (s : St) : St :=
  foldl (λ s p, visit s p.1 p.2) s (series metric r).

Definition fold_counter_sum (metric : MetricId) (predicate : TagSet → bool) (r : Registry) : Z :=
  visit_series metric r (λ total tags storage,
    if negb (predicate tags) then total else
    match storage with
    | MetricStorage.Counter c => u64_sat_add total (load_counter c (reg_heap r))
    | _ => total
    end) 0.

Definition fold_histogram_summary (metric : MetricId) (predicate : TagSet → bool)
    (r : Registry) : option HistogramSummary :=
  let '(acc, any) := visit_series metric r (λ '(acc, any) tags storage,
    if negb (predicate tags) then (acc, any) else
    match storage with
    | MetricStorage.Histogram a => (hist_add acc (load_hist a (reg_heap r)), true)
    | _ => (acc, any)
    end) (new_default_histogram, false) in
  if any : bool then Some (summarize_histogram acc) else None.

Definition fold_rate_sum (metric : MetricId) (predicate : TagSet → bool)
    (r : Registry) : Z * Z * option f64 :=
  let '(total, hits) := visit_series metric r (λ '(total, hits) tags storage,
    if negb (predicate tags) then (total, hits) else
    match storage with
    | MetricStorage.Rate a =>
        let '(t, x) := load_rate a (reg_heap r) in (u64_sat_add total t, u64_sat_add hits x)
    | _ => (total, hits)
    end) (0, 0) in
  (total, hits, rate_of total hits).

(** [resolve(..).map(to_string).unwrap_or_default()] *)
Definition resolve_or_default (i : Interner) (id : KeyId) : string :=
  default EmptyString (resolve id i).

Definition read_value (h : list Cell) (s : MetricStorage.t) : MetricValue.t :=
  match s with
  | MetricStorage.Counter a => MetricValue.Counter (load_counter a h)
  | MetricStorage.Gauge a => MetricValue.Gauge (load_gauge a h)
  | MetricStorage.Rate a =>
      let '(total, hits) := load_rate a h in MetricValue.Rate total hits (rate_of total hits)
  | MetricStorage.Histogram a => MetricValue.Histogram (summarize_histogram (load_hist a h))
  end.

Definition summarize_one (r : Registry) (def : MetricDef) (p : TagSet * MetricStorage.t) :
    MetricSeriesSummary :=
  let i := reg_interner r in
  mkSeriesSummary (resolve_or_default i (md_name def)) (md_kind def)
    ((λ '(k, v), (resolve_or_default i k, resolve_or_default i v)) <$> p.1)
    (read_value (reg_heap r) p.2).

(** The loop over the metrics, in iteration order. *)
Definition summaries (r : Registry) : list MetricSeriesSummary :=
  map_iter (reg_storage r) ≫= λ '(metric_id, series_map),
    match reg_defs r !! Z.to_nat metric_id with
    | None => []
    | Some def => summarize_one r def <$> map_iter series_map
    end.

Definition name_le (a b : MetricSeriesSummary) : Prop := str_le (ms_name a) (ms_name b).
#[export] Instance name_le_dec a b : Decision (name_le a b).
Proof. unfold name_le. apply _. Defined.

Definition summarize (r : Registry) : list MetricSeriesSummary :=
  merge_sort name_le (summaries r).

(** ** Invariant *)
Definition storage_at (r : Registry) (id : MetricId) (tags : TagSet) : option MetricStorage.t :=
  series_map ← reg_storage r !! id; series_map !! tags.

(** Every cell holds an integer of its width. *)
Definition cell_range (c : Cell) : Prop :=
  match c with
  | CCounter v => in_u64 v
  | CGauge v => in_i64 v
  | CRate total hits => in_u64 total ∧ in_u64 hits
  | CHist _ => True
  end.

Record registry_wf (r : Registry) : Prop := {
  wf_interner : interner_wf (reg_interner r);
  wf_names : NoDup (md_name <$> reg_defs r);
  wf_defs_len : Z.of_nat (length (reg_defs r)) ≤ 2 ^ 32;
  (** metric names are interned *)
  wf_named d : d ∈ reg_defs r → 0 ≤ md_name d < Z.of_nat (length (in_vec (reg_interner r)));
  wf_cells : Forall cell_range (reg_heap r);
  (** exactly the defined metrics have a series map *)
  wf_storage id :
    is_Some (reg_storage r !! id) ↔ 0 ≤ id ∧ is_Some (reg_defs r !! Z.to_nat id);
  (** a series has the kind of its metric, and its cell has that type *)
  wf_series id tags s :
    storage_at r id tags = Some s →
    cell_typed (reg_heap r) s ∧
    ∃ d, reg_defs r !! Z.to_nat id = Some d ∧ storage_kind s = md_kind d;
  (** no two series share a cell *)
  wf_disjoint id tags s id' tags' s' :
    storage_at r id tags = Some s → storage_at r id' tags' = Some s' →
    MetricStorage.location s = MetricStorage.location s' → id = id' ∧ tags = tags' }.

Lemma empty_registry_wf : registry_wf empty_registry.
Proof.
  split; simpl; try done.
  - apply new_wf.
  - constructor.
  - intros d Hd. set_solver.
  - intros id. rewrite lookup_empty, lookup_nil.
    split; [intros [? ?]; done|intros [_ [? ?]]; done].
Qed.

Lemma cell_typed_lt h s : cell_typed h s → (MetricStorage.location s < length h)%nat.
Proof.
  destruct s; simpl; [intros [v Hc]|intros [v Hc]|intros (v & x & Hc)|intros [v Hc]];
    by eapply lookup_lt_Some.
Qed.

Lemma series_lt r id tags s :
  registry_wf r → storage_at r id tags = Some s →
  (MetricStorage.location s < length (reg_heap r))%nat.
Proof. intros Hwf Hs. apply cell_typed_lt. by apply (wf_series _ Hwf _ _ _ Hs). Qed.

Lemma with_interner_wf r i :
  registry_wf r → interner_wf i → extends (reg_interner r) i → registry_wf (with_interner r i).
Proof.
  intros [? ? ? Hn ? ? ? ?] Hi He. split; try done. simpl. intros d Hd.
  destruct (Hn d Hd) as [H1 H2]. apply prefix_length in He. lia.
Qed.

(** An update of a cell keeps its type and range. *)
Definition keeps_type (f : Cell → Cell) : Prop :=
  ∀ c, (cell_range c → cell_range (f c)) ∧
    match c, f c with
    | CCounter _, CCounter _ | CGauge _, CGauge _ | CRate _ _, CRate _ _ | CHist _, CHist _ => True
    | _, _ => False
    end.

Lemma update_cell_typed a f h s : keeps_type f → cell_typed h s → cell_typed (update_cell a f h) s.
Proof.
  intros Hf. assert (∀ b c, h !! b = Some c →
    ∃ c', update_cell a f h !! b = Some c' ∧ (c' = c ∨ c' = f c)) as Hc.
  { intros b c Hb. rewrite lookup_update_cell, Hb. case_decide; simpl; eauto. }
  destruct s as [b|b|b|b]; simpl; [intros [v Hb]|intros [v Hb]|intros (v & x & Hb)|intros [v Hb]];
    destruct (Hc _ _ Hb) as (c' & -> & [-> | ->]); eauto;
    match goal with |- context [f ?c] => destruct (Hf c) as [_ Ht]; destruct (f c) end; eauto; done.
Qed.

Lemma update_cell_wf r a f :
  registry_wf r → keeps_type f → registry_wf (with_heap r (update_cell a f (reg_heap r))).
Proof.
  intros [? ? ? ? Hc ? Hs Hd] Hf. split; try done; simpl.
  - apply Forall_alter; [done|]. intros c _ Hr. by apply Hf.
  - intros id tags s Hst. destruct (Hs id tags s Hst) as [Ht Hk]. split; [|done].
    by apply update_cell_typed.
Qed.

Lemma counter_fetch_add_keeps n : keeps_type (counter_fetch_add n).
Proof. intros []; simpl; (split; [|done]); eauto with wrkr. Qed.
Lemma rate_add_keeps x t : keeps_type (rate_add x t).
Proof. intros []; simpl; (split; [|done]); [eauto..|intros _; unfold u64_wrap_add; auto with wrkr|done]. Qed.
Lemma hist_observe_keeps v : keeps_type (hist_observe v).
Proof. intros []; simpl; (split; [|done]); eauto with wrkr. Qed.
Lemma gauge_fetch_add_keeps v : keeps_type (gauge_fetch_add v).
Proof. intros []; simpl; (split; [|done]); eauto with wrkr. Qed.

(** ** Registration *)

(** The definition a name stands for. *)
Definition def_of (name : string) (r : Registry) : option (nat * MetricDef) :=
  id ← in_map (reg_interner r) !! name; find_def (reg_defs r) id.

Definition id_kind (p : nat * MetricDef) : MetricId * MetricKind.t :=
  (as_u32 (Z.of_nat p.1), md_kind p.2).

Lemma find_def_fresh r id :
  registry_wf r → Z.of_nat (length (in_vec (reg_interner r))) ≤ id →
  find_def (reg_defs r) id = None.
Proof.
  intros Hwf Hid. unfold find_def. apply list_find_None. apply Forall_forall. intros d Hd.
  pose proof (wf_named _ Hwf d Hd). lia.
Qed.

Lemma get_or_intern_find name r :
  registry_wf r → has_room (reg_interner r) →
  find_def (reg_defs r) (get_or_intern name (reg_interner r)).1 = def_of name r.
Proof.
  intros Hwf Hroom. unfold get_or_intern, intern_read, intern_write, def_of.
  destruct (in_map (reg_interner r) !! name) as [id|]; simpl; [done|].
  rewrite as_u32_small by (unfold has_room in Hroom; ints_lia). by apply find_def_fresh.
Qed.

Lemma lookup_metric_eq name r :
  registry_wf r → has_room (reg_interner r) →
  (lookup_metric name r).1 = id_kind <$> def_of name r.
Proof.
  intros Hwf Hroom. rewrite <- get_or_intern_find by done. unfold lookup_metric.
  by destruct (get_or_intern name (reg_interner r)).
Qed.

Lemma find_def_Some defs id i d :
  find_def defs id = Some (i, d) → defs !! i = Some d ∧ md_name d = id.
Proof. intros H1. unfold find_def in H1. apply list_find_Some in H1. tauto. Qed.

Lemma find_def_lookup defs id i d :
  NoDup (md_name <$> defs) → defs !! i = Some d → md_name d = id →
  find_def defs id = Some (i, d).
Proof.
  intros Hnd Hd Hid. apply list_find_Some. split_and!; [done|done|].
  intros j y Hj Hlt Hy. assert (i = j); [|lia].
  apply (NoDup_lookup _ i j id Hnd); rewrite list_lookup_fmap; [rewrite Hd|rewrite Hj];
    simpl; congruence.
Qed.

(** [register], seen through the names. *)
Lemma register_spec name kind r :
  registry_wf r → has_room (reg_interner r) → Z.of_nat (length (reg_defs r)) < 2 ^ 32 →
  let '(id, r1) := register name kind r in
  registry_wf r1 ∧ extends (reg_interner r) (reg_interner r1) ∧ reg_heap r1 = reg_heap r ∧
  is_Some (in_map (reg_interner r1) !! name) ∧
  reg_defs r `prefix_of` reg_defs r1 ∧
  (∃ d, reg_defs r1 !! Z.to_nat id = Some d ∧ in_map (reg_interner r1) !! name = Some (md_name d) ∧
     0 ≤ id < 2 ^ 32 ∧
     md_kind d = match def_of name r with Some p => md_kind p.2 | None => kind end) ∧
  (∀ id' tags, storage_at r1 id' tags = storage_at r id' tags) ∧
  (∀ i d, reg_defs r1 !! i = Some d →
     reg_defs r !! i = Some d ∨ in_map (reg_interner r1) !! name = Some (md_name d)).
Proof.
  intros Hwf Hroom Hlen. pose proof (get_or_intern_find name r Hwf Hroom) as Hfind.
  pose proof (get_or_intern_spec name _ (wf_interner _ Hwf) Hroom) as Hi. unfold register.
  destruct (get_or_intern name (reg_interner r)) as [nid i]; simpl in Hfind.
  destruct Hi as (Hi & He & Hm & Hn). rewrite Hfind.
  pose proof (with_interner_wf r i Hwf Hi He) as Hwf1.
  destruct (def_of name r) as [[idx d]|] eqn:Hdef.
  - apply find_def_Some in Hfind as [Hd Hdn].
    assert (Z.of_nat idx < 2 ^ 32) as Hidx.
    { apply lookup_lt_Some in Hd. lia. }
    rewrite as_u32_small by ints_lia. split_and!; try done; [|by left].
    exists d. rewrite Nat2Z.id; simpl. split_and!; [done|congruence|lia|done|done].
  - rewrite as_u32_small by ints_lia. set (n := Z.of_nat (length (reg_defs r))) in *.
    assert (reg_storage r !! n = None) as Hnone.
    { destruct (reg_storage r !! n) eqn:E; [|done].
      destruct (proj1 (wf_storage _ Hwf n)) as [_ Hs]; [by eexists|].
      apply lookup_lt_is_Some in Hs. unfold n in Hs. lia. }
    assert (∀ id' tags, storage_at (mkRegistry i (reg_defs r ++ [mkMetricDef nid kind])
      (<[n := ∅]> (reg_storage r)) (reg_heap r)) id' tags = storage_at r id' tags) as Hst.
    { intros id' tags. unfold storage_at; simpl. destruct (decide (n = id')) as [<-|].
      - rewrite lookup_insert_eq, Hnone. simpl. apply lookup_empty.
      - by rewrite lookup_insert_ne. }
    pose proof Hwf as [H1 H2 H3 H4 H5 H6 H7 H8].
    split_and!; simpl; try done.
    + split; simpl; try done.
      * rewrite fmap_app. apply NoDup_app. split_and!; [done| |apply NoDup_singleton].
        intros x Hx Hx2. simpl in Hx2. apply list_elem_of_singleton in Hx2 as ->.
        apply list_elem_of_fmap in Hx as (d & -> & Hd).
        apply list_find_None in Hfind. by eapply Forall_forall in Hfind.
      * rewrite length_app. simpl. unfold n in Hlen. lia.
      * intros d [Hd | ->%list_elem_of_singleton]%elem_of_app.
        -- pose proof (wf_named _ Hwf1 d Hd). done.
        -- simpl. pose proof (proj1 (wf_map _ Hi name nid) Hm) as [? Hv].
           apply lookup_lt_Some in Hv. lia.
      * intros id. destruct (decide (n = id)) as [<-|Hne].
        -- rewrite lookup_insert_eq. split; [|by eexists]. intros _. split; [lia|].
           unfold n. rewrite Nat2Z.id, list_lookup_middle by done. by eexists.
        -- rewrite lookup_insert_ne, H6 by done. rewrite !lookup_lt_is_Some, length_app. simpl.
           unfold n in *. lia.
      * intros id tags s Hs. rewrite Hst in Hs. destruct (H7 _ _ _ Hs) as (Ht & d & Hd & Hk).
        split; [done|]. exists d. split; [|done]. by apply lookup_app_l_Some.
      * intros id tags s id' tags' s' Hs Hs'. rewrite Hst in Hs, Hs'. by eapply H8.
    + by exists [mkMetricDef nid kind].
    + exists (mkMetricDef nid kind). unfold n at 1. rewrite Nat2Z.id, list_lookup_middle by done.
      split_and!; [done|done|lia|lia|done].
    + intros j d' [Hd'|[_ Hd']]%lookup_app_Some; [by left|].
      apply list_lookup_singleton_Some in Hd' as [_ <-]. by right.
Qed.

Lemma in_map_resolve i s id : interner_wf i → in_map i !! s = Some id ↔ 0 ≤ id ∧ resolve id i = Some s.
Proof. intros Hi. apply (wf_map _ Hi). Qed.

Lemma def_of_Some name r i d :
  registry_wf r →
  def_of name r = Some (i, d) ↔
  reg_defs r !! i = Some d ∧ resolve (md_name d) (reg_interner r) = Some name.
Proof.
  intros Hwf. pose proof (wf_interner _ Hwf) as Hi. unfold def_of. split.
  - intros (id & Hid & [Hd <-]%find_def_Some)%bind_Some. split; [done|].
    by apply in_map_resolve in Hid as [_ ?].
  - intros [Hd Hr]. pose proof (wf_named _ Hwf d ltac:(by eapply list_elem_of_lookup_2)).
    assert (in_map (reg_interner r) !! name = Some (md_name d)) as Hm.
    { apply in_map_resolve; [done|]. split; [lia|done]. }
    rewrite Hm. simpl. by apply find_def_lookup; [apply wf_names| |].
Qed.

(** ** Handles *)
Definition handle_location (h : MetricHandle.t) : loc :=
  match h with
  | MetricHandle.Counter a | MetricHandle.Gauge a | MetricHandle.Rate a
  | MetricHandle.Histogram a => a
  end.

Lemma storage_at_insert r metric tags s h id' tags' sm :
  reg_storage r !! metric = Some sm →
  storage_at (mkRegistry (reg_interner r) (reg_defs r)
    (alter (λ series_map, <[tags := s]> series_map) metric (reg_storage r)) h) id' tags' =
  if decide ((metric, tags) = (id', tags')) then Some s else storage_at r id' tags'.
Proof.
  intros Hsm. unfold storage_at; simpl. destruct (decide (metric = id')) as [<-|Hne].
  - rewrite lookup_alter_eq, Hsm. simpl. case_decide as E.
    + simplify_eq. by rewrite lookup_insert_eq.
    + rewrite lookup_insert_ne by congruence. done.
  - rewrite lookup_alter_ne by done. case_decide; [congruence|done].
Qed.

Lemma cell_range_new kind h s h' :
  storage_new kind h = (s, h') → Forall cell_range h → Forall cell_range h'.
Proof.
  unfold storage_new. destruct kind; intros [= <- <-] Hh; apply Forall_app; split; try done;
    apply Forall_singleton; simpl; ints_lia.
Qed.

(** The insertion phase keeps the invariant, whether or not the entry was there. *)
Lemma get_handle_insert_spec metric tags kind r :
  registry_wf r → (∃ d, reg_defs r !! Z.to_nat metric = Some d ∧ md_kind d = kind) →
  is_Some (reg_storage r !! metric) →
  let '(h, r1) := get_handle_insert metric tags kind r in
  registry_wf r1 ∧
  (∃ s, h = storage_to_handle s ∧ storage_kind s = kind ∧
    MetricStorage.location s = length (reg_heap r) ∧
    (∀ id' tags', storage_at r1 id' tags' =
       if decide ((metric, tags) = (id', tags')) then Some s else storage_at r id' tags') ∧
    (∃ c, reg_heap r1 = reg_heap r ++ [c] ∧ fresh_cell c) ∧
    reg_storage r1 = alter (λ sm, <[tags := s]> sm) metric (reg_storage r)) ∧
  reg_defs r1 = reg_defs r ∧ reg_interner r1 = reg_interner r.
Proof.
  intros Hwf (d & Hd & Hk) [sm Hsm]. unfold get_handle_insert.
  destruct (storage_new kind (reg_heap r)) as [s h] eqn:Hnew.
  pose proof (cell_range_new _ _ _ _ Hnew (wf_cells _ Hwf)) as Hr.
  apply storage_new_spec in Hnew as (Hsk & Hloc & Ht & c & -> & Hfresh).
  assert (∀ id' tags', storage_at (mkRegistry (reg_interner r) (reg_defs r)
    (alter (λ series_map, <[tags := s]> series_map) metric (reg_storage r))
    (reg_heap r ++ [c])) id' tags' =
    if decide ((metric, tags) = (id', tags')) then Some s else storage_at r id' tags') as Hst.
  { intros. by eapply storage_at_insert. }
  split_and!; try done; [|by exists s; split_and!; try done; exists c].
  pose proof Hwf as [H1 H2 H3 H4 H5 H6 H7 H8]. split; simpl; try done.
  - intros id. destruct (decide (metric = id)) as [<-|].
    + rewrite lookup_alter_eq, Hsm. rewrite <- H6, Hsm. split; intros; by eexists.
    + by rewrite lookup_alter_ne.
  - intros id tags' s' Hs'. rewrite Hst in Hs'. case_decide as E; simplify_eq.
    + split; [done|]. by exists d.
    + destruct (H7 _ _ _ Hs') as [Hty ?]. split; [|done]. by apply cell_typed_app.
  - intros id1 t1 s1 id2 t2 s2 E1 E2 El. rewrite Hst in E1, E2.
    destruct (decide ((metric, tags) = (id1, t1))) as [C1|C1];
      destruct (decide ((metric, tags) = (id2, t2))) as [C2|C2].
    + split; congruence.
    + apply series_lt in E2; [|done]. simplify_eq. lia.
    + apply series_lt in E1; [|done]. simplify_eq. lia.
    + by eapply H8.
Qed.

Lemma get_handle_spec metric tags r :
  registry_wf r →
  let '(o, r1) := get_handle metric tags r in
  registry_wf r1 ∧ reg_defs r1 = reg_defs r ∧ reg_interner r1 = reg_interner r ∧
  match o with
  | None => r1 = r ∧ reg_storage r !! metric = None
  | Some h => ∃ s, storage_at r1 metric tags = Some s ∧ h = storage_to_handle s ∧
      (∀ id' tags', (id', tags') ≠ (metric, tags) →
         storage_at r1 id' tags' = storage_at r id' tags') ∧
      (r1 = r ∨ storage_at r metric tags = None ∧
         (∃ c, reg_heap r1 = reg_heap r ++ [c] ∧ fresh_cell c) ∧
         MetricStorage.location s = length (reg_heap r) ∧
         reg_storage r1 = alter (λ sm, <[tags := s]> sm) metric (reg_storage r))
  end.
Proof.
  intros Hwf. unfold get_handle, get_handle_read.
  destruct (reg_storage r !! metric) as [sm|] eqn:Hsm; simpl; [|done].
  destruct (sm !! tags) as [s|] eqn:Hs; simpl.
  - split_and!; try done. exists s. unfold storage_at. rewrite Hsm. simpl.
    split_and!; [done|done|done|by left].
  - destruct (proj1 (wf_storage _ Hwf metric)) as [_ [d Hd]]; [by eexists|]. rewrite Hd. simpl.
    pose proof (get_handle_insert_spec metric tags (md_kind d) r Hwf
      ltac:(by exists d) ltac:(by eexists)) as Hi.
    destruct (get_handle_insert metric tags (md_kind d) r) as [h r1].
    destruct Hi as (Hwf1 & (s & -> & Hsk & Hloc & Hst & Hheap & Hstg) & Hdefs & Hint).
    split_and!; try done. exists s. rewrite Hst. rewrite decide_True by done.
    split_and!; [done|done| |].
    + intros id' tags' Hne. rewrite Hst. rewrite decide_False by congruence. done.
    + right. split_and!; try done. unfold storage_at. by rewrite Hsm.
Qed.

(** ** Sums over the series of a metric *)

(** What a series contributes, read from its cell. *)
Definition cell_val (val : Cell → Z) (h : list Cell) (s : MetricStorage.t) : Z :=
  match h !! MetricStorage.location s with Some c => val c | None => 0 end.

Definition series_val (val : Cell → Z) (pred : TagSet → bool) (h : list Cell)
    (p : TagSet * MetricStorage.t) : Z :=
  if pred p.1 then cell_val val h p.2 else 0.

Definition metric_sum (val : Cell → Z) (pred : TagSet → bool) (metric : MetricId)
    (r : Registry) : Z :=
  sumf (series_val val pred (reg_heap r)) (map_to_list (default ∅ (reg_storage r !! metric))).

Definition count_of (c : Cell) : Z := match c with CCounter v => v | _ => 0 end.
Definition total_of (c : Cell) : Z := match c with CRate t _ => t | _ => 0 end.
Definition hits_of (c : Cell) : Z := match c with CRate _ x => x | _ => 0 end.
Definition len_of (c : Cell) : Z := match c with CHist x => hist_len x | _ => 0 end.

Lemma series_storage_at r metric p :
  p ∈ series metric r → storage_at r metric p.1 = Some p.2.
Proof.
  unfold series, storage_at. destruct p as [t s]. destruct (reg_storage r !! metric); simpl.
  - by rewrite elem_of_map_iter.
  - set_solver.
Qed.

Lemma storage_at_series r metric t s :
  storage_at r metric t = Some s → (t, s) ∈ series metric r.
Proof.
  unfold series, storage_at. destruct (reg_storage r !! metric); simpl; [|done].
  by rewrite elem_of_map_iter.
Qed.

Lemma metric_sum_series val pred metric r :
  sumf (series_val val pred (reg_heap r)) (series metric r) = metric_sum val pred metric r.
Proof.
  unfold series, metric_sum. destruct (reg_storage r !! metric); simpl; [|by rewrite map_to_list_empty].
  by rewrite map_iter_perm.
Qed.

(** A cell of the heap contributes a value of its range. *)
Definition val_ok (val : Cell → Z) : Prop := ∀ c, cell_range c → in_u64 (val c).

Lemma cell_val_range val r s :
  registry_wf r → val_ok val → in_u64 (cell_val val (reg_heap r) s).
Proof.
  intros Hwf Hv. unfold cell_val. destruct (_ !! _) as [c|] eqn:Hc; [|ints_lia].
  apply Hv. by eapply Forall_lookup_1; [apply wf_cells|].
Qed.

Lemma metric_sum_nonneg val pred metric r :
  registry_wf r → val_ok val → 0 ≤ metric_sum val pred metric r.
Proof.
  intros Hwf Hv. apply sumf_nonneg. intros p _. unfold series_val.
  pose proof (cell_val_range val r p.2 Hwf Hv) as Hr. destruct (pred p.1); ints_lia.
Qed.

Lemma metric_sum_all_ge val pred metric r :
  registry_wf r → val_ok val → metric_sum val pred metric r ≤ metric_sum val (λ _, true) metric r.
Proof.
  intros Hwf Hv. apply sumf_le. intros p _. unfold series_val.
  pose proof (cell_val_range val r p.2 Hwf Hv) as Hr. destruct (pred p.1); ints_lia.
Qed.

(** Splitting off one series. *)
Lemma metric_sum_split val pred metric r tags s sm :
  reg_storage r !! metric = Some sm → sm !! tags = Some s →
  metric_sum val pred metric r =
    series_val val pred (reg_heap r) (tags, s) +
    sumf (series_val val pred (reg_heap r)) (map_to_list (delete tags sm)).
Proof.
  intros Hsm Hs. unfold metric_sum. rewrite Hsm. simpl.
  rewrite <- (insert_delete_id sm tags s Hs) at 1.
  rewrite map_to_list_insert by apply lookup_delete_eq. apply sumf_cons.
Qed.

Lemma storage_at_Some r metric tags s :
  storage_at r metric tags = Some s ↔ ∃ sm, reg_storage r !! metric = Some sm ∧ sm !! tags = Some s.
Proof. unfold storage_at. by rewrite bind_Some. Qed.

(** The other series of the metric are not touched by writes to this cell. *)
Lemma metric_sum_rest_update val pred metric r tags s sm f :
  registry_wf r → reg_storage r !! metric = Some sm → sm !! tags = Some s →
  sumf (series_val val pred (update_cell (MetricStorage.location s) f (reg_heap r)))
    (map_to_list (delete tags sm)) =
  sumf (series_val val pred (reg_heap r)) (map_to_list (delete tags sm)).
Proof.
  intros Hwf Hsm Hs. apply sumf_ext. intros [t x] [Hne Hx]%elem_of_map_to_list%lookup_delete_Some.
  unfold series_val, cell_val. simpl. destruct (pred t); [|done].
  rewrite lookup_update_cell, decide_False; [done|]. intros El.
  destruct (wf_disjoint _ Hwf metric tags s metric t x) as [_ Ht]; try apply storage_at_Some; eauto.
Qed.

Lemma metric_sum_update val pred metric r tags s f c :
  registry_wf r → storage_at r metric tags = Some s →
  reg_heap r !! MetricStorage.location s = Some c →
  metric_sum val pred metric (with_heap r (update_cell (MetricStorage.location s) f (reg_heap r))) =
  metric_sum val pred metric r + (if pred tags then val (f c) - val c else 0).
Proof.
  intros Hwf (sm & Hsm & Hs)%storage_at_Some Hc.
  rewrite (metric_sum_split val pred metric r tags s sm Hsm Hs).
  rewrite (metric_sum_split val pred metric (with_heap r _) tags s sm Hsm Hs). simpl.
  rewrite (metric_sum_rest_update _ _ metric) by done.
  unfold series_val at 1 3, cell_val at 1 2. simpl.
  rewrite lookup_update_cell, decide_True, Hc by done. simpl. destruct (pred tags); lia.
Qed.

(** Cells allocated later do not matter. *)
Lemma sumf_series_app val pred r h metric :
  registry_wf r →
  sumf (series_val val pred (reg_heap r ++ h)) (map_to_list (default ∅ (reg_storage r !! metric))) =
  metric_sum val pred metric r.
Proof.
  intros Hwf. apply sumf_ext. intros [t x] Hx%elem_of_map_to_list.
  unfold series_val, cell_val. simpl. destruct (pred t); [|done].
  assert (MetricStorage.location x < length (reg_heap r))%nat as Hlt.
  { eapply (series_lt _ metric t); [done|]. unfold storage_at.
    destruct (reg_storage r !! metric); [done|]. simpl in Hx. by rewrite lookup_empty in Hx. }
  by rewrite lookup_app_l.
Qed.

(** A fresh cell contributes nothing. *)
Definition val_zero (val : Cell → Z) : Prop := ∀ c, fresh_cell c → val c = 0.

(** Replacing the entry of [tags] by a fresh series. *)
Lemma metric_sum_fresh val pred metric r r1 tags s c sm :
  registry_wf r → reg_storage r !! metric = Some sm →
  reg_heap r1 = reg_heap r ++ [c] → fresh_cell c → val_zero val →
  MetricStorage.location s = length (reg_heap r) →
  reg_storage r1 = alter (λ sm, <[tags := s]> sm) metric (reg_storage r) →
  metric_sum val pred metric r1 =
  metric_sum val pred metric r -
    match sm !! tags with Some s0 => series_val val pred (reg_heap r) (tags, s0) | None => 0 end.
Proof.
  intros Hwf Hsm Hh Hc Hz Hloc Hst.
  assert (reg_storage r1 !! metric = Some (<[tags := s]> sm)) as Hsm1.
  { by rewrite Hst, lookup_alter_eq, Hsm. }
  rewrite (metric_sum_split val pred metric r1 tags s _ Hsm1) by apply lookup_insert_eq.
  rewrite delete_insert_eq, Hh.
  assert (series_val val pred (reg_heap r ++ [c]) (tags, s) = 0) as ->.
  { unfold series_val, cell_val. simpl. rewrite Hloc, list_lookup_middle by done.
    rewrite (Hz c Hc). by destruct (pred tags). }
  assert (sumf (series_val val pred (reg_heap r ++ [c])) (map_to_list (delete tags sm)) =
          sumf (series_val val pred (reg_heap r)) (map_to_list (delete tags sm))) as ->.
  { apply sumf_ext. intros [t x] [Hne Hx]%elem_of_map_to_list%lookup_delete_Some.
    unfold series_val, cell_val. simpl. destruct (pred t); [|done].
    rewrite lookup_app_l; [done|]. eapply (series_lt _ metric t); [done|].
    apply storage_at_Some; eauto. }
  destruct (sm !! tags) as [s0|] eqn:Hs0.
  - rewrite (metric_sum_split val pred metric r tags s0 sm Hsm Hs0). lia.
  - unfold metric_sum. rewrite Hsm. simpl. rewrite delete_id by done. lia.
Qed.

Lemma get_handle_sum val pred metric tags r :
  registry_wf r → val_zero val →
  metric_sum val pred metric (get_handle metric tags r).2 = metric_sum val pred metric r.
Proof.
  intros Hwf Hz. pose proof (get_handle_spec metric tags r Hwf) as Hg.
  destruct (get_handle metric tags r) as [[h|] r1]; simpl; destruct Hg as (Hwf1 & _ & _ & Hg).
  - destruct Hg as (s & Hs & _ & _ & [->|(Hnone & (c & Hh & Hc) & Hloc & Hst)]); [done|].
    destruct (reg_storage r !! metric) as [sm|] eqn:Hsm.
    + rewrite (metric_sum_fresh val pred metric r r1 tags s c sm) by done.
      unfold storage_at in Hnone. rewrite Hsm in Hnone. simpl in Hnone. rewrite Hnone. lia.
    + apply storage_at_Some in Hs as (sm & Hsm1 & _). rewrite Hst, lookup_alter_eq, Hsm in Hsm1. done.
  - destruct Hg as [-> _]. done.
Qed.

(** ** The folds compute saturated sums *)
Lemma count_of_ok : val_ok count_of.
Proof. intros []; simpl; ints_lia. Qed.
Lemma total_of_ok : val_ok total_of.
Proof. intros []; simpl; ints_lia. Qed.
Lemma hits_of_ok : val_ok hits_of.
Proof. intros []; simpl; ints_lia. Qed.
Lemma len_of_ok : HistLaws H → val_ok len_of.
Proof. intros HL []; simpl; try ints_lia. intros _. apply hist_len_range. Qed.
Lemma count_of_zero : val_zero count_of.
Proof. by intros []. Qed.
Lemma total_of_zero : val_zero total_of.
Proof. intros []; simpl; tauto. Qed.
Lemma hits_of_zero : val_zero hits_of.
Proof. intros []; simpl; tauto. Qed.
Lemma len_of_zero : HistLaws H → val_zero len_of.
Proof. intros HL []; simpl; try done. intros ->. apply hist_len_new. Qed.

(** A visit loop whose step adds a series' value computes the sum. *)
Lemma visit_series_sum {St} (get : St → Z) (visit : St → TagSet → MetricStorage.t → St)
    val pred metric r s :
  registry_wf r → val_ok val → get s = 0 →
  (∀ st tags x, cell_typed (reg_heap r) x → in_u64 (get st) →
     get (visit st tags x) = u64_sat_add (get st) (series_val val pred (reg_heap r) (tags, x))) →
  get (visit_series metric r visit s) = Z.min u64_max (metric_sum val pred metric r).
Proof.
  intros Hwf Hv Hs Hstep. unfold visit_series. rewrite <- metric_sum_series.
  rewrite (foldl_sat get _ (series_val val pred (reg_heap r))).
  - f_equal. lia.
  - intros st [t x] Hx Hst. simpl. apply Hstep; [|done].
    apply series_storage_at in Hx. simpl in Hx. by apply (wf_series _ Hwf _ _ _ Hx).
  - ints_lia.
  - intros [t x] Hx. unfold series_val. simpl.
    pose proof (cell_val_range val r x Hwf Hv). destruct (pred t); ints_lia.
Qed.

Lemma sat_add_0 z : in_u64 z → z = u64_sat_add z 0.
Proof. ints_lia. Qed.

Lemma fold_counter_sum_spec metric pred r :
  registry_wf r →
  fold_counter_sum metric pred r = Z.min u64_max (metric_sum count_of pred metric r).
Proof.
  intros Hwf. unfold fold_counter_sum.
  apply (visit_series_sum (λ z, z)); [done|apply count_of_ok|done|].
  intros st tags x Hx Hst. unfold series_val, cell_val. simpl.
  destruct (pred tags); simpl; [|by apply sat_add_0].
  destruct x as [a|a|a|a]; simpl in Hx |- *; [|destruct Hx as [v ->]; by apply sat_add_0
    |destruct Hx as (t & x & ->); by apply sat_add_0|destruct Hx as [v ->]; by apply sat_add_0].
  destruct Hx as [v Hv]. unfold load_counter. by rewrite Hv.
Qed.

Lemma fold_rate_sum_spec metric pred r :
  registry_wf r →
  (fold_rate_sum metric pred r).1 =
    (Z.min u64_max (metric_sum total_of pred metric r),
     Z.min u64_max (metric_sum hits_of pred metric r)).
Proof.
  intros Hwf. unfold fold_rate_sum. set (visit := λ '(total, hits) tags storage, _).
  assert (∀ val (get : Z * Z → Z), val_ok val → get (0, 0) = 0 →
    (∀ st c t x, get st = get (st.1, st.2) ∧
      (∀ a b, val (CRate a b) = get (a, b)) ∧
      get (u64_sat_add st.1 t, u64_sat_add st.2 x) = u64_sat_add (get st) (get (t, x)) ∧
      match c with CRate _ _ => True | _ => val c = 0 end) →
    get (visit_series metric r visit (0, 0)) = Z.min u64_max (metric_sum val pred metric r)) as Hall.
  { intros val get Hv H0 Hg. apply visit_series_sum; [done..|].
    intros [total hits] tags y Hy Hst. unfold series_val, cell_val, visit. simpl.
    destruct (pred tags); simpl; [|by apply sat_add_0].
    destruct y as [a|a|a|a]; simpl in Hy |- *.
    - destruct Hy as [v ->]. destruct (Hg (0, 0) (CCounter v) 0 0) as (_ & _ & _ & ->).
      by apply sat_add_0.
    - destruct Hy as [v ->]. destruct (Hg (0, 0) (CGauge v) 0 0) as (_ & _ & _ & ->).
      by apply sat_add_0.
    - destruct Hy as (t & x & Hy). unfold load_rate. rewrite Hy.
      destruct (Hg (total, hits) (CRate t x) t x) as (_ & Hval & Hadd & _).
      rewrite Hval. exact Hadd.
    - destruct Hy as [v ->]. destruct (Hg (0, 0) (CHist v) 0 0) as (_ & _ & _ & ->).
      by apply sat_add_0. }
  pose proof (Hall total_of fst total_of_ok eq_refl) as H1.
  pose proof (Hall hits_of snd hits_of_ok eq_refl) as H2.
  destruct (visit_series metric r visit (0, 0)) as [total hits] eqn:E. simpl in *.
  rewrite <- H1, <- H2; [done|..]; intros [] [] ? ?; done.
Qed.

Lemma fold_rate_sum_rate metric pred r :
  fold_rate_sum metric pred r =
  ((fold_rate_sum metric pred r).1,
   rate_of (fold_rate_sum metric pred r).1.1 (fold_rate_sum metric pred r).1.2).
Proof. unfold fold_rate_sum. by destruct (visit_series _ _ _ _). Qed.

(** A summary is returned when a histogram series is selected. *)
Lemma fold_histogram_any metric pred r :
  is_Some (fold_histogram_summary metric pred r) ↔
  ∃ tags a, storage_at r metric tags = Some (MetricStorage.Histogram a) ∧ pred tags.
Proof.
  unfold fold_histogram_summary.
  match goal with |- context [visit_series _ _ ?v _] => set (visit := v) end. unfold visit_series.
  assert (∀ l st, (foldl (λ s p, visit s p.1 p.2) st l).2 ↔
    st.2 ∨ ∃ tags a, (tags, MetricStorage.Histogram a) ∈ l ∧ pred tags) as Hf.
  { assert (∀ st t x, (visit st t x).2 ↔ st.2 ∨ (pred t ∧ ∃ a, x = MetricStorage.Histogram a)) as Hv.
    { intros [acc any] t x. unfold visit. destruct (pred t); simpl; [destruct x; simpl|];
        naive_solver. }
    intros l. induction l as [|[t x] l IH]; intros st; simpl.
    - split; [by left|]. intros [?|(t & a & Hin & _)]; [done|set_solver].
    - rewrite IH, Hv. split.
      + intros [[?|(? & a & ->)]|(t' & a & Hin & Hp)]; [by left|right|right].
        * exists t, a. split; [left|done].
        * exists t', a. split; [by right|done].
      + intros [?|(t' & a & [[= -> <-]|Hin]%elem_of_cons & Hp)]; eauto 8. }
  specialize (Hf (series metric r) (new_default_histogram, false)).
  assert (is_Some (let '(acc, any) := foldl (λ s p, visit s p.1 p.2)
    (new_default_histogram, false) (series metric r) in
    if any : bool then Some (summarize_histogram acc) else None) ↔
    (foldl (λ s p, visit s p.1 p.2) (new_default_histogram, false) (series metric r)).2) as ->.
  { destruct (foldl _ _ _) as [acc b]. simpl. destruct b; split; intros Hb; done. }
  rewrite Hf. simpl. split.
  - intros [[]|(t & a & Hin & Hp)]. exists t, a. split; [|done].
    by apply series_storage_at in Hin.
  - intros (t & a & Hs & Hp). right. exists t, a. split; [by apply storage_at_series|done].
Qed.

Lemma fold_histogram_count metric pred r :
  registry_wf r → HistLaws H →
  match fold_histogram_summary metric pred r with
  | Some s => hs_count s = Z.min u64_max (metric_sum len_of pred metric r)
  | None => metric_sum len_of pred metric r = 0
  end.
Proof.
  intros Hwf HL. unfold fold_histogram_summary. set (visit := λ '(acc, any) tags storage, _).
  pose proof (visit_series_sum (λ st : hist * bool, hist_len st.1) visit len_of pred metric r
    (new_default_histogram, false) Hwf (len_of_ok HL) hist_len_new) as Hsum.
  assert (∀ l st, ¬ (foldl (λ s p, visit s p.1 p.2) st l).2 → (foldl (λ s p, visit s p.1 p.2) st l) = st) as Hany.
  { intros l. induction l as [|[t x] l IH]; intros [acc any]; simpl; [done|].
    destruct (pred t); simpl; [|apply IH]. destruct x as [a|a|a|a]; try apply IH.
    intros Hf. rewrite IH in Hf |- * by done. simpl in Hf. by destruct Hf. }
  assert (hist_len (visit_series metric r visit (new_default_histogram, false)).1 =
    Z.min u64_max (metric_sum len_of pred metric r)) as Hlen.
  { apply Hsum. intros [acc any] tags y Hy Hst. unfold series_val, cell_val, visit. simpl.
    destruct (pred tags); simpl; [|by apply sat_add_0].
    destruct y as [a|a|a|a]; simpl in Hy |- *; [destruct Hy as [v ->]; by apply sat_add_0
      |destruct Hy as [v ->]; by apply sat_add_0|destruct Hy as (t & x & ->); by apply sat_add_0|].
    destruct Hy as [v Hy]. unfold load_hist. rewrite Hy. apply hist_len_add. }
  specialize (Hany (series metric r) (new_default_histogram, false)). fold (visit_series metric r visit (new_default_histogram, false)) in Hany.
  destruct (visit_series metric r visit (new_default_histogram, false)) as [acc [|]]; simpl in *;
    [done|]. specialize (Hany ltac:(tauto)). simplify_eq.
  unfold new_default_histogram in Hlen. rewrite hist_len_new in Hlen.
  pose proof (metric_sum_nonneg len_of pred metric r Hwf (len_of_ok HL)). ints_lia.
Qed.

(** ** Recording *)

(** What a recorder does for one sample of a counter: get the series' handle,
    increment it. *)
Definition bump (metric : MetricId) (r : Registry) (op : TagSet * Z) : Registry :=
  match get_handle metric op.1 r with
  | (Some h, r) => with_heap r (increment h op.2 (reg_heap r))
  | (None, r) => r
  end.

Definition is_counter (metric : MetricId) (r : Registry) : Prop :=
  0 ≤ metric ∧ ∃ d, reg_defs r !! Z.to_nat metric = Some d ∧ md_kind d = MetricKind.Counter.

Lemma get_handle_counter metric tags r :
  registry_wf r → is_counter metric r →
  ∃ a v r1, get_handle metric tags r = (Some (MetricHandle.Counter a), r1) ∧
    registry_wf r1 ∧ is_counter metric r1 ∧
    storage_at r1 metric tags = Some (MetricStorage.Counter a) ∧
    reg_heap r1 !! a = Some (CCounter v).
Proof.
  intros Hwf (Hm & d & Hd & Hk). pose proof (get_handle_spec metric tags r Hwf) as Hg.
  destruct (get_handle metric tags r) as [[h|] r1]; destruct Hg as (Hwf1 & Hdefs & _ & Hg).
  - destruct Hg as (s & Hs & -> & _). destruct (wf_series _ Hwf1 _ _ _ Hs) as (Ht & d' & Hd' & Hsk).
    rewrite Hdefs in Hd'. simplify_eq. rewrite Hk in Hsk.
    destruct s as [a|a|a|a]; try done. destruct Ht as [v Hv]. exists a, v, r1.
    split_and!; try done. split; [done|]. exists d. by rewrite Hdefs. 
  - destruct Hg as [_ Hnone]. destruct (proj2 (wf_storage _ Hwf metric)) as [? Hsm]; [|congruence].
    split; [done|by eexists].
Qed.

Lemma bump_spec metric r op :
  registry_wf r → is_counter metric r → 0 ≤ op.2 →
  metric_sum count_of (λ _, true) metric r + op.2 ≤ u64_max →
  registry_wf (bump metric r op) ∧ is_counter metric (bump metric r op) ∧
  ∀ pred, metric_sum count_of pred metric (bump metric r op) =
    metric_sum count_of pred metric r + if pred op.1 then op.2 else 0.
Proof.
  intros Hwf Hc Hn Hmax. destruct op as [tags n]; simpl in *.
  pose proof (λ pred, get_handle_sum count_of pred metric tags r Hwf count_of_zero) as Hsum.
  destruct (get_handle_counter metric tags r Hwf Hc) as (a & v & r1 & Hg & Hwf1 & Hc1 & Hs & Hv).
  unfold bump. simpl. rewrite Hg in *. simpl in Hsum |- *.
  split_and!; [apply update_cell_wf; [done|apply counter_fetch_add_keeps]|done|].
  assert (v ≤ metric_sum count_of (λ _, true) metric r) as Hle.
  { rewrite <- (Hsum (λ _, true)), <- metric_sum_series.
    etrans; [|apply (sumf_elem_le _ _ (tags, MetricStorage.Counter a))].
    - unfold series_val, cell_val. simpl. by rewrite Hv.
    - intros [t x] _. unfold series_val. simpl. pose proof (cell_val_range count_of r1 x Hwf1 count_of_ok). ints_lia.
    - by apply storage_at_series. }
  assert (in_u64 v) as Hvr by (exact (Forall_lookup_1 _ _ _ _ (wf_cells _ Hwf1) Hv)).
  intros pred. pose proof (metric_sum_update count_of pred metric r1 tags
    (MetricStorage.Counter a) (counter_fetch_add n) (CCounter v) Hwf1 Hs Hv) as Hup.
  simpl in Hup. rewrite Hup, Hsum. f_equal. destruct (pred tags); [|done].
  unfold u64_wrap_add. rewrite as_u64_small by ints_lia. lia.
Qed.

(** Writing to a cell no series of the metric has. *)
Lemma metric_sum_detached val pred metric r a f :
  (∀ tags s, storage_at r metric tags = Some s → MetricStorage.location s ≠ a) →
  metric_sum val pred metric (with_heap r (update_cell a f (reg_heap r))) =
  metric_sum val pred metric r.
Proof.
  intros Hne. unfold metric_sum. simpl. apply sumf_ext. intros [t x] Hx%elem_of_map_to_list.
  unfold series_val, cell_val. simpl. destruct (pred t); [|done].
  rewrite lookup_update_cell, decide_False; [done|]. intros El. apply (Hne t x); [|done].
  unfold storage_at. destruct (reg_storage r !! metric); [done|]. simpl in Hx.
  by rewrite lookup_empty in Hx.
Qed.

(** The insertion phase for a counter. *)
Lemma insert_counter metric tags r :
  registry_wf r → is_counter metric r →
  let '(h, r1) := get_handle_insert metric tags MetricKind.Counter r in
  let a := length (reg_heap r) in
  h = MetricHandle.Counter a ∧ registry_wf r1 ∧ is_counter metric r1 ∧
  reg_heap r1 = reg_heap r ++ [CCounter 0] ∧
  (∀ id' tags', storage_at r1 id' tags' =
     if decide ((metric, tags) = (id', tags')) then Some (MetricStorage.Counter a)
     else storage_at r id' tags') ∧
  ∀ val pred, val_zero val →
    metric_sum val pred metric r1 = metric_sum val pred metric r -
      match storage_at r metric tags with
      | Some s0 => series_val val pred (reg_heap r) (tags, s0) | None => 0 end.
Proof.
  intros Hwf (Hm & d & Hd & Hk).
  assert (is_Some (reg_storage r !! metric)) as [sm Hsm].
  { apply (wf_storage _ Hwf metric). split; [done|by eexists]. }
  pose proof (get_handle_insert_spec metric tags MetricKind.Counter r Hwf
    ltac:(by exists d) ltac:(by eexists)) as Hi.
  destruct (get_handle_insert metric tags MetricKind.Counter r) as [h r1].
  destruct Hi as (Hwf1 & (s & -> & Hsk & Hloc & Hst & (c & Hheap & Hc) & Hstg) & Hdefs & _).
  destruct s as [a|a|a|a]; try done. simpl in Hloc. subst a.
  assert (storage_at r1 metric tags = Some (MetricStorage.Counter (length (reg_heap r)))) as Hs.
  { by rewrite Hst, decide_True. }
  destruct (wf_series _ Hwf1 _ _ _ Hs) as ([v Hv] & _).
  rewrite Hheap, list_lookup_middle in Hv by done. injection Hv as ->. simpl in Hc. subst v.
  split_and!; try done.
  - split; [done|]. exists d. by rewrite Hdefs.
  - intros val pred Hz.
    rewrite (metric_sum_fresh val pred metric r r1 tags (MetricStorage.Counter (length (reg_heap r)))
      (CCounter 0) sm) by done.
    unfold storage_at. by rewrite Hsm.
Qed.

(** ** Properties *)

(** Nothing recorded is lost or misattributed: after any sequence of
    recordings through [get_handle] and [increment], whatever the tag sets,
    new or known, the sum over the series a predicate selects has grown by
    exactly the recordings with such tags, as long as the total fits in 64
    bits. *)
Theorem fold_counter_counts metric ops pred r :
  registry_wf r → is_counter metric r → (∀ op, op ∈ ops → 0 ≤ op.2) →
  fold_counter_sum metric (λ _, true) r + sumf snd ops < u64_max →
  fold_counter_sum metric pred (foldl (bump metric) r ops) =
  fold_counter_sum metric pred r + sumf (λ op, if pred op.1 then op.2 else 0) ops.
Proof.
  intros Hwf Hc Hn. rewrite !fold_counter_sum_spec by done. intros Hmax.
  pose proof (sumf_nonneg snd ops Hn) as Hops.
  pose proof (metric_sum_all_ge count_of pred metric r Hwf count_of_ok) as Hge.
  assert (metric_sum count_of (λ _, true) metric r + sumf snd ops < u64_max) as Hmax' by lia.
  clear Hmax. revert r Hwf Hc Hge Hmax'. induction ops as [|op ops IH]; intros r Hwf Hc Hge Hmax; simpl.
  { rewrite fold_counter_sum_spec by done. unfold sumf; simpl. lia. }
  rewrite !sumf_cons in *. pose proof (Hn op ltac:(set_solver)) as Ho.
  pose proof (sumf_nonneg snd ops ltac:(set_solver)) as Hops'.
  destruct (bump_spec metric r op Hwf Hc Ho ltac:(lia)) as (Hwf1 & Hc1 & Hs).
  rewrite IH; try done; rewrite ?Hs; [|set_solver| |lia].
  - assert (0 ≤ sumf (λ op, if pred op.1 then op.2 else 0) ops ≤ sumf snd ops).
    { split; [apply sumf_nonneg|apply sumf_le]; intros x Hx; pose proof (Hn x ltac:(set_solver));
        destruct (pred x.1); lia. }
    rewrite !fold_counter_sum_spec, Hs by done. destruct (pred op.1); lia.
  - simpl. destruct (pred op.1); lia.
Qed.

(** The first registration of a name fixes its identifier and kind:
    looking the name up finds it, registering it again with any kind changes
    nothing and returns it, and other names are not affected. *)
Theorem register_first_wins name kind r :
  registry_wf r → room_for 3 (reg_interner r) → Z.of_nat (length (reg_defs r)) < 2 ^ 32 →
  let '(id, r1) := register name kind r in
  registry_wf r1 ∧
  (lookup_metric name r1).1 =
    Some (id, match (lookup_metric name r).1 with Some (_, k) => k | None => kind end) ∧
  (∀ kind', register name kind' r1 = (id, r1)) ∧
  (∀ other, other ≠ name → (lookup_metric other r1).1 = (lookup_metric other r).1).
Proof.
  unfold room_for. intros Hwf Hroom Hlen.
  pose proof (register_spec name kind r Hwf ltac:(unfold has_room; lia) Hlen) as Hr.
  assert (length (in_vec (reg_interner (register name kind r).2)) ≤ S (length (in_vec (reg_interner r))))%nat as Hl.
  { pose proof (get_or_intern_length name (reg_interner r)) as Hl. unfold register.
    destruct (get_or_intern name (reg_interner r)) as [nid i]. simpl in Hl.
    by destruct (find_def (reg_defs r) nid) as [[]|]. }
  destruct (register name kind r) as [id r1]. simpl in Hl.
  destruct Hr as (Hwf1 & He & Hheap & _ & Hpre & (d & Hd & Hm & Hid & Hk) & _ & Hdefs).
  assert (has_room (reg_interner r1)) as Hroom1 by (unfold has_room; lia).
  assert (has_room (reg_interner r)) as Hroom0 by (unfold has_room; lia).
  pose proof (wf_resolve _ _ _ (wf_interner _ Hwf1) Hm) as Hres.
  assert (def_of name r1 = Some (Z.to_nat id, d)) as Hdef by (by apply def_of_Some).
  split_and!; [done| | |].
  - rewrite !lookup_metric_eq, Hdef by done. simpl. unfold id_kind; simpl.
    rewrite Z2Nat.id, as_u32_small by ints_lia. rewrite Hk. by destruct (def_of name r) as [[]|].
  - intros kind'. unfold register. unfold get_or_intern, intern_read. rewrite Hm.
    unfold def_of in Hdef. rewrite Hm in Hdef. simpl in Hdef. rewrite Hdef.
    rewrite Z2Nat.id, as_u32_small by ints_lia. by destruct r1.
  - intros other Hne. rewrite !lookup_metric_eq by done. f_equal.
    apply option_eq. intros [i d']. rewrite !def_of_Some by done.
    assert (∀ x, reg_defs r !! i = Some x →
      resolve (md_name x) (reg_interner r1) = resolve (md_name x) (reg_interner r)) as Hsame.
    { intros x Hx. destruct He as [l Hl2]. unfold resolve. rewrite Hl2. apply lookup_app_l.
      pose proof (wf_named _ Hwf x ltac:(by eapply list_elem_of_lookup_2)). lia. }
    split; intros [H1 H2].
    + destruct (Hdefs _ _ H1) as [H3|H3]; [rewrite <- Hsame by done; done|].
      apply wf_resolve in H3; [congruence|apply Hwf1].
    + rewrite Hsame by done. split; [by eapply prefix_lookup_Some|done].
Qed.

(** An increment through a handle of the series just inserted. *)
Lemma increment_own metric tags r a k :
  registry_wf r → storage_at r metric tags = Some (MetricStorage.Counter a) → reg_heap r !! a = Some (CCounter 0) →
  let r' := with_heap r (increment (MetricHandle.Counter a) k (reg_heap r)) in
  registry_wf r' ∧
  metric_sum count_of (λ _, true) metric r' = metric_sum count_of (λ _, true) metric r + (u64_wrap_add 0 k - 0).
Proof.
  intros Hwf Hs Hv r'. split; [apply update_cell_wf; [done|apply counter_fetch_add_keeps]|].
  exact (metric_sum_update count_of (λ _, true) metric r tags _ (counter_fetch_add k) _ Hwf Hs Hv).
Qed.

(** An increment through a handle that no series of the metric has. *)
Lemma increment_detached metric r a k :
  registry_wf r → (∀ tags s, storage_at r metric tags = Some s → MetricStorage.location s ≠ a) →
  let r' := with_heap r (increment (MetricHandle.Counter a) k (reg_heap r)) in
  registry_wf r' ∧ metric_sum count_of (λ _, true) metric r' = metric_sum count_of (λ _, true) metric r.
Proof.
  intros Hwf Hne r'. split; [apply update_cell_wf; [done|apply counter_fetch_add_keeps]|]. by apply metric_sum_detached.
Qed.

(** C37. Two threads that both miss a new series in [get_handle] lose data: the
    second insertion replaces the series of the first, so the first thread's
    handle is detached.  Whatever it has counted, or counts later, is in no
    sum over the registry, and later lookups give the other handle. *)
Theorem get_handle_race_loses metric tags r n m :
  registry_wf r → is_counter metric r → storage_at r metric tags = None →
  0 ≤ n → 0 ≤ m → m + fold_counter_sum metric (λ _, true) r < u64_max →
  get_handle_read metric tags r = Some (inr MetricKind.Counter) ∧
  let '(hA, r1) := get_handle_insert metric tags MetricKind.Counter r in
  let r2 := with_heap r1 (increment hA n (reg_heap r1)) in
  let '(hB, r3) := get_handle_insert metric tags MetricKind.Counter r2 in
  let r4 := with_heap r3 (increment hA n (reg_heap r3)) in
  let r5 := with_heap r4 (increment hB m (reg_heap r4)) in
  hA ≠ hB ∧ (get_handle metric tags r5).1 = Some hB ∧
  fold_counter_sum metric (λ _, true) r5 = fold_counter_sum metric (λ _, true) r + m.
Proof.
  intros Hwf Hc Hnone Hn Hm Hmax. split.
  { destruct Hc as (H0 & d & Hd & Hk). unfold get_handle_read.
    destruct (proj2 (wf_storage _ Hwf metric)) as [sm Hsm]; [split; [done|by eexists]|].
    unfold storage_at in Hnone. rewrite Hsm in *. simpl in *. by rewrite Hnone, Hd, <- Hk. }
  pose proof (insert_counter metric tags r Hwf Hc) as H1.
  destruct (get_handle_insert metric tags MetricKind.Counter r) as [hA r1].
  destruct H1 as (-> & Hwf1 & Hc1 & Hh1 & Hst1 & Hsum1). set (a := length (reg_heap r)) in *.
  specialize (Hsum1 count_of (λ _, true) count_of_zero). rewrite Hnone in Hsum1. cbv zeta.
  assert (reg_heap r1 !! a = Some (CCounter 0)) as Hv1 by (rewrite Hh1; by apply list_lookup_middle).
  destruct (increment_own metric tags r1 a n Hwf1) as [Hwf2 Hsum2]; [by rewrite Hst1, decide_True|done|].
  set (r2 := with_heap r1 _) in *. pose proof (insert_counter metric tags r2 Hwf2 Hc1) as H3.
  assert (length (reg_heap r2) = S a) as Hlen.
  { unfold r2; simpl. unfold update_cell. rewrite length_alter, Hh1, length_app. simpl. lia. }
  destruct (get_handle_insert metric tags MetricKind.Counter r2) as [hB r3].
  rewrite Hlen in H3. destruct H3 as (-> & Hwf3 & Hc3 & Hh3 & Hst3 & Hsum3).
  specialize (Hsum3 count_of (λ _, true) count_of_zero). change (storage_at r2) with (storage_at r1) in *.
  rewrite Hst1, decide_True in Hsum3 by done. unfold series_val, cell_val in Hsum3. simpl in Hsum3.
  rewrite lookup_update_cell, decide_True, Hv1 in Hsum3 by done. simpl in Hsum3.
  split; [intros [=]; lia|]. destruct (increment_detached metric r3 a n Hwf3) as [Hwf4 Hsum4].
  { intros t s. rewrite Hst3, Hst1. destruct (decide _) as [E|E]; [intros [= <-]; simpl; lia|].
    intros Hs. apply series_lt in Hs; [|done]. unfold a. lia. }
  set (r4 := with_heap r3 _) in *.
  assert (storage_at r4 metric tags = Some (MetricStorage.Counter (S a))) as HsB by (change (storage_at r4) with (storage_at r3); by rewrite Hst3, decide_True).
  assert (reg_heap r4 !! S a = Some (CCounter 0)) as Hv4.
  { unfold r4; simpl. rewrite lookup_update_cell, decide_False by lia. rewrite Hh3. by apply list_lookup_middle. }
  destruct (increment_own metric tags r4 (S a) m Hwf4 HsB Hv4) as [Hwf5 Hsum5]. set (r5 := with_heap r4 _) in *. split.
  - unfold get_handle, get_handle_read. change (reg_storage r5) with (reg_storage r4).
    apply storage_at_Some in HsB as (sm & Hsm & Hs). rewrite Hsm. simpl. by rewrite Hs.
  - rewrite fold_counter_sum_spec in Hmax by done. rewrite !fold_counter_sum_spec by done.
    rewrite Hsum5, Hsum4, Hsum3, Hsum2, Hsum1.
    pose proof (metric_sum_nonneg count_of (λ _, true) metric r Hwf count_of_ok).
    unfold u64_wrap_add. rewrite (as_u64_small (0 + m)) by ints_lia. lia.
Qed.

End registry.
Arguments Registry {H}.

(** The sums do not depend on the order in which the maps are iterated, nor
    does the number of recorded values in a merged histogram. *)
Theorem folds_order_independent (H : HistOps) (HL : HistLaws H) (M1 M2 : MapIter) metric pred r :
  registry_wf r →
  @fold_counter_sum H M1 metric pred r = @fold_counter_sum H M2 metric pred r ∧
  @fold_rate_sum H M1 metric pred r = @fold_rate_sum H M2 metric pred r ∧
  hs_count <$> @fold_histogram_summary H M1 metric pred r =
  hs_count <$> @fold_histogram_summary H M2 metric pred r.
Proof.
  intros Hwf. rewrite !fold_counter_sum_spec by done. split; [done|].
  pose proof (@fold_rate_sum_spec H M1 metric pred r Hwf) as E1.
  pose proof (@fold_rate_sum_spec H M2 metric pred r Hwf) as E2.
  pose proof (@fold_histogram_any H M1 metric pred r) as A1.
  pose proof (@fold_histogram_any H M2 metric pred r) as A2.
  pose proof (@fold_histogram_count H M1 metric pred r Hwf HL) as C1.
  pose proof (@fold_histogram_count H M2 metric pred r Hwf HL) as C2.
  split.
  - rewrite (@fold_rate_sum_rate H M1), (@fold_rate_sum_rate H M2), E1, E2. done.
  - rewrite <- A2 in A1.
    destruct (@fold_histogram_summary H M1 metric pred r) as [s1|],
      (@fold_histogram_summary H M2 metric pred r) as [s2|]; simpl; [congruence| | |done].
    + destruct (proj1 A1) as [? [=]]. by eexists.
    + destruct (proj2 A1) as [? [=]]. by eexists.
Qed.

(** The summary lists every series of every metric, and nothing else, under
    its name, kind, tags and current value, sorted by name, whatever the
    iteration order. *)
Theorem summarize_lists_every_series (H : HistOps) (M : MapIter) r :
  registry_wf r →
  StronglySorted name_le (summarize r) ∧
  ∀ x, x ∈ summarize r ↔
    ∃ id def tags s, reg_defs r !! Z.to_nat id = Some def ∧ storage_at r id tags = Some s ∧
      x = summarize_one r def (tags, s).
Proof.
  intros Hwf. split.
  - apply StronglySorted_merge_sort.
    + intros a b c. unfold name_le. apply str_le_trans.
    + intros a b. unfold name_le. apply str_le_total.
  - intros x. unfold summarize. rewrite merge_sort_Permutation. unfold summaries.
    rewrite list_elem_of_bind. split.
    + intros ([id sm] & Hx & Hsm%elem_of_map_iter).
      destruct (reg_defs r !! Z.to_nat id) as [def|] eqn:Hd; [|set_solver].
      apply list_elem_of_fmap in Hx as ([t s] & -> & Hs%elem_of_map_iter).
      exists id, def, t, s. split_and!; [done| |done]. apply storage_at_Some; eauto.
    + intros (id & def & t & s & Hd & (sm & Hsm & Hs)%storage_at_Some & ->).
      exists (id, sm). rewrite Hd, elem_of_map_iter. split; [|done].
      apply list_elem_of_fmap. exists (t, s). by rewrite elem_of_map_iter.
Qed.

(** ** Witnesses *)

(** A registry with one counter, [requests_total], and no series. *)
Definition one_counter : Registry := (register "requests_total" MetricKind.Counter empty_registry).2.

Lemma one_counter_wf : registry_wf one_counter ∧ is_counter 0 one_counter.
Proof.
  pose proof (register_spec "requests_total" MetricKind.Counter empty_registry
    empty_registry_wf eq_refl eq_refl) as Hr.
  split; [by destruct Hr|]. split; [done|]. eexists. split; reflexivity.
Qed.

Lemma fold_counter_counts_witness :
  fold_counter_sum 0 (λ t, Z.even (Z.of_nat (length t)))
    (foldl (bump 0) one_counter [([], 10); ([(1, 2)], 3); ([], 4)]) = 0 + 14.
Proof.
  destruct one_counter_wf as [Hwf Hc].
  refine (fold_counter_counts 0 [([], 10); ([(1, 2)], 3); ([], 4)] _ one_counter Hwf Hc _ _).
  - intros op Hop. repeat (apply elem_of_cons in Hop as [->|Hop]; [simpl; lia|]). set_solver.
  - vm_compute. reflexivity.
Defined.

Lemma register_first_wins_witness :
  (lookup_metric "requests_total" one_counter).1 = Some (0, MetricKind.Counter).
Proof.
  pose proof (register_first_wins "requests_total" MetricKind.Counter empty_registry
    empty_registry_wf ltac:(by vm_compute) ltac:(by vm_compute)) as Hr.
  destruct Hr as (_ & Hl & _). exact Hl.
Defined.

Lemma get_handle_race_loses_witness :
  get_handle_read 0 [] one_counter = Some (inr MetricKind.Counter) ∧
  let '(hA, r1) := get_handle_insert 0 [] MetricKind.Counter one_counter in
  let r2 := with_heap r1 (increment hA 7 (reg_heap r1)) in
  let '(hB, r3) := get_handle_insert 0 [] MetricKind.Counter r2 in
  let r4 := with_heap r3 (increment hA 7 (reg_heap r3)) in
  let r5 := with_heap r4 (increment hB 5 (reg_heap r4)) in
  hA ≠ hB ∧ (get_handle 0 [] r5).1 = Some hB ∧
  fold_counter_sum 0 (λ _, true) r5 = fold_counter_sum 0 (λ _, true) one_counter + 5.
Proof.
  destruct one_counter_wf as [Hwf Hc].
  apply (get_handle_race_loses 0 [] one_counter 7 5 Hwf Hc); try lia; by vm_compute.
Defined.

(** The same registry after two recordings with different tags. *)
Definition two_series : Registry := foldl (bump 0) one_counter [([], 10); ([(1, 2)], 3)].

Lemma two_series_wf : registry_wf two_series.
Proof.
  destruct one_counter_wf as [Hwf Hc].
  destruct (bump_spec 0 one_counter ([], 10) Hwf Hc ltac:(done) ltac:(by vm_compute))
    as (Hwf1 & Hc1 & _).
  by destruct (bump_spec 0 _ ([(1, 2)], 3) Hwf1 Hc1 ltac:(done) ltac:(by vm_compute)).
Qed.

Lemma folds_order_independent_witness :
  @fold_counter_sum list_hist default_iter 0 (λ _, true) two_series =
  @fold_counter_sum list_hist reverse_iter 0 (λ _, true) two_series.
Proof.
  exact (proj1 (folds_order_independent list_hist list_hist_laws default_iter reverse_iter 0
    (λ _, true) two_series two_series_wf)).
Defined.

Lemma summarize_lists_every_series_witness : StronglySorted name_le (summarize two_series).
Proof. exact (proj1 (summarize_lists_every_series _ _ two_series two_series_wf)). Defined.
