(* ===== verification/Agg.v ===== *)
(** * Queries over the registry (wrkr-metrics/src/agg.rs)

    Tag filters, running statistics, counter snapshots and [Query]: a filter
    list and a canonical list of group keys, evaluated by one visit of the
    metric's series. *)
From S2P Require Import Prelude Coll F64 Key Tags Metrics Registry.

(** ** Filters *)
Inductive TagFilter :=
  | FEq (k v : KeyId)
  | FNotEq (k v : KeyId)
  | FHas (k : KeyId)
  | FMissing (k : KeyId).

Definition filter_matches (f : TagFilter) (tags : TagSet) : bool :=
  match f with
  | FEq k v => bool_decide (get tags k = Some v)
  | FNotEq k v => bool_decide (get tags k ≠ Some v)
  | FHas k => bool_decide (is_Some (get tags k))
  | FMissing k => bool_decide (get tags k = None)
  end.

(** ** Running statistics (Welford) *)
Record RunningStats := mkRunningStats { rs_n : Z; rs_mean : f64; rs_m2 : f64; rs_max : f64 }.

Definition stats_default : RunningStats := mkRunningStats 0 f_zero f_zero f_zero.

Definition push (x : f64) (s : RunningStats) : RunningStats :=
  let n := u64_sat_add (rs_n s) 1 in
  let n_f := of_Z n in
  let delta := fsub x (rs_mean s) in
  let mean := fadd (rs_mean s) (fdiv delta n_f) in
  let delta2 := fsub x mean in
  mkRunningStats n mean (fadd (rs_m2 s) (fmul delta delta2))
    (if fgt x (rs_max s) then x else rs_max s).

Definition stdev (s : RunningStats) : f64 :=
  if rs_n s <? 2 then f_zero else fsqrt (fdiv (rs_m2 s) (fsub (of_Z (rs_n s)) (of_Z 1))).

Definition stdev_pct (s : RunningStats) : f64 :=
  if fle (rs_mean s) f_zero then f_zero else fmul (fdiv (stdev s) (rs_mean s)) (of_Z 100).

(** ** Counter snapshots *)
Record CounterSnapshot := mkSnapshot { cs_total : Z }.

Definition delta_since (s : CounterSnapshot) (prev : option CounterSnapshot) : Z :=
  match prev with Some p => u64_sat_sub (cs_total s) (cs_total p) | None => cs_total s end.

Definition per_sec (delta : Z) (dt_secs : f64) : f64 :=
  fdiv (of_Z delta) (fmax dt_secs (of_decimal false 1 (-9))).

Definition per_sec_since (s : CounterSnapshot) (prev : option CounterSnapshot) (dt_secs : f64) : f64 :=
  per_sec (delta_since s prev) dt_secs.

Definition per_sec_u64_rounded (delta : Z) (dt_secs : f64) : Z :=
  to_u64 (round (per_sec delta dt_secs)).

(** ** Queries *)
Record Query := mkQuery { q_metric : MetricId; q_filters : list TagFilter; q_group_keys : list KeyId }.

Definition query (metric : MetricId) : Query := mkQuery metric [] [].
Definition add_filter (f : TagFilter) (q : Query) : Query :=
  mkQuery (q_metric q) (q_filters q ++ [f]) (q_group_keys q).
Definition where_eq (key value : KeyId) : Query → Query := add_filter (FEq key value).
Definition where_not_eq (key value : KeyId) : Query → Query := add_filter (FNotEq key value).
Definition where_has (key : KeyId) : Query → Query := add_filter (FHas key).
Definition where_missing (key : KeyId) : Query → Query := add_filter (FMissing key).

(** [Vec::dedup]: drops an element equal to the one kept before it. *)
Fixpoint dedup (l : list Z) : list Z :=
  match l with
  | [] => []
  | x :: l' => match dedup l' with
               | [] => [x]
               | y :: r => if x =? y then y :: r else x :: y :: r
               end
  end.

Definition group_by (keys : list KeyId) (q : Query) : Query :=
  mkQuery (q_metric q) (q_filters q) (dedup (merge_sort Z.le keys)).

Definition query_matches (q : Query) (tags : TagSet) : bool :=
  forallb (λ f, filter_matches f tags) (q_filters q).

Definition group_key (q : Query) (tags : TagSet) : TagSet := project tags (q_group_keys q).

Section query.
Context {H : HistOps} {M : MapIter}.

(** The closure of [sum_counter]. *)
Definition count_series (q : Query) (r : Registry) (out : gmap TagSet Z) (tags : TagSet)
    (storage : MetricStorage.t) : gmap TagSet Z :=
  if negb (query_matches q tags) then out else
  match storage with
  | MetricStorage.Counter c =>
      let v := load_counter c (reg_heap r) in
      if v =? 0 then out else
      let k := group_key q tags in
      match out !! k with
      | Some cur => <[k := u64_sat_add cur v]> out
      | None => <[k := v]> out
      end
  | _ => out
  end.

Definition sum_counter (q : Query) (r : Registry) : gmap TagSet Z :=
  visit_series (q_metric q) r (count_series q r) ∅.

(** [values().copied().sum()]: wraps in the release profile. *)
Definition sum_counter_total (q : Query) (r : Registry) : Z :=
  foldl (λ acc p, u64_wrap_add acc p.2) 0 (map_iter (sum_counter q r)).

(** The accumulation of [merge_histogram_summary]. *)
Definition merge_histograms (q : Query) (r : Registry) : gmap TagSet hist :=
  visit_series (q_metric q) r (λ acc tags storage,
    if negb (query_matches q tags) then acc else
    match storage with
    | MetricStorage.Histogram a =>
        let k := group_key q tags in
        <[k := hist_add (default new_default_histogram (acc !! k)) (load_hist a (reg_heap r))]> acc
    | _ => acc
    end) ∅.

Definition merge_histogram_summary (q : Query) (r : Registry) : gmap TagSet HistogramSummary :=
  summarize_histogram <$> merge_histograms q r.

Definition merge_histogram_summary_single (q : Query) (r : Registry) : option HistogramSummary :=
  let grouped := merge_histogram_summary q r in
  if decide (size grouped = 0%nat) then None
  else if decide (size grouped = 1%nat) then snd <$> head (map_iter grouped)
  else None.

(** ** Lemmas *)


Definition in_group (q : Query) (g tags : TagSet) : bool :=
  query_matches q tags && bool_decide (group_key q tags = g).

(** The sum of a group is the saturated sum over its series. *)
Lemma sum_counter_group q r g :
  registry_wf r →
  default 0 (sum_counter q r !! g) =
    Z.min u64_max (metric_sum count_of (in_group q g) (q_metric q) r).
Proof.
  intros Hwf. unfold sum_counter.
  apply (visit_series_sum (λ out : gmap TagSet Z, default 0 (out !! g)));
    [done|apply count_of_ok|by rewrite lookup_empty|].
  intros out tags x Hx Hout. unfold count_series, series_val, cell_val, in_group; simpl.
  destruct (query_matches q tags); simpl; [|by apply sat_add_0].
  assert (∀ v, in_u64 v → default 0 ((if v =? 0 then out else
    match out !! group_key q tags with
    | Some cur => <[group_key q tags := u64_sat_add cur v]> out
    | None => <[group_key q tags := v]> out end) !! g) =
    u64_sat_add (default 0 (out !! g)) (if bool_decide (group_key q tags = g) then v else 0)) as Hstep.
  { intros v Hv. destruct (Z.eqb_spec v 0) as [->|Hv0].
    - destruct (bool_decide _); by apply sat_add_0.
    - case_bool_decide as E.
      + subst g. destruct (out !! group_key q tags) as [cur|] eqn:Ek; rewrite lookup_insert_eq;
          simpl; [done|ints_lia].
      + destruct (out !! group_key q tags); rewrite lookup_insert_ne by done; by apply sat_add_0. }
  destruct x as [a|a|a|a]; simpl in Hx |- *.
  - destruct Hx as [v Hv]. unfold load_counter. rewrite Hv. apply Hstep.
    exact (Forall_lookup_1 _ _ _ _ (wf_cells _ Hwf) Hv).
  - destruct Hx as [v ->]. simpl. destruct (bool_decide _); by apply sat_add_0.
  - destruct Hx as (t & y & ->). simpl. destruct (bool_decide _); by apply sat_add_0.
  - destruct Hx as [v ->]. simpl. destruct (bool_decide _); by apply sat_add_0.
Qed.

(** One series adds its value to its group. *)
Lemma count_series_step q r out tags x :
  registry_wf r → cell_typed (reg_heap r) x → map_Forall (λ _ z, 0 < z) out →
  map_sum out + series_val count_of (query_matches q) (reg_heap r) (tags, x) ≤ u64_max →
  map_Forall (λ _ z, 0 < z) (count_series q r out tags x) ∧
  ∀ P, map_sum_on P (count_series q r out tags x) = map_sum_on P out +
    series_val count_of (λ t, query_matches q t && P (group_key q t)) (reg_heap r) (tags, x).
Proof.
  intros Hwf Ht Hout. unfold count_series, series_val; simpl.
  destruct (query_matches q tags); simpl; [|intros _; split; [done|intros P; lia]].
  destruct x as [a|a|a|a]; unfold cell_val; simpl in Ht |- *.
  2: { destruct Ht as [v ->]. simpl. intros _. split; [done|]. intros P. destruct (P _); lia. }
  2: { destruct Ht as (t & y & ->). simpl. intros _. split; [done|]. intros P. destruct (P _); lia. }
  2: { destruct Ht as [v ->]. simpl. intros _. split; [done|]. intros P. destruct (P _); lia. }
  destruct Ht as [v Hv]. unfold load_counter. rewrite Hv. simpl. intros Hle.
  assert (in_u64 v) as Hvr by (exact (Forall_lookup_1 _ _ _ _ (wf_cells _ Hwf) Hv)).
  destruct (Z.eqb_spec v 0) as [->|Hv0]; [split; [done|intros P; destruct (P _); lia]|].
  destruct (out !! group_key q tags) as [cur|] eqn:Ek.
  - pose proof (map_sum_lookup_le _ _ _ (map_Forall_impl _ _ _ Hout (λ _ z, Z.lt_le_incl 0 z)) Ek).
    pose proof (Hout _ _ Ek). simpl in *. split; [apply map_Forall_insert_2; [ints_lia|done]|].
    intros P. rewrite map_sum_on_insert, Ek. simpl. destruct (P _); ints_lia.
  - split; [apply map_Forall_insert_2; [ints_lia|done]|].
    intros P. rewrite map_sum_on_insert, Ek. simpl. destruct (P _); lia.
Qed.

(** Without saturation, the groups [P] selects partition the matching series
    whose group it selects; no group is empty. *)
Lemma sum_counter_select q r :
  registry_wf r → metric_sum count_of (query_matches q) (q_metric q) r ≤ u64_max →
  map_Forall (λ _ x, 0 < x) (sum_counter q r) ∧
  ∀ P, map_sum_on P (sum_counter q r) =
    metric_sum count_of (λ t, query_matches q t && P (group_key q t)) (q_metric q) r.
Proof.
  intros Hwf. unfold sum_counter, visit_series. setoid_rewrite <- metric_sum_series.
  assert (∀ p, p ∈ series (q_metric q) r → cell_typed (reg_heap r) p.2) as Ht.
  { intros [tags x] Hx%series_storage_at. by apply (wf_series _ Hwf _ _ _ Hx). }
  induction (series (q_metric q) r) as [|[tags x] l IH] using rev_ind; intros Hmax.
  { split; [apply map_Forall_empty|]. intros P. exact (map_sum_on_empty P). }
  rewrite foldl_snoc. setoid_rewrite sumf_app. rewrite sumf_app in Hmax.
  change (sumf ?f [(tags, x)]) with (f (tags, x) + 0) in Hmax.
  pose proof (cell_val_range count_of r x Hwf count_of_ok) as Hc.
  assert (0 ≤ series_val count_of (query_matches q) (reg_heap r) (tags, x)).
  { unfold series_val. simpl. destruct (query_matches q tags); ints_lia. }
  destruct IH as [Hpos Hsum]; [set_solver|lia|]. set (out := foldl _ _ l) in *.
  assert (map_sum out = sumf (series_val count_of (query_matches q) (reg_heap r)) l) as Hall.
  { rewrite map_sum_on_all, Hsum. apply sumf_ext. intros [t y] _. unfold series_val. simpl.
    by rewrite andb_true_r. }
  destruct (count_series_step q r out tags x Hwf) as [Hpos' Hstep];
    [apply (Ht (tags, x)); set_solver|done|lia|].
  split; [done|]. intros P. cbn [fst snd]. rewrite Hstep, Hsum, sumf_cons. unfold sumf at 3. simpl. lia.
Qed.

(** Without saturation, the groups partition the matching series. *)
Lemma sum_counter_partition q r :
  registry_wf r → metric_sum count_of (query_matches q) (q_metric q) r ≤ u64_max →
  map_Forall (λ _ x, 0 ≤ x) (sum_counter q r) ∧
  map_sum (sum_counter q r) = metric_sum count_of (query_matches q) (q_metric q) r.
Proof.
  intros Hwf Hmax. destruct (sum_counter_select q r Hwf Hmax) as [Hpos Hsum]. split.
  - apply (map_Forall_impl _ _ _ Hpos). intros _ z. simpl. lia.
  - rewrite map_sum_on_all, Hsum. apply sumf_ext. intros [t x] _. unfold series_val. simpl.
    by rewrite andb_true_r.
Qed.

Lemma sum_counter_total_spec q r :
  registry_wf r → metric_sum count_of (query_matches q) (q_metric q) r ≤ u64_max →
  sum_counter_total q r = metric_sum count_of (query_matches q) (q_metric q) r.
Proof.
  intros Hwf Hmax. destruct (sum_counter_partition q r Hwf Hmax) as [Hnn Hsum].
  unfold sum_counter_total. rewrite <- Hsum in *. unfold map_sum in *.
  rewrite <- map_iter_perm in *.
  match goal with |- ?x = ?y => enough (0 ≤ x ∧ x = 0 + y) as Hall by lia end.
  apply (foldl_exact (λ z, z) (λ z, 0 ≤ z)); [|done| |done].
  - intros s [k v] Hx Hs Hle. apply elem_of_map_iter in Hx. specialize (Hnn _ _ Hx).
    unfold u64_wrap_add. simpl in *. rewrite as_u64_small by ints_lia. lia.
  - intros [k v] Hx. apply elem_of_map_iter in Hx. by apply (Hnn k).
Qed.

Lemma dedup_spec l :
  Sorted Z.le l → StronglySorted Z.lt (dedup l) ∧ ∀ x, x ∈ dedup l ↔ x ∈ l.
Proof.
  intros Hs%Sorted_StronglySorted; [|intros ???; lia].
  induction Hs as [|x l Hs [IHs IHe] Hall]; simpl; [split; [constructor|done]|].
  assert (Forall (Z.le x) (dedup l)) as Hle.
  { apply Forall_forall. intros y Hy. apply IHe in Hy. by eapply Forall_forall in Hall. }
  destruct (dedup l) as [|y d] eqn:Ed.
  - split; [repeat constructor|]. intros z. specialize (IHe z). set_solver.
  - apply Forall_cons in Hle as [Hxy _]. inversion_clear IHs as [|? ? Hsd Hyd].
    destruct (Z.eqb_spec x y) as [->|Hne].
    + split; [by constructor|]. intros z. rewrite IHe. set_solver.
    + split; [|intros z; specialize (IHe z); set_solver].
      constructor; [by constructor|]. constructor; [lia|].
      eapply Forall_impl; [exact Hyd|]. simpl. lia.
Qed.

Lemma strict_sorted_NoDup l : StronglySorted Z.lt l → NoDup l.
Proof.
  induction 1 as [|x l _ IH Hall]; constructor; [|done]. intros Hx.
  eapply Forall_forall in Hall; [|exact Hx]. lia.
Qed.

Lemma strict_sorted_unique l k :
  StronglySorted Z.lt l → StronglySorted Z.lt k → (∀ x, x ∈ l ↔ x ∈ k) → l = k.
Proof.
  intros Hl Hk He. apply (StronglySorted_unique_strong Z.lt); [intros; lia|done|done|].
  apply NoDup_Permutation; [by apply strict_sorted_NoDup..|done].
Qed.

(** ** Properties *)

(** Grouping only splits: for every query over a metric whose matching
    series sum to at most [u64::MAX], each group is the sum of the matching
    series with its projected tags, the total of the groups is the sum of all
    matching series, and so is [sum_counter_total], with or without group
    keys and in whatever order they are given. *)
Theorem grouping_partitions q keys r :
  registry_wf r → fold_counter_sum (q_metric q) (query_matches q) r < u64_max →
  let g := group_by keys q in
  (∀ k, default 0 (sum_counter g r !! k) = fold_counter_sum (q_metric q) (in_group g k) r) ∧
  map_sum (sum_counter g r) = fold_counter_sum (q_metric q) (query_matches q) r ∧
  sum_counter_total g r = sum_counter_total q r ∧
  (∀ keys', (∀ k, k ∈ keys ↔ k ∈ keys') → sum_counter (group_by keys' q) r = sum_counter g r).
Proof.
  intros Hwf. rewrite fold_counter_sum_spec by done. intros Hmax g.
  assert (metric_sum count_of (query_matches q) (q_metric q) r ≤ u64_max) as Hle by lia.
  split_and!.
  - intros k. rewrite sum_counter_group, fold_counter_sum_spec by done. done.
  - etrans; [exact (proj2 (sum_counter_partition g r Hwf Hle))|].
    change (metric_sum count_of (query_matches q) (q_metric q) r =
      Z.min u64_max (metric_sum count_of (query_matches q) (q_metric q) r)). lia.
  - rewrite (sum_counter_total_spec g r Hwf Hle), (sum_counter_total_spec q r Hwf Hle). done.
  - intros keys' Hk. f_equal. unfold g, group_by. f_equal.
    destruct (dedup_spec (merge_sort Z.le keys)) as [Hs1 He1]; [apply Sorted_merge_sort; apply _|].
    destruct (dedup_spec (merge_sort Z.le keys')) as [Hs2 He2]; [apply Sorted_merge_sort; apply _|].
    apply strict_sorted_unique; [done|done|]. intros x. rewrite He1, He2, !merge_sort_Permutation. by rewrite Hk.
Qed.

End query.

(** ** Witnesses *)
Lemma grouping_partitions_witness :
  sum_counter_total (group_by [1] (where_missing 7 (query 0))) two_series = 13 ∧
  sum_counter (group_by [1; 2; 1] (where_missing 7 (query 0))) two_series =
  sum_counter (group_by [2; 1] (where_missing 7 (query 0))) two_series.
Proof.
  assert (fold_counter_sum 0 (query_matches (where_missing 7 (query 0))) two_series < u64_max)
    as Hlt by (vm_compute; reflexivity).
  destruct (grouping_partitions (where_missing 7 (query 0)) [2; 1] two_series two_series_wf Hlt)
    as (_ & _ & Ht & Hk).
  split; [vm_compute; reflexivity|]. apply (Hk [1; 2; 1]). intros k. set_solver.
Defined.
