(* ===== verification/Requests.v ===== *)
(** * Recording requests and iterations (wrkr-core/src/request_metrics.rs,
    iteration_metrics.rs, metrics_context.rs)

    [record_request] and [record_iteration] resolve the tags of a sample and
    update its series through [get_handle]; the theorem at the end follows the
    samples from there to the totals the reports query. *)
From S2P Require Import Prelude Coll Std F64 Config Key Tags Metrics Registry Agg.

Inductive Protocol := Http | Grpc.

Definition as_str (p : Protocol) : string :=
  match p with Http => "http" | Grpc => "grpc" end.

Record RequestMetricIds := mkRequestIds {
  requests_total : MetricId;
  bytes_received_total : MetricId;
  bytes_sent_total : MetricId;
  errors_total : MetricId;
  errors_by_kind_total : MetricId;
  latency_id : MetricId }.

Record RequestSample := mkSample {
  rq_scenario : string;
  rq_protocol : Protocol;
  rq_ok : bool;
  rq_latency : Z;
  rq_bytes_received : Z;
  rq_bytes_sent : Z;
  rq_error_kind : option string }.

Record IterationMetricIds := mkIterationIds { iterations_total : MetricId; iteration_duration : MetricId }.

Record IterationSample := mkIteration { it_scenario : string; it_success : bool; it_duration : Z }.

(** ** Merging scenario tags (metrics_context.rs) *)
Definition has_key (k : string) (tags : list (string * string)) : bool :=
  existsb (λ p, bool_decide (p.1 = k)) tags.

Definition merge_scenario_tags_if_missing (ctx : MetricsContext) (reserved : list string)
    (tags : list (string * string)) : list (string * string) :=
  foldl (λ tags p,
    if bool_decide (p.1 ∈ reserved) then tags
    else if has_key p.1 tags then tags
    else tags ++ [p]) tags (mc_scenario_tags ctx).

Definition merge_base_tags_if_missing (ctx : MetricsContext) (reserved : list string)
    (tags : list (string * string)) : list (string * string) :=
  let tags :=
    if negb (bool_decide ("scenario"%string ∈ reserved)) && negb (has_key "scenario" tags)
    then tags ++ [("scenario"%string, mc_scenario ctx)] else tags in
  merge_scenario_tags_if_missing ctx reserved tags.

Definition scenario_tag_refs (ctx : MetricsContext) (reserved : list string) : list (string * string) :=
  filter (λ p, p.1 ∉ reserved) (mc_scenario_tags ctx).

(** [as_micros().try_into().unwrap_or(u64::MAX)], then [max(1)]. *)
Definition micros (d : Z) : Z := Z.max 1 (Z.min u64_max (Duration.as_micros d)).

Section requests.
Context {H : HistOps} {M : MapIter}.

(** [RequestMetricIds::register]. *)
Definition register_requests (r : Registry) : RequestMetricIds * Registry :=
  let '(a, r) := register "requests_total" MetricKind.Counter r in
  let '(b, r) := register "bytes_received_total" MetricKind.Counter r in
  let '(c, r) := register "bytes_sent_total" MetricKind.Counter r in
  let '(d, r) := register "request_errors_total" MetricKind.Counter r in
  let '(e, r) := register "request_errors_by_kind_total" MetricKind.Counter r in
  let '(f, r) := register "request_latency" MetricKind.Histogram r in
  (mkRequestIds a b c d e f, r).

(** [IterationMetricIds::register]. *)
Definition register_iterations (r : Registry) : IterationMetricIds * Registry :=
  let '(a, r) := register "iterations_total" MetricKind.Counter r in
  let '(b, r) := register "iteration_duration" MetricKind.Histogram r in
  (mkIterationIds a b, r).

(** The closures [filter_extra] and [resolve]. *)
Definition resolve_merged (reserved : list string) (extra base : list (string * string))
    (r : Registry) : TagSet * Registry :=
  if is_empty extra then resolve_tags base r
  else resolve_tags (base ++ filter (λ p, p.1 ∉ reserved) extra) r.

(** [if let Some(MetricHandle::Histogram(h)) = get_handle(..) { h.lock().record(v) }] *)
Definition observe (metric : MetricId) (tags : TagSet) (v : Z) (r : Registry) : Registry :=
  match get_handle metric tags r with
  | (Some h, r) => with_heap r (observe_histogram h v (reg_heap r))
  | (None, r) => r
  end.

(** [if let Some(MetricHandle::Counter(c)) = get_handle(..) { c.fetch_add(n) }] *)
Definition count (metric : MetricId) (tags : TagSet) (n : Z) (r : Registry) : Registry :=
  bump metric r (tags, n).

Definition request_reserved : list string := ["scenario"; "protocol"; "error_kind"]%string.

Definition record_request (ids : RequestMetricIds) (sample : RequestSample)
    (extra_tags : list (string * string)) (r : Registry) : Registry :=
  let protocol_str := as_str (rq_protocol sample) in
  let resolve := resolve_merged request_reserved extra_tags in
  let '(tags_protocol, r) :=
    resolve [("scenario", rq_scenario sample); ("protocol", protocol_str)]%string r in
  let r := count (requests_total ids) tags_protocol 1 r in
  let r := count (bytes_received_total ids) tags_protocol (rq_bytes_received sample) r in
  let r := count (bytes_sent_total ids) tags_protocol (rq_bytes_sent sample) r in
  let r :=
    if negb (rq_ok sample) then
      let r := count (errors_total ids) tags_protocol 1 r in
      match rq_error_kind sample with
      | Some kind =>
          let '(tags, r) :=
            resolve [("scenario", rq_scenario sample); ("protocol", protocol_str);
                     ("error_kind", kind)]%string r in
          count (errors_by_kind_total ids) tags 1 r
      | None => r
      end
    else r in
  let latency := micros (rq_latency sample) in
  let '(overall_tags, r) := resolve [("scenario", rq_scenario sample)]%string r in
  let r := observe (latency_id ids) overall_tags latency r in
  observe (latency_id ids) tags_protocol latency r.

Definition iteration_reserved : list string := ["scenario"; "status"]%string.

Definition record_iteration (ids : IterationMetricIds) (sample : IterationSample)
    (extra_tags : list (string * string)) (r : Registry) : Registry :=
  let status := if it_success sample then "success"%string else "failure"%string in
  let '(tags, r) := resolve_merged iteration_reserved extra_tags
    [("scenario", it_scenario sample); ("status", status)]%string r in
  let r := count (iterations_total ids) tags 1 r in
  observe (iteration_duration ids) tags (micros (it_duration sample)) r.

(** ** Effects

    What a part of the recording does to the sums of the counters: it adds the
    listed amounts, and nothing else. *)
Definition eff (ops : list (MetricId * TagSet * Z)) (m : MetricId) (pred : TagSet → bool) : Z :=
  sumf (λ op, if bool_decide (op.1.1 = m) then if pred op.1.2 then op.2 else 0 else 0) ops.

Definition ops_nonneg (ops : list (MetricId * TagSet * Z)) : Prop := Forall (λ op, 0 ≤ op.2) ops.

Record effect (r : Registry) (ops : list (MetricId * TagSet * Z)) (r' : Registry) : Prop := {
  ef_wf : registry_wf r';
  ef_defs : reg_defs r' = reg_defs r;
  ef_ext : extends (reg_interner r) (reg_interner r');
  ef_sum m : is_counter m r →
    metric_sum count_of (λ _, true) m r + eff ops m (λ _, true) ≤ u64_max →
    ∀ pred, metric_sum count_of pred m r' = metric_sum count_of pred m r + eff ops m pred }.

Lemma eff_nonneg ops m pred : ops_nonneg ops → 0 ≤ eff ops m pred.
Proof.
  intros Ho. apply sumf_nonneg. intros op Hop. eapply Forall_forall in Ho; [|done].
  simpl in Ho. case_bool_decide; [destruct (pred _)|]; lia.
Qed.

Lemma effect_trans r1 ops1 r2 ops2 r3 :
  ops_nonneg ops1 → ops_nonneg ops2 →
  effect r1 ops1 r2 → effect r2 ops2 r3 → effect r1 (ops1 ++ ops2) r3.
Proof.
  intros Hn1 Hn2 [W1 D1 E1 S1] [W2 D2 E2 S2]. split; [done|congruence|by etrans|].
  intros m Hm Hmax pred. unfold eff in *. rewrite sumf_app in *.
  pose proof (eff_nonneg ops2 m (λ _, true) Hn2) as Hp. unfold eff in Hp.
  assert (is_counter m r2) as Hm2 by (unfold is_counter; by rewrite D1).
  rewrite S2, S1; [lia|done|lia|done|]. rewrite S1; [lia|done|lia].
Qed.

Lemma effect_refl r : registry_wf r → effect r [] r.
Proof.
  intros Hwf. split; [done|done|done|]. intros m _ _ pred. unfold eff, sumf; simpl. lia.
Qed.

(** A handle's location is the series'. *)
Lemma handle_location_storage s : handle_location (storage_to_handle s) = MetricStorage.location s.
Proof. by destruct s. Qed.

(** Getting a handle of one metric and writing to its cell leaves the sums of
    the other metrics alone. *)
Lemma touch_other val pred metric tags f r h r1 m :
  registry_wf r → get_handle metric tags r = (Some h, r1) → m ≠ metric → val_zero val →
  metric_sum val pred m (with_heap r1 (update_cell (handle_location h) f (reg_heap r1))) =
  metric_sum val pred m r.
Proof.
  intros Hwf Hg Hne Hz. pose proof (get_handle_spec metric tags r Hwf) as Hs. rewrite Hg in Hs.
  destruct Hs as (Hwf1 & _ & _ & s & Hs & -> & _ & Hr). rewrite handle_location_storage.
  rewrite metric_sum_detached.
  - destruct Hr as [->|(_ & (c & Hh & _) & _ & Hst)]; [done|].
    unfold metric_sum at 1. rewrite Hst, lookup_alter_ne, Hh by done. by apply sumf_series_app.
  - intros t s' Hs' El. destruct (wf_disjoint _ Hwf1 m t s' metric tags s) as [? _]; done.
Qed.

(** The parts of a wf registry after a handle is fetched and its cell updated. *)
Lemma touch_wf metric tags f r h r1 :
  registry_wf r → get_handle metric tags r = (Some h, r1) → keeps_type f →
  registry_wf (with_heap r1 (update_cell (handle_location h) f (reg_heap r1))) ∧
  registry_wf r1 ∧ reg_defs r1 = reg_defs r ∧ reg_interner r1 = reg_interner r.
Proof.
  intros Hwf Hg Hf. pose proof (get_handle_spec metric tags r Hwf) as Hs. rewrite Hg in Hs.
  destruct Hs as (Hwf1 & Hd & Hi & _). split_and!; [by apply update_cell_wf|done..].
Qed.

Lemma is_counter_storage r m tags s :
  registry_wf r → is_counter m r → storage_at r m tags = Some s → ∃ a, s = MetricStorage.Counter a.
Proof.
  intros Hwf (_ & d & Hd & Hk) Hs. destruct (wf_series _ Hwf _ _ _ Hs) as (_ & d' & Hd' & Hsk).
  rewrite Hd in Hd'. simplify_eq. rewrite Hk in Hsk. destruct s; try done. by eexists.
Qed.

Lemma effect_count metric tags n r :
  registry_wf r → is_counter metric r → 0 ≤ n →
  effect r [(metric, tags, n)] (count metric tags n r).
Proof.
  intros Hwf Hc Hn.
  destruct (get_handle_counter metric tags r Hwf Hc) as (a & v & r1 & Hg & _ & _ & Hs & _).
  destruct (touch_wf metric tags (counter_fetch_add n) r _ _ Hwf Hg (counter_fetch_add_keeps n))
    as (Hwf2 & _ & Hd & Hi).
  split; unfold count, bump; simpl; rewrite Hg; simpl; [done|done|by rewrite Hi|].
  intros m Hm. unfold eff, sumf; simpl. case_bool_decide as E.
  - subst m. intros Hmax pred.
    destruct (bump_spec metric r (tags, n) Hwf Hc Hn ltac:(simpl; lia)) as (_ & _ & Hsum).
    specialize (Hsum pred). unfold bump in Hsum. simpl in Hsum. rewrite Hg in Hsum. simpl in Hsum.
    rewrite Hsum. lia.
  - intros _ pred.
    pose proof (touch_other count_of pred metric tags (counter_fetch_add n) r _ _ m Hwf Hg
      ltac:(done) count_of_zero) as Ho. simpl in Ho. rewrite Ho. lia.
Qed.

(** Observing a histogram metric leaves the counters alone. *)
Lemma effect_observe metric tags v r :
  registry_wf r → (∀ m, is_counter m r → m ≠ metric) → effect r [] (observe metric tags v r).
Proof.
  intros Hwf Hne. unfold observe. destruct (get_handle metric tags r) as [[h|] r1] eqn:Hg.
  2:{ pose proof (get_handle_spec metric tags r Hwf) as Hs. rewrite Hg in Hs.
      destruct Hs as (_ & _ & _ & -> & _). by apply effect_refl. }
  assert (∃ f, keeps_type f ∧
    observe_histogram h v (reg_heap r1) = update_cell (handle_location h) f (reg_heap r1)) as (f & Hf & ->).
  { destruct h; simpl; try (exists (λ c, c); split; [by intros []|];
      unfold update_cell; by rewrite list_alter_id).
    exists (hist_observe v). split; [apply hist_observe_keeps|done]. }
  destruct (touch_wf metric tags f r h r1 Hwf Hg Hf) as (Hwf2 & _ & Hd & Hi).
  split; [done|done|simpl; by rewrite Hi|]. intros m Hm _ pred. unfold eff, sumf; simpl.
  pose proof (touch_other count_of pred metric tags f r h r1 m Hwf Hg (Hne m Hm) count_of_zero) as Ho.
  simpl in Ho. rewrite Ho. lia.
Qed.

(** ** Resolving tags *)

Lemma resolve_key_capacity key r :
  registry_wf r → in_capacity (reg_interner (resolve_key key r).2) →
  let '(id, r1) := resolve_key key r in
  effect r [] r1 ∧ in_map (reg_interner r1) !! key = Some id ∧ in_capacity (reg_interner r).
Proof.
  intros Hwf. unfold resolve_key.
  pose proof (get_or_intern_capacity key _ (wf_interner _ Hwf)) as Hk.
  destruct (get_or_intern key (reg_interner r)) as [id i]. simpl in *. intros Hcap.
  destruct (Hk Hcap) as (Hi & He & Hm & Hc). split_and!; [|done|done].
  split; [by apply with_interner_wf|done|done|].
  intros m _ _ pred. unfold eff, sumf; simpl. change (metric_sum count_of pred m (with_interner r i)) with
    (metric_sum count_of pred m r). lia.
Qed.

(** The interner never shrinks. *)
Definition strings (r : Registry) : nat := length (in_vec (reg_interner r)).

Lemma resolve_key_strings key r : (strings r ≤ strings (resolve_key key r).2)%nat.
Proof.
  unfold resolve_key, strings, get_or_intern, intern_read, intern_write.
  destruct (in_map (reg_interner r) !! key); simpl; rewrite ?length_app; lia.
Qed.

Lemma resolve_pairs_strings tags r : (strings r ≤ strings (resolve_pairs tags r).2)%nat.
Proof.
  revert r. induction tags as [|[k v] tags IH]; intros r; simpl; [done|].
  pose proof (resolve_key_strings k r). destruct (resolve_key k r) as [kid r1].
  pose proof (resolve_key_strings v r1). destruct (resolve_key v r1) as [vid r2].
  specialize (IH r2). destruct (resolve_pairs tags r2) as [l r3]. simpl in *. lia.
Qed.

Definition reg_capacity (r : Registry) : Prop := in_capacity (reg_interner r).

Lemma capacity_mono r1 r2 : (strings r1 ≤ strings r2)%nat → reg_capacity r2 → reg_capacity r1.
Proof. unfold reg_capacity, in_capacity, strings. lia. Qed.

(** What was interned keeps its identifier along an effect. *)
Lemma effect_in_map r ops r' s id :
  registry_wf r → effect r ops r' →
  in_map (reg_interner r) !! s = Some id → in_map (reg_interner r') !! s = Some id.
Proof. intros Hwf [W _ E _]. apply extends_map; [apply Hwf|apply W|done]. Qed.

(** The identifiers [ids] of a tag pair. *)
Definition pair_ids (r : Registry) (p : string * string) (ids : KeyId * KeyId) : Prop :=
  in_map (reg_interner r) !! p.1 = Some ids.1 ∧ in_map (reg_interner r) !! p.2 = Some ids.2.

Lemma resolve_pairs_spec tags r :
  registry_wf r → reg_capacity (resolve_pairs tags r).2 →
  let '(l, r1) := resolve_pairs tags r in effect r [] r1 ∧ Forall2 (pair_ids r1) tags l.
Proof.
  revert r. induction tags as [|[k v] tags IH]; intros r Hwf Hcap; simpl in *.
  { split; [by apply effect_refl|constructor]. }
  pose proof (resolve_key_capacity k r Hwf) as Hk.
  destruct (resolve_key k r) as [kid r1].
  pose proof (λ Hw, resolve_key_capacity v r1 Hw) as Hv. pose proof (resolve_key_strings v r1) as L2.
  destruct (resolve_key v r1) as [vid r2]. pose proof (resolve_pairs_strings tags r2) as L3.
  specialize (IH r2). destruct (resolve_pairs tags r2) as [l r3]. simpl in *.
  pose proof (capacity_mono _ _ L3 Hcap) as C2. pose proof (capacity_mono _ _ L2 C2) as C1.
  destruct (Hk C1) as (E1 & Hkid & _). destruct (Hv (ef_wf _ _ _ E1) C2) as (E2 & Hvid & _).
  destruct (IH (ef_wf _ _ _ E2) Hcap) as (E3 & Hall).
  assert (effect r1 [] r3) as E13 by (apply (effect_trans r1 [] r2 [] r3); [constructor..|done|done]).
  split; [by apply (effect_trans r [] r1 [] r3); [constructor..| |]|].
  constructor; [|done]. split; simpl.
  - by eapply effect_in_map; [apply (ef_wf _ _ _ E1)| |].
  - by eapply effect_in_map; [apply (ef_wf _ _ _ E2)| |].
Qed.

Lemma resolve_tags_strings tags r : (strings r ≤ strings (resolve_tags tags r).2)%nat.
Proof.
  pose proof (resolve_pairs_strings tags r) as Hl. unfold resolve_tags.
  by destruct (resolve_pairs tags r).
Qed.

Lemma resolve_tags_spec tags r :
  registry_wf r → reg_capacity (resolve_tags tags r).2 →
  let '(t, r1) := resolve_tags tags r in
  effect r [] r1 ∧ Sorted pair_le t ∧
  (∀ ids, ids ∈ t → ∃ p, p ∈ tags ∧ pair_ids r1 p ids) ∧
  (∀ p, p ∈ tags → ∃ ids, ids ∈ t ∧ pair_ids r1 p ids).
Proof.
  intros Hwf. pose proof (resolve_pairs_spec tags r Hwf) as Hp. unfold resolve_tags.
  destruct (resolve_pairs tags r) as [l r1]. simpl in *. intros Hcap.
  destruct (Hp Hcap) as [He Hall]. unfold from_sorted_iter. split_and!.
  - done.
  - apply Sorted_merge_sort. apply _.
  - intros ids. rewrite merge_sort_Permutation. intros (i & Hi)%list_elem_of_lookup_1.
    destruct (Forall2_lookup_r _ _ _ _ _ Hall Hi) as (p & Hpi & Hpair).
    exists p. split; [by eapply list_elem_of_lookup_2|done].
  - intros p (i & Hi)%list_elem_of_lookup_1.
    destruct (Forall2_lookup_l _ _ _ _ _ Hall Hi) as (ids & Hids & Hpair).
    exists ids. rewrite merge_sort_Permutation. split; [by eapply list_elem_of_lookup_2|done].
Qed.

Lemma in_map_inj r a b id :
  registry_wf r → in_map (reg_interner r) !! a = Some id → in_map (reg_interner r) !! b = Some id → a = b.
Proof.
  intros Hwf Ha%wf_resolve Hb%wf_resolve; [congruence|apply Hwf..].
Qed.

(** A key with one value in the list has that value in the resolved set. *)
Lemma resolve_tags_get tags r k v :
  registry_wf r → reg_capacity (resolve_tags tags r).2 →
  (k, v) ∈ tags → (∀ v', (k, v') ∈ tags → v' = v) →
  let '(t, r1) := resolve_tags tags r in
  ∃ kid vid, pair_ids r1 (k, v) (kid, vid) ∧ get t kid = Some vid.
Proof.
  intros Hwf Hcap Hin Huniq. pose proof (resolve_tags_spec tags r Hwf Hcap) as Hs.
  destruct (resolve_tags tags r) as [t r1]. destruct Hs as (He & Hsort & Hto & Hfrom).
  pose proof (ef_wf _ _ _ He) as Hwf1.
  destruct (Hfrom _ Hin) as ([kid vid] & Hids & Hk & Hv). simpl in *.
  pose proof (get_spec t kid (sorted_keys_sorted _ Hsort)) as Hg.
  exists kid, vid. split; [done|].
  destruct (get t kid) as [vid'|]; [|by destruct (Hg vid)]. f_equal. destruct Hg as (i & Hi & _). apply list_elem_of_lookup_2 in Hi.
  destruct (Hto _ Hi) as ([k' v'] & Hp & Hk' & Hv'). simpl in *.
  assert (k' = k) as -> by (by eapply in_map_inj).
  rewrite (Huniq v' Hp) in Hv'. congruence.
Qed.

(** The resolved set is the resolved list, in some order. *)
Lemma resolve_tags_list tags r :
  registry_wf r → reg_capacity (resolve_tags tags r).2 →
  ∃ l, l ≡ₚ tags ∧ Forall2 (pair_ids (resolve_tags tags r).2) l (resolve_tags tags r).1.
Proof.
  intros Hwf. pose proof (resolve_pairs_spec tags r Hwf) as Hp. unfold resolve_tags.
  destruct (resolve_pairs tags r) as [l r1]. simpl in *. intros Hcap. destruct (Hp Hcap) as [_ Hall].
  apply Forall2_flip in Hall.
  destruct (Permutation_Forall2 (symmetry (merge_sort_Permutation pair_le l)) Hall) as (tags' & Hperm & Hall').
  exists tags'. split; [done|]. by apply Forall2_flip.
Qed.

(** ** One sample *)

(** The identifiers are registered: five distinct counters, and the latency
    metric is not a counter. *)
Definition counters (ids : RequestMetricIds) : list MetricId :=
  [requests_total ids; bytes_received_total ids; bytes_sent_total ids; errors_total ids;
   errors_by_kind_total ids].

Definition ids_ok (ids : RequestMetricIds) (r : Registry) : Prop :=
  Forall (λ m, is_counter m r) (counters ids) ∧ NoDup (counters ids) ∧
  ∀ m, is_counter m r → m ≠ latency_id ids.

Lemma ids_ok_effect ids r ops r' : effect r ops r' → ids_ok ids r → ids_ok ids r'.
Proof.
  intros [_ D _ _] (H1 & H2 & H3). unfold ids_ok, is_counter in *. by rewrite D.
Qed.

Definition sample_ok (s : RequestSample) : Prop := 0 ≤ rq_bytes_received s ∧ 0 ≤ rq_bytes_sent s.

(** What a sample adds, with the tags of its protocol and of its error kind. *)
Definition sample_ops (ids : RequestMetricIds) (tp tk : TagSet) (s : RequestSample) :
    list (MetricId * TagSet * Z) :=
  [(requests_total ids, tp, 1); (bytes_received_total ids, tp, rq_bytes_received s);
   (bytes_sent_total ids, tp, rq_bytes_sent s)] ++
  if rq_ok s then []
  else (errors_total ids, tp, 1) ::
    match rq_error_kind s with Some _ => [(errors_by_kind_total ids, tk, 1)] | None => [] end.

Lemma sample_ops_nonneg ids tp tk s : sample_ok s → ops_nonneg (sample_ops ids tp tk s).
Proof.
  intros [? ?]. unfold sample_ops, ops_nonneg. apply Forall_app. split.
  - each ltac:(simpl; lia).
  - destruct (rq_ok s); [constructor|]. destruct (rq_error_kind s); each ltac:(simpl; lia).
Qed.

Lemma get_handle_interner metric tags r : reg_interner (get_handle metric tags r).2 = reg_interner r.
Proof.
  unfold get_handle, get_handle_insert. destruct (get_handle_read metric tags r) as [[h|k]|]; try done.
  by destruct (storage_new k (reg_heap r)).
Qed.

Lemma count_strings metric tags n r : strings (count metric tags n r) = strings r.
Proof.
  pose proof (get_handle_interner metric tags r) as Hi. unfold count, bump, strings. simpl.
  destruct (get_handle metric tags r) as [[h|] r1]; simpl in *; by rewrite Hi.
Qed.

Lemma observe_strings metric tags v r : strings (observe metric tags v r) = strings r.
Proof.
  pose proof (get_handle_interner metric tags r) as Hi. unfold observe, strings.
  destruct (get_handle metric tags r) as [[h|] r1]; simpl in *; by rewrite Hi.
Qed.

(** Resolving merged tags is an effect without counts; a key with one value in
    the merged list has it in the resolved set. *)
Definition merged_tags (reserved : list string) (extra base : list (string * string)) : list (string * string) :=
  base ++ filter (λ p, p.1 ∉ reserved) extra.

Lemma resolve_merged_tags reserved extra base r :
  resolve_merged reserved extra base r = resolve_tags (merged_tags reserved extra base) r.
Proof. unfold resolve_merged, merged_tags. destruct extra; simpl; [|done]. by rewrite app_nil_r. Qed.

Lemma resolve_merged_get reserved extra base r k v :
  registry_wf r → reg_capacity (resolve_merged reserved extra base r).2 →
  (k, v) ∈ merged_tags reserved extra base →
  (∀ v', (k, v') ∈ merged_tags reserved extra base → v' = v) →
  let '(t, r1) := resolve_merged reserved extra base r in
  effect r [] r1 ∧ ∃ kid vid, pair_ids r1 (k, v) (kid, vid) ∧ get t kid = Some vid.
Proof.
  rewrite resolve_merged_tags. intros Hwf Hcap Hin Huniq.
  pose proof (resolve_tags_spec _ r Hwf Hcap) as H1.
  pose proof (resolve_tags_get _ r k v Hwf Hcap Hin Huniq) as H2.
  destruct (resolve_tags _ r) as [t r1]. by destruct H1.
Qed.

(** The pairs of the base are kept: no reserved key comes from the extra tags. *)
Lemma resolve_merged_spec reserved extra base r k v :
  registry_wf r → reg_capacity (resolve_merged reserved extra base r).2 →
  (k, v) ∈ base → (∀ v', (k, v') ∈ base → v' = v) → k ∈ reserved →
  let '(t, r1) := resolve_merged reserved extra base r in
  effect r [] r1 ∧ ∃ kid vid, pair_ids r1 (k, v) (kid, vid) ∧ get t kid = Some vid.
Proof.
  intros Hwf Hcap Hin Huniq Hres. apply resolve_merged_get; [done|done|apply elem_of_app; by left|].
  intros v' [Hb|[Hf _]%list_elem_of_filter]%elem_of_app; [by apply Huniq|done].
Qed.

Lemma resolve_merged_strings reserved extra base r :
  (strings r ≤ strings (resolve_merged reserved extra base r).2)%nat.
Proof. unfold resolve_merged. destruct (is_empty extra); apply resolve_tags_strings. Qed.

Lemma effect_step r ops r1 ops' r2 :
  ops_nonneg ops → ops_nonneg ops' → effect r ops r1 →
  (registry_wf r1 → effect r1 ops' r2) → effect r (ops ++ ops') r2.
Proof. intros Hn Hn' E1 E2. eapply effect_trans; [done|done|done|]. apply E2, E1. Qed.

(** The error part of [record_request]. *)
Definition record_errors (ids : RequestMetricIds) (sample : RequestSample)
    (extra_tags : list (string * string)) (tags_protocol : TagSet) (r : Registry) : Registry :=
  if negb (rq_ok sample) then
    let r := count (errors_total ids) tags_protocol 1 r in
    match rq_error_kind sample with
    | Some kind =>
        let '(tags, r) :=
          resolve_merged request_reserved extra_tags
            [("scenario", rq_scenario sample); ("protocol", as_str (rq_protocol sample));
             ("error_kind", kind)]%string r in
        count (errors_by_kind_total ids) tags 1 r
    | None => r
    end
  else r.

Lemma record_errors_strings ids s extra tp r :
  (strings r ≤ strings (record_errors ids s extra tp r))%nat.
Proof.
  unfold record_errors. destruct (rq_ok s); simpl; [done|].
  pose proof (count_strings (errors_total ids) tp 1 r) as Hc.
  destruct (rq_error_kind s) as [kind|]; [|lia].
  match goal with |- context [resolve_merged ?a ?b ?c ?d] =>
    pose proof (resolve_merged_strings a b c d) as Hr; destruct (resolve_merged a b c d) as [t r1] end.
  rewrite count_strings. simpl in Hr. lia.
Qed.

Lemma record_errors_effect ids s extra tp r :
  registry_wf r → ids_ok ids r → reg_capacity (record_errors ids s extra tp r) →
  ∃ tk, effect r (if rq_ok s then []
    else (errors_total ids, tp, 1) ::
      match rq_error_kind s with Some _ => [(errors_by_kind_total ids, tk, 1)] | None => [] end)
    (record_errors ids s extra tp r).
Proof.
  intros Hwf Hids. pose proof (proj1 Hids) as Hc. unfold counters in Hc.
  apply Forall_cons in Hc as [_ Hc]. apply Forall_cons in Hc as [_ Hc].
  apply Forall_cons in Hc as [_ Hc]. apply Forall_cons in Hc as [He Hc].
  apply Forall_cons in Hc as [Hk _].
  unfold record_errors. destruct (rq_ok s); simpl.
  { intros _. exists []. by apply effect_refl. }
  pose proof (effect_count (errors_total ids) tp 1 r Hwf He ltac:(lia)) as E1.
  destruct (rq_error_kind s) as [kind|]; [|by exists []].
  set (r1 := count _ _ _ r) in *.
  pose proof (resolve_merged_spec request_reserved extra
    [("scenario", rq_scenario s); ("protocol", as_str (rq_protocol s)); ("error_kind", kind)]%string
    r1 "scenario" (rq_scenario s) (ef_wf _ _ _ E1)) as Hr.
  destruct (resolve_merged _ _ _ r1) as [tk r2]. simpl in Hr. intros Hcap. exists tk.
  assert (reg_capacity r2) as C2.
  { eapply capacity_mono; [|exact Hcap]. by rewrite count_strings. }
  destruct (Hr C2) as [E2 _]; [set_solver|intros v' ?; set_solver|set_solver|].
  assert (effect r [(errors_total ids, tp, 1)] r2) as E12.
  { apply (effect_trans r [_] r1 [] r2); [by repeat constructor|constructor|done|done]. }
  apply (effect_trans r [_] r2 [_]); [by repeat constructor..|done|].
  apply effect_count; [apply E2| |lia].
  unfold is_counter in *. by rewrite (ef_defs _ _ _ E12).
Qed.

(** The latency part of [record_request]. *)
Definition record_latency (ids : RequestMetricIds) (s : RequestSample)
    (extra : list (string * string)) (tp : TagSet) (r : Registry) : Registry :=
  let '(overall_tags, r) :=
    resolve_merged request_reserved extra [("scenario", rq_scenario s)]%string r in
  let r := observe (latency_id ids) overall_tags (micros (rq_latency s)) r in
  observe (latency_id ids) tp (micros (rq_latency s)) r.

Lemma record_latency_strings ids s extra tp r :
  (strings r ≤ strings (record_latency ids s extra tp r))%nat.
Proof.
  unfold record_latency.
  pose proof (resolve_merged_strings request_reserved extra [("scenario", rq_scenario s)]%string r) as H3.
  destruct (resolve_merged _ _ _ r) as [t r4]. cbv zeta. rewrite !observe_strings. done.
Qed.

Lemma record_latency_effect ids s extra tp r :
  registry_wf r → ids_ok ids r → reg_capacity (record_latency ids s extra tp r) →
  effect r [] (record_latency ids s extra tp r) ∧ reg_capacity r.
Proof.
  intros Hwf Hids. unfold record_latency.
  pose proof (resolve_merged_spec request_reserved extra [("scenario", rq_scenario s)]%string
    r "scenario" (rq_scenario s) Hwf) as Hr.
  pose proof (resolve_merged_strings request_reserved extra [("scenario", rq_scenario s)]%string r) as Hl.
  destruct (resolve_merged _ _ _ r) as [t r1]. simpl in Hr, Hl. intros Hcap.
  assert (reg_capacity r1) as C1.
  { eapply capacity_mono; [|exact Hcap]. by rewrite !observe_strings. }
  split; [|by eapply capacity_mono].
  destruct (Hr C1) as [E1 _]; [set_solver|intros v' ?; set_solver|set_solver|].
  pose proof (ids_ok_effect _ _ _ _ E1 Hids) as (_ & _ & Hne1).
  pose proof (effect_observe (latency_id ids) t (micros (rq_latency s)) r1 (ef_wf _ _ _ E1) Hne1) as E2.
  set (r2 := observe _ _ _ r1) in *.
  assert (∀ m, is_counter m r2 → m ≠ latency_id ids) as Hne2.
  { intros m. unfold is_counter. rewrite (ef_defs _ _ _ E2). apply Hne1. }
  pose proof (effect_observe (latency_id ids) tp (micros (rq_latency s)) r2 (ef_wf _ _ _ E2) Hne2) as E3.
  apply (effect_trans r [] r2 []); [constructor..| |done].
  by apply (effect_trans r [] r1 []); [constructor..| |].
Qed.

(** The counters of [record_request]. *)
Definition record_counts (ids : RequestMetricIds) (s : RequestSample) (tp : TagSet) (r : Registry) : Registry :=
  count (bytes_sent_total ids) tp (rq_bytes_sent s)
    (count (bytes_received_total ids) tp (rq_bytes_received s)
      (count (requests_total ids) tp 1 r)).

Lemma record_counts_effect ids s tp r :
  registry_wf r → ids_ok ids r → sample_ok s →
  effect r [(requests_total ids, tp, 1); (bytes_received_total ids, tp, rq_bytes_received s);
            (bytes_sent_total ids, tp, rq_bytes_sent s)] (record_counts ids s tp r).
Proof.
  intros Hwf Hids [Hb1 Hb2]. pose proof (proj1 Hids) as Hc. unfold counters in Hc.
  apply Forall_cons in Hc as [H1 Hc]. apply Forall_cons in Hc as [H2 Hc].
  apply Forall_cons in Hc as [H3 _]. unfold record_counts.
  assert (∀ r' ops, effect r ops r' → ∀ m, is_counter m r → is_counter m r') as Hmove.
  { intros r' ops E m. unfold is_counter. by rewrite (ef_defs _ _ _ E). }
  pose proof (effect_count (requests_total ids) tp 1 r Hwf H1 ltac:(lia)) as E1.
  set (r1 := count _ _ 1 r) in *.
  assert (effect r [(requests_total ids, tp, 1); (bytes_received_total ids, tp, rq_bytes_received s)]
    (count (bytes_received_total ids) tp (rq_bytes_received s) r1)) as E2.
  { apply (effect_trans r [_] r1 [_]); [each ltac:(simpl; lia)..|done|].
    apply effect_count; [apply E1|by eapply Hmove|done]. }
  set (r2 := count _ _ _ r1) in *.
  apply (effect_trans r [_; _] r2 [_]); [each ltac:(simpl; lia)..|done|].
  apply effect_count; [apply E2|by eapply Hmove|done].
Qed.

(** What follows the first resolution. *)
Definition record_resolved (ids : RequestMetricIds) (s : RequestSample) (extra : list (string * string))
    (tp : TagSet) (r : Registry) : Registry :=
  record_latency ids s extra tp (record_errors ids s extra tp (record_counts ids s tp r)).

Lemma record_request_eq ids s extra r :
  record_request ids s extra r =
  let '(tp, r) := resolve_merged request_reserved extra
    [("scenario", rq_scenario s); ("protocol", as_str (rq_protocol s))]%string r in
  record_resolved ids s extra tp r.
Proof. reflexivity. Qed.

Lemma record_resolved_strings ids s extra tp r : (strings r ≤ strings (record_resolved ids s extra tp r))%nat.
Proof.
  pose proof (record_errors_strings ids s extra tp (record_counts ids s tp r)) as H2.
  assert (strings (record_counts ids s tp r) = strings r) as Hc.
  { unfold record_counts. by rewrite !count_strings. }
  pose proof (record_latency_strings ids s extra tp (record_errors ids s extra tp (record_counts ids s tp r))) as H3.
  unfold record_resolved. lia.
Qed.

Lemma record_resolved_effect ids s extra tp r :
  registry_wf r → ids_ok ids r → sample_ok s → reg_capacity (record_resolved ids s extra tp r) →
  ∃ tk, effect r (sample_ops ids tp tk s) (record_resolved ids s extra tp r).
Proof.
  intros Hwf I1 Hs Hcap. unfold record_resolved in *.
  set (r2 := record_counts ids s tp r) in *. set (r3 := record_errors ids s extra tp r2) in *.
  assert (reg_capacity r3) as C3.
  { eapply capacity_mono; [|exact Hcap]. apply record_latency_strings. }
  pose proof (record_counts_effect ids s tp r Hwf I1 Hs) as E2. fold r2 in E2.
  pose proof (ids_ok_effect _ _ _ _ E2 I1) as I2.
  destruct (record_errors_effect ids s extra tp r2 (ef_wf _ _ _ E2) I2 C3) as [tk E3]. fold r3 in E3.
  pose proof (ids_ok_effect _ _ _ _ E3 I2) as I3.
  destruct (record_latency_effect ids s extra tp r3 (ef_wf _ _ _ E3) I3 Hcap) as [E4 _].
  pose proof (sample_ops_nonneg ids tp tk s Hs) as Hn. unfold sample_ops in Hn.
  pose proof (proj1 (proj1 (Forall_app _ _ _) Hn)) as Hn1.
  pose proof (proj2 (proj1 (Forall_app _ _ _) Hn)) as Hn2.
  assert (effect r (sample_ops ids tp tk s) r3) as E13 by (by eapply effect_trans).
  exists tk. rewrite <- (app_nil_r (sample_ops _ _ _ _)). by eapply effect_trans; [|constructor| |].
Qed.

(** One sample: its counts have the tags of its protocol series. *)
Lemma record_request_tags ids s extra r :
  registry_wf r → ids_ok ids r → sample_ok s → reg_capacity (record_request ids s extra r) →
  ∃ tp tk, effect r (sample_ops ids tp tk s) (record_request ids s extra r) ∧
    ∀ k v, let tags := merged_tags request_reserved extra
      [("scenario", rq_scenario s); ("protocol", as_str (rq_protocol s))]%string in
      (k, v) ∈ tags → (∀ v', (k, v') ∈ tags → v' = v) →
      ∃ kid vid, pair_ids (record_request ids s extra r) (k, v) (kid, vid) ∧ get tp kid = Some vid.
Proof.
  intros Hwf Hids Hs. rewrite record_request_eq.
  set (base := [("scenario", rq_scenario s); ("protocol", as_str (rq_protocol s))]%string).
  pose proof (λ k v, resolve_merged_get request_reserved extra base r k v Hwf) as Hg.
  pose proof (resolve_merged_spec request_reserved extra base r "scenario" (rq_scenario s) Hwf) as Hr.
  destruct (resolve_merged request_reserved extra base r) as [tp r1]. simpl in Hr, Hg.
  intros Hcap. assert (reg_capacity r1) as C1.
  { eapply capacity_mono; [|exact Hcap]. apply record_resolved_strings. }
  destruct (Hr C1) as (E1 & _); [set_solver|intros v' ?; set_solver|set_solver|].
  pose proof (ids_ok_effect _ _ _ _ E1 Hids) as I1.
  destruct (record_resolved_effect ids s extra tp r1 (ef_wf _ _ _ E1) I1 Hs Hcap) as (tk & E2).
  exists tp, tk. split.
  - change (sample_ops ids tp tk s) with ([] ++ sample_ops ids tp tk s).
    eapply effect_trans; [constructor|by apply sample_ops_nonneg|done|done].
  - intros k v tags Hin Hu. destruct (Hg k v C1 Hin Hu) as (_ & kid & vid & [Hp1 Hp2] & Hget).
    exists kid, vid. split; [|done].
    split; simpl in *; eapply effect_in_map; try exact E2; try done; apply E1.
Qed.

Lemma record_request_effect ids s extra r :
  registry_wf r → ids_ok ids r → sample_ok s → reg_capacity (record_request ids s extra r) →
  ∃ tp tk ks vid, effect r (sample_ops ids tp tk s) (record_request ids s extra r) ∧
    pair_ids (record_request ids s extra r) ("scenario"%string, rq_scenario s) (ks, vid) ∧
    get tp ks = Some vid.
Proof.
  intros Hwf Hids Hs Hcap. destruct (record_request_tags ids s extra r Hwf Hids Hs Hcap) as (tp & tk & E & Ht).
  destruct (Ht "scenario"%string (rq_scenario s)) as (ks & vid & Hp & Hg).
  - apply elem_of_app. left. set_solver.
  - intros v' [Hb|[Hf _]%list_elem_of_filter]%elem_of_app; set_solver.
  - by exists tp, tk, ks, vid.
Qed.

(** ** A run of samples *)
Abbreviation Recorded := (RequestSample * list (string * string))%type.

Definition record_all (ids : RequestMetricIds) (samples : list Recorded) (r : Registry) : Registry :=
  foldl (λ r s, record_request ids s.1 s.2 r) r samples.

Lemma record_request_strings ids s extra r : (strings r ≤ strings (record_request ids s extra r))%nat.
Proof.
  rewrite record_request_eq.
  match goal with |- context [resolve_merged ?a ?b ?c ?d] =>
    pose proof (resolve_merged_strings a b c d) as H1; destruct (resolve_merged a b c d) as [tp r1] end.
  pose proof (record_resolved_strings ids s extra tp r1). simpl in *. lia.
Qed.

Lemma record_all_strings ids samples r : (strings r ≤ strings (record_all ids samples r))%nat.
Proof.
  unfold record_all. revert r. induction samples as [|[s e] l IH]; intros r; simpl; [done|].
  pose proof (record_request_strings ids s e r). specialize (IH (record_request ids s e r)). lia.
Qed.

(** The counts of a run: one list per sample, with its scenario's identifier. *)
Definition run_ops (ids : RequestMetricIds) (r : Registry) (s : Recorded)
    (ops : list (MetricId * TagSet * Z)) : Prop :=
  ∃ tp tk ks vid, ops = sample_ops ids tp tk s.1 ∧
    pair_ids r ("scenario"%string, rq_scenario s.1) (ks, vid) ∧ get tp ks = Some vid.

Lemma run_ops_effect ids r ops' r' s ops :
  registry_wf r → effect r ops' r' → run_ops ids r s ops → run_ops ids r' s ops.
Proof.
  intros Hwf E (tp & tk & ks & vid & -> & [H1 H2] & Hg). exists tp, tk, ks, vid.
  split_and!; [done| |done]. split; by eapply effect_in_map.
Qed.

Lemma record_all_effect ids samples r :
  registry_wf r → ids_ok ids r → Forall (λ s, sample_ok s.1) samples →
  reg_capacity (record_all ids samples r) →
  ∃ opss, effect r (concat opss) (record_all ids samples r) ∧
    Forall ops_nonneg opss ∧ Forall2 (run_ops ids (record_all ids samples r)) samples opss.
Proof.
  unfold record_all. revert r. induction samples as [|[s e] l IH]; intros r Hwf Hids Hok Hcap; simpl in *.
  { exists []. split_and!; [by apply effect_refl|constructor|constructor]. }
  apply Forall_cons in Hok as [Hs Hok].
  assert (reg_capacity (record_request ids s e r)) as C1.
  { eapply capacity_mono; [|exact Hcap]. apply (record_all_strings ids l). }
  destruct (record_request_effect ids s e r Hwf Hids Hs C1) as (tp & tk & ks & vid & E1 & Hp & Hg).
  pose proof (sample_ops_nonneg ids tp tk s Hs) as Hn1.
  destruct (IH _ (ef_wf _ _ _ E1) (ids_ok_effect _ _ _ _ E1 Hids) Hok Hcap) as (opss & E2 & Hn & Hall).
  exists (sample_ops ids tp tk s :: opss). split_and!; [|by constructor|].
  - apply (effect_trans r (sample_ops ids tp tk s) (record_request ids s e r) (concat opss));
      [done| |done|done]. unfold ops_nonneg. by apply Forall_concat.
  - constructor; [|done]. eapply run_ops_effect; [apply E1|exact E2|].
    by exists tp, tk, ks, vid.
Qed.

Lemma eff_concat opss m pred : eff (concat opss) m pred = sumf (λ ops, eff ops m pred) opss.
Proof.
  induction opss as [|ops opss IH]; [done|].
  rewrite sumf_cons, <- IH. apply sumf_app.
Qed.

(** The weight of a sample in each protocol-scoped counter. *)
Definition weight (ids : RequestMetricIds) (m : MetricId) (s : RequestSample) : Z :=
  if bool_decide (m = requests_total ids) then 1
  else if bool_decide (m = bytes_received_total ids) then rq_bytes_received s
  else if bool_decide (m = bytes_sent_total ids) then rq_bytes_sent s
  else if rq_ok s then 0 else 1.

Definition scoped (ids : RequestMetricIds) : list MetricId :=
  [requests_total ids; bytes_received_total ids; bytes_sent_total ids; errors_total ids].

Lemma eff_sample ids tp tk s m pred :
  NoDup (counters ids) → m ∈ scoped ids →
  eff (sample_ops ids tp tk s) m pred = if pred tp then weight ids m s else 0.
Proof.
  intros Hnd Hm. unfold counters in Hnd.
  repeat (apply NoDup_cons in Hnd as [? Hnd]). unfold eff, sample_ops. rewrite sumf_app.
  assert (sumf (λ op, if bool_decide (op.1.1 = m) then if pred op.1.2 then op.2 else 0 else 0)
    (if rq_ok s then [] else (errors_total ids, tp, 1) ::
      match rq_error_kind s with Some _ => [(errors_by_kind_total ids, tk, 1)] | None => [] end) =
    if bool_decide (m = errors_total ids) then if pred tp then (if rq_ok s then 0 else 1) else 0 else 0)
    as ->.
  { unfold scoped in Hm. destruct (rq_ok s), (rq_error_kind s); unfold sumf; simpl;
      repeat case_bool_decide; destruct (pred tp); set_solver by lia. }
  unfold sumf, weight, scoped in *; simpl.
  repeat case_bool_decide; subst; destruct (pred tp); try lia; set_solver by lia.
Qed.

(** The whole run, for one counter and one scenario. *)
Lemma run_total ids samples r m sc ks vs r2 :
  registry_wf r → ids_ok ids r → Forall (λ s, sample_ok s.1) samples →
  reg_capacity (record_all ids samples r) → m ∈ scoped ids → metric_sum count_of (λ _, true) m r = 0 →
  effect (record_all ids samples r) [] r2 → pair_ids r2 ("scenario"%string, sc) (ks, vs) →
  sumf (λ s, weight ids m s.1) samples ≤ u64_max →
  metric_sum count_of (query_matches (where_eq ks vs (query m))) m r2 =
  sumf (λ s, if bool_decide (rq_scenario s.1 = sc) then weight ids m s.1 else 0) samples.
Proof.
  intros Hwf Hids Hok Hcap Hm H0 E2 [Hks Hvs] Hmax.
  destruct (record_all_effect ids samples r Hwf Hids Hok Hcap) as (opss & E1 & Hn & Hall1).
  assert (Forall2 (run_ops ids r2) samples opss) as Hall.
  { eapply Forall2_impl; [exact Hall1|]. intros s ops. eapply run_ops_effect; [apply E1|exact E2]. }
  assert (effect r (concat opss) r2) as E.
  { rewrite <- (app_nil_r (concat opss)). eapply effect_trans; [by apply Forall_concat|constructor|done|done]. }
  clear E1 E2 Hall1 Hcap. rename r2 into r'. pose proof (ef_wf _ _ _ E) as Hwf'.
  assert (is_counter m r) as Hc.
  { destruct Hids as (Hc & _ & _). apply (proj1 (Forall_forall _ _) Hc).
    unfold scoped, counters in *. set_solver. }
  assert (∀ (w : RequestSample → Z) (pred : TagSet → bool),
    (∀ (s : RequestSample) (tp : TagSet) vid, in_map (reg_interner r') !! rq_scenario s = Some vid → get tp ks = Some vid →
      (if pred tp then weight ids m s else 0) = w s) →
    eff (concat opss) m pred = sumf (λ s : Recorded, w s.1) samples) as Heff.
  { intros w pred Hw. rewrite eff_concat. clear E Hn Hmax Hok. induction Hall as
      [|s ops l opss (tp & tk & ks' & vid & -> & [Hp1 Hp2] & Hg) Hall IH]; [done|].
    rewrite !sumf_cons, IH. f_equal. simpl in Hks, Hp1, Hp2. assert (ks' = ks) as -> by congruence.
    rewrite eff_sample; [by apply (Hw _ _ vid)|apply Hids|done]. }
  assert (metric_sum count_of (query_matches (where_eq ks vs (query m))) m r = 0) as Hz.
  { pose proof (metric_sum_nonneg count_of (query_matches (where_eq ks vs (query m))) m r Hwf count_of_ok).
    pose proof (metric_sum_all_ge count_of (query_matches (where_eq ks vs (query m))) m r Hwf count_of_ok).
    lia. }
  rewrite (ef_sum _ _ _ E m Hc), Hz.
  2:{ rewrite H0, (Heff (weight ids m)); [lia|]. done. }
  rewrite (Heff (λ s, if bool_decide (rq_scenario s = sc) then weight ids m s else 0)); [done|].
  intros s tp vid Hp2 Hg. simpl in Hvs. unfold query_matches; simpl. rewrite Hg, andb_true_r.
  case_bool_decide as E1; case_bool_decide as E2; try done.
  - simplify_eq. destruct E2. by eapply in_map_inj.
  - simplify_eq.
Qed.

(** ** The start of a run *)
Definition start_ids : RequestMetricIds := (register_requests empty_registry).1.
Definition start : Registry := (register_requests empty_registry).2.

Lemma start_wf : registry_wf start.
Proof.
  assert (∀ name kind r, registry_wf r → has_room (reg_interner r) →
    Z.of_nat (length (reg_defs r)) < 2 ^ 32 → registry_wf (register name kind r).2) as Hreg.
  { intros name kind r Hwf Hr Hl. pose proof (register_spec name kind r Hwf Hr Hl) as Hs.
    destruct (register name kind r). apply Hs. }
  assert (∀ r, (register_requests r).2 =
    (register "request_latency" MetricKind.Histogram
    (register "request_errors_by_kind_total" MetricKind.Counter
    (register "request_errors_total" MetricKind.Counter
    (register "bytes_sent_total" MetricKind.Counter
    (register "bytes_received_total" MetricKind.Counter
    (register "requests_total" MetricKind.Counter r).2).2).2).2).2).2) as Heq.
  { intros r. unfold register_requests. repeat (destruct (register _ _ _) as [? ?]; cbn [snd]). done. }
  unfold start. rewrite Heq.
  repeat (apply Hreg; [|by vm_compute|by vm_compute]). apply empty_registry_wf.
Qed.

Lemma start_ids_eq : start_ids = mkRequestIds 0 1 2 3 4 5.
Proof. vm_compute. reflexivity. Qed.

Lemma start_defs : reg_defs start =
  [mkMetricDef 0 MetricKind.Counter; mkMetricDef 1 MetricKind.Counter;
   mkMetricDef 2 MetricKind.Counter; mkMetricDef 3 MetricKind.Counter;
   mkMetricDef 4 MetricKind.Counter; mkMetricDef 5 MetricKind.Histogram].
Proof. vm_compute. reflexivity. Qed.

Lemma start_ids_ok : ids_ok start_ids start.
Proof.
  unfold ids_ok, is_counter, counters. rewrite start_ids_eq, start_defs. simpl. split_and!.
  - each ltac:(split; [done|]; eexists; split; reflexivity).
  - repeat (apply NoDup_cons; split; [set_solver by lia|]). apply NoDup_nil_2.
  - intros m (_ & d & Hd & Hk) ->. change (Z.to_nat 5) with 5%nat in Hd. simpl in Hd. by simplify_eq.
Qed.

Lemma start_sum m : metric_sum count_of (λ _, true) m start = 0.
Proof.
  unfold metric_sum. assert (Forall (λ p, p.2 = ∅) (map_to_list (reg_storage start))) as Hs.
  { vm_compute. repeat constructor. }
  destruct (reg_storage start !! m) as [sm|] eqn:E; simpl; [|by rewrite map_to_list_empty].
  apply elem_of_map_to_list in E. eapply Forall_forall in Hs; [|exact E]. simpl in Hs.
  by rewrite Hs, map_to_list_empty.
Qed.

(** ** Properties *)

(** Every recorded request is accounted for, exactly once and under its own
    scenario: from registration on, after any run of [record_request] calls
    with any extra tags, the queries the reports make give for each scenario
    the number of its requests, of its received and sent bytes and of its
    failures, as long as identifiers and totals fit their widths. *)
Theorem samples_accounted samples sc :
  Forall (λ s, sample_ok s.1) samples →
  let r := record_all start_ids samples start in
  let '(ks, r1) := resolve_key "scenario" r in
  let '(vs, r2) := resolve_key sc r1 in
  reg_capacity r2 →
  sumf (λ s, 1 + rq_bytes_received s.1 + rq_bytes_sent s.1) samples ≤ u64_max →
  let total m := sum_counter_total (where_eq ks vs (query m)) r2 in
  let expected w := sumf (λ s, if bool_decide (rq_scenario s.1 = sc) then w s.1 else 0) samples in
  total (requests_total start_ids) = expected (λ _, 1) ∧
  total (bytes_received_total start_ids) = expected rq_bytes_received ∧
  total (bytes_sent_total start_ids) = expected rq_bytes_sent ∧
  total (errors_total start_ids) = expected (λ s, if rq_ok s then 0 else 1).
Proof.
  intros Hok. set (r := record_all start_ids samples start). cbv zeta.
  pose proof (record_all_effect start_ids samples start start_wf start_ids_ok Hok) as He.
  fold r in He. pose proof (resolve_key_strings "scenario" r) as L1.
  pose proof (λ Hw, resolve_key_capacity "scenario" r Hw) as H1.
  destruct (resolve_key "scenario" r) as [ks r1].
  pose proof (resolve_key_strings sc r1) as L2. pose proof (λ Hw, resolve_key_capacity sc r1 Hw) as H2.
  destruct (resolve_key sc r1) as [vs r2]. simpl in *. intros C2 Hmax.
  pose proof (capacity_mono _ _ L2 C2) as C1. pose proof (capacity_mono _ _ L1 C1) as C0.
  destruct (He C0) as (opss & E0 & _ & _).
  destruct (H1 (ef_wf _ _ _ E0) C1) as (E1 & Hks & _).
  destruct (H2 (ef_wf _ _ _ E1) C2) as (E2 & Hvs & _).
  assert (effect r [] r2) as E02 by (by eapply (effect_trans r [] r1 []); [constructor..| |]).
  assert (pair_ids r2 ("scenario"%string, sc) (ks, vs)) as Hp.
  { split; simpl; [|done]. eapply effect_in_map; [apply E1|exact E2|done]. }
  assert (∀ m, m ∈ scoped start_ids →
    sum_counter_total (where_eq ks vs (query m)) r2 =
    sumf (λ s, if bool_decide (rq_scenario s.1 = sc) then weight start_ids m s.1 else 0) samples) as Hall.
  { intros m Hm.
    assert (sumf (λ s, weight start_ids m s.1) samples ≤ u64_max) as Hw.
    { etrans; [|exact Hmax]. apply sumf_le. intros s Hs.
      destruct (proj1 (Forall_forall _ _) Hok s Hs). unfold weight.
      repeat case_bool_decide; try lia. destruct (rq_ok s.1); lia. }
    pose proof (run_total start_ids samples start m sc ks vs r2 start_wf start_ids_ok Hok C0 Hm
      (start_sum m) E02 Hp Hw) as Ht.
    rewrite sum_counter_total_spec; [exact Ht|apply E2|]. simpl. rewrite Ht.
    etrans; [|exact Hw]. apply sumf_le. intros s Hs. case_bool_decide; [lia|].
    destruct (proj1 (Forall_forall _ _) Hok s Hs). unfold weight.
    repeat case_bool_decide; try lia. destruct (rq_ok s.1); lia. }
  rewrite start_ids_eq in *. simpl.
  split_and!; (rewrite Hall; [|unfold scoped; simpl; set_solver]); apply sumf_ext; intros s _;
    case_bool_decide; done.
Qed.

End requests.

(** ** Witnesses *)
Definition two_scenarios : list (RequestSample * list (string * string)) :=
  [(mkSample "a" Http true 1500000 10 4 None, []);
   (mkSample "b" Grpc false 20 7 0 (Some "timeout"%string), [("scenario", "a"); ("region", "eu")]%string);
   (mkSample "a" Http false 900 1 1 None, [("region", "eu")]%string)].

Lemma samples_accounted_witness :
  let r := record_all start_ids two_scenarios start in
  let '(ks, r1) := resolve_key "scenario" r in
  let '(vs, r2) := resolve_key "a" r1 in
  sum_counter_total (where_eq ks vs (query (requests_total start_ids))) r2 = 2 ∧
  sum_counter_total (where_eq ks vs (query (bytes_received_total start_ids))) r2 = 11.
Proof.
  pose proof (samples_accounted two_scenarios "a"
    ltac:(each ltac:(split; simpl; lia))) as Hacc.
  cbv zeta in Hacc |- *.
  destruct (resolve_key "scenario" (record_all start_ids two_scenarios start)) as [ks r1] eqn:E1.
  destruct (resolve_key "a" r1) as [vs r2] eqn:E2.
  assert (reg_capacity r2) as Hcap.
  { replace r2 with (resolve_key "a" (resolve_key "scenario"
      (record_all start_ids two_scenarios start)).2).2 by (by rewrite E1; simpl; rewrite E2).
    clear. vm_compute. reflexivity. }
  destruct (Hacc Hcap ltac:(vm_compute; discriminate)) as (H1 & H2 & _).
  rewrite H1, H2. split; reflexivity.
Defined.

