(* ===== verification/Checks.v ===== *)
(** * Checks (wrkr-lua/src/modules/check/record.rs)

    One call of [check(data, {..})] from a script: every predicate is called
    and counted under its name, its outcome, the scenario, the scenario's tags
    and the current group. *)
From S2P Require Import Prelude Coll Config Key Tags Metrics Registry Requests.

Section checks.
Context {H : HistOps} {M : MapIter}.

(** The tag list of [CheckRecorder::record]. *)
Definition check_tags (ctx : MetricsContext) (group : option string) (name : string)
    (passed : bool) : list (string * string) :=
  let status := if passed then "pass"%string else "fail"%string in
  let tags := merge_base_tags_if_missing ctx ["group"%string]
                [("name"%string, name); ("status"%string, status)] in
  match group with
  | Some g => if has_key "group" tags then tags else tags ++ [("group"%string, g)]
  | None => tags
  end.

Definition record_check (metric_checks : MetricId) (ctx : MetricsContext) (group : option string)
    (name : string) (passed : bool) (r : Registry) : Registry :=
  let '(tags, r) := resolve_tags (check_tags ctx group name passed) r in
  count metric_checks tags 1 r.

(** A predicate may use the metrics itself; [None] when its call fails.  A pair
    of the table that is not a name with a function is [None]. *)
Definition Predicate : Type := Registry → option bool * Registry.

Fixpoint run_checks (metric_checks : MetricId) (ctx : MetricsContext) (group : option string)
    (checks : list (option (string * Predicate))) (all_passed : bool) (r : Registry)
    : bool * Registry :=
  match checks with
  | [] => (all_passed, r)
  | None :: checks => run_checks metric_checks ctx group checks all_passed r
  | Some (name, predicate) :: checks =>
      let '(res, r) := predicate r in
      let passed := default false res in
      let r := record_check metric_checks ctx group name passed r in
      run_checks metric_checks ctx group checks (all_passed && passed) r
  end.

(** ** Lemmas *)

(** Merging adds only keys that are absent. *)
Definition sole (k v : string) (tags : list (string * string)) : Prop :=
  (k, v) ∈ tags ∧ ∀ v', (k, v') ∈ tags → v' = v.

Lemma has_key_true k v tags : (k, v) ∈ tags → has_key k tags = true.
Proof.
  intros Hin. apply existsb_exists. exists (k, v). split; [by apply list_elem_of_In|].
  by apply bool_decide_true.
Qed.

Lemma sole_add k v k' v' tags : sole k v tags → has_key k' tags = false → sole k v (tags ++ [(k', v')]).
Proof.
  intros [Hin Hu] Hk. split; [apply elem_of_app; by left|].
  intros w [Hw|Hw]%elem_of_app; [by apply Hu|]. apply list_elem_of_singleton in Hw as [= -> ->].
  by rewrite (has_key_true _ _ _ Hin) in Hk.
Qed.

Lemma sole_merge k v ctx reserved tags :
  sole k v tags → sole k v (merge_scenario_tags_if_missing ctx reserved tags).
Proof.
  unfold merge_scenario_tags_if_missing. generalize (mc_scenario_tags ctx) as l. intros l. revert tags.
  induction l as [|[k' v'] l IH]; intros tags Hs; simpl; [done|]. apply IH.
  case_bool_decide; [done|]. destruct (has_key k' tags) eqn:Hk; [done|]. by apply sole_add.
Qed.

Lemma has_key_false k tags : has_key k tags = false ↔ ∀ v, (k, v) ∉ tags.
Proof.
  split.
  - intros Hk v Hin. by rewrite (has_key_true k v tags Hin) in Hk.
  - intros Hn. apply not_true_iff_false. intros ([k' v] & Hin & Heq)%existsb_exists.
    apply bool_decide_eq_true in Heq. simpl in Heq. subst. apply (Hn v). by apply list_elem_of_In.
Qed.

Lemma has_key_merge k ctx reserved tags :
  k ∈ reserved → has_key k tags = false → has_key k (merge_scenario_tags_if_missing ctx reserved tags) = false.
Proof.
  intros Hr. unfold merge_scenario_tags_if_missing. generalize (mc_scenario_tags ctx) as l. intros l. revert tags.
  induction l as [|[k' v'] l IH]; intros tags Hn; simpl; [done|]. apply IH.
  case_bool_decide as E; [done|]. destruct (has_key k' tags); [done|]. simpl in E. rewrite has_key_false in *.
  intros v [Hin|[= -> ->]%list_elem_of_singleton]%elem_of_app; [by eapply Hn|done].
Qed.

Lemma sole_absent k v tags : has_key k tags = false → sole k v (tags ++ [(k, v)]).
Proof.
  rewrite has_key_false. intros Hn. split; [set_solver|].
  intros v' [Hin|[= ->]%list_elem_of_singleton]%elem_of_app; [by apply Hn in Hin|done].
Qed.

Lemma check_tags_sole ctx group name (passed : bool) k v :
  (k, v) ∈ [("name", name); ("status", if passed then "pass" else "fail");
            ("scenario", mc_scenario ctx)]%string →
  sole k v (check_tags ctx group name passed).
Proof.
  intros Hin. set (status := if passed then "pass"%string else "fail"%string) in *.
  assert (sole k v (merge_base_tags_if_missing ctx ["group"%string]
    [("name"%string, name); ("status"%string, status)])) as Hs.
  { unfold merge_base_tags_if_missing. simpl. apply sole_merge. unfold sole. clearbody status.
    repeat (apply elem_of_cons in Hin as [[= -> ->]|Hin]); [..|by apply elem_of_nil in Hin];
      (split; [set_solver|intros v' Hv'; repeat (apply elem_of_cons in Hv' as [[=]|Hv']); set_solver]). }
  unfold check_tags. fold status. destruct group as [g|]; [|done].
  destruct (has_key "group" _) eqn:Hk; [done|]. by apply sole_add.
Qed.

Lemma record_check_strings m ctx group name passed r :
  (strings r ≤ strings (record_check m ctx group name passed r))%nat.
Proof.
  unfold record_check. pose proof (resolve_tags_strings (check_tags ctx group name passed) r) as Hl.
  destruct (resolve_tags _ r) as [t r1]. by rewrite count_strings.
Qed.

(** One check: one count, with the identifiers of its name, its outcome and its
    scenario. *)
Lemma record_check_effect m ctx group name (passed : bool) r :
  registry_wf r → is_counter m r → reg_capacity (record_check m ctx group name passed r) →
  ∃ t, effect r [(m, t, 1)] (record_check m ctx group name passed r) ∧ Sorted pair_le t ∧
    ∀ k v, (k, v) ∈ [("name", name); ("status", if passed then "pass" else "fail");
                     ("scenario", mc_scenario ctx)]%string →
      (∃ kid vid, pair_ids (record_check m ctx group name passed r) (k, v) (kid, vid) ∧ get t kid = Some vid) ∧
      ∃ l, Forall2 (pair_ids (record_check m ctx group name passed r)) l t ∧ sole k v l.
Proof.
  intros Hwf Hc. unfold record_check.
  pose proof (resolve_tags_spec (check_tags ctx group name passed) r Hwf) as Hs.
  pose proof (λ k v, resolve_tags_get (check_tags ctx group name passed) r k v Hwf) as Hg.
  pose proof (resolve_tags_list (check_tags ctx group name passed) r Hwf) as Hl.
  destruct (resolve_tags _ r) as [t r1]. simpl in *. intros Hcap.
  assert (reg_capacity r1) as C1 by (eapply capacity_mono; [|exact Hcap]; by rewrite count_strings).
  destruct (Hs C1) as (E1 & Hsort & _).
  assert (is_counter m r1) as Hc1 by (unfold is_counter; by rewrite (ef_defs _ _ _ E1)).
  pose proof (effect_count m t 1 r1 (ef_wf _ _ _ E1) Hc1 ltac:(lia)) as E2.
  exists t. split_and!; [|done|].
  - apply (effect_trans r [] r1 [_]); [constructor|by repeat constructor|done|done].
  - intros k v Hin. destruct (check_tags_sole ctx group name passed k v Hin) as [Hk Hu].
    assert (∀ p ids, pair_ids r1 p ids → pair_ids (count m t 1 r1) p ids) as Hids.
    { intros p ids [H1 H2]. split; (eapply effect_in_map; [apply E1|exact E2|done]). }
    split.
    + destruct (Hg k v C1 Hk Hu) as (kid & vid & Hp & Hget). exists kid, vid. split; [by apply Hids|done].
    + destruct (Hl C1) as (l & Hperm & Hall). exists l. split; [by eapply Forall2_impl|].
      split; [by rewrite Hperm|]. intros v'. rewrite Hperm. apply Hu.
Qed.
End checks.
