(* ===== verification/Text.v ===== *)
(** * Text: the parts of [str] the parsers use

    A [&str] is its UTF-8 bytes.  Every pattern below starts with an ASCII or a
    leading byte, which occurs in valid UTF-8 only at a character boundary, so
    that matching bytes is matching characters. *)
From Stdlib Require Import Ascii.
From S2P Require Import Prelude Coll F64.

Abbreviation len := String.length.

(** A character by its code, for bytes that cannot be written. *)
Definition chr (n : N) : ascii := ascii_of_N n.

Definition newline : ascii := chr 10.

(** ** Characters *)
Definition is_digit (c : ascii) : bool := let n := N_of_ascii c in ((48 <=? n) && (n <=? 57))%N.
Definition digit_val (c : ascii) : Z := Z.of_N (N_of_ascii c) - 48.

Definition to_lower (c : ascii) : ascii :=
  let n := N_of_ascii c in if ((65 <=? n) && (n <=? 90))%N then chr (n + 32) else c.

Fixpoint lowercase (s : string) : string :=
  match s with EmptyString => EmptyString | String c s => String (to_lower c) (lowercase s) end.

(** [eq_ignore_ascii_case]. *)
Definition eq_ignore_ascii_case (a b : string) : bool := bool_decide (lowercase a = lowercase b).

(** The number of bytes of the white space character (Unicode [White_Space])
    a string starts with; 0 when it starts with none. *)
Definition ws_prefix (s : string) : nat :=
  match s with
  | EmptyString => 0
  | String c0 r =>
      let n0 := N_of_ascii c0 in
      if ((9 <=? n0) && (n0 <=? 13) || (n0 =? 32))%N then 1%nat
      else match r with
      | EmptyString => 0
      | String c1 r =>
          let n1 := N_of_ascii c1 in
          if ((n0 =? 0xC2) && ((n1 =? 0x85) || (n1 =? 0xA0)))%N then 2%nat
          else match r with
          | EmptyString => 0
          | String c2 _ =>
              let n2 := N_of_ascii c2 in
              if ((n0 =? 0xE1) && (n1 =? 0x9A) && (n2 =? 0x80)
                  || (n0 =? 0xE2) && (n1 =? 0x80) &&
                     ((0x80 <=? n2) && (n2 <=? 0x8A) || (n2 =? 0xA8) || (n2 =? 0xA9) || (n2 =? 0xAF))
                  || (n0 =? 0xE2) && (n1 =? 0x81) && (n2 =? 0x9F)
                  || (n0 =? 0xE3) && (n1 =? 0x80) && (n2 =? 0x80))%N then 3%nat
              else 0%nat
          end
      end
  end.

(** Drop [n] bytes. *)
Fixpoint drop_bytes (n : nat) (s : string) : string :=
  match n, s with
  | S n, String _ s => drop_bytes n s
  | _, _ => s
  end.

Fixpoint take_bytes (n : nat) (s : string) : string :=
  match n, s with
  | S n, String c s => String c (take_bytes n s)
  | _, _ => EmptyString
  end.

(** [trim_start]: the fuel is the length, each round drops a byte. *)
Fixpoint trim_start_loop (fuel : nat) (s : string) : string :=
  match fuel with
  | O => s
  | S fuel => match ws_prefix s with O => s | n => trim_start_loop fuel (drop_bytes n s) end
  end.
Definition trim_start (s : string) : string := trim_start_loop (len s) s.

(** The suffixes [s] has at character boundaries: [trim_end] cuts at the first
    position from which only white space follows. *)
Fixpoint only_ws (fuel : nat) (s : string) : bool :=
  match s, fuel with
  | EmptyString, _ => true
  | _, O => false
  | _, S fuel => match ws_prefix s with O => false | n => only_ws fuel (drop_bytes n s) end
  end.
Fixpoint trim_end (s : string) : string :=
  match s with
  | EmptyString => EmptyString
  | String c r => if only_ws (len s) s then EmptyString else String c (trim_end r)
  end.
Definition trim (s : string) : string := trim_end (trim_start s).

(** [chars().any(char::is_whitespace)]. *)
Fixpoint has_ws (s : string) : bool :=
  match s with
  | EmptyString => false
  | String _ r => match ws_prefix s with O => has_ws r | _ => true end
  end.

(** [chars().filter(|c| !c.is_whitespace()).collect()]. *)
Fixpoint strip_ws_loop (fuel : nat) (s : string) : string :=
  match fuel, s with
  | S fuel, String c r =>
      match ws_prefix s with
      | O => String c (strip_ws_loop fuel r)
      | n => strip_ws_loop fuel (drop_bytes n s)
      end
  | _, _ => EmptyString
  end.
Definition strip_ws (s : string) : string := strip_ws_loop (len s) s.

Fixpoint has_char (c : ascii) (s : string) : bool :=
  match s with
  | EmptyString => false
  | String x s => if decide (x = c) then true else has_char c s
  end.

(** [split_once] and [split] at an ASCII character. *)
Fixpoint split_once (c : ascii) (s : string) : option (string * string) :=
  match s with
  | EmptyString => None
  | String x r =>
      if decide (x = c) then Some (EmptyString, r)
      else '(a, b) ← split_once c r; Some (String x a, b)
  end.

Fixpoint split (c : ascii) (s : string) : list string :=
  match s with
  | EmptyString => [EmptyString]
  | String x r =>
      if decide (x = c) then EmptyString :: split c r
      else match split c r with
           | [] => [String x EmptyString]
           | p :: ps => String x p :: ps
           end
  end.

(** [strip_prefix] of a string, [strip_suffix] of a character. *)
Fixpoint strip_prefix (p s : string) : option string :=
  match p, s with
  | EmptyString, _ => Some s
  | String a p, String b s => if decide (a = b) then strip_prefix p s else None
  | _, EmptyString => None
  end.

Fixpoint strip_suffix (c : ascii) (s : string) : option string :=
  match s with
  | EmptyString => None
  | String x EmptyString => if decide (x = c) then Some EmptyString else None
  | String x r => String x <$> strip_suffix c r
  end.

(** [str::find] of a string: the first byte position where it matches. *)
Fixpoint find (tok s : string) : option nat :=
  match strip_prefix tok s with
  | Some _ => Some 0%nat
  | None => match s with EmptyString => None | String _ r => S <$> find tok r end
  end.

(** ** Numbers *)
Fixpoint digits_val (acc : Z) (s : string) : option Z :=
  match s with
  | EmptyString => Some acc
  | String c s => if is_digit c then digits_val (10 * acc + digit_val c) s else None
  end.

(** [str::parse] to an unsigned type with maximum [max]: an optional [+] and at
    least one digit. *)
Definition parse_uint (max : Z) (s : string) : option Z :=
  let body := match s with String "+" r => r | _ => s end in
  if decide (body = EmptyString) then None
  else v ← digits_val 0 body; if v <=? max then Some v else None.

(** The leading digits and the rest. *)
Fixpoint span_digits (s : string) : string * string :=
  match s with
  | EmptyString => (EmptyString, EmptyString)
  | String c r => if is_digit c then let '(d, r) := span_digits r in (String c d, r) else (EmptyString, s)
  end.

(** An optional sign. *)
Definition sign_of (s : string) : bool * string :=
  match s with
  | String "-" r => (true, r)
  | String "+" r => (false, r)
  | _ => (false, s)
  end.

(** The exponent of a number: nothing, or [e], a sign and at least one digit. *)
Definition parse_exponent (s : string) : option Z :=
  match s with
  | EmptyString => Some 0
  | String c r =>
      if decide (to_lower c = "e"%char) then
        let '(neg, ds) := sign_of r in
        if decide (ds = EmptyString) then None
        else v ← digits_val 0 ds; Some (if neg then - v else v)
      else None
  end.

(** [str::parse::<f64>]. *)
Definition parse_f64 (s : string) : option f64 :=
  let '(neg, body) := sign_of s in
  let low := lowercase body in
  if decide (low = "inf"%string ∨ low = "infinity"%string) then Some (SpecFloat.S754_infinity neg)
  else if decide (low = "nan"%string) then Some SpecFloat.S754_nan
  else
    let '(int, rest) := span_digits body in
    let '(frac, rest) := match rest with String "." r => span_digits r | _ => (EmptyString, rest) end in
    if decide (int = EmptyString ∧ frac = EmptyString) then None
    else
      m ← digits_val 0 (int ++ frac);
      e ← parse_exponent rest;
      Some (of_decimal neg m (e - Z.of_nat (len frac))).

(** The decimal digits of a natural number, as [Display] prints them. *)
Definition digit_char (n : Z) : ascii := chr (Z.to_N (48 + n)).
Fixpoint show_loop (fuel : nat) (n : Z) (acc : string) : string :=
  match fuel with
  | O => acc
  | S fuel =>
      let acc := String (digit_char (n mod 10)) acc in
      if n / 10 =? 0 then acc else show_loop fuel (n / 10) acc
  end.
Definition show (n : Z) : string := show_loop (S (Z.to_nat (Z.log2 n))) n EmptyString.

(** ** Checks *)
Example trim_unicode : trim (String (chr 0xC2) (String (chr 0xA0) " a b "))%string = "a b"%string.
Proof. reflexivity. Qed.
Example strip_all : strip_ws "  avg  <=  123  " = "avg<=123"%string.
Proof. reflexivity. Qed.
Example parse_half : parse_f64 "-1.5e1" = Some (of_Z (-15)).
Proof. reflexivity. Qed.
Example parse_dot : parse_f64 "." = None ∧ parse_f64 "1." = Some (of_Z 1) ∧ parse_f64 ".5" = Some (of_decimal false 5 (-1)).
Proof. split_and!; reflexivity. Qed.
Example parse_inf : parse_f64 "+InFinity" = Some f_inf ∧ parse_f64 "1e" = None.
Proof. split; reflexivity. Qed.
Example show_120 : show 120 = "120"%string ∧ show 0 = "0"%string.
Proof. split; reflexivity. Qed.
Example find_le : find "<=" "avg<=1" = Some 3%nat.
Proof. reflexivity. Qed.

(** ** Lemmas *)
Local Open Scope string_scope.

Definition is_ascii (c : ascii) : Prop := (N_of_ascii c < 128)%N.

Lemma string_app_cons c a b : String c a ++ b = String c (a ++ b).
Proof. done. Qed.
Lemma string_app_assoc (a b c : string) : (a ++ b) ++ c = a ++ (b ++ c).
Proof. induction a as [|x a IH]; [done|]. by rewrite !string_app_cons, IH. Qed.
Lemma string_app_nil (a : string) : a ++ "" = a.
Proof. induction a as [|x a IH]; [done|]. by rewrite string_app_cons, IH. Qed.
Lemma len_app a b : len (a ++ b) = (len a + len b)%nat.
Proof. induction a as [|x a IH]; simpl; [done|]. by rewrite IH. Qed.
Lemma app_empty a b : a ++ b = "" → a = "" ∧ b = "".
Proof. by destruct a. Qed.
Lemma take_len_app a b : take_bytes (len a) (a ++ b) = a.
Proof. induction a as [|x a IH]; simpl; [by destruct b|]. by rewrite IH. Qed.
Lemma drop_len_app a b : drop_bytes (len a) (a ++ b) = b.
Proof. induction a as [|x a IH]; simpl; [by destruct b|done]. Qed.

(** White space before an ASCII byte does not reach over it. *)
Lemma ws_prefix_app x a c b :
  is_ascii c → ws_prefix (String x a ++ String c b) = ws_prefix (String x a).
Proof.
  unfold is_ascii. intros Hc. destruct a as [|y [|z a]]; simpl; [| |done];
    destruct (_ || _)%N; try done.
  - destruct (N.eqb_spec (N_of_ascii c) 0x85); [lia|]. destruct (N.eqb_spec (N_of_ascii c) 0xA0); [lia|].
    simpl. rewrite andb_false_r. destruct b as [|d b]; [done|].
    destruct (N.eqb_spec (N_of_ascii c) 0x9A); [lia|].
    destruct (N.eqb_spec (N_of_ascii c) 0x80); [lia|]. destruct (N.eqb_spec (N_of_ascii c) 0x81); [lia|].
    by rewrite !andb_false_r.
  - destruct (_ && _)%N; [done|].
    destruct (N.eqb_spec (N_of_ascii c) 0x80); [lia|]. destruct (N.eqb_spec (N_of_ascii c) 0x9F); [lia|].
    destruct (N.eqb_spec (N_of_ascii c) 0xA8); [lia|]. destruct (N.eqb_spec (N_of_ascii c) 0xA9); [lia|].
    destruct (N.eqb_spec (N_of_ascii c) 0xAF); [lia|]. destruct (N.leb_spec 0x80 (N_of_ascii c)); [lia|].
    simpl. by rewrite !andb_false_r.
Qed.

Lemma has_ws_app a c b :
  is_ascii c → has_ws (a ++ String c b) = has_ws a || has_ws (String c b).
Proof.
  intros Hc. induction a as [|x a IH]; [done|]. rewrite string_app_cons.
  change (has_ws (String x ?r)) with (match ws_prefix (String x r) with O => has_ws r | _ => true end).
  cbn [has_ws]. rewrite <- string_app_cons, ws_prefix_app by done.
  destruct (ws_prefix (String x a)); [exact IH|done].
Qed.

Lemma ws_prefix_free s : has_ws s = false → ws_prefix s = 0%nat.
Proof. destruct s as [|c s]; [done|]. cbn [has_ws]. by destruct (ws_prefix (String c s)). Qed.

Lemma has_ws_tail c s : has_ws (String c s) = false → has_ws s = false.
Proof. cbn [has_ws]. by destruct (ws_prefix (String c s)). Qed.

(** Text without white space is not changed by trimming or filtering. *)
Lemma trim_ws_free s : has_ws s = false → trim s = s.
Proof.
  intros Hs. assert (trim_start s = s) as Hst.
  { unfold trim_start. destruct (len s); [done|]. cbn [trim_start_loop]. by rewrite ws_prefix_free. }
  unfold trim. rewrite Hst. clear Hst. induction s as [|c s IH]; [done|].
  cbn [trim_end String.length only_ws]. rewrite ws_prefix_free by done.
  rewrite IH; [done|]. by eapply has_ws_tail.
Qed.

Lemma strip_ws_free s : has_ws s = false → strip_ws s = s.
Proof.
  unfold strip_ws. induction s as [|c s IH]; intros Hs; [done|].
  cbn [String.length strip_ws_loop]. rewrite ws_prefix_free by done.
  rewrite IH; [done|]. by eapply has_ws_tail.
Qed.

(** An ASCII character that is not white space. *)
Definition plain (c : ascii) : bool :=
  let n := N_of_ascii c in ((33 <=? n) && (n <? 128))%N.

Lemma plain_ascii c : plain c = true → is_ascii c.
Proof. unfold plain, is_ascii. intros [_ H%N.ltb_lt]%andb_true_iff. done. Qed.

Lemma ws_prefix_plain c s : plain c = true → ws_prefix (String c s) = 0%nat.
Proof.
  unfold plain. intros [H1%N.leb_le H2%N.ltb_lt]%andb_true_iff. simpl.
  destruct (N.leb_spec (N_of_ascii c) 13); [lia|]. destruct (N.eqb_spec (N_of_ascii c) 32); [lia|].
  rewrite andb_false_r. simpl.
  destruct (N.eqb_spec (N_of_ascii c) 0xC2); [lia|]. destruct (N.eqb_spec (N_of_ascii c) 0xE1); [lia|].
  destruct (N.eqb_spec (N_of_ascii c) 0xE2); [lia|]. destruct (N.eqb_spec (N_of_ascii c) 0xE3); [lia|].
  by destruct s as [|? [|? ?]].
Qed.

Lemma has_ws_plain c s : plain c = true → has_ws (String c s) = has_ws s.
Proof. intros Hc. cbn [has_ws]. by rewrite ws_prefix_plain. Qed.

Lemma has_ws_join a c b :
  plain c = true → has_ws a = false → has_ws b = false → has_ws (a ++ String c b) = false.
Proof.
  intros Hc Ha Hb. rewrite has_ws_app by (by apply plain_ascii). by rewrite Ha, has_ws_plain.
Qed.

Lemma has_char_app c a b : has_char c (a ++ b) = has_char c a || has_char c b.
Proof. induction a as [|x a IH]; simpl; [done|]. by case_decide. Qed.

Lemma split_once_app c a b : has_char c a = false → split_once c (a ++ String c b) = Some (a, b).
Proof.
  induction a as [|x a IH]; simpl; [by rewrite decide_True|]. case_decide; [done|].
  intros Ha. by rewrite IH.
Qed.

Lemma split_once_None c a : has_char c a = false → split_once c a = None.
Proof. induction a as [|x a IH]; simpl; [done|]. case_decide; [done|]. intros Ha. by rewrite IH. Qed.

Lemma split_single c a : has_char c a = false → split c a = [a].
Proof. induction a as [|x a IH]; simpl; [done|]. case_decide; [done|]. intros Ha. by rewrite IH. Qed.

Lemma split_app c a b : has_char c a = false → split c (a ++ String c b) = a :: split c b.
Proof.
  induction a as [|x a IH]; simpl; [by rewrite decide_True|]. case_decide; [done|].
  intros Ha. by rewrite IH.
Qed.

Lemma strip_suffix_app c a : strip_suffix c (a ++ String c "") = Some a.
Proof.
  induction a as [|x a IH]; [simpl; by rewrite decide_True|]. rewrite string_app_cons.
  cbn [strip_suffix]. destruct (a ++ String c "") as [|y r] eqn:E.
  - by apply app_empty in E as [_ ?].
  - by rewrite IH.
Qed.

Lemma strip_prefix_app p s : strip_prefix p (p ++ s) = Some s.
Proof. induction p as [|x p IH]; simpl; [done|]. by rewrite decide_True. Qed.

Lemma strip_prefix_Some p s r : strip_prefix p s = Some r → s = p ++ r.
Proof.
  revert s. induction p as [|x p IH]; intros [|y s]; simpl; [by intros [= <-]|by intros [= <-]|done|].
  case_decide; [|done]. subst. intros Hs%IH. by rewrite Hs.
Qed.

(** A token with a character the text lacks is not found. *)
Lemma find_None tok s c : has_char c tok = true → has_char c s = false → find tok s = None.
Proof.
  intros Ht. induction s as [|x s IH]; intros Hs.
  - destruct tok; [done|]. done.
  - cbn [find]. destruct (strip_prefix tok (String x s)) as [r|] eqn:E.
    + apply strip_prefix_Some in E. rewrite E, has_char_app, Ht in Hs. done.
    + rewrite IH; [done|]. simpl in Hs. by destruct (decide (x = c)).
Qed.

(** A token is found where its first character first occurs. *)
Lemma find_app c tok a b :
  has_char c a = false → find (String c tok) (a ++ String c tok ++ b) = Some (len a).
Proof.
  induction a as [|x a IH]; intros Ha.
  - change ("" ++ String c tok ++ b) with (String c tok ++ b).
    destruct (String c tok ++ b) as [|y r] eqn:E; [done|].
    cbn [find]. rewrite <- E, strip_prefix_app. done.
  - rewrite string_app_cons. cbn [find strip_prefix]. simpl in Ha.
    destruct (decide (x = c)); [done|]. rewrite decide_False by congruence. by rewrite IH.
Qed.

Local Close Scope string_scope.

(** ** Decimal numbers *)
Fixpoint all_digits (s : string) : bool :=
  match s with EmptyString => true | String c s => is_digit c && all_digits s end.

Lemma digit_char_spec d : 0 ≤ d < 10 → is_digit (digit_char d) = true ∧ digit_val (digit_char d) = d.
Proof.
  intros Hd. assert (d = 0 ∨ d = 1 ∨ d = 2 ∨ d = 3 ∨ d = 4 ∨ d = 5 ∨ d = 6 ∨ d = 7 ∨ d = 8 ∨ d = 9) as Hc by lia.
  repeat (destruct Hc as [->|Hc]; [done|]). by subst.
Qed.

Lemma show_loop_S fuel n s :
  show_loop (S fuel) n s =
  if n / 10 =? 0 then String (digit_char (n mod 10)) s
  else show_loop fuel (n / 10) (String (digit_char (n mod 10)) s).
Proof. done. Qed.

Lemma show_loop_val fuel n s :
  0 ≤ n < 2 ^ Z.of_nat (S fuel) → digits_val 0 (show_loop (S fuel) n s) = digits_val n s.
Proof.
  revert n s. induction fuel as [|fuel IH]; intros n s Hn; rewrite show_loop_S;
    pose proof (Z.mod_pos_bound n 10 ltac:(lia)) as Hm;
    destruct (digit_char_spec (n mod 10) Hm) as [Hd Hv];
    pose proof (Z.div_mod n 10 ltac:(lia)) as Hdm;
    destruct (Z.eqb_spec (n / 10) 0) as [E|E].
  - cbn [digits_val]. rewrite Hd, Hv. f_equal. lia.
  - change (Z.of_nat 1) with 1 in Hn. lia.
  - cbn [digits_val]. rewrite Hd, Hv. f_equal. lia.
  - rewrite IH.
    + cbn [digits_val]. rewrite Hd, Hv. f_equal. lia.
    + rewrite !Nat2Z.inj_succ, !Z.pow_succ_r in * by lia. lia.
Qed.

Lemma show_loop_digits fuel n s :
  0 ≤ n → all_digits s = true → all_digits (show_loop fuel n s) = true.
Proof.
  revert n s. induction fuel as [|fuel IH]; intros n s Hn Hs; cbn [show_loop]; [done|].
  destruct (digit_char_spec (n mod 10) (Z.mod_pos_bound n 10 ltac:(lia))) as [Hd _].
  assert (all_digits (String (digit_char (n mod 10)) s) = true) as Hs' by (simpl; by rewrite Hd).
  destruct (n / 10 =? 0); [done|]. apply IH; [apply Z.div_pos; lia|done].
Qed.

Lemma show_loop_nonempty fuel n s : show_loop (S fuel) n s ≠ EmptyString.
Proof.
  revert n s. induction fuel as [|fuel IH]; intros n s; rewrite show_loop_S; destruct (n / 10 =? 0); first [done|apply IH].
Qed.

Lemma show_val n : 0 ≤ n → digits_val 0 (show n) = Some n.
Proof.
  intros Hn. unfold show. rewrite show_loop_val; [done|]. split; [done|].
  rewrite Nat2Z.inj_succ, Z2Nat.id by apply Z.log2_nonneg.
  destruct (Z.eq_dec n 0) as [->|]; [done|]. by apply Z.log2_spec; lia.
Qed.

Lemma show_digits n : 0 ≤ n → all_digits (show n) = true.
Proof. intros Hn. by apply show_loop_digits. Qed.

Lemma show_nonempty n : show n ≠ EmptyString.
Proof. apply show_loop_nonempty. Qed.

Lemma digit_range c : is_digit c = true → (48 ≤ N_of_ascii c ≤ 57)%N.
Proof. unfold is_digit. intros [H1%N.leb_le H2%N.leb_le]%andb_true_iff. done. Qed.

Lemma all_digits_char c s : all_digits s = true → is_digit c = false → has_char c s = false.
Proof.
  induction s as [|x s IH]; simpl; [done|]. intros [Hx Hs]%andb_true_iff Hc.
  rewrite decide_False; [by apply IH|]. intros ->. congruence.
Qed.

Lemma all_digits_ws s : all_digits s = true → has_ws s = false.
Proof.
  induction s as [|x s IH]; [done|]. simpl all_digits. intros [Hx Hs]%andb_true_iff.
  rewrite has_ws_plain; [by apply IH|]. apply digit_range in Hx. unfold plain.
  destruct (N.leb_spec 33 (N_of_ascii x)); [|lia]. by destruct (N.ltb_spec (N_of_ascii x) 128); [|lia].
Qed.

Lemma all_digits_span s : all_digits s = true → span_digits s = (s, EmptyString).
Proof.
  induction s as [|x s IH]; simpl; [done|]. intros [-> Hs]%andb_true_iff. by rewrite IH.
Qed.

Lemma digit_not_sign s : all_digits s = true → sign_of s = (false, s).
Proof.
  destruct s as [|x s]; [done|]. simpl. intros [Hx%digit_range _]%andb_true_iff.
  destruct x as [[] [] [] [] [] [] [] []]; try done; vm_compute in Hx; naive_solver.
Qed.

Lemma digit_low c : is_digit c = true → to_lower c = c.
Proof.
  intros Hc%digit_range. unfold to_lower.
  destruct (N.leb_spec 65 (N_of_ascii c)); [lia|]. done.
Qed.

Lemma parse_uint_show max n : 0 ≤ n ≤ max → parse_uint max (show n) = Some n.
Proof.
  intros Hn. unfold parse_uint.
  assert (match show n with String "+" r => r | _ => show n end = show n) as ->.
  { pose proof (show_digits n ltac:(lia)) as Hd. pose proof (digit_not_sign _ Hd) as Hs.
    destruct (show n) as [|x s]; [done|]. simpl in Hd. apply andb_true_iff in Hd as [Hx _].
    destruct x as [[] [] [] [] [] [] [] []]; done. }
  rewrite decide_False by apply show_nonempty. rewrite show_val by lia. simpl.
  by rewrite (proj2 (Z.leb_le n max)) by lia.
Qed.

Lemma of_decimal_int n : 0 ≤ n → of_decimal false n 0 = of_Z n.
Proof.
  intros Hn. destruct n as [|p|p]; [done| |lia]. unfold of_decimal.
  change (2000 <? 0) with false. cbv iota.
  destruct (Z.ltb_spec 0 (- 2000 - Z.log2 (Z.pos p))) as [E|E].
  - pose proof (Z.log2_nonneg (Z.pos p)). lia.
  - change (0 <=? 0) with true. cbv iota. by rewrite Z.mul_1_r.
Qed.

Lemma parse_f64_show n : 0 ≤ n → parse_f64 (show n) = Some (of_Z n).
Proof.
  intros Hn. pose proof (show_digits n Hn) as Hd. pose proof (show_val n Hn) as Hv.
  pose proof (show_nonempty n) as Hne. unfold parse_f64. rewrite digit_not_sign by done.
  assert (∀ w, is_digit (default "x"%char (String.get 0 w)) = false → lowercase (show n) ≠ w) as Hlow.
  { intros w Hw Heq. destruct (show n) as [|c r]; [done|]. simpl in Heq, Hd.
    apply andb_true_iff in Hd as [Hc _]. rewrite digit_low in Heq by done. subst w. simpl in Hw.
    congruence. }
  rewrite decide_False by (intros [E|E]; revert E; by apply Hlow).
  rewrite decide_False by (by apply Hlow). rewrite all_digits_span by done.
  rewrite decide_False by tauto. rewrite string_app_nil, Hv. simpl. by rewrite of_decimal_int.
Qed.
