(* ===== verification/Thresholds.v ===== *)
(** * Threshold metric keys and expressions (wrkr-core/src/thresholds.rs)

    [parse_threshold_metric_key] reads [name{k=v,...}], [parse_threshold_expr]
    reads [agg op value].  Errors are the messages of the source. *)
From Stdlib Require Import Ascii.
From S2P Require Import Prelude Coll F64 Config Text.

Abbreviation presult A := (result string A).

Inductive ThresholdOp := OpLt | OpLte | OpGt | OpGte | OpEq.

Inductive ThresholdAgg := AggAvg | AggMin | AggMax | AggCount | AggRate | AggP (p : Z).

Record ThresholdExpr := mkExpr { te_agg : ThresholdAgg; te_op : ThresholdOp; te_value : f64 }.

Record ThresholdViolation := mkViolation {
  tv_metric : string;
  tv_tags : list (string * string);
  tv_expression : string;
  tv_observed : option f64 }.

(** ** Metric keys *)

Local Open Scope string_scope.

Definition is_simple (s : string) : bool :=
  negb (has_ws s || has_char "{" s || has_char "}" s || has_char "," s || has_char "=" s).

(** One part of the selector, given the tags read so far. *)
Definition parse_selector_part (raw : string) (tags : list (string * string)) (part : string) :
    presult (list (string * string)) :=
  let part := trim part in
  if decide (part = "") then Ok tags
  else
    '(k_raw, v_raw) ← ok_or (split_once "=" part)
      ("invalid selector pair (expected k=v): " ++ raw);
    let k := trim k_raw in
    let v := trim v_raw in
    if decide (k = "" ∨ v = "") then Err ("invalid selector pair (empty key/value): " ++ raw)
    else if negb (is_simple k) || negb (is_simple v) then
      Err ("invalid selector (unsupported characters in key/value): " ++ raw)
    else if existsb (λ p, bool_decide (p.1 = k)) tags then
      Err ("invalid selector (duplicate tag key `" ++ k ++ "`): " ++ raw)
    else Ok (tags ++ [(k, v)])%list.

Fixpoint parse_selector (raw : string) (tags : list (string * string)) (parts : list string) :
    presult (list (string * string)) :=
  match parts with
  | [] => Ok tags
  | p :: parts => tags ← parse_selector_part raw tags p; parse_selector raw tags parts
  end.

(** The order of the final sort: by key, then by value. *)
Definition tag_le (a b : string * string) : Prop :=
  if decide (a.1 = b.1) then str_le a.2 b.2 else str_le a.1 b.1.
#[export] Instance tag_le_dec a b : Decision (tag_le a b).
Proof. unfold tag_le. case_decide; apply _. Defined.

Definition parse_threshold_metric_key (raw : string) : presult (string * list (string * string)) :=
  let raw := trim raw in
  if decide (raw = "") then Err "empty metric key"
  else
    match split_once "{" raw with
    | None => Ok (raw, [])
    | Some (name_raw, selector_with_brace) =>
        let name := trim name_raw in
        if decide (name = "") then Err ("invalid metric key (missing metric name): " ++ raw)
        else
          selector ← ok_or (strip_suffix "}" selector_with_brace)
            ("invalid metric key (missing `}`): " ++ raw);
          tags ← parse_selector raw [] (split "," selector);
          if decide (tags = []) then Err ("invalid metric key (empty selector): " ++ raw)
          else Ok (name, merge_sort tag_le tags)
    end.

(** ** Expressions *)

Definition ops : list (string * ThresholdOp) :=
  [("<=", OpLte); (">=", OpGte); ("==", OpEq); ("<", OpLt); (">", OpGt)].

(** [find_map] over the operators, in their order. *)
Fixpoint find_op (l : list (string * ThresholdOp)) (s : string) : option (nat * nat * ThresholdOp) :=
  match l with
  | [] => None
  | (tok, op) :: l =>
      match find tok s with
      | Some pos => Some (pos, len tok, op)
      | None => find_op l s
      end
  end.

Definition parse_agg (raw left : string) : presult ThresholdAgg :=
  if eq_ignore_ascii_case left "avg" then Ok AggAvg
  else if eq_ignore_ascii_case left "min" then Ok AggMin
  else if eq_ignore_ascii_case left "max" then Ok AggMax
  else if eq_ignore_ascii_case left "count" then Ok AggCount
  else if eq_ignore_ascii_case left "rate" then Ok AggRate
  else
    match strip_prefix "p(" left ≫= strip_suffix ")" with
    | Some inner =>
        p ← ok_or (parse_uint (2 ^ 32 - 1) inner) ("invalid percentile in threshold: " ++ raw);
        if (1 <=? p)%Z && (p <=? 100)%Z then Ok (AggP p)
        else Err ("percentile out of range in threshold: " ++ raw)
    | None => Err ("unknown aggregation `" ++ left ++ "` in threshold: " ++ raw)
    end.

Definition parse_threshold_expr (raw : string) : presult ThresholdExpr :=
  let s := strip_ws raw in
  if decide (s = "") then Err "empty threshold"
  else
    '(op_pos, op_len, op) ← ok_or (find_op ops s)
      ("invalid threshold (missing operator): " ++ raw);
    let left := take_bytes op_pos s in
    let right_ := drop_bytes op_len (drop_bytes op_pos s) in
    if decide (left = "" ∨ right_ = "") then Err ("invalid threshold: " ++ raw)
    else
      agg ← parse_agg raw left;
      value ← ok_or (parse_f64 right_) ("invalid numeric value in threshold: " ++ raw);
      Ok (mkExpr agg op value).

(** ** Checks (the tests of the source) *)
Example parse_avg : parse_threshold_expr "  avg  <=  123  " = Ok (mkExpr AggAvg OpLte (of_Z 123)).
Proof. reflexivity. Qed.
Example parse_p101 : parse_threshold_expr "p(101)<1" = Err "percentile out of range in threshold: p(101)<1".
Proof. reflexivity. Qed.
Example parse_key : parse_threshold_metric_key "http_req_duration{ group = login , method=GET }" =
  Ok ("http_req_duration", [("group", "login"); ("method", "GET")]).
Proof. reflexivity. Qed.
Example parse_key_sorts : parse_threshold_metric_key "m{b=1,a=2,}" = Ok ("m", [("a", "2"); ("b", "1")]).
Proof. reflexivity. Qed.

(** ** Canonical texts *)
Definition render_pair (p : string * string) : string := p.1 ++ "=" ++ p.2.

Fixpoint render_pairs (tags : list (string * string)) : string :=
  match tags with
  | [] => ""
  | [p] => render_pair p
  | p :: tags => render_pair p ++ "," ++ render_pairs tags
  end.

Definition render_key (name : string) (tags : list (string * string)) : string :=
  name ++ "{" ++ render_pairs tags ++ "}".

Definition agg_text (a : ThresholdAgg) : string :=
  match a with
  | AggAvg => "avg" | AggMin => "min" | AggMax => "max" | AggCount => "count" | AggRate => "rate"
  | AggP p => "p(" ++ show p ++ ")"
  end.

Definition op_text (o : ThresholdOp) : string :=
  match o with OpLt => "<" | OpLte => "<=" | OpGt => ">" | OpGte => ">=" | OpEq => "==" end.

Definition agg_ok (a : ThresholdAgg) : Prop := match a with AggP p => (1 ≤ p ≤ 100)%Z | _ => True end.

(** A tag the selector syntax can express. *)
Definition tag_ok (p : string * string) : Prop :=
  p.1 ≠ "" ∧ p.2 ≠ "" ∧ is_simple p.1 = true ∧ is_simple p.2 = true.

Lemma is_simple_spec s :
  is_simple s = true →
  has_ws s = false ∧ has_char "{" s = false ∧ has_char "}" s = false ∧ has_char "," s = false ∧
  has_char "=" s = false.
Proof.
  unfold is_simple. rewrite negb_true_iff, !orb_false_iff. tauto.
Qed.

Lemma render_pair_facts p :
  tag_ok p → has_ws (render_pair p) = false ∧ has_char "," (render_pair p) = false ∧ render_pair p ≠ "".
Proof.
  destruct p as [k v]. intros (Hk & Hv & Hks & Hvs). simpl in *. unfold render_pair; simpl.
  apply is_simple_spec in Hks as (K1 & _ & _ & K4 & _). apply is_simple_spec in Hvs as (V1 & _ & _ & V4 & _).
  split_and!.
  - by apply has_ws_join.
  - change ("=" ++ v) with (String "=" v). rewrite has_char_app, K4. simpl. done.
  - intros [_ [=]]%app_empty.
Qed.

Lemma render_pairs_ws tags : Forall tag_ok tags → has_ws (render_pairs tags) = false.
Proof.
  induction tags as [|p tags IH]; [done|]. intros [Hp Ht]%Forall_cons.
  destruct (render_pair_facts p Hp) as (H1 & _). destruct tags as [|q tags]; [done|].
  change (render_pairs (p :: q :: tags)) with (render_pair p ++ String "," (render_pairs (q :: tags))).
  apply has_ws_join; [done|done|by apply IH].
Qed.

Lemma split_render tags :
  Forall tag_ok tags → tags ≠ [] → split "," (render_pairs tags) = render_pair <$> tags.
Proof.
  induction tags as [|p tags IH]; [done|]. intros [Hp Ht]%Forall_cons _.
  destruct (render_pair_facts p Hp) as (_ & H2 & _). destruct tags as [|q tags].
  - simpl. by apply split_single.
  - change (render_pairs (p :: q :: tags)) with (render_pair p ++ String "," (render_pairs (q :: tags))).
    rewrite split_app by done. rewrite IH by done. done.
Qed.

(** One well-formed part is read as its tag. *)
Lemma parse_part_render raw tags p :
  tag_ok p → p.1 ∉ tags.*1 → parse_selector_part raw tags (render_pair p) = Ok (tags ++ [p])%list.
Proof.
  intros Hp Hnew. destruct (render_pair_facts p Hp) as (H1 & _ & H3).
  unfold parse_selector_part. rewrite trim_ws_free, decide_False by done.
  destruct p as [k v]. destruct Hp as (Hk & Hv & Hks & Hvs). simpl in *.
  unfold render_pair; simpl. change ("=" ++ v) with (String "=" v).
  pose proof (is_simple_spec _ Hks) as (K1 & _ & _ & _ & K5). pose proof (is_simple_spec _ Hvs) as (V1 & _).
  rewrite split_once_app by done. cbn. rewrite !trim_ws_free by done.
  rewrite decide_False by tauto. rewrite Hks, Hvs. simpl.
  destruct (existsb _ tags) eqn:E; [|done]. apply existsb_exists in E as (q & Hq & Hqk).
  apply bool_decide_eq_true in Hqk. destruct Hnew. apply list_elem_of_fmap. exists q.
  split; [done|]. by apply list_elem_of_In.
Qed.

Lemma parse_selector_render raw tags acc :
  Forall tag_ok tags → NoDup (acc ++ tags)%list.*1 →
  parse_selector raw acc (render_pair <$> tags) = Ok (acc ++ tags)%list.
Proof.
  revert acc. induction tags as [|p tags IH]; intros acc Ht Hnd.
  { simpl. by rewrite app_nil_r. }
  apply Forall_cons in Ht as [Hp Ht]. simpl fmap. cbn [parse_selector].
  rewrite parse_part_render; [|done|].
  - simpl. rewrite IH; [by rewrite <- app_assoc|done|by rewrite <- app_assoc].
  - rewrite fmap_app in Hnd. apply NoDup_app in Hnd as (_ & Hnd & _). intros Hin.
    apply (Hnd _ Hin). left.
Qed.

(** ** Sorting by key *)
Lemma tag_le_total a b : tag_le a b ∨ tag_le b a.
Proof.
  unfold tag_le. destruct (decide (a.1 = b.1)) as [E|E]; [rewrite decide_True by done; apply str_le_total|].
  rewrite decide_False by done. apply str_le_total.
Qed.
#[export] Instance tag_le_Total : Total tag_le.
Proof. intros a b. apply tag_le_total. Qed.

#[export] Instance tag_le_trans : Transitive tag_le.
Proof.
  intros a b c. unfold tag_le.
  destruct (decide (a.1 = b.1)) as [E1|E1], (decide (b.1 = c.1)) as [E2|E2],
    (decide (a.1 = c.1)) as [E3|E3]; try congruence; intros L1 L2.
  - by etrans.
  - destruct E1. apply (anti_symm str_le); congruence.
  - by etrans.
Qed.

Lemma merge_sort_perm_eq l k :
  l ≡ₚ k → NoDup l.*1 → merge_sort tag_le l = merge_sort tag_le k.
Proof.
  intros Hp Hnd. apply (Sorted_unique_strong tag_le).
  - intros a b Ha Hb H1 H2. rewrite merge_sort_Permutation in Ha, Hb.
    assert (a.1 = b.1) as E.
    { unfold tag_le in H1, H2. destruct (decide (a.1 = b.1)) as [E|E]; [done|].
      rewrite decide_False in H2 by done. by apply (anti_symm str_le). }
    apply list_elem_of_lookup_1 in Ha as (i & Hi). rewrite <- Hp in Hb.
    apply list_elem_of_lookup_1 in Hb as (j & Hj).
    assert (i = j) as ->; [|congruence].
    apply (NoDup_lookup l.*1 i j a.1); rewrite ?list_lookup_fmap, ?Hi, ?Hj; simpl; congruence.
  - apply Sorted_merge_sort. apply _.
  - apply Sorted_merge_sort. apply _.
  - by rewrite !merge_sort_Permutation.
Qed.

(** A rendered selector is read back, its tags sorted. *)
Lemma parse_render name ts :
  name ≠ "" → is_simple name = true → ts ≠ [] → Forall tag_ok ts → NoDup ts.*1 →
  parse_threshold_metric_key (render_key name ts) = Ok (name, merge_sort tag_le ts).
Proof.
  intros Hne Hname Hts Hok Hnd.
  pose proof (is_simple_spec _ Hname) as (N1 & N2 & _).
  assert (has_ws (render_key name ts) = false) as Hws.
  { apply (has_ws_join name "{"); [done|done|]. apply (has_ws_join (render_pairs ts) "}"); [done| |done].
    by apply render_pairs_ws. }
  unfold parse_threshold_metric_key. rewrite (trim_ws_free _ Hws).
  rewrite decide_False by (by intros [? _]%app_empty).
  unfold render_key at 1. change ("{" ++ render_pairs ts ++ "}") with (String "{" (render_pairs ts ++ "}")).
  rewrite split_once_app by done. rewrite trim_ws_free, decide_False by done.
  change "}" with (String "}" ""). rewrite strip_suffix_app. cbn [ok_or mbind result_bind].
  rewrite split_render, parse_selector_render by done. simpl. by rewrite decide_False.
Qed.

(** A plain name is read as itself. *)
Lemma parse_plain name :
  name ≠ "" → is_simple name = true → parse_threshold_metric_key name = Ok (name, []).
Proof.
  intros Hne Hname. pose proof (is_simple_spec _ Hname) as (N1 & N2 & _).
  unfold parse_threshold_metric_key. rewrite trim_ws_free, decide_False by done.
  by rewrite split_once_None.
Qed.

(** ** Properties *)

(** A key that lists distinct, expressible tags after a plain name is read as
    that name with the tags sorted by key, so that every order of the tags in
    the selector gives the same result. *)
Theorem parse_key_order_insensitive name tags tags' :
  name ≠ "" → is_simple name = true → tags ≠ [] → Forall tag_ok tags → NoDup tags.*1 → tags ≡ₚ tags' →
  parse_threshold_metric_key (render_key name tags) = Ok (name, merge_sort tag_le tags) ∧
  parse_threshold_metric_key (render_key name tags') =
    parse_threshold_metric_key (render_key name tags).
Proof.
  intros Hne Hname Hts Hok Hnd Hp.
  split; [by apply parse_render|]. rewrite !parse_render; try done.
  - by rewrite (merge_sort_perm_eq tags tags').
  - intros ->. by apply Permutation_nil_r in Hp.
  - by rewrite <- Hp.
  - by rewrite <- Hp.
Qed.

(** ** Expressions *)

(** No operator character occurs. *)
Definition no_op (s : string) : Prop :=
  has_char "<" s = false ∧ has_char ">" s = false ∧ has_char "=" s = false.

Lemma find_op_render a op v :
  no_op a → no_op v → find_op ops (a ++ op_text op ++ v) = Some (len a, len (op_text op), op).
Proof.
  intros (A1 & A2 & A3) (V1 & V2 & V3).
  assert (∀ c t, has_char c a = false → has_char c v = false → has_char c t = false →
    has_char c (a ++ t ++ v) = false) as Habs.
  { intros c t Ha Hv Ht. by rewrite !has_char_app, Ha, Hv, Ht. }
  unfold ops. cbn [find_op]. destruct op; cbn [op_text].
  - rewrite (find_None "<=" _ "=") by (try done; by apply Habs).
    rewrite (find_None ">=" _ ">") by (try done; by apply Habs).
    rewrite (find_None "==" _ "=") by (try done; by apply Habs).
    rewrite (find_app "<" "") by done. done.
  - rewrite (find_app "<" "=") by done. done.
  - rewrite (find_None "<=" _ "<") by (try done; by apply Habs).
    rewrite (find_None ">=" _ "=") by (try done; by apply Habs).
    rewrite (find_None "==" _ "=") by (try done; by apply Habs).
    rewrite (find_None "<" _ "<") by (try done; by apply Habs).
    rewrite (find_app ">" "") by done. done.
  - rewrite (find_None "<=" _ "<") by (try done; by apply Habs).
    rewrite (find_app ">" "=") by done. done.
  - rewrite (find_None "<=" _ "<") by (try done; by apply Habs).
    rewrite (find_None ">=" _ ">") by (try done; by apply Habs).
    rewrite (find_app "=" "=") by done. done.
Qed.

Lemma digits_no_op n : (0 ≤ n)%Z → no_op (show n).
Proof. intros Hn. pose proof (show_digits n Hn). split_and!; by apply all_digits_char. Qed.

Lemma agg_text_no_op a : agg_ok a → no_op (agg_text a) ∧ agg_text a ≠ "".
Proof.
  destruct a as [| | | | |p]; cbn [agg_text agg_ok]; intros Hp; try (by repeat split).
  destruct (digits_no_op p ltac:(lia)) as (D1 & D2 & D3).
  split; [|done]. unfold no_op. change ("p(" ++ show p ++ ")") with (String "p" (String "(" (show p ++ ")"))).
  simpl. by rewrite !has_char_app, D1, D2, D3.
Qed.

Lemma parse_agg_text raw a : agg_ok a → parse_agg raw (agg_text a) = Ok a.
Proof.
  destruct a as [| | | | |p]; cbn [agg_ok]; intros Hp; [reflexivity..|].
  unfold parse_agg. cbn [agg_text].
  assert (∀ w, (len w <= 5)%nat → (lowercase w = w) → String.get 0 w ≠ Some "p"%char →
    eq_ignore_ascii_case ("p(" ++ show p ++ ")") w = false) as Hno.
  { intros w _ Hw Hg. apply bool_decide_eq_false. rewrite Hw. intros E. rewrite <- E in Hg. done. }
  rewrite !Hno by (vm_compute; first [done|lia|congruence]).
  rewrite strip_prefix_app. cbn [mbind option_bind]. change ")" with (String ")" "").
  rewrite strip_suffix_app, parse_uint_show by lia. cbn [ok_or mbind result_bind].
  rewrite (proj2 (Z.leb_le 1 p)), (proj2 (Z.leb_le p 100)) by lia. done.
Qed.


(** ** Witnesses *)
Lemma parse_key_order_insensitive_witness :
  parse_threshold_metric_key (render_key "latency" [("method", "GET"); ("group", "login")]) =
    Ok ("latency", [("group", "login"); ("method", "GET")]) ∧
  parse_threshold_metric_key (render_key "latency" [("group", "login"); ("method", "GET")]) =
    parse_threshold_metric_key (render_key "latency" [("method", "GET"); ("group", "login")]).
Proof.
  apply (parse_key_order_insensitive "latency" [("method", "GET"); ("group", "login")]
    [("group", "login"); ("method", "GET")]); try done.
  - each ltac:(split_and!; done).
  - repeat (apply NoDup_cons; split; [simpl; set_solver|]). apply NoDup_nil_2.
  - constructor.
Defined.

