(* ===== verification/ThresholdsEval.v ===== *)
(** * Threshold evaluation (wrkr-core/src/thresholds_eval.rs)

    [TagSelector] picks the series of a metric, [observed_value] aggregates
    them, [evaluate_thresholds] lists the violated expressions.  Looking names
    up interns them, so the registry is threaded through. *)
From S2P Require Import Prelude Coll F64 Config Key Tags Metrics Registry Agg Requests Thresholds.

(** [Error::InvalidThresholdExpr]. *)
Inductive EvalError := InvalidThresholdExpr (metric error : string).

Inductive TagSelector :=
  | SelAll
  | SelSelector (keys : list KeyId) (tags : TagSet).

Section eval.
Context {H : HistOps} {M : MapIter}.

Fixpoint resolve_keys (keys : list string) (r : Registry) : list KeyId * Registry :=
  match keys with
  | [] => ([], r)
  | k :: keys =>
      let '(id, r) := resolve_key k r in
      let '(ids, r) := resolve_keys keys r in
      (id :: ids, r)
  end.

(** [TagSelector::new]: the key identifiers in the selector's order, the tag
    set in the order of identifiers. *)
Definition selector_new (selector_tags : list (string * string)) (r : Registry) :
    TagSelector * Registry :=
  if is_empty selector_tags then (SelAll, r)
  else
    let '(key_ids, r) := resolve_keys selector_tags.*1 r in
    let '(tags, r) := resolve_tags selector_tags r in
    (SelSelector key_ids tags, r).

Definition selector_matches (sel : TagSelector) (series_tags : TagSet) : bool :=
  match sel with
  | SelAll => true
  | SelSelector keys tags => bool_decide (project series_tags keys = tags)
  end.

Definition any_series (sel : TagSelector) (metric_id : MetricId) (r : Registry) : bool :=
  visit_series metric_id r (λ any tags _, if selector_matches sel tags then true else any) false.

Definition hist_value (metric_id : MetricId) (sel : TagSelector) (r : Registry)
    (f : HistogramSummary → option f64) : option f64 :=
  fold_histogram_summary metric_id (selector_matches sel) r ≫= f.

Definition observed_value (r : Registry) (metric_id : MetricId) (kind : MetricKind.t)
    (agg : ThresholdAgg) (sel : TagSelector) : option f64 :=
  let matches := selector_matches sel in
  match agg with
  | AggCount =>
      match kind with
      | MetricKind.Counter => Some (of_Z (fold_counter_sum metric_id matches r))
      | MetricKind.Rate =>
          let '(total, _, _) := fold_rate_sum metric_id matches r in Some (of_Z total)
      | MetricKind.Histogram => hist_value metric_id sel r (λ h, Some (of_Z (hs_count h)))
      | MetricKind.Gauge => None
      end
  | AggRate =>
      match kind with
      | MetricKind.Rate => let '(_, _, rate) := fold_rate_sum metric_id matches r in rate
      | _ => None
      end
  | AggAvg => match kind with MetricKind.Histogram => hist_value metric_id sel r hs_mean | _ => None end
  | AggMin => match kind with MetricKind.Histogram => hist_value metric_id sel r hs_min | _ => None end
  | AggMax => match kind with MetricKind.Histogram => hist_value metric_id sel r hs_max | _ => None end
  | AggP p =>
      match kind with
      | MetricKind.Histogram =>
          hist_value metric_id sel r (λ h,
            if p =? 50 then hs_p50 h else if p =? 75 then hs_p75 h
            else if p =? 90 then hs_p90 h else if p =? 95 then hs_p95 h
            else if p =? 99 then hs_p99 h else None)
      | _ => None
      end
  end.

Definition compare (observed : f64) (op : ThresholdOp) (expected : f64) : bool :=
  match op with
  | OpLt => flt observed expected
  | OpLte => fle observed expected
  | OpGt => fgt observed expected
  | OpGte => fge observed expected
  | OpEq => feq observed expected
  end.

Definition violation (set : ThresholdSet) (expr : string) (observed : option f64) : ThresholdViolation :=
  mkViolation (ts_metric set) (ts_tags set) expr observed.

(** One expression of a set whose metric exists: its violation, if any. *)
Definition evaluate_expr (r : Registry) (metric_id : MetricId) (kind : MetricKind.t)
    (sel : TagSelector) (set : ThresholdSet) (expr_raw : string) :
    result EvalError (list ThresholdViolation) :=
  expr ← map_err (InvalidThresholdExpr (ts_metric set)) (parse_threshold_expr expr_raw);
  let observed :=
    if any_series sel metric_id r then observed_value r metric_id kind (te_agg expr) sel else None in
  let passed := match observed with Some v => compare v (te_op expr) (te_value expr) | None => false end in
  Ok (if passed then [] else [violation set expr_raw observed]).

Fixpoint evaluate_exprs (r : Registry) (metric_id : MetricId) (kind : MetricKind.t)
    (sel : TagSelector) (set : ThresholdSet) (exprs : list string)
    (out : list ThresholdViolation) : result EvalError (list ThresholdViolation) :=
  match exprs with
  | [] => Ok out
  | e :: exprs =>
      v ← evaluate_expr r metric_id kind sel set e;
      evaluate_exprs r metric_id kind sel set exprs (out ++ v)
  end.

(** One threshold set: the violations so far and the registry, threaded. *)
Definition evaluate_set (r : Registry) (out : list ThresholdViolation) (set : ThresholdSet) :
    result EvalError (list ThresholdViolation) * Registry :=
  let '(sel, r) := selector_new (ts_tags set) r in
  let '(found, r) := lookup_metric (ts_metric set) r in
  match found with
  | None => (Ok (out ++ ((λ e, violation set e None) <$> ts_expressions set)), r)
  | Some (metric_id, kind) =>
      (evaluate_exprs r metric_id kind sel set (ts_expressions set) out, r)
  end.

Fixpoint evaluate_sets (r : Registry) (out : list ThresholdViolation) (sets : list ThresholdSet) :
    result EvalError (list ThresholdViolation) :=
  match sets with
  | [] => Ok out
  | set :: sets =>
      let '(res, r) := evaluate_set r out set in
      out ← res; evaluate_sets r out sets
  end.

Definition evaluate_thresholds (r : Registry) (sets : list ThresholdSet) :
    result EvalError (list ThresholdViolation) := evaluate_sets r [] sets.

(** ** Selecting series *)

(** The series has every tag of the selector. *)
Definition has_tags (series_tags : TagSet) (tags : list (KeyId * KeyId)) : Prop :=
  ∀ p, p ∈ tags → get series_tags p.1 = Some p.2.

Lemma project_eq series keys tags :
  keys ≠ [] → tags.*1 = keys → (project series keys = tags ↔ has_tags series tags).
Proof.
  intros Hne Hk. unfold project. rewrite is_empty_false by done. clear Hne. revert tags Hk.
  induction keys as [|k keys IH]; intros [|[k' v] tags]; try done.
  { intros _. split; [|done]. intros _ p Hp. set_solver. }
  csimpl. intros [= -> Hk]. specialize (IH tags Hk). unfold has_tags in *.
  destruct (get series k) as [v'|] eqn:Hg; csimpl.
  - split.
    + intros [= -> E] p [->|Hp]%elem_of_cons; [done|]. by apply IH.
    + intros Hall. pose proof (Hall (k, v) ltac:(left)) as Hv. simpl in Hv.
      rewrite Hg in Hv. injection Hv as ->. f_equal. apply IH. intros p Hp. apply Hall. by right.
  - split.
    + intros E. exfalso.
      pose proof (length_omap_le (λ key, (λ v, (key, v)) <$> get series key) keys) as Hle.
      csimpl in E. rewrite E in Hle. rewrite <- Hk, length_fmap in Hle. simpl in Hle. lia.
    + intros Hall. pose proof (Hall (k, v) ltac:(left)) as Hv. simpl in Hv. congruence.
Qed.

(** The keys that [project] returns are in the order they were given. *)
Lemma project_keys series keys tags :
  project series keys = tags → length tags = length keys → tags.*1 = keys.
Proof.
  unfold project. destruct (is_empty keys) eqn:E.
  { apply is_empty_true in E as ->. by intros <-. }
  intros <-. clear E. induction keys as [|k keys IH]; csimpl; [done|].
  pose proof (length_omap_le (λ key, (λ v, (key, v)) <$> get series key) keys) as Hle.
  destruct (get series k); csimpl.
  - intros [= Hl]. f_equal. by apply IH.
  - intros Hl. csimpl in Hle. lia.
Qed.

Lemma project_elem series keys p :
  p ∈ project series keys → p.1 ∈ keys ∧ get series p.1 = Some p.2.
Proof.
  unfold project. destruct (is_empty keys); [set_solver|].
  rewrite list_elem_of_omap. intros (k & Hk & Hp). destruct (get series k) as [v|] eqn:Hg; [|done].
  by injection Hp as <-.
Qed.

(** ** The selector against its tags *)

Lemma resolve_keys_strings keys r : (strings r ≤ strings (resolve_keys keys r).2)%nat.
Proof.
  revert r. induction keys as [|k keys IH]; intros r; simpl; [done|].
  pose proof (resolve_key_strings k r). destruct (resolve_key k r) as [id r1].
  specialize (IH r1). destruct (resolve_keys keys r1). simpl in *. lia.
Qed.

Lemma resolve_keys_spec keys r :
  registry_wf r → reg_capacity (resolve_keys keys r).2 →
  let '(ids, r1) := resolve_keys keys r in
  effect r [] r1 ∧ Forall2 (λ k id, in_map (reg_interner r1) !! k = Some id) keys ids.
Proof.
  revert r. induction keys as [|k keys IH]; intros r Hwf Hcap; simpl in *.
  { split; [by apply effect_refl|constructor]. }
  pose proof (resolve_key_capacity k r Hwf) as Hk. destruct (resolve_key k r) as [id r1].
  pose proof (resolve_keys_strings keys r1) as Hl. specialize (IH r1).
  destruct (resolve_keys keys r1) as [ids r2]. simpl in *.
  destruct (Hk (capacity_mono _ _ Hl Hcap)) as (E1 & Hid & _).
  destruct (IH (ef_wf _ _ _ E1) Hcap) as (E2 & Hall).
  split; [by apply (effect_trans r [] r1 []); [constructor..| |]|].
  constructor; [|done]. eapply effect_in_map; [apply (ef_wf _ _ _ E1)|exact E2|done].
Qed.

(** The parts of a selector for distinct keys: the key identifiers in the
    selector's order, and the tag set sorted by identifier. *)
Lemma selector_new_spec tags r :
  registry_wf r → tags ≠ [] → NoDup tags.*1 → reg_capacity (selector_new tags r).2 →
  ∃ keys pairs r1,
    selector_new tags r = (SelSelector keys (merge_sort pair_le pairs), r1) ∧
    effect r [] r1 ∧ Forall2 (pair_ids r1) tags pairs ∧ pairs.*1 = keys ∧ NoDup keys.
Proof.
  intros Hwf Hne Hnd. unfold selector_new. rewrite is_empty_false by done.
  pose proof (resolve_keys_spec tags.*1 r Hwf) as Hk.
  destruct (resolve_keys tags.*1 r) as [keys r1]. simpl in Hk.
  unfold resolve_tags. pose proof (λ Hw, resolve_pairs_spec tags r1 Hw) as Hp.
  pose proof (resolve_pairs_strings tags r1) as Hl.
  destruct (resolve_pairs tags r1) as [pairs r2]. simpl in *. intros Hcap.
  destruct (Hk (capacity_mono _ _ Hl Hcap)) as (E1 & Hkeys).
  destruct (Hp (ef_wf _ _ _ E1) Hcap) as (E2 & Hpairs).
  exists keys, pairs, r2.
  assert (pairs.*1 = keys) as Hpk.
  { apply list_eq. intros i. apply option_eq. intros id.
    assert (length tags = length pairs) as L1 by (by eapply Forall2_length).
    assert (length tags = length keys) as L2.
    { pose proof (Forall2_length _ _ _ Hkeys) as L2. by rewrite length_fmap in L2. }
    destruct (tags !! i) as [p|] eqn:Hi.
    - destruct (Forall2_lookup_l _ _ _ _ _ Hpairs Hi) as (q & Hq & Hpq & _).
      destruct (Forall2_lookup_l _ _ _ i p.1 Hkeys) as (id' & Hid' & Hm).
      { by rewrite list_lookup_fmap, Hi. }
      rewrite list_lookup_fmap, Hq, Hid'. simpl.
      pose proof (effect_in_map _ _ _ _ _ (ef_wf _ _ _ E1) E2 Hm). naive_solver.
    - apply lookup_ge_None in Hi. rewrite list_lookup_fmap.
      rewrite (proj2 (lookup_ge_None pairs i)), (proj2 (lookup_ge_None keys i)) by lia. done. }
  split_and!; [done| |done|done|].
  - by apply (effect_trans r [] r1 []); [constructor..| |].
  - rewrite <- Hpk. apply NoDup_alt. intros i j id Hi Hj.
    rewrite list_lookup_fmap in Hi, Hj.
    destruct (pairs !! i) as [p|] eqn:Ei; [|done]. destruct (pairs !! j) as [q|] eqn:Ej; [|done].
    simplify_eq/=.
    destruct (Forall2_lookup_r _ _ _ _ _ Hpairs Ei) as (a & Ha & Ha1 & _).
    destruct (Forall2_lookup_r _ _ _ _ _ Hpairs Ej) as (b & Hb & Hb1 & _).
    apply (NoDup_lookup _ i j a.1 Hnd); rewrite list_lookup_fmap; [by rewrite Ha|].
    rewrite Hb. simpl. f_equal. apply (in_map_inj r2 b.1 a.1 p.1 (ef_wf _ _ _ E2)); congruence.
Qed.

Lemma sorted_pairs_fst l : NoDup l.*1 → StronglySorted Z.lt (merge_sort pair_le l).*1.
Proof.
  intros Hnd. pose proof (Sorted_merge_sort pair_le l) as Hs.
  assert (NoDup (merge_sort pair_le l).*1) as Hn by (by rewrite merge_sort_Permutation).
  apply Sorted_StronglySorted in Hs; [|apply _]. clear Hnd.
  induction Hs as [|p k Hs IH Hall]; simpl in *; [constructor|].
  apply NoDup_cons in Hn as [Hp Hn]. constructor; [by apply IH|].
  apply Forall_fmap. apply Forall_forall. intros q Hq. simpl.
  pose proof (proj1 (Forall_forall _ _) Hall q Hq) as [?|[E _]]; [done|].
  destruct Hp. rewrite E. by apply list_elem_of_fmap_2.
Qed.

(** ** Properties *)

(** What a selector matches: for distinct keys, a series matches exactly
    when it carries every selector tag AND the selector lists its keys in the
    order in which they were first interned.  A selector in any other order
    matches no series at all. *)
Theorem selector_matches_iff tags r :
  registry_wf r → tags ≠ [] → NoDup tags.*1 → reg_capacity (selector_new tags r).2 →
  ∃ sel r1 ids,
    selector_new tags r = (sel, r1) ∧ Forall2 (pair_ids r1) tags ids ∧
    ∀ series, selector_matches sel series = true ↔ StronglySorted Z.lt ids.*1 ∧ has_tags series ids.
Proof.
  intros Hwf Hne Hnd Hcap.
  destruct (selector_new_spec tags r Hwf Hne Hnd Hcap) as (keys & ids & r1 & Hsel & _ & Hids & Hk & Hnk).
  exists (SelSelector keys (merge_sort pair_le ids)), r1, ids. split_and!; [done|done|].
  intros series. simpl. rewrite bool_decide_eq_true. rewrite Hk.
  assert (keys ≠ []) as Hkne.
  { intros E. rewrite E in Hk. apply fmap_nil_inv in Hk as ->. by apply Forall2_nil_inv_r in Hids. }
  pose proof (sorted_pairs_fst ids ltac:(by rewrite Hk)) as Hsorted. split.
  - intros Hp. pose proof (project_keys series keys _ Hp) as Hpk.
    assert ((merge_sort pair_le ids).*1 = keys) as Heq.
    { apply Hpk. by rewrite <- Hk, length_fmap, merge_sort_Permutation. }
    rewrite Heq in Hsorted. split; [done|]. apply (project_eq series keys) in Heq as Hiff; [|done].
    apply Hiff in Hp. intros p Hin. apply Hp. by rewrite merge_sort_Permutation.
  - intros [Hs Hhas].
    assert ((merge_sort pair_le ids).*1 = keys) as Heq.
    { apply strict_sorted_unique; [done|done|]. intros x. rewrite <- Hk.
      by rewrite merge_sort_Permutation. }
    apply project_eq; [done|done|]. intros p Hin. apply Hhas. by rewrite merge_sort_Permutation in Hin.
Qed.

(** ** When a run passes *)

(** The registry in which the sets after [before] are evaluated: only names
    have been interned. *)
Definition registry_after (r : Registry) (before : list ThresholdSet) : Registry :=
  foldl (λ r set, (evaluate_set r [] set).2) r before.

(** The expression is readable, its metric exists, some series matches, and
    the observed value satisfies it. *)
Definition passes (r : Registry) (set : ThresholdSet) (e : string) : Prop :=
  let '(sel, r1) := selector_new (ts_tags set) r in
  let '(found, r2) := lookup_metric (ts_metric set) r1 in
  ∃ id kind expr v, found = Some (id, kind) ∧ parse_threshold_expr e = Ok expr ∧
    any_series sel id r2 = true ∧ observed_value r2 id kind (te_agg expr) sel = Some v ∧
    compare v (te_op expr) (te_value expr) = true.

Lemma evaluate_expr_pass r id kind sel set e :
  evaluate_expr r id kind sel set e = Ok [] ↔
  ∃ expr v, parse_threshold_expr e = Ok expr ∧ any_series sel id r = true ∧
    observed_value r id kind (te_agg expr) sel = Some v ∧ compare v (te_op expr) (te_value expr) = true.
Proof.
  unfold evaluate_expr. destruct (parse_threshold_expr e) as [expr|err]; simpl.
  - destruct (any_series sel id r); [|by split; [|intros (? & ? & _ & ? & _)]].
    destruct (observed_value r id kind (te_agg expr) sel) as [v|] eqn:Eo;
      [|split; [done|intros (? & ? & [= <-] & _ & ? & _); congruence]].
    destruct (compare v _ _) eqn:Ec; split; try done.
    + intros _. by exists expr, v.
    + intros (? & ? & [= <-] & _ & ? & ?). congruence.
  - split; [done|]. by intros (? & ? & ? & _).
Qed.

Lemma evaluate_exprs_out r id kind sel set exprs out res :
  evaluate_exprs r id kind sel set exprs out = Ok res → ∃ v, res = out ++ v.
Proof.
  revert out. induction exprs as [|e exprs IH]; intros out; simpl.
  - intros [= <-]. exists []. by rewrite app_nil_r.
  - intros (v & _ & He)%bind_Ok. apply IH in He as [w ->]. exists (v ++ w). by rewrite app_assoc.
Qed.

Lemma evaluate_exprs_pass r id kind sel set exprs :
  evaluate_exprs r id kind sel set exprs [] = Ok [] ↔
  ∀ e, e ∈ exprs → evaluate_expr r id kind sel set e = Ok [].
Proof.
  induction exprs as [|e exprs IH]; simpl; [split; [set_solver|done]|].
  rewrite bind_Ok. split.
  - intros (v & Hv & He). destruct (evaluate_exprs_out _ _ _ _ _ _ _ _ He) as [w Hw].
    simpl in Hw. symmetry in Hw. apply app_nil in Hw as [-> ->]. simpl in He.
    intros e' [->|Hin]%elem_of_cons; [done|]. by apply IH.
  - intros Hall. exists []. split; [by apply Hall; left|]. simpl. apply IH. intros e' Hin.
    apply Hall. by right.
Qed.

Lemma evaluate_set_snd r out set : (evaluate_set r out set).2 = (evaluate_set r [] set).2.
Proof.
  unfold evaluate_set. destruct (selector_new _ _). destruct (lookup_metric _ _) as [[[]|] ?]; done.
Qed.

Lemma evaluate_set_out r out set res :
  (evaluate_set r out set).1 = Ok res → ∃ v, res = out ++ v.
Proof.
  unfold evaluate_set. destruct (selector_new _ _). destruct (lookup_metric _ _) as [[[id kind]|] r2]; simpl.
  - apply evaluate_exprs_out.
  - intros [= <-]. by eexists.
Qed.

Lemma evaluate_set_pass r set :
  (evaluate_set r [] set).1 = Ok [] ↔ ∀ e, e ∈ ts_expressions set → passes r set e.
Proof.
  unfold evaluate_set, passes. destruct (selector_new _ _) as [sel r1].
  destruct (lookup_metric _ _) as [[[id kind]|] r2]; simpl.
  - rewrite evaluate_exprs_pass. split; intros Hall e He; specialize (Hall e He).
    + apply evaluate_expr_pass in Hall as (expr & v & ?). by exists id, kind, expr, v.
    + destruct Hall as (? & ? & expr & v & [= <- <-] & ?). apply evaluate_expr_pass. by exists expr, v.
  - split.
    + intros [= E]%(f_equal id) e He. destruct (ts_expressions set); [set_solver|done].
    + intros Hall. destruct (ts_expressions set) as [|e es]; [done|].
      destruct (Hall e ltac:(left)) as (? & ? & ? & ? & ? & _). done.
Qed.

Lemma evaluate_sets_out r out sets res : evaluate_sets r out sets = Ok res → ∃ v, res = out ++ v.
Proof.
  revert r out. induction sets as [|set sets IH]; intros r out; simpl.
  - intros [= <-]. exists []. by rewrite app_nil_r.
  - destruct (evaluate_set r out set) as [res1 r1] eqn:E. intros (o & Ho & He)%bind_Ok.
    apply IH in He as [w ->]. destruct (evaluate_set_out r out set o) as [v ->].
    { by rewrite E. }
    exists (v ++ w). by rewrite app_assoc.
Qed.

End eval.

(** ** The defect in the running program's terms *)

(** A counter with 5 requests under [env=prod, region=eu]; the tags were first
    seen in the order given. *)
Definition tagged (tags : list (string * string)) : @Registry list_hist :=
  let '(t, r) := resolve_tags tags one_counter in
  @bump list_hist 0 r (t, 5).

(** The key [requests_total{region=eu,env=prod}] with [count>=1] is violated,
    with nothing observed, although a series with exactly these tags has
    counted 5 requests, because [region] was seen before [env]; had the tags
    been seen in the other order, the same threshold would pass. *)
Theorem selector_misses_series :
  let key := "requests_total{region=eu,env=prod}"%string in
  let sets := [mkThresholdSet "requests_total" [("env", "prod"); ("region", "eu")] ["count>=1"]]%string in
  parse_threshold_metric_key key = Ok ("requests_total", [("env", "prod"); ("region", "eu")])%string ∧
  fold_counter_sum 0 (λ _, true) (tagged [("region", "eu"); ("env", "prod")]%string) = 5 ∧
  evaluate_thresholds (tagged [("region", "eu"); ("env", "prod")]%string) sets =
    Ok [mkViolation "requests_total" [("env", "prod"); ("region", "eu")] "count>=1" None]%string ∧
  evaluate_thresholds (tagged [("env", "prod"); ("region", "eu")]%string) sets = Ok [].
Proof. split_and!; vm_compute; reflexivity. Qed.

(** ** Witnesses *)
Lemma selector_matches_iff_witness :
  ∃ sel r1 ids,
    selector_new [("env", "prod")]%string one_counter = (sel, r1) ∧
    Forall2 (pair_ids r1) [("env", "prod")]%string ids ∧
    ∀ series, selector_matches sel series = true ↔ StronglySorted Z.lt ids.*1 ∧ has_tags series ids.
Proof.
  apply (selector_matches_iff [("env", "prod")]%string one_counter).
  - apply one_counter_wf.
  - done.
  - apply NoDup_singleton.
  - vm_compute. reflexivity.
Defined.
