(* ===== verification/Summary.v ===== *)
(** * Reports (wrkr-core/src/metrics_agg.rs, summary.rs, progress.rs)

    [MetricComputer]: the live metrics of a progress tick and the summary of
    the end of a run, both computed from queries over the registry, which they
    leave as it was but for the strings they intern. *)
From S2P Require Import Prelude Coll F64 Config Key Tags Metrics Registry Agg Requests Checks.
From S2P Require Import Thresholds ThresholdsEval.

Record ScenarioSnapshot := mkScenarioSnapshot {
  sn_requests_total : Z;
  sn_bytes_received_total : Z;
  sn_bytes_sent_total : Z;
  sn_failed_requests_total : Z;
  sn_checks_failed_total : Z;
  sn_iterations_total : Z }.

Definition snapshot_default : ScenarioSnapshot := mkScenarioSnapshot 0 0 0 0 0 0.

Record TagKeys := mkTagKeys {
  tk_scenario : KeyId; tk_protocol : KeyId; tk_status : KeyId; tk_name : KeyId; tk_fail : KeyId }.

Record MetricComputer := mkComputer {
  mc_request_ids : RequestMetricIds;
  mc_iteration_ids : IterationMetricIds;
  mc_checks_metric : MetricId;
  mc_keys : TagKeys }.

(** The fields [compute_live_metrics] fills; the others keep their default. *)
Record LiveMetrics := mkLive {
  lm_rps_now : f64;
  lm_bytes_received_per_sec_now : Z;
  lm_bytes_sent_per_sec_now : Z;
  lm_requests_total : Z;
  lm_bytes_received_total : Z;
  lm_bytes_sent_total : Z;
  lm_failed_requests_total : Z;
  lm_checks_failed_total : Z;
  lm_checks_failed : gmap string Z;
  lm_req_per_sec_avg : f64;
  lm_req_per_sec_stdev : f64;
  lm_req_per_sec_max : f64;
  lm_req_per_sec_stdev_pct : f64;
  lm_latency_mean : f64;
  lm_latency_stdev : f64;
  lm_latency_max : Z;
  lm_latency_p50 : Z;
  lm_latency_p75 : Z;
  lm_latency_p90 : Z;
  lm_latency_p99 : Z;
  lm_latency_stdev_pct : f64;
  lm_iterations_total : Z }.

Record ScenarioSummary := mkScenarioSummary {
  su_scenario : string;
  su_requests_total : Z;
  su_failed_requests_total : Z;
  su_bytes_received_total : Z;
  su_bytes_sent_total : Z;
  su_iterations_total : Z;
  su_checks_failed_total : Z;
  su_checks_failed : gmap string Z;
  su_latency : option HistogramSummary }.

Record RunSummary := mkRunSummary {
  ru_scenarios : list ScenarioSummary;
  ru_metrics : list MetricSeriesSummary;
  ru_threshold_violations : list ThresholdViolation }.

Section summary.
Context {H : HistOps} {M : MapIter}.

(** [TagKeys::new]. *)
Definition new_tag_keys (r : Registry) : TagKeys * Registry :=
  let '(a, r) := resolve_key "scenario" r in
  let '(b, r) := resolve_key "protocol" r in
  let '(c, r) := resolve_key "status" r in
  let '(d, r) := resolve_key "name" r in
  let '(e, r) := resolve_key "fail" r in
  (mkTagKeys a b c d e, r).

(** [MetricComputer::new]. *)
Definition new_computer (request_ids : RequestMetricIds) (iteration_ids : IterationMetricIds)
    (checks_metric : MetricId) (r : Registry) : MetricComputer * Registry :=
  let '(keys, r) := new_tag_keys r in
  (mkComputer request_ids iteration_ids checks_metric keys, r).

Definition checks_failed_query (checks_metric : MetricId) (keys : TagKeys)
    (scenario_value : KeyId) : Query :=
  group_by [tk_name keys]
    (where_eq (tk_status keys) (tk_fail keys)
      (where_eq (tk_scenario keys) scenario_value (query checks_metric))).

(** The loop's body: [total] always grows, [by_name] when the name resolves. *)
Definition add_failed (keys : TagKeys) (r : Registry) (acc : Z * gmap string Z)
    (group : TagSet * Z) : Z * gmap string Z :=
  let '(total, by_name) := acc in
  let total := u64_sat_add total group.2 in
  match get group.1 (tk_name keys) with
  | None => (total, by_name)
  | Some name_id =>
      match resolve_key_id name_id r with
      | None => (total, by_name)
      | Some name =>
          (total, match by_name !! name with
                  | Some cur => <[name := u64_sat_add cur group.2]> by_name
                  | None => <[name := group.2]> by_name
                  end)
      end
  end.

Definition compute_checks_failed (checks_metric : MetricId) (keys : TagKeys)
    (scenario_value : KeyId) (r : Registry) : Z * gmap string Z :=
  foldl (add_failed keys r) (0, ∅)
    (map_iter (sum_counter (checks_failed_query checks_metric keys scenario_value) r)).

Definition scenario_total (metric : MetricId) (keys : TagKeys) (scenario_value : KeyId)
    (r : Registry) : Z :=
  sum_counter_total (where_eq (tk_scenario keys) scenario_value (query metric)) r.

(** Latency is recorded with and without the protocol: only the latter. *)
Definition scenario_latency (metric : MetricId) (keys : TagKeys) (scenario_value : KeyId)
    (r : Registry) : option HistogramSummary :=
  merge_histogram_summary_single
    (where_missing (tk_protocol keys) (where_eq (tk_scenario keys) scenario_value (query metric))) r.

Definition opt_f64 (o : option f64) : f64 := default f_zero o.

(** The latency figures of a tick; zeroes when there is no series. *)
Definition live_latency (latency : option HistogramSummary) : f64 * f64 * (Z * Z * Z * Z * Z) * f64 :=
  match latency with
  | None => (f_zero, f_zero, (0, 0, 0, 0, 0), f_zero)
  | Some lat =>
      let mean := opt_f64 (hs_mean lat) in
      let sd := opt_f64 (hs_stdev lat) in
      (mean, sd,
       (to_u64 (opt_f64 (hs_max lat)), to_u64 (opt_f64 (hs_p50 lat)), to_u64 (opt_f64 (hs_p75 lat)),
        to_u64 (opt_f64 (hs_p90 lat)), to_u64 (opt_f64 (hs_p99 lat))),
       if fgt mean f_zero then fmul (fdiv sd mean) (of_Z 100) else f_zero)
  end.

Definition compute_live_metrics (c : MetricComputer) (scenario : string)
    (prev : option ScenarioSnapshot) (dt_secs : f64) (rps_stats : RunningStats) (r : Registry)
    : (LiveMetrics * ScenarioSnapshot) * RunningStats * Registry :=
  let keys := mc_keys c in
  let ids := mc_request_ids c in
  let '(sv, r) := resolve_key scenario r in
  let total m := scenario_total m keys sv r in
  let '(checks_failed_total, checks_failed) := compute_checks_failed (mc_checks_metric c) keys sv r in
  let '(mean, sd, (mx, p50, p75, p90, p99), sd_pct) :=
    live_latency (scenario_latency (latency_id ids) keys sv r) in
  let snapshot := mkScenarioSnapshot
    (total (requests_total ids)) (total (bytes_received_total ids)) (total (bytes_sent_total ids))
    (total (errors_total ids)) checks_failed_total
    (total (iterations_total (mc_iteration_ids c))) in
  let dt := fmax dt_secs (of_decimal false 1 (-9)) in
  let prev := default snapshot_default prev in
  let delta f := u64_sat_sub (f snapshot) (f prev) in
  let rps_now := fdiv (of_Z (delta sn_requests_total)) dt in
  let rate f := to_u64 (round (fdiv (of_Z (delta f)) dt)) in
  let rps_stats := push rps_now rps_stats in
  (mkLive rps_now (rate sn_bytes_received_total) (rate sn_bytes_sent_total)
     (sn_requests_total snapshot) (sn_bytes_received_total snapshot) (sn_bytes_sent_total snapshot)
     (sn_failed_requests_total snapshot) (sn_checks_failed_total snapshot) checks_failed
     (rs_mean rps_stats) (stdev rps_stats) (rs_max rps_stats) (stdev_pct rps_stats)
     mean sd mx p50 p75 p90 p99 sd_pct (sn_iterations_total snapshot),
   snapshot, rps_stats, r).

Definition compute_scenario_summary (c : MetricComputer) (scenario : string) (r : Registry)
    : ScenarioSummary * Registry :=
  let keys := mc_keys c in
  let ids := mc_request_ids c in
  let '(sv, r) := resolve_key scenario r in
  let total m := scenario_total m keys sv r in
  let '(checks_failed_total, checks_failed) := compute_checks_failed (mc_checks_metric c) keys sv r in
  (mkScenarioSummary scenario (total (requests_total ids)) (total (errors_total ids))
     (total (bytes_received_total ids)) (total (bytes_sent_total ids))
     (total (iterations_total (mc_iteration_ids c))) checks_failed_total checks_failed
     (scenario_latency (latency_id ids) keys sv r), r).

Fixpoint scenario_summaries (c : MetricComputer) (names : list string) (r : Registry)
    : list ScenarioSummary * Registry :=
  match names with
  | [] => ([], r)
  | name :: names =>
      let '(s, r) := compute_scenario_summary c name r in
      let '(l, r) := scenario_summaries c names r in
      (s :: l, r)
  end.

Definition build_run_summary (request_ids : RequestMetricIds) (iteration_ids : IterationMetricIds)
    (checks_metric : MetricId) (scenario_names : list string) (thresholds : list ThresholdSet)
    (r : Registry) : result EvalError RunSummary :=
  let '(computer, r) := new_computer request_ids iteration_ids checks_metric r in
  let '(scenarios, r) := scenario_summaries computer scenario_names r in
  let metrics_summary := summarize r in
  threshold_violations ← evaluate_thresholds r thresholds;
  Ok (mkRunSummary scenarios metrics_summary threshold_violations).
End summary.
