(* ===== verification/Exit.v ===== *)
(** * Exit codes (wrkr/src/exit_codes.rs, run_error.rs and the end of run.rs) *)
From S2P Require Import Prelude Coll Thresholds Summary.

Inductive ExitCode :=
  | Success | ChecksFailed | ThresholdsFailed | ChecksAndThresholdsFailed
  | ScriptError | InvalidInput | RuntimeError.

Definition as_i32 (c : ExitCode) : Z :=
  match c with
  | Success => 0 | ChecksFailed => 10 | ThresholdsFailed => 11 | ChecksAndThresholdsFailed => 12
  | ScriptError => 20 | InvalidInput => 30 | RuntimeError => 40
  end.

Definition from_quality_gates (checks_failed thresholds_failed : bool) : ExitCode :=
  match checks_failed, thresholds_failed with
  | false, false => Success
  | true, false => ChecksFailed
  | false, true => ThresholdsFailed
  | true, true => ChecksAndThresholdsFailed
  end.

(** The error of a run, its cause left out. *)
Inductive RunError := ErrInvalidInput | ErrScriptError | ErrRuntimeError.

Definition exit_code (e : RunError) : ExitCode :=
  match e with
  | ErrInvalidInput => InvalidInput
  | ErrScriptError => ScriptError
  | ErrRuntimeError => RuntimeError
  end.

(** The last lines of [run]. *)
Definition summary_exit (summary : RunSummary) : ExitCode :=
  from_quality_gates
    (existsb (λ s, 0 <? su_checks_failed_total s) (ru_scenarios summary))
    (negb (is_empty (ru_threshold_violations summary))).

Lemma as_i32_zero c : as_i32 c = 0 ↔ c = Success.
Proof. by destruct c. Qed.

Lemma from_quality_gates_success a b : from_quality_gates a b = Success ↔ a = false ∧ b = false.
Proof. destruct a, b; naive_solver. Qed.
