(* ===== verification/Report.v ===== *)
(** * What a report says about a run

    From registration (run.rs, [RunScenariosContext::new]) through any sequence
    of recorded requests, iterations and checks to the figures of
    [build_run_summary] and of a progress tick. *)
From S2P Require Import Prelude Coll Std F64 Config Key Tags Metrics Registry Agg Requests Checks.
From S2P Require Import Thresholds ThresholdsEval Summary.

(** The metrics of a run. *)
Record RunIds := mkRunIds {
  ri_requests : RequestMetricIds;
  ri_iterations : IterationMetricIds;
  ri_checks : MetricId }.

(** What the VUs record. *)
Inductive Event :=
  | EvRequest (s : RequestSample) (extra : list (string * string))
  | EvIteration (s : IterationSample) (extra : list (string * string))
  | EvCheck (ctx : MetricsContext) (group : option string) (name : string) (passed : bool).

Definition event_ok (e : Event) : Prop :=
  match e with EvRequest s _ => sample_ok s | _ => True end.

(** An upper bound of what an event adds to any counter. *)
Definition cost (e : Event) : Z :=
  match e with EvRequest s _ => 3 + rq_bytes_received s + rq_bytes_sent s | _ => 1 end.

Definition event_scenario (e : Event) : string :=
  match e with
  | EvRequest s _ => rq_scenario s
  | EvIteration s _ => it_scenario s
  | EvCheck ctx _ _ _ => mc_scenario ctx
  end.

Section report.
Context {H : HistOps} {M : MapIter}.

(** [RunScenariosContext::new]. *)
Definition new_run_context (r : Registry) : RunIds * Registry :=
  let '(a, r) := register_requests r in
  let '(b, r) := register_iterations r in
  let '(c, r) := register "checks" MetricKind.Counter r in
  (mkRunIds a b c, r).

Definition apply_event (ids : RunIds) (r : Registry) (e : Event) : Registry :=
  match e with
  | EvRequest s extra => record_request (ri_requests ids) s extra r
  | EvIteration s extra => record_iteration (ri_iterations ids) s extra r
  | EvCheck ctx group name passed => record_check (ri_checks ids) ctx group name passed r
  end.

Definition run_events (ids : RunIds) (evs : list Event) (r : Registry) : Registry :=
  foldl (apply_event ids) r evs.

(** ** Effects of events *)
Record run_ids_ok (ids : RunIds) (r : Registry) : Prop := {
  ro_requests : ids_ok (ri_requests ids) r;
  ro_counters : is_counter (iterations_total (ri_iterations ids)) r ∧ is_counter (ri_checks ids) r;
  ro_duration : ∀ m, is_counter m r → m ≠ iteration_duration (ri_iterations ids);
  ro_distinct : NoDup (counters (ri_requests ids) ++
                       [iterations_total (ri_iterations ids); ri_checks ids]) }.

Lemma run_ids_ok_effect ids r ops r' : effect r ops r' → run_ids_ok ids r → run_ids_ok ids r'.
Proof.
  intros E [H1 H2 H3 H4]. pose proof (ids_ok_effect _ _ _ _ E H1). destruct E as [_ D _ _].
  split; [done| | |done]; unfold is_counter in *; by rewrite D.
Qed.

(** The tag [(k, v)] of a series. *)
Definition has_tag (r : Registry) (t : TagSet) (k v : string) : Prop :=
  ∃ kid vid, pair_ids r (k, v) (kid, vid) ∧ get t kid = Some vid.

Lemma has_tag_effect r ops r' t k v : registry_wf r → effect r ops r' → has_tag r t k v → has_tag r' t k v.
Proof.
  intros Hwf E (kid & vid & [H1 H2] & Hg). exists kid, vid. split; [|done].
  split; by eapply effect_in_map.
Qed.

(** The tag is the only one of its key in the resolved series. *)
Definition sole_tag (r : Registry) (t : TagSet) (k v : string) : Prop :=
  ∃ l, Forall2 (pair_ids r) l t ∧ sole k v l.

Lemma sole_tag_effect r ops r' t k v : registry_wf r → effect r ops r' → sole_tag r t k v → sole_tag r' t k v.
Proof.
  intros Hwf E (l & Hl & Hs). exists l. split; [|done]. eapply Forall2_impl; [exact Hl|].
  intros p ids [H1 H2]. split; by eapply effect_in_map.
Qed.

(** The counts of an event, in a registry where its tags are interned. *)
Definition event_ops (ids : RunIds) (r : Registry) (e : Event) (ops : list (MetricId * TagSet * Z))
    : Prop :=
  match e with
  | EvRequest s _ => ∃ tp tk, ops = sample_ops (ri_requests ids) tp tk s ∧
      has_tag r tp "scenario" (rq_scenario s)
  | EvIteration s _ => ∃ t, ops = [(iterations_total (ri_iterations ids), t, 1)] ∧
      has_tag r t "scenario" (it_scenario s)
  | EvCheck ctx _ name passed => ∃ t, ops = [(ri_checks ids, t, 1)] ∧
      has_tag r t "scenario" (mc_scenario ctx) ∧ has_tag r t "name" name ∧
      has_tag r t "status" (if passed then "pass" else "fail") ∧
      sole_tag r t "scenario" (mc_scenario ctx) ∧ sole_tag r t "name" name ∧
      sole_tag r t "status" (if passed then "pass" else "fail")
  end.

Lemma event_ops_effect ids r ops' r' e ops :
  registry_wf r → effect r ops' r' → event_ops ids r e ops → event_ops ids r' e ops.
Proof.
  intros Hwf E. destruct e; simpl.
  - intros (tp & tk & -> & Ht). exists tp, tk. split; [done|by eapply has_tag_effect].
  - intros (t & -> & Ht). exists t. split; [done|by eapply has_tag_effect].
  - intros (t & -> & H1 & H2 & H3 & H4 & H5 & H6). exists t.
    split_and!; [done|by eapply has_tag_effect..|by eapply sole_tag_effect|by eapply sole_tag_effect|by eapply sole_tag_effect].
Qed.

Lemma record_iteration_strings ids s extra r :
  (strings r ≤ strings (record_iteration ids s extra r))%nat.
Proof.
  unfold record_iteration.
  match goal with |- context [resolve_merged ?a ?b ?c ?d] =>
    pose proof (resolve_merged_strings a b c d) as H1; destruct (resolve_merged a b c d) as [t r1] end.
  cbv zeta. rewrite observe_strings, count_strings. done.
Qed.

Lemma record_iteration_effect ids s extra r :
  registry_wf r → is_counter (iterations_total ids) r →
  (∀ m, is_counter m r → m ≠ iteration_duration ids) →
  reg_capacity (record_iteration ids s extra r) →
  ∃ t, effect r [(iterations_total ids, t, 1)] (record_iteration ids s extra r) ∧
    has_tag (record_iteration ids s extra r) t "scenario" (it_scenario s).
Proof.
  intros Hwf Hc Hne. unfold record_iteration. set (status := if it_success s then _ else _).
  set (base := [("scenario", it_scenario s); ("status", status)]%string).
  pose proof (resolve_merged_spec iteration_reserved extra base r "scenario" (it_scenario s) Hwf) as Hr.
  destruct (resolve_merged iteration_reserved extra base r) as [t r1]. simpl in Hr. cbv zeta.
  intros Hcap. assert (reg_capacity r1) as C1.
  { eapply capacity_mono; [|exact Hcap]. by rewrite observe_strings, count_strings. }
  destruct (Hr C1) as (E1 & kid & vid & [Hk Hv] & Hget); [set_solver|intros v' ?; set_solver|set_solver|].
  assert (∀ m, is_counter m r ↔ is_counter m r1) as Hsame.
  { intros m. unfold is_counter. by rewrite (ef_defs _ _ _ E1). }
  pose proof (effect_count (iterations_total ids) t 1 r1 (ef_wf _ _ _ E1)
    (proj1 (Hsame _) Hc) ltac:(lia)) as E2.
  set (r2 := count _ _ 1 r1) in *.
  assert (∀ m, is_counter m r2 → m ≠ iteration_duration ids) as Hne2.
  { intros m. unfold is_counter. rewrite (ef_defs _ _ _ E2). intros Hm. apply Hne. by apply Hsame. }
  pose proof (effect_observe (iteration_duration ids) t (micros (it_duration s)) r2
    (ef_wf _ _ _ E2) Hne2) as E3.
  assert (effect r [(iterations_total ids, t, 1)] r2) as E12.
  { apply (effect_trans r [] r1 [_]); [constructor|by repeat constructor|done|done]. }
  exists t. split.
  - apply (effect_trans r [_] r2 []); [by repeat constructor|constructor|done|done].
  - exists kid, vid. split; [|done].
    split; (eapply effect_in_map; [apply E2|exact E3|]; eapply effect_in_map; [apply E1|exact E2|done]).
Qed.

Lemma apply_event_strings ids e r : (strings r ≤ strings (apply_event ids r e))%nat.
Proof.
  destruct e; simpl; [apply record_request_strings|apply record_iteration_strings|apply record_check_strings].
Qed.

Lemma run_events_strings ids evs r : (strings r ≤ strings (run_events ids evs r))%nat.
Proof.
  unfold run_events. revert r. induction evs as [|e l IH]; intros r; simpl; [done|].
  pose proof (apply_event_strings ids e r). specialize (IH (apply_event ids r e)). lia.
Qed.

Lemma apply_event_effect ids e r :
  registry_wf r → run_ids_ok ids r → event_ok e → reg_capacity (apply_event ids r e) →
  ∃ ops, effect r ops (apply_event ids r e) ∧ ops_nonneg ops ∧ event_ops ids (apply_event ids r e) e ops.
Proof.
  intros Hwf [H1 [H2 H3] H4 _] Hok Hcap. destruct e as [s extra|s extra|ctx group name passed]; simpl in *.
  - destruct (record_request_effect _ s extra r Hwf H1 Hok Hcap) as (tp & tk & ks & vid & E & Hp & Hg).
    eexists. split_and!; [exact E|by apply sample_ops_nonneg|]. exists tp, tk. split; [done|].
    by exists ks, vid.
  - destruct (record_iteration_effect _ s extra r Hwf H2 H4 Hcap) as (t & E & Ht).
    eexists. split_and!; [exact E|by repeat constructor|]. by exists t.
  - destruct (record_check_effect _ ctx group name passed r Hwf H3 Hcap) as (t & E & _ & Ht).
    eexists. split_and!; [exact E|by repeat constructor|]. exists t.
    split_and!; [done|apply Ht; set_solver..].
Qed.

(** ** Totals *)
Lemma event_cost ids r e ops m pred :
  event_ops ids r e ops → event_ok e → 0 ≤ eff ops m pred ≤ cost e.
Proof.
  intros He Hok.
  assert (ops_nonneg ops ∧ sumf snd ops ≤ cost e) as [Hn Hs].
  { destruct e; simpl in He, Hok |- *.
    - destruct He as (tp & tk & -> & _). split; [by apply sample_ops_nonneg|].
      unfold sample_ops. rewrite sumf_app. unfold sumf.
      destruct (rq_ok s), (rq_error_kind s); simpl; lia.
    - destruct He as (t & -> & _). split; [by repeat constructor|]. unfold sumf; simpl; lia.
    - destruct He as (t & -> & _). split; [by repeat constructor|]. unfold sumf; simpl; lia. }
  split; [by apply eff_nonneg|]. etrans; [|exact Hs]. unfold eff. apply sumf_le.
  intros op Hop. pose proof (proj1 (Forall_forall _ _) Hn op Hop). simpl in *.
  case_bool_decide; [destruct (pred _)|]; lia.
Qed.

Lemma has_tag_is r t k v kid x vid :
  registry_wf r → has_tag r t k v → in_map (reg_interner r) !! k = Some kid →
  in_map (reg_interner r) !! x = Some vid →
  bool_decide (get t kid = Some vid) = bool_decide (v = x).
Proof.
  intros Hwf (kid' & vid' & [H1 H2] & Hg) Hk Hx. simpl in *. simplify_eq. rewrite Hg.
  apply bool_decide_ext. split; [intros [= ->]; by eapply in_map_inj|intros ->; congruence].
Qed.

(** The keys a computer holds are those of the registry. *)
Definition keys_ok (r : Registry) (keys : TagKeys) : Prop :=
  let id s k := in_map (reg_interner r) !! s = Some k in
  id "scenario"%string (tk_scenario keys) ∧ id "protocol"%string (tk_protocol keys) ∧
  id "status"%string (tk_status keys) ∧ id "name"%string (tk_name keys) ∧
  id "fail"%string (tk_fail keys).

(** What an event adds to a metric, in a series of its scenario. *)
Definition event_weight (ids : RunIds) (m : MetricId) (e : Event) : Z :=
  match e with
  | EvRequest s _ => if bool_decide (m ∈ scoped (ri_requests ids)) then weight (ri_requests ids) m s else 0
  | EvIteration _ _ => if bool_decide (m = iterations_total (ri_iterations ids)) then 1 else 0
  | EvCheck _ _ _ _ => if bool_decide (m = ri_checks ids) then 1 else 0
  end.

Lemma distinct_ids ids :
  NoDup (counters (ri_requests ids) ++ [iterations_total (ri_iterations ids); ri_checks ids]) →
  NoDup (counters (ri_requests ids)) ∧
  (∀ m, m ∈ counters (ri_requests ids) → m ≠ iterations_total (ri_iterations ids) ∧ m ≠ ri_checks ids) ∧
  iterations_total (ri_iterations ids) ≠ ri_checks ids.
Proof.
  intros (H1 & H2 & H3)%NoDup_app. split_and!; [done| |].
  - intros m Hm. specialize (H2 m Hm). set_solver.
  - apply NoDup_cons in H3 as [H3 _]. set_solver.
Qed.

Lemma eff_single m m' (t : TagSet) pred :
  eff [(m', t, 1)] m pred = if bool_decide (m = m') then if pred t then 1 else 0 else 0.
Proof.
  unfold eff, sumf; simpl. rewrite (bool_decide_ext (m' = m) (m = m')) by naive_solver.
  case_bool_decide; [destruct (pred t)|]; lia.
Qed.

Lemma eff_sample_other ids tp tk s m pred :
  m ∉ counters ids → eff (sample_ops ids tp tk s) m pred = 0.
Proof.
  unfold counters, sample_ops. intros Hm. unfold eff. rewrite sumf_app.
  destruct (rq_ok s), (rq_error_kind s); unfold sumf; simpl; repeat case_bool_decide; set_solver by lia.
Qed.

(** The requests' counters and the iterations', by scenario. *)
Lemma eff_scenario ids r e ops m ks sc vs :
  registry_wf r → run_ids_ok ids r → event_ops ids r e ops →
  m ∈ scoped (ri_requests ids) ++ [iterations_total (ri_iterations ids)] →
  in_map (reg_interner r) !! "scenario"%string = Some ks → in_map (reg_interner r) !! sc = Some vs →
  eff ops m (query_matches (where_eq ks vs (query m))) =
  if bool_decide (event_scenario e = sc) then event_weight ids m e else 0.
Proof.
  intros Hwf Hids He Hm Hks Hvs. destruct (distinct_ids _ (ro_distinct _ _ Hids)) as (Hnd & Hd1 & Hd2).
  assert (∀ m, m ∈ scoped (ri_requests ids) → m ∈ counters (ri_requests ids)) as Hsub.
  { unfold scoped, counters. set_solver. }
  assert (∀ t sc', has_tag r t "scenario" sc' →
    query_matches (where_eq ks vs (query m)) t = bool_decide (sc' = sc)) as Hq.
  { intros t sc' Ht. unfold query_matches. simpl. rewrite andb_true_r. by eapply has_tag_is. }
  apply elem_of_app in Hm. rewrite list_elem_of_singleton in Hm.
  destruct e as [s extra|s extra|ctx g n p]; simpl in He |- *.
  - destruct He as (tp & tk & -> & Ht). destruct Hm as [Hm|Hm].
    + rewrite eff_sample, (Hq _ _ Ht) by done. by rewrite (bool_decide_true (m ∈ _)).
    + rewrite eff_sample_other by (intros Hc; by destruct (Hd1 _ Hc)).
      rewrite (bool_decide_false (m ∈ _)) by (intros Hc%Hsub; by destruct (Hd1 _ Hc)).
      by case_bool_decide.
  - destruct He as (t & -> & Ht). rewrite eff_single, (Hq _ _ Ht).
    repeat case_bool_decide; congruence.
  - destruct He as (t & -> & Ht & _). rewrite eff_single.
    rewrite (bool_decide_false (m = ri_checks ids)); [by case_bool_decide|].
    destruct Hm as [Hm| ->]; [apply Hsub in Hm; by destruct (Hd1 _ Hm)|done].
Qed.

(** The failed checks of a scenario, by the name [n] selects. *)
Definition failed_check (sc : string) (n : string → bool) (e : Event) : Z :=
  match e with
  | EvCheck ctx _ name passed =>
      if bool_decide (mc_scenario ctx = sc) && negb passed && n name then 1 else 0
  | _ => 0
  end.

(** The name of a group. *)
Definition group_name (r : Registry) (keys : TagKeys) (g : TagSet) : option string :=
  id ← get g (tk_name keys); resolve_key_id id r.

Lemma group_key_name r keys q t name :
  registry_wf r → keys_ok r keys → has_tag r t "name" name →
  q_group_keys q = [tk_name keys] → group_name r keys (group_key q t) = Some name.
Proof.
  intros Hwf (_ & _ & _ & Hn & _) (kid & vid & [H1 H2] & Hg) Hq. simpl in *. simplify_eq.
  unfold group_key, project. rewrite Hq. simpl. rewrite Hg. simpl. unfold group_name.
  assert (get [(tk_name keys, vid)] (tk_name keys) = Some vid) as ->.
  { apply get_Some_iff; [|apply NoDup_singleton|set_solver].
    apply sorted_keys_sorted. repeat constructor. }
  simpl. apply wf_resolve in H2; [done|apply Hwf].
Qed.

Lemma eff_checks ids r e ops sc (n : string → bool) pred :
  run_ids_ok ids r → event_ops ids r e ops →
  (∀ t ctx name (p : bool), has_tag r t "scenario" (mc_scenario ctx) → has_tag r t "name" name →
     has_tag r t "status" (if p then "pass" else "fail") →
     pred t = bool_decide (mc_scenario ctx = sc) && negb p && n name) →
  eff ops (ri_checks ids) pred = failed_check sc n e.
Proof.
  intros Hids He Hp. destruct (distinct_ids _ (ro_distinct _ _ Hids)) as (Hnd & Hd1 & Hd2).
  destruct e as [s extra|s extra|ctx g name p]; simpl in He |- *.
  - destruct He as (tp & tk & -> & _). apply eff_sample_other. intros Hc. by destruct (Hd1 _ Hc).
  - destruct He as (t & -> & _). rewrite eff_single. by rewrite bool_decide_false.
  - destruct He as (t & -> & H1 & H2 & H3 & _). rewrite eff_single, bool_decide_true by done.
    by rewrite (Hp t ctx name p H1 H2 H3).
Qed.

Lemma checks_query_matches r keys checks sc sv t ctx (p : bool) :
  registry_wf r → keys_ok r keys → in_map (reg_interner r) !! sc = Some sv →
  has_tag r t "scenario" (mc_scenario ctx) → has_tag r t "status" (if p then "pass" else "fail") →
  query_matches (checks_failed_query checks keys sv) t = bool_decide (mc_scenario ctx = sc) && negb p.
Proof.
  intros Hwf (K1 & _ & K3 & K4 & K5) Hvs H1 H3. unfold checks_failed_query, query_matches. simpl.
  rewrite andb_true_r, (has_tag_is r t "scenario" (mc_scenario ctx) _ sc) by done.
  rewrite (has_tag_is r t "status" _ _ "fail") by done. by destruct p.
Qed.

(** ** The failed checks of a report *)
Definition named (r : Registry) (keys : TagKeys) (n : string) (g : TagSet) : bool :=
  match group_name r keys g with Some x => bool_decide (x = n) | None => false end.

Lemma add_failed_name keys r acc p n :
  map_Forall (λ _ x, 0 < x) acc.2 → 0 < p.2 →
  default 0 (acc.2 !! n) + (if named r keys n p.1 then p.2 else 0) ≤ u64_max →
  map_Forall (λ _ x, 0 < x) (add_failed keys r acc p).2 ∧
  default 0 ((add_failed keys r acc p).2 !! n) =
    default 0 (acc.2 !! n) + (if named r keys n p.1 then p.2 else 0).
Proof.
  destruct acc as [total by_name]. unfold add_failed, named, group_name. simpl. intros Hpos Hp.
  destruct (get p.1 (tk_name keys)) as [id|]; simpl; [|intros _; split; [done|lia]].
  destruct (resolve_key_id id r) as [name|]; simpl; [|intros _; split; [done|lia]].
  intros Hmax. destruct (by_name !! name) as [cur|] eqn:Hn; simpl.
  - pose proof (Hpos _ _ Hn). simpl in *. split; [apply map_Forall_insert_2; [ints_lia|done]|].
    case_bool_decide as E; [subst|]; [rewrite lookup_insert_eq|rewrite lookup_insert_ne by done; lia].
    rewrite Hn in *. simpl in *. ints_lia.
  - split; [by apply map_Forall_insert_2|].
    case_bool_decide as E; [subst|]; [rewrite lookup_insert_eq|rewrite lookup_insert_ne by done; lia].
    rewrite Hn. simpl. lia.
Qed.

Lemma add_failed_total keys r acc p : (add_failed keys r acc p).1 = u64_sat_add acc.1 p.2.
Proof.
  destruct acc as [total by_name]. unfold add_failed.
  destruct (get p.1 (tk_name keys)) as [id|]; [|done]. by destruct (resolve_key_id id r).
Qed.

Lemma checks_failed_spec checks keys sv r :
  let q := checks_failed_query checks keys sv in
  let out := compute_checks_failed checks keys sv r in
  registry_wf r → metric_sum count_of (query_matches q) checks r ≤ u64_max →
  out.1 = metric_sum count_of (query_matches q) checks r ∧
  ∀ n, let c := metric_sum count_of (λ t, query_matches q t && named r keys n (group_key q t)) checks r in
       out.2 !! n = if c =? 0 then None else Some c.
Proof.
  intros q out Hwf Hmax. destruct (sum_counter_select q r Hwf Hmax) as [Hpos Hsel].
  change (q_metric q) with checks in Hsel.
  assert (∀ P : TagSet → bool, sumf (λ p : TagSet * Z, if P p.1 then p.2 else 0) (map_iter (sum_counter q r)) =
    metric_sum count_of (λ t, query_matches q t && P (group_key q t)) checks r) as Hsum.
  { intros P. rewrite map_iter_perm. apply Hsel. }
  assert (metric_sum count_of (λ t, query_matches q t && true) checks r =
    metric_sum count_of (query_matches q) checks r) as Hall.
  { apply sumf_ext. intros [t x] _. unfold series_val. simpl. by rewrite andb_true_r. }
  assert (∀ p, p ∈ map_iter (sum_counter q r) → 0 < p.2) as Hp.
  { intros [g v] Hin%elem_of_map_iter. by apply (Hpos g). }
  split.
  - destruct (foldl_exact (fst : Z * gmap string Z → Z) (λ acc : Z * gmap string Z, 0 ≤ acc.1) (add_failed keys r) snd
      (map_iter (sum_counter q r)) (0, ∅)) as [_ He].
    + intros acc p Hin Hacc Hle. rewrite add_failed_total. specialize (Hp p Hin). ints_lia.
    + simpl. lia.
    + intros p Hin. specialize (Hp p Hin). lia.
    + simpl. pose proof (Hsum (λ _, true)) as Ht. simpl in Ht. rewrite Hall in Ht.
      replace (sumf snd (map_iter (sum_counter q r)))
        with (sumf (λ p : TagSet * Z, p.2) (map_iter (sum_counter q r))) by done. lia.
    + unfold out, compute_checks_failed. fold q. rewrite He. simpl.
      pose proof (Hsum (λ _, true)) as Ht. simpl in Ht. rewrite Hall in Ht. exact Ht.
  - intros n c.
    destruct (foldl_exact (λ acc : Z * gmap string Z, default 0 (acc.2 !! n))
      (λ acc : Z * gmap string Z, map_Forall (λ _ x, 0 < x) acc.2) (add_failed keys r)
      (λ p : TagSet * Z, if named r keys n p.1 then p.2 else 0) (map_iter (sum_counter q r)) (0, ∅)) as [Hinv He].
    + intros acc p Hin Hacc Hle. apply add_failed_name; [done|by apply Hp|done].
    + apply map_Forall_empty.
    + intros p Hin. specialize (Hp p Hin). destruct (named _ _ _ _); lia.
    + simpl. rewrite Hsum. rewrite lookup_empty. simpl. etrans; [|exact Hmax].
      apply sumf_le. intros [t x] _. unfold series_val. simpl.
      pose proof (cell_val_range count_of r x Hwf count_of_ok).
      destruct (query_matches q t); simpl; [|lia]. destruct (named _ _ _ _); ints_lia.
    + fold out in He. simpl in He. rewrite lookup_empty, Hsum in He. simpl in He. fold c in He.
      change (foldl (add_failed keys r) (0, ∅) (map_iter (sum_counter q r))) with out in *.
      destruct (out.2 !! n) as [x|] eqn:Hx; simpl in He.
      * pose proof (Hinv _ _ Hx). simpl in *. destruct (Z.eqb_spec c 0); [lia|]. f_equal. lia.
      * destruct (Z.eqb_spec c 0); [done|lia].
Qed.

(** ** The figures of a scenario *)
Definition requests_of (e : Event) : Z := match e with EvRequest _ _ => 1 | _ => 0 end.
Definition failures_of (e : Event) : Z :=
  match e with EvRequest s _ => if rq_ok s then 0 else 1 | _ => 0 end.
Definition received_of (e : Event) : Z :=
  match e with EvRequest s _ => rq_bytes_received s | _ => 0 end.
Definition sent_of (e : Event) : Z := match e with EvRequest s _ => rq_bytes_sent s | _ => 0 end.
Definition iterations_of (e : Event) : Z := match e with EvIteration _ _ => 1 | _ => 0 end.

(** The sum of [f] over the events of a scenario. *)
Definition tally (f : Event → Z) (sc : string) (evs : list Event) : Z :=
  sumf (λ e, if bool_decide (event_scenario e = sc) then f e else 0) evs.

Definition checks_tally (n : string → bool) (sc : string) (evs : list Event) : Z :=
  sumf (failed_check sc n) evs.

Record figures_ok (evs : list Event) (sc : string) (requests failed received sent iterations
    checks_failed : Z) (by_name : gmap string Z) : Prop := {
  fg_requests : requests = tally requests_of sc evs;
  fg_failed : failed = tally failures_of sc evs;
  fg_received : received = tally received_of sc evs;
  fg_sent : sent = tally sent_of sc evs;
  fg_iterations : iterations = tally iterations_of sc evs;
  fg_checks : checks_failed = checks_tally (λ _, true) sc evs;
  fg_by_name n : by_name !! n =
    let c := checks_tally (λ x, bool_decide (x = n)) sc evs in if c =? 0 then None else Some c }.

Definition summary_ok (evs : list Event) (name : string) (s : ScenarioSummary) : Prop :=
  su_scenario s = name ∧
  figures_ok evs name (su_requests_total s) (su_failed_requests_total s) (su_bytes_received_total s)
    (su_bytes_sent_total s) (su_iterations_total s) (su_checks_failed_total s) (su_checks_failed s).

Definition snapshot_ok (evs : list Event) (name : string) (s : ScenarioSnapshot)
    (by_name : gmap string Z) : Prop :=
  figures_ok evs name (sn_requests_total s) (sn_failed_requests_total s) (sn_bytes_received_total s)
    (sn_bytes_sent_total s) (sn_iterations_total s) (sn_checks_failed_total s) by_name.

(** ** The start of a run *)
Definition run_ids : RunIds := (new_run_context empty_registry).1.
Definition run_start : Registry := (new_run_context empty_registry).2.

Lemma run_ids_eq : run_ids = mkRunIds (mkRequestIds 0 1 2 3 4 5) (mkIterationIds 6 7) 8.
Proof. vm_compute. reflexivity. Qed.

Lemma run_start_defs : md_kind <$> reg_defs run_start =
  [MetricKind.Counter; MetricKind.Counter; MetricKind.Counter; MetricKind.Counter;
   MetricKind.Counter; MetricKind.Histogram; MetricKind.Counter; MetricKind.Histogram;
   MetricKind.Counter].
Proof. vm_compute. reflexivity. Qed.

Lemma run_start_wf : registry_wf run_start.
Proof.
  assert (∀ name kind r, registry_wf r → has_room (reg_interner r) →
    Z.of_nat (length (reg_defs r)) < 2 ^ 32 → registry_wf (register name kind r).2) as Hreg.
  { intros name kind r Hwf Hr Hl. pose proof (register_spec name kind r Hwf Hr Hl) as Hs.
    destruct (register name kind r). apply Hs. }
  assert (run_start =
    (register "checks" MetricKind.Counter
    (register "iteration_duration" MetricKind.Histogram
    (register "iterations_total" MetricKind.Counter start).2).2).2) as ->.
  { unfold run_start, new_run_context, register_iterations, start.
    destruct (register_requests empty_registry) as [a r]. cbn [snd].
    repeat (destruct (register _ _ _) as [? ?]; cbn [snd]). done. }
  repeat (apply Hreg; [|by vm_compute|by vm_compute]). apply start_wf.
Qed.

Lemma counter_iff r m :
  is_counter m r ↔ 0 ≤ m ∧ (md_kind <$> reg_defs r) !! Z.to_nat m = Some MetricKind.Counter.
Proof.
  unfold is_counter. rewrite list_lookup_fmap. split.
  - intros (Hm & d & Hd & Hk). split; [done|]. by rewrite Hd, <- Hk.
  - intros (Hm & Hk). split; [done|]. destruct (reg_defs r !! Z.to_nat m) as [d|]; [|done].
    exists d. split; [done|]. by injection Hk.
Qed.

Lemma run_start_counter m : is_counter m run_start ↔ m ∈ [0; 1; 2; 3; 4; 6; 8].
Proof.
  rewrite counter_iff, run_start_defs. split.
  - intros [Hm Hk]. pose proof (lookup_lt_Some _ _ _ Hk) as Hlt. simpl in Hlt.
    assert (m = 0 ∨ m = 1 ∨ m = 2 ∨ m = 3 ∨ m = 4 ∨ m = 5 ∨ m = 6 ∨ m = 7 ∨ m = 8) as Hcases by lia.
    repeat (destruct Hcases as [->|Hcases]; [done || set_solver|]). subst m. set_solver.
  - intros Hm. repeat (apply elem_of_cons in Hm as [->|Hm]); [..|by apply elem_of_nil in Hm];
      (split; [lia|reflexivity]).
Qed.

Lemma run_start_ids_ok : run_ids_ok run_ids run_start.
Proof.
  rewrite run_ids_eq. split; unfold ids_ok, counters; simpl.
  - split_and!; simpl.
    + each ltac:(apply run_start_counter; set_solver).
    + repeat (apply NoDup_cons; split; [set_solver by lia|]). apply NoDup_nil_2.
    + intros m Hm%run_start_counter ->. set_solver by lia.
  - split; apply run_start_counter; set_solver.
  - intros m Hm%run_start_counter ->. set_solver by lia.
  - repeat (apply NoDup_cons; split; [set_solver by lia|]). apply NoDup_nil_2.
Qed.

Lemma run_start_sum m : metric_sum count_of (λ _, true) m run_start = 0.
Proof.
  unfold metric_sum. assert (Forall (λ p, p.2 = ∅) (map_to_list (reg_storage run_start))) as Hs.
  { vm_compute. repeat constructor. }
  destruct (reg_storage run_start !! m) as [sm|] eqn:E; simpl; [|by rewrite map_to_list_empty].
  apply elem_of_map_to_list in E. eapply Forall_forall in Hs; [|exact E]. simpl in Hs.
  by rewrite Hs, map_to_list_empty.
Qed.

(** ** Resolving the keys of a computer *)
Lemma effect_nil_trans r1 r2 r3 : effect r1 [] r2 → effect r2 [] r3 → effect r1 [] r3.
Proof. intros E1 E2. apply (effect_trans r1 [] r2 []); [constructor..|done|done]. Qed.

(** Each key of a list is interned, one after the other. *)
Fixpoint intern_keys (keys : list string) (r : Registry) : list KeyId * Registry :=
  match keys with
  | [] => ([], r)
  | k :: keys =>
      let '(id, r) := resolve_key k r in
      let '(ids, r) := intern_keys keys r in (id :: ids, r)
  end.

Lemma intern_keys_strings keys r : (strings r ≤ strings (intern_keys keys r).2)%nat.
Proof.
  revert r. induction keys as [|k keys IH]; intros r; simpl; [done|].
  pose proof (resolve_key_strings k r). destruct (resolve_key k r) as [id r1].
  specialize (IH r1). destruct (intern_keys keys r1) as [ids r2]. simpl in *. lia.
Qed.

Lemma intern_keys_spec keys r :
  registry_wf r → reg_capacity (intern_keys keys r).2 →
  effect r [] (intern_keys keys r).2 ∧
  Forall2 (λ k id, in_map (reg_interner (intern_keys keys r).2) !! k = Some id) keys (intern_keys keys r).1.
Proof.
  revert r. induction keys as [|k keys IH]; intros r Hwf Hcap; simpl in *.
  { split; [by apply effect_refl|constructor]. }
  pose proof (resolve_key_capacity k r Hwf) as Hk. destruct (resolve_key k r) as [id r1].
  pose proof (intern_keys_strings keys r1) as Hl. specialize (IH r1).
  destruct (intern_keys keys r1) as [ids r2]. simpl in *.
  destruct (Hk (capacity_mono _ _ Hl Hcap)) as (E1 & Hid & _).
  destruct (IH (ef_wf _ _ _ E1) Hcap) as [E2 Hall].
  split; [by eapply effect_nil_trans|]. constructor; [|done].
  eapply effect_in_map; [apply E1|exact E2|done].
Qed.

Lemma new_tag_keys_eq r :
  new_tag_keys r =
  let '(ids, r) := intern_keys ["scenario"; "protocol"; "status"; "name"; "fail"]%string r in
  (match ids with [a; b; c; d; e] => mkTagKeys a b c d e | _ => mkTagKeys 0 0 0 0 0 end, r).
Proof.
  unfold new_tag_keys. cbn [intern_keys].
  repeat (destruct (resolve_key _ _) as [? ?]). reflexivity.
Qed.

Lemma new_tag_keys_spec r :
  registry_wf r → reg_capacity (new_tag_keys r).2 →
  effect r [] (new_tag_keys r).2 ∧ keys_ok (new_tag_keys r).2 (new_tag_keys r).1.
Proof.
  intros Hwf. rewrite new_tag_keys_eq.
  pose proof (intern_keys_spec ["scenario"; "protocol"; "status"; "name"; "fail"]%string r Hwf) as Hs.
  destruct (intern_keys _ r) as [ids r1]. simpl in *. intros Hcap. destruct (Hs Hcap) as [E Hall].
  split; [done|]. repeat (inversion_clear Hall as [|? ? ? ? ? Hall']; rename Hall' into Hall).
  inversion Hall; subst. split_and!; done.
Qed.

Lemma keys_ok_effect r ops r' keys : registry_wf r → effect r ops r' → keys_ok r keys → keys_ok r' keys.
Proof.
  intros Hwf E (H1 & H2 & H3 & H4 & H5). split_and!; by eapply effect_in_map.
Qed.

(** ** Registries in which a run has been recorded *)

(** [r] is what the start of a run becomes when exactly the events [evs] have
    been recorded, and tags resolved, in any order. *)
Definition recorded (evs : list Event) (r : Registry) : Prop :=
  ∃ opss, effect run_start (concat opss) r ∧ Forall ops_nonneg opss ∧
    Forall2 (event_ops run_ids r) evs opss.

Lemma recorded_wf evs r : recorded evs r → registry_wf r ∧ run_ids_ok run_ids r.
Proof.
  intros (opss & E & _). split; [apply E|]. eapply run_ids_ok_effect; [exact E|apply run_start_ids_ok].
Qed.

Lemma recorded_start : recorded [] run_start.
Proof.
  exists []. split_and!; [by apply effect_refl, run_start_wf|constructor|constructor].
Qed.

Lemma event_ops_all r ops r' evs opss :
  registry_wf r → effect r ops r' →
  Forall2 (event_ops run_ids r) evs opss → Forall2 (event_ops run_ids r') evs opss.
Proof. intros Hwf E Hall. eapply Forall2_impl; [exact Hall|]. intros e o. by eapply event_ops_effect. Qed.

Lemma recorded_effect evs r r' : recorded evs r → effect r [] r' → recorded evs r'.
Proof.
  intros (opss & E1 & Hn & Hall) E2. exists opss. split_and!; [|done|].
  - rewrite <- (app_nil_r (concat opss)).
    eapply effect_trans; [by apply Forall_concat|constructor|done|done].
  - eapply event_ops_all; [apply E1|exact E2|done].
Qed.

Lemma recorded_event evs r e :
  recorded evs r → event_ok e → reg_capacity (apply_event run_ids r e) →
  recorded (evs ++ [e]) (apply_event run_ids r e) ∧
  ∃ ops, effect r ops (apply_event run_ids r e) ∧ ops_nonneg ops.
Proof.
  intros Hr Hok Hcap. destruct (recorded_wf _ _ Hr) as [Hwf Hids].
  destruct (apply_event_effect run_ids e r Hwf Hids Hok Hcap) as (ops & E & Hn & Ho).
  split; [|by exists ops].
  destruct Hr as (opss & E1 & Hns & Hall). exists (opss ++ [ops]). split_and!.
  - rewrite concat_app. simpl. rewrite app_nil_r.
    eapply effect_trans; [by apply Forall_concat|done|done|done].
  - apply Forall_app. split; [done|by repeat constructor].
  - apply Forall2_app; [by eapply event_ops_all|by repeat constructor].
Qed.

Lemma recorded_events evs evs' r :
  recorded evs r → Forall event_ok evs' → reg_capacity (run_events run_ids evs' r) →
  recorded (evs ++ evs') (run_events run_ids evs' r) ∧
  ∃ ops, effect r ops (run_events run_ids evs' r) ∧ ops_nonneg ops.
Proof.
  unfold run_events. revert evs r. induction evs' as [|e l IH]; intros evs r Hr Hok Hcap; simpl in *.
  { rewrite app_nil_r. split; [done|]. exists []. split; [|constructor].
    apply effect_refl. by apply (recorded_wf evs). }
  apply Forall_cons in Hok as [Hs Hok].
  assert (reg_capacity (apply_event run_ids r e)) as C1.
  { eapply capacity_mono; [|exact Hcap]. apply (run_events_strings run_ids l). }
  destruct (recorded_event evs r e Hr Hs C1) as (Hr1 & ops1 & E1 & Hn1).
  destruct (IH _ _ Hr1 Hok Hcap) as (Hr2 & ops2 & E2 & Hn2).
  rewrite <- app_assoc in Hr2. split; [done|]. exists (ops1 ++ ops2).
  split; [by eapply effect_trans|by apply Forall_app].
Qed.

(** The sum of a counter: what the events add to the series [pred] selects. *)
Lemma events_total evs r m pred w :
  recorded evs r → Forall event_ok evs → sumf cost evs ≤ u64_max → is_counter m run_start →
  (∀ e ops, event_ops run_ids r e ops → eff ops m pred = w e) →
  metric_sum count_of pred m r = sumf w evs ∧ metric_sum count_of pred m r ≤ u64_max.
Proof.
  intros (opss & E & Hn & Hall) Hok Hmax Hc Hw.
  assert (∀ pred, 0 ≤ eff (concat opss) m pred ≤ sumf cost evs) as Hcost.
  { intros p. rewrite eff_concat. clear -Hall Hok.
    induction Hall as [|e ops evs opss He Hall IH]; [unfold sumf; simpl; lia|].
    apply Forall_cons in Hok as [Hok1 Hok]. rewrite !sumf_cons.
    pose proof (event_cost _ _ _ _ m p He Hok1). specialize (IH Hok). lia. }
  assert (eff (concat opss) m pred = sumf w evs) as Heff.
  { rewrite eff_concat. clear -Hall Hw. induction Hall as [|e ops evs opss He Hall IH]; [done|].
    rewrite !sumf_cons, IH. f_equal. by apply Hw. }
  assert (metric_sum count_of pred m run_start = 0) as Hz.
  { pose proof (metric_sum_nonneg count_of pred m run_start run_start_wf count_of_ok).
    pose proof (metric_sum_all_ge count_of pred m run_start run_start_wf count_of_ok).
    pose proof (run_start_sum m). lia. }
  pose proof (Hcost (λ _, true)). pose proof (Hcost pred).
  rewrite (ef_sum _ _ _ E m Hc), Hz; [|rewrite run_start_sum; lia]. rewrite Heff in *. lia.
Qed.

(** ** Figures *)
Lemma tally_total evs r keys sc sv m f :
  recorded evs r → Forall event_ok evs → sumf cost evs ≤ u64_max → keys_ok r keys →
  in_map (reg_interner r) !! sc = Some sv →
  m ∈ scoped (ri_requests run_ids) ++ [iterations_total (ri_iterations run_ids)] →
  (∀ e, event_weight run_ids m e = f e) → scenario_total m keys sv r = tally f sc evs.
Proof.
  intros Hr Hok Hmax (Hks & _) Hvs Hm Hf. destruct (recorded_wf _ _ Hr) as [Hwf Hids].
  assert (is_counter m run_start) as Hc.
  { apply run_start_counter. rewrite run_ids_eq in Hm. unfold scoped in Hm. simpl in Hm. set_solver. }
  destruct (events_total evs r m (query_matches (where_eq (tk_scenario keys) sv (query m)))
    (λ e, if bool_decide (event_scenario e = sc) then event_weight run_ids m e else 0)
    Hr Hok Hmax Hc) as [Ht Hle].
  - intros e ops He. by eapply eff_scenario.
  - unfold scenario_total. rewrite sum_counter_total_spec by done. simpl. rewrite Ht.
    unfold tally. apply sumf_ext. intros e _. by rewrite Hf.
Qed.

Lemma checks_total evs r sc n pred :
  recorded evs r → Forall event_ok evs → sumf cost evs ≤ u64_max →
  (∀ t ctx name (p : bool), has_tag r t "scenario" (mc_scenario ctx) → has_tag r t "name" name →
     has_tag r t "status" (if p then "pass" else "fail") →
     pred t = bool_decide (mc_scenario ctx = sc) && negb p && n name) →
  metric_sum count_of pred (ri_checks run_ids) r = checks_tally n sc evs ∧
  metric_sum count_of pred (ri_checks run_ids) r ≤ u64_max.
Proof.
  intros Hr Hok Hmax Hp. destruct (recorded_wf _ _ Hr) as [Hwf Hids].
  apply (events_total evs r (ri_checks run_ids) pred (failed_check sc n) Hr Hok Hmax);
    [apply run_start_ids_ok|].
  intros e ops He. by eapply (eff_checks run_ids r).
Qed.

Lemma run_figures evs sc r keys sv :
  recorded evs r → Forall event_ok evs → sumf cost evs ≤ u64_max → keys_ok r keys →
  in_map (reg_interner r) !! sc = Some sv →
  let total m := scenario_total m keys sv r in
  let out := compute_checks_failed (ri_checks run_ids) keys sv r in
  figures_ok evs sc (total (requests_total (ri_requests run_ids)))
    (total (errors_total (ri_requests run_ids))) (total (bytes_received_total (ri_requests run_ids)))
    (total (bytes_sent_total (ri_requests run_ids)))
    (total (iterations_total (ri_iterations run_ids))) out.1 out.2.
Proof.
  intros Hr Hok Hmax Hk Hvs total out. destruct (recorded_wf _ _ Hr) as [Hwf _].
  pose proof (tally_total evs r keys sc sv) as Htot.
  destruct (checks_total evs r sc (λ _, true)
    (query_matches (checks_failed_query (ri_checks run_ids) keys sv))) as [Hall Hle]; [done..| |].
  { intros t ctx name p H1 H2 H3. rewrite andb_true_r. by eapply checks_query_matches. }
  destruct (checks_failed_spec (ri_checks run_ids) keys sv r Hwf Hle) as [Hc1 Hc2].
  fold out in Hc1, Hc2. unfold total.
  split; try (apply Htot; [done..|rewrite run_ids_eq; unfold scoped; simpl; set_solver|
    intros e; rewrite run_ids_eq; by destruct e]).
  - by rewrite Hc1, Hall.
  - intros n. rewrite Hc2. cbv zeta.
    match goal with |- context [metric_sum count_of ?p ?m r] => set (pred := p) end.
    destruct (checks_total evs r sc (λ x, bool_decide (x = n)) pred) as [-> _]; [done..| |done].
    intros t ctx name p H1 H2 H3. unfold pred, named.
    rewrite (checks_query_matches r keys _ sc sv t ctx p) by done.
    by rewrite (group_key_name r keys _ t name).
Qed.
End report.
