(* ===== verification/ReportProps.v ===== *)
(** * Properties of the reports *)
From S2P Require Import Prelude Coll Std F64 Config Key Tags Metrics Registry Agg Requests Checks.
From S2P Require Import Thresholds ThresholdsEval Summary Exit Report.

Section props.
Context {H : HistOps} {M : MapIter}.

Lemma scenario_summary_strings c name r :
  (strings r ≤ strings (compute_scenario_summary c name r).2)%nat.
Proof.
  unfold compute_scenario_summary. pose proof (resolve_key_strings name r) as Hl.
  destruct (resolve_key name r) as [sv r1]. by destruct (compute_checks_failed _ _ _ _).
Qed.

Lemma scenario_summaries_strings c names r :
  (strings r ≤ strings (scenario_summaries c names r).2)%nat.
Proof.
  revert r. induction names as [|name names IH]; intros r; simpl; [done|].
  pose proof (scenario_summary_strings c name r).
  destruct (compute_scenario_summary c name r) as [s r1]. specialize (IH r1).
  destruct (scenario_summaries c names r1) as [l r2]. simpl in *. lia.
Qed.

Definition run_computer (c : MetricComputer) : Prop :=
  mc_request_ids c = ri_requests run_ids ∧ mc_iteration_ids c = ri_iterations run_ids ∧
  mc_checks_metric c = ri_checks run_ids.

(** A computer of the run, whose keys are interned in [r]. *)
Definition computer_ok (c : MetricComputer) (r : Registry) : Prop :=
  run_computer c ∧ keys_ok r (mc_keys c).

Lemma computer_ok_effect c r ops r' : registry_wf r → effect r ops r' → computer_ok c r → computer_ok c r'.
Proof. intros Hwf E [H1 H2]. split; [done|by eapply keys_ok_effect]. Qed.

(** Resolving the scenario, then its figures. *)
Lemma resolve_figures evs c name r :
  recorded evs r → Forall event_ok evs → sumf cost evs ≤ u64_max → computer_ok c r →
  let '(sv, r') := resolve_key name r in
  reg_capacity r' →
  effect r [] r' ∧ recorded evs r' ∧
  let total m := scenario_total m (mc_keys c) sv r' in
  let out := compute_checks_failed (mc_checks_metric c) (mc_keys c) sv r' in
  figures_ok evs name (total (requests_total (mc_request_ids c)))
    (total (errors_total (mc_request_ids c))) (total (bytes_received_total (mc_request_ids c)))
    (total (bytes_sent_total (mc_request_ids c)))
    (total (iterations_total (mc_iteration_ids c))) out.1 out.2.
Proof.
  intros Hr Hok Hmax [(Hq & Hi & Hc) Hk]. destruct (recorded_wf _ _ Hr) as [Hwf _].
  pose proof (resolve_key_capacity name r Hwf) as Hs. destruct (resolve_key name r) as [sv r1].
  simpl in Hs. intros Hcap. destruct (Hs Hcap) as (E1 & Hsv & _).
  pose proof (recorded_effect _ _ _ Hr E1) as Hr1.
  split; [done|]. split; [done|]. rewrite Hq, Hi, Hc.
  apply run_figures; [done..| |done]. by eapply keys_ok_effect.
Qed.

Lemma scenario_summary_correct evs c name r :
  recorded evs r → Forall event_ok evs → sumf cost evs ≤ u64_max → computer_ok c r →
  let '(s, r') := compute_scenario_summary c name r in
  reg_capacity r' → summary_ok evs name s ∧ effect r [] r' ∧ recorded evs r'.
Proof.
  intros Hr Hok Hmax Hc. pose proof (resolve_figures evs c name r Hr Hok Hmax Hc) as Hf.
  unfold compute_scenario_summary. destruct (resolve_key name r) as [sv r1].
  destruct (compute_checks_failed _ _ _ _) as [n by_name]. intros Hcap.
  destruct (Hf Hcap) as (E & Hr1 & Hfig). by split_and!.
Qed.

Lemma scenario_summaries_correct evs c names r :
  recorded evs r → Forall event_ok evs → sumf cost evs ≤ u64_max → computer_ok c r →
  let '(l, r') := scenario_summaries c names r in
  reg_capacity r' → Forall2 (summary_ok evs) names l.
Proof.
  revert r. induction names as [|name names IH]; intros r Hr Hok Hmax Hc; simpl; [by constructor|].
  pose proof (scenario_summary_correct evs c name r Hr Hok Hmax Hc) as Hs.
  destruct (compute_scenario_summary c name r) as [s r1].
  pose proof (scenario_summaries_strings c names r1) as Hl. specialize (IH r1).
  destruct (scenario_summaries c names r1) as [l r2]. simpl in Hl. intros Hcap.
  destruct (Hs (capacity_mono _ _ Hl Hcap)) as (Hs1 & E & Hr1). constructor; [done|].
  apply IH; [done|done|done| |done]. eapply computer_ok_effect; [apply (recorded_wf _ _ Hr)|done|done].
Qed.

Lemma new_computer_ok evs r :
  recorded evs r →
  let '(c, r') := new_computer (ri_requests run_ids) (ri_iterations run_ids) (ri_checks run_ids) r in
  reg_capacity r' → recorded evs r' ∧ computer_ok c r'.
Proof.
  intros Hr. destruct (recorded_wf _ _ Hr) as [Hwf _]. unfold new_computer.
  pose proof (new_tag_keys_spec r Hwf) as Hs. destruct (new_tag_keys r) as [keys r1]. simpl in Hs.
  intros Hcap. destruct (Hs Hcap) as [E Hk]. split; [by eapply recorded_effect|]. by split.
Qed.

Lemma figures_checks evs sc a b c d e n by_name :
  figures_ok evs sc a b c d e n by_name →
  (0 <? n) = existsb (λ ev, match ev with
    | EvCheck ctx _ _ passed => bool_decide (mc_scenario ctx = sc) && negb passed
    | _ => false end) evs.
Proof.
  intros [_ _ _ _ _ -> _]. unfold checks_tally. induction evs as [|ev evs IH]; [done|].
  rewrite sumf_cons. simpl. rewrite <- IH.
  assert (0 ≤ sumf (failed_check sc (λ _, true)) evs) as H0.
  { apply sumf_nonneg. intros x _. destruct x; simpl; try lia. by destruct (_ && _ && _). }
  destruct ev as [| |ctx g name passed]; simpl; [done..|]. rewrite andb_true_r.
  destruct (bool_decide _ && negb passed); simpl; [|done]. apply Z.ltb_lt. lia.
Qed.

Lemma new_computer_strings a b m r : (strings r ≤ strings (new_computer a b m r).2)%nat.
Proof.
  unfold new_computer. rewrite new_tag_keys_eq.
  pose proof (intern_keys_strings ["scenario"; "protocol"; "status"; "name"; "fail"]%string r) as Hl.
  by destruct (intern_keys _ r).
Qed.

(** The end of a run: the computer, then one summary per name. *)
Definition end_of_run (names : list string) (r : Registry) : list ScenarioSummary * Registry :=
  let '(c, r1) :=
    new_computer (ri_requests run_ids) (ri_iterations run_ids) (ri_checks run_ids) r in
  scenario_summaries c names r1.

Lemma end_of_run_correct evs names :
  Forall event_ok evs → sumf cost evs ≤ u64_max →
  let '(l, r') := end_of_run names (run_events run_ids evs run_start) in
  reg_capacity r' → Forall2 (summary_ok evs) names l.
Proof.
  intros Hok Hmax.
  pose proof (λ Hcap, proj1 (recorded_events [] evs run_start recorded_start Hok Hcap)) as Hr.
  set (r := run_events run_ids evs run_start) in *. unfold end_of_run.
  pose proof (λ Hrec, new_computer_ok evs r Hrec) as Hc.
  pose proof (new_computer_strings (ri_requests run_ids) (ri_iterations run_ids) (ri_checks run_ids) r) as L1.
  destruct (new_computer _ _ _ r) as [c r1].
  pose proof (λ Hrec Hck, scenario_summaries_correct evs c names r1 Hrec Hok Hmax Hck) as Hs.
  pose proof (scenario_summaries_strings c names r1) as L2.
  destruct (scenario_summaries c names r1) as [l r2]. simpl in L1, L2. intros Hcap.
  pose proof (capacity_mono _ _ L2 Hcap) as C1. pose proof (capacity_mono _ _ L1 C1) as C0.
  destruct (Hc (Hr C0) C1) as [Hr1 Hck]. by apply Hs.
Qed.

Lemma build_run_summary_eq names thresholds r :
  build_run_summary (ri_requests run_ids) (ri_iterations run_ids) (ri_checks run_ids) names thresholds r =
  let '(l, r') := end_of_run names r in
  (λ violations, mkRunSummary l (summarize r') violations) <$> evaluate_thresholds r' thresholds.
Proof.
  unfold build_run_summary, end_of_run. destruct (new_computer _ _ _ r) as [c r1].
  destruct (scenario_summaries c names r1) as [l r2]. by destruct (evaluate_thresholds r2 thresholds).
Qed.

Lemma summaries_check_failed evs names l :
  Forall2 (summary_ok evs) names l →
  existsb (λ s, 0 <? su_checks_failed_total s) l = true ↔
  ∃ ctx group name, EvCheck ctx group name false ∈ evs ∧ mc_scenario ctx ∈ names.
Proof.
  intros Hl. rewrite existsb_exists. split.
  - intros (s & Hs%list_elem_of_In & Hpos). apply list_elem_of_lookup_1 in Hs as [i Hi].
    destruct (Forall2_lookup_r _ _ _ _ _ Hl Hi) as (name & Hname & _ & Hf).
    rewrite (figures_checks _ _ _ _ _ _ _ _ _ Hf) in Hpos.
    apply existsb_exists in Hpos as (ev & Hev%list_elem_of_In & He).
    destruct ev as [| |ctx g n passed]; [done..|]. destruct passed; [by rewrite andb_false_r in He|].
    rewrite andb_true_r in He. apply bool_decide_eq_true in He as <-.
    exists ctx, g, n. split; [done|by eapply list_elem_of_lookup_2].
  - intros (ctx & g & n & Hev & Hin). apply list_elem_of_lookup_1 in Hin as [i Hi].
    destruct (Forall2_lookup_l _ _ _ _ _ Hl Hi) as (s & Hs & _ & Hf).
    exists s. split; [apply list_elem_of_In; by eapply list_elem_of_lookup_2|].
    rewrite (figures_checks _ _ _ _ _ _ _ _ _ Hf). apply existsb_exists.
    exists (EvCheck ctx g n false). split; [by apply list_elem_of_In|]. by rewrite bool_decide_true.
Qed.

Lemma live_metrics_correct evs c name prev dt stats r :
  recorded evs r → Forall event_ok evs → sumf cost evs ≤ u64_max → computer_ok c r →
  let '(live, snap, _, r') := compute_live_metrics c name prev dt stats r in
  reg_capacity r' →
  snapshot_ok evs name snap (lm_checks_failed live) ∧ effect r [] r' ∧ recorded evs r' ∧
  lm_requests_total live = sn_requests_total snap ∧
  let delta f := u64_sat_sub (f snap) (f (default snapshot_default prev)) in
  let per_sec n := fdiv (of_Z n) (fmax dt (of_decimal false 1 (-9))) in
  lm_rps_now live = per_sec (delta sn_requests_total) ∧
  lm_bytes_received_per_sec_now live = to_u64 (round (per_sec (delta sn_bytes_received_total))) ∧
  lm_bytes_sent_per_sec_now live = to_u64 (round (per_sec (delta sn_bytes_sent_total))).
Proof.
  intros Hr Hok Hmax Hc. pose proof (resolve_figures evs c name r Hr Hok Hmax Hc) as Hf.
  unfold compute_live_metrics. destruct (resolve_key name r) as [sv r1].
  destruct (compute_checks_failed _ _ _ _) as [n by_name].
  destruct (live_latency _) as [[[mean sd] [[[[mx p50] p75] p90] p99]] pct]. intros Hcap.
  destruct (Hf Hcap) as (E & Hr1 & Hfig). by split_and!.
Qed.

Lemma event_amounts e :
  event_ok e → 0 ≤ requests_of e ∧ 0 ≤ received_of e ∧ 0 ≤ sent_of e ∧ 0 ≤ cost e.
Proof. destruct e; simpl; intros Hok; try lia. destruct Hok. lia. Qed.

Lemma tally_app f sc evs evs' : tally f sc (evs ++ evs') = tally f sc evs + tally f sc evs'.
Proof. apply sumf_app. Qed.

Lemma tally_nonneg f sc evs : (∀ e, e ∈ evs → 0 ≤ f e) → 0 ≤ tally f sc evs.
Proof. intros Hf. apply sumf_nonneg. intros e He. specialize (Hf e He). by case_bool_decide. Qed.

(** ** Properties *)

(** C1. The end-of-run report is exact.  From the registration of the built-in
    metrics, after any sequence of recorded requests, iterations and checks
    with any tags, [build_run_summary] reports for each scenario name, in the
    order given, the number of its requests, failures, bytes and iterations,
    of its failed checks in total and by check name (a name without failures
    is not listed), and hands the thresholds' verdict on unchanged. *)
Theorem report_correct evs names thresholds :
  Forall event_ok evs → sumf cost evs ≤ u64_max →
  let r := run_events run_ids evs run_start in
  let '(l, r') := end_of_run names r in
  reg_capacity r' →
  Forall2 (summary_ok evs) names l ∧
  build_run_summary (ri_requests run_ids) (ri_iterations run_ids) (ri_checks run_ids) names thresholds r
    = (λ violations, mkRunSummary l (summarize r') violations) <$> evaluate_thresholds r' thresholds.
Proof.
  intros Hok Hmax. cbv zeta. rewrite build_run_summary_eq.
  pose proof (end_of_run_correct evs names Hok Hmax) as Hs.
  destruct (end_of_run names _) as [l r']. intros Hcap. split; [by apply Hs|done].
Qed.

(** C2. The exit code tells the truth: when the report of a run could be built,
    the code is 0 exactly when no check failed in a scenario of the run and the
    thresholds have no violation, and 10, 11 and 12 tell apart which of the two
    it was, or both. *)
Theorem exit_code_correct evs names thresholds summary :
  Forall event_ok evs → sumf cost evs ≤ u64_max →
  let r := run_events run_ids evs run_start in
  reg_capacity (end_of_run names r).2 →
  build_run_summary (ri_requests run_ids) (ri_iterations run_ids) (ri_checks run_ids) names thresholds r
    = Ok summary →
  let code := as_i32 (summary_exit summary) in
  let violated := ru_threshold_violations summary ≠ [] in
  let check_failed := ∃ ctx group name, EvCheck ctx group name false ∈ evs ∧ mc_scenario ctx ∈ names in
  (code = 0 ↔ ¬ check_failed ∧ ¬ violated) ∧ (code = 10 ↔ check_failed ∧ ¬ violated) ∧
  (code = 11 ↔ ¬ check_failed ∧ violated) ∧ (code = 12 ↔ check_failed ∧ violated).
Proof.
  intros Hok Hmax r Hcap. rewrite build_run_summary_eq.
  pose proof (end_of_run_correct evs names Hok Hmax) as Hs. fold r in Hs.
  destruct (end_of_run names r) as [l r']. specialize (Hs Hcap).
  destruct (evaluate_thresholds r' thresholds) as [violations|e]; simpl; [|done]. intros [= <-]. simpl.
  pose proof (summaries_check_failed evs names l Hs) as Hc. unfold summary_exit. simpl.
  destruct (existsb _ l); destruct violations; simpl; naive_solver.
Qed.

End props.

(** ** Witnesses *)
Definition demo_ctx : MetricsContext := mkMetricsContext "a" [("region", "eu")]%string.
Definition demo_events : list Event :=
  [EvRequest (mkSample "a" Http true 1500000 10 4 None) [];
   EvCheck demo_ctx None "status is 200" false;
   EvRequest (mkSample "b" Grpc false 20 7 0 (Some "timeout"%string)) [("region", "eu")]%string;
   EvCheck demo_ctx (Some "login"%string) "status is 200" false;
   EvIteration (mkIteration "a" true 2000000) []].

Lemma demo_capacity : reg_capacity (end_of_run ["a"; "b"]%string (run_events run_ids demo_events run_start)).2.
Proof. vm_compute. reflexivity. Qed.

Lemma demo_events_ok : Forall event_ok demo_events.
Proof. each ltac:(vm_compute; repeat split; discriminate). Qed.

Lemma report_correct_witness :
  su_requests_total <$> (end_of_run ["a"; "b"]%string (run_events run_ids demo_events run_start)).1 = [1; 1] ∧
  Forall2 (summary_ok demo_events) ["a"; "b"]%string
    (end_of_run ["a"; "b"]%string (run_events run_ids demo_events run_start)).1.
Proof.
  split; [vm_compute; reflexivity|].
  pose proof (report_correct demo_events ["a"; "b"]%string [] demo_events_ok ltac:(vm_compute; discriminate)) as Hr.
  cbv zeta in Hr. pose proof demo_capacity as Hcap.
  destruct (end_of_run _ _) as [l r']. apply (Hr Hcap).
Defined.

Definition demo_report : result EvalError RunSummary :=
  build_run_summary (ri_requests run_ids) (ri_iterations run_ids) (ri_checks run_ids) ["a"; "b"]%string []
    (run_events run_ids demo_events run_start).
Definition demo_summary : RunSummary :=
  match demo_report with Ok s => s | Err _ => mkRunSummary [] [] [] end.

Lemma demo_report_ok : demo_report = Ok demo_summary.
Proof.
  unfold demo_summary. assert (is_ok demo_report = true) as Hok by (vm_compute; reflexivity).
  by destruct demo_report.
Qed.

Lemma exit_code_correct_witness : as_i32 (summary_exit demo_summary) = 10.
Proof.
  apply (exit_code_correct demo_events ["a"; "b"]%string [] demo_summary demo_events_ok
    ltac:(vm_compute; discriminate) demo_capacity demo_report_ok).
  split.
  - exists demo_ctx, None, "status is 200"%string. split; [right; left|left].
  - assert (ru_threshold_violations demo_summary = []) as Hv by (vm_compute; reflexivity).
    intros Hn. exact (Hn Hv).
Defined.

(** A run whose first tick comes before any event. *)
Definition demo_computer : MetricComputer * Registry :=
  new_computer (ri_requests run_ids) (ri_iterations run_ids) (ri_checks run_ids) run_start.

Lemma demo_computer_ok : recorded [] demo_computer.2 ∧ computer_ok demo_computer.1 demo_computer.2.
Proof.
  pose proof (new_computer_ok [] run_start recorded_start) as Hc.
  assert (reg_capacity demo_computer.2) as Hcap by (vm_compute; reflexivity).
  unfold demo_computer in *. destruct (new_computer _ _ _ run_start) as [c r]. by apply Hc.
Qed.
