(* ===== verification/Loops.v ===== *)
(** * The work loops of the virtual users (wrkr-lua/src/vu.rs, from the start
    signal on; wrkr-core/src/vu.rs, [record_iteration]; the pacer task of
    wrkr-core/src/run.rs)

    One scenario's VUs, interleaved at their accesses to the shared gate or
    pacer.  What the script's function does and how long it takes is the
    environment's choice: an iteration ends with [None] or with the error that
    ends the VU. *)
From S2P Require Import Prelude Coll Std F64 Config Notify Requests Report Plan.
From S2P Require Schedule Gate Pacer.

(** [VuContext::record_iteration]: the event an iteration leaves in the metrics. *)
Definition record_iteration (ctx : MetricsContext) (duration : Z) (success : bool) : Event :=
  EvIteration (mkIteration (mc_scenario ctx) success duration)
    (scenario_tag_refs ctx ["scenario"; "status"; "group"]%string).

Definition is_ok_res (res : option string) : bool := match res with None => true | Some _ => false end.

(** An element that was not the one replaced. *)
Lemma elem_of_insert_other {A} (l : list A) i (x y z : A) :
  x ∈ l → l !! i = Some y → x ≠ y → x ∈ <[i := z]> l.
Proof.
  intros Hx Hi Hne. apply list_elem_of_lookup_1 in Hx as [j Hj]. apply list_elem_of_lookup_2 with j.
  rewrite list_lookup_insert_ne; [done|]. intros ->. congruence.
Qed.

(** ** Constant VUs *)
Module Constant.

Inductive pc :=
  | KStart                              (* entering the loop *)
  | KNext (p : Gate.next_pc)            (* in [gate.next()] *)
  | KIter                               (* in [run_one] *)
  | KRecord (res : option string) (elapsed : Z)  (* about to record the iteration *)
  | KEnd (res : option string).         (* returned *)

(** The loop's condition, once [gate.next()] has returned. *)
Definition after_next (p : Gate.next_pc) : pc :=
  match p with
  | Gate.NRet true => KIter
  | Gate.NRet false => KEnd None
  | p => KNext p
  end.

(** [res?]. *)
Definition after_record (res : option string) (now : Z) : pc :=
  match res with None => KNext (Gate.NStart now) | Some err => KEnd (Some err) end.

(** A gate, its VUs and what they have recorded; and two ghosts: how many calls
    of [next] have counted, and how many returned [true]. *)
Record Config := mkConfig {
  cf_gate : Gate.IterationGate;
  cf_vus : list pc;
  cf_log : list Event;
  cf_counted : Z;
  cf_passed : Z }.

Inductive step (ctx : MetricsContext) : Config → Config → Prop :=
  | step_enter g vus log n k i now :
      vus !! i = Some KStart →
      step ctx (mkConfig g vus log n k) (mkConfig g (<[i := KNext (Gate.NStart now)]> vus) log n k)
  | step_next g vus log n k i p g' p' :
      vus !! i = Some (KNext p) → Gate.next_step g p = Some (g', p') →
      step ctx (mkConfig g vus log n k)
        (mkConfig g' (<[i := after_next p']> vus) log (n + Gate.counts p) (k + Gate.passes p'))
  | step_iter g vus log n k i res elapsed :
      vus !! i = Some KIter →
      step ctx (mkConfig g vus log n k) (mkConfig g (<[i := KRecord res elapsed]> vus) log n k)
  | step_record g vus log n k i res elapsed now :
      vus !! i = Some (KRecord res elapsed) →
      step ctx (mkConfig g vus log n k)
        (mkConfig g (<[i := after_record res now]> vus)
           (log ++ [record_iteration ctx elapsed (is_ok_res res)]) n k).

(** [u] VUs about to enter the loop; the runner may have started the gate. *)
Definition init (g : Gate.IterationGate) (u : nat) : Config :=
  mkConfig g (replicate u KStart) [] 0 0.

(** *** The gate's own configuration *)
Definition gate_pc (p : pc) : Gate.next_pc :=
  match p with
  | KStart => Gate.NRet false
  | KNext p => p
  | KIter | KRecord _ _ => Gate.NRet true
  | KEnd None => Gate.NRet false
  | KEnd (Some _) => Gate.NRet true
  end.

Definition gate_view (cf : Config) : Gate.Config :=
  Gate.mkConfig (cf_gate cf) (gate_pc <$> cf_vus cf) (cf_counted cf) (cf_passed cf).

Lemma gate_pc_after_next p : gate_pc (after_next p) = p.
Proof. by destruct p as [| | | |[]]. Qed.

(** The loops use the gate as [Gate.step] says: a step of theirs is a step of
    the gate, or none. *)
Lemma step_gate ctx cf cf' :
  step ctx cf cf' → rtc Gate.step (gate_view cf) (gate_view cf').
Proof.
  intros Hst. destruct Hst as [g vus log n k i now Hl|g vus log n k i p g' p' Hl Hs
    |g vus log n k i res elapsed Hl|g vus log n k i res elapsed now Hl]; unfold gate_view; simpl;
    rewrite list_fmap_insert.
  - apply rtc_once, (Gate.step_call _ _ _ _ _ false). by rewrite list_lookup_fmap, Hl.
  - apply rtc_once. rewrite gate_pc_after_next. eapply Gate.step_next; [|exact Hs].
    by rewrite list_lookup_fmap, Hl.
  - rewrite list_insert_id; [done|]. by rewrite list_lookup_fmap, Hl.
  - destruct res as [e|]; simpl.
    + rewrite list_insert_id; [done|]. by rewrite list_lookup_fmap, Hl.
    + apply rtc_once, (Gate.step_call _ _ _ _ _ true). by rewrite list_lookup_fmap, Hl.
Qed.

Lemma steps_gate ctx g u cf :
  rtc (step ctx) (init g u) cf → rtc Gate.step (Gate.init g u) (gate_view cf).
Proof.
  intros Hr. replace (Gate.init g u) with (gate_view (init g u)).
  2: { unfold gate_view, Gate.init, init; simpl. by rewrite fmap_replicate. }
  induction Hr as [|c1 c2 c3 Hst _ IH]; [done|]. etrans; [by eapply step_gate|done].
Qed.

(** *** Accounting *)
Definition running (p : pc) : Z := match p with KIter | KRecord _ _ => 1 | _ => 0 end.
Definition stopped (p : pc) : Z := match p with KEnd None => 1 | _ => 0 end.

(** Where a VU of a gate without a deadline never is. *)
Definition timed (p : pc) : bool :=
  match p with KNext (Gate.NSet _) | KNext (Gate.NCheck _) => true | _ => false end.
Definition returned (p : pc) : bool := match p with KNext (Gate.NRet _) => true | _ => false end.

Record account (ctx : MetricsContext) (u : nat) (dur : option Z) (cf : Config) : Prop := {
  ac_len : length (cf_vus cf) = u;
  ac_passed : cf_passed cf = sumf running (cf_vus cf) + Z.of_nat (length (cf_log cf));
  ac_counted : cf_counted cf ≤ cf_passed cf + sumf stopped (cf_vus cf);
  ac_exact : dur = None → cf_counted cf = cf_passed cf + sumf stopped (cf_vus cf) ∧
    Forall (λ p, timed p = false) (cf_vus cf);
  ac_ret : Forall (λ p, returned p = false) (cf_vus cf);
  ac_log : Forall (λ e, ∃ d ok, e = record_iteration ctx d ok ∧
    (ok = false → ∃ err, KEnd (Some err) ∈ cf_vus cf)) (cf_log cf) }.

Lemma log_stable ctx (vus : list pc) (i : nat) p q (log : list Event) :
  vus !! i = Some p → (∀ r, p ≠ KEnd r) →
  Forall (λ e, ∃ d ok, e = record_iteration ctx d ok ∧
    (ok = false → ∃ err, KEnd (Some err) ∈ vus)) log →
  Forall (λ e, ∃ d ok, e = record_iteration ctx d ok ∧
    (ok = false → ∃ err, KEnd (Some err) ∈ <[i := q]> vus)) log.
Proof.
  intros Hl Hp Hlog. eapply Forall_impl; [exact Hlog|]. intros e (d & ok & -> & Hok). exists d, ok. split; [done|].
  intros Hf. destruct (Hok Hf) as [err Hin]. exists err. eapply elem_of_insert_other; [done|exact Hl|].
  intros Heq. by apply (Hp (Some err)).
Qed.

Lemma next_step_account g p g' p' :
  Gate.next_step g p = Some (g', p') → Gate.counts p ≤ Gate.passes p' + stopped (after_next p').
Proof.
  intros Hs. assert (0 ≤ Gate.passes p' + stopped (after_next p')) by (destruct p' as [| | | |[]]; simpl; lia).
  destruct p; simpl in *; try lia. destruct (Gate.count g) as [[] g1]; simplify_eq/=; lia.
Qed.

Lemma account_step ctx u dur cf cf' :
  Gate.gate_duration (cf_gate cf) = dur → account ctx u dur cf → step ctx cf cf' → account ctx u dur cf'.
Proof.
  intros Hdur [A1 A2 A3 A4 A5 A6] Hst.
  destruct Hst as [g vus log n k i now Hl|g vus log n k i p g' p' Hl Hs
    |g vus log n k i res elapsed Hl|g vus log n k i res elapsed now Hl]; simpl in *;
    (constructor; simpl; rewrite ?length_insert, ?(sumf_insert _ _ _ _ _ Hl); simpl; try done; try lia).
  - intros Hn. destruct (A4 Hn) as [? ?]. split; [lia|]. by apply Forall_insert.
  - by apply Forall_insert.
  - by eapply log_stable.
  - destruct p' as [| | | |[]]; simpl; lia.
  - pose proof (next_step_account _ _ _ _ Hs). lia.
  - intros Hn. destruct (A4 Hn) as [E Ht]. rewrite Hn in Hdur.
    pose proof (Forall_lookup_1 _ _ _ _ Ht Hl) as Hp. simpl in Hp.
    destruct p as [t|t|t| |b]; simplify_eq/=.
    + rewrite Hdur. simpl. split; [lia|]. by apply Forall_insert.
    + destruct (Gate.count g) as [b g1]; simplify_eq/=.
      split; [destruct b; simpl; lia|]. apply Forall_insert; [done|]. by destruct b.
  - apply Forall_insert; [done|]. by destruct p' as [| | | |[]].
  - by eapply log_stable.
  - intros Hn. destruct (A4 Hn) as [? ?]. split; [lia|]. by apply Forall_insert.
  - by apply Forall_insert.
  - by eapply log_stable.
  - rewrite length_app. simpl. destruct res; simpl; lia.
  - destruct res; simpl; lia.
  - intros Hn. destruct (A4 Hn) as [? ?]. split; [destruct res; simpl; lia|].
    apply Forall_insert; [done|]. by destruct res.
  - apply Forall_insert; [done|]. by destruct res.
  - apply Forall_app. split; [by eapply log_stable|]. constructor; [|done].
    exists elapsed, (is_ok_res res). split; [done|]. destruct res as [err|]; [|done]. intros _.
    exists err. eapply list_elem_of_lookup_2, list_lookup_insert_eq. by eapply lookup_lt_Some.
Qed.

Lemma account_init ctx g u dur : account ctx u dur (init g u).
Proof.
  assert (∀ f : pc → Z, f KStart = 0 → sumf f (replicate u KStart) = 0) as Hz.
  { intros f Hf. induction u as [|u IH]; [done|]. cbn [replicate]. rewrite sumf_cons. lia. }
  constructor; simpl; rewrite ?Hz by done; try done.
  - apply length_replicate.
  - intros _. split; [done|]. by apply Forall_replicate.
  - by apply Forall_replicate.
Qed.

Lemma sumf_stopped_le vus : sumf stopped vus ≤ Z.of_nat (length vus).
Proof.
  induction vus as [|p vus IH]; [done|]. rewrite sumf_cons. cbn [length].
  assert (stopped p ≤ 1) by (destruct p as [| | | |[]]; simpl; lia). lia.
Qed.

(** The counter does not come near its overflow: every call that is not let
    through ends its VU. *)
Lemma constant_run ctx iters dur u cf l :
  Gate.limit iters dur = Some l → 0 ≤ l → l + Z.of_nat u + 1 ≤ u64_max →
  rtc (step ctx) (init (Gate.new iters dur) u) cf →
  account ctx u dur cf ∧ cf_counted cf ≤ u64_max ∧ cf_passed cf = Z.min l (cf_counted cf).
Proof.
  intros Hlim Hl Hmax Hr. pattern cf. eapply rtc_ind_r; [| |exact Hr].
  - split_and!; [apply account_init|done|]. simpl. lia.
  - clear cf Hr. intros c1 c2 Hr Hst (Ha & Hc & Hp).
    pose proof (steps_gate _ _ _ _ Hr) as Hg. assert (rtc Gate.step (Gate.init (Gate.new iters dur) u) (gate_view c2)) as Hg2
      by (etrans; [exact Hg|by eapply step_gate]).
    assert (∀ c, rtc Gate.step (Gate.init (Gate.new iters dur) u) c →
      Gate.counted_ok iters dur c) as Hok.
    { intros c. apply (Gate.counted_ok_reachable (Gate.new iters dur)); [done|].
      simpl. intros m ->. destruct dur; by simplify_eq/=. }
    destruct (Hok _ Hg) as (_ & Hd & _). destruct (Hok _ Hg2) as (_ & _ & _ & Hlim2).
    rewrite Hlim in Hlim2. simpl in Hd, Hlim2.
    pose proof (account_step _ _ _ _ _ Hd Ha Hst) as Ha2.
    assert (cf_passed c2 ≤ cf_passed c1 + 1) as Hone.
    { destruct Hst as [| ? ? ? ? ? ? ? ? p' | |]; simpl; try lia. destruct p' as [| | | |[]]; simpl; lia. }
    pose proof (ac_counted _ _ _ _ Ha2). pose proof (sumf_stopped_le (cf_vus c2)) as Hs.
    rewrite (ac_len _ _ _ _ Ha2) in Hs. assert (cf_counted c2 ≤ u64_max) as Hc2 by lia.
    split_and!; [done|done|]. by apply Hlim2.
Qed.
(** All VUs have returned, none with an error. *)
Lemma constant_all_ended ctx iters u cf l :
  Gate.limit iters None = Some l → 0 ≤ l → l + Z.of_nat u + 1 ≤ u64_max → (1 ≤ u)%nat →
  rtc (step ctx) (init (Gate.new iters None) u) cf → Forall (λ p, p = KEnd None) (cf_vus cf) →
  Z.of_nat (length (cf_log cf)) = l ∧ Forall (λ e, ∃ d, e = record_iteration ctx d true) (cf_log cf).
Proof.
  intros Hlim Hl Hmax Hu Hr Hend.
  destruct (constant_run _ _ _ _ _ _ Hlim Hl Hmax Hr) as ([A1 A2 A3 A4 A5 A6] & Hc & Hp).
  destruct (A4 eq_refl) as [Hx _].
  assert (∀ vus, Forall (λ p, p = KEnd None) vus →
    sumf running vus = 0 ∧ sumf stopped vus = Z.of_nat (length vus)) as Hsum.
  { intros vus Hv. induction Hv as [|p vus -> _ [IH1 IH2]]; [done|].
    rewrite !sumf_cons. cbn [length running stopped]. lia. }
  destruct (Hsum _ Hend) as [S1 S2]. split; [lia|].
  eapply Forall_impl; [exact A6|]. intros e (d & ok & -> & Hok). exists d. destruct ok; [done|].
  destruct (Hok eq_refl) as [err Hin]. rewrite Forall_forall in Hend. by specialize (Hend _ Hin).
Qed.
End Constant.

(** ** Ramping VUs *)
Module Ramping.

(** What a round of the loop does at [elapsed]. *)
Inductive decision :=
  | Stop
  | Sleep (wait : Z)
  | Run.

(** [None] is a panic of the schedule. *)
Definition decide_round (s : Schedule.RampingU64Schedule) (scenario_vu elapsed : Z) : option decision :=
  if Schedule.is_done s elapsed then Some Stop
  else
    target ← Schedule.target_at s elapsed;
    if target <? scenario_vu then
      wait ← Schedule.next_recheck_in s elapsed scenario_vu;
      Some (Sleep (Z.max wait (Duration.from_millis 1)))
    else Some Run.

(** An iteration: how long it takes, what it returns, and the time until the
    clock is read again. *)
Record iteration := mkIter { i_duration : Z; i_res : option string; i_pause : Z }.

(** The loop from [elapsed] on, the [k]-th round taking what [env k] says: the
    result and the times and samples of the iterations.  [None] when the fuel
    ends or the schedule panics; a sleep takes at least the time asked. *)
Fixpoint run (fuel : nat) (ctx : MetricsContext) (s : Schedule.RampingU64Schedule) (scenario_vu : Z)
    (env : nat → iteration) (elapsed : Z) : option (option string * list (Z * Event)) :=
  match fuel with
  | O => None
  | S fuel =>
      let it := env fuel in
      d ← decide_round s scenario_vu elapsed;
      match d with
      | Stop => Some (None, [])
      | Sleep wait => run fuel ctx s scenario_vu env (elapsed + wait + i_pause it)
      | Run =>
          let event := record_iteration ctx (i_duration it) (is_ok_res (i_res it)) in
          match i_res it with
          | Some err => Some (Some err, [(elapsed, event)])
          | None =>
              '(res, log) ← run fuel ctx s scenario_vu env (elapsed + i_duration it + i_pause it);
              Some (res, (elapsed, event) :: log)
          end
      end
  end.

(** The decision, from the schedule's documented target. *)
Lemma decide_round_spec start stages scenario_vu elapsed :
  Schedule.stages_ok start stages → 0 ≤ elapsed → in_u64 scenario_vu →
  ∃ d, decide_round (Schedule.new start stages) scenario_vu elapsed = Some d ∧
    match d with
    | Stop => Schedule.sum_durations stages ≤ elapsed
    | Run => elapsed < Schedule.sum_durations stages ∧
        scenario_vu ≤ Schedule.ideal_target start stages elapsed
    | Sleep wait => elapsed < Schedule.sum_durations stages ∧
        Duration.from_millis 1 ≤ wait ≤ Duration.from_millis 50 ∧
        Schedule.ideal_target start stages elapsed < scenario_vu ∧
        ∀ e', elapsed ≤ e' < elapsed + wait → Duration.from_millis 1 < wait →
          Schedule.ideal_target start stages e' < scenario_vu
    end.
Proof.
  intros Hok He Hv. unfold decide_round, Schedule.is_done. rewrite (Schedule.total_duration_new _ _ Hok).
  destruct (Z.leb_spec (Schedule.sum_durations stages) elapsed) as [Hd|Hd]; [by exists Stop|].
  rewrite (Schedule.target_at_ideal start stages elapsed Hok He). simpl.
  destruct (Z.ltb_spec (Schedule.ideal_target start stages elapsed) scenario_vu) as [Hlt|Hge].
  - destruct (Schedule.next_recheck_never_oversleeps start stages elapsed scenario_vu Hok He Hv Hlt)
      as (wait & -> & Hw & Hnot). simpl.
    exists (Sleep (Z.max wait (Duration.from_millis 1))). split; [done|].
    unfold Duration.from_millis in *. split_and!; [done|lia|lia|done|].
    intros e' He' H1. destruct (Hnot e') as (t & Ht & Hlt'); [lia|].
    rewrite (Schedule.target_at_ideal start stages e' Hok ltac:(lia)) in Ht. by simplify_eq.
  - by exists Run.
Qed.
End Ramping.

(** ** Arrival-rate VUs and their pacer's task *)

(** [Duration::as_secs_f64]. *)
Definition as_secs_f64 (d : Z) : f64 :=
  fadd (of_Z (d / Duration.NANOS_PER_SEC))
       (fdiv (of_Z (d mod Duration.NANOS_PER_SEC)) (of_Z Duration.NANOS_PER_SEC)).

Definition tick : Z := Duration.from_millis 10.

(** One round's arithmetic: what is due now, and what is carried over. *)
Definition tick_due (rate time_unit : Z) (carry : f64) : Z * f64 :=
  let tick_s := as_secs_f64 tick in
  let unit_s := fmax (as_secs_f64 time_unit) (of_decimal false 1 (-9)) in
  let carry := fadd carry (fmul (of_Z rate) (fdiv tick_s unit_s)) in
  let due := to_u64 (floor carry) in
  (due, fsub carry (of_Z due)).
#[global] Arguments tick_due : simpl never.

Module Arrival.
Section arrival.
Context {N : NotifyOps} (ctx : MetricsContext) (schedule : Schedule.RampingU64Schedule) (time_unit : Z).

Inductive pc :=
  | ALoop                               (* about to read the clock *)
  | AIsDone                             (* the schedule is done: about to read [pacer.is_done()] *)
  | AActive                             (* about to compare with [pacer.active_vus()] *)
  | AUpdate                             (* [wait_for_update]: about to create the future *)
  | AWait (t : token)
  | AClaim (p : Pacer.claim_pc)         (* in [pacer.claim_next()] *)
  | AIter                               (* in [run_one] *)
  | ARecord (res : option string) (elapsed : Z)
  | AEnd (res : option string).

Definition after_claim (p : Pacer.claim_pc) : pc :=
  match p with
  | Pacer.CRet true => AIter
  | Pacer.CRet false => AEnd None
  | p => AClaim p
  end.

(** What the environment gives an action: the time since the start, whether a
    weak exchange fails, what the iteration returns and how long it took. *)
Record input := mkInput { in_elapsed : Z; in_spurious : bool; in_res : option string; in_duration : Z }.

Definition vu_step (scenario_vu : Z) (x : input) (sh : Pacer.Shared) (p : pc) : option (Pacer.Shared * pc) :=
  let pacer := Pacer.sh_pacer sh in
  match p with
  | ALoop => Some (sh, if Schedule.is_done schedule (in_elapsed x) then AIsDone else AActive)
  | AIsDone => Some (sh, if Pacer.done_flag pacer then AClaim Pacer.CLoop else AActive)
  | AActive => Some (sh, if Pacer.active_vus pacer <? scenario_vu then AUpdate else AClaim Pacer.CLoop)
  | AUpdate => Some (sh, AWait (notified (Pacer.sh_notify sh)))
  | AWait t => if woken (Pacer.sh_notify sh) t then Some (sh, ALoop) else None
  | AClaim c => '(sh, c) ← Pacer.claim_step (in_spurious x) sh c; Some (sh, after_claim c)
  | AIter => Some (sh, ARecord (in_res x) (in_duration x))
  | ARecord res _ => Some (sh, match res with None => ALoop | Some err => AEnd (Some err) end)
  | AEnd _ => None
  end.

Definition emitted (p : pc) : list Event :=
  match p with ARecord res d => [record_iteration ctx d (is_ok_res res)] | _ => [] end.

Definition claimed_by (p p' : pc) : Z := match p, p' with AClaim _, AIter => 1 | _, _ => 0 end.

(** The pacer, its task ([upd] and the task's [carry]), the VUs 1, 2, .. and
    what they have recorded; and two ghosts: what has been due so far and the
    claims that were granted. *)
Record Config := mkConfig {
  cf_shared : Pacer.Shared;
  cf_upd : Pacer.upd_pc;
  cf_carry : f64;
  cf_vus : list pc;
  cf_log : list Event;
  cf_due : Z;
  cf_granted : Z }.

Inductive step : Config → Config → Prop :=
  | step_vu sh u carry vus log due k i p x sh' p' :
      vus !! i = Some p → vu_step (Z.of_nat i + 1) x sh p = Some (sh', p') →
      step (mkConfig sh u carry vus log due k)
        (mkConfig sh' u carry (<[i := p']> vus) (log ++ emitted p) due (k + claimed_by p p'))
  | step_upd sh u carry vus log due k sh' u' :
      Pacer.upd_step sh u = Some (sh', u') →
      step (mkConfig sh u carry vus log due k) (mkConfig sh' u' carry vus log due k)
  | step_tick sh carry vus log due k elapsed rate d carry' :
      elapsed < Schedule.total_duration schedule → Schedule.target_at schedule elapsed = Some rate →
      tick_due rate time_unit carry = (d, carry') →
      step (mkConfig sh Pacer.UIdle carry vus log due k)
        (mkConfig sh (Pacer.call_update_due d) carry' vus log (due + d) k)
  | step_finish sh carry vus log due k elapsed :
      Schedule.total_duration schedule ≤ elapsed →
      step (mkConfig sh Pacer.UIdle carry vus log due k)
        (mkConfig sh Pacer.UDoneStore carry vus log due k).

Definition init (pre max : Z) (u : nat) : Config :=
  mkConfig (Pacer.mkShared (Pacer.new pre max) notify_new) Pacer.UIdle f_zero (replicate u ALoop) [] 0 0.

(** *** The pacer's own configuration *)
Definition pacer_pc (p : pc) : Pacer.claim_pc :=
  match p with
  | AClaim c => c
  | AEnd None => Pacer.CRet false
  | _ => Pacer.CRet true
  end.

Definition pacer_view (cf : Config) : Pacer.Config :=
  Pacer.mkConfig (cf_shared cf) (cf_upd cf) (pacer_pc <$> cf_vus cf) (cf_due cf) (cf_granted cf).

Lemma pacer_pc_after_claim c : pacer_pc (after_claim c) = c.
Proof. by destruct c as [| | | | | | | |[]]. Qed.

Lemma claimed_by_after_claim c c' : claimed_by (AClaim c) (after_claim c') = Pacer.granted_by c'.
Proof. by destruct c' as [| | | | | | | |[]]. Qed.

Lemma due_mono cf cf' : step cf cf' → cf_due cf ≤ cf_due cf'.
Proof.
  intros Hst. destruct Hst as [| |? ? ? ? ? ? ? ? d ? ? ? Hd|]; simpl; try lia.
  unfold tick_due in Hd. simplify_eq. pose proof (to_u64_range (floor (fadd carry
    (fmul (of_Z rate) (fdiv (as_secs_f64 tick) (fmax (as_secs_f64 time_unit) (of_decimal false 1 (-9)))))))).
  ints_lia.
Qed.

(** The loops and the task use the pacer as [Pacer.step] says. *)
Lemma step_pacer cf cf' :
  step cf cf' → cf_due cf' ≤ u64_max → rtc Pacer.step (pacer_view cf) (pacer_view cf').
Proof.
  intros Hst Hmax. destruct Hst as [sh u carry vus log due k i p x sh' p' Hl Hs|sh u carry vus log due k sh' u' Hs
    |sh carry vus log due k elapsed rate d carry' He Hr Hd|sh carry vus log due k elapsed He];
    unfold pacer_view; simpl in *.
  - assert (∀ q, pacer_pc q = pacer_pc p → pacer_pc <$> <[i := q]> vus = pacer_pc <$> vus) as Hsame.
    { intros q Hq. rewrite list_fmap_insert, Hq. apply list_insert_id. by rewrite list_lookup_fmap, Hl. }
    assert (pacer_pc p = Pacer.CRet true → rtc Pacer.step (Pacer.mkConfig sh u (pacer_pc <$> vus) due k)
      (Pacer.mkConfig sh u (pacer_pc <$> <[i := AClaim Pacer.CLoop]> vus) due k)) as Hcall.
    { intros Hp. rewrite list_fmap_insert. apply rtc_once, (Pacer.step_call _ _ _ _ _ _ true).
      by rewrite list_lookup_fmap, Hl, <- Hp. }
    destruct p as [| | | |t|c| |res d|res]; simpl in Hs; simplify_eq; simpl; rewrite ?Z.add_0_r.
    + rewrite Hsame; [done|]. by destruct (Schedule.is_done _ _).
    + destruct (Pacer.done_flag _); [by apply Hcall|by rewrite Hsame].
    + destruct (_ <? _); [by rewrite Hsame|by apply Hcall].
    + by rewrite Hsame.
    + destruct (woken _ _); simplify_eq. by rewrite Hsame.
    + destruct (Pacer.claim_step _ _ _) as [[sh1 c1]|] eqn:Hc; simplify_eq/=.
      pose proof (claimed_by_after_claim c c1) as Hk. simpl in Hk.
      rewrite list_fmap_insert, pacer_pc_after_claim, Hk.
      apply rtc_once. eapply Pacer.step_claim; [|exact Hc]. by rewrite list_lookup_fmap, Hl.
    + by rewrite Hsame.
    + rewrite Hsame; [by destruct res|]. by destruct res.
  - by apply rtc_once, Pacer.step_upd.
  - apply rtc_once, Pacer.step_upd_call; [|done]. unfold tick_due in Hd. simplify_eq. apply to_u64_range.
  - apply rtc_once, Pacer.step_mark_done.
Qed.

(** *** Accounting *)
Definition running (p : pc) : Z := match p with AIter | ARecord _ _ => 1 | _ => 0 end.

Record account (pre max : Z) (u : nat) (cf : Config) : Prop := {
  ac_pacer : Pacer.inv pre max (pacer_view cf);
  ac_len : length (cf_vus cf) = u;
  ac_granted : cf_granted cf = sumf running (cf_vus cf) + Z.of_nat (length (cf_log cf));
  ac_log : Forall (λ e, ∃ d ok, e = record_iteration ctx d ok ∧
    (ok = false → ∃ err, AEnd (Some err) ∈ cf_vus cf)) (cf_log cf) }.

Lemma vu_step_running v x sh p sh' p' :
  vu_step v x sh p = Some (sh', p') →
  running p + claimed_by p p' = running p' + Z.of_nat (length (emitted p)) ∧ ∀ r, p ≠ AEnd r.
Proof.
  intros Hs. destruct p as [| | | |t|c| |res d|res]; simpl in *; simplify_eq/=; try (split; [|done]).
  - by destruct (Schedule.is_done _ _).
  - by destruct (Pacer.done_flag _).
  - by destruct (_ <? _).
  - done.
  - by destruct (woken _ _); simplify_eq.
  - destruct (Pacer.claim_step _ _ _) as [[sh1 c1]|]; simplify_eq/=. by destruct c1 as [| | | | | | | |[]].
  - done.
  - by destruct res.
Qed.

Lemma slots_stable (vus : list pc) (i : nat) p q (log : list Event) :
  vus !! i = Some p → (∀ r, p ≠ AEnd r) →
  Forall (λ e, ∃ d ok, e = record_iteration ctx d ok ∧
    (ok = false → ∃ err, AEnd (Some err) ∈ vus)) log →
  Forall (λ e, ∃ d ok, e = record_iteration ctx d ok ∧
    (ok = false → ∃ err, AEnd (Some err) ∈ <[i := q]> vus)) log.
Proof.
  intros Hl Hp Hlog. eapply Forall_impl; [exact Hlog|]. intros e (d & ok & -> & Hok). exists d, ok.
  split; [done|]. intros Hf. destruct (Hok Hf) as [err Hin]. exists err.
  eapply elem_of_insert_other; [done|exact Hl|]. intros Heq. by apply (Hp (Some err)).
Qed.

Lemma slots_step pre max u cf cf' :
  account pre max u cf → step cf cf' → cf_due cf' ≤ u64_max → account pre max u cf'.
Proof.
  intros [A1 A2 A3 A4] Hst Hmax.
  assert (Pacer.inv pre max (pacer_view cf')) as B1.
  { clear -A1 Hst Hmax. pose proof (step_pacer _ _ Hst Hmax) as Hr.
    induction Hr as [|c1 c2 c3 H _ IH]; [done|]. apply IH. by eapply Pacer.inv_step. }
  destruct Hst as [sh ud carry vus log due k i p x sh' p' Hl Hs| | |]; [|by constructor..].
  destruct (vu_step_running _ _ _ _ _ _ Hs) as [Hrun Hne]. constructor; simpl in *; [done| | |].
  - by rewrite length_insert.
  - rewrite (sumf_insert _ _ _ _ _ Hl), length_app. lia.
  - apply Forall_app. split; [by eapply slots_stable|]. destruct p as [| | | |t|c| |res d|res]; try done.
    simpl in *. simplify_eq. constructor; [|done]. exists d, (is_ok_res res). split; [done|].
    destruct res as [err|]; [|done]. intros _. exists err.
    eapply list_elem_of_lookup_2, list_lookup_insert_eq. by eapply lookup_lt_Some.
Qed.

Lemma account_reachable pre max u cf :
  1 ≤ pre ≤ max → rtc step (init pre max u) cf → cf_due cf ≤ u64_max → account pre max u cf.
Proof.
  intros Hpm Hr. pattern cf. eapply rtc_ind_r; [| |exact Hr].
  - intros _. constructor; simpl; [|apply length_replicate| |done].
    + unfold pacer_view; simpl. rewrite fmap_replicate. simpl.
      destruct (Pacer.inv_init pre max 0 Hpm) as (I1 & I2 & _ & I4 & I5 & I6).
      split_and!; try done. by apply Forall_replicate.
    + assert (sumf running (replicate u ALoop) = 0) as ->; [|done].
      clear. induction u as [|u IH]; [done|]. cbn [replicate]. by rewrite sumf_cons, IH.
  - clear cf Hr. intros c1 c2 Hr Hst IH Hmax. pose proof (due_mono _ _ Hst).
    eapply slots_step; [apply IH; lia|exact Hst|done].
Qed.

(** *** Running a schedule *)
Inductive action := AcVu (i : nat) (x : input) | AcUpd | AcTick (elapsed : Z) | AcFinish (elapsed : Z).

Definition act (cf : Config) (a : action) : option Config :=
  let 'mkConfig sh u carry vus log due k := cf in
  match a with
  | AcVu i x =>
      p ← vus !! i; '(sh', p') ← vu_step (Z.of_nat i + 1) x sh p;
      Some (mkConfig sh' u carry (<[i := p']> vus) (log ++ emitted p) due (k + claimed_by p p'))
  | AcUpd => '(sh', u') ← Pacer.upd_step sh u; Some (mkConfig sh' u' carry vus log due k)
  | AcTick elapsed =>
      match u with
      | Pacer.UIdle =>
          if Schedule.total_duration schedule <=? elapsed then None else
          rate ← Schedule.target_at schedule elapsed;
          let '(d, carry') := tick_due rate time_unit carry in
          Some (mkConfig sh (Pacer.call_update_due d) carry' vus log (due + d) k)
      | _ => None
      end
  | AcFinish elapsed =>
      match u with
      | Pacer.UIdle =>
          if Schedule.total_duration schedule <=? elapsed
          then Some (mkConfig sh Pacer.UDoneStore carry vus log due k) else None
      | _ => None
      end
  end.

Fixpoint acts (l : list action) (cf : Config) : option Config :=
  match l with [] => Some cf | a :: l => cf ← act cf a; acts l cf end.

Lemma arrival_step cf a cf' : act cf a = Some cf' → step cf cf'.
Proof.
  destruct cf as [sh u carry vus log due k], a as [i x| |e|e]; cbn [act]; intros H.
  - destruct (vus !! i) as [p|] eqn:Hl; [|done]. cbn [mbind option_bind] in H.
    destruct (vu_step _ _ _ _) as [[sh' p']|] eqn:Hs; [|done]. cbn [mbind option_bind] in H.
    injection H as <-. by eapply step_vu.
  - destruct (Pacer.upd_step _ _) as [[sh' u']|] eqn:Hs; [|done]. cbn [mbind option_bind] in H.
    injection H as <-. by apply step_upd.
  - destruct u; try done. destruct (Z.leb_spec (Schedule.total_duration schedule) e); [done|].
    destruct (Schedule.target_at _ _) as [rate|] eqn:Hr; [|done]. cbn [mbind option_bind] in H.
    destruct (tick_due _ _ _) as [d carry'] eqn:Hd. injection H as <-. by eapply step_tick.
  - destruct u; try done. destruct (Z.leb_spec (Schedule.total_duration schedule) e); [|done].
    injection H as <-. by eapply step_finish.
Qed.

Lemma arrival_reachable l cf cf' : acts l cf = Some cf' → rtc step cf cf'.
Proof.
  revert cf. induction l as [|a l IH]; intros cf H; simplify_eq/=; [done|].
  destruct (act cf a) as [cf1|] eqn:Ha; [|done]. eapply rtc_l; [by eapply arrival_step|]. by apply IH.
Qed.
End arrival.
End Arrival.

(** ** Properties *)



(** C13. An arrival-rate scenario accounts for everything that became due: in
    every interleaving of the pacer's task with the VUs, each claimed slot is
    one iteration, running or recorded; what was due is scheduled, dropped or
    about to be; and when the VUs have all returned without an error, the pacer
    has been closed and exactly the scheduled iterations have been run and
    recorded, the rest of what was due being counted as dropped. *)
Theorem arrival_run_accounted {N : NotifyOps} ctx schedule time_unit pre max u cf :
  1 ≤ pre ≤ max → rtc (Arrival.step ctx schedule time_unit) (Arrival.init pre max u) cf →
  Arrival.cf_due cf ≤ u64_max →
  let p := Pacer.sh_pacer (Arrival.cf_shared cf) in
  let recorded := Z.of_nat (length (Arrival.cf_log cf)) in
  Pacer.claimed_total p = sumf Arrival.running (Arrival.cf_vus cf) + recorded ∧
  0 ≤ Pacer.scheduled_total p - Pacer.claimed_total p ≤ max ∧
  Pacer.scheduled_total p + Pacer.dropped_total p + Pacer.pending (Arrival.cf_upd cf) = Arrival.cf_due cf ∧
  ((1 ≤ u)%nat → Forall (λ q, q = Arrival.AEnd None) (Arrival.cf_vus cf) →
     Pacer.done_flag p = true ∧ recorded = Pacer.scheduled_total p ∧
     recorded + Pacer.dropped_total p = Arrival.cf_due cf ∧
     Forall (λ e, ∃ d, e = record_iteration ctx d true) (Arrival.cf_log cf)).
Proof.
  intros Hpm Hr Hmax p recorded.
  destruct (Arrival.account_reachable _ _ _ _ _ _ _ Hpm Hr Hmax) as [A1 A2 A3 A4].
  destruct A1 as (P & U & Hcl & Hsum & _ & Hg). destruct P as [P1 P2 P3 P4 P5 P6]. destruct U as (_ & _ & Hdone).
  simpl in *. fold p in P3, P4, Hdone, Hsum, Hg. split_and!; [lia|lia|lia|done|].
  intros Hu Hend. assert (sumf Arrival.running (Arrival.cf_vus cf) = 0) as Hz.
  { clear -Hend. induction Hend as [|q l -> _ IH]; [done|]. by rewrite sumf_cons, IH. }
  destruct (Arrival.cf_vus cf) as [|q l] eqn:Hvus; [simpl in A2; lia|].
  pose proof (Forall_inv Hend) as Hq. simpl in Hq. subst q.
  pose proof (Forall_inv Hcl) as Hend0. destruct Hend0 as [Hd Hle].
  fold p in Hd, Hle. assert (Pacer.pending (Arrival.cf_upd cf) = 0) as Hp.
  { apply Hdone in Hd as [-> | ->]; done. }
  split_and!; [done|unfold recorded; lia|unfold recorded; lia|].
  eapply Forall_impl; [exact A4|]. intros e (d & ok & -> & Hok). exists d. destruct ok; [done|].
  destruct (Hok eq_refl) as [err Hin]. rewrite Forall_forall in Hend. by specialize (Hend _ Hin).
Qed.

(** ** Witnesses *)
Definition demo_stages : list Stage := [mkStage 100 1; mkStage 100 3].
Definition demo_env (k : nat) : Ramping.iteration := Ramping.mkIter 40 None 5.
Definition demo_metrics : MetricsContext := mkMetricsContext "s" [].

Lemma demo_stages_ok : Schedule.stages_ok 0 demo_stages.
Proof. unfold Schedule.stages_ok. split_and!; [done..| |closed_ineq]. each ltac:(closed_ineq). Qed.


(** Two VUs and one iteration: the second VU is turned away. *)
Definition demo_two : Constant.Config :=
  Constant.mkConfig (Gate.mkGate 3 (Some 1) None None) [Constant.KEnd None; Constant.KEnd None]
    [record_iteration demo_metrics 9 true] 3 1.

Lemma demo_two_reachable :
  rtc (Constant.step demo_metrics) (Constant.init (Gate.new (Some 1) None) 2) demo_two.
Proof.
  unfold Constant.init; simpl.
  eapply rtc_l; [apply (Constant.step_enter _ _ _ _ _ _ 0%nat 5); reflexivity|]; simpl.
  eapply rtc_l; [apply (Constant.step_enter _ _ _ _ _ _ 1%nat 5); reflexivity|]; simpl.
  do 2 (eapply rtc_l; [eapply (Constant.step_next _ _ _ _ _ _ 1%nat); reflexivity|]; simpl).
  do 2 (eapply rtc_l; [eapply (Constant.step_next _ _ _ _ _ _ 0%nat); reflexivity|]; simpl).
  eapply rtc_l; [apply (Constant.step_iter _ _ _ _ _ _ 1%nat None 9); reflexivity|]; simpl.
  eapply rtc_l; [apply (Constant.step_record _ _ _ _ _ _ 1%nat None 9 7); reflexivity|]; simpl.
  do 2 (eapply rtc_l; [eapply (Constant.step_next _ _ _ _ _ _ 1%nat); reflexivity|]; simpl).
  apply rtc_refl.
Qed.


(** 100 a second at ticks of 10 ms: one due at each, nothing carried. *)
Example tick_due_100 : tick_due 100 (Duration.from_secs 1) f_zero = (1, f_zero).
Proof. vm_compute. reflexivity. Qed.
(** 30 a second: three ticks carry 0.3, 0.6 and 0.9. *)
Example tick_due_30 :
  foldl (λ '(n, carry) _, let '(d, carry) := tick_due 30 (Duration.from_secs 1) carry in (n + d, carry))
    (0, f_zero) [1; 2; 3; 4] = (1, snd (tick_due 30 (Duration.from_secs 1)
      (snd (tick_due 30 (Duration.from_secs 1) (snd (tick_due 30 (Duration.from_secs 1)
        (snd (tick_due 30 (Duration.from_secs 1) f_zero)))))))).
Proof. vm_compute. reflexivity. Qed.

(** One tick, one claim, the end. *)
Definition demo_rate : Schedule.RampingU64Schedule :=
  Schedule.new 100 [mkStage (Duration.from_secs 1) 100].
Definition demo_arrival : list Arrival.action :=
  let vu e := Arrival.AcVu 0 (Arrival.mkInput e false None 9) in
  [Arrival.AcTick 5] ++ replicate 8 Arrival.AcUpd ++ replicate 8 (vu 6) ++
  [Arrival.AcFinish (Duration.from_secs 1); Arrival.AcUpd; Arrival.AcUpd] ++
  replicate 5 (vu (Duration.from_secs 1)).
Definition demo_arrival_end : Arrival.Config :=
  default (Arrival.init 1 1 1)
    (Arrival.acts demo_metrics demo_rate (Duration.from_secs 1) demo_arrival (Arrival.init 1 1 1)).

Lemma arrival_run_accounted_witness :
  Arrival.cf_vus demo_arrival_end = [Arrival.AEnd None] ∧
  Z.of_nat (length (Arrival.cf_log demo_arrival_end)) =
    Pacer.scheduled_total (Pacer.sh_pacer (Arrival.cf_shared demo_arrival_end)) ∧
  Arrival.cf_due demo_arrival_end = 1.
Proof.
  assert (Arrival.cf_vus demo_arrival_end = [Arrival.AEnd None]) as Hv by (vm_compute; reflexivity).
  split; [exact Hv|]. split; [|vm_compute; reflexivity].
  apply (arrival_run_accounted demo_metrics demo_rate (Duration.from_secs 1) 1 1 1 demo_arrival_end);
    [lia| |vm_compute; discriminate|lia|rewrite Hv; each done].
  apply (Arrival.arrival_reachable _ _ _ demo_arrival). vm_compute. reflexivity.
Defined.
