(* ===== verification/RunProps.v ===== *)
(** * From the work loops to the report

    What the VUs of a constant-VUs scenario do, composed with what the report
    counts. *)
From S2P Require Import Prelude Coll Config Metrics Registry Requests ThresholdsEval Summary Report ReportProps.
From S2P Require Import Loops.
From S2P Require Gate.

(** The iterations of a scenario among all the events of a run. *)
Definition is_iteration (sc : string) (e : Event) : Prop :=
  event_scenario e = sc ∧ iterations_of e = 1.

#[export] Instance is_iteration_dec sc e : Decision (is_iteration sc e).
Proof. apply _. Defined.

Lemma tally_iterations sc evs :
  tally iterations_of sc evs = Z.of_nat (length (filter (is_iteration sc) evs)).
Proof.
  unfold tally. induction evs as [|e evs IH]; [done|]. rewrite sumf_cons, IH, filter_cons.
  destruct (decide (is_iteration sc e)) as [[H1 H2]|Hn].
  - rewrite bool_decide_true, H2 by done. cbn [length]. lia.
  - case_bool_decide as Hs; [|lia]. assert (iterations_of e = 0) as ->; [|lia].
    destruct e; [done| |done]. by destruct Hn.
Qed.

Section props.
Context {H : HistOps} {M : MapIter}.

End props.

(** ** Witness *)
Definition demo_all : list Event :=
  [EvRequest (mkSample "s" Http true 1500000 10 4 None) [];
   Loops.record_iteration demo_metrics 9 true;
   EvCheck demo_metrics None "status is 200" true;
   EvIteration (mkIteration "other" true 5) []].
Definition demo_all_report : result EvalError RunSummary :=
  build_run_summary (ri_requests run_ids) (ri_iterations run_ids) (ri_checks run_ids) ["s"; "other"]%string []
    (run_events run_ids demo_all run_start).
Definition demo_all_summary : RunSummary :=
  match demo_all_report with Ok s => s | Err _ => mkRunSummary [] [] [] end.

Lemma demo_all_report_ok : demo_all_report = Ok demo_all_summary.
Proof.
  unfold demo_all_summary. assert (is_ok demo_all_report = true) as Hok by (vm_compute; reflexivity).
  by destruct demo_all_report.
Qed.

