(* ===== verification/Progress.v ===== *)
(** * The progress task (wrkr-core/src/run.rs, progress.rs)

    The task [run_scenarios] spawns beside the VUs: once a second it goes over
    the scenarios and hands the formatter one update for each.  What the VUs
    record may come between any two of the task's steps; the computation of one
    scenario's figures is one step. *)
From S2P Require Import Prelude Coll Std F64 Config Key Tags Metrics Registry Agg Requests Checks.
From S2P Require Import Thresholds ThresholdsEval Summary Report ReportProps Plan Loops.
From S2P Require Schedule Pacer.

(** ** Data (progress.rs) *)
Record StageProgress := mkStageProgress {
  sg_stage : nat;
  sg_stages : nat;
  sg_stage_elapsed : Z;
  sg_stage_remaining : Z;
  sg_start_target : Z;
  sg_end_target : Z;
  sg_current_target : Z }.

Inductive ScenarioProgress :=
  | PConstantVus (vus : Z) (duration : option Z)
  | PRampingVus (total_duration : Z) (stage : option StageProgress)
  | PRampingArrivalRate (time_unit total_duration : Z) (stage : option StageProgress)
      (active_vus max_vus dropped_iterations_total : Z).

Record ProgressUpdate := mkUpdate {
  u_tick : Z;
  u_interval : Z;
  u_elapsed : Z;
  u_scenario : string;
  u_exec : string;
  u_metrics : LiveMetrics;
  u_progress : ScenarioProgress }.

(** [ScenarioLiveState]. *)
Record LiveState := mkLiveState {
  st_prev : ScenarioSnapshot;
  st_has_prev : bool;
  st_rps_stats : RunningStats }.
Definition live_default : LiveState := mkLiveState snapshot_default false stats_default.

(** ** One scenario of a tick *)
Definition stage_progress (s : Schedule.StageSnapshot) : StageProgress :=
  mkStageProgress (Schedule.ss_index s + 1) (Schedule.ss_count s) (Schedule.ss_stage_elapsed s)
    (Schedule.ss_stage_remaining s) (Schedule.ss_start_target s) (Schedule.ss_end_target s)
    (Schedule.ss_current_target s).

(** [None] is a panic of the schedule, or of an index out of [pacers]. *)
Definition progress_val (pacers : list Pacer.ArrivalPacer) (elapsed : Z) (info : ScenarioProgressInfo) :
    option ScenarioProgress :=
  match info with
  | PiConstantVus vus duration => Some (PConstantVus vus duration)
  | PiRampingVus schedule =>
      stage ← Schedule.stage_snapshot_at schedule elapsed;
      Some (PRampingVus (Schedule.total_duration schedule) (stage_progress <$> stage))
  | PiRampingArrivalRate schedule time_unit pacer max_vus =>
      stage ← Schedule.stage_snapshot_at schedule elapsed;
      p ← pacers !! pacer;
      Some (PRampingArrivalRate time_unit (Schedule.total_duration schedule) (stage_progress <$> stage)
              (Pacer.active_vus p) max_vus (Pacer.dropped_total p))
  end.

(** The average is over the whole run; the deviation is relative to it. *)
Definition set_avg (requests_total : Z) (elapsed : Z) (m : LiveMetrics) : LiveMetrics :=
  let elapsed_secs := fmax (as_secs_f64 elapsed) (of_decimal false 1 (-9)) in
  let avg := fdiv (of_Z requests_total) elapsed_secs in
  let pct := if fgt avg f_zero then fmul (fdiv (lm_req_per_sec_stdev m) avg) (of_Z 100) else f_zero in
  mkLive (lm_rps_now m) (lm_bytes_received_per_sec_now m) (lm_bytes_sent_per_sec_now m)
    (lm_requests_total m) (lm_bytes_received_total m) (lm_bytes_sent_total m)
    (lm_failed_requests_total m) (lm_checks_failed_total m) (lm_checks_failed m)
    avg (lm_req_per_sec_stdev m) (lm_req_per_sec_max m) pct
    (lm_latency_mean m) (lm_latency_stdev m) (lm_latency_max m) (lm_latency_p50 m) (lm_latency_p75 m)
    (lm_latency_p90 m) (lm_latency_p99 m) (lm_latency_stdev_pct m) (lm_iterations_total m).

Section progress.
Context {H : HistOps} {M : MapIter}.

Definition update_scenario (c : MetricComputer) (pacers : list Pacer.ArrivalPacer) (tick dt elapsed : Z)
    (s : ProgressScenario) (states : gmap string LiveState) (r : Registry) :
    option (ProgressUpdate * gmap string LiveState * Registry) :=
  let st := default live_default (states !! ps_name s) in
  let prev := if st_has_prev st then Some (st_prev st) else None in
  let '(live, snapshot, rps_stats, r) :=
    compute_live_metrics c (ps_name s) prev (as_secs_f64 dt) (st_rps_stats st) r in
  let live := set_avg (sn_requests_total snapshot) elapsed live in
  let states := <[ps_name s := mkLiveState snapshot true rps_stats]> states in
  val ← progress_val pacers elapsed (ps_progress s);
  Some (mkUpdate tick dt elapsed (ps_name s) (ps_exec s) live val, states, r).

(** ** The task among the VUs

    [cf_at] is the tick under way and its next scenario.  Ghosts: what has been
    recorded, and how much of it each update covers: it reports on what was
    recorded between the two positions. *)
Record Config := mkConfig {
  cf_reg : Registry;
  cf_tick_id : Z;
  cf_last_at : Z;
  cf_at : option (Z * Z * nat);
  cf_states : gmap string LiveState;
  cf_log : list Event;
  cf_seen : gmap string nat;
  cf_out : list (ProgressUpdate * nat * nat) }.

Inductive step (c : MetricComputer) (scenarios : list ProgressScenario) : Config → Config → Prop :=
  | step_event r k l at_ states log seen out e :
      step c scenarios (mkConfig r k l at_ states log seen out)
        (mkConfig (apply_event run_ids r e) k l at_ states (log ++ [e]) seen out)
  | step_tick r k l states log seen out now elapsed :
      step c scenarios (mkConfig r k l None states log seen out)
        (mkConfig r (u64_sat_add k 1) now (Some (Duration.saturating_sub now l, elapsed, 0%nat))
           states log seen out)
  | step_scenario r k l dt elapsed i states log seen out pacers s u states' r' :
      scenarios !! i = Some s →
      update_scenario c pacers k dt elapsed s states r = Some (u, states', r') →
      step c scenarios (mkConfig r k l (Some (dt, elapsed, i)) states log seen out)
        (mkConfig r' k l (Some (dt, elapsed, S i)) states' log (<[ps_name s := length log]> seen)
           (out ++ [(u, default 0%nat (seen !! ps_name s), length log)]))
  | step_end r k l dt elapsed states log seen out :
      step c scenarios (mkConfig r k l (Some (dt, elapsed, length scenarios)) states log seen out)
        (mkConfig r k l None states log seen out).

Definition init (r : Registry) (log : list Event) (now : Z) : Config :=
  mkConfig r 0 now None ∅ log ∅ [].

(** ** What an update says *)

(** The events between the positions [prev] and [cur] of the log. *)
Definition between (prev cur : nat) (log : list Event) : list Event := drop prev (take cur log).

Definition update_exact (log : list Event) (o : ProgressUpdate * nat * nat) : Prop :=
  let '(u, prev, cur) := o in
  let m := u_metrics u in
  let per_sec f := fdiv (of_Z (tally f (u_scenario u) (between prev cur log)))
                        (fmax (as_secs_f64 (u_interval u)) (of_decimal false 1 (-9))) in
  (prev ≤ cur ≤ length log)%nat ∧
  (lm_rps_now m = per_sec requests_of ∧
   lm_bytes_received_per_sec_now m = to_u64 (round (per_sec received_of)) ∧
   lm_bytes_sent_per_sec_now m = to_u64 (round (per_sec sent_of))) ∧
  lm_requests_total m = tally requests_of (u_scenario u) (take cur log).

#[local] Arguments update_exact : simpl never.
#[local] Arguments of_decimal : simpl never.

(** The last position an update of a scenario covers. *)
Fixpoint covered (name : string) (out : list (ProgressUpdate * nat * nat)) : nat :=
  match out with
  | [] => 0
  | (u, _, cur) :: out => let rest := covered name out in
      if decide (u_scenario u = name) then Nat.max cur rest else rest
  end.

(** ** Lemmas *)
Lemma live_metrics_strings c name prev dt stats r :
  (strings r ≤ strings (compute_live_metrics c name prev dt stats r).2)%nat.
Proof.
  unfold compute_live_metrics. pose proof (resolve_key_strings name r) as Hl.
  destruct (resolve_key name r) as [sv r']. destruct (compute_checks_failed _ _ _ _) as [n by_name].
  by destruct (live_latency _) as [[[mean sd] [[[[mx p50] p75] p90] p99]] pct].
Qed.

(** What processing a scenario computes, from its previous snapshot. *)
Record updated (c : MetricComputer) (log : list Event) (dt : Z) (name : string) (prev : ScenarioSnapshot)
    (r : Registry) (u : ProgressUpdate) (snap : ScenarioSnapshot) (r' : Registry) : Prop := {
  up_snapshot : ∃ by_name, snapshot_ok log name snap by_name;
  up_effect : effect r [] r';
  up_recorded : recorded log r';
  up_identity : u_scenario u = name ∧ u_interval u = dt;
  up_total : lm_requests_total (u_metrics u) = sn_requests_total snap;
  up_rates :
    let delta f := u64_sat_sub (f snap) (f prev) in
    let per_sec n := fdiv (of_Z n) (fmax (as_secs_f64 dt) (of_decimal false 1 (-9))) in
    lm_rps_now (u_metrics u) = per_sec (delta sn_requests_total) ∧
    lm_bytes_received_per_sec_now (u_metrics u) = to_u64 (round (per_sec (delta sn_bytes_received_total))) ∧
    lm_bytes_sent_per_sec_now (u_metrics u) = to_u64 (round (per_sec (delta sn_bytes_sent_total))) }.

Lemma update_scenario_spec c log pacers tick dt elapsed s states r u states' r' :
  recorded log r → Forall event_ok log → sumf cost log ≤ u64_max → computer_ok c r →
  update_scenario c pacers tick dt elapsed s states r = Some (u, states', r') → reg_capacity r' →
  ∃ snap stats, states' = <[ps_name s := mkLiveState snap true stats]> states ∧
    let st := default live_default (states !! ps_name s) in
    updated c log dt (ps_name s) (default snapshot_default (if st_has_prev st then Some (st_prev st) else None))
      r u snap r'.
Proof.
  intros Hr Hok Hmax Hc. unfold update_scenario. set (st := default live_default _).
  set (prev := if st_has_prev st then Some (st_prev st) else None).
  pose proof (live_metrics_correct log c (ps_name s) prev (as_secs_f64 dt) (st_rps_stats st) r Hr Hok Hmax Hc) as Hl.
  destruct (compute_live_metrics _ _ _ _ _ _) as [[[live snap] stats] r1]. cbv zeta in Hl.
  destruct (progress_val pacers elapsed (ps_progress s)) as [val|]; [|done]. simpl.
  intros [= <- <- <-] Hcap. destruct (Hl Hcap) as (Hs & E & Hr1 & Ht & Hrates).
  exists snap, stats. split; [done|]. split; [by eexists|done|done|done|exact Ht|exact Hrates].
Qed.

Lemma update_scenario_strings c pacers tick dt elapsed s states r u states' r' :
  update_scenario c pacers tick dt elapsed s states r = Some (u, states', r') →
  (strings r ≤ strings r')%nat.
Proof.
  unfold update_scenario.
  match goal with |- context [compute_live_metrics ?a ?b ?p ?d ?e ?f] =>
    pose proof (live_metrics_strings a b p d e f); destruct (compute_live_metrics a b p d e f) as [[[? ?] ?] r1] end.
  destruct (progress_val _ _ _); [|done]. intros [= _ _ <-]. done.
Qed.

Lemma step_grows c scenarios cf cf' :
  step c scenarios cf cf' →
  (strings (cf_reg cf) ≤ strings (cf_reg cf'))%nat ∧ ∃ evs, cf_log cf' = cf_log cf ++ evs.
Proof.
  destruct 1; simpl; (split; [|first [by eexists|exists []; by rewrite app_nil_r]]); try done.
  - apply apply_event_strings.
  - by eapply update_scenario_strings.
Qed.

Lemma tally_between f name prev cur log :
  (prev ≤ cur)%nat → Forall event_ok log → (∀ e, event_ok e → 0 ≤ f e) →
  u64_sat_sub (tally f name (take cur log)) (tally f name (take prev log)) = tally f name (between prev cur log).
Proof.
  intros Hle Hok Hf. unfold between.
  assert (tally f name (take cur log) = tally f name (take prev log) + tally f name (drop prev (take cur log))) as ->.
  { rewrite <- tally_app. f_equal. rewrite <- (take_drop prev (take cur log)) at 1.
    by rewrite take_take, Nat.min_l. }
  assert (0 ≤ tally f name (drop prev (take cur log))).
  { apply tally_nonneg. intros e He. apply Hf. rewrite Forall_forall in Hok. apply Hok.
    by apply (subseteq_take cur), (subseteq_drop prev). }
  ints_lia.
Qed.

(** ** Invariant *)
Record inv (c : MetricComputer) (cf : Config) : Prop := {
  in_recorded : recorded (cf_log cf) (cf_reg cf);
  in_computer : computer_ok c (cf_reg cf);
  (** the state of a scenario is its snapshot where the last update stopped *)
  in_state name st : cf_states cf !! name = Some st → st_has_prev st = true ∧
    ∃ by_name, snapshot_ok (take (default 0%nat (cf_seen cf !! name)) (cf_log cf)) name (st_prev st) by_name;
  in_fresh name : cf_states cf !! name = None → cf_seen cf !! name = None;
  in_seen name p : cf_seen cf !! name = Some p → (p ≤ length (cf_log cf))%nat;
  in_covered name : default 0%nat (cf_seen cf !! name) = covered name (cf_out cf);
  in_out i u prev cur : cf_out cf !! i = Some (u, prev, cur) →
    update_exact (cf_log cf) (u, prev, cur) ∧ prev = covered (u_scenario u) (take i (cf_out cf)) }.

Lemma take_le_app {A} n (l k : list A) : (n ≤ length l)%nat → take n (l ++ k) = take n l.
Proof. intros Hn. by rewrite take_app_le. Qed.

Lemma update_exact_app log e o : update_exact log o → update_exact (log ++ e) o.
Proof.
  destruct o as [[u prev] cur]. intros ((H1 & H2) & Hr & Ht). unfold update_exact, between.
  rewrite take_le_app by done. rewrite length_app. split; [lia|by split].
Qed.

Lemma covered_snoc name out u prev cur :
  (covered name out ≤ cur)%nat →
  covered name (out ++ [(u, prev, cur)]) = if decide (u_scenario u = name) then cur else covered name out.
Proof.
  induction out as [|[[u' prev'] cur'] out IH]; simpl; intros Hle.
  - case_decide; lia.
  - destruct (decide (u_scenario u' = name)).
    + rewrite IH by lia. case_decide; lia.
    + by apply IH.
Qed.

Lemma inv_event c cf e :
  inv c cf → event_ok e → reg_capacity (apply_event run_ids (cf_reg cf) e) →
  inv c (mkConfig (apply_event run_ids (cf_reg cf) e) (cf_tick_id cf) (cf_last_at cf) (cf_at cf)
    (cf_states cf) (cf_log cf ++ [e]) (cf_seen cf) (cf_out cf)).
Proof.
  intros [Hr Hc Hst Hfr Hse Hco Hout] He Hcap.
  destruct (recorded_event _ _ _ Hr He Hcap) as (Hr1 & ops & E & _).
  split; simpl; [done| | |done| |done|].
  - eapply computer_ok_effect; [apply (recorded_wf _ _ Hr)|exact E|done].
  - intros name st Hn. destruct (Hst name st Hn) as (Hp & by_name & Hs). split; [done|].
    exists by_name. rewrite take_le_app; [done|].
    destruct (cf_seen cf !! name) as [p|] eqn:Ep; simpl; [by eapply Hse|lia].
  - intros name p Hp. rewrite length_app. specialize (Hse name p Hp). lia.
  - intros i u prev cur Hi. destruct (Hout i u prev cur Hi) as [Hx Hp]. split; [by apply update_exact_app|done].
Qed.

Lemma rates_between c log dt name prev_snap by_name prev r u snap r' :
  updated c log dt name prev_snap r u snap r' → Forall event_ok log →
  snapshot_ok (take prev log) name prev_snap by_name → (prev ≤ length log)%nat →
  update_exact log (u, prev, length log).
Proof.
  intros [(by' & Hs) _ _ [Hn Hi] Ht Hrates] Hok Hp Hle. unfold update_exact.
  destruct Hp as [A1 A2 A3 A4 A5 A6 A7]. destruct Hs as [B1 B2 B3 B4 B5 B6 B7].
  pose proof event_amounts as Hw. rewrite Hn, Hi, Ht. rewrite !(take_ge log (length log)) by done.
  cbv zeta in Hrates. destruct Hrates as (R1 & R2 & R3).
  assert (∀ f a b, (∀ e, event_ok e → 0 ≤ f e) → a = tally f name log → b = tally f name (take prev log) →
    u64_sat_sub a b = tally f name (between prev (length log) log)) as Hd.
  { intros f a b Hf -> ->. rewrite <- (tally_between f name prev (length log) log) by done.
    by rewrite (take_ge log (length log)). }
  rewrite (Hd requests_of _ _ (λ e He, proj1 (Hw e He)) B1 A1) in R1.
  rewrite (Hd received_of _ _ (λ e He, proj1 (proj2 (Hw e He))) B3 A3) in R2.
  rewrite (Hd sent_of _ _ (λ e He, proj1 (proj2 (proj2 (Hw e He)))) B4 A4) in R3.
  done.
Qed.

Lemma zero_snapshot name : ∃ by_name, snapshot_ok (take 0 []) name snapshot_default by_name.
Proof. exists ∅. by split. Qed.

(** The previous snapshot is the one the covered prefix gives. *)
Lemma prev_snapshot c cf name :
  inv c cf → ∃ by_name, snapshot_ok (take (default 0%nat (cf_seen cf !! name)) (cf_log cf)) name
    (default snapshot_default
       (let st := default live_default (cf_states cf !! name) in
        if st_has_prev st then Some (st_prev st) else None)) by_name.
Proof.
  intros I. destruct (cf_states cf !! name) as [st|] eqn:E; simpl.
  - destruct (in_state _ _ I name st E) as [-> (by_name & Hs)]. by exists by_name.
  - rewrite (in_fresh _ _ I name E). simpl. destruct (zero_snapshot name) as (b & Hb). by exists b.
Qed.

Lemma inv_scenario c cf pacers s dt elapsed at_ u states' r' :
  inv c cf → Forall event_ok (cf_log cf) → sumf cost (cf_log cf) ≤ u64_max → reg_capacity r' →
  update_scenario c pacers (cf_tick_id cf) dt elapsed s (cf_states cf) (cf_reg cf) = Some (u, states', r') →
  inv c (mkConfig r' (cf_tick_id cf) (cf_last_at cf) at_ states' (cf_log cf)
    (<[ps_name s := length (cf_log cf)]> (cf_seen cf))
    (cf_out cf ++ [(u, default 0%nat (cf_seen cf !! ps_name s), length (cf_log cf))])).
Proof.
  intros I Hok Hmax Hcap Hu. pose proof (prev_snapshot c cf (ps_name s) I) as (by_name & Hprev).
  destruct (update_scenario_spec c _ pacers _ dt elapsed s _ _ u states' r' (in_recorded _ _ I) Hok Hmax
    (in_computer _ _ I) Hu Hcap) as (snap & stats & -> & Hup). cbv zeta in Hup.
  assert (default 0%nat (cf_seen cf !! ps_name s) ≤ length (cf_log cf))%nat as Hle.
  { destruct (cf_seen cf !! ps_name s) eqn:E; simpl; [by eapply in_seen|lia]. }
  assert (∀ name, (covered name (cf_out cf) ≤ length (cf_log cf))%nat) as Hcov.
  { intros name. rewrite <- (in_covered _ _ I name).
    destruct (cf_seen cf !! name) eqn:E; simpl; [by eapply in_seen|lia]. }
  pose proof (proj1 (up_identity _ _ _ _ _ _ _ _ _ Hup)) as Hname.
  split; simpl.
  - by eapply up_recorded.
  - eapply computer_ok_effect; [apply (recorded_wf _ _ (in_recorded _ _ I))|by eapply up_effect|apply I].
  - intros name st. destruct (decide (name = ps_name s)) as [->|Hne].
    + rewrite !lookup_insert_eq. intros [= <-]. simpl. split; [done|]. rewrite take_ge by done.
      by eapply up_snapshot.
    + rewrite !lookup_insert_ne by done. apply (in_state _ _ I).
  - intros name. destruct (decide (name = ps_name s)) as [->|Hne]; [by rewrite lookup_insert_eq|].
    rewrite !lookup_insert_ne by done. apply (in_fresh _ _ I).
  - intros name p. destruct (decide (name = ps_name s)) as [->|Hne].
    + rewrite lookup_insert_eq. by intros [= <-].
    + rewrite lookup_insert_ne by done. apply (in_seen _ _ I).
  - intros name. rewrite covered_snoc by apply Hcov. rewrite Hname.
    destruct (decide (ps_name s = name)) as [->|Hne]; [by rewrite lookup_insert_eq|].
    rewrite lookup_insert_ne by done. apply (in_covered _ _ I).
  - intros i u' prev cur Hi. apply lookup_app_Some in Hi as [Hi|[Hge Hi]].
    + destruct (in_out _ _ I i u' prev cur Hi) as [Hx ->]. split; [done|].
      by rewrite take_app_le by (apply lookup_lt_Some in Hi; lia).
    + apply list_lookup_singleton_Some in Hi as [Hi [= <- <- <-]].
      assert (i = length (cf_out cf)) as -> by lia. rewrite take_app_length. split.
      * by eapply rates_between.
      * rewrite Hname. apply (in_covered _ _ I).
Qed.

Lemma steps_inv c scenarios cf0 cf :
  inv c cf0 → rtc (step c scenarios) cf0 cf →
  Forall event_ok (cf_log cf) → sumf cost (cf_log cf) ≤ u64_max → reg_capacity (cf_reg cf) → inv c cf.
Proof.
  intros I0 Hr. pattern cf. eapply rtc_ind_r; [done| |exact Hr].
  clear cf Hr. intros cf cf' _ Hstep IH Hok Hmax Hcap.
  destruct (step_grows _ _ _ _ Hstep) as (Hs & evs & Hlog). rewrite Hlog in Hok, Hmax.
  apply Forall_app in Hok as [Hok Hoke]. rewrite sumf_app in Hmax.
  assert (0 ≤ sumf cost evs).
  { apply sumf_nonneg. intros e He. apply event_amounts. by apply (proj1 (Forall_forall _ _) Hoke). }
  pose proof (capacity_mono _ _ Hs Hcap) as Hcap0. specialize (IH Hok ltac:(lia) Hcap0).
  destruct Hstep as [r k l at_ states log seen out e| | |]; simpl in *.
  - apply (inv_event _ _ _ IH); [|done]. apply app_inv_head in Hlog as <-. by inversion Hoke.
  - by destruct IH.
  - eapply (inv_scenario _ _ _ _ _ _ _ _ _ _ IH); [done|simpl; lia|done|done].
  - by destruct IH.
Qed.

Lemma init_inv evs r0 now :
  Forall event_ok evs →
  let '(c, r) := new_computer (ri_requests run_ids) (ri_iterations run_ids) (ri_checks run_ids)
    (run_events run_ids evs run_start) in
  r0 = r → reg_capacity r → inv c (init r0 evs now).
Proof.
  intros Hok. pose proof (λ Hcap, proj1 (recorded_events [] evs run_start recorded_start Hok Hcap)) as Hr.
  set (r1 := run_events run_ids evs run_start) in *.
  pose proof (λ Hrec, new_computer_ok evs r1 Hrec) as Hc.
  assert (strings r1 ≤ strings (new_computer (ri_requests run_ids) (ri_iterations run_ids)
    (ri_checks run_ids) r1).2)%nat as L1 by apply new_computer_strings.
  destruct (new_computer _ _ _ r1) as [c r]. intros -> Hcap.
  destruct (Hc (Hr (capacity_mono _ _ L1 Hcap)) Hcap) as [Hr0 Hck].
  split; simpl; [done|done|by intros ? ?|done|by intros ? ?|done|by intros ? ? ? ?].
Qed.

(** ** Property *)


(** ** Witness

    The steps as a function. *)
Inductive action := AcEvent (e : Event) | AcTick (now elapsed : Z) | AcScenario | AcEnd.

Definition act (c : MetricComputer) (scenarios : list ProgressScenario) (cf : Config) (a : action) :
    option Config :=
  let '(mkConfig r k l at_ states log seen out) := cf in
  match a, at_ with
  | AcEvent e, _ => Some (mkConfig (apply_event run_ids r e) k l at_ states (log ++ [e]) seen out)
  | AcTick now elapsed, None =>
      Some (mkConfig r (u64_sat_add k 1) now (Some (Duration.saturating_sub now l, elapsed, 0%nat))
              states log seen out)
  | AcScenario, Some (dt, elapsed, i) =>
      s ← scenarios !! i;
      '(u, states', r') ← update_scenario c [] k dt elapsed s states r;
      Some (mkConfig r' k l (Some (dt, elapsed, S i)) states' log (<[ps_name s := length log]> seen)
              (out ++ [(u, default 0%nat (seen !! ps_name s), length log)]))
  | AcEnd, Some (dt, elapsed, i) =>
      if decide (i = length scenarios) then Some (mkConfig r k l None states log seen out) else None
  | _, _ => None
  end.

Lemma act_step c scenarios cf a cf' : act c scenarios cf a = Some cf' → step c scenarios cf cf'.
Proof.
  destruct cf as [r k l at_ states log seen out]. simpl.
  destruct a, at_ as [[[dt elapsed'] i]|]; try done; try (intros [= <-]; constructor).
  - destruct (scenarios !! i) as [s|] eqn:Hs; [|done]. simpl.
    destruct (update_scenario _ _ _ _ _ _ _ _) as [[[u st'] r']|] eqn:Hu; [|done]. simpl.
    intros [= <-]. by eapply step_scenario.
  - case_decide; [|done]. subst. intros [= <-]. constructor.
Qed.

Fixpoint acts (c : MetricComputer) (scenarios : list ProgressScenario) (l : list action) (cf : Config) :
    option Config :=
  match l with [] => Some cf | a :: l => cf ← act c scenarios cf a; acts c scenarios l cf end.

Lemma acts_rtc c scenarios l cf cf' : acts c scenarios l cf = Some cf' → rtc (step c scenarios) cf cf'.
Proof.
  revert cf. induction l as [|a l IH]; simpl; intros cf; [by intros [= ->]|].
  destruct (act _ _ cf a) as [cf1|] eqn:Ha; [|done]. intros Hl. eapply rtc_l; [by eapply act_step|by apply IH].
Qed.
End progress.

Definition demo_scenario : ProgressScenario :=
  mkProgressScenario "a" "Default" (PiConstantVus 2 (Some (Duration.from_secs 9))).
Definition demo_ticks : list action :=
  (AcEvent <$> demo_events) ++
  [AcTick (Duration.from_secs 1) (Duration.from_secs 1); AcScenario; AcEnd;
   AcEvent (EvRequest (mkSample "a" Http true 9 9 9 None) []);
   AcTick (Duration.from_secs 2) (Duration.from_secs 2); AcScenario].
Definition demo_progress : Config :=
  default (init run_start [] 0)
    (acts demo_computer.1 [demo_scenario] demo_ticks (init demo_computer.2 [] 0)).

Lemma demo_progress_steps :
  rtc (step demo_computer.1 [demo_scenario]) (init demo_computer.2 [] 0) demo_progress.
Proof.
  apply (acts_rtc _ _ demo_ticks). unfold demo_progress.
  assert (bool_decide (is_Some (acts demo_computer.1 [demo_scenario] demo_ticks (init demo_computer.2 [] 0))) = true)
    as [cf ->]%bool_decide_eq_true by (vm_compute; reflexivity). done.
Qed.

