(* ===== verification/Value.v ===== *)
(** * Dynamic values (wrkr-value/src/lib.rs)

    [Value]: what scripts and the gRPC codec exchange.  A hash map is the list
    of its entries, with distinct keys, in iteration order; a float is its
    64-bit pattern; bytes are integers from 0 to 255. *)
From S2P Require Import Prelude.

Inductive MapKey :=
  | KeyBool (b : bool)
  | KeyI64 (i : Z)
  | KeyU64 (u : Z)
  | KeyString (s : string).

#[export] Instance MapKey_eq_dec : EqDecision MapKey.
Proof. solve_decision. Defined.

Inductive Value :=
  | VNull
  | VBool (b : bool)
  | VI64 (i : Z)
  | VU64 (u : Z)
  | VF64 (bits : Z)
  | VString (s : string)
  | VBytes (b : list Z)
  | VArray (items : list Value)
  | VObject (m : list (string * Value))
  | VMap (m : list (MapKey * Value)).

Definition as_i64_value (v : Value) : option Z :=
  match v with VI64 i => Some i | _ => None end.

(** ** Hash maps as entry lists *)

(** [HashMap::insert]: replaces in place, or adds an entry. *)
Fixpoint map_insert {K A} `{EqDecision K} (k : K) (a : A) (m : list (K * A)) : list (K * A) :=
  match m with
  | [] => [(k, a)]
  | (k', a') :: m => if decide (k' = k) then (k, a) :: m else (k', a') :: map_insert k a m
  end.

Fixpoint map_get {K A} `{EqDecision K} (k : K) (m : list (K * A)) : option A :=
  match m with
  | [] => None
  | (k', a) :: m => if decide (k' = k) then Some a else map_get k m
  end.

Lemma map_get_insert {K A} `{EqDecision K} (k k' : K) (a : A) m :
  map_get k' (map_insert k a m) = if decide (k = k') then Some a else map_get k' m.
Proof.
  induction m as [|[k0 a0] m IH]; simpl.
  - by destruct (decide (k = k')).
  - destruct (decide (k0 = k)) as [->|Hne]; simpl.
    + by destruct (decide (k = k')).
    + rewrite IH. destruct (decide (k0 = k')) as [->|]; [|done]. by rewrite decide_False.
Qed.

Lemma map_get_None {K A} `{EqDecision K} (k : K) (m : list (K * A)) : map_get k m = None ↔ k ∉ m.*1.
Proof.
  induction m as [|[k0 a0] m IH]; simpl; [set_solver|].
  destruct (decide (k0 = k)) as [->|]; [set_solver|]. rewrite IH. set_solver.
Qed.

Lemma map_insert_new {K A} `{EqDecision K} (k : K) (a : A) m :
  k ∉ m.*1 → map_insert k a m = m ++ [(k, a)].
Proof.
  induction m as [|[k0 a0] m IH]; simpl; [done|]. intros Hk.
  rewrite decide_False by set_solver. rewrite IH by set_solver. done.
Qed.

Lemma map_insert_keys {K A} `{EqDecision K} (k : K) (a : A) m :
  NoDup m.*1 → NoDup (map_insert k a m).*1.
Proof.
  intros Hnd. destruct (decide (k ∈ m.*1)) as [Hk|Hk].
  - assert ((map_insert k a m).*1 = m.*1) as ->; [|done].
    clear Hnd. induction m as [|[k0 a0] m IH]; simpl in *; [set_solver|].
    destruct (decide (k0 = k)) as [->|]; simpl; [done|]. f_equal. apply IH. set_solver.
  - rewrite map_insert_new, fmap_app by done. apply NoDup_app. split_and!; [done| |apply NoDup_singleton].
    intros x Hx Hx2. simpl in Hx2. apply list_elem_of_singleton in Hx2 as ->. done.
Qed.

(** ** Induction on values, through arrays and maps *)
Lemma Value_induction (P : Value → Prop) :
  P VNull → (∀ b, P (VBool b)) → (∀ i, P (VI64 i)) → (∀ u, P (VU64 u)) → (∀ f, P (VF64 f)) →
  (∀ s, P (VString s)) → (∀ b, P (VBytes b)) →
  (∀ items, Forall P items → P (VArray items)) →
  (∀ m, Forall (λ e, P e.2) m → P (VObject m)) →
  (∀ m, Forall (λ e, P e.2) m → P (VMap m)) →
  ∀ v, P v.
Proof.
  intros ??????? Harr Hobj Hmap. fix IH 1. intros []; [done..| | |].
  - apply Harr. induction items; constructor; [apply IH|done].
  - apply Hobj. induction m as [|[k v] m IHm]; constructor; [apply IH|done].
  - apply Hmap. induction m as [|[k v] m IHm]; constructor; [apply IH|done].
Qed.
