(* ===== verification/Store.v ===== *)
(** * The shared store (wrkr-shared/src/store.rs)

    Values and counters shared by all virtual users, with waiting for a key.
    Each method's locked section is one step; what happens outside the lock
    (notifying, re-reading, waiting) is made of steps of its own, so that
    threads interleave.  [tokio::sync::watch] is a class. *)
From S2P Require Import Prelude Coll Value.

(** ** [watch] channels

    [borrow] reads the last value, [send] replaces it and marks the channel
    changed for its receivers, [subscribe] makes a receiver that has seen the
    current value, [mark_seen] is a receiver that has just returned from
    [changed()].  A sender that has lost its receivers does nothing on [send];
    as nobody reads the value, this is not observable. *)
Class WatchOps := {
  watch : Type;
  receiver : Type;
  channel : Z → watch;
  borrow : watch → Z;
  send : Z → watch → watch;
  subscribe : watch → receiver * watch;
  has_changed : receiver → watch → bool;
  mark_seen : watch → receiver }.

(** [of_watch r w]: [r] is a live receiver of [w]. *)
Class WatchLaws (W : WatchOps) := {
  of_watch : receiver → watch → Prop;
  subscribe_of w : of_watch (subscribe w).1 (subscribe w).2;
  mark_seen_of r w : of_watch r w → of_watch (mark_seen w) w;
  of_watch_send r v w : of_watch r w → of_watch r (send v w);
  of_watch_subscribe r w : of_watch r w → of_watch r (subscribe w).2;
  send_changes r v w : of_watch r w → has_changed r (send v w) = true;
  subscribe_keeps r w : of_watch r w → has_changed r (subscribe w).2 = has_changed r w }.

(** An instance: a version counter; a receiver remembers the version it saw. *)
#[export] Instance version_watch : WatchOps := {|
  watch := Z * nat;
  receiver := nat;
  channel v := (v, 0%nat);
  borrow := fst;
  send v w := (v, S w.2);
  subscribe w := (w.2, w);
  has_changed r w := negb (Nat.eqb r w.2);
  mark_seen w := w.2 |}.

#[export] Instance version_watch_laws : WatchLaws version_watch.
Proof.
  refine {| of_watch (r : @receiver version_watch) (w : @watch version_watch) := (r ≤ w.2)%nat |};
    simpl; intros; try lia.
  - apply negb_true_iff. apply Nat.eqb_neq. lia.
  - done.
Defined.

Inductive SharedBarrierError :=
  | InvalidParties
  | PartiesMismatch (expected got : Z).

Section store.
Context {W : WatchOps}.

(** [BarrierEntry]: the number of parties and which [Barrier] it is. *)
Record BarrierEntry := mkBarrierEntry { be_parties : Z; be_barrier : nat }.

Record Inner := mkInner {
  in_values : gmap string Value;
  in_notifies : gmap string watch;
  in_barriers : gmap string BarrierEntry;
  in_next_barrier : nat }.

Definition empty_store : Inner := mkInner ∅ ∅ ∅ 0.

Definition with_values (s : Inner) (v : gmap string Value) : Inner :=
  mkInner v (in_notifies s) (in_barriers s) (in_next_barrier s).
Definition with_notifies (s : Inner) (n : gmap string watch) : Inner :=
  mkInner (in_values s) n (in_barriers s) (in_next_barrier s).

(** The locked sections. *)
Definition get (key : string) (s : Inner) : option Value := in_values s !! key.

Definition set_locked (key : string) (v : Value) (s : Inner) : Inner :=
  with_values s (<[key := v]> (in_values s)).

Definition delete_locked (key : string) (s : Inner) : Inner :=
  with_values s (delete key (in_values s)).

Definition counter_of (o : option Value) : Z := default 0 (o ≫= as_i64_value).

Definition get_counter (key : string) (s : Inner) : Z := counter_of (get key s).

Definition incr_locked (key : string) (delta : Z) (s : Inner) : Inner :=
  let cur := counter_of (in_values s !! key) in
  let next := i64_sat_add cur delta in
  with_values s (<[key := VI64 next]> (in_values s)).

(** [wait_for_key]'s first section: [None] when the key is there; otherwise a
    receiver of the key's channel, made if there is none. *)
Definition wait_locked (key : string) (s : Inner) : option receiver * Inner :=
  match in_values s !! key with
  | Some _ => (None, s)
  | None =>
      let sender := default (channel 0) (in_notifies s !! key) in
      let '(rx, sender) := subscribe sender in
      (Some rx, with_notifies s (<[key := sender]> (in_notifies s)))
  end.

(** [barrier_wait] up to the wait: the barrier to wait on. *)
Definition barrier_enter (name : string) (parties : Z) (s : Inner) :
    result SharedBarrierError nat * Inner :=
  if parties =? 0 then (Err InvalidParties, s)
  else
    match in_barriers s !! name with
    | None =>
        let id := in_next_barrier s in
        (Ok id, mkInner (in_values s) (in_notifies s)
                  (<[name := mkBarrierEntry parties id]> (in_barriers s)) (S id))
    | Some e =>
        if negb (be_parties e =? parties) then (Err (PartiesMismatch (be_parties e) parties), s)
        else (Ok (be_barrier e), s)
    end.

(** The notification of [key]: [notify.borrow().wrapping_add(1)], then [send]. *)
Definition notify_next (key : string) (s : Inner) : Z :=
  match in_notifies s !! key with Some w => u64_wrap_add (borrow w) 1 | None => 0 end.
Definition notify_send (key : string) (next : Z) (s : Inner) : Inner :=
  with_notifies s (alter (send next) key (in_notifies s)).

(** ** Threads *)

(** What is left to do after the notification: nothing, or [incr]'s re-read. *)
Inductive after := Nothing | ReRead.

Inductive pc :=
  | CallSet (key : string) (v : Value)
  | CallDelete (key : string)
  | CallIncr (key : string) (delta : Z)
  | CallWait (key : string)
  | Notify (key : string) (k : after)              (* the sender was cloned under the lock *)
  | NotifyNext (key : string) (next : Z) (k : after)
  | Read (key : string)                            (* [self.get_counter(key)] *)
  | WaitCheck (key : string) (rx : receiver)       (* [self.get(key)] in the loop *)
  | WaitPark (key : string) (rx : receiver)        (* [rx.changed().await] *)
  | Returned (r : option Z).

Definition then_ (key : string) (k : after) : pc :=
  match k with Nothing => Returned None | ReRead => Read key end.

(** After the lock: the notification if the key had a channel. *)
Definition notify_pc (key : string) (k : after) (s : Inner) : pc :=
  match in_notifies s !! key with Some _ => Notify key k | None => then_ key k end.

Definition thread_step (s : Inner) (p : pc) : option (Inner * pc) :=
  match p with
  | CallSet key v => let s := set_locked key v s in Some (s, notify_pc key Nothing s)
  | CallDelete key => Some (delete_locked key s, Returned None)
  | CallIncr key delta => let s := incr_locked key delta s in Some (s, notify_pc key ReRead s)
  | CallWait key =>
      match wait_locked key s with
      | (None, s) => Some (s, Returned None)
      | (Some rx, s) => Some (s, WaitCheck key rx)
      end
  | Notify key k => Some (s, NotifyNext key (notify_next key s) k)
  | NotifyNext key next k => Some (notify_send key next s, then_ key k)
  | Read key => Some (s, Returned (Some (get_counter key s)))
  | WaitCheck key rx =>
      match get key s with Some _ => Some (s, Returned None) | None => Some (s, WaitPark key rx) end
  | WaitPark key rx =>
      match in_notifies s !! key with
      | Some w => if has_changed rx w then Some (s, WaitCheck key (mark_seen w)) else None
      | None => None
      end
  | Returned _ => None
  end.

Record Config := mkConfig { cf_store : Inner; cf_threads : list pc }.

Inductive step : Config → Config → Prop :=
  | step_thread s s' ts i p p' :
      ts !! i = Some p → thread_step s p = Some (s', p') →
      step (mkConfig s ts) (mkConfig s' (<[i := p']> ts)).

(** A thread before its call. *)
Definition starts (p : pc) : Prop :=
  match p with CallSet _ _ | CallDelete _ | CallIncr _ _ | CallWait _ => True | _ => False end.

Definition reachable (cf : Config) : Prop :=
  ∃ ts, Forall starts ts ∧ rtc step (mkConfig empty_store ts) cf.

(** ** A parked thread is always about to be woken *)

(** The thread still has to notify [key]. *)
Definition notifying (key : string) (p : pc) : Prop :=
  match p with Notify k _ | NotifyNext k _ _ => k = key | _ => False end.

#[export] Instance notifying_dec key p : Decision (notifying key p).
Proof. destruct p; simpl; apply _. Defined.

Definition waiting (p : pc) : option (string * receiver) :=
  match p with WaitCheck k rx | WaitPark k rx => Some (k, rx) | _ => None end.

Context {L : WatchLaws W}.

Record store_inv (cf : Config) : Prop := {
  (** a waiter's receiver belongs to its key's channel *)
  inv_rx i p key rx : cf_threads cf !! i = Some p → waiting p = Some (key, rx) →
    ∃ w, in_notifies (cf_store cf) !! key = Some w ∧ of_watch rx w;
  inv_notify i p key : cf_threads cf !! i = Some p → notifying key p →
    is_Some (in_notifies (cf_store cf) !! key);
  (** a parked thread whose key is there has been, or will be, notified *)
  inv_park i key rx w : cf_threads cf !! i = Some (WaitPark key rx) →
    is_Some (in_values (cf_store cf) !! key) → in_notifies (cf_store cf) !! key = Some w →
    has_changed rx w = true ∨ ∃ j p, cf_threads cf !! j = Some p ∧ notifying key p }.

(** What a step does to the channel of [key]. *)
Definition channel_step (key : string) (s s' : Inner) : Prop :=
  ∀ w, in_notifies s !! key = Some w →
    ∃ w', in_notifies s' !! key = Some w' ∧
      ∀ rx, of_watch rx w → of_watch rx w' ∧ (has_changed rx w = true → has_changed rx w' = true).

Lemma channel_step_refl key s s' : in_notifies s' = in_notifies s → channel_step key s s'.
Proof. intros E w Hw. exists w. rewrite E. split; [done|]. tauto. Qed.

Lemma wait_locked_spec key s o s' :
  wait_locked key s = (o, s') →
  (∀ k, channel_step k s s') ∧ in_values s' = in_values s ∧
  ∀ rx, o = Some rx → in_values s !! key = None ∧
    ∃ w, in_notifies s' !! key = Some w ∧ of_watch rx w.
Proof.
  unfold wait_locked. destruct (in_values s !! key) eqn:Hv.
  { intros [= <- <-]. split_and!; [|done|done]. intros k. by apply channel_step_refl. }
  set (w := default (channel 0) (in_notifies s !! key)).
  pose proof (subscribe_of w) as Hof. pose proof (λ r, of_watch_subscribe r w) as Hk.
  pose proof (λ r, subscribe_keeps r w) as Hc.
  destruct (subscribe w) as [rx w1] eqn:Hs. simpl in *. intros [= <- <-]. split_and!; [|done|].
  - intros k w0 Hw0. simpl. destruct (decide (key = k)) as [<-|Hne].
    + exists w1. rewrite lookup_insert_eq. split; [done|]. intros r Hr.
      assert (w0 = w) as -> by (unfold w; by rewrite Hw0).
      split; [by apply Hk|]. by rewrite (Hc r Hr).
    + exists w0. rewrite lookup_insert_ne by done. split; [done|]. tauto.
  - intros rx' [= ->]. split; [done|]. exists w1. simpl. by rewrite lookup_insert_eq.
Qed.

Lemma notify_send_channel key next s k : channel_step k s (notify_send key next s).
Proof.
  intros w Hw. unfold notify_send; simpl. destruct (decide (key = k)) as [<-|Hne].
  - exists (send next w). rewrite lookup_alter_eq, Hw. split; [done|]. intros rx Hrx.
    split; [by apply of_watch_send|]. intros _. by apply send_changes.
  - exists w. rewrite lookup_alter_ne by done. split; [done|]. tauto.
Qed.

Lemma notify_pc_spec key k s p :
  notify_pc key k s = p →
  (is_Some (in_notifies s !! key) → notifying key p) ∧
  (∀ key', notifying key' p → is_Some (in_notifies s !! key')) ∧ waiting p = None.
Proof.
  unfold notify_pc. intros <-. destruct (in_notifies s !! key) as [w|] eqn:E; simpl.
  - split_and!; [done| |done]. intros key' <-. by rewrite E.
  - destruct k; simpl; (split_and!; [by intros [? ?]|done|done]).
Qed.

(** One step of one thread, as seen by the others. *)
Record step_ok (s : Inner) (p : pc) (s' : Inner) (p' : pc) : Prop := {
  so_channel key : channel_step key s s';
  so_insert key : in_values s !! key = None → is_Some (in_values s' !! key) →
    is_Some (in_notifies s' !! key) → notifying key p';
  so_sent key w w' rx : notifying key p → ¬ notifying key p' →
    in_notifies s !! key = Some w → of_watch rx w → in_notifies s' !! key = Some w' →
    has_changed rx w' = true;
  so_rx key rx : waiting p' = Some (key, rx) →
    ∃ w, in_notifies s' !! key = Some w ∧ of_watch rx w;
  so_notify key : notifying key p' → is_Some (in_notifies s' !! key);
  so_park key rx : p' = WaitPark key rx → in_values s' !! key = None }.

Lemma then_not key k : waiting (then_ key k) = None ∧ ∀ key', ¬ notifying key' (then_ key k).
Proof. destruct k; (split; [done|]); intros key' []. Qed.

Lemma inserted_ok s key v p p' k :
  waiting p = None → (∀ key', ¬ notifying key' p) →
  notify_pc key k (with_values s (<[key := v]> (in_values s))) = p' →
  step_ok s p (with_values s (<[key := v]> (in_values s))) p'.
Proof.
  intros Hw Hn Hp. destruct (notify_pc_spec _ _ _ _ Hp) as (H1 & H2 & H3). split; simpl in *.
  - intros k0. by apply channel_step_refl.
  - intros k0 Hnone [x Hx] Hch. destruct (decide (key = k0)) as [<-|Hne]; [by apply H1|].
    rewrite lookup_insert_ne in Hx by done. congruence.
  - intros k0 w w' rx Hk. by apply Hn in Hk.
  - intros k0 rx. by rewrite H3.
  - done.
  - intros k0 rx ->. done.
Qed.

Lemma thread_step_ok s p s' p' :
  thread_step s p = Some (s', p') →
  (∀ key rx, waiting p = Some (key, rx) → ∃ w, in_notifies s !! key = Some w ∧ of_watch rx w) →
  (∀ key, notifying key p → is_Some (in_notifies s !! key)) →
  step_ok s p s' p'.
Proof.
  intros Hstep Hrx Hnt. destruct p as [key v|key|key d|key|key k|key n k|key|key rx|key rx|r]; simpl in Hstep.
  - injection Hstep as <- <-. eapply inserted_ok; [done|by intros ? []|done].
  - injection Hstep as <- <-. split; simpl; try done.
    + intros k. by apply channel_step_refl.
    + intros k Hk Hk2. rewrite lookup_delete in Hk2. case_decide; [by destruct Hk2|].
      rewrite Hk in Hk2. by destruct Hk2.
  - injection Hstep as <- <-. eapply inserted_ok; [done|by intros ? []|done].
  - destruct (wait_locked key s) as [o s1] eqn:Hw.
    destruct (wait_locked_spec _ _ _ _ Hw) as (Hc & Hv & Ho).
    destruct o as [rx|]; injection Hstep as <- <-; split; simpl; try done.
    + rewrite Hv. intros k Hk Hk2. rewrite Hk in Hk2. by destruct Hk2.
    + intros k rx' [= <- <-]. by apply Ho.
    + rewrite Hv. intros k Hk Hk2. rewrite Hk in Hk2. by destruct Hk2.
  - injection Hstep as <- <-. split; simpl; try done.
    + intros k0. by apply channel_step_refl.
    + intros k0 Hk0 Hk2. rewrite Hk0 in Hk2. by destruct Hk2.
  - injection Hstep as <- <-. destruct (then_not key k) as [Ht1 Ht2]. split; simpl.
    + intros k0. apply notify_send_channel.
    + intros k0 Hk0 Hk2. rewrite Hk0 in Hk2. by destruct Hk2.
    + intros k0 w w' rx <- _ Hw Hof Hw'. rewrite lookup_alter_eq, Hw in Hw'. simpl in Hw'.
      injection Hw' as <-. by apply send_changes.
    + intros k0 rx. by rewrite Ht1.
    + intros k0 Hk0. by apply Ht2 in Hk0.
    + intros k0 rx E. rewrite E in Ht1. done.
  - injection Hstep as <- <-. split; simpl; try done.
    + intros k0. by apply channel_step_refl.
    + intros k0 Hk0 Hk2. rewrite Hk0 in Hk2. by destruct Hk2.
  - destruct (get key s) as [x|] eqn:Hg; injection Hstep as <- <-; split; simpl; try done.
    + intros k0. by apply channel_step_refl.
    + intros k0 Hk0 Hk2. rewrite Hk0 in Hk2. by destruct Hk2.
    + intros k0. by apply channel_step_refl.
    + intros k0 Hk0 Hk2. rewrite Hk0 in Hk2. by destruct Hk2.
    + by intros k0 rx0 [= <- <-].
  - destruct (in_notifies s !! key) as [w|] eqn:Hw; [|done].
    destruct (has_changed rx w); [|done]. injection Hstep as <- <-. split; simpl; try done.
    + intros k0. by apply channel_step_refl.
    + intros k0 Hk0 Hk2. rewrite Hk0 in Hk2. by destruct Hk2.
    + intros k0 rx0 [= <- <-]. exists w. split; [done|].
      destruct (Hrx key rx eq_refl) as (w' & Hw' & Hof). simplify_eq. by eapply mark_seen_of.
  - done.
Qed.

Lemma step_inv cf cf' : store_inv cf → step cf cf' → store_inv cf'.
Proof.
  intros [Irx Int Ipk] Hstep. destruct Hstep as [s s' ts i p p' Hi Hp]. simpl in *.
  pose proof (thread_step_ok s p s' p' Hp (λ key rx, Irx i p key rx Hi) (λ key, Int i p key Hi)) as O.
  assert (∀ j q, <[i := p']> ts !! j = Some q → (j = i ∧ q = p') ∨ (j ≠ i ∧ ts !! j = Some q)) as Hlk.
  { intros j q Hj. destruct (decide (i = j)) as [<-|Hne].
    - rewrite list_lookup_insert_eq in Hj by (by eapply lookup_lt_Some). left. by simplify_eq.
    - rewrite list_lookup_insert_ne in Hj by done. by right. }
  assert (<[i := p']> ts !! i = Some p') as Hi'.
  { apply list_lookup_insert_eq. by eapply lookup_lt_Some. }
  split; simpl.
  - intros j q key rx [[-> ->]|[_ Hj]]%Hlk Hw; [by eapply so_rx|].
    destruct (Irx j q key rx Hj Hw) as (w & Hww & Hof).
    destruct (so_channel _ _ _ _ O key w Hww) as (w' & Hw' & Hall).
    exists w'. split; [done|]. by apply Hall.
  - intros j q key [[-> ->]|[_ Hj]]%Hlk Hn; [by eapply so_notify|].
    destruct (Int j q key Hj Hn) as [w Hw].
    destruct (so_channel _ _ _ _ O key w Hw) as (w' & Hw' & _). by eexists.
  - intros j key rx w' [[-> E]|[Hji Hj]]%Hlk Hval Hw'.
    { rewrite (so_park _ _ _ _ O key rx (eq_sym E)) in Hval. by destruct Hval. }
    destruct (Irx j _ key rx Hj eq_refl) as (w & Hw & Hof).
    destruct (so_channel _ _ _ _ O key w Hw) as (w1 & Hw1 & Hall). simplify_eq.
    destruct (Hall rx Hof) as [Hof' Hch].
    destruct (in_values s !! key) as [v|] eqn:Hv.
    + destruct (Ipk j key rx w Hj ltac:(by eexists) Hw) as [Hc|(m & q & Hm & Hq)]; [left; by apply Hch|].
      destruct (decide (m = i)) as [->|Hmi].
      * simplify_eq. destruct (decide (notifying key p')) as [Hn|Hn].
        -- right. by exists i, p'.
        -- left. exact (so_sent _ _ _ _ O key w w' rx Hq Hn Hw Hof Hw').
      * right. exists m, q. split; [|done]. by rewrite list_lookup_insert_ne.
    + right. exists i, p'. split; [done|]. eapply so_insert; [done|done|done|by eexists].
Qed.

Lemma reachable_inv cf : reachable cf → store_inv cf.
Proof.
  intros (ts & Hts & Hsteps). remember (mkConfig empty_store ts) as cf0 eqn:E0.
  assert (store_inv cf0) as H0.
  { subst. assert (∀ i p, ts !! i = Some p → starts p) as Hst.
    { intros i p Hi. by eapply Forall_lookup_1. }
    split; simpl.
    - intros i p key rx Hi%Hst Hw. by destruct p.
    - intros i p key Hi%Hst Hw. by destruct p.
    - intros i key rx w Hi%Hst. done. }
  clear E0 Hts. induction Hsteps as [|x y z Hxy _ IH]; [done|]. apply IH. by eapply step_inv.
Qed.

(** ** Properties *)

(** C39. No wake-up is lost: whenever a thread is blocked in [wait_for_key] while
    its key is in the store, another thread is about to notify that key, and
    its [send] will unblock the waiter. *)
Theorem wait_no_lost_wakeup cf i key rx :
  reachable cf → cf_threads cf !! i = Some (WaitPark key rx) →
  is_Some (in_values (cf_store cf) !! key) →
  thread_step (cf_store cf) (WaitPark key rx) = None →
  ∃ j p, cf_threads cf !! j = Some p ∧ notifying key p ∧
    ∀ next, is_Some (thread_step (notify_send key next (cf_store cf)) (WaitPark key rx)).
Proof.
  intros Hr Hi Hv Hblocked. destruct (reachable_inv cf Hr) as [Irx _ Ipk].
  destruct (Irx i _ key rx Hi eq_refl) as (w & Hw & Hof).
  destruct (Ipk i key rx w Hi Hv Hw) as [Hc|(j & p & Hj & Hp)].
  - simpl in Hblocked. by rewrite Hw, Hc in Hblocked.
  - exists j, p. split_and!; [done|done|]. intros next. simpl.
    rewrite lookup_alter_eq, Hw. simpl. rewrite send_changes by done. by eexists.
Qed.

(** [incr] does not always return the value it made: two concurrent calls
    on a fresh counter can both return 2, since each reads the counter again
    after releasing the lock, although the counter itself ends at 2. *)
Theorem incr_returns_twice key :
  ∃ cf, reachable cf ∧ cf_threads cf = [Returned (Some 2); Returned (Some 2)] ∧
    get_counter key (cf_store cf) = 2.
Proof.
  set (s1 := incr_locked key 1 empty_store). set (s2 := incr_locked key 1 s1).
  assert (get_counter key s2 = 2) as H2.
  { unfold get_counter, get, s2, incr_locked; simpl. rewrite lookup_insert_eq. unfold s1; simpl.
    by rewrite lookup_insert_eq, lookup_empty. }
  exists (mkConfig s2 [Returned (Some 2); Returned (Some 2)]). split_and!; [|done|done].
  exists [CallIncr key 1; CallIncr key 1]. split; [by repeat constructor|].
  eapply rtc_l; [apply (step_thread _ s1 _ 0 (CallIncr key 1) (Read key)); [done|]|].
  { simpl. unfold notify_pc. simpl. by rewrite lookup_empty. }
  eapply rtc_l; [apply (step_thread _ s2 _ 1 (CallIncr key 1) (Read key)); [done|]|].
  { simpl. unfold notify_pc. simpl. by rewrite lookup_empty. }
  eapply rtc_l; [apply (step_thread _ s2 _ 0 (Read key) (Returned (Some 2))); [done|]|].
  { simpl. by rewrite H2. }
  eapply rtc_l; [apply (step_thread _ s2 _ 1 (Read key) (Returned (Some 2))); [done|]|].
  { simpl. by rewrite H2. }
  done.
Qed.

(** What the increments that have not run yet will add. *)
Definition incr_pending (p : pc) : Z :=
  match p with CallIncr _ d => d | _ => 0 end.

(** A thread that only increments [key]. *)
Definition incr_thread (key : string) (p : pc) : Prop :=
  match p with
  | CallIncr k d => k = key ∧ 0 ≤ d
  | Notify k ReRead | NotifyNext k _ ReRead | Read k => k = key
  | Returned _ => True
  | _ => False
  end.

Lemma incr_step key total cf cf' :
  step cf cf' → Forall (incr_thread key) (cf_threads cf) →
  0 ≤ get_counter key (cf_store cf) → total ≤ i64_max →
  get_counter key (cf_store cf) + sumf incr_pending (cf_threads cf) = total →
  Forall (incr_thread key) (cf_threads cf') ∧ 0 ≤ get_counter key (cf_store cf') ∧
  get_counter key (cf_store cf') + sumf incr_pending (cf_threads cf') = total.
Proof.
  intros Hstep Hall H0 Hmax Htot. destruct Hstep as [s s' ts i p p' Hi Hp]. simpl in *.
  pose proof (Forall_lookup_1 _ _ _ _ Hall Hi) as Hpk.
  assert (0 ≤ sumf incr_pending ts - incr_pending p) as Hrest.
  { rewrite <- (Z.add_0_r (_ - _)). change 0 with (incr_pending (Returned None)) at 2.
    rewrite <- (sumf_insert _ _ i p (Returned None)) by done. apply sumf_nonneg. intros q Hq.
    apply list_elem_of_lookup_1 in Hq as (j & Hj). destruct (decide (i = j)) as [<-|Hne].
    - rewrite list_lookup_insert_eq in Hj by (by eapply lookup_lt_Some). by simplify_eq.
    - rewrite list_lookup_insert_ne in Hj by done.
      pose proof (Forall_lookup_1 _ _ _ _ Hall Hj) as Hq. destruct q; simpl in *; lia. }
  rewrite (sumf_insert _ _ i p p') by done.
  assert (incr_thread key p' ∧ get_counter key s' = get_counter key s + (incr_pending p - incr_pending p')
    ∧ incr_pending p' = 0) as (Hp' & Hc & Hz).
  { destruct p as [| |k d| |k []|k n []|k| | |]; simpl in Hpk; try done; simpl in Hp.
    - destruct Hpk as [-> Hd]. injection Hp as <- <-. simpl in Hrest |- *.
      assert (get_counter key (incr_locked key d s) = get_counter key s + d) as Hcnt.
      { unfold get_counter, get, incr_locked; simpl. rewrite lookup_insert_eq. simpl.
        change (counter_of (in_values s !! key)) with (get_counter key s).
        change (i64_sat_add (get_counter key s) d = get_counter key s + d). ints_lia. }
      set (s1 := incr_locked key d s) in *. clearbody s1.
      unfold notify_pc. destruct (in_notifies s1 !! key); simpl; split_and!; try done; lia.
    - injection Hp as <- <-. subst. simpl. split_and!; [done|lia|done].
    - injection Hp as <- <-. subst. simpl. split_and!; [done| |done].
      change (get_counter key (notify_send key n s)) with (get_counter key s). lia.
    - injection Hp as <- <-. simpl. split_and!; [done|lia|done]. }
  split_and!; [by apply Forall_insert| |lia].
  assert (0 ≤ incr_pending p) by (destruct p; simpl in *; first [lia|tauto]). lia.
Qed.

(** Increments are not lost: when every thread increments [key], the counter
    and the increments whose locked section has not run always add up to the
    total, whatever the interleaving of locked sections, notifications and
    reads, as long as the total fits in 64 bits. *)
Theorem increments_accumulate key deltas cf :
  Forall (λ d, 0 ≤ d) deltas → sumf (λ d, d) deltas ≤ i64_max →
  rtc step (mkConfig empty_store (CallIncr key <$> deltas)) cf →
  get_counter key (cf_store cf) + sumf incr_pending (cf_threads cf) = sumf (λ d, d) deltas.
Proof.
  intros Hd Hmax Hsteps. set (total := sumf (λ d, d) deltas) in *.
  assert (∀ c, rtc step c cf → Forall (incr_thread key) (cf_threads c) →
    0 ≤ get_counter key (cf_store c) →
    get_counter key (cf_store c) + sumf incr_pending (cf_threads c) = total →
    get_counter key (cf_store cf) + sumf incr_pending (cf_threads cf) = total) as Hall.
  { clear Hsteps. intros c Hc. induction Hc as [|x y z Hxy _ IH]; [done|]. intros H1 H2 H3.
    destruct (incr_step key total x y Hxy H1 H2 Hmax H3) as (H4 & H5 & H6). by apply IH. }
  apply (Hall _ Hsteps); simpl.
  - apply Forall_fmap. eapply Forall_impl; [exact Hd|]. intros d Hd0. by split.
  - unfold get_counter, get; simpl. by rewrite lookup_empty.
  - assert (get_counter key empty_store = 0) as ->.
    { unfold get_counter, get; simpl. by rewrite lookup_empty. }
    unfold total. clear. induction deltas as [|d l IH]; [done|].
    rewrite fmap_cons, !sumf_cons. simpl in *. lia.
Qed.
End store.

(** ** Witnesses *)

Definition rx0 : @receiver version_watch := 0%nat.

(** A waiter parked on [k] after another thread has set it, before the
    notification. *)
Definition parked : @Config version_watch :=
  let s0 := (wait_locked "k" (@empty_store version_watch)).2 in
  mkConfig (set_locked "k" VNull s0) [WaitPark "k" rx0; Notify "k" Nothing].

Lemma parked_reachable : reachable parked.
Proof.
  exists [CallWait "k"; CallSet "k" VNull]%string. split; [by repeat constructor|].
  set (s0 := (wait_locked "k" (@empty_store version_watch)).2).
  eapply rtc_l; [apply (step_thread _ s0 _ 0 (CallWait "k") (WaitCheck "k" rx0)); reflexivity|].
  eapply rtc_l; [apply (step_thread _ s0 _ 0 (WaitCheck "k" rx0) (WaitPark "k" rx0)); reflexivity|].
  eapply rtc_l; [apply (step_thread _ (set_locked "k" VNull s0) _ 1 (CallSet "k" VNull) (Notify "k" Nothing)); reflexivity|].
  apply rtc_refl.
Qed.

Lemma wait_no_lost_wakeup_witness :
  ∃ j p, cf_threads parked !! j = Some p ∧ notifying "k" p ∧
    ∀ next, is_Some (thread_step (notify_send "k" next (cf_store parked)) (WaitPark "k" rx0)).
Proof.
  apply (wait_no_lost_wakeup parked 0 "k" rx0 parked_reachable); [reflexivity|by eexists|reflexivity].
Defined.

Lemma increments_accumulate_witness :
  get_counter "n" (incr_locked "n" 5 (incr_locked "n" 2 (@empty_store version_watch))) + 0 = 2 + (5 + 0).
Proof.
  apply (increments_accumulate "n" [2; 5]
    (mkConfig (incr_locked "n" 5 (incr_locked "n" 2 empty_store)) [Read "n"; Read "n"])).
  - each lia.
  - by vm_compute.
  - eapply rtc_l; [apply (step_thread _ (incr_locked "n" 2 empty_store) _ 0 (CallIncr "n" 2) (Read "n")); reflexivity|].
    eapply rtc_l; [apply (step_thread _ (incr_locked "n" 5 (incr_locked "n" 2 empty_store)) _ 1
      (CallIncr "n" 5) (Read "n")); reflexivity|].
    apply rtc_refl.
Defined.
