(* ===== verification/Wire.v ===== *)
(** * The protobuf wire format (wrkr-grpc/src/wire/primitives.rs)

    Bytes are integers from 0 to 255; a [BytesMut] is what has been written, a
    [Bytes] what is left to read, so that a reader returns its value and the
    rest. *)
From Stdlib Require Import Ascii.
From S2P Require Import Prelude Text.

Local Open Scope Z_scope.

Definition byte_ok (b : Z) : Prop := 0 ≤ b < 256.

Inductive WireType := Varint | SixtyFourBit | Len | ThirtyTwoBit.

#[export] Instance WireType_eq_dec : EqDecision WireType.
Proof. solve_decision. Defined.

(** [WireType::try_from]. *)
Definition wire_type_of (v : Z) : result string WireType :=
  if v =? 0 then Ok Varint
  else if v =? 1 then Ok SixtyFourBit
  else if v =? 2 then Ok Len
  else if v =? 5 then Ok ThirtyTwoBit
  else Err ("unsupported protobuf wire type " ++ show v)%string.

Definition wire_type_code (w : WireType) : Z :=
  match w with Varint => 0 | SixtyFourBit => 1 | Len => 2 | ThirtyTwoBit => 5 end.

(** ** Varints *)

(** [write_variant]'s loop; ten rounds are enough for a [u64]. *)
Fixpoint write_loop (fuel : nat) (v : Z) : list Z :=
  match fuel with
  | O => [as_u8 v]
  | S fuel =>
      if 0x80 <=? v then Z.lor (as_u8 v) 0x80 :: write_loop fuel (Z.shiftr v 7)
      else [as_u8 v]
  end.
Definition write_variant (v : Z) (out : list Z) : list Z := out ++ write_loop 10 v.

(** [read_variant]'s loop: [<<] drops the bits above the 64th. *)
Fixpoint read_loop (shift out : Z) (src : list Z) : result string (Z * list Z) :=
  match src with
  | [] => Err "invalid varint"%string
  | b :: src =>
      let out := Z.lor out (as_u64 (Z.shiftl (Z.land b 0x7f) shift)) in
      if Z.land b 0x80 =? 0 then Ok (out, src)
      else
        let shift := shift + 7 in
        if 64 <=? shift then Err "invalid varint"%string else read_loop shift out src
  end.
Definition read_variant (src : list Z) : result string (Z * list Z) := read_loop 0 0 src.

(** [((field_number as u64) << 3) | wt]. *)
Definition tag_of (field_number : Z) (w : WireType) : Z :=
  Z.lor (as_u64 (Z.shiftl field_number 3)) (wire_type_code w).
Definition write_tag (field_number : Z) (w : WireType) (out : list Z) : list Z :=
  write_variant (tag_of field_number w) out.

(** ** Length-delimited values *)
Definition write_len_delimited (bytes out : list Z) : list Z :=
  write_variant (Z.of_nat (length bytes)) out ++ bytes.

Definition read_len_delimited (src : list Z) : result string (list Z * list Z) :=
  '(len, src) ← read_variant src;
  if Z.of_nat (length src) <? len then Err "invalid length-delimited field"%string
  else Ok (take (Z.to_nat len) src, drop (Z.to_nat len) src).

(** ** Fixed-width integers, little endian *)
Fixpoint le_bytes (n : nat) (v : Z) : list Z :=
  match n with O => [] | S n => v mod 256 :: le_bytes n (v / 256) end.
Fixpoint le_val (bs : list Z) : Z :=
  match bs with [] => 0 | b :: bs => b + 256 * le_val bs end.

(** [get_u32_le] and the like: the caller has checked the length. *)
Definition get_le (n : nat) (src : list Z) : Z * list Z := (le_val (take n src), drop n src).

(** Skip the value of an unknown field. *)
Definition skip_value (w : WireType) (src : list Z) : result string (list Z) :=
  match w with
  | Varint => '(_, src) ← read_variant src; Ok src
  | SixtyFourBit =>
      if (length src <? 8)%nat then Err "invalid fixed64"%string else Ok (drop 8 src)
  | Len => '(_, src) ← read_len_delimited src; Ok src
  | ThirtyTwoBit =>
      if (length src <? 4)%nat then Err "invalid fixed32"%string else Ok (drop 4 src)
  end.

(** ** ZigZag: on 64-bit two's complement, [>>] of an [i64] keeps the sign *)
Definition encode_zigzag64 (v : Z) : Z := as_u64 (Z.lxor (as_i64 (Z.shiftl v 1)) (Z.shiftr v 63)).
Definition decode_zigzag64 (v : Z) : Z := Z.lxor (as_i64 (Z.shiftr v 1)) (- (Z.land v 1)).

(** ** Lemmas *)
Lemma lor_shift_add a b s : 0 ≤ s → 0 ≤ a < 2 ^ s → Z.lor a (Z.shiftl b s) = a + b * 2 ^ s.
Proof.
  intros Hs Ha. rewrite Z.shiftl_mul_pow2 by done.
  assert (Z.land a (b * 2 ^ s) = 0) as Hl.
  { apply Z.bits_inj'. intros n Hn. rewrite Z.land_spec, Z.bits_0.
    destruct (Z_lt_le_dec n s).
    - rewrite Z.mul_pow2_bits_low by lia. apply andb_false_r.
    - destruct (Z.eq_dec a 0) as [->|]; [by rewrite Z.bits_0|].
      assert (Z.log2 a < n) as Hlog.
      { apply Z.log2_lt_pow2; [lia|]. apply Z.lt_le_trans with (2 ^ s); [lia|].
        apply Z.pow_le_mono_r; lia. }
      by rewrite (Z.bits_above_log2 a n) by lia. }
  rewrite <- Z.lxor_lor by done. rewrite <- Z.add_nocarry_lxor by done. done.
Qed.

Lemma as_u8_mod v : as_u8 v = v mod 256.
Proof. done. Qed.

Lemma cont_byte v : Z.lor (as_u8 v) 128 = v mod 128 + 128.
Proof.
  assert (v mod 256 = v mod 128 ∨ v mod 256 = v mod 128 + 128) as Hc.
  { pose proof (Z.mod_pos_bound v 128). pose proof (Z.mod_pos_bound v 256).
    pose proof (Z.div_mod v 128). pose proof (Z.div_mod v 256). lia. }
  rewrite as_u8_mod. pose proof (Z.mod_pos_bound v 128 ltac:(lia)) as Hb.
  assert (∀ x, 0 ≤ x < 128 → Z.lor x 128 = x + 128) as Hlow.
  { intros x Hx. change 128 with (Z.shiftl 1 7) at 1. rewrite lor_shift_add by lia. lia. }
  destruct Hc as [E|E]; rewrite E; [by apply Hlow|].
  rewrite <- (Hlow (v mod 128)) at 1 by done. rewrite <- Z.lor_assoc, Z.lor_diag. by apply Hlow.
Qed.

Lemma land_127 x : Z.land x 127 = x mod 128.
Proof. change 127 with (Z.ones 7). by rewrite Z.land_ones. Qed.

Lemma land_128 x : 0 ≤ x < 256 → (Z.land x 128 =? 0) = (x <? 128).
Proof.
  intros Hx. assert (Z.land x 128 = if x <? 128 then 0 else 128) as ->; [|by destruct (x <? 128)].
  assert (∀ n : nat, (n < 256)%nat →
    (Z.land (Z.of_nat n) 128 =? if Z.of_nat n <? 128 then 0 else 128) = true) as Hall.
  { intros n Hn. assert (forallb (λ n, Z.land (Z.of_nat n) 128 =? if Z.of_nat n <? 128 then 0 else 128)
      (seq 0 256) = true) as Hf by (vm_compute; reflexivity).
    rewrite forallb_forall in Hf. apply Hf. apply in_seq. lia. }
  specialize (Hall (Z.to_nat x) ltac:(lia)). rewrite Z2Nat.id in Hall by lia. by apply Z.eqb_eq.
Qed.

(** The last byte. *)
Lemma read_last s v out rest :
  0 ≤ s ≤ 63 → 0 ≤ v < 2 ^ (64 - s) → v < 128 → 0 ≤ out < 2 ^ s →
  read_loop s out ([as_u8 v] ++ rest) = Ok (out + v * 2 ^ s, rest).
Proof.
  intros Hs Hv Hv7 Hout. simpl app. cbn [read_loop].
  assert (as_u8 v = v) as -> by (rewrite as_u8_mod; apply Z.mod_small; lia).
  rewrite land_128, land_127 by lia. destruct (Z.ltb_spec v 128); [|lia].
  rewrite (Z.mod_small v 128) by lia. rewrite as_u64_small.
  - by rewrite lor_shift_add by lia.
  - rewrite Z.shiftl_mul_pow2 by lia.
    assert (v * 2 ^ s < 2 ^ 64); [|ints; nia].
    replace 64 with (64 - s + s) at 1 by lia. rewrite Z.pow_add_r by lia. nia.
Qed.

(** Reading what was written, from any shift. *)
Lemma read_write_loop fuel s v out rest :
  0 ≤ s ≤ 63 → (∃ k, s = 7 * k) → 0 ≤ v < 2 ^ (64 - s) → 64 - s ≤ 7 * (Z.of_nat fuel) + 7 →
  0 ≤ out < 2 ^ s →
  read_loop s out (write_loop fuel v ++ rest) = Ok (out + v * 2 ^ s, rest).
Proof.
  revert s v out. induction fuel as [|fuel IH]; intros s v out Hs [k Hk] Hv Hfuel Hout.
  - assert (v < 128) as Hv7.
    { apply Z.lt_le_trans with (2 ^ (64 - s)); [lia|]. change 128 with (2 ^ 7).
      apply Z.pow_le_mono_r; lia. }
    simpl. by apply read_last.
  - cbn [write_loop]. destruct (Z.leb_spec 128 v) as [Hge|Hlt].
    + assert (7 < 64 - s) as Hs7.
      { destruct (Z_le_gt_dec (64 - s) 7) as [Hle|]; [|lia].
        assert (2 ^ (64 - s) ≤ 2 ^ 7) by (apply Z.pow_le_mono_r; lia). lia. }
      assert (0 ≤ v mod 128 < 128) as Hm by (apply Z.mod_pos_bound; lia).
      simpl app. cbn [read_loop]. rewrite cont_byte, land_127, land_128 by lia.
      replace ((v mod 128 + 128) mod 128) with (v mod 128).
      2:{ rewrite Z.add_mod, Z.mod_mod, Z_mod_same_full, Z.add_0_r, Z.mod_mod by lia. done. }
      destruct (Z.ltb_spec (v mod 128 + 128) 128); [lia|]. destruct (Z.leb_spec 64 (s + 7)); [lia|].
      assert (as_u64 (Z.shiftl (v mod 128) s) = Z.shiftl (v mod 128) s) as ->.
      { apply as_u64_small. rewrite Z.shiftl_mul_pow2 by lia.
        assert (v mod 128 * 2 ^ s < 2 ^ 64); [|ints; nia].
        apply Z.lt_le_trans with (2 ^ 7 * 2 ^ s); [nia|]. rewrite <- Z.pow_add_r by lia.
        apply Z.pow_le_mono_r; lia. }
      rewrite lor_shift_add by lia. rewrite Z.shiftr_div_pow2 by lia. change (2 ^ 7) with 128.
      assert (2 ^ (s + 7) = 128 * 2 ^ s) as Hp by (rewrite Z.pow_add_r by lia; lia).
      assert (2 ^ (64 - s) = 128 * 2 ^ (64 - (s + 7))) as Hp2.
      { replace (64 - s) with (64 - (s + 7) + 7) by lia. rewrite Z.pow_add_r by lia. lia. }
      pose proof (Z.div_mod v 128 ltac:(lia)) as Hdm.
      rewrite IH.
      * f_equal. f_equal. rewrite Hp. nia.
      * lia.
      * exists (k + 1). lia.
      * split; [apply Z.div_pos; lia|]. apply Z.div_lt_upper_bound; lia.
      * lia.
      * rewrite Hp. nia.
    + simpl. by apply read_last.
Qed.

(** A varint is read back, whatever follows it. *)
Lemma read_write_variant v out rest :
  in_u64 v → read_variant (drop (length out) (write_variant v out) ++ rest) = Ok (v, rest).
Proof.
  intros Hv. unfold read_variant, write_variant. rewrite drop_app_length.
  assert (0 ≤ v < 2 ^ (64 - 0)) as Hv' by (change (2 ^ (64 - 0)) with (u64_max + 1); destruct Hv; lia).
  rewrite (read_write_loop 10 0 v 0 rest); [|lia|by exists 0|done|done|done].
  rewrite Z.mul_1_r. done.
Qed.

Lemma read_write_loop0 v rest : in_u64 v → read_variant (write_loop 10 v ++ rest) = Ok (v, rest).
Proof. intros Hv. apply (read_write_variant v [] rest Hv). Qed.

Lemma write_loop_bytes fuel v : Forall byte_ok (write_loop fuel v).
Proof.
  revert v. induction fuel as [|fuel IH]; intros v; cbn [write_loop].
  - apply Forall_singleton. unfold byte_ok. apply Z.mod_pos_bound. lia.
  - destruct (128 <=? v).
    + constructor; [|apply IH]. rewrite cont_byte. unfold byte_ok.
      pose proof (Z.mod_pos_bound v 128 ltac:(lia)). lia.
    + apply Forall_singleton. unfold byte_ok. apply Z.mod_pos_bound. lia.
Qed.

(** Reading consumes at least one byte and only from the front. *)
Lemma read_loop_suffix s out src v rest :
  read_loop s out src = Ok (v, rest) → ∃ b bs, src = (b :: bs) ++ rest.
Proof.
  revert s out. induction src as [|b src IH]; intros s out; cbn [read_loop]; [done|].
  destruct (_ =? 0); [intros [= _ <-]; by exists b, []|].
  destruct (64 <=? _); [done|]. intros (b' & bs & ->)%IH. by exists b, (b' :: bs).
Qed.

Lemma read_variant_suffix src v rest :
  read_variant src = Ok (v, rest) → ∃ b bs, src = (b :: bs) ++ rest.
Proof. apply read_loop_suffix. Qed.

(** ** Length-delimited *)
Lemma read_write_len bytes rest :
  Z.of_nat (length bytes) ≤ u64_max →
  read_len_delimited (write_len_delimited bytes [] ++ rest) = Ok (bytes, rest).
Proof.
  intros Hl. unfold read_len_delimited, write_len_delimited, write_variant. rewrite app_nil_l.
  rewrite <- app_assoc, read_write_loop0 by (split; lia). cbn [mbind result_bind].
  destruct (Z.ltb_spec (Z.of_nat (length (bytes ++ rest))) (Z.of_nat (length bytes))) as [Hlt|_].
  - rewrite length_app in Hlt. lia.
  - by rewrite Nat2Z.id, take_app_length, drop_app_length.
Qed.

Lemma read_len_suffix src bytes rest :
  read_len_delimited src = Ok (bytes, rest) → ∃ b pre, src = (b :: pre) ++ bytes ++ rest.
Proof.
  unfold read_len_delimited. intros ([len src1] & Hv & Hr)%bind_Ok.
  destruct (_ <? _); [done|]. injection Hr as <- <-.
  apply read_variant_suffix in Hv as (b & bs & ->). exists b, bs. by rewrite take_drop.
Qed.

(** ** Fixed width *)
Lemma length_le_bytes n v : length (le_bytes n v) = n.
Proof. revert v. induction n as [|n IH]; intros v; simpl; [done|]. by rewrite IH. Qed.

Lemma le_val_bytes n v : 0 ≤ v < 256 ^ Z.of_nat n → le_val (le_bytes n v) = v.
Proof.
  revert v. induction n as [|n IH]; intros v Hv; cbn [le_bytes le_val].
  - change (256 ^ Z.of_nat 0) with 1 in Hv. lia.
  - rewrite Nat2Z.inj_succ, Z.pow_succ_r in Hv by lia. rewrite IH.
    + pose proof (Z.div_mod v 256). lia.
    + split; [apply Z.div_pos; lia|]. apply Z.div_lt_upper_bound; lia.
Qed.

Lemma get_le_bytes n v rest :
  0 ≤ v < 256 ^ Z.of_nat n → get_le n (le_bytes n v ++ rest) = (v, rest).
Proof.
  intros Hv. unfold get_le. rewrite take_app_length', drop_app_length' by (by rewrite length_le_bytes).
  by rewrite le_val_bytes.
Qed.

(** ** ZigZag *)
Lemma as_i64_cong z : ∃ k, as_i64 z = z + k * 2 ^ 64.
Proof.
  unfold as_i64, as_u64. pose proof (Z.div_mod z (2 ^ 64) ltac:(lia)) as Hd.
  destruct (_ <? _); [exists (- (z / 2 ^ 64))|exists (- (z / 2 ^ 64) - 1)]; lia.
Qed.

Lemma as_u64_cong z k : as_u64 (z + k * 2 ^ 64) = as_u64 z.
Proof. unfold as_u64. apply Z_mod_plus_full. Qed.

Lemma lxor_m1 x : Z.lxor x (-1) = - x - 1.
Proof. rewrite Z.lxor_m1_r. unfold Z.lnot. lia. Qed.

(** The usual description: non-negative numbers to even ones, negative ones to
    odd ones. *)
Lemma encode_zigzag64_eq v : in_i64 v → encode_zigzag64 v = if 0 <=? v then 2 * v else - 2 * v - 1.
Proof.
  intros Hv. unfold encode_zigzag64. rewrite Z.shiftl_mul_pow2 by lia. change (2 ^ 1) with 2.
  destruct (as_i64_cong (v * 2)) as [k Hk]. rewrite Hk. destruct (Z.leb_spec 0 v) as [H0|H0].
  - assert (Z.shiftr v 63 = 0) as ->.
    { rewrite Z.shiftr_div_pow2 by lia. apply Z.div_small. unfold in_i64, i64_max in Hv. lia. }
    rewrite Z.lxor_0_r, as_u64_cong, as_u64_small; [lia|]. unfold in_i64, i64_max in Hv. ints_lia.
  - assert (Z.shiftr v 63 = -1) as ->.
    { rewrite Z.shiftr_div_pow2 by lia. unfold in_i64, i64_min in Hv.
      symmetry. apply (Z.div_unique v (2 ^ 63) (-1) (v + 2 ^ 63)); lia. }
    rewrite lxor_m1. replace (- (v * 2 + k * 2 ^ 64) - 1) with (- 2 * v - 1 + (- k) * 2 ^ 64) by lia.
    rewrite as_u64_cong, as_u64_small; [lia|]. unfold in_i64, i64_min in Hv. ints_lia.
Qed.

Lemma decode_zigzag64_eq u :
  in_u64 u → decode_zigzag64 u = if Z.even u then u / 2 else - (u / 2) - 1.
Proof.
  intros Hu. unfold decode_zigzag64. rewrite Z.shiftr_div_pow2 by lia. change (2 ^ 1) with 2.
  assert (0 ≤ u / 2 < 2 ^ 63) as Hlt.
  { unfold in_u64, u64_max in Hu. pose proof (Z.div_mod u 2 ltac:(lia)) as Hd.
    pose proof (Z.mod_pos_bound u 2 ltac:(lia)). split; lia. }
  rewrite as_i64_small by (unfold in_i64, i64_min, i64_max; lia).
  assert (Z.land u 1 = u mod 2) as -> by (change 1 with (Z.ones 1); by rewrite Z.land_ones).
  rewrite Zmod_even. destruct (Z.even u); [by rewrite Z.lxor_0_r|]. apply lxor_m1.
Qed.

Lemma zigzag_decode_encode v : in_i64 v → decode_zigzag64 (encode_zigzag64 v) = v.
Proof.
  intros Hv. assert (in_u64 (encode_zigzag64 v)) as Hr by apply as_u64_range.
  rewrite decode_zigzag64_eq by done. rewrite encode_zigzag64_eq by done.
  destruct (Z.leb_spec 0 v).
  - rewrite Z.even_mul. simpl. rewrite (Z.mul_comm 2 v). by rewrite Z.div_mul.
  - replace (-2 * v - 1) with (1 + (- v - 1) * 2) by lia.
    assert (Z.even (1 + (- v - 1) * 2) = false) as ->.
    { rewrite Z.even_add, Z.even_mul. simpl. by rewrite orb_true_r. }
    rewrite Z.div_add by lia. change (1 / 2) with 0. lia.
Qed.

Lemma zigzag_encode_decode u :
  in_u64 u → in_i64 (decode_zigzag64 u) ∧ encode_zigzag64 (decode_zigzag64 u) = u.
Proof.
  intros Hu. rewrite decode_zigzag64_eq by done. pose proof (Z.div_mod u 2 ltac:(lia)) as Hd.
  pose proof (Zmod_even u) as He. unfold in_u64, u64_max in Hu.
  destruct (Z.even u).
  - assert (in_i64 (u / 2)) as Hi by (unfold in_i64, i64_min, i64_max; lia).
    split; [done|]. rewrite encode_zigzag64_eq by done. destruct (Z.leb_spec 0 (u / 2)); lia.
  - assert (in_i64 (- (u / 2) - 1)) as Hi by (unfold in_i64, i64_min, i64_max; lia).
    split; [done|]. rewrite encode_zigzag64_eq by done. destruct (Z.leb_spec 0 (- (u / 2) - 1)); lia.
Qed.

(** ** Tags *)
Lemma tag_of_eq n w : 0 ≤ n < 2 ^ 32 → tag_of n w = 8 * n + wire_type_code w.
Proof.
  intros Hn. unfold tag_of. rewrite as_u64_small.
  - rewrite Z.lor_comm, lor_shift_add by (destruct w; simpl; lia). destruct w; simpl; lia.
  - rewrite Z.shiftl_mul_pow2 by lia. ints_lia.
Qed.

Lemma tag_split n w :
  0 ≤ n < 2 ^ 32 →
  in_u64 (tag_of n w) ∧ as_u32 (Z.shiftr (tag_of n w) 3) = n ∧
  wire_type_of (as_u8 (Z.land (tag_of n w) 7)) = Ok w.
Proof.
  intros Hn. rewrite tag_of_eq by done. split_and!.
  - destruct w; simpl; ints_lia.
  - rewrite Z.shiftr_div_pow2 by lia. change (2 ^ 3) with 8.
    assert ((8 * n + wire_type_code w) / 8 = n) as ->.
    { symmetry. apply (Z.div_unique _ 8 n (wire_type_code w)); destruct w; simpl; lia. }
    by apply as_u32_small.
  - assert (Z.land (8 * n + wire_type_code w) 7 = wire_type_code w) as ->.
    { change 7 with (Z.ones 3). rewrite Z.land_ones by lia. change (2 ^ 3) with 8.
      symmetry. apply (Z.mod_unique _ 8 n); destruct w; simpl; lia. }
    by destruct w.
Qed.

(** ** Properties *)

(** Varints, tags and length-delimited bytes are read back as written and
    nothing after them is consumed, for every 64-bit value, field number and
    byte string, and ZigZag is a bijection between the signed and the unsigned
    64-bit integers. *)
Theorem primitives_roundtrip v n w bytes i rest :
  in_u64 v → 0 ≤ n < 2 ^ 32 → Z.of_nat (length bytes) ≤ u64_max → in_i64 i →
  read_variant (write_variant v [] ++ rest) = Ok (v, rest) ∧
  (∃ t, read_variant (write_tag n w [] ++ rest) = Ok (t, rest) ∧
     as_u32 (Z.shiftr t 3) = n ∧ wire_type_of (as_u8 (Z.land t 7)) = Ok w) ∧
  read_len_delimited (write_len_delimited bytes [] ++ rest) = Ok (bytes, rest) ∧
  decode_zigzag64 (encode_zigzag64 i) = i ∧ encode_zigzag64 (decode_zigzag64 v) = v.
Proof.
  intros Hv Hn Hb Hi. destruct (tag_split n w Hn) as (Ht & Htn & Htw). split_and!.
  - by apply (read_write_variant v []).
  - exists (tag_of n w). split_and!; [by apply (read_write_variant (tag_of n w) [])|done|done].
  - by apply read_write_len.
  - by apply zigzag_decode_encode.
  - by apply zigzag_encode_decode.
Qed.

(** Skipping an unknown field consumes at least one byte and removes a
    prefix, so that every decoding loop terminates within as many rounds as
    there are bytes. *)
Theorem skip_value_progress w src rest :
  skip_value w src = Ok rest → ∃ b pre, src = (b :: pre) ++ rest.
Proof.
  assert (∀ n, (0 < n ≤ length src)%nat → ∃ b pre, src = (b :: pre) ++ drop n src) as Hdrop.
  { intros n Hn. destruct src as [|b src]; simpl in Hn; [lia|]. destruct n as [|n]; [lia|].
    exists b, (take n src). simpl. by rewrite take_drop. }
  destruct w; cbn [skip_value].
  - intros ([v r] & Hv & [= <-])%bind_Ok. by eapply read_variant_suffix.
  - destruct (Nat.ltb_spec (length src) 8); [done|]. intros [= <-]. apply Hdrop. lia.
  - intros ([bs r] & Hv & [= <-])%bind_Ok. apply read_len_suffix in Hv as (b & pre & ->).
    exists b, (pre ++ bs). simpl. by rewrite <- app_assoc.
  - destruct (Nat.ltb_spec (length src) 4); [done|]. intros [= <-]. apply Hdrop. lia.
Qed.

(** ** Witnesses *)
Lemma primitives_roundtrip_witness :
  read_variant (write_variant 300 [] ++ [7]) = Ok (300, [7]) ∧ decode_zigzag64 (encode_zigzag64 (-3)) = -3.
Proof.
  destruct (primitives_roundtrip 300 5 Len [1; 2] (-3) [7]) as (H1 & _ & _ & H4 & _);
    [by split|by split|by vm_compute|by split|]. split; [exact H1|exact H4].
Defined.

Lemma skip_value_progress_witness : ∃ b pre, [2; 9; 9; 1] = (b :: pre) ++ [1].
Proof. apply (skip_value_progress Len [2; 9; 9; 1] [1]). reflexivity. Defined.
