(* ===== verification/Coerce.v ===== *)
(** * Coercions of dynamic values to wire types (wrkr-grpc/src/wire/coerce.rs)

    With the pieces of the standard library they call: [str::from_utf8],
    [parse::<i64>] and the [Display] of an [f64] (the shortest decimal that
    reads back as the same number). *)
From Stdlib Require Import Ascii SpecFloat.
From S2P Require Import Prelude F64 Text Value.

Local Open Scope Z_scope.

(** ** Strings and bytes *)
Fixpoint as_bytes (s : string) : list Z :=
  match s with EmptyString => [] | String c s => Z.of_N (N_of_ascii c) :: as_bytes s end.
Fixpoint of_bytes (b : list Z) : string :=
  match b with [] => EmptyString | x :: b => String (ascii_of_N (Z.to_N x)) (of_bytes b) end.

Definition cont (b : Z) : bool := (0x80 <=? b) && (b <=? 0xBF).

(** Well-formed UTF-8: the table of byte sequences of the Unicode standard. *)
Fixpoint utf8_valid (l : list Z) : bool :=
  match l with
  | [] => true
  | b0 :: l =>
      if b0 <? 0x80 then utf8_valid l
      else match l with
      | [] => false
      | b1 :: l =>
          if (0xC2 <=? b0) && (b0 <=? 0xDF) && cont b1 then utf8_valid l
          else match l with
          | [] => false
          | b2 :: l =>
              if ((b0 =? 0xE0) && (0xA0 <=? b1) && (b1 <=? 0xBF)
                  || (0xE1 <=? b0) && (b0 <=? 0xEC) && cont b1
                  || (b0 =? 0xED) && (0x80 <=? b1) && (b1 <=? 0x9F)
                  || (0xEE <=? b0) && (b0 <=? 0xEF) && cont b1) && cont b2 then utf8_valid l
              else match l with
              | [] => false
              | b3 :: l =>
                  if ((b0 =? 0xF0) && (0x90 <=? b1) && (b1 <=? 0xBF)
                      || (0xF1 <=? b0) && (b0 <=? 0xF3) && cont b1
                      || (b0 =? 0xF4) && (0x80 <=? b1) && (b1 <=? 0x8F)) && cont b2 && cont b3
                  then utf8_valid l else false
              end
          end
      end
  end.

Definition from_utf8 (b : list Z) : option string :=
  if utf8_valid b then Some (of_bytes b) else None.

(** [parse::<i64>]: an optional sign and at least one digit. *)
Definition parse_i64 (s : string) : option Z :=
  let '(neg, body) := match s with
                      | String "-" r => (true, r)
                      | String "+" r => (false, r)
                      | _ => (false, s)
                      end in
  if decide (body = EmptyString) then None
  else
    v ← digits_val 0 body;
    let v := if neg : bool then - v else v in
    if (i64_min <=? v) && (v <=? i64_max) then Some v else None.

Definition show_Z (z : Z) : string := if z <? 0 then String "-" (show (- z)) else show z.

(** ** [Display] of an [f64] *)

(** The first power [p], from the greatest down, at which a multiple of [10^p]
    next to [m * 2^e] rounds to it; the closer of two. *)
Fixpoint shortest_loop (fuel : nat) (p : Z) (m : positive) (e : Z) : Z * Z :=
  match fuel with
  | O => (0, 0)
  | S fuel =>
      let num := Zpos m * 2 ^ Z.max e 0 * 10 ^ Z.max (- p) 0 in
      let den := 2 ^ Z.max (- e) 0 * 10 ^ Z.max p 0 in
      let c := num / den in
      let r := num mod den in
      let reads d := f64_to_bits (of_decimal false d p) =? f64_to_bits (S754_finite false m e) in
      let near := if 2 * r <=? den then c else c + 1 in
      let far := if 2 * r <=? den then c + 1 else c in
      if reads near then (near, p) else if reads far then (far, p)
      else shortest_loop fuel (p - 1) m e
  end.

Fixpoint zeros (n : nat) : string :=
  match n with O => EmptyString | S n => String "0" (zeros n) end.

Definition show_f64 (f : f64) : string :=
  match f with
  | S754_nan => "NaN"
  | S754_infinity s => if s then "-inf" else "inf"
  | S754_zero s => if s then "-0" else "0"
  | S754_finite s m e =>
      let '(d, p) := shortest_loop 640 309 m e in
      let ds := show d in
      let body :=
        if (0 <=? p)%Z then ds ++ zeros (Z.to_nat p)
        else
          let k := (Z.of_nat (len ds) + p)%Z in
          if (k <=? 0)%Z then "0." ++ zeros (Z.to_nat (- k)) ++ ds
          else take_bytes (Z.to_nat k) ds ++ "." ++ drop_bytes (Z.to_nat k) ds in
      if s then "-" ++ body else body
  end%string.

(** ** The coercions *)
Definition to_bool (value : Value) : bool :=
  match value with
  | VBool b => b
  | VString s => bool_decide (s = "true"%string) || bool_decide (s = "1"%string)
  | VI64 i => negb (i =? 0)
  | VU64 u => negb (u =? 0)
  | _ => false
  end.

Definition map_key_to_i64 (key : MapKey) : result string Z :=
  match key with
  | KeyI64 i => Ok i
  | KeyU64 u => Ok (as_i64 u)
  | KeyString s => ok_or (parse_i64 s) "invalid int64 string"%string
  | _ => Err "invalid integer map key"%string
  end.

Definition map_key_to_u64 (key : MapKey) : result string Z :=
  match key with
  | KeyU64 u => Ok u
  | KeyI64 i => if 0 <=? i then Ok (as_u64 i) else Err "invalid unsigned integer map key"%string
  | KeyString s => ok_or (parse_uint u64_max s) "invalid uint64 string"%string
  | _ => Err "invalid unsigned integer map key"%string
  end.

Definition to_string_lossy (value : Value) : string :=
  match value with
  | VString s => s
  | VI64 i => show_Z i
  | VU64 u => show u
  | VF64 f => show_f64 (f64_from_bits f)
  | VBool b => if b then "true" else "false"
  | _ => EmptyString
  end.

Definition to_bytes_lossy (value : Value) : list Z :=
  match value with
  | VBytes b => b
  | VString s => as_bytes s
  | _ => []
  end.

Definition to_i64 (value : Value) : result string Z :=
  match value with
  | VI64 i => Ok i
  | VU64 u => Ok (as_i64 u)
  | VF64 f => Ok (F64.to_i64 (f64_from_bits f))
  | VString s => ok_or (parse_i64 s) "invalid int64 string"%string
  | _ => Err "invalid integer"%string
  end.

Definition to_u64 (value : Value) : result string Z :=
  match value with
  | VU64 u => Ok u
  | VI64 i => Ok (as_u64 i)
  | VF64 f => Ok (F64.to_u64 (f64_from_bits f))
  | VString s => ok_or (parse_uint u64_max s) "invalid uint64 string"%string
  | _ => Err "invalid integer"%string
  end.

(** The bits of the [f64]. *)
Definition to_f64 (value : Value) : result string Z :=
  match value with
  | VF64 f => Ok f
  | VI64 i => Ok (f64_to_bits (of_Z i))
  | VU64 u => Ok (f64_to_bits (of_Z u))
  | VString s => f64_to_bits <$> ok_or (parse_f64 s) "invalid float string"%string
  | _ => Err "invalid float"%string
  end.

(** ** Checks against known values *)
Example show_01 : show_f64 (of_decimal false 1 (-1)) = "0.1"%string.
Proof. vm_compute. reflexivity. Qed.
Example show_1e21 : show_f64 (of_decimal true 1 21) = "-1000000000000000000000"%string.
Proof. vm_compute. reflexivity. Qed.
Example show_third : show_f64 (fdiv (of_Z 1) (of_Z 3)) = "0.3333333333333333"%string.
Proof. vm_compute. reflexivity. Qed.
Example show_123 : show_f64 (of_decimal false 12345 (-2)) = "123.45"%string.
Proof. vm_compute. reflexivity. Qed.

(** ** Lemmas *)
Lemma ascii_bytes s : Forall (λ b, 0 ≤ b < 256) (as_bytes s).
Proof.
  induction s as [|c s IH]; constructor; [|done]. pose proof (N_ascii_bounded c). lia.
Qed.

Lemma of_as_bytes s : of_bytes (as_bytes s) = s.
Proof.
  induction s as [|c s IH]; simpl; [done|]. by rewrite N2Z.id, ascii_N_embedding, IH.
Qed.

Lemma from_utf8_str s : utf8_valid (as_bytes s) = true → from_utf8 (as_bytes s) = Some s.
Proof. intros Hs. unfold from_utf8. by rewrite Hs, of_as_bytes. Qed.
