(* ===== verification/Codec.v ===== *)
(** * The dynamic protobuf codec (wrkr-grpc/src/wire, proto.rs)

    Encoding walks the value, decoding walks the bytes; both are driven by the
    metadata [proto.rs] builds for the messages of a method, which is a finite
    tree.  Enum descriptors belong to a third-party library: [EnumDescriptor]
    is a class of what the codec asks of one. *)
From S2P Require Import Prelude F64 Text Value Wire Coerce.

Local Open Scope Z_scope.

(** What the codec asks of [prost_reflect::EnumDescriptor]: the name of a
    number and the number of a name. *)
Class EnumDescriptor (E : Type) := {
  get_value : E → Z → option string;
  get_value_by_name : E → string → option Z
}.

(** [prost_reflect::Kind], as far as the codec looks into it: the kinds no map
    key can have carry the text of their [Debug] form. *)
Inductive Kind :=
  | PString | PBool | PInt32 | PSint32 | PSfixed32 | PInt64 | PSint64 | PSfixed64
  | PUint32 | PFixed32 | PUint64 | PFixed64
  | POther (debug : string).

Section proto.
Context {E : Type}.

Inductive GrpcValueKind :=
  | KBool | KString | KBytes
  | KInt32 | KSint32 | KSfixed32
  | KInt64 | KSint64 | KSfixed64
  | KUint32 | KFixed32
  | KUint64 | KFixed64
  | KFloat | KDouble
  | KEnum (enum_desc : E)
  | KMessage (meta : GrpcMessageMeta)
with GrpcMessageMeta :=
  | MkMeta (fields_by_name : list (string * GrpcInputFieldMeta))
           (fields_by_number : list (Z * (string * GrpcFieldShape)))
with GrpcInputFieldMeta :=
  | MkField (name : string) (number : Z) (shape : GrpcFieldShape)
with GrpcFieldShape :=
  | FScalar (kind : GrpcValueKind)
  | FList (kind : GrpcValueKind)
  | FMap (key_kind : Kind) (value_kind : GrpcValueKind).

Definition fields_by_name (m : GrpcMessageMeta) : list (string * GrpcInputFieldMeta) :=
  match m with MkMeta n _ => n end.
Definition fields_by_number (m : GrpcMessageMeta) : list (Z * (string * GrpcFieldShape)) :=
  match m with MkMeta _ n => n end.

(** [GrpcMethod], its path left out. *)
Record GrpcOutputFieldMeta := {
  out_number : Z;
  out_name : string;
  out_shape : GrpcFieldShape
}.
Record GrpcMethod := {
  input_fields : list (string * GrpcInputFieldMeta);
  output_fields : list GrpcOutputFieldMeta;
  output_field_index_by_number : list (Z * nat)
}.

Definition wire_type_for_kind (kind : GrpcValueKind) : WireType :=
  match kind with
  | KBool | KInt32 | KSint32 | KInt64 | KSint64 | KUint32 | KUint64 | KEnum _ => Varint
  | KFixed32 | KSfixed32 | KFloat => ThirtyTwoBit
  | KFixed64 | KSfixed64 | KDouble => SixtyFourBit
  | KString | KBytes | KMessage _ => Len
  end.

(** ** Packed values (packed.rs) *)
Definition kind_is_packable (kind : GrpcValueKind) : bool :=
  match kind with
  | KBool | KInt32 | KSint32 | KSfixed32 | KInt64 | KSint64 | KSfixed64
  | KUint32 | KFixed32 | KUint64 | KFixed64 | KFloat | KDouble | KEnum _ => true
  | _ => false
  end.

(** [while bytes.has_remaining() { out.push(read(..)?) }]; every [read] takes at
    least a byte, so that [length bytes] rounds are enough. *)
Fixpoint packed_loop (fuel : nat) (read : list Z → result string (Value * list Z))
    (bytes : list Z) (out : list Value) : result string (list Value) :=
  match bytes, fuel with
  | [], _ => Ok out
  | _, O => Err "out of fuel"%string
  | _, S fuel => '(v, rest) ← read bytes; packed_loop fuel read rest (out ++ [v])
  end.

(** Read a varint, or [n] bytes, and convert it. *)
Definition read_varint_as (f : Z → Value) (src : list Z) : result string (Value * list Z) :=
  '(n, src) ← read_variant src; Ok (f n, src).
Definition read_fixed_as (n : nat) (f : Z → Value) (eof : string) (src : list Z)
    : result string (Value * list Z) :=
  if (length src <? n)%nat then Err eof
  else let '(v, src) := get_le n src in Ok (f v, src).

Definition as_i32_value (n : Z) : Value := VI64 (as_i32 n).
Definition as_i64_value_of (n : Z) : Value := VI64 (as_i64 n).
Definition as_bool_value (n : Z) : Value := VBool (negb (n =? 0)).
Definition as_zigzag_value (n : Z) : Value := VI64 (decode_zigzag64 n).
Definition as_f32_value (n : Z) : Value := VF64 (f64_to_bits (f64_from_f32_bits n)).

Definition decode_packed_values (kind : GrpcValueKind) (bytes : list Z)
    : result string (list Value) :=
  let loop read := packed_loop (length bytes) read bytes [] in
  match kind with
  | KBool => loop (read_varint_as as_bool_value)
  | KInt32 | KInt64 | KEnum _ => loop (read_varint_as as_i64_value_of)
  | KSint32 | KSint64 => loop (read_varint_as as_zigzag_value)
  | KUint32 | KUint64 => loop (read_varint_as VU64)
  | KFixed32 => loop (read_fixed_as 4 VU64 "unexpected EOF reading packed fixed32")
  | KSfixed32 => loop (read_fixed_as 4 as_i32_value "unexpected EOF reading packed sfixed32")
  | KFloat => loop (read_fixed_as 4 as_f32_value "unexpected EOF reading packed float")
  | KFixed64 => loop (read_fixed_as 8 VU64 "unexpected EOF reading packed fixed64")
  | KSfixed64 => loop (read_fixed_as 8 as_i64_value_of "unexpected EOF reading packed sfixed64")
  | KDouble => loop (read_fixed_as 8 VF64 "unexpected EOF reading packed double")
  | KString | KBytes | KMessage _ =>
      Err "packed encoding is not valid for this field type"%string
  end.

Context `{EnumDescriptor E}.

(** ** Decoding (scalar.rs, map.rs, decode.rs)

    [decode_message_for_meta] and [decode_scalar_value] call each other:
    [rec] is the former. *)
Section decode.
Variable rec : GrpcMessageMeta → list Z → result string Value.

Definition expect_wire (want got : WireType) (msg : string) : result string () :=
  if decide (got = want) then Ok () else Err msg.

Definition decode_scalar_value (kind : GrpcValueKind) (wire_type : WireType) (src : list Z)
    : result string (Value * list Z) :=
  match kind with
  | KBool =>
      _ ← expect_wire Varint wire_type "bool field must be varint";
      read_varint_as as_bool_value src
  | KString =>
      _ ← expect_wire Len wire_type "string field must be length-delimited";
      '(b, src) ← read_len_delimited src;
      Ok (VString (default EmptyString (from_utf8 b)), src)
  | KBytes =>
      _ ← expect_wire Len wire_type "bytes field must be length-delimited";
      '(b, src) ← read_len_delimited src;
      Ok (VBytes b, src)
  | KInt32 | KInt64 =>
      _ ← expect_wire Varint wire_type "int field must be varint";
      read_varint_as as_i64_value_of src
  | KUint32 | KUint64 =>
      _ ← expect_wire Varint wire_type "uint field must be varint";
      read_varint_as VU64 src
  | KSint32 | KSint64 =>
      _ ← expect_wire Varint wire_type "sint field must be varint";
      read_varint_as as_zigzag_value src
  | KFixed32 =>
      _ ← expect_wire ThirtyTwoBit wire_type "fixed32 field must be 32-bit";
      read_fixed_as 4 VU64 "unexpected EOF reading fixed32" src
  | KSfixed32 =>
      _ ← expect_wire ThirtyTwoBit wire_type "sfixed32 field must be 32-bit";
      read_fixed_as 4 as_i32_value "unexpected EOF reading sfixed32" src
  | KFloat =>
      _ ← expect_wire ThirtyTwoBit wire_type "float field must be 32-bit";
      read_fixed_as 4 as_f32_value "unexpected EOF reading float" src
  | KFixed64 =>
      _ ← expect_wire SixtyFourBit wire_type "fixed64 field must be 64-bit";
      read_fixed_as 8 VU64 "unexpected EOF reading fixed64" src
  | KSfixed64 =>
      _ ← expect_wire SixtyFourBit wire_type "sfixed64 field must be 64-bit";
      read_fixed_as 8 as_i64_value_of "unexpected EOF reading sfixed64" src
  | KDouble =>
      _ ← expect_wire SixtyFourBit wire_type "double field must be 64-bit";
      read_fixed_as 8 VF64 "unexpected EOF reading double" src
  | KEnum enum_desc =>
      _ ← expect_wire Varint wire_type "enum field must be varint";
      '(n, src) ← read_variant src;
      let n := as_i32 n in
      Ok (match get_value enum_desc n with Some name => VString name | None => VI64 n end, src)
  | KMessage meta =>
      _ ← expect_wire Len wire_type "message field must be length-delimited";
      '(b, src) ← read_len_delimited src;
      v ← rec meta b; Ok (v, src)
  end.

Definition decode_map_key (kind : Kind) (wire_type : WireType) (src : list Z)
    : result string (MapKey * list Z) :=
  match kind with
  | PString =>
      _ ← expect_wire Len wire_type "map key (string) must be length-delimited";
      '(b, src) ← read_len_delimited src;
      s ← ok_or (from_utf8 b) "invalid utf-8 map key"%string;
      Ok (KeyString s, src)
  | PBool =>
      _ ← expect_wire Varint wire_type "map key (bool) must be varint";
      '(n, src) ← read_variant src; Ok (KeyBool (negb (n =? 0)), src)
  | PInt32 | PSint32 | PSfixed32 =>
      _ ← expect_wire Varint wire_type "map key (int32) must be varint";
      '(n, src) ← read_variant src; Ok (KeyI64 (as_i64 n), src)
  | PInt64 | PSint64 | PSfixed64 =>
      _ ← expect_wire Varint wire_type "map key (int64) must be varint";
      '(n, src) ← read_variant src; Ok (KeyI64 (as_i64 n), src)
  | PUint32 | PFixed32 =>
      _ ← expect_wire Varint wire_type "map key (uint32) must be varint";
      '(n, src) ← read_variant src; Ok (KeyU64 n, src)
  | PUint64 | PFixed64 =>
      _ ← expect_wire Varint wire_type "map key (uint64) must be varint";
      '(n, src) ← read_variant src; Ok (KeyU64 n, src)
  | POther debug => Err ("unsupported map key type for proto kind " ++ debug)%string
  end.

(** A tag: the field's number and its wire type. *)
Definition read_tag (src : list Z) : result string ((Z * WireType) * list Z) :=
  '(tag, src) ← read_variant src;
  if tag =? 0 then Err "invalid protobuf tag 0"%string
  else
    wire_type ← wire_type_of (as_u8 (Z.land tag 7));
    Ok ((as_u32 (Z.shiftr tag 3), wire_type), src).

Fixpoint map_entry_loop (fuel : nat) (key_kind : Kind) (value_kind : GrpcValueKind)
    (bytes : list Z) (key : option MapKey) (value : option Value)
    : result string (option MapKey * option Value) :=
  match bytes, fuel with
  | [], _ => Ok (key, value)
  | _, O => Err "out of fuel"%string
  | _, S fuel =>
      '((field_number, wire_type), bytes) ← read_tag bytes;
      if field_number =? 1 then
        '(k, bytes) ← decode_map_key key_kind wire_type bytes;
        map_entry_loop fuel key_kind value_kind bytes (Some k) value
      else if field_number =? 2 then
        '(v, bytes) ← decode_scalar_value value_kind wire_type bytes;
        map_entry_loop fuel key_kind value_kind bytes key (Some v)
      else
        bytes ← skip_value wire_type bytes;
        map_entry_loop fuel key_kind value_kind bytes key value
  end.

Definition decode_map_entry (key_kind : Kind) (value_kind : GrpcValueKind) (bytes : list Z)
    : result string (MapKey * Value) :=
  '(key, value) ← map_entry_loop (length bytes) key_kind value_kind bytes None None;
  k ← ok_or key "map entry missing key"%string;
  v ← ok_or value "map entry missing value"%string;
  Ok (k, v).

Definition decode_map_entry_into_object (out : list (string * Value)) (name : string)
    (key_kind : Kind) (value_kind : GrpcValueKind) (wire_type : WireType) (src : list Z)
    : result string (list (string * Value) * list Z) :=
  _ ← expect_wire Len wire_type "map field must be length-delimited";
  '(bytes, src) ← read_len_delimited src;
  '(k, v) ← decode_map_entry key_kind value_kind bytes;
  match map_get name out with
  | Some (VMap existing) => Ok (map_insert name (VMap (map_insert k v existing)) out, src)
  | _ => Ok (map_insert name (VMap [(k, v)]) out, src)
  end.

Definition decode_list (kind : GrpcValueKind) (wire_type : WireType) (src : list Z)
    : result string (Value * list Z) :=
  if decide (wire_type = Len) then
    if kind_is_packable kind then
      '(bytes, src) ← read_len_delimited src;
      items ← decode_packed_values kind bytes;
      Ok (VArray items, src)
    else '(v, src) ← decode_scalar_value kind wire_type src; Ok (VArray [v], src)
  else '(v, src) ← decode_scalar_value kind wire_type src; Ok (VArray [v], src).

Definition decode_field_value (shape : GrpcFieldShape) (wire_type : WireType) (src : list Z)
    : result string (Value * list Z) :=
  match shape with
  | FScalar kind => decode_scalar_value kind wire_type src
  | FList kind => decode_list kind wire_type src
  | FMap _ _ => Err "map fields are decoded via map-entry path"%string
  end.

Definition merge_decoded_field (out : list (string * Value)) (name : string)
    (shape : GrpcFieldShape) (v : Value) : result string (list (string * Value)) :=
  match shape with
  | FScalar _ => Ok (map_insert name v out)
  | FList _ =>
      let items := match v with VArray items => items | other => [other] end in
      Ok (match map_get name out with
          | None => map_insert name (VArray items) out
          | Some (VArray existing) => map_insert name (VArray (existing ++ items)) out
          | Some prev => map_insert name (VArray (prev :: items)) out
          end)
  | FMap _ _ =>
      match v with
      | VMap new_map =>
          Ok (match map_get name out with
              | Some (VMap existing) =>
                  map_insert name
                    (VMap (foldl (λ m '(k, v), map_insert k v m) existing new_map)) out
              | _ => map_insert name (VMap new_map) out
              end)
      | _ => Err "decoded map field was not a map"%string
      end
  end.

(** The loop of [decode_message_for_meta] and [decode_message_for_method]:
    [lookup] finds the name and the shape of a field number. *)
Fixpoint message_loop (fuel : nat) (lookup : Z → option (string * GrpcFieldShape))
    (src : list Z) (out : list (string * Value)) : result string Value :=
  match src, fuel with
  | [], _ => Ok (VObject out)
  | _, O => Err "out of fuel"%string
  | _, S fuel =>
      '((field_number, wire_type), src) ← read_tag src;
      match lookup field_number with
      | None => src ← skip_value wire_type src; message_loop fuel lookup src out
      | Some (name, FMap key_kind value_kind) =>
          '(out, src) ← decode_map_entry_into_object out name key_kind value_kind wire_type src;
          message_loop fuel lookup src out
      | Some (name, shape) =>
          '(v, src) ← decode_field_value shape wire_type src;
          out ← merge_decoded_field out name shape v;
          message_loop fuel lookup src out
      end
  end.
End decode.

(** An embedded message is shorter than the field that holds it: as many levels
    as there are bytes are enough. *)
Definition meta_lookup (meta : GrpcMessageMeta) (n : Z) : option (string * GrpcFieldShape) :=
  map_get n (fields_by_number meta).

Fixpoint decode_level (fuel : nat) (meta : GrpcMessageMeta) (bytes : list Z)
    : result string Value :=
  match fuel with
  | O => Err "out of fuel"%string
  | S fuel => message_loop (decode_level fuel) (length bytes) (meta_lookup meta) bytes []
  end.
Definition decode_message_for_meta (meta : GrpcMessageMeta) (bytes : list Z)
    : result string Value := decode_level (S (length bytes)) meta bytes.

(** [&fields[idx]] panics out of range, which the construction of a method
    excludes; here such a field is unknown. *)
Definition method_lookup (method : GrpcMethod) (n : Z) : option (string * GrpcFieldShape) :=
  idx ← map_get n (output_field_index_by_number method);
  meta ← output_fields method !! (idx : nat);
  Some (out_name meta, out_shape meta).
Definition decode_message_for_method (method : GrpcMethod) (bytes : list Z)
    : result string Value :=
  message_loop decode_message_for_meta (length bytes) (method_lookup method) bytes [].

(** ** Encoding (scalar.rs, map.rs, encode.rs) *)

Definition encode_map_key (kind : Kind) (key : MapKey) (out : list Z) : result string (list Z) :=
  match kind with
  | PString =>
      match key with
      | KeyString s => Ok (write_len_delimited (as_bytes s) (write_tag 1 Len out))
      | _ => Err "map key must be a string"%string
      end
  | PBool =>
      match key with
      | KeyBool b => Ok (write_variant (if b then 1 else 0) (write_tag 1 Varint out))
      | _ => Err "map key must be boolean"%string
      end
  | PInt32 | PSint32 | PSfixed32 | PInt64 | PSint64 | PSfixed64 =>
      n ← map_key_to_i64 key; Ok (write_variant (as_u64 n) (write_tag 1 Varint out))
  | PUint32 | PFixed32 | PUint64 | PFixed64 =>
      n ← map_key_to_u64 key; Ok (write_variant n (write_tag 1 Varint out))
  | POther debug => Err ("unsupported map key type for proto kind " ++ debug)%string
  end.

(** [for x in l { out = f(x, out)? }]. *)
Fixpoint try_fold {A B} (f : A → B → result string A) (l : list B) (a : A) : result string A :=
  match l with
  | [] => Ok a
  | x :: l => a ← f a x; try_fold f l a
  end.

Section encode.
(** [rec value field_number kind out] is [encode_scalar_field]. *)
Variable rec : Value → Z → GrpcValueKind → list Z → result string (list Z).

Definition encode_map_entry (field_number : Z) (key_kind : Kind) (value_kind : GrpcValueKind)
    (key : MapKey) (value : Value) (out : list Z) : result string (list Z) :=
  entry ← encode_map_key key_kind key [];
  entry ← rec value 2 value_kind entry;
  Ok (write_len_delimited entry (write_tag field_number Len out)).

Definition encode_field (field : GrpcInputFieldMeta) (value : Value) (out : list Z)
    : result string (list Z) :=
  let '(MkField name field_number shape) := field in
  if field_number =? 0 then Err ("invalid field number for '" ++ name ++ "'")%string
  else
    match shape with
    | FScalar kind => rec value field_number kind out
    | FList kind =>
        match value with
        | VArray items => try_fold (λ out item, rec item field_number kind out) items out
        | _ => Err ("field '" ++ name ++ "' must be an array")%string
        end
    | FMap key_kind value_kind =>
        match value with
        | VObject m =>
            try_fold (λ out '(k, v),
              encode_map_entry field_number key_kind value_kind (KeyString k) v out) m out
        | VMap m =>
            try_fold (λ out '(k, v),
              encode_map_entry field_number key_kind value_kind k v out) m out
        | _ => Err ("field '" ++ name ++ "' must be a map/object")%string
        end
    end.

Definition encode_message (fields_by_name : list (string * GrpcInputFieldMeta)) (value : Value)
    (out : list Z) : result string (list Z) :=
  let field name v out :=
    match map_get name fields_by_name with
    | None => Err ("unknown field '" ++ name ++ "'")%string
    | Some meta => encode_field meta v out
    end in
  match value with
  | VObject m => try_fold (λ out '(name, v), field name v out) m out
  | VMap m =>
      try_fold (λ out '(k, v),
        match k with
        | KeyString name => field name v out
        | _ => Err "message expects string field names"%string
        end) m out
  | _ => Err "message must be an object"%string
  end.

(** The number an enum field is encoded from. *)
Definition enum_number (enum_desc : E) (value : Value) : Z :=
  match value with
  | VString s => default 0 (get_value_by_name enum_desc s)
  | VI64 i => i
  | VU64 u => as_i64 u
  | _ => 0
  end.

Definition encode_scalar_value (value : Value) (kind : GrpcValueKind) (out : list Z)
    : result string (list Z) :=
  match kind with
  | KBool => Ok (write_variant (if to_bool value then 1 else 0) out)
  | KString => Ok (write_len_delimited (as_bytes (to_string_lossy value)) out)
  | KBytes => Ok (write_len_delimited (to_bytes_lossy value) out)
  | KInt32 | KInt64 => n ← to_i64 value; Ok (write_variant (as_u64 n) out)
  | KUint32 | KUint64 => n ← to_u64 value; Ok (write_variant n out)
  | KSint32 | KSint64 => n ← to_i64 value; Ok (write_variant (encode_zigzag64 n) out)
  | KFixed32 => n ← to_u64 value; Ok (out ++ le_bytes 4 (as_u32 n))
  | KSfixed32 => n ← to_i64 value; Ok (out ++ le_bytes 4 (as_u32 n))
  | KFloat => f ← to_f64 value; Ok (out ++ le_bytes 4 (f32_bits_of_f64 (f64_from_bits f)))
  | KFixed64 => n ← to_u64 value; Ok (out ++ le_bytes 8 n)
  | KSfixed64 => n ← to_i64 value; Ok (out ++ le_bytes 8 (as_u64 n))
  | KDouble => f ← to_f64 value; Ok (out ++ le_bytes 8 f)
  | KEnum enum_desc => Ok (write_variant (as_u64 (enum_number enum_desc value)) out)
  | KMessage meta =>
      buf ← encode_message (fields_by_name meta) value [];
      Ok (write_len_delimited buf out)
  end.
End encode.

Fixpoint encode_scalar_field (value : Value) (field_number : Z) (kind : GrpcValueKind)
    (out : list Z) {struct value} : result string (list Z) :=
  encode_scalar_value encode_scalar_field value kind
    (write_tag field_number (wire_type_for_kind kind) out).

Definition encode_value_for_method (method : GrpcMethod) (value : Value)
    : result string (list Z) := encode_message encode_scalar_field (input_fields method) value [].
Definition decode_value_for_method (method : GrpcMethod) (bytes : list Z)
    : result string Value := decode_message_for_method method bytes.
End proto.
