(* ===== verification/CodecLemmas.v ===== *)
(** * The decoder terminates: lemmas for Codec.v

    The loops of the decoder carry fuel.  Two runs whose fuel is at least the
    number of bytes agree and do not run out ([same]): the fuel bounds nothing
    the code does not bound. *)
From S2P Require Import Prelude F64 Text Value Wire Coerce Codec.

Local Open Scope Z_scope.

Definition no_fuel {A} (r : result string A) : Prop := r ≠ Err "out of fuel"%string.
Definition same {A} (r r' : result string A) : Prop := r = r' ∧ no_fuel r.
Definition shorter (a b : list Z) : Prop := (length a < length b)%nat.

Lemma same_bind {A B} (m m' : result string A) (f f' : A → result string B) :
  same m m' → (∀ a, m = Ok a → same (f a) (f' a)) → same (m ≫= f) (m' ≫= f').
Proof.
  intros [<- Hm] Hf. destruct m as [a|e]; [exact (Hf a eq_refl)|].
  split; [done|]. intros [= ->]. by apply Hm.
Qed.

Lemma same_refl {A} (r : result string A) : no_fuel r → same r r.
Proof. done. Qed.
Lemma same_Ok {A} (a : A) : same (Ok a) (Ok a).
Proof. done. Qed.

Lemma bind_ret {A B} (a : A) (f : A → result string B) : Ok a ≫= f = f a.
Proof. done. Qed.

#[export] Hint Resolve same_refl same_Ok : wrkr.

(** ** What the readers leave *)
Lemma read_variant_shorter src v rest : read_variant src = Ok (v, rest) → shorter rest src.
Proof.
  intros (b & pre & ->)%read_variant_suffix. unfold shorter. simpl. rewrite length_app. lia.
Qed.

Lemma read_len_shorter src bytes rest :
  read_len_delimited src = Ok (bytes, rest) → shorter rest src ∧ shorter bytes src.
Proof.
  intros (b & pre & ->)%read_len_suffix. unfold shorter. simpl. rewrite !length_app. lia.
Qed.

Lemma read_len_rest src bytes rest : read_len_delimited src = Ok (bytes, rest) → shorter rest src.
Proof. by intros [? _]%read_len_shorter. Qed.

Lemma skip_shorter w src rest : skip_value w src = Ok rest → shorter rest src.
Proof.
  unfold shorter. destruct w; simpl.
  - intros ([v r] & Hv & [= <-])%bind_Ok. by eapply read_variant_shorter.
  - destruct (Nat.ltb_spec (length src) 8); [done|]. intros [= <-]. rewrite length_drop. lia.
  - intros ([v r] & Hv & [= <-])%bind_Ok. by apply read_len_rest in Hv.
  - destruct (Nat.ltb_spec (length src) 4); [done|]. intros [= <-]. rewrite length_drop. lia.
Qed.

Lemma read_varint_as_shorter f src v rest : read_varint_as f src = Ok (v, rest) → shorter rest src.
Proof. intros ([n r] & Hv & [= <- <-])%bind_Ok. by eapply read_variant_shorter. Qed.

Lemma read_fixed_as_shorter n f eof src v rest :
  (0 < n)%nat → read_fixed_as n f eof src = Ok (v, rest) → shorter rest src.
Proof.
  unfold read_fixed_as, get_le, shorter. intros Hn.
  destruct (Nat.ltb_spec (length src) n); [done|]. intros [= _ <-]. rewrite length_drop. lia.
Qed.

Lemma read_tag_shorter src x rest : read_tag src = Ok (x, rest) → shorter rest src.
Proof.
  intros ([t r] & Hv & Ht)%bind_Ok. destruct (t =? 0); [done|].
  apply bind_Ok in Ht as (w & _ & [= _ <-]). by eapply read_variant_shorter.
Qed.

(** ** The leaves never run out of fuel *)
Lemma bind_no_fuel {A B} (m : result string A) (f : A → result string B) :
  no_fuel m → (∀ a, m = Ok a → no_fuel (f a)) → no_fuel (m ≫= f).
Proof. intros Hm Hf. destruct m; [by apply Hf|]. intros [= ->]. by apply Hm. Qed.

Lemma read_loop_no_fuel src s out : no_fuel (read_loop s out src).
Proof.
  revert s out. induction src as [|b src IH]; intros s out; [done|]. cbn [read_loop].
  destruct (_ =? 0); [done|]. destruct (64 <=? _); [done|]. apply IH.
Qed.

Lemma read_variant_no_fuel src : no_fuel (read_variant src).
Proof. apply read_loop_no_fuel. Qed.

Lemma read_len_no_fuel src : no_fuel (read_len_delimited src).
Proof.
  apply bind_no_fuel; [apply read_variant_no_fuel|]. intros [n r] _. by destruct (_ <? _).
Qed.

Lemma wire_type_no_fuel v : no_fuel (wire_type_of v).
Proof. unfold wire_type_of. by repeat destruct (_ =? _). Qed.

Lemma read_tag_no_fuel src : no_fuel (read_tag src).
Proof.
  apply bind_no_fuel; [apply read_variant_no_fuel|]. intros [t r] _. destruct (t =? 0); [done|].
  apply bind_no_fuel; [apply wire_type_no_fuel|]. done.
Qed.

Lemma skip_no_fuel w src : no_fuel (skip_value w src).
Proof.
  destruct w; simpl; try by destruct (_ <? _)%nat.
  - apply bind_no_fuel; [apply read_variant_no_fuel|]. by intros [t r] _.
  - apply bind_no_fuel; [apply read_len_no_fuel|]. by intros [t r] _.
Qed.

Lemma read_varint_as_no_fuel f src : no_fuel (read_varint_as f src).
Proof. apply bind_no_fuel; [apply read_variant_no_fuel|]. by intros [t r] _. Qed.

Lemma read_fixed_as_no_fuel n f eof src :
  eof ≠ "out of fuel"%string → no_fuel (read_fixed_as n f eof src).
Proof.
  intros He. unfold read_fixed_as. destruct (_ <? _)%nat; [|done]. intros [= E]. by apply He.
Qed.

Lemma expect_wire_no_fuel want got msg :
  msg ≠ "out of fuel"%string → no_fuel (expect_wire want got msg).
Proof. intros He. unfold expect_wire. destruct (decide _); [done|]. intros [= E]. by apply He. Qed.

#[export] Hint Resolve read_variant_no_fuel read_len_no_fuel read_tag_no_fuel skip_no_fuel
  read_varint_as_no_fuel : wrkr.
#[export] Hint Extern 1 (no_fuel (expect_wire _ _ _)) => by apply expect_wire_no_fuel : wrkr.
#[export] Hint Extern 1 (no_fuel (read_fixed_as _ _ _ _)) => by apply read_fixed_as_no_fuel : wrkr.

(** A [result] is the same as itself when none of its steps can run out. *)
Ltac same_step :=
  apply same_bind; [first [by apply same_refl; auto with wrkr | idtac]|intros ? ?].

(** ** Packed values *)
Lemma packed_loop_same read fuel fuel' bytes out :
  (∀ src, no_fuel (read src)) → (∀ src v rest, read src = Ok (v, rest) → shorter rest src) →
  (length bytes ≤ fuel)%nat → (length bytes ≤ fuel')%nat →
  same (packed_loop fuel read bytes out) (packed_loop fuel' read bytes out).
Proof.
  intros Hn Hs. revert fuel' bytes out.
  induction fuel as [|fuel IH]; intros [|fuel'] [|b bytes] out Hf Hf'; simpl in Hf, Hf'; try lia;
    try apply same_Ok.
  simpl. apply same_bind; [by apply same_refl|]. intros [v rest] Hr.
  apply Hs in Hr. unfold shorter in Hr. simpl in Hr. apply IH; lia.
Qed.

Lemma decode_packed_no_fuel {E} (kind : @GrpcValueKind E) bytes :
  no_fuel (decode_packed_values kind bytes).
Proof.
  assert (∀ read out, (∀ src, no_fuel (read src)) →
    (∀ src v rest, read src = Ok (v, rest) → shorter rest src) →
    no_fuel (packed_loop (length bytes) read bytes out)) as Hl.
  { intros read out H1 H2. by apply (packed_loop_same read _ (length bytes)). }
  destruct kind; cbn [decode_packed_values]; try done; apply Hl; auto with wrkr;
    first [apply read_varint_as_shorter | intros ? ? ?; apply read_fixed_as_shorter; lia].
Qed.

(** ** Messages *)
Section same.
Context {E : Type} `{EnumDescriptor E}.
Implicit Types (rec : @GrpcMessageMeta E → list Z → result string Value).

Definition agree (n : nat) rec rec' : Prop :=
  ∀ meta b, (length b < n)%nat → same (rec meta b) (rec' meta b).

Lemma agree_le n n' rec rec' : (n' ≤ n)%nat → agree n rec rec' → agree n' rec rec'.
Proof. intros Hn Ha meta b Hb. apply Ha. lia. Qed.

Lemma decode_scalar_same rec rec' kind w src :
  agree (length src) rec rec' →
  same (decode_scalar_value rec kind w src) (decode_scalar_value rec' kind w src).
Proof.
  intros Ha. destruct kind; cbn [decode_scalar_value]; same_step; auto with wrkr.
  - same_step. by destruct a0.
  - same_step. by destruct a0.
  - same_step. by destruct a0.
  - same_step. destruct a0 as [b r]. apply read_len_shorter in H1 as [_ Hb].
    apply same_bind; [by apply Ha|]. done.
Qed.

Lemma decode_scalar_shorter rec kind w src v rest :
  decode_scalar_value rec kind w src = Ok (v, rest) → shorter rest src.
Proof.
  destruct kind; cbn [decode_scalar_value]; intros (u & _ & Hd)%bind_Ok;
    try (by eapply read_varint_as_shorter); try (eapply read_fixed_as_shorter; [|done]; lia);
    apply bind_Ok in Hd as ([x r] & Hr & Hd).
  - injection Hd as <- <-. by apply read_len_rest in Hr.
  - injection Hd as <- <-. by apply read_len_rest in Hr.
  - injection Hd as <- <-. by eapply read_variant_shorter.
  - apply bind_Ok in Hd as (v' & _ & [= <- <-]). by apply read_len_rest in Hr.
Qed.

Lemma decode_map_key_no_fuel kind w src : no_fuel (decode_map_key kind w src).
Proof.
  destruct kind; cbn [decode_map_key]; try done;
    (apply bind_no_fuel; [auto with wrkr|intros _ _]);
    (apply bind_no_fuel; [auto with wrkr|intros [x r] _]); try done.
  by destruct (from_utf8 x).
Qed.

Lemma decode_map_key_shorter kind w src k rest :
  decode_map_key kind w src = Ok (k, rest) → shorter rest src.
Proof.
  destruct kind; cbn [decode_map_key]; try done; intros (u & _ & Hd)%bind_Ok;
    apply bind_Ok in Hd as ([x r] & Hr & Hd);
    try (injection Hd as <- <-; by eapply read_variant_shorter).
  apply bind_Ok in Hd as (s & _ & [= <- <-]). by apply read_len_rest in Hr.
Qed.

Lemma map_entry_loop_same rec rec' fuel fuel' kk vk bytes key value :
  agree (length bytes) rec rec' → (length bytes ≤ fuel)%nat → (length bytes ≤ fuel')%nat →
  same (map_entry_loop rec fuel kk vk bytes key value)
       (map_entry_loop rec' fuel' kk vk bytes key value).
Proof.
  revert fuel' bytes key value.
  induction fuel as [|fuel IH]; intros [|fuel'] [|b bytes] key value Ha Hf Hf';
    simpl in Hf, Hf'; try lia; try apply same_Ok.
  cbn [map_entry_loop]. same_step. destruct a as [[n w] r].
  apply read_tag_shorter in H0. unfold shorter in H0. simpl in H0.
  destruct (n =? 1); [|destruct (n =? 2)].
  - apply same_bind; [apply same_refl, decode_map_key_no_fuel|]. intros [k r'] Hk.
    apply decode_map_key_shorter in Hk. unfold shorter in Hk.
    apply IH; [|lia|lia]. eapply agree_le; [|done]. simpl. lia.
  - apply same_bind; [apply decode_scalar_same; eapply agree_le; [|done]; simpl; lia|].
    intros [v r'] Hk. apply decode_scalar_shorter in Hk. unfold shorter in Hk.
    apply IH; [|lia|lia]. eapply agree_le; [|done]. simpl. lia.
  - apply same_bind; [by apply same_refl, skip_no_fuel|]. intros r' Hk.
    apply skip_shorter in Hk. unfold shorter in Hk.
    apply IH; [|lia|lia]. eapply agree_le; [|done]. simpl. lia.
Qed.

Lemma decode_entry_same rec rec' out name kk vk w src :
  agree (length src) rec rec' →
  same (decode_map_entry_into_object rec out name kk vk w src)
       (decode_map_entry_into_object rec' out name kk vk w src).
Proof.
  intros Ha. unfold decode_map_entry_into_object. same_step. same_step. destruct a0 as [b r].
  apply read_len_shorter in H1 as [_ Hb]. unfold shorter in Hb.
  apply same_bind; [|intros [k v] _; by destruct (map_get name out) as [[]|]].
  unfold decode_map_entry. apply same_bind.
  { apply map_entry_loop_same; [|done|done]. eapply agree_le; [|done]. lia. }
  intros [key value] _. apply same_bind; [apply same_refl; by destruct key|]. intros k _.
  apply same_bind; [apply same_refl; by destruct value|]. done.
Qed.

Lemma decode_entry_shorter rec out name kk vk w src out' rest :
  decode_map_entry_into_object rec out name kk vk w src = Ok (out', rest) → shorter rest src.
Proof.
  intros (u & _ & Hd)%bind_Ok. apply bind_Ok in Hd as ([b r] & Hr & Hd).
  apply bind_Ok in Hd as ([k v] & _ & Hd). apply read_len_shorter in Hr as [Hr _].
  by destruct (map_get name out) as [[]|]; injection Hd as _ <-.
Qed.

Lemma decode_field_same rec rec' shape w src :
  agree (length src) rec rec' →
  same (decode_field_value rec shape w src) (decode_field_value rec' shape w src).
Proof.
  intros Ha. destruct shape as [k|k|]; simpl; [by apply decode_scalar_same| |done].
  unfold decode_list.
  assert (same ('(v, src) ← decode_scalar_value rec k w src; Ok (VArray [v], src))
               ('(v, src) ← decode_scalar_value rec' k w src; Ok (VArray [v], src))) as Hs.
  { apply same_bind; [by apply decode_scalar_same|]. by intros [v r] _. }
  destruct (decide (w = Len)); [|done]. destruct (kind_is_packable k); [|done].
  same_step. destruct a as [b r]. apply same_bind; [apply same_refl, decode_packed_no_fuel|]. done.
Qed.

Lemma decode_field_shorter rec shape w src v rest :
  decode_field_value rec shape w src = Ok (v, rest) → shorter rest src.
Proof.
  destruct shape as [k|k|]; simpl; [apply decode_scalar_shorter| |done]. unfold decode_list.
  assert (('(v, src) ← decode_scalar_value rec k w src; Ok (VArray [v], src)) = Ok (v, rest) →
          shorter rest src) as Hs.
  { intros ([v' r] & Hr & [= <- <-])%bind_Ok. by apply decode_scalar_shorter in Hr. }
  destruct (decide (w = Len)); [|done]. destruct (kind_is_packable k); [|done].
  intros ([b r] & Hr & Hd)%bind_Ok. apply bind_Ok in Hd as (items & _ & [= _ <-]).
  by apply read_len_rest in Hr.
Qed.

Lemma merge_no_fuel out name (shape : @GrpcFieldShape E) v :
  no_fuel (merge_decoded_field out name shape v).
Proof. by destruct shape, v. Qed.

Lemma message_loop_same rec rec' fuel fuel' lookup src out :
  agree (length src) rec rec' → (length src ≤ fuel)%nat → (length src ≤ fuel')%nat →
  same (message_loop rec fuel lookup src out) (message_loop rec' fuel' lookup src out).
Proof.
  revert fuel' src out.
  induction fuel as [|fuel IH]; intros [|fuel'] [|b src] out Ha Hf Hf'; simpl in Hf, Hf'; try lia;
    try apply same_Ok.
  cbn [message_loop]. same_step. destruct a as [[n w] r].
  apply read_tag_shorter in H0. unfold shorter in H0. simpl in H0.
  assert (∀ r', shorter r' r → ∀ out,
    same (message_loop rec fuel lookup r' out) (message_loop rec' fuel' lookup r' out)) as Hnext.
  { unfold shorter. intros r' Hr' out'. apply IH; [|lia|lia]. eapply agree_le; [|done]. simpl. lia. }
  assert (agree (length r) rec rec') as Har by (eapply agree_le; [|done]; simpl; lia).
  destruct (lookup n) as [[name shape]|].
  2:{ apply same_bind; [by apply same_refl, skip_no_fuel|]. intros r' Hk.
      by apply Hnext, (skip_shorter w). }
  destruct shape as [k|k|kk vk].
  3:{ apply same_bind; [by apply decode_entry_same|]. intros [out' r'] Hd.
      apply Hnext. by eapply decode_entry_shorter. }
  all: apply same_bind; [by apply decode_field_same|]; intros [v r'] Hd;
    (apply same_bind; [apply same_refl, merge_no_fuel|]); intros out' _;
    apply Hnext; by eapply decode_field_shorter.
Qed.

Lemma decode_level_same n n' meta bytes :
  (length bytes < n)%nat → (length bytes < n')%nat →
  same (decode_level n meta bytes) (decode_level n' meta bytes).
Proof.
  revert n' meta bytes. induction n as [|n IH]; intros [|n'] meta bytes Hn Hn'; try lia.
  cbn [decode_level]. apply message_loop_same; [|done|done]. intros m b Hb. apply IH; lia.
Qed.

(** The recursion [decode_message_for_meta] stands for. *)
Definition loop (lookup : Z → option (string * @GrpcFieldShape E)) (src : list Z)
    (out : list (string * Value)) : result string Value :=
  message_loop decode_message_for_meta (length src) lookup src out.

Lemma decode_message_eq meta bytes :
  decode_message_for_meta meta bytes = loop (meta_lookup meta) bytes [].
Proof.
  unfold decode_message_for_meta at 1. cbn [decode_level].
  apply message_loop_same; [|done|done]. intros m b Hb.
  unfold decode_message_for_meta. apply decode_level_same; lia.
Qed.

Lemma decode_message_no_fuel meta bytes : no_fuel (decode_message_for_meta meta bytes).
Proof. apply (decode_level_same _ (S (length bytes))); lia. Qed.

Lemma agree_refl n : agree n decode_message_for_meta decode_message_for_meta.
Proof. intros meta b _. apply same_refl, decode_message_no_fuel. Qed.

(** One round of the loop, whatever the fuel. *)
Lemma loop_fuel fuel lookup src out :
  (length src ≤ fuel)%nat → message_loop decode_message_for_meta fuel lookup src out = loop lookup src out.
Proof. intros Hf. apply message_loop_same; [apply agree_refl|done|done]. Qed.

Lemma loop_map_entry lookup src out n w r name kk vk out' r' :
  read_tag src = Ok ((n, w), r) → lookup n = Some (name, FMap kk vk) →
  decode_map_entry_into_object decode_message_for_meta out name kk vk w r = Ok (out', r') →
  loop lookup src out = loop lookup r' out'.
Proof.
  intros Ht Hl Hd. pose proof (read_tag_shorter _ _ _ Ht). pose proof (decode_entry_shorter _ _ _ _ _ _ _ _ _ Hd).
  unfold shorter in *. unfold loop at 1. destruct src as [|b src]; [done|]. cbn [length message_loop].
  rewrite Ht. simpl. rewrite Hl, Hd. simpl. apply loop_fuel. simpl in *. lia.
Qed.

Lemma loop_field lookup src out n w r name shape v r' out' :
  read_tag src = Ok ((n, w), r) → lookup n = Some (name, shape) →
  (∀ kk vk, shape ≠ FMap kk vk) →
  decode_field_value decode_message_for_meta shape w r = Ok (v, r') →
  merge_decoded_field out name shape v = Ok out' →
  loop lookup src out = loop lookup r' out'.
Proof.
  intros Ht Hl Hs Hd Hm. pose proof (read_tag_shorter _ _ _ Ht). pose proof (decode_field_shorter _ _ _ _ _ _ Hd).
  unfold shorter in *. unfold loop at 1. destruct src as [|b src]; [done|]. cbn [length message_loop].
  rewrite Ht. simpl. rewrite Hl. destruct shape as [k|k|kk vk]; [| |by destruct (Hs kk vk)].
  all: rewrite Hd, bind_ret; cbn beta iota; rewrite Hm, bind_ret; apply loop_fuel; simpl in *; lia.
Qed.
End same.
