(* ===== verification/CodecProps.v ===== *)
(** * Properties of the protobuf codec

    What a script gives a gRPC call comes back when the server echoes it, for
    the values a message type describes ([canon_scalar], [canon_field]). *)
From S2P Require Import Prelude F64 Text Value Wire Coerce Codec CodecLemmas.

Local Open Scope Z_scope.

(** ** Integers *)
Lemma as_i32_mod z : in_i32 z → ∀ k, as_i32 (z + k * 2 ^ 32) = z.
Proof.
  intros Hz k. unfold as_i32, as_u32. rewrite Z_mod_plus_full. unfold in_i32 in Hz.
  destruct (Z_lt_le_dec z 0).
  - rewrite <- (Z_mod_plus_full z 1), Z.mod_small by lia. destruct (Z.ltb_spec (z + 1 * 2 ^ 32) (2 ^ 31)); lia.
  - rewrite Z.mod_small by lia. destruct (Z.ltb_spec z (2 ^ 31)); lia.
Qed.

Lemma as_i32_as_u32 z : in_i32 z → as_i32 (as_u32 z) = z.
Proof.
  intros Hz. pose proof (Z.div_mod z (2 ^ 32) ltac:(lia)) as Hd. unfold as_u32.
  replace (z mod 2 ^ 32) with (z + (- (z / 2 ^ 32)) * 2 ^ 32) by lia. by apply as_i32_mod.
Qed.

Lemma as_i32_as_u64 z : in_i32 z → as_i32 (as_u64 z) = z.
Proof.
  intros Hz. pose proof (Z.div_mod z (2 ^ 64) ltac:(lia)) as Hd. unfold as_u64.
  replace (z mod 2 ^ 64) with (z + (- (z / 2 ^ 64) * 2 ^ 32) * 2 ^ 32) by lia. by apply as_i32_mod.
Qed.

Section canon.
Context {E : Type} `{EnumDescriptor E}.

(** ** The values of a type *)

(** The two indexes of a message's fields agree; [build_message_meta] fills
    them together, and protobuf numbers are below 2^29. *)
Definition coherent (fields : list (string * @GrpcInputFieldMeta E))
    (lookup : Z → option (string * GrpcFieldShape)) : Prop :=
  ∀ name fname n shape, map_get name fields = Some (MkField fname n shape) →
    0 < n < 2 ^ 29 ∧ lookup n = Some (name, shape).

Inductive canon_key : Kind → MapKey → Prop :=
  | ck_string s : utf8_valid (as_bytes s) = true → canon_key PString (KeyString s)
  | ck_bool b : canon_key PBool (KeyBool b)
  | ck_int k i : k ∈ [PInt32; PSint32; PSfixed32; PInt64; PSint64; PSfixed64] → in_i64 i →
      canon_key k (KeyI64 i)
  | ck_uint k u : k ∈ [PUint32; PFixed32; PUint64; PFixed64] → in_u64 u → canon_key k (KeyU64 u).

(** A [float] field holds the doubles a 32-bit float converts to and from; an
    enum a name of it, or a number without one. *)
Inductive canon_scalar : @GrpcValueKind E → Value → Prop :=
  | cs_bool b : canon_scalar KBool (VBool b)
  | cs_string s : utf8_valid (as_bytes s) = true → canon_scalar KString (VString s)
  | cs_bytes b : canon_scalar KBytes (VBytes b)
  | cs_int k i : k ∈ [KInt32; KInt64; KSint32; KSint64; KSfixed64] → in_i64 i →
      canon_scalar k (VI64 i)
  | cs_uint k u : k ∈ [KUint32; KUint64; KFixed64] → in_u64 u → canon_scalar k (VU64 u)
  | cs_fixed32 u : in_u32 u → canon_scalar KFixed32 (VU64 u)
  | cs_sfixed32 i : in_i32 i → canon_scalar KSfixed32 (VI64 i)
  | cs_float f b : in_u32 b → f32_bits_of_f64 (f64_from_bits f) = b →
      f64_to_bits (f64_from_f32_bits b) = f → canon_scalar KFloat (VF64 f)
  | cs_double f : in_u64 f → canon_scalar KDouble (VF64 f)
  | cs_enum_name e n s : get_value_by_name e s = Some n → get_value e n = Some s → in_i32 n →
      canon_scalar (KEnum e) (VString s)
  | cs_enum_number e n : get_value e n = None → in_i32 n → canon_scalar (KEnum e) (VI64 n)
  | cs_message meta m :
      coherent (fields_by_name meta) (meta_lookup meta) → NoDup m.*1 →
      (∀ name v, (name, v) ∈ m → ∃ fname n shape,
         map_get name (fields_by_name meta) = Some (MkField fname n shape) ∧ canon_field shape v) →
      canon_scalar (KMessage meta) (VObject m)
with canon_field : GrpcFieldShape → Value → Prop :=
  | cf_scalar k v : canon_scalar k v → canon_field (FScalar k) v
  | cf_list k items : items ≠ [] → Forall (canon_scalar k) items →
      canon_field (FList k) (VArray items)
  | cf_map kk vk m : m ≠ [] → NoDup m.*1 →
      Forall (λ e, canon_key kk e.1 ∧ canon_scalar vk e.2) m → canon_field (FMap kk vk) (VMap m).

Definition canon_fields (fields : list (string * @GrpcInputFieldMeta E))
    (m : list (string * Value)) : Prop :=
  NoDup m.*1 ∧ ∀ name v, (name, v) ∈ m → ∃ fname n shape,
    map_get name fields = Some (MkField fname n shape) ∧ canon_field shape v.

(** ** Encoding appends *)
Lemma write_variant_app v out : write_variant v out = out ++ write_variant v [].
Proof. done. Qed.
Lemma write_len_app b out : write_len_delimited b out = out ++ write_len_delimited b [].
Proof. unfold write_len_delimited, write_variant. by rewrite app_nil_l, app_assoc. Qed.
Lemma write_tag_app n w out : write_tag n w out = out ++ write_tag n w [].
Proof. done. Qed.

Lemma write_loop_pos fuel v : (0 < length (write_loop fuel v))%nat.
Proof. destruct fuel; cbn [write_loop]; [simpl; lia|]. destruct (128 <=? v); simpl; lia. Qed.

Lemma write_variant_pos v : (0 < length (write_variant v []))%nat.
Proof. apply write_loop_pos. Qed.

Lemma write_len_pos b : (length b < length (write_len_delimited b []))%nat.
Proof. unfold write_len_delimited. rewrite length_app. pose proof (write_variant_pos (Z.of_nat (length b))). lia. Qed.

Lemma read_tag_write n w rest :
  0 < n < 2 ^ 29 → read_tag (write_tag n w [] ++ rest) = Ok ((n, w), rest).
Proof.
  intros Hn. destruct (tag_split n w) as (Ht & Htn & Htw); [lia|]. unfold read_tag, write_tag.
  unfold write_variant. rewrite app_nil_l, read_write_loop0, bind_ret by done. cbn beta iota.
  destruct (Z.eqb_spec (tag_of n w) 0) as [E0|].
  { rewrite tag_of_eq in E0 by lia. destruct w; simpl in E0; lia. }
  by rewrite Htw, bind_ret, Htn.
Qed.

Definition fits (b : list Z) : Prop := Z.of_nat (length b) ≤ u64_max.
Lemma fits_le a b : (length a ≤ length b)%nat → fits b → fits a.
Proof. unfold fits. lia. Qed.

Lemma read_varint_write f v rest :
  in_u64 v → read_varint_as f (write_variant v [] ++ rest) = Ok (f v, rest).
Proof.
  intros Hv. unfold read_varint_as, write_variant. by rewrite app_nil_l, read_write_loop0.
Qed.

Lemma read_fixed_write n f eof v rest :
  0 ≤ v < 256 ^ Z.of_nat n → read_fixed_as n f eof (le_bytes n v ++ rest) = Ok (f v, rest).
Proof.
  intros Hv. unfold read_fixed_as. rewrite length_app, length_le_bytes.
  destruct (Nat.ltb_spec (n + length rest) n); [lia|]. by rewrite get_le_bytes.
Qed.

Lemma read_len_write b rest :
  fits b → read_len_delimited (write_len_delimited b [] ++ rest) = Ok (b, rest).
Proof. intros Hb. by apply read_write_len. Qed.

(** ** Scalars *)
Notation enc := (encode_scalar_field (E := E)).
Notation dec := (decode_message_for_meta (E := E)).

(** [p] is what a value is encoded as, after its tag. *)
Definition scalar_ok (v : Value) (kind : GrpcValueKind) (p : list Z) : Prop :=
  (∀ out, encode_scalar_value enc v kind out = Ok (out ++ p)) ∧ (0 < length p)%nat ∧
  (fits p → ∀ rest,
     decode_scalar_value dec kind (wire_type_for_kind kind) (p ++ rest) = Ok (v, rest)).

Lemma scalar_varint v kind n f :
  (∀ out, encode_scalar_value enc v kind out = Ok (write_variant n out)) →
  (∀ src, decode_scalar_value dec kind (wire_type_for_kind kind) src = read_varint_as f src) →
  in_u64 n → f n = v → ∃ p, scalar_ok v kind p.
Proof.
  intros He Hd Hn <-. exists (write_variant n []). split_and!.
  - intros out. by rewrite He, write_variant_app.
  - apply write_variant_pos.
  - intros _ rest. rewrite Hd. by apply read_varint_write.
Qed.

Lemma scalar_fixed v kind w n f eof :
  (0 < w)%nat →
  (∀ out, encode_scalar_value enc v kind out = Ok (out ++ le_bytes w n)) →
  (∀ src, decode_scalar_value dec kind (wire_type_for_kind kind) src = read_fixed_as w f eof src) →
  0 ≤ n < 256 ^ Z.of_nat w → f n = v → ∃ p, scalar_ok v kind p.
Proof.
  intros Hw He Hd Hn <-. exists (le_bytes w n). split_and!; [done|by rewrite length_le_bytes|].
  intros _ rest. rewrite Hd. by apply read_fixed_write.
Qed.

Lemma scalar_len v kind b :
  (∀ out, encode_scalar_value enc v kind out = Ok (write_len_delimited b out)) →
  (fits b → ∀ src rest, read_len_delimited src = Ok (b, rest) →
     decode_scalar_value dec kind (wire_type_for_kind kind) src = Ok (v, rest)) →
  ∃ p, scalar_ok v kind p.
Proof.
  intros He Hd. exists (write_len_delimited b []). pose proof (write_len_pos b). split_and!.
  - intros out. by rewrite He, write_len_app.
  - lia.
  - intros Hf rest. assert (fits b) by (eapply fits_le; [|done]; lia).
    apply Hd; [done|]. by apply read_len_write.
Qed.

Lemma enc_eq v n kind out :
  enc v n kind out = encode_scalar_value enc v kind (write_tag n (wire_type_for_kind kind) out).
Proof. by destruct v. Qed.

Ltac pick_kind Hk := repeat (apply elem_of_cons in Hk as [->|Hk]); [..|by apply elem_of_nil in Hk].

Lemma scalar_int k i :
  k ∈ [KInt32; KInt64; KSint32; KSint64; KSfixed64] → in_i64 i → ∃ p, scalar_ok (VI64 i) k p.
Proof.
  intros Hk Hi. pick_kind Hk.
  - eapply (scalar_varint _ _ _ as_i64_value_of); [done|done|apply as_u64_range|].
    unfold as_i64_value_of. by rewrite as_i64_as_u64.
  - eapply (scalar_varint _ _ _ as_i64_value_of); [done|done|apply as_u64_range|].
    unfold as_i64_value_of. by rewrite as_i64_as_u64.
  - eapply (scalar_varint _ _ _ as_zigzag_value); [done|done|apply as_u64_range|].
    unfold as_zigzag_value. by rewrite zigzag_decode_encode.
  - eapply (scalar_varint _ _ _ as_zigzag_value); [done|done|apply as_u64_range|].
    unfold as_zigzag_value. by rewrite zigzag_decode_encode.
  - eapply (scalar_fixed _ _ 8 (as_u64 i) as_i64_value_of); [lia|done|done| |].
    + pose proof (as_u64_range i). unfold in_u64, u64_max in *. lia.
    + unfold as_i64_value_of. by rewrite as_i64_as_u64.
Qed.

Lemma scalar_uint k u :
  k ∈ [KUint32; KUint64; KFixed64] → in_u64 u → ∃ p, scalar_ok (VU64 u) k p.
Proof.
  intros Hk Hu. pick_kind Hk.
  - by eapply (scalar_varint _ _ u VU64).
  - by eapply (scalar_varint _ _ u VU64).
  - eapply (scalar_fixed _ _ 8 u VU64); [lia|done|done| |done]. unfold in_u64, u64_max in *. lia.
Qed.

Lemma decode_enum e n src rest :
  read_variant src = Ok (n, rest) →
  decode_scalar_value dec (KEnum e) Varint src =
    Ok (match get_value e (as_i32 n) with Some s => VString s | None => VI64 (as_i32 n) end, rest).
Proof. intros Hr. cbn [decode_scalar_value]. unfold expect_wire. simpl. by rewrite Hr. Qed.

Lemma scalar_enum e v n :
  enum_number e v = n → in_i32 n →
  match get_value e n with Some s => VString s | None => VI64 n end = v →
  ∃ p, scalar_ok v (KEnum e) p.
Proof.
  intros Hn Hi Hv. exists (write_variant (as_u64 n) []). split_and!.
  - intros out. cbn [encode_scalar_value]. by rewrite Hn.
  - apply write_variant_pos.
  - intros _ rest. rewrite (decode_enum e (as_u64 n) _ rest).
    + by rewrite as_i32_as_u64, Hv.
    + unfold write_variant. rewrite app_nil_l. apply read_write_loop0, as_u64_range.
Qed.

(** Every kind but messages. *)
Lemma scalar_leaf kind v :
  canon_scalar kind v → (∀ meta, kind ≠ KMessage meta) → ∃ p, scalar_ok v kind p.
Proof.
  intros Hc Hm.
  destruct Hc as [b|s Hs|b|k i Hk Hi|k u Hk Hu|u Hu|i Hi|f b Hb Hf Hb'|f Hf|e n s Hn Hs Hi|e n Hn Hi|meta m].
  - eapply (scalar_varint _ _ (if b then 1 else 0) as_bool_value); [done|done| |]; by destruct b.
  - apply (scalar_len _ _ (as_bytes s)); [done|]. intros _ src rest Hr.
    cbn [decode_scalar_value]. unfold expect_wire. simpl. rewrite Hr. simpl. by rewrite from_utf8_str.
  - apply (scalar_len _ _ b); [done|]. intros _ src rest Hr.
    cbn [decode_scalar_value]. unfold expect_wire. simpl. by rewrite Hr.
  - by apply scalar_int.
  - by apply scalar_uint.
  - eapply (scalar_fixed _ _ 4 (as_u32 u) VU64); [lia|done|done| |].
    + rewrite as_u32_small by done. exact Hu.
    + by rewrite as_u32_small.
  - eapply (scalar_fixed _ _ 4 (as_u32 i) as_i32_value); [lia|done|done| |].
    + unfold as_u32. change (256 ^ Z.of_nat 4) with (2 ^ 32). apply Z.mod_pos_bound. lia.
    + unfold as_i32_value. by rewrite as_i32_as_u32.
  - eapply (scalar_fixed _ _ 4 b as_f32_value); [lia| |done|exact Hb|].
    + intros out. cbn [encode_scalar_value to_f64]. by rewrite bind_ret, Hf.
    + unfold as_f32_value. by rewrite Hb'.
  - eapply (scalar_fixed _ _ 8 f VF64); [lia|done|done| |done]. unfold in_u64, u64_max in *. lia.
  - apply (scalar_enum e _ n); [by simpl; rewrite Hn|done|by rewrite Hs].
  - apply (scalar_enum e _ n); [done|done|by rewrite Hn].
  - by destruct (Hm meta).
Qed.

(** ** Fields *)
Lemma map_get_app_new {K A} `{EqDecision K} (k : K) (a : A) m :
  k ∉ m.*1 → map_get k (m ++ [(k, a)]) = Some a.
Proof.
  induction m as [|[k0 a0] m IH]; simpl; intros Hk; [by rewrite decide_True|].
  rewrite decide_False by set_solver. apply IH. set_solver.
Qed.

Lemma map_insert_app_new {K A} `{EqDecision K} (k : K) (a b : A) m :
  k ∉ m.*1 → map_insert k b (m ++ [(k, a)]) = m ++ [(k, b)].
Proof.
  induction m as [|[k0 a0] m IH]; simpl; intros Hk; [by rewrite decide_True|].
  rewrite decide_False by set_solver. rewrite IH by set_solver. done.
Qed.

Definition field_ok (name fname : string) (n : Z) (shape : GrpcFieldShape) (v : Value) (p : list Z)
    : Prop :=
  (∀ out, encode_field enc (MkField fname n shape) v out = Ok (out ++ p)) ∧
  ∀ lookup obj rest, lookup n = Some (name, shape) → name ∉ obj.*1 → fits p →
    loop lookup (p ++ rest) obj = loop lookup rest (obj ++ [(name, v)]).

Lemma field_num_eqb n : 0 < n < 2 ^ 29 → (n =? 0) = false.
Proof. intros Hn. apply Z.eqb_neq. lia. Qed.

Definition tagged (n : Z) (k : @GrpcValueKind E) (p : list Z) : list Z :=
  write_tag n (wire_type_for_kind k) [] ++ p.

Lemma enc_tagged n k v p out : scalar_ok v k p → enc v n k out = Ok (out ++ tagged n k p).
Proof.
  intros [He _]. rewrite enc_eq, He. unfold tagged. by rewrite (write_tag_app n _ out), app_assoc.
Qed.

Lemma fits_app_l a b : fits (a ++ b) → fits a.
Proof. apply fits_le. rewrite length_app. lia. Qed.
Lemma fits_app_r a b : fits (a ++ b) → fits b.
Proof. apply fits_le. rewrite length_app. lia. Qed.

Lemma scalar_field name fname n k v p :
  0 < n < 2 ^ 29 → scalar_ok v k p → field_ok name fname n (FScalar k) v (tagged n k p).
Proof.
  intros Hn Hp. split.
  - intros out. cbn [encode_field]. rewrite field_num_eqb by done. by apply enc_tagged.
  - intros lookup obj rest Hl Hname Hf. unfold tagged. rewrite <- app_assoc.
    eapply loop_field; [by apply read_tag_write|done|done| |].
    + cbn [decode_field_value]. apply Hp. by eapply fits_app_r.
    + cbn [merge_decoded_field]. by rewrite map_insert_new.
Qed.

Lemma decode_list_one k v p rest :
  scalar_ok v k p → fits p →
  decode_field_value dec (FList k) (wire_type_for_kind k) (p ++ rest) = Ok (VArray [v], rest).
Proof.
  intros (_ & _ & Hd) Hf. cbn [decode_field_value]. unfold decode_list.
  rewrite Hd, bind_ret by done. cbn beta iota. destruct (decide _) as [Hw|]; [|done].
  by destruct k.
Qed.

Lemma list_step lookup n name k v p rest obj done_ :
  0 < n < 2 ^ 29 → lookup n = Some (name, FList k) → name ∉ obj.*1 → scalar_ok v k p → fits p →
  loop lookup (tagged n k p ++ rest) (obj ++ [(name, VArray done_)]) =
  loop lookup rest (obj ++ [(name, VArray (done_ ++ [v]))]).
Proof.
  intros Hn Hl Hname Hp Hf. unfold tagged. rewrite <- app_assoc.
  eapply loop_field; [by apply read_tag_write|done|done|by apply decode_list_one|].
  cbn [merge_decoded_field]. by rewrite map_get_app_new, map_insert_app_new.
Qed.

Lemma list_steps lookup n name k items ps rest obj done_ :
  0 < n < 2 ^ 29 → lookup n = Some (name, FList k) → name ∉ obj.*1 →
  Forall2 (λ v p, scalar_ok v k p) items ps → fits (concat (tagged n k <$> ps)) →
  loop lookup (concat (tagged n k <$> ps) ++ rest) (obj ++ [(name, VArray done_)]) =
  loop lookup rest (obj ++ [(name, VArray (done_ ++ items))]).
Proof.
  intros Hn Hl Hname Hps. revert done_.
  induction Hps as [|v p items ps Hp Hps IH]; intros done_ Hf; [by rewrite app_nil_r|].
  simpl in *. rewrite <- app_assoc. rewrite (list_step _ _ _ _ v) by
    (done || (apply fits_app_l in Hf; by eapply fits_app_r)).
  rewrite IH by (by eapply fits_app_r). by rewrite <- app_assoc.
Qed.

Lemma list_encode n k items ps out :
  Forall2 (λ v p, scalar_ok v k p) items ps →
  try_fold (λ out item, enc item n k out) items out = Ok (out ++ concat (tagged n k <$> ps)).
Proof.
  intros Hps. revert out. induction Hps as [|v p items ps Hp Hps IH]; intros out; simpl.
  - by rewrite app_nil_r.
  - rewrite (enc_tagged _ _ _ p), bind_ret by done. rewrite IH. by rewrite <- app_assoc.
Qed.

Lemma list_field name fname n k items ps :
  0 < n < 2 ^ 29 → items ≠ [] → Forall2 (λ v p, scalar_ok v k p) items ps →
  field_ok name fname n (FList k) (VArray items) (concat (tagged n k <$> ps)).
Proof.
  intros Hn Hne Hps. split.
  - intros out. cbn [encode_field]. rewrite field_num_eqb by done. by apply list_encode.
  - intros lookup obj rest Hl Hname Hf. destruct Hps as [|v p items ps Hp Hps]; [done|].
    simpl in *. unfold tagged at 1. rewrite <- !app_assoc.
    etrans.
    + eapply loop_field; [by apply read_tag_write|done|done| |].
      * apply (decode_list_one _ v p); [done|]. apply fits_app_l in Hf. by eapply fits_app_r.
      * cbn [merge_decoded_field]. rewrite (proj2 (map_get_None name obj)) by done.
        by rewrite map_insert_new.
    + rewrite (list_steps lookup n name k items ps) by (done || by eapply fits_app_r). done.
Qed.

(** ** Map entries *)
Definition entry_loop (kk : Kind) (vk : @GrpcValueKind E) (bytes : list Z)
    (key : option MapKey) (value : option Value) :=
  map_entry_loop dec (length bytes) kk vk bytes key value.

Lemma entry_loop_fuel fuel kk vk bytes key value :
  (length bytes ≤ fuel)%nat →
  map_entry_loop dec fuel kk vk bytes key value = entry_loop kk vk bytes key value.
Proof. intros Hf. apply map_entry_loop_same; [apply agree_refl|done|done]. Qed.

Definition key_ok (kk : Kind) (k : MapKey) (q : list Z) : Prop :=
  (∀ out, encode_map_key kk k out = Ok (out ++ q)) ∧
  ∃ w q', q = write_tag 1 w [] ++ q' ∧
    (fits q → ∀ rest, decode_map_key kk w (q' ++ rest) = Ok (k, rest)).

Lemma key_varint kk k n :
  (∀ out, encode_map_key kk k out = Ok (write_variant n (write_tag 1 Varint out))) →
  (∀ src rest, read_variant src = Ok (n, rest) → decode_map_key kk Varint src = Ok (k, rest)) →
  in_u64 n → ∃ q, key_ok kk k q.
Proof.
  intros He Hd Hn. exists (write_tag 1 Varint [] ++ write_variant n []). split.
  - intros out. rewrite He, (write_variant_app n), (write_tag_app 1 Varint out). by rewrite app_assoc.
  - exists Varint, (write_variant n []). split; [done|]. intros _ rest. apply Hd.
    unfold write_variant. rewrite app_nil_l. by apply read_write_loop0.
Qed.

Lemma key_canon kk k : canon_key kk k → ∃ q, key_ok kk k q.
Proof.
  intros [s Hs|b|k' i Hk Hi|k' u Hk Hu].
  - exists (write_tag 1 Len [] ++ write_len_delimited (as_bytes s) []). split.
    + intros out. cbn [encode_map_key]. rewrite write_len_app, (write_tag_app 1 Len out). by rewrite app_assoc.
    + exists Len, (write_len_delimited (as_bytes s) []). split; [done|]. intros Hf rest.
      cbn [decode_map_key]. unfold expect_wire. rewrite decide_True, bind_ret by done.
      rewrite read_len_write, bind_ret.
      2:{ apply fits_app_r in Hf. eapply fits_le; [|done].
          pose proof (write_len_pos (as_bytes s)). lia. }
      cbn beta iota. by rewrite from_utf8_str.
  - apply (key_varint _ _ (if b then 1 else 0)); [done| |by destruct b].
    intros src rest Hr. cbn [decode_map_key]. unfold expect_wire. simpl. rewrite Hr. by destruct b.
  - pick_kind Hk; (apply (key_varint _ _ (as_u64 i)); [done| |apply as_u64_range]);
      intros src rest Hr; cbn [decode_map_key]; unfold expect_wire; simpl; rewrite Hr; simpl;
      by rewrite as_i64_as_u64.
  - pick_kind Hk; (apply (key_varint _ _ u); [done| |done]);
      intros src rest Hr; cbn [decode_map_key]; unfold expect_wire; simpl; by rewrite Hr.
Qed.

Lemma entry_key kk vk w src r k r' key value :
  read_tag src = Ok ((1, w), r) → decode_map_key kk w r = Ok (k, r') →
  entry_loop kk vk src key value = entry_loop kk vk r' (Some k) value.
Proof.
  intros Ht Hd. pose proof (read_tag_shorter _ _ _ Ht). pose proof (decode_map_key_shorter _ _ _ _ _ Hd).
  unfold shorter in *. unfold entry_loop at 1. destruct src as [|b src]; [done|].
  cbn [length map_entry_loop]. rewrite Ht, bind_ret. cbn beta iota. simpl (1 =? 1).
  rewrite Hd, bind_ret. apply entry_loop_fuel. simpl in *. lia.
Qed.

Lemma entry_value kk vk w src r v r' key value :
  read_tag src = Ok ((2, w), r) → decode_scalar_value dec vk w r = Ok (v, r') →
  entry_loop kk vk src key value = entry_loop kk vk r' key (Some v).
Proof.
  intros Ht Hd. pose proof (read_tag_shorter _ _ _ Ht). pose proof (decode_scalar_shorter _ _ _ _ _ _ Hd).
  unfold shorter in *. unfold entry_loop at 1. destruct src as [|b src]; [done|].
  cbn [length map_entry_loop]. rewrite Ht, bind_ret. cbn beta iota.
  change (2 =? 1) with false. change (2 =? 2) with true. cbn beta iota.
  rewrite Hd, bind_ret. apply entry_loop_fuel. simpl in *. lia.
Qed.

(** [q] is a key, [p] a value: the bytes of an entry. *)
Definition entry_bytes (vk : @GrpcValueKind E) (e : list Z * list Z) : list Z :=
  e.1 ++ tagged 2 vk e.2.

Lemma entry_decode kk vk k v e :
  key_ok kk k e.1 → scalar_ok v vk e.2 → fits (entry_bytes vk e) →
  decode_map_entry dec kk vk (entry_bytes vk e) = Ok (k, v).
Proof.
  intros (_ & w & q' & Hq & Hk) Hp Hf. unfold decode_map_entry. fold (entry_loop kk vk (entry_bytes vk e) None None).
  unfold entry_bytes in *. rewrite Hq, <- app_assoc.
  rewrite (entry_key kk vk w _ (q' ++ tagged 2 vk e.2) k (tagged 2 vk e.2)).
  - rewrite (entry_value kk vk (wire_type_for_kind vk) _ (e.2 ++ []) v []); [done| |].
    + unfold tagged. rewrite app_nil_r. by apply read_tag_write.
    + apply Hp. apply fits_app_r in Hf. by eapply fits_app_r.
  - by apply read_tag_write.
  - apply Hk. by apply fits_app_l in Hf.
Qed.

Definition entry_field (n : Z) (vk : @GrpcValueKind E) (e : list Z * list Z) : list Z :=
  write_tag n Len [] ++ write_len_delimited (entry_bytes vk e) [].

Definition entry_ok (kk : Kind) (vk : @GrpcValueKind E) (kv : MapKey * Value) (e : list Z * list Z)
    : Prop := key_ok kk kv.1 e.1 ∧ scalar_ok kv.2 vk e.2.

Lemma entry_encode n kk vk kv e out :
  entry_ok kk vk kv e →
  encode_map_entry enc n kk vk kv.1 kv.2 out = Ok (out ++ entry_field n vk e).
Proof.
  intros [[Hk _] Hp]. unfold encode_map_entry, entry_field, entry_bytes.
  rewrite Hk, bind_ret, app_nil_l. rewrite (enc_tagged _ _ _ _ _ Hp), bind_ret.
  rewrite write_len_app, (write_tag_app n Len out). by rewrite app_assoc.
Qed.

Lemma entry_fits n vk e : fits (entry_field n vk e) → fits (entry_bytes vk e).
Proof.
  apply fits_le. unfold entry_field. rewrite length_app.
  pose proof (write_len_pos (entry_bytes vk e)). lia.
Qed.

Lemma map_step lookup n name kk vk kv e rest obj :
  0 < n < 2 ^ 29 → lookup n = Some (name, FMap kk vk) → entry_ok kk vk kv e →
  fits (entry_field n vk e) →
  loop lookup (entry_field n vk e ++ rest) obj =
  loop lookup rest
    (map_insert name
       (VMap (match map_get name obj with Some (VMap m) => map_insert kv.1 kv.2 m | _ => [kv] end)) obj).
Proof.
  intros Hn Hl [Hk Hp] Hf. unfold entry_field at 1. rewrite <- app_assoc.
  eapply loop_map_entry; [by apply read_tag_write|done|].
  apply entry_fits in Hf. unfold decode_map_entry_into_object, expect_wire.
  rewrite decide_True, bind_ret by done. rewrite read_len_write, bind_ret by done. cbn beta iota.
  rewrite (entry_decode kk vk kv.1 kv.2), bind_ret by done. cbn beta iota.
  destruct kv as [k v]. by destruct (map_get name obj) as [[]|].
Qed.

Lemma map_steps lookup n name kk vk m es rest obj done_ :
  0 < n < 2 ^ 29 → lookup n = Some (name, FMap kk vk) → name ∉ obj.*1 →
  Forall2 (entry_ok kk vk) m es → NoDup (done_ ++ m).*1 → fits (concat (entry_field n vk <$> es)) →
  loop lookup (concat (entry_field n vk <$> es) ++ rest) (obj ++ [(name, VMap done_)]) =
  loop lookup rest (obj ++ [(name, VMap (done_ ++ m))]).
Proof.
  intros Hn Hl Hname Hes. revert done_.
  induction Hes as [|kv e m es He Hes IH]; intros done_ Hnd Hf; [by rewrite app_nil_r|].
  simpl in *. rewrite <- app_assoc. rewrite (map_step _ _ name kk vk kv) by
    (done || by eapply fits_app_l).
  rewrite map_get_app_new, map_insert_app_new by done.
  rewrite map_insert_new.
  - destruct kv as [k v]. simpl. rewrite IH; [by rewrite <- app_assoc|by rewrite <- app_assoc|].
    by eapply fits_app_r.
  - rewrite fmap_app in Hnd. apply NoDup_app in Hnd as (_ & Hd & _). intros Hin.
    apply (Hd _ Hin). simpl. left.
Qed.

Lemma map_encode n kk vk m es out :
  Forall2 (entry_ok kk vk) m es →
  try_fold (λ out '(k, v), encode_map_entry enc n kk vk k v out) m out =
  Ok (out ++ concat (entry_field n vk <$> es)).
Proof.
  intros Hes. revert out. induction Hes as [|kv e m es He Hes IH]; intros out; simpl.
  - by rewrite app_nil_r.
  - pose proof (entry_encode n kk vk kv e out He) as Hk. destruct kv as [k v]. simpl in Hk.
    rewrite Hk, bind_ret, IH. by rewrite <- app_assoc.
Qed.

Lemma map_field name fname n kk vk m es :
  0 < n < 2 ^ 29 → m ≠ [] → NoDup m.*1 → Forall2 (entry_ok kk vk) m es →
  field_ok name fname n (FMap kk vk) (VMap m) (concat (entry_field n vk <$> es)).
Proof.
  intros Hn Hne Hnd Hes. split.
  - intros out. cbn [encode_field]. rewrite field_num_eqb by done. by apply (map_encode n kk vk).
  - intros lookup obj rest Hl Hname Hf. destruct Hes as [|kv e m es He Hes]; [done|].
    simpl in Hf |- *. rewrite <- app_assoc. rewrite (map_step _ _ name kk vk kv) by
      (done || by eapply fits_app_l).
    rewrite (proj2 (map_get_None name obj)), map_insert_new by done.
    rewrite (map_steps lookup n name kk vk m es) by (done || by eapply fits_app_r). done.
Qed.

(** ** Messages *)
Definition fields_ok (lookup : Z → option (string * @GrpcFieldShape E))
    (fields : list (string * GrpcInputFieldMeta)) (e : string * Value) (p : list Z) : Prop :=
  ∃ fname n shape, map_get e.1 fields = Some (MkField fname n shape) ∧
    lookup n = Some (e.1, shape) ∧ field_ok e.1 fname n shape e.2 p.

Lemma fields_encode lookup fields m ps out :
  Forall2 (fields_ok lookup fields) m ps →
  encode_message enc fields (VObject m) out = Ok (out ++ concat ps).
Proof.
  intros Hps. cbn [encode_message]. revert out.
  induction Hps as [|[name v] p m ps Hp Hps IH]; intros out; cbn [try_fold concat].
  { simpl. by rewrite app_nil_r. }
  destruct Hp as (fname & n & shape & Hg & _ & [He _]). cbn [fst snd] in Hg, He.
  rewrite Hg, He, bind_ret, IH. by rewrite <- app_assoc.
Qed.

Lemma fields_decode lookup fields m ps obj :
  Forall2 (fields_ok lookup fields) m ps → NoDup (obj ++ m).*1 → fits (concat ps) →
  loop lookup (concat ps) obj = Ok (VObject (obj ++ m)).
Proof.
  intros Hps. revert obj. induction Hps as [|[name v] p m ps Hp Hps IH]; intros obj Hnd Hf.
  { by rewrite app_nil_r. }
  simpl in *. destruct Hp as (fname & n & shape & _ & Hl & [_ Hd]). simpl in *.
  rewrite Hd; [|done| |by eapply fits_app_l].
  - rewrite IH; [by rewrite <- app_assoc|by rewrite <- app_assoc|by eapply fits_app_r].
  - rewrite fmap_app in Hnd. apply NoDup_app in Hnd as (_ & Hn & _). intros Hin.
    apply (Hn _ Hin). simpl. left.
Qed.

(** What the induction shows of a value: as a scalar, and as a field. *)
Definition value_ok (v : Value) : Prop :=
  (∀ kind, canon_scalar kind v → ∃ p, scalar_ok v kind p) ∧
  (∀ name fname n shape, 0 < n < 2 ^ 29 → canon_field shape v →
     ∃ p, field_ok name fname n shape v p).

Lemma message_pieces fields lookup m :
  coherent fields lookup → canon_fields fields m → Forall (λ e, value_ok e.2) m →
  ∃ ps, Forall2 (fields_ok lookup fields) m ps.
Proof.
  intros Hc [_ Hm] Hv. apply Forall_exists_Forall2_l, Forall_forall. intros [name v] Hin.
  destruct (Hm name v Hin) as (fname & n & shape & Hg & Hf).
  destruct (Hc _ _ _ _ Hg) as [Hn Hl].
  destruct (proj1 (Forall_forall _ _) Hv _ Hin) as [_ Hfield].
  destruct (Hfield name fname n shape Hn Hf) as [p Hp]. exists p, fname, n, shape. done.
Qed.

Lemma message_scalar meta m :
  coherent (fields_by_name meta) (meta_lookup meta) → canon_fields (fields_by_name meta) m →
  Forall (λ e, value_ok e.2) m → ∃ p, scalar_ok (VObject m) (KMessage meta) p.
Proof.
  intros Hc Hm Hv. destruct (message_pieces _ _ m Hc Hm Hv) as [ps Hps].
  apply (scalar_len _ _ (concat ps)).
  - intros out. cbn [encode_scalar_value].
    by rewrite (fields_encode _ _ _ _ _ Hps), bind_ret, app_nil_l.
  - intros Hf src rest Hr. cbn [decode_scalar_value]. unfold expect_wire.
    rewrite decide_True, bind_ret by done. rewrite Hr, bind_ret. cbn beta iota.
    rewrite decode_message_eq, (fields_decode _ _ m ps) by (done || apply Hm). done.
Qed.

Lemma field_from_scalar v :
  (∀ kind, canon_scalar kind v → ∃ p, scalar_ok v kind p) → ∀ name fname n k,
  0 < n < 2 ^ 29 → canon_scalar k v → ∃ p, field_ok name fname n (FScalar k) v p.
Proof.
  intros Hs name fname n k Hn Hk. destruct (Hs k Hk) as [p Hp]. eexists. by apply scalar_field.
Qed.

(** A value that is neither an array nor a map is only ever a scalar field. *)
Lemma leaf_value v :
  (∀ items, v ≠ VArray items) → (∀ m, v ≠ VMap m) →
  (∀ kind, canon_scalar kind v → ∃ p, scalar_ok v kind p) → value_ok v.
Proof.
  intros Ha Hm Hs. split; [done|]. intros name fname n shape Hn Hf.
  destruct Hf as [k v Hk|k items|kk vk m]; [by apply field_from_scalar|by destruct (Ha items)|by destruct (Hm m)].
Qed.

Lemma all_values v : value_ok v.
Proof.
  induction v as [|b|i|u|f|s|b|items IH|m IH|m IH] using Value_induction.
  1-7: apply leaf_value; [done|done|]; intros kind Hk; apply scalar_leaf; [done|];
    intros meta ->; inversion Hk; by set_solver.
  - split; [intros kind Hk; inversion Hk|]. intros name fname n shape Hn Hf.
    inversion Hf as [k v Hk|k items' Hne Hall|]; subst; [inversion Hk|].
    assert (Forall (λ v, ∃ p, scalar_ok v k p) items) as Hex.
    { apply Forall_forall. intros v Hin. apply (proj1 (Forall_forall _ _) IH v Hin).
      apply (proj1 (Forall_forall _ _) Hall v Hin). }
    apply Forall_exists_Forall2_l in Hex as [ps Hps]. eexists. by eapply list_field.
  - apply leaf_value; [done|done|]. intros kind Hk. inversion Hk; subst. by apply message_scalar.
  - split; [intros kind Hk; inversion Hk|]. intros name fname n shape Hn Hf.
    inversion Hf as [k v Hk| |kk vk m' Hne Hnd Hall]; subst; [inversion Hk|].
    assert (Forall (λ kv, ∃ e, entry_ok kk vk kv e) m) as Hex.
    { apply Forall_forall. intros kv Hin. destruct (proj1 (Forall_forall _ _) Hall kv Hin) as [Hk Hv].
      destruct (key_canon _ _ Hk) as [q Hq].
      destruct (proj1 (proj1 (Forall_forall _ _) IH kv Hin) vk Hv) as [p Hp].
      by exists (q, p). }
    apply Forall_exists_Forall2_l in Hex as [es Hes]. eexists. by eapply map_field.
Qed.

(** ** Packed lists *)
Lemma packed_reader (kind : @GrpcValueKind E) :
  kind_is_packable kind = true → (∀ e, kind ≠ KEnum e) →
  ∃ read, (∀ src, no_fuel (read src)) ∧
    (∀ src v rest, read src = Ok (v, rest) → shorter rest src) ∧
    (∀ bytes, decode_packed_values kind bytes = packed_loop (length bytes) read bytes []) ∧
    (∀ src x, decode_scalar_value dec kind (wire_type_for_kind kind) src = Ok x → read src = Ok x).
Proof.
  intros Hk He.
  assert (∀ w f e1 e2 src x, read_fixed_as w f e1 src = Ok x → read_fixed_as w f e2 src = Ok x) as Hfix.
  { intros w f e1 e2 src x. unfold read_fixed_as. by destruct (_ <? _)%nat. }
  destruct kind; try done; try (exfalso; by eapply He); cbn [decode_packed_values].
  all: eexists; split_and!; [..|reflexivity|]; auto with wrkr;
    try (first [apply read_varint_as_shorter | intros ? ? ?; apply read_fixed_as_shorter; lia]).
  all: intros src x; cbn [decode_scalar_value wire_type_for_kind]; unfold expect_wire;
    rewrite decide_True, bind_ret by done; done || apply Hfix.
  Unshelve. all: try (intros; discriminate).
Qed.

Lemma packed_loop_values read items ps out :
  (∀ src, no_fuel (read src)) → (∀ src v rest, read src = Ok (v, rest) → shorter rest src) →
  Forall2 (λ v p, (0 < length p)%nat ∧ ∀ rest, read (p ++ rest) = Ok (v, rest)) items ps →
  packed_loop (length (concat ps)) read (concat ps) out = Ok (out ++ items).
Proof.
  intros H1 H2 Hps. revert out.
  induction Hps as [|v p items ps [Hlen Hp] Hps IH]; intros out; [by rewrite app_nil_r|].
  cbn [concat]. pose proof (H2 _ _ _ (Hp (concat ps))) as Hs. unfold shorter in Hs.
  destruct (p ++ concat ps) as [|b l] eqn:El; [destruct p; simpl in *; [lia|done]|].
  cbn [length packed_loop]. rewrite <- El, Hp, bind_ret. cbn beta iota.
  assert (∀ out, packed_loop (length l) read (concat ps) out =
                 packed_loop (length (concat ps)) read (concat ps) out) as Hfuel.
  { intros out'. simpl in Hs. apply packed_loop_same; [done|done|lia|done]. }
  rewrite Hfuel, IH. by rewrite <- app_assoc.
Qed.

(** A gRPC request survives its encoding: every object whose fields have
    the types the method declares, with scalars, enums, lists, maps and nested
    messages in it, is encoded without error, and decoding the bytes with the
    same message type gives the object back, as long as the bytes can be
    counted by a [u64]. *)
Lemma message_roundtrip method m :
  coherent (input_fields method) (method_lookup method) → canon_fields (input_fields method) m →
  ∃ bytes, encode_value_for_method method (VObject m) = Ok bytes ∧
    (fits bytes → decode_value_for_method method bytes = Ok (VObject m)).
Proof.
  intros Hc Hm. destruct (message_pieces _ _ m Hc Hm) as [ps Hps].
  { apply Forall_forall. intros e _. apply all_values. }
  exists (concat ps). split.
  - unfold encode_value_for_method. by rewrite (fields_encode _ _ _ _ _ Hps).
  - intros Hf. by apply (fields_decode _ _ m ps [] Hps (proj1 Hm) Hf).
Qed.

(** ** Properties *)

(** C38. Decoding terminates on every input, well formed or not: a number of
    rounds equal to the number of bytes and a nesting depth of one more are
    enough for any message type, since every round consumes at least a byte
    and an embedded message is shorter than its field; more rounds or levels
    never change the result, which is a value or one of the decoder's own
    errors. *)
Theorem decode_terminates meta bytes lookup out n fuel :
  (length bytes < n)%nat → (length bytes ≤ fuel)%nat →
  decode_level n meta bytes = decode_message_for_meta meta bytes ∧
  decode_message_for_meta meta bytes ≠ Err "out of fuel"%string ∧
  message_loop (decode_level n) fuel lookup bytes out =
    message_loop dec (length bytes) lookup bytes out ∧
  message_loop dec (length bytes) lookup bytes out ≠ Err "out of fuel"%string.
Proof.
  intros Hn Hf. split_and!.
  - apply decode_level_same; lia.
  - apply decode_message_no_fuel.
  - apply message_loop_same; [|done|done]. intros m b Hb. apply decode_level_same; lia.
  - apply (message_loop_same dec dec _ (length bytes)); [apply agree_refl|done|done].
Qed.

(** A packed list is the list of its elements: for every packable kind
    other than an enum, the values encoded one after the other without tags
    decode, as one packed field, to the same list, whatever the values. *)
Theorem packed_as_repeated kind items :
  kind_is_packable kind = true → (∀ e, kind ≠ KEnum e) → Forall (canon_scalar kind) items →
  ∃ ps, Forall2 (λ v p, ∀ out, encode_scalar_value enc v kind out = Ok (out ++ p)) items ps ∧
    (fits (concat ps) → decode_packed_values kind (concat ps) = Ok items).
Proof.
  intros Hk He Hall.
  assert (Forall (λ v, ∃ p, scalar_ok v kind p) items) as [ps Hps]%Forall_exists_Forall2_l.
  { apply (Forall_impl _ _ _ Hall). intros v. apply all_values. }
  exists ps. split; [by apply (Forall2_impl _ _ _ _ Hps); intros v p [? _]|]. intros Hf.
  destruct (packed_reader kind Hk He) as (read & H1 & H2 & H3 & H4).
  rewrite H3, (packed_loop_values read items ps []); [done..|].
  clear H3. induction Hps as [|v p items ps (_ & Hpos & Hd) Hps IH]; constructor.
  - split; [done|]. intros rest. apply H4, Hd. by eapply fits_app_l.
  - apply IH; [by inversion Hall|by eapply fits_app_r].
Qed.
End canon.

(** ** Witnesses *)
Module Demo.
(** An enum with one value, and a message with a string, a list, a map and a
    nested message. *)
#[local] Instance color : EnumDescriptor unit := {|
  get_value _ n := if n =? 1 then Some "RED"%string else None;
  get_value_by_name _ s := if decide (s = "RED"%string) then Some 1 else None
|}.

Definition inner : @GrpcMessageMeta unit :=
  MkMeta [("x"%string, MkField "x" 1 (FScalar KSint64))] [(1, ("x"%string, FScalar KSint64))].
Definition fields : list (string * @GrpcFieldShape unit) :=
  [("name"%string, FScalar KString); ("tags"%string, FList (KEnum tt));
   ("by_id"%string, FMap PInt64 KBool); ("inner"%string, FScalar (KMessage inner))].
Definition method : @GrpcMethod unit := {|
  input_fields := imap (λ i '(n, s), (n, MkField n (Z.of_nat i + 1) s)) fields;
  output_fields := imap (λ i '(n, s),
    {| out_number := Z.of_nat i + 1; out_name := n; out_shape := s |}) fields;
  output_field_index_by_number := imap (λ i _, (Z.of_nat i + 1, i)) fields
|}.
Definition request : list (string * Value) :=
  [("name"%string, VString "wrkr"); ("tags"%string, VArray [VString "RED"; VI64 7]);
   ("by_id"%string, VMap [(KeyI64 (-2), VBool true)]);
   ("inner"%string, VObject [("x"%string, VI64 (-300))])].

Lemma method_coherent : coherent (input_fields method) (method_lookup method).
Proof.
  intros name fname n shape. simpl.
  repeat (destruct (decide _) as [<-|_]; [by intros [= <- <- <-]|]). done.
Qed.

Lemma inner_coherent : coherent (fields_by_name inner) (meta_lookup inner).
Proof.
  intros name fname n shape. simpl.
  repeat (destruct (decide _) as [<-|_]; [by intros [= <- <- <-]|]). done.
Qed.

Ltac one_of H := repeat (apply elem_of_cons in H as [[= -> ->]|H]); [..|by apply elem_of_nil in H].

Ltac distinct := apply (bool_decide_unpack _); vm_compute; exact I.

Lemma request_canon : canon_fields (input_fields method) request.
Proof.
  split; [distinct|]. intros name v Hin. one_of Hin.
  - exists "name"%string, 1, (FScalar KString). split; [done|]. by repeat constructor.
  - exists "tags"%string, 2, (FList (KEnum tt)). split; [done|]. constructor; [done|].
    each (first [by apply (cs_enum_name _ 1) | by apply cs_enum_number]).
  - exists "by_id"%string, 3, (FMap PInt64 KBool). split; [done|].
    constructor; [done|distinct|].
    each (split; [apply ck_int; [set_solver|by split]|constructor]).
  - exists "inner"%string, 4, (FScalar (KMessage inner)). split; [done|]. constructor.
    apply cs_message; [apply inner_coherent|distinct|].
    intros name' v' Hin. one_of Hin. exists "x"%string, 1, (FScalar KSint64). split; [done|].
    constructor. apply cs_int; [set_solver|by split].
Qed.

Lemma message_roundtrip_demo :
  ∃ bytes, encode_value_for_method method (VObject request) = Ok bytes ∧ length bytes = 30%nat ∧
    (fits bytes → decode_value_for_method method bytes = Ok (VObject request)).
Proof.
  destruct (message_roundtrip method request method_coherent request_canon) as (bytes & H1 & H2).
  exists bytes. split; [exact H1|]. split; [|exact H2]. vm_compute in H1. by injection H1 as <-.
Defined.

Lemma decode_terminates_witness :
  decode_level 5 inner [8; 1; 9] = decode_message_for_meta inner [8; 1; 9] ∧
  decode_message_for_meta inner [8; 1; 9] ≠ Err "out of fuel"%string.
Proof.
  destruct (decode_terminates inner [8; 1; 9] (meta_lookup inner) [] 5 3) as (H1 & H2 & _);
    [simpl; lia|simpl; lia|]. split; [exact H1|exact H2].
Defined.

Lemma packed_as_repeated_witness :
  ∃ ps, Forall2 (λ v p, ∀ out, encode_scalar_value encode_scalar_field v (KSint32 (E := unit)) out
                               = Ok (out ++ p)) [VI64 (-1); VI64 300] ps ∧
    (fits (concat ps) → decode_packed_values (KSint32 (E := unit)) (concat ps) = Ok [VI64 (-1); VI64 300]).
Proof.
  apply (packed_as_repeated (KSint32 (E := unit)) [VI64 (-1); VI64 300]); [reflexivity|discriminate|].
  each (apply cs_int; [set_solver|by split]).
Defined.
End Demo.
