(* ===== verification/Proto.v ===== *)
(** * Building a method's metadata (wrkr-grpc/src/proto.rs, [ProtoSchema::method])

    From the descriptors of a compiled schema to the tree of field shapes that
    drives the codec.  Descriptors are [prost_reflect]'s, behind a class; the
    recursion of [build_message_meta], which the set of messages in progress
    keeps finite, takes fuel. *)
From S2P Require Import Prelude Text Value Wire Codec CodecLemmas CodecProps.

Inductive Error :=
  | InvalidFullMethod (full_method : string)
  | InvalidDescriptor (msg : string)
  | ServiceNotFound (service : string)
  | MethodNotFound (service method : string)
  | OutOfFuel.   (* not of the code: the model's recursion ended *)

Local Notation result A := (Prelude.result Error A).

(** [prost_reflect::Kind]. *)
Inductive DescKind (E M : Type) :=
  | DBool | DString | DBytes
  | DInt32 | DSint32 | DSfixed32
  | DInt64 | DSint64 | DSfixed64
  | DUint32 | DFixed32
  | DUint64 | DFixed64
  | DFloat | DDouble
  | DEnum (enum_desc : E)
  | DMessage (message : M).
Arguments DBool {E M}.
Arguments DString {E M}.
Arguments DBytes {E M}.
Arguments DInt32 {E M}.
Arguments DSint32 {E M}.
Arguments DSfixed32 {E M}.
Arguments DInt64 {E M}.
Arguments DSint64 {E M}.
Arguments DSfixed64 {E M}.
Arguments DUint32 {E M}.
Arguments DFixed32 {E M}.
Arguments DUint64 {E M}.
Arguments DFixed64 {E M}.
Arguments DFloat {E M}.
Arguments DDouble {E M}.
Arguments DEnum {E M} enum_desc.
Arguments DMessage {E M} message.

(** What the builder asks of a descriptor pool, and of the [http] crate: whether
    a path can be parsed. *)
Class DescriptorPool (E : Type) := {
  ServiceDescriptor : Type;
  MethodDescriptor : Type;
  MessageDescriptor : Type;
  FieldDescriptor : Type;
  get_service_by_name : string → option ServiceDescriptor;
  methods : ServiceDescriptor → list MethodDescriptor;
  method_name : MethodDescriptor → string;
  method_input : MethodDescriptor → MessageDescriptor;
  method_output : MethodDescriptor → MessageDescriptor;
  full_name : MessageDescriptor → string;
  fields : MessageDescriptor → list FieldDescriptor;
  get_field_by_name : MessageDescriptor → string → option FieldDescriptor;
  field_name : FieldDescriptor → string;
  field_number : FieldDescriptor → Z;
  field_is_map : FieldDescriptor → bool;
  field_is_list : FieldDescriptor → bool;
  field_kind : FieldDescriptor → DescKind E MessageDescriptor;
  map_key_kind : FieldDescriptor → Kind;   (* [kind()] of a map entry's key field *)
  path_is_valid : string → bool }.

Section builder.
Context {E : Type} {P : DescriptorPool E}.
Notation Meta := (@GrpcMessageMeta E).

(** [message_cache] and [message_in_progress]. *)
Record Builder := mkBuilder {
  bl_cache : gmap string Meta;
  bl_in_progress : gset string }.

Section levels.
Variable rec : MessageDescriptor → Builder → result (Meta * Builder).

Definition build_kind (kind : DescKind E MessageDescriptor) (b : Builder)
    : result (GrpcValueKind * Builder) :=
  match kind with
  | DBool => Ok (KBool, b)
  | DString => Ok (KString, b)
  | DBytes => Ok (KBytes, b)
  | DInt32 => Ok (KInt32, b)
  | DSint32 => Ok (KSint32, b)
  | DSfixed32 => Ok (KSfixed32, b)
  | DInt64 => Ok (KInt64, b)
  | DSint64 => Ok (KSint64, b)
  | DSfixed64 => Ok (KSfixed64, b)
  | DUint32 => Ok (KUint32, b)
  | DFixed32 => Ok (KFixed32, b)
  | DUint64 => Ok (KUint64, b)
  | DFixed64 => Ok (KFixed64, b)
  | DFloat => Ok (KFloat, b)
  | DDouble => Ok (KDouble, b)
  | DEnum e => Ok (KEnum e, b)
  | DMessage m => '(meta, b) ← rec m b; Ok (KMessage meta, b)
  end.

Definition build_shape (f : FieldDescriptor) (b : Builder) : result (GrpcFieldShape * Builder) :=
  if field_is_map f then
    match field_kind f with
    | DMessage entry_desc =>
        key ← ok_or (get_field_by_name entry_desc "key") (InvalidDescriptor "invalid map entry: missing key");
        value ← ok_or (get_field_by_name entry_desc "value")
                  (InvalidDescriptor "invalid map entry: missing value");
        '(kind, b) ← build_kind (field_kind value) b;
        Ok (FMap (map_key_kind key) kind, b)
    | _ => Err (InvalidDescriptor "map field did not have message kind")
    end
  else
    '(kind, b) ← build_kind (field_kind f) b;
    Ok (if field_is_list f then FList kind else FScalar kind, b).

(** [for f in msg_desc.fields()]. *)
Fixpoint build_fields (fs : list FieldDescriptor) (by_name : list (string * GrpcInputFieldMeta))
    (by_number : list (Z * (string * GrpcFieldShape))) (b : Builder) : result (Meta * Builder) :=
  match fs with
  | [] => Ok (MkMeta by_name by_number, b)
  | f :: fs =>
      let name := field_name f in
      '(shape, b) ← build_shape f b;
      let n := field_number f in
      let by_number := if n =? 0 then by_number else map_insert n (name, shape) by_number in
      build_fields fs (map_insert name (MkField name n shape) by_name) by_number b
  end.

Definition build_message (m : MessageDescriptor) (b : Builder) : result (Meta * Builder) :=
  let key := full_name m in
  match bl_cache b !! key with
  | Some existing => Ok (existing, b)
  | None =>
      if bool_decide (key ∈ bl_in_progress b) then
        Err (InvalidDescriptor ("recursive message types are not supported: " ++ full_name m))
      else
        '(meta, b) ← build_fields (fields m) [] [] (mkBuilder (bl_cache b) ({[key]} ∪ bl_in_progress b));
        Ok (meta, mkBuilder (<[key := meta]> (bl_cache b)) (bl_in_progress b ∖ {[key]}))
  end.
End levels.

Fixpoint build_message_meta (fuel : nat) (m : MessageDescriptor) (b : Builder) : result (Meta * Builder) :=
  match fuel with
  | O => Err OutOfFuel
  | S fuel => build_message (build_message_meta fuel) m b
  end.

(** The fields of a method's input, and of its output. *)
Fixpoint build_input (fuel : nat) (fs : list FieldDescriptor) (acc : list (string * GrpcInputFieldMeta))
    (b : Builder) : result (list (string * GrpcInputFieldMeta) * Builder) :=
  match fs with
  | [] => Ok (acc, b)
  | f :: fs =>
      '(shape, b) ← build_shape (build_message_meta fuel) f b;
      build_input fuel fs (map_insert (field_name f) (MkField (field_name f) (field_number f) shape) acc) b
  end.

Fixpoint build_output (fuel : nat) (fs : list FieldDescriptor) (acc : list GrpcOutputFieldMeta) (b : Builder)
    : result (list GrpcOutputFieldMeta * Builder) :=
  match fs with
  | [] => Ok (acc, b)
  | f :: fs =>
      '(shape, b) ← build_shape (build_message_meta fuel) f b;
      build_output fuel fs
        (acc ++ [{| out_number := field_number f; out_name := field_name f; out_shape := shape |}]) b
  end.

Fixpoint index_by_number (idx : nat) (metas : list (@GrpcOutputFieldMeta E)) (acc : list (Z * nat))
    : list (Z * nat) :=
  match metas with
  | [] => acc
  | meta :: metas =>
      let n := out_number meta in
      index_by_number (S idx) metas (if n =? 0 then acc else map_insert n idx acc)
  end.

Definition method (fuel : nat) (full_method : string) : result (@GrpcMethod E) :=
  '(service_name, name) ← ok_or (split_once (chr 47) full_method) (InvalidFullMethod full_method);
  service ← ok_or (get_service_by_name service_name) (ServiceNotFound service_name);
  m ← ok_or (List.find (λ m, bool_decide (method_name m = name)) (methods service))
        (MethodNotFound service_name name);
  _ ← (if path_is_valid ("/" ++ service_name ++ "/" ++ name) then Ok () else Err (InvalidFullMethod full_method));
  '(input, b) ← build_input fuel (fields (method_input m)) [] (mkBuilder ∅ ∅);
  '(output, b) ← build_output fuel (fields (method_output m)) [] b;
  Ok {| input_fields := input; output_fields := output;
        output_field_index_by_number := index_by_number 0 output [] |}.

(** ** The reference builder

    Without cache and without set: plain recursion over the descriptors, which
    has a result at some depth when no message contains itself. *)
Section ref_levels.
Variable rec : MessageDescriptor → option Meta.

Definition ref_kind (kind : DescKind E MessageDescriptor) : option GrpcValueKind :=
  match kind with
  | DBool => Some KBool
  | DString => Some KString
  | DBytes => Some KBytes
  | DInt32 => Some KInt32
  | DSint32 => Some KSint32
  | DSfixed32 => Some KSfixed32
  | DInt64 => Some KInt64
  | DSint64 => Some KSint64
  | DSfixed64 => Some KSfixed64
  | DUint32 => Some KUint32
  | DFixed32 => Some KFixed32
  | DUint64 => Some KUint64
  | DFixed64 => Some KFixed64
  | DFloat => Some KFloat
  | DDouble => Some KDouble
  | DEnum e => Some (KEnum e)
  | DMessage m => KMessage <$> rec m
  end.

Definition ref_shape (f : FieldDescriptor) : option GrpcFieldShape :=
  if field_is_map f then
    match field_kind f with
    | DMessage entry =>
        key ← get_field_by_name entry "key"; value ← get_field_by_name entry "value";
        FMap (map_key_kind key) <$> ref_kind (field_kind value)
    | _ => None
    end
  else (if field_is_list f then FList else FScalar) <$> ref_kind (field_kind f).
End ref_levels.

Definition entries_by_name (fs : list FieldDescriptor) (shapes : list GrpcFieldShape)
    : list (string * @GrpcInputFieldMeta E) :=
  zip_with (λ f s, (field_name f, MkField (field_name f) (field_number f) s)) fs shapes.
Definition entries_by_number (fs : list FieldDescriptor) (shapes : list GrpcFieldShape)
    : list (Z * (string * @GrpcFieldShape E)) :=
  zip_with (λ f s, (field_number f, (field_name f, s))) fs shapes.

Fixpoint ref_meta (n : nat) (m : MessageDescriptor) : option Meta :=
  match n with
  | O => None
  | S n =>
      shapes ← mapM (ref_shape (ref_meta n)) (fields m);
      Some (MkMeta (entries_by_name (fields m) shapes) (entries_by_number (fields m) shapes))
  end.

Definition out_entries (fs : list FieldDescriptor) (shapes : list GrpcFieldShape) : list (@GrpcOutputFieldMeta E) :=
  zip_with (λ f s, {| out_number := field_number f; out_name := field_name f; out_shape := s |}) fs shapes.

Definition ref_method (n : nat) (m : MethodDescriptor) : option (@GrpcMethod E) :=
  ishapes ← mapM (ref_shape (ref_meta n)) (fields (method_input m));
  oshapes ← mapM (ref_shape (ref_meta n)) (fields (method_output m));
  let output := out_entries (fields (method_output m)) oshapes in
  Some {| input_fields := entries_by_name (fields (method_input m)) ishapes;
          output_fields := output;
          output_field_index_by_number := imap (λ i meta, (out_number meta, i)) output |}.

(** The method a full name selects. *)
Definition find_method (full_method : string) : option MethodDescriptor :=
  '(service_name, name) ← split_once (chr 47) full_method;
  service ← get_service_by_name service_name;
  m ← List.find (λ m, bool_decide (method_name m = name)) (methods service);
  if path_is_valid ("/" ++ service_name ++ "/" ++ name) then Some m else None.
End builder.

(** What [prost_reflect] promises of a pool: finitely many messages, with names
    of their own, whose fields have distinct names and distinct valid numbers. *)
Class PoolLaws {E : Type} (P : DescriptorPool E) := {
  pool_names : list string;
  full_name_known (m : MessageDescriptor) : full_name m ∈ pool_names;
  full_name_inj (m m' : MessageDescriptor) : full_name m = full_name m' → m = m';
  names_distinct (m : MessageDescriptor) : NoDup (field_name <$> fields m);
  numbers_distinct (m : MessageDescriptor) : NoDup (field_number <$> fields m);
  numbers_valid (m : MessageDescriptor) f : f ∈ fields m → 0 < field_number f < 2 ^ 29 }.

(** ** The builder is the reference *)
Section correct.
Context {E : Type} {P : DescriptorPool E} {L : PoolLaws P}.
Notation Meta := (@GrpcMessageMeta E).

(** The message a field's values are, if any. *)
Definition kind_message (kind : DescKind E MessageDescriptor) : option MessageDescriptor :=
  match kind with DMessage m => Some m | _ => None end.
Definition target (f : FieldDescriptor) : option MessageDescriptor :=
  if field_is_map f then
    entry ← kind_message (field_kind f); value ← get_field_by_name entry "value";
    kind_message (field_kind value)
  else kind_message (field_kind f).

Definition contains (m m' : MessageDescriptor) : Prop := ∃ f, f ∈ fields m ∧ target f = Some m'.

(** *** The reference *)
Definition mono {A} (ref : nat → option A) : Prop := ∀ n m a, (n ≤ m)%nat → ref n = Some a → ref m = Some a.

Lemma mono_same {A} (ref : nat → option A) n m a a' :
  mono ref → ref n = Some a → ref m = Some a' → a = a'.
Proof.
  intros Hm Hn Hm'. destruct (Nat.le_ge_cases n m) as [Hle|Hle].
  - rewrite (Hm _ _ _ Hle Hn) in Hm'. by simplify_eq.
  - rewrite (Hm _ _ _ Hle Hm') in Hn. by simplify_eq.
Qed.

Lemma mono_bind {A B} (r1 : nat → option A) (r2 : A → nat → option B) :
  mono r1 → (∀ a, mono (r2 a)) → mono (λ n, a ← r1 n; r2 a n).
Proof.
  intros H1 H2 n m b Hle. destruct (r1 n) as [a|] eqn:Ha; [|done]. simpl. intros Hb.
  rewrite (H1 _ _ _ Hle Ha). simpl. by eapply H2.
Qed.

Lemma mono_const {A} (o : option A) : mono (λ _, o).
Proof. by intros n m a _ Ho. Qed.

Lemma mono_fmap {A B} (f : A → B) (r : nat → option A) : mono r → mono (λ n, f <$> r n).
Proof.
  intros Hr n m b Hle. destruct (r n) as [a|] eqn:Ha; [|done]. simpl. intros [= <-].
  by rewrite (Hr _ _ _ Hle Ha).
Qed.

Lemma mono_mapM {A B} (f : nat → A → option B) l : (∀ x, mono (λ n, f n x)) → mono (λ n, mapM (f n) l).
Proof.
  intros Hf. induction l as [|x l IH]; [intros n m a _ Ha; exact Ha|]. simpl.
  apply mono_bind; [done|]. intros y. apply mono_bind; [done|]. intros k. apply mono_const.
Qed.

Lemma mono_ref_kind (r : nat → MessageDescriptor → option Meta) kind :
  (∀ m, mono (λ n, r n m)) → mono (λ n, ref_kind (r n) kind).
Proof. intros Hr. destruct kind; simpl; try apply mono_const. by apply mono_fmap. Qed.

Lemma mono_ref_shape (r : nat → MessageDescriptor → option Meta) f :
  (∀ m, mono (λ n, r n m)) → mono (λ n, ref_shape (r n) f).
Proof.
  intros Hr. unfold ref_shape. destruct (field_is_map f); [|by apply mono_fmap, mono_ref_kind].
  destruct (field_kind f); try apply mono_const.
  apply mono_bind; [apply mono_const|]. intros key. apply mono_bind; [apply mono_const|]. intros value.
  by apply mono_fmap, mono_ref_kind.
Qed.

Lemma ref_meta_S n m x : ref_meta n m = Some x → ref_meta (S n) m = Some x.
Proof.
  revert m x. induction n as [|n IH]; intros m x; [done|]. intros Hx.
  change (ref_meta (S (S n)) m) with
    (shapes ← mapM (ref_shape (ref_meta (S n))) (fields m);
     Some (MkMeta (entries_by_name (fields m) shapes) (entries_by_number (fields m) shapes))).
  cbn [ref_meta] in Hx. destruct (mapM _ (fields m)) as [shapes|] eqn:Hs; [|done].
  assert (∀ m', mono (λ i, match i with O => ref_meta n m' | _ => ref_meta (S n) m' end)) as Hm.
  { intros m' [|i] [|j] a Hle Ha; [done|by apply IH|lia|done]. }
  pose proof (mono_mapM (λ i, ref_shape (λ m', match i with O => ref_meta n m' | _ => ref_meta (S n) m' end))
    (fields m)) as Hmm.
  assert (mapM (ref_shape (ref_meta (S n))) (fields m) = Some shapes) as ->
    by exact (Hmm (λ f, mono_ref_shape _ f Hm) 0%nat 1%nat shapes ltac:(lia) Hs). done.
Qed.

Lemma mono_ref_meta m : mono (λ n, ref_meta n m).
Proof. intros n k a Hle Ha. induction Hle as [|k _ IH]; [done|]. by apply ref_meta_S. Qed.

(** *** Recursive messages have no metadata *)
Lemma ref_target rec f m' : target f = Some m' → rec m' = None → ref_shape (E := E) rec f = None.
Proof.
  unfold target, ref_shape. intros Ht Hr. destruct (field_is_map f).
  - destruct (field_kind f) as [| | | | | | | | | | | | | | | |entry]; try done. simpl in Ht.
    destruct (get_field_by_name entry "value") as [v|]; [|done]. simpl in Ht.
    destruct (get_field_by_name entry "key"); [|done]. simpl.
    destruct (field_kind v); simplify_eq/=. by rewrite Hr.
  - destruct (field_kind f); simplify_eq/=. by rewrite Hr.
Qed.

Lemma ref_contains n m x m' :
  ref_meta n m = Some x → contains m m' → ∃ k y, (k < n)%nat ∧ ref_meta k m' = Some y.
Proof.
  intros Hx (f & Hf & Ht). destruct n as [|n]; [done|]. cbn [ref_meta] in Hx.
  destruct (mapM _ (fields m)) as [shapes|] eqn:Hs; [|done].
  apply mapM_Some_1 in Hs. apply list_elem_of_lookup_1 in Hf as [i Hi].
  destruct (Forall2_lookup_l _ _ _ _ _ Hs Hi) as (s & _ & Hs').
  destruct (ref_meta n m') as [y|] eqn:Hy; [by exists n, y; split; [lia|]|].
  by rewrite (ref_target _ _ _ Ht Hy) in Hs'.
Qed.

Lemma ref_contains_tc n m x m' :
  ref_meta n m = Some x → tc contains m m' → ∃ k y, (k < n)%nat ∧ ref_meta k m' = Some y.
Proof.
  intros Hx Ht. revert n x Hx. induction Ht as [m m' Hc|m m1 m' Hc _ IH]; intros n x Hx.
  - by eapply ref_contains.
  - destruct (ref_contains _ _ _ _ Hx Hc) as (k & y & Hk & Hy).
    destruct (IH _ _ Hy) as (j & z & Hj & Hz). exists j, z. split; [lia|done].
Qed.

Lemma recursive_none n m : tc contains m m → ref_meta n m = None.
Proof.
  intros Ht. induction n as [n IH] using lt_wf_ind. destruct (ref_meta n m) as [x|] eqn:Hx; [|done].
  destruct (ref_contains_tc _ _ _ _ Hx Ht) as (k & y & Hk & Hy). by rewrite IH in Hy.
Qed.
(** *** The builder's state *)
Definition ok_cache (b : @Builder E) : Prop :=
  ∀ m meta, bl_cache b !! full_name m = Some meta → ∃ n, ref_meta n m = Some meta.

(** The messages in progress are those a message is being built for. *)
Definition on_path (b : @Builder E) (m : MessageDescriptor) : Prop :=
  ∀ k, k ∈ bl_in_progress b → ∃ a, full_name a = k ∧ tc contains a m.

(** How many messages are not in progress: the fuel the builder needs. *)
Definition unvisited (b : @Builder E) : nat :=
  length (filter (λ k, k ∉ bl_in_progress b) pool_names).

(** A result is that of the reference, and leaves the set as it was. *)
Definition outcome {A} (b : @Builder E) (res : result (A * Builder)) (ref : nat → option A) : Prop :=
  match res with
  | Ok (a, b') => bl_in_progress b' = bl_in_progress b ∧ ok_cache b' ∧ ∃ n, ref n = Some a
  | Err e => (∃ msg, e = InvalidDescriptor msg) ∧ ∀ n, ref n = None
  end.

Lemma outcome_bind {A B} b (res : result (A * Builder)) (ref : nat → option A)
    (k : A → Builder → result (B * Builder)) (ref' : A → nat → option B) :
  mono ref → (∀ a, mono (ref' a)) → outcome b res ref →
  (∀ a b', bl_in_progress b' = bl_in_progress b → ok_cache b' → (∃ n, ref n = Some a) →
     outcome b' (k a b') (ref' a)) →
  outcome b ('(a, b') ← res; k a b') (λ n, a ← ref n; ref' a n).
Proof.
  intros Hm Hm' Hres Hk. destruct res as [[a b']|e]; simpl in *.
  - destruct Hres as (Hip & Hc & n & Hn). specialize (Hk a b' Hip Hc ltac:(by exists n)).
    destruct (k a b') as [[x b2]|e]; simpl in *.
    + destruct Hk as (Hip2 & Hc2 & n' & Hn'). split_and!; [congruence|done|]. exists (n + n')%nat.
      rewrite (Hm n (n + n')%nat a) by (done || lia). simpl. apply (Hm' a n'); [lia|done].
    + destruct Hk as [He Hnone]. split; [done|]. intros i. destruct (ref i) as [a'|] eqn:Ha; [|done]. simpl.
      by rewrite (mono_same ref i n a' a Hm Ha Hn).
  - destruct Hres as [He Hnone]. split; [done|]. intros n. by rewrite Hnone.
Qed.

Lemma outcome_ret {A} b (a : A) : ok_cache b → outcome b (Ok (a, b)) (λ _, Some a).
Proof. intros Hc. split_and!; [done|done|]. by exists 0%nat. Qed.

Lemma outcome_ext {A} b (res : result (A * Builder)) ref ref' :
  (∀ n, ref n = ref' n) → outcome b res ref → outcome b res ref'.
Proof.
  intros He. destruct res as [[a b']|e]; simpl.
  - intros (? & ? & n & Hn). split_and!; [done|done|]. exists n. by rewrite <- He.
  - intros [? Hn]. split; [done|]. intros n. by rewrite <- He.
Qed.

(** What a level of the recursion promises. *)
Definition level_ok (k : nat) (rec : MessageDescriptor → Builder → result (Meta * Builder)) : Prop :=
  ∀ m b, ok_cache b → on_path b m → (unvisited b < k)%nat →
    outcome b (rec m b) (λ n, ref_meta n m).

Lemma build_kind_ok k rec kind b :
  level_ok k rec → ok_cache b → (∀ m, kind_message kind = Some m → on_path b m) → (unvisited b < k)%nat →
  outcome b (build_kind rec kind b) (λ n, ref_kind (ref_meta n) kind).
Proof.
  intros Hrec Hc Hp Hk. destruct kind; simpl; try by apply outcome_ret.
  eapply outcome_ext; [|apply (outcome_bind b _ (λ n, ref_meta n message)
    (λ meta b, Ok (KMessage meta, b)) (λ meta _, Some (KMessage meta)))].
  - intros n. cbn beta. by destruct (ref_meta n message).
  - apply mono_ref_meta.
  - intros a. apply mono_const.
  - apply Hrec; [done|by apply Hp|done].
  - intros a b' _ Hc' _. by apply outcome_ret.
Qed.

Lemma build_shape_ok k rec f b :
  level_ok k rec → ok_cache b → (∀ m, target f = Some m → on_path b m) → (unvisited b < k)%nat →
  outcome b (build_shape rec f b) (λ n, ref_shape (ref_meta n) f).
Proof.
  intros Hrec Hc Hp Hk. unfold build_shape, ref_shape, target in *. destruct (field_is_map f).
  - destruct (field_kind f) as [| | | | | | | | | | | | | | | |entry]; try (by split; [eexists|]).
    simpl in Hp. destruct (get_field_by_name entry "key") as [key|]; [|by split; [eexists|]]. simpl.
    destruct (get_field_by_name entry "value") as [value|]; [|by split; [eexists|]]. simpl in *.
    eapply outcome_ext; [|apply (outcome_bind b _ (λ n, ref_kind (ref_meta n) (field_kind value))
      (λ kind b, Ok (FMap (map_key_kind key) kind, b)) (λ kind _, Some (FMap (map_key_kind key) kind)))].
    + intros n. cbn beta. by destruct (ref_kind _ _).
    + apply mono_ref_kind. intros m. apply mono_ref_meta.
    + intros a. apply mono_const.
    + by eapply build_kind_ok.
    + intros a b' _ Hc' _. by apply outcome_ret.
  - eapply outcome_ext; [|apply (outcome_bind b _ (λ n, ref_kind (ref_meta n) (field_kind f))
      (λ kind b, Ok (if field_is_list f then FList kind else FScalar kind, b))
      (λ kind _, Some (if field_is_list f then FList kind else FScalar kind)))].
    + intros n. cbn beta. by destruct (ref_kind _ _), (field_is_list f).
    + apply mono_ref_kind. intros m. apply mono_ref_meta.
    + intros a. apply mono_const.
    + by eapply build_kind_ok.
    + intros a b' _ Hc' _. by apply outcome_ret.
Qed.

Lemma unvisited_same (b b' : @Builder E) : bl_in_progress b' = bl_in_progress b → unvisited b' = unvisited b.
Proof. intros He. unfold unvisited. by rewrite He. Qed.

Lemma on_path_same (b b' : @Builder E) m : bl_in_progress b' = bl_in_progress b → on_path b m → on_path b' m.
Proof. intros He. unfold on_path. by rewrite He. Qed.

Lemma build_fields_ok k rec fs by_name by_number b :
  level_ok k rec → ok_cache b → (∀ f m, f ∈ fs → target f = Some m → on_path b m) → (unvisited b < k)%nat →
  NoDup (field_name <$> fs) → NoDup (field_number <$> fs) → (∀ f, f ∈ fs → field_number f ≠ 0) →
  (∀ f, f ∈ fs → field_name f ∉ by_name.*1) → (∀ f, f ∈ fs → field_number f ∉ by_number.*1) →
  outcome b (build_fields rec fs by_name by_number b)
    (λ n, shapes ← mapM (ref_shape (ref_meta n)) fs;
       Some (MkMeta (by_name ++ entries_by_name fs shapes) (by_number ++ entries_by_number fs shapes))).
Proof.
  intros Hrec. revert by_name by_number b.
  induction fs as [|f fs IH]; intros by_name by_number b Hc Hp Hk Hn Hnum Hz Hfn Hfnum.
  { eapply outcome_ext; [|by apply outcome_ret]. intros n. simpl. by rewrite !app_nil_r. }
  cbn [build_fields]. rewrite !fmap_cons in *. apply NoDup_cons in Hn as [Hn1 Hn2]. apply NoDup_cons in Hnum as [Hm1 Hm2].
  pose proof (Hz f ltac:(set_solver)) as Hf0.
  eapply outcome_ext; [|apply (outcome_bind b _ (λ n, ref_shape (ref_meta n) f) _
    (λ s n, shapes ← mapM (ref_shape (ref_meta n)) fs;
       Some (MkMeta ((by_name ++ [(field_name f, MkField (field_name f) (field_number f) s)]) ++ entries_by_name fs shapes)
                    ((by_number ++ [(field_number f, (field_name f, s))]) ++ entries_by_number fs shapes))))].
  - intros n. simpl. destruct (ref_shape _ f) as [s|]; [|done]. simpl.
    destruct (mapM _ fs) as [shapes|]; [|done]. simpl. by rewrite <- !app_assoc.
  - apply mono_ref_shape, mono_ref_meta.
  - intros s. apply mono_bind; [|intros shapes; apply mono_const].
    apply (mono_mapM (λ n, ref_shape (ref_meta n))). intros x. apply mono_ref_shape, mono_ref_meta.
  - eapply build_shape_ok; [done|done| |done]. intros m Hm. by apply (Hp f); [set_solver|].
  - intros s b' Hip Hc' _. cbv zeta. rewrite (proj2 (Z.eqb_neq _ _) Hf0).
    rewrite !map_insert_new by (set_solver).
    apply IH; [done| |by rewrite (unvisited_same b b' Hip)|done|done|set_solver| |].
    + intros f' m Hf' Hm. eapply on_path_same; [exact Hip|]. apply (Hp f'); [set_solver|done].
    + intros f' Hf'. rewrite fmap_app. simpl. intros [Hin|Hin]%elem_of_app; [by apply (Hfn f'); [set_solver|]|].
      apply list_elem_of_singleton in Hin. apply Hn1. rewrite <- Hin. by apply list_elem_of_fmap_2.
    + intros f' Hf'. rewrite fmap_app. simpl. intros [Hin|Hin]%elem_of_app; [by apply (Hfnum f'); [set_solver|]|].
      apply list_elem_of_singleton in Hin. apply Hm1. rewrite <- Hin. by apply list_elem_of_fmap_2.
Qed.

Lemma filter_shrinks (key : string) (ip : gset string) l :
  key ∈ l → key ∉ ip →
  (length (filter (λ k, k ∉ {[key]} ∪ ip) l) < length (filter (λ k, k ∉ ip) l))%nat.
Proof.
  intros Hin Hk. assert (∀ l, (length (filter (λ k, k ∉ {[key]} ∪ ip) l) ≤ length (filter (λ k, k ∉ ip) l))%nat) as Hle.
  { clear. intros l. induction l as [|x l IH]; [done|]. rewrite !filter_cons.
    repeat case_decide; simpl; set_solver by lia. }
  induction l as [|x l IH]; [set_solver|]. rewrite !filter_cons. specialize (Hle l).
  destruct (decide (x = key)) as [->|Hne].
  - rewrite decide_False by set_solver. rewrite decide_True by done. simpl. lia.
  - specialize (IH ltac:(set_solver)). repeat case_decide; simpl; set_solver by lia.
Qed.

Lemma build_message_ok k rec : level_ok k rec → level_ok (S k) (build_message rec).
Proof.
  intros Hrec m b Hc Hp Hk. unfold build_message. destruct (bl_cache b !! full_name m) as [meta|] eqn:Hcache.
  { split_and!; [done|done|]. by apply Hc. }
  case_bool_decide as Hin.
  { split; [by eexists|]. intros n. destruct (Hp _ Hin) as (a & Ha & Ht).
    apply full_name_inj in Ha as ->. by apply recursive_none. }
  set (b1 := mkBuilder (bl_cache b) ({[full_name m]} ∪ bl_in_progress b)).
  assert (outcome b1 (build_fields rec (fields m) [] [] b1)
    (λ n, shapes ← mapM (ref_shape (ref_meta n)) (fields m);
       Some (MkMeta (entries_by_name (fields m) shapes) (entries_by_number (fields m) shapes)))) as Hf.
  { apply (build_fields_ok k rec); try done.
    - intros f m' Hf Ht k' Hk'. simpl in Hk'. apply elem_of_union in Hk' as [Hk'%elem_of_singleton|Hk'].
      + exists m. split; [done|]. apply tc_once. by exists f.
      + destruct (Hp _ Hk') as (a & Ha & Hta). exists a. split; [done|]. eapply tc_r; [exact Hta|]. by exists f.
    - unfold unvisited in *. simpl. pose proof (filter_shrinks (full_name m) (bl_in_progress b) pool_names
        (full_name_known m) Hin). lia.
    - apply names_distinct.
    - apply numbers_distinct.
    - intros f Hf. pose proof (numbers_valid m f Hf). lia.
    - set_solver.
    - set_solver. }
  destruct (build_fields rec (fields m) [] [] b1) as [[meta b']|e]; simpl in Hf |- *.
  - destruct Hf as (Hip & Hc' & n & Hn). assert (ref_meta (S n) m = Some meta) as Hmeta by exact Hn.
    split_and!; [rewrite Hip; set_solver| |by exists (S n)].
    intros m' meta' Hl. simpl in Hl. destruct (decide (full_name m' = full_name m)) as [He|Hne].
    + apply full_name_inj in He as ->. rewrite lookup_insert_eq in Hl. simplify_eq. by exists (S n).
    + rewrite lookup_insert_ne in Hl by done. by apply Hc'.
  - destruct Hf as [He Hnone]. split; [done|]. intros [|n]; [done|]. apply Hnone.
Qed.

Lemma build_message_meta_ok fuel : level_ok fuel (build_message_meta fuel).
Proof.
  induction fuel as [|fuel IH]; [intros m b _ _ Hk; lia|]. cbn [build_message_meta]. by apply build_message_ok.
Qed.

(** *** Methods *)
Lemma on_path_empty (b : @Builder E) m : bl_in_progress b = ∅ → on_path b m.
Proof. intros He k. rewrite He. set_solver. Qed.

Lemma unvisited_empty (b : @Builder E) : bl_in_progress b = ∅ → unvisited b = length pool_names.
Proof.
  intros He. unfold unvisited. rewrite He. induction pool_names as [|x l IH]; [done|].
  rewrite filter_cons, decide_True by set_solver. simpl. by rewrite IH.
Qed.

Lemma shape_at_top fuel f (b : @Builder E) :
  (length pool_names < fuel)%nat → ok_cache b → bl_in_progress b = ∅ →
  outcome b (build_shape (build_message_meta fuel) f b) (λ n, ref_shape (ref_meta n) f).
Proof.
  intros Hfuel Hc He. apply (build_shape_ok fuel); [apply build_message_meta_ok|done| |].
  - intros m _. by apply on_path_empty.
  - by rewrite unvisited_empty.
Qed.

Lemma mono_shapes fs : mono (λ n, mapM (ref_shape (E := E) (ref_meta n)) fs).
Proof. apply (mono_mapM (λ n, ref_shape (ref_meta n))). intros f. apply mono_ref_shape, mono_ref_meta. Qed.

Lemma build_input_ok fuel fs acc (b : @Builder E) :
  (length pool_names < fuel)%nat → ok_cache b → bl_in_progress b = ∅ → NoDup (field_name <$> fs) →
  (∀ f, f ∈ fs → field_name f ∉ acc.*1) →
  outcome b (build_input fuel fs acc b)
    (λ n, shapes ← mapM (ref_shape (ref_meta n)) fs; Some (acc ++ entries_by_name fs shapes)).
Proof.
  intros Hfuel. revert acc b. induction fs as [|f fs IH]; intros acc b Hc He Hn Hacc.
  { eapply outcome_ext; [|by apply outcome_ret]. intros n. simpl. by rewrite app_nil_r. }
  cbn [build_input]. rewrite fmap_cons in Hn. apply NoDup_cons in Hn as [Hn1 Hn2].
  eapply outcome_ext; [|apply (outcome_bind b _ (λ n, ref_shape (ref_meta n) f) _
    (λ s n, shapes ← mapM (ref_shape (ref_meta n)) fs;
       Some ((acc ++ [(field_name f, MkField (field_name f) (field_number f) s)]) ++ entries_by_name fs shapes)))].
  - intros n. simpl. destruct (ref_shape _ f) as [s|]; [|done]. simpl.
    destruct (mapM _ fs) as [shapes|]; [|done]. simpl. by rewrite <- !app_assoc.
  - apply mono_ref_shape, mono_ref_meta.
  - intros s. apply mono_bind; [apply mono_shapes|intros shapes; apply mono_const].
  - by apply shape_at_top.
  - intros s b' Hip Hc' _. rewrite map_insert_new by (apply Hacc; set_solver).
    apply IH; [done|congruence|done|].
    intros f' Hf'. rewrite fmap_app. simpl. intros [Hin|Hin]%elem_of_app; [by apply (Hacc f'); [set_solver|]|].
    apply list_elem_of_singleton in Hin. apply Hn1. rewrite <- Hin. by apply list_elem_of_fmap_2.
Qed.

Lemma build_output_ok fuel fs acc (b : @Builder E) :
  (length pool_names < fuel)%nat → ok_cache b → bl_in_progress b = ∅ →
  outcome b (build_output fuel fs acc b)
    (λ n, shapes ← mapM (ref_shape (ref_meta n)) fs; Some (acc ++ out_entries fs shapes)).
Proof.
  intros Hfuel. revert acc b. induction fs as [|f fs IH]; intros acc b Hc He.
  { eapply outcome_ext; [|by apply outcome_ret]. intros n. simpl. by rewrite app_nil_r. }
  cbn [build_output].
  eapply outcome_ext; [|apply (outcome_bind b _ (λ n, ref_shape (ref_meta n) f) _
    (λ s n, shapes ← mapM (ref_shape (ref_meta n)) fs;
       Some ((acc ++ [{| out_number := field_number f; out_name := field_name f; out_shape := s |}])
             ++ out_entries fs shapes)))].
  - intros n. simpl. destruct (ref_shape _ f) as [s|]; [|done]. simpl.
    destruct (mapM _ fs) as [shapes|]; [|done]. simpl. by rewrite <- !app_assoc.
  - apply mono_ref_shape, mono_ref_meta.
  - intros s. apply mono_bind; [apply mono_shapes|intros shapes; apply mono_const].
  - by apply shape_at_top.
  - intros s b' Hip Hc' _. apply IH; [done|congruence].
Qed.

Lemma index_by_number_distinct i (metas : list (@GrpcOutputFieldMeta E)) acc :
  NoDup (out_number <$> metas) → (∀ m, m ∈ metas → out_number m ≠ 0) →
  (∀ m, m ∈ metas → out_number m ∉ acc.*1) →
  index_by_number i metas acc = acc ++ imap (λ j meta, (out_number meta, (i + j)%nat)) metas.
Proof.
  revert i acc. induction metas as [|m metas IH]; intros i acc Hn Hz Hacc; [by rewrite app_nil_r|].
  cbn [index_by_number]. rewrite fmap_cons in Hn. apply NoDup_cons in Hn as [Hn1 Hn2].
  rewrite (proj2 (Z.eqb_neq _ _)) by (apply Hz; set_solver).
  rewrite map_insert_new by (apply Hacc; set_solver). rewrite IH; [|done|set_solver|].
  - rewrite imap_cons, <- app_assoc. simpl. rewrite Nat.add_0_r. f_equal. f_equal.
    apply imap_ext. intros j x _. simpl. f_equal. lia.
  - intros m' Hm'. rewrite fmap_app. simpl. intros [Hin|Hin]%elem_of_app; [by apply (Hacc m'); [set_solver|]|].
    apply list_elem_of_singleton in Hin. apply Hn1. rewrite <- Hin. by apply list_elem_of_fmap_2.
Qed.

Lemma out_entries_numbers fs (shapes : list (@GrpcFieldShape E)) :
  length shapes = length fs → out_number <$> out_entries fs shapes = field_number <$> fs.
Proof.
  revert shapes. induction fs as [|f fs IH]; intros [|s shapes] Hl; try done.
  injection Hl as Hl. change (out_entries (f :: fs) (s :: shapes)) with
    ({| out_number := field_number f; out_name := field_name f; out_shape := s |} :: out_entries fs shapes).
  rewrite !fmap_cons. by rewrite IH.
Qed.

(** The result of [method], in terms of the reference. *)
Lemma method_ok fuel full_method :
  (length pool_names < fuel)%nat →
  match method fuel full_method with
  | Ok gm => ∃ m n, find_method full_method = Some m ∧ ref_method n m = Some gm
  | Err (InvalidDescriptor _) => ∃ m, find_method full_method = Some m ∧ ∀ n, ref_method n m = None
  | Err OutOfFuel => False
  | Err _ => find_method full_method = None
  end.
Proof.
  intros Hfuel. unfold method, find_method.
  destruct (split_once _ full_method) as [[service_name name]|]; [|done]. simpl.
  destruct (get_service_by_name service_name) as [service|]; [|done]. simpl.
  destruct (List.find _ (methods service)) as [m|]; [|done]. simpl.
  destruct (path_is_valid _); [|done]. simpl.
  assert (ok_cache (mkBuilder ∅ ∅)) as Hc by (intros m' meta; simpl; by rewrite lookup_empty).
  pose proof (build_input_ok fuel (fields (method_input m)) [] (mkBuilder ∅ ∅) Hfuel Hc eq_refl
    (names_distinct _)) as Hin.
  destruct (build_input _ _ _ _) as [[input b1]|e]; simpl in Hin |- *.
  2: { destruct Hin as [[msg ->] Hnone]; [set_solver|]. exists m. split; [done|]. intros n.
       unfold ref_method. specialize (Hnone n). cbn beta in Hnone. by destruct (mapM _ (fields (method_input m))). }
  destruct Hin as (Hip & Hc1 & n1 & Hn1); [set_solver|].
  pose proof (build_output_ok fuel (fields (method_output m)) [] b1 Hfuel Hc1 Hip) as Hout.
  destruct (build_output _ _ _ _) as [[output b2]|e]; simpl in Hout |- *.
  2: { destruct Hout as [[msg ->] Hnone]. exists m. split; [done|]. intros n. unfold ref_method.
       specialize (Hnone n). cbn beta in Hnone.
       destruct (mapM (ref_shape (ref_meta n)) (fields (method_input m))); [|done]. simpl.
       by destruct (mapM (ref_shape (ref_meta n)) (fields (method_output m))). }
  destruct Hout as (_ & _ & n2 & Hn2). exists m, (n1 + n2)%nat. split; [done|].
  destruct (mapM _ (fields (method_input m))) as [ins|] eqn:Hi; simplify_eq/=.
  destruct (mapM _ (fields (method_output m))) as [outs|] eqn:Ho; simplify_eq/=.
  unfold ref_method. rewrite (mono_shapes _ n1 (n1 + n2)%nat ins ltac:(lia) Hi). simpl.
  rewrite (mono_shapes _ n2 (n1 + n2)%nat outs ltac:(lia) Ho). simpl. f_equal. f_equal.
  assert (out_number <$> out_entries (fields (method_output m)) outs = field_number <$> fields (method_output m)) as Hnum.
  { apply out_entries_numbers. symmetry. by eapply length_mapM. }
  rewrite index_by_number_distinct; [done| | |set_solver].
  - rewrite Hnum. apply numbers_distinct.
  - intros x Hx. apply (list_elem_of_fmap_2 out_number) in Hx. rewrite Hnum in Hx.
    apply list_elem_of_fmap in Hx as (f & -> & Hf). pose proof (numbers_valid _ f Hf). lia.
Qed.

Lemma recursion_rejected fuel full_method m c :
  (length pool_names < fuel)%nat → find_method full_method = Some m →
  rtc contains (method_input m) c ∨ rtc contains (method_output m) c → tc contains c c →
  ∃ msg, method fuel full_method = Err (InvalidDescriptor msg).
Proof.
  intros Hfuel Hm Hreach Hc. pose proof (method_ok fuel full_method Hfuel) as Hok.
  assert (∀ n a x, ref_meta n a = Some x → ¬ rtc contains a c) as Hno.
  { intros n a x Hx [->|Ht]%rtc_tc; [by rewrite (recursive_none n c Hc) in Hx|].
    destruct (ref_contains_tc _ _ _ _ Hx Ht) as (k & y & _ & Hy). by rewrite (recursive_none k c Hc) in Hy. }
  destruct (method fuel full_method) as [gm|[]] eqn:Eq; rewrite ?Hm in *; try done; [|by eexists].
  destruct Hok as (m' & n & [= <-] & Hn). exfalso. unfold ref_method in Hn.
  destruct (mapM _ (fields (method_input m))) as [ins|] eqn:Hi; [|done]. simpl in Hn.
  destruct (mapM _ (fields (method_output m))) as [outs|] eqn:Ho; [|done].
  destruct Hreach as [Hreach|Hreach]; eapply (Hno (S n)); try exact Hreach; cbn [ref_meta];
    [by rewrite Hi|by rewrite Ho].
Qed.

(** *** The two indexes of a message agree *)
Lemma map_get_entries name fname n s fs (shapes : list (@GrpcFieldShape E)) :
  map_get name (entries_by_name fs shapes) = Some (MkField fname n s) →
  ∃ i f, fs !! i = Some f ∧ shapes !! i = Some s ∧ field_name f = name ∧ field_number f = n.
Proof.
  revert shapes. induction fs as [|f fs IH]; intros [|s0 shapes]; try done. simpl.
  destruct (decide (field_name f = name)) as [<-|Hne].
  - intros [= <- <- <-]. by exists 0%nat, f.
  - intros Hg. destruct (IH shapes Hg) as (i & f' & ?). by exists (S i), f'.
Qed.

Lemma map_get_number i f s fs (shapes : list (@GrpcFieldShape E)) :
  NoDup (field_number <$> fs) → fs !! i = Some f → shapes !! i = Some s →
  map_get (field_number f) (entries_by_number fs shapes) = Some (field_name f, s).
Proof.
  revert i shapes. induction fs as [|f0 fs IH]; intros i [|s0 shapes] Hn Hf Hs; try done.
  rewrite fmap_cons in Hn. apply NoDup_cons in Hn as [H1 H2]. destruct i as [|i]; simplify_eq/=.
  - by rewrite decide_True.
  - rewrite decide_False; [by apply (IH i)|]. intros He. apply H1. rewrite He.
    apply list_elem_of_fmap_2. by eapply list_elem_of_lookup_2.
Qed.

Lemma map_get_imap k i (x : @GrpcOutputFieldMeta E) l :
  NoDup (out_number <$> l) → l !! i = Some x →
  map_get (out_number x) (imap (λ j meta, (out_number meta, (k + j)%nat)) l) = Some (k + i)%nat.
Proof.
  revert i k. induction l as [|y l IH]; intros i k Hn Hi; [done|].
  rewrite fmap_cons in Hn. apply NoDup_cons in Hn as [H1 H2]. rewrite imap_cons. simpl.
  destruct i as [|i]; simplify_eq/=; [by rewrite decide_True|].
  rewrite decide_False.
  - rewrite (imap_ext _ (λ j meta, (out_number meta, (S k + j)%nat))).
    + rewrite (IH i (S k)) by done. f_equal. lia.
    + intros j z _. simpl. f_equal. lia.
  - intros He. apply H1. rewrite He. apply list_elem_of_fmap_2. by eapply list_elem_of_lookup_2.
Qed.

Lemma ref_meta_coherent n m meta :
  ref_meta n m = Some meta → coherent (fields_by_name meta) (meta_lookup meta).
Proof.
  destruct n as [|n]; [done|]. cbn [ref_meta]. destruct (mapM _ _) as [shapes|] eqn:Hs; [|done].
  intros [= <-] name fname k s Hg. simpl in Hg.
  destruct (map_get_entries _ _ _ _ _ _ Hg) as (i & f & Hf & Hsi & <- & <-). split.
  - apply (numbers_valid m). by eapply list_elem_of_lookup_2.
  - unfold meta_lookup. simpl. eapply map_get_number; [apply numbers_distinct|done|done].
Qed.

Definition shape_kind (s : @GrpcFieldShape E) : GrpcValueKind :=
  match s with FScalar k | FList k | FMap _ k => k end.

(** At every depth of a kind, the indexes of the messages agree. *)
Inductive kind_coherent : @GrpcValueKind E → Prop :=
  | kc_leaf k : (∀ meta, k ≠ KMessage meta) → kind_coherent k
  | kc_message meta :
      coherent (fields_by_name meta) (meta_lookup meta) →
      (∀ name fname n shape, map_get name (fields_by_name meta) = Some (MkField fname n shape) →
         kind_coherent (shape_kind shape)) → kind_coherent (KMessage meta).

Lemma ref_kind_coherent n kind k :
  (∀ m meta, ref_meta n m = Some meta → kind_coherent (KMessage meta)) →
  ref_kind (ref_meta n) kind = Some k → kind_coherent k.
Proof.
  intros Hm. destruct kind; simpl; intros Hk; simplify_eq; try by apply kc_leaf.
  destruct (ref_meta n message) as [meta|] eqn:Hr; simplify_eq/=. by eapply Hm.
Qed.

Lemma ref_shape_coherent n f s :
  (∀ m meta, ref_meta n m = Some meta → kind_coherent (KMessage meta)) →
  ref_shape (ref_meta n) f = Some s → kind_coherent (shape_kind s).
Proof.
  intros Hm. unfold ref_shape. destruct (field_is_map f).
  - destruct (field_kind f) as [| | | | | | | | | | | | | | | |entry]; try done.
    destruct (get_field_by_name entry "key"); [|done]. simpl.
    destruct (get_field_by_name entry "value") as [v|]; [|done]. simpl.
    destruct (ref_kind _ _) as [k|] eqn:Hk; [|done]. intros [= <-]. by eapply ref_kind_coherent.
  - destruct (ref_kind _ _) as [k|] eqn:Hk; [|by destruct (field_is_list f)].
    intros Hs. assert (shape_kind s = k) as ->; [by destruct (field_is_list f); simplify_eq/=|].
    by eapply ref_kind_coherent.
Qed.

Lemma shapes_coherent n fs shapes name fname k s :
  (∀ m meta, ref_meta n m = Some meta → kind_coherent (KMessage meta)) →
  mapM (ref_shape (ref_meta n)) fs = Some shapes →
  map_get name (entries_by_name fs shapes) = Some (MkField fname k s) → kind_coherent (shape_kind s).
Proof.
  intros Hm Hs Hg. destruct (map_get_entries _ _ _ _ _ _ Hg) as (i & f & Hf & Hsi & _ & _).
  apply mapM_Some_1 in Hs. destruct (Forall2_lookup_l _ _ _ _ _ Hs Hf) as (s' & Hs' & Hr).
  rewrite Hsi in Hs'. simplify_eq. by eapply ref_shape_coherent.
Qed.

Lemma ref_meta_deep n m meta : ref_meta n m = Some meta → kind_coherent (KMessage meta).
Proof.
  revert m meta. induction n as [|n IH]; intros m meta Hr; [done|].
  constructor; [by eapply ref_meta_coherent|]. cbn [ref_meta] in Hr.
  destruct (mapM _ _) as [shapes|] eqn:Hs; [|done]. simpl in Hr. injection Hr as <-.
  intros name fname k s Hg. by eapply shapes_coherent.
Qed.

Lemma ref_method_coherent n m gm :
  ref_method n m = Some gm → method_input m = method_output m →
  coherent (input_fields gm) (method_lookup gm).
Proof.
  unfold ref_method. intros Hr Hio. rewrite <- Hio in Hr.
  destruct (mapM _ (fields (method_input m))) as [shapes|] eqn:Hs; [|done]. simpl in Hr. injection Hr as <-.
  intros name fname k s Hg. simpl in Hg.
  destruct (map_get_entries _ _ _ _ _ _ Hg) as (i & f & Hf & Hsi & <- & <-).
  split; [apply (numbers_valid (method_input m)); by eapply list_elem_of_lookup_2|].
  unfold method_lookup. simpl. set (x := {| out_number := field_number f; out_name := field_name f; out_shape := s |}).
  assert (out_entries (fields (method_input m)) shapes !! i = Some x) as Hx.
  { unfold out_entries. rewrite lookup_zip_with, Hf, Hsi. done. }
  pose proof (map_get_imap 0 i x _ ltac:(rewrite out_entries_numbers by (symmetry; by eapply length_mapM);
    apply numbers_distinct) Hx) as Hidx.
  simpl in Hidx. rewrite Hidx. simpl. by rewrite Hx.
Qed.
End correct.

(** ** Properties *)
Section props.
Context {E : Type} `{EnumDescriptor E} {P : DescriptorPool E} (L : PoolLaws P).

(** C21. Building a method's metadata with a cache and a set of messages in
    progress gives exactly what plain recursion over the descriptors gives,
    within as much depth as the schema has messages: it fails, as an invalid
    descriptor, exactly when the plain recursion has no result at any depth, in
    particular when a message the input or the output reaches contains itself;
    every other error means that there is no such method. *)
Theorem method_is_reference fuel full_method :
  (length pool_names < fuel)%nat →
  match method fuel full_method with
  | Ok gm => ∃ m n, find_method full_method = Some m ∧ ref_method n m = Some gm
  | Err (InvalidDescriptor _) => ∃ m, find_method full_method = Some m ∧ ∀ n, ref_method n m = None
  | Err OutOfFuel => False
  | Err _ => find_method full_method = None
  end ∧
  ∀ m c, find_method full_method = Some m →
    rtc contains (method_input m) c ∨ rtc contains (method_output m) c → tc contains c c →
    ∃ msg, method fuel full_method = Err (InvalidDescriptor msg).
Proof. intros Hfuel. split; [by apply method_ok|]. intros m c. by apply recursion_rejected. Qed.

End props.

(** ** Witnesses *)
Module Demo.
(** A schema with a request [Req { string name; repeated color tags; map<int64,
    Inner> by_id; Inner inner }], [Inner { sint64 x }], a recursive [Node { Node
    next }], and an echo service on each. *)
#[local] Instance color : EnumDescriptor unit := {|
  get_value _ n := if n =? 1 then Some "RED"%string else None;
  get_value_by_name _ s := if decide (s = "RED"%string) then Some 1 else None |}.

Inductive Msg := Req | Inner | Entry | Node.
Record Field := mkF { f_name : string; f_number : Z; f_map : bool; f_list : bool; f_kind : DescKind unit Msg }.

Definition msg_fields (m : Msg) : list Field :=
  match m with
  | Req => [mkF "name" 1 false false DString; mkF "tags" 2 false true (DEnum tt);
            mkF "by_id" 3 true false (DMessage Entry); mkF "inner" 4 false false (DMessage Inner)]
  | Inner => [mkF "x" 1 false false DSint64]
  | Entry => [mkF "key" 1 false false DInt64; mkF "value" 2 false false (DMessage Inner)]
  | Node => [mkF "next" 1 false false (DMessage Node)]
  end.
Definition msg_name (m : Msg) : string :=
  match m with Req => "Req" | Inner => "Inner" | Entry => "Req.ByIdEntry" | Node => "Node" end.

#[local] Instance pool : DescriptorPool unit := {|
  ServiceDescriptor := unit; MethodDescriptor := Msg; MessageDescriptor := Msg; FieldDescriptor := Field;
  get_service_by_name s := if decide (s = "Echo"%string) then Some tt else None;
  methods _ := [Req; Inner; Node];
  method_name := msg_name; method_input m := m; method_output m := m;
  full_name := msg_name; fields := msg_fields;
  get_field_by_name m name := List.find (λ f, bool_decide (f_name f = name)) (msg_fields m);
  field_name := f_name; field_number := f_number; field_is_map := f_map; field_is_list := f_list;
  field_kind := f_kind;
  map_key_kind f := match f_kind f with DInt64 => PInt64 | _ => POther "?" end;
  path_is_valid _ := true |}.

#[local] Instance pool_laws : PoolLaws pool.
Proof.
  refine {| pool_names := ["Req"; "Inner"; "Req.ByIdEntry"; "Node"]%string |}.
  - intros m. destruct m; cbn; set_solver.
  - intros m m'. by destruct m, m'.
  - intros m. destruct m; apply (bool_decide_unpack _); vm_compute; exact I.
  - intros m. destruct m; apply (bool_decide_unpack _); vm_compute; exact I.
  - intros m f Hf. destruct m; cbn in Hf; repeat (apply elem_of_cons in Hf as [->|Hf]; [cbn; lia|]);
      by apply elem_of_nil in Hf.
Defined.

Definition echo : @GrpcMethod unit :=
  match method 5 "Echo/Req" with
  | Ok gm => gm
  | Err _ => {| input_fields := []; output_fields := []; output_field_index_by_number := [] |}
  end.

Lemma echo_built : method 5 "Echo/Req" = Ok echo.
Proof. reflexivity. Qed.

Definition request : list (string * Value) :=
  [("name"%string, VString "wrkr"); ("tags"%string, VArray [VString "RED"; VI64 7]);
   ("by_id"%string, VMap [(KeyI64 (-2), VObject [("x"%string, VI64 5)])]);
   ("inner"%string, VObject [("x"%string, VI64 (-300))])].

Definition inner : @GrpcMessageMeta unit :=
  MkMeta [("x"%string, MkField "x" 1 (FScalar KSint64))] [(1, ("x"%string, FScalar KSint64))].

Lemma inner_canon i : in_i64 i → canon_scalar (KMessage inner) (VObject [("x"%string, VI64 i)]).
Proof.
  intros Hi. apply cs_message.
  - apply (ref_meta_coherent (P := pool) 1 Inner). reflexivity.
  - apply (bool_decide_unpack _); vm_compute; exact I.
  - intros name v Hin. apply list_elem_of_singleton in Hin as [= -> ->].
    exists "x"%string, 1, (FScalar KSint64). split; [reflexivity|]. constructor. apply cs_int; [set_solver|done].
Qed.

Lemma request_canonical : canon_fields (input_fields echo) request.
Proof.
  split; [apply (bool_decide_unpack _); vm_compute; exact I|]. intros name v Hin.
  repeat (apply elem_of_cons in Hin as [[= -> ->]|Hin]); [..|by apply elem_of_nil in Hin].
  - exists "name"%string, 1, (FScalar KString). split; [reflexivity|]. by repeat constructor.
  - exists "tags"%string, 2, (FList (KEnum tt)). split; [reflexivity|]. constructor; [done|].
    each (first [by apply (cs_enum_name _ 1) | by apply cs_enum_number]).
  - exists "by_id"%string, 3, (FMap PInt64 (KMessage inner)). split; [reflexivity|].
    constructor; [done|apply (bool_decide_unpack _); vm_compute; exact I|].
    each (split; [apply ck_int; [set_solver|by split]|apply inner_canon; by split]).
  - exists "inner"%string, 4, (FScalar (KMessage inner)). split; [reflexivity|]. constructor.
    apply inner_canon. by split.
Qed.


Lemma method_is_reference_witness : ∃ msg, method 5 "Echo/Node" = Err (InvalidDescriptor msg).
Proof.
  apply (method_is_reference pool_laws 5 "Echo/Node" ltac:(simpl; lia)) with Node Node.
  - reflexivity.
  - left. apply rtc_refl.
  - apply tc_once. exists (mkF "next" 1 false false (DMessage Node)). split; [left|reflexivity].
Defined.
End Demo.
