(* ===== verification/Paths.v ===== *)
(** * Paths (std::path on Unix, wrkr-core/src/outputs.rs)

    A path is its text.  The lexical part of [std::path::Path] the program uses
    (components, file name, stem and extension), and [outputs.rs]: what a
    script's output files may be called, and writing them. *)
From Stdlib Require Import Ascii.
From S2P Require Import Prelude Std Coll Text Config Options.

Local Open Scope string_scope.

(** ** [std::path] *)
Inductive Component := RootDir | CurDir | ParentDir | Normal (name : string).

#[export] Instance Component_eq_dec : EqDecision Component.
Proof. solve_decision. Defined.

Definition is_absolute (p : string) : bool :=
  match p with String c _ => bool_decide (c = "/"%char) | EmptyString => false end.

(** Repeated separators and inner [.] are skipped. *)
Definition component_of (part : string) : option Component :=
  if decide (part = "" ∨ part = ".") then None
  else if decide (part = "..") then Some ParentDir
  else Some (Normal part).

(** [Path::components]: a leading [.] of a relative path is a component. *)
Definition components (p : string) : list Component :=
  match split "/" p with
  | [] => []
  | first :: rest =>
      (if is_absolute p then [RootDir]
       else if decide (first = ".") then [CurDir]
       else option_list (component_of first))
      ++ omap component_of rest
  end%list.

Definition file_name (p : string) : option string :=
  match last (components p) with Some (Normal n) => Some n | _ => None end.

(** [rsplit_once]: at the last occurrence. *)
Fixpoint rsplit_once (c : ascii) (s : string) : option (string * string) :=
  match s with
  | EmptyString => None
  | String x r =>
      match rsplit_once c r with
      | Some (a, b) => Some (String x a, b)
      | None => if decide (x = c) then Some (EmptyString, r) else None
      end
  end.

(** A name that starts with its only dot has no extension. *)
Definition stem_and_extension (name : string) : string * option string :=
  match rsplit_once "." name with
  | None => (name, None)
  | Some (stem, ext) => if decide (stem = "") then (name, None) else (stem, Some ext)
  end.
Definition file_stem (p : string) : option string := fst ∘ stem_and_extension <$> file_name p.
Definition extension (p : string) : option string := file_name p ≫= snd ∘ stem_and_extension.

(** [PathBuf::push] of a relative path, and [Path::join]. *)
Definition push (base p : string) : string :=
  if decide (base = "") then p
  else match rsplit_once "/" base with
       | Some (_, "") => base ++ p
       | _ => base ++ "/" ++ p
       end.
Definition join (base p : string) : string := if is_absolute p then p else push base p.

(** The text up to the last component: [Components::as_path] leaves out trailing
    separators and [.]s. *)
Fixpoint trim_tail (fuel : nat) (p : string) : string :=
  match fuel with
  | O => p
  | S fuel =>
      match rsplit_once "/" p with
      | Some (a, b) =>
          if decide (b = "" ∨ b = ".") then if decide (a = "") then "/" else trim_tail fuel a else p
      | None => p
      end
  end.

(** [Path::parent]. *)
Definition parent (p : string) : option string :=
  let q := trim_tail (len p) p in
  if decide (q = "" ∨ q = "/") then None
  else match rsplit_once "/" q with
       | None => Some ""
       | Some (a, _) => Some (if decide (a = "") then "/" else trim_tail (len a) a)
       end.

(** ** [outputs.rs] *)
Fixpoint clean_components (rel clean : string) (cs : list Component) : result Error string :=
  match cs with
  | [] => Ok clean
  | CurDir :: cs => clean_components rel clean cs
  | Normal p :: cs => clean_components rel (push clean p) cs
  | _ :: _ => Err (InvalidOutputPath rel)
  end.

Definition sanitize_relative_output_path (rel : string) : result Error string :=
  if is_absolute rel then Err (InvalidOutputPath rel)
  else
    clean ← clean_components rel "" (components rel);
    if decide (clean = "") then Err (InvalidOutputPath rel) else Ok clean.

(** [write_output_files]: the files written, in order; [write] is the file
    system's answer to creating the parent directories and writing, [Some]
    being an error.  The first failure ends the loop; what was written stays. *)
Fixpoint write_output_files (write : string → string → option string) (base_dir : string)
    (files : list (string * string)) : list (string * string) * result Error unit :=
  match files with
  | [] => ([], Ok tt)
  | (rel, content) :: files =>
      match sanitize_relative_output_path rel with
      | Err e => ([], Err e)
      | Ok rel =>
          let path := join base_dir rel in
          match write path content with
          | Some msg => ([], Err (EIo msg))
          | None =>
              let '(written, r) := write_output_files write base_dir files in
              ((path, content) :: written, r)
          end
      end
  end.

(** ** Checks *)
Example ext_1 : extension "a/b.YML" = Some "YML". Proof. reflexivity. Qed.
Example ext_2 : extension ".hidden" = None. Proof. reflexivity. Qed.
Example parent_1 : parent <$> ["a/b.lua"; "a.lua"; "/a"; "/"; "./a//./b/."; "a//b"]%list
  = [Some "a"; Some ""; Some "/"; None; Some "./a"; Some "a"]%list. Proof. reflexivity. Qed.
Example stem_1 : file_stem "x/load.test.yaml" = Some "load.test". Proof. reflexivity. Qed.
Example clean_1 : sanitize_relative_output_path "./a//b/./c.json" = Ok "a/b/c.json".
Proof. reflexivity. Qed.
Example clean_2 : sanitize_relative_output_path "a/../b" = Err (InvalidOutputPath "a/../b").
Proof. reflexivity. Qed.
Example clean_3 : sanitize_relative_output_path "./." = Err (InvalidOutputPath "./.").
Proof. reflexivity. Qed.

(** ** Lemmas *)
Lemma split_nonempty c s : split c s ≠ [].
Proof. destruct s as [|x s]; simpl; [done|]. case_decide; [done|]. by destruct (split c s). Qed.

Lemma split_app_any c a b : split c (a ++ String c b) = (split c a ++ split c b)%list.
Proof.
  induction a as [|x a IH]; simpl; [by rewrite decide_True|].
  case_decide; [by rewrite IH|]. rewrite IH. pose proof (split_nonempty c a). by destruct (split c a).
Qed.

Lemma rsplit_once_None c s : rsplit_once c s = None ↔ has_char c s = false.
Proof.
  induction s as [|x s IH]; simpl; [done|].
  destruct (rsplit_once c s) as [[a b]|] eqn:E.
  - case_decide; [done|]. rewrite <- IH. naive_solver.
  - case_decide; [done|]. rewrite <- IH. done.
Qed.

Lemma rsplit_once_Some c s a b :
  rsplit_once c s = Some (a, b) → s = a ++ String c b ∧ has_char c b = false.
Proof.
  revert a. induction s as [|x s IH]; simpl; intros a; [done|].
  destruct (rsplit_once c s) as [[a' b']|] eqn:E.
  - intros [= <- ->]. destruct (IH a' eq_refl) as [-> ?]. done.
  - case_decide; [|done]. intros [= <- <-]. subst. split; [done|by apply rsplit_once_None].
Qed.

Lemma rsplit_once_last c a b : has_char c b = false → rsplit_once c (a ++ String c b) = Some (a, b).
Proof.
  intros Hb. induction a as [|x a IH]; simpl.
  - rewrite (proj2 (rsplit_once_None c b) Hb). by rewrite decide_True.
  - by rewrite IH.
Qed.

(** The parts of a path hold no separator. *)
Lemma split_parts c s : Forall (λ p, has_char c p = false) (split c s).
Proof.
  induction s as [|x s IH]; simpl; [each done|]. case_decide; [by constructor|].
  destruct (split c s) as [|p ps] eqn:E; [by apply split_nonempty in E|].
  inversion IH; subst. constructor; [|done]. simpl. by rewrite decide_False.
Qed.

(** A name a directory entry can have. *)
Definition entry_name (n : string) : Prop :=
  n ≠ "" ∧ n ≠ "." ∧ n ≠ ".." ∧ has_char "/" n = false.

Lemma component_of_name n : entry_name n → component_of n = Some (Normal n).
Proof. intros (? & ? & ? & _). unfold component_of. rewrite !decide_False by tauto. done. Qed.

Lemma component_of_Normal p n :
  has_char "/" p = false → component_of p = Some (Normal n) → p = n ∧ entry_name n.
Proof.
  unfold component_of. intros Hp. case_decide; [done|]. case_decide; [done|]. intros [= <-].
  split; [done|]. unfold entry_name. tauto.
Qed.

Lemma omap_names l : Forall entry_name l → omap component_of l = (Normal <$> l)%list.
Proof.
  induction 1 as [|n l Hn _ IH]; [done|]. csimpl. rewrite component_of_name by done. by rewrite IH.
Qed.

(** The components of a path that a name list is appended to. *)
Fixpoint slashed (names : list string) : string :=
  match names with [] => "" | [n] => n | n :: ns => n ++ "/" ++ slashed ns end.

Lemma slashed_cons n ns : ns ≠ [] → slashed (n :: ns) = n ++ "/" ++ slashed ns.
Proof. by destruct ns. Qed.

Lemma split_slashed names : names ≠ [] → Forall entry_name names → split "/" (slashed names) = names.
Proof.
  intros Hne H. induction H as [|n ns (? & ? & ? & Hn) _ IH]; [done|].
  destruct (decide (ns = [])) as [->|Hns]; [by apply split_single|].
  rewrite slashed_cons by done. change ("/" ++ slashed ns) with (String "/" (slashed ns)).
  by rewrite split_app, IH.
Qed.

Lemma components_under base names :
  base ≠ "" → names ≠ [] → Forall entry_name names →
  components (base ++ "/" ++ slashed names) = (components base ++ (Normal <$> names))%list.
Proof.
  intros Hb Hne Hn. unfold components. change ("/" ++ slashed names) with (String "/" (slashed names)).
  rewrite split_app_any, split_slashed by done.
  destruct (split "/" base) as [|first rest] eqn:E; [by apply split_nonempty in E|].
  assert (is_absolute (base ++ String "/" (slashed names)) = is_absolute base) as -> by (by destruct base).
  simpl. rewrite omap_app, (omap_names names) by done. by rewrite app_assoc.
Qed.

Lemma components_trailing b : b ≠ "" → components (b ++ "/") = components b.
Proof.
  intros Hb. unfold components. change "/" with (String "/" "") at 2. rewrite split_app_any.
  destruct (split "/" b) as [|first rest] eqn:E; [by apply split_nonempty in E|].
  assert (is_absolute (b ++ String "/" "") = is_absolute b) as -> by (by destruct b).
  simpl. rewrite omap_app. simpl. by rewrite app_nil_r.
Qed.

Lemma slashed_empty names : Forall entry_name names → slashed names = "" → names = [].
Proof.
  destruct 1 as [|n ns (Hn & _) _]; [done|]. destruct ns as [|m ns]; [done|].
  rewrite slashed_cons by done. by intros [? _]%app_empty.
Qed.

Lemma slashed_snoc ns n : ns ≠ [] → slashed (ns ++ [n]) = slashed ns ++ "/" ++ n.
Proof.
  induction ns as [|m ns IH]; [done|]. intros _. destruct (decide (ns = [])) as [->|Hns]; [done|].
  rewrite <- app_comm_cons, !slashed_cons by (try done; by destruct ns).
  by rewrite IH, !string_app_assoc.
Qed.

Lemma slashed_relative names : Forall entry_name names → is_absolute (slashed names) = false.
Proof.
  destruct 1 as [|n ns (Hn & _ & _ & Hc) _]; [done|].
  destruct n as [|x n]; [done|]. simpl in Hc. assert (x ≠ "/"%char) as Hx by (by case_decide).
  assert (∀ r, is_absolute (String x r) = false) as Ha by (intros r; by apply bool_decide_eq_false).
  destruct ns; apply Ha.
Qed.

(** Appending to a directory, whether or not its text ends in a separator. *)
Lemma push_under base p :
  base ≠ "" → push base p = base ++ "/" ++ p ∨ ∃ b, base = b ++ "/" ∧ push base p = b ++ "/" ++ p.
Proof.
  intros Hb. unfold push. rewrite decide_False by done.
  destruct (rsplit_once "/" base) as [[a [|x b]]|] eqn:E; [right|by left|by left].
  apply rsplit_once_Some in E as [-> _]. exists a. split; [done|].
  change "/" with (String "/" ""). by rewrite string_app_assoc.
Qed.

Lemma components_join base names :
  base ≠ "" → names ≠ [] → Forall entry_name names →
  components (join base (slashed names)) = (components base ++ (Normal <$> names))%list.
Proof.
  intros Hb Hne Hn. unfold join. rewrite slashed_relative by done.
  destruct (push_under base (slashed names) Hb) as [->|(b & Hbase & ->)]; [by apply components_under|].
  destruct (decide (b = "")) as [->|Hb'].
  - rewrite Hbase. unfold components. change ("" ++ "/" ++ slashed names) with (String "/" (slashed names)).
    cbn [split is_absolute]. rewrite decide_True, bool_decide_true by done.
    by rewrite split_slashed, omap_names.
  - rewrite components_under by done. by rewrite Hbase, components_trailing.
Qed.

Lemma push_slashed names n :
  Forall entry_name names → entry_name n → push (slashed names) n = slashed (names ++ [n]).
Proof.
  intros Hns Hn. destruct names as [|m ns _] using rev_ind; [done|].
  assert (slashed (ns ++ [m]) ≠ "") as Hne.
  { intros E%slashed_empty; [by destruct ns|done]. }
  rewrite (slashed_snoc (ns ++ [m])) by (by destruct ns). unfold push. rewrite decide_False by done.
  apply Forall_app in Hns as [Hns (Hm & _ & _ & Hc)%Forall_singleton].
  destruct (decide (ns = [])) as [->|Hns'].
  - simpl. by rewrite (proj2 (rsplit_once_None _ _) Hc).
  - rewrite slashed_snoc by done. change ("/" ++ m) with (String "/" m).
    rewrite rsplit_once_last by done. by destruct m.
Qed.

(** *** Sanitising *)
Definition normals (cs : list Component) : list string :=
  omap (λ c, match c with Normal n => Some n | _ => None end) cs.
Definition allowed (c : Component) : bool := match c with CurDir | Normal _ => true | _ => false end.

Lemma component_of_good p c :
  has_char "/" p = false → component_of p = Some c → ∀ n, c = Normal n → entry_name n.
Proof. intros Hp Hc n ->. by apply (component_of_Normal p n). Qed.

Lemma components_names p : Forall entry_name (normals (components p)).
Proof.
  assert (∀ l, Forall (λ p, has_char "/" p = false) l → Forall entry_name (normals (omap component_of l))) as Hl.
  { induction 1 as [|x l Hx _ IH]; [done|]. csimpl. destruct (component_of x) as [c|] eqn:E; [|done].
    destruct c; csimpl; try done. constructor; [|done]. by apply (component_of_good x _ Hx E). }
  unfold components. pose proof (split_parts "/" p) as H. destruct (split "/" p) as [|x l]; [done|].
  inversion H as [|? ? Hx Hr]; subst. unfold normals. rewrite omap_app. apply Forall_app. split; [|by apply Hl].
  destruct (is_absolute p); [done|]. case_decide; [done|]. specialize (Hl [x] ltac:(by each done)).
  revert Hl. csimpl. by destruct (component_of x).
Qed.

Lemma clean_components_eq rel names cs :
  Forall entry_name names → Forall entry_name (normals cs) →
  clean_components rel (slashed names) cs =
  if forallb allowed cs then Ok (slashed (names ++ normals cs)) else Err (InvalidOutputPath rel).
Proof.
  revert names. induction cs as [|c cs IH]; intros names Hn Hcs; [simpl; by rewrite app_nil_r|].
  destruct c as [| | |n]; simpl; [done|by apply IH|done|].
  apply Forall_cons in Hcs as [Hc Hcs]. rewrite push_slashed by done.
  rewrite IH; [by rewrite <- app_assoc| |done]. by apply Forall_app_2; [|each done].
Qed.

Lemma sanitize_eq rel :
  sanitize_relative_output_path rel =
  if negb (is_absolute rel) && forallb allowed (components rel) && negb (is_empty (normals (components rel)))
  then Ok (slashed (normals (components rel))) else Err (InvalidOutputPath rel).
Proof.
  unfold sanitize_relative_output_path. destruct (is_absolute rel); [done|]. simpl.
  pose proof (components_names rel) as Hn. rewrite (clean_components_eq rel [] _ (Forall_nil_2 _)) by done.
  destruct (forallb allowed (components rel)); [|done]. simpl.
  destruct (normals (components rel)) as [|n ns]; [done|]. simpl is_empty. cbn [negb].
  rewrite decide_False; [done|]. by intros E%slashed_empty.
Qed.

(** What is wrong with a rejected name. *)
Lemma sanitize_Err rel e :
  sanitize_relative_output_path rel = Err e →
  e = InvalidOutputPath rel ∧
  (is_absolute rel = true ∨ ParentDir ∈ components rel ∨ normals (components rel) = []).
Proof.
  rewrite sanitize_eq. destruct (is_absolute rel) eqn:Ha; simpl; [intros [= <-]; by eauto|].
  destruct (forallb allowed (components rel)) eqn:Hf; simpl.
  - destruct (normals (components rel)) as [|n ns]; [|done]. intros [= <-]. by eauto.
  - intros [= <-]. split; [done|]. right; left. clear -Ha Hf.
    assert (∃ c, c ∈ components rel ∧ allowed c = false) as (c & Hc & Hal).
    { induction (components rel) as [|c cs IH]; [done|]. simpl in Hf. apply andb_false_iff in Hf as [Hf|Hf].
      - exists c. split; [by left|done].
      - destruct (IH Hf) as (c' & ? & ?). exists c'. split; [by right|done]. }
    destruct c; try done. exfalso. revert Hc. unfold components.
    assert (∀ l : list string, RootDir ∉ omap component_of l) as Ho.
    { intros l (x & _ & Hx)%list_elem_of_omap. unfold component_of in Hx. by repeat case_decide. }
    destruct (split "/" rel) as [|x l]; [by intros ?%not_elem_of_nil|]. rewrite Ha.
    intros [Hx|Hx]%elem_of_app; [|by apply (Ho l)]. case_decide.
    + by apply list_elem_of_singleton in Hx.
    + apply (Ho [x]). csimpl. by destruct (component_of x).
Qed.

(** ** Property *)

(** C35. The files a script's summary hook asks for are written under the base
    directory and nowhere else: each is at the base directory followed by the
    one or more plain names its path consists of.  They are written in order up
    to the first refused name (absolute, going to a parent, or empty) or the
    first failure of the file system, which is the error returned. *)
Theorem outputs_contained write base files written res :
  base ≠ "" → write_output_files write base files = (written, res) →
  ∃ before rest, files = (before ++ rest)%list ∧
    Forall2 (λ f w, w.2 = f.2 ∧ ∃ names, names ≠ [] ∧ Forall entry_name names ∧
      names = normals (components f.1) ∧ ParentDir ∉ components f.1 ∧
      components w.1 = (components base ++ (Normal <$> names))%list) before written ∧
    match res with
    | Ok _ => rest = []
    | Err (InvalidOutputPath p) => p ∈ rest.*1 ∧ head rest.*1 = Some p ∧
        (is_absolute p = true ∨ ParentDir ∈ components p ∨ normals (components p) = [])
    | Err (EIo msg) => ∃ path content, head rest.*2 = Some content ∧ write path content = Some msg
    | Err _ => False
    end.
Proof.
  intros Hb. revert written res. induction files as [|[rel content] files IH]; simpl; intros written res.
  { intros [= <- <-]. exists [], []. repeat split. constructor. }
  destruct (sanitize_relative_output_path rel) as [clean|e] eqn:Hs.
  - pose proof Hs as Hok. rewrite sanitize_eq in Hok.
    destruct (is_absolute rel); [done|]. simpl in Hok.
    destruct (forallb allowed (components rel)) eqn:Hall; [|done]. simpl in Hok.
    destruct (is_empty (normals (components rel))) eqn:Hne; [done|]. injection Hok as <-.
    destruct (write _ content) as [msg|] eqn:Hw.
    + intros [= <- <-]. exists [], ((rel, content) :: files). repeat split; [constructor|].
      by eexists _, content.
    + destruct (write_output_files write base files) as [w r]. intros [= <- <-].
      destruct (IH w r eq_refl) as (before & rest & -> & Hall2 & Hr).
      exists ((rel, content) :: before), rest. split; [done|]. split; [|done].
      constructor; [|done]. split; [done|]. exists (normals (components rel)).
      pose proof (components_names rel) as Hn.
      assert (normals (components rel) ≠ []) as Hnn by (intros E; by rewrite E in Hne).
      split_and!; [done|done|done| |by apply components_join].
      intros Hp. rewrite forallb_forall in Hall.
      specialize (Hall ParentDir ltac:(by apply list_elem_of_In)). done.
  - apply sanitize_Err in Hs as [-> Hwhy]. intros [= <- <-]. exists [], ((rel, content) :: files).
    repeat split; [constructor|left|done].
Qed.

(** ** Witness *)
Definition demo_files : list (string * string) :=
  [("out/summary.json", "{}"); ("../../etc/passwd", "x"); ("later.txt", "y")].

Lemma outputs_contained_witness :
  ∃ before rest, demo_files = (before ++ rest)%list ∧ length before = 1%nat ∧ head rest.*1 = Some "../../etc/passwd".
Proof.
  destruct (outputs_contained (λ _ _, None) "/home/me/" demo_files [("/home/me/out/summary.json", "{}")]
    (Err (InvalidOutputPath "../../etc/passwd")) ltac:(done) eq_refl) as (b & r & E & H2 & _ & Hh & _).
  exists b, r. split; [exact E|]. split; [|exact Hh]. by apply Forall2_length in H2.
Defined.
