(* ===== verification/Durations.v ===== *)
(** * Durations as text and as numbers (wrkr/src/cli.rs, std, humantime)

    [Duration::from_secs_f64], which the option readers call on numbers, the
    interface of the [humantime] crate, and the command line's own
    [parse_duration]. *)
From Stdlib Require Import Ascii SpecFloat.
From S2P Require Import Prelude Std Coll F64 Text.

(** ** [Duration::from_secs_f64]

    The nearest number of nanoseconds, ties to even.  It panics, here [None],
    on a negative number, on one that is not finite and when the seconds do not
    fit in 64 bits. *)
Definition round_half_even (n d : Z) : Z :=
  let q := n / d in
  let r := 2 * (n mod d) in
  if (r <? d) || (r =? d) && Z.even q then q else q + 1.

Definition from_secs_f64 (f : f64) : option Z :=
  match f with
  | S754_zero _ => Some 0
  | S754_finite false m e =>
      let ns := if 0 <=? e then Zpos m * 2 ^ e * Duration.NANOS_PER_SEC
                else round_half_even (Zpos m * Duration.NANOS_PER_SEC) (2 ^ (- e)) in
      if ns <=? Duration.MAX then Some ns else None
  | _ => None
  end.

Lemma from_secs_f64_valid f d : from_secs_f64 f = Some d → Duration.valid d.
Proof.
  unfold from_secs_f64, Duration.valid. destruct f as [|[]| |[] m e]; try done.
  { intros [= <-]. split; [done|]. vm_compute. discriminate. }
  intros H. destruct (Z.leb_spec (if 0 <=? e then Z.pos m * 2 ^ e * Duration.NANOS_PER_SEC
    else round_half_even (Z.pos m * Duration.NANOS_PER_SEC) (2 ^ (- e))) Duration.MAX) as [Hle|]; [|done].
  injection H as <-. split; [|done]. change Duration.NANOS_PER_SEC with (10 ^ 9).
  destruct (Z.leb_spec 0 e) as [He|He].
  - pose proof (Z.pow_nonneg 2 e ltac:(lia)). nia.
  - unfold round_half_even. assert (0 < 2 ^ (- e)) by (apply Z.pow_pos_nonneg; lia).
    assert (0 ≤ Z.pos m * 10 ^ 9 / 2 ^ (- e)) by (apply Z.div_pos; lia).
    destruct (_ || _); lia.
Qed.

(** ** [humantime] *)
Class Humantime := {
  format_duration : Z → string;
  humantime_parse : string → option Z }.

(** What the crate documents: a parsed duration is one, and what it formats it
    reads back. *)
Class HumantimeLaws (H : Humantime) := {
  humantime_valid s d : humantime_parse s = Some d → Duration.valid d;
  humantime_roundtrip d : Duration.valid d → humantime_parse (format_duration d) = Some d }.

(** ** [cli.rs]: [parse_duration] *)
Local Open Scope string_scope.

Definition invalid (s : string) : string :=
  "invalid duration '" ++ s ++ "' (expected e.g. 10s, 250ms, 1m)".

(** [checked_mul] on [u64]. *)
Definition checked_mul (a b : Z) : option Z := if (a * b <=? u64_max)%Z then Some (a * b)%Z else None.

Definition micro_s : string := String (chr 0xC2) (String (chr 0xB5) "s").

Definition unit_duration (s unit : string) (value : Z) : result string Z :=
  if decide (unit ∈ [""; "s"; "sec"; "secs"; "second"; "seconds"]) then Ok (Duration.from_secs value)
  else if decide (unit ∈ ["ms"; "msec"; "msecs"; "millisecond"; "milliseconds"]) then
    Ok (Duration.from_millis value)
  else if decide (unit ∈ ["us"; micro_s; "usec"; "usecs"; "microsecond"; "microseconds"]) then
    Ok (value * 1000)%Z
  else if decide (unit ∈ ["ns"; "nsec"; "nsecs"; "nanosecond"; "nanoseconds"]) then
    Ok (Duration.from_nanos value)
  else if decide (unit ∈ ["m"; "min"; "mins"; "minute"; "minutes"]) then
    secs ← ok_or (checked_mul value 60) ("duration '" ++ s ++ "' is too large");
    Ok (Duration.from_secs secs)
  else if decide (unit ∈ ["h"; "hr"; "hrs"; "hour"; "hours"]) then
    secs ← ok_or (v ← checked_mul value 60; checked_mul v 60) ("duration '" ++ s ++ "' is too large");
    Ok (Duration.from_secs secs)
  else Err (invalid s).

Definition parse_duration (input : string) : result string Z :=
  let s := trim input in
  if decide (s = "") then Err "duration cannot be empty (expected e.g. 10s, 250ms, 1m)"
  else
    let '(number_str, unit_str) := span_digits s in
    if decide (number_str = "") then Err (invalid s)
    else
      value ← ok_or (parse_uint u64_max number_str) (invalid s);
      unit_duration s (trim unit_str) value.

(** ** Checks (the tests of the source) *)
Example duration_ms : parse_duration "250ms" = Ok (Duration.from_millis 250). Proof. reflexivity. Qed.
Example duration_m : parse_duration " 1 m " = Ok (Duration.from_secs 60). Proof. reflexivity. Qed.
Example duration_x : parse_duration "10x" = Err (invalid "10x"). Proof. reflexivity. Qed.
Example duration_big : is_ok (parse_duration "18446744073709551615h") = false. Proof. reflexivity. Qed.
Example secs_half : from_secs_f64 (of_decimal false 15 (-1)) = Some (Duration.from_millis 1500).
Proof. reflexivity. Qed.
Example secs_huge : from_secs_f64 (of_decimal false 1 30) = None. Proof. vm_compute. reflexivity. Qed.

(** ** Lemmas *)
Lemma checked_mul_Some a b c : checked_mul a b = Some c → (c = a * b ∧ c ≤ u64_max)%Z.
Proof. unfold checked_mul. destruct (Z.leb_spec (a * b) u64_max); [|done]. by intros [= <-]. Qed.

Lemma unit_duration_valid s unit value d :
  in_u64 value → unit_duration s unit value = Ok d → Duration.valid d.
Proof.
  unfold unit_duration, Duration.valid, Duration.from_secs, Duration.from_millis, Duration.from_nanos,
    Duration.MAX, Duration.NANOS_PER_SEC. intros Hv.
  repeat (case_decide; [first [intros [= <-]; ints_lia|rewrite bind_Ok]|]); [| |done].
  - intros (secs & Hs & [= <-]). destruct (checked_mul value 60) eqn:E; simplify_eq/=.
    apply checked_mul_Some in E. ints_lia.
  - intros (secs & Hs & [= <-]). destruct (checked_mul value 60) as [v|] eqn:E; simplify_eq/=.
    destruct (checked_mul v 60) eqn:E2; simplify_eq/=.
    apply checked_mul_Some in E. apply checked_mul_Some in E2. ints_lia.
Qed.

Lemma digits_val_nonneg s acc v : (0 ≤ acc)%Z → digits_val acc s = Some v → (0 ≤ v)%Z.
Proof.
  revert acc. induction s as [|c s IH]; simpl; intros acc Ha; [by intros [= <-]|].
  destruct (is_digit c) eqn:Hd; [|done]. apply IH. unfold digit_val. apply digit_range in Hd. lia.
Qed.

Lemma parse_uint_range max s v : parse_uint max s = Some v → (0 ≤ v ≤ max)%Z.
Proof.
  unfold parse_uint. case_decide; [done|]. intros Hv.
  destruct (digits_val 0 _) as [n|] eqn:E; [|done]. simpl in Hv.
  destruct (Z.leb_spec n max); [|done]. injection Hv as <-. apply digits_val_nonneg in E; lia.
Qed.

(** Every duration the command line accepts is one a [Duration] holds. *)
Theorem parse_duration_valid input d : parse_duration input = Ok d → Duration.valid d.
Proof.
  unfold parse_duration. case_decide; [done|]. destruct (span_digits (trim input)) as [n u].
  case_decide; [done|]. rewrite bind_Ok. intros (v & Hv & Hd).
  destruct (parse_uint u64_max n) as [w|] eqn:E; simplify_eq/=.
  apply parse_uint_range in E. by eapply unit_duration_valid.
Qed.
