(* ===== verification/Serde.v ===== *)
(** * Documents and their derived readers and writers (serde, as the YAML file uses it)

    A YAML document is a tree; the text layer of [serde_yaml] is an interface
    with the law that a written tree is read back.  The readers that
    [derive(Deserialize)] declares for structs and untagged enums follow the
    attributes of the declarations: fields are read in the order of the
    document, unknown ones are skipped, missing ones are an error or a default,
    a struct may also be given as a sequence of its fields, and an untagged enum
    is the first variant that reads without an error. *)
From S2P Require Import Prelude Coll F64.

(** Documents whose mappings have string keys; a float is one that is not an
    integer of 64 bits. *)
Inductive YValue :=
  | YNull
  | YBool (b : bool)
  | YUint (n : Z)
  | YInt (n : Z)
  | YFloat (f : f64)
  | YStr (s : string)
  | YSeq (l : list YValue)
  | YMap (l : list (string * YValue)).

(** Numbers of their type, keys that differ. *)
Fixpoint wf_value (v : YValue) : Prop :=
  match v with
  | YUint n => in_u64 n
  | YInt n => i64_min ≤ n < 0
  | YSeq l => (fix all (l : list YValue) := match l with [] => True | v :: l => wf_value v ∧ all l end) l
  | YMap l => NoDup l.*1 ∧
      (fix all (l : list (string * YValue)) := match l with [] => True | (_, v) :: l => wf_value v ∧ all l end) l
  | _ => True
  end.

(** [serde_yaml]'s text layer, and how it displays a float. *)
Class YamlText := {
  yaml_float : f64 → string;
  yaml_to_string : YValue → string;
  yaml_from_str : string → result string YValue }.
Class YamlLaws (Y : YamlText) := {
  yaml_roundtrip v : wf_value v → yaml_from_str (yaml_to_string v) = Ok v }.

(** A reader fails with an error, whose message no caller looks at, or panics. *)
Inductive DeError := DErr | DPanic.
Abbreviation de A := (result DeError A).

(** ** Scalars *)
Definition de_string (v : YValue) : de string := match v with YStr s => Ok s | _ => Err DErr end.
Definition de_u64 (v : YValue) : de Z := match v with YUint n => Ok n | _ => Err DErr end.
Definition de_option {A} (f : YValue → de A) (v : YValue) : de (option A) :=
  match v with YNull => Ok None | _ => Some <$> f v end.
Definition de_vec {A} (f : YValue → de A) (v : YValue) : de (list A) :=
  match v with YSeq l => mapM f l | _ => Err DErr end.

(** ** [BTreeMap<String, _>]: its entries, sorted by key *)
Fixpoint btree_insert {A} (k : string) (v : A) (m : list (string * A)) : list (string * A) :=
  match m with
  | [] => [(k, v)]
  | (k', v') :: r =>
      if decide (k = k') then (k, v) :: r
      else if decide (str_le k k') then (k, v) :: m
      else (k', v') :: btree_insert k v r
  end.
Definition btree_collect {A} (l : list (string * A)) : list (string * A) :=
  foldl (λ m p, btree_insert p.1 p.2 m) [] l.

(** Entries are read in the order of the document. *)
Definition de_map {A} (f : YValue → de A) (v : YValue) : de (list (string * A)) :=
  match v with
  | YMap l => btree_collect <$> mapM (λ p, pair p.1 <$> f p.2) l
  | _ => Err DErr
  end.

(** ** Structs

    [conv] gives the reader of each known field, [V] being any field's value. *)
Section struct.
Context {V : Type} (conv : string → option (YValue → de V)).

Fixpoint visit_map (entries : list (string * YValue)) (acc : list (string * V)) : de (list (string * V)) :=
  match entries with
  | [] => Ok acc
  | (k, v) :: entries =>
      match conv k with
      | None => visit_map entries acc
      | Some f =>
          if decide (k ∈ acc.*1) then Err DErr
          else x ← f v; visit_map entries (acc ++ [(k, x)])
      end
  end.

(** As a sequence: the declared fields in order; those past the first [required]
    ones have a default. *)
Definition visit_seq (names : list string) (required : nat) (l : list YValue) : de (list (string * V)) :=
  r ← visit_map (zip names l) [];
  if ((required <=? length l) && (length l <=? length names))%nat then Ok r else Err DErr.

Definition de_struct (names : list string) (required : nat) (v : YValue) : de (list (string * V)) :=
  match v with
  | YMap l => visit_map l []
  | YSeq l => visit_seq names required l
  | _ => Err DErr
  end.

(** The value read for a field. *)
Fixpoint get_field (k : string) (l : list (string * V)) : option V :=
  match l with
  | [] => None
  | (k', v) :: l => if decide (k = k') then Some v else get_field k l
  end.
End struct.

(** An untagged enum tries the next variant after an error; a panic ends it. *)
Definition or_else {A} (a b : de A) : de A := match a with Err DErr => b | _ => a end.

(** What [skip_serializing_if = Option::is_none] writes; for a list or map that is
    skipped when empty, [nonempty] of it. *)
Definition opt_entry {A B} (k : string) (f : A → B) (o : option A) : list (string * B) :=
  match o with Some x => [(k, f x)] | None => [] end.

Definition nonempty {A} (l : list A) : option (list A) := match l with [] => None | _ => Some l end.

(** ** Lemmas *)
Lemma wf_seq l : wf_value (YSeq l) ↔ Forall wf_value l.
Proof. simpl. induction l as [|v l IH]; [done|]. by rewrite Forall_cons, IH. Qed.
Lemma wf_map l : wf_value (YMap l) ↔ NoDup l.*1 ∧ Forall wf_value l.*2.
Proof.
  cbn [wf_value]. apply and_iff_compat_l. induction l as [|[k v] l IH]; [done|].
  csimpl. by rewrite Forall_cons, IH.
Qed.

(** Entries of known fields with distinct names are read one for one. *)
Lemma visit_map_reads {V} (conv : string → option (YValue → de V)) entries typed acc :
  Forall2 (λ e t, e.1 = t.1 ∧ ∃ f, conv e.1 = Some f ∧ f e.2 = Ok t.2) entries typed →
  NoDup (acc ++ typed).*1 → visit_map conv entries acc = Ok (acc ++ typed).
Proof.
  intros H. revert acc. induction H as [|[k v] [k' x] entries typed (Hk & f & Hf & Hx) _ IH]; intros acc Hnd.
  { simpl. by rewrite app_nil_r. }
  simpl in *. subst. rewrite Hf, decide_False.
  - rewrite Hx. cbn [mbind result_bind]. rewrite (cons_middle (k', x)), app_assoc in Hnd.
    rewrite IH by done. by rewrite <- app_assoc.
  - intros Hin. rewrite fmap_app in Hnd. apply NoDup_app in Hnd as (_ & Hd & _).
    apply (Hd k' Hin). by left.
Qed.

Lemma get_opt_skip {A B} k k' (f : A → B) o l : k ≠ k' → get_field k (opt_entry k' f o ++ l) = get_field k l.
Proof. intros Hk. destruct o; simpl; [by rewrite decide_False|done]. Qed.
Lemma get_opt_some {A B} k (f : A → B) x l : get_field k (opt_entry k f (Some x) ++ l) = Some (f x).
Proof. simpl. by rewrite decide_True. Qed.
Lemma get_opt_none {A B} k (f : A → B) l : get_field k (opt_entry k f None ++ l) = get_field k l.
Proof. done. Qed.

Lemma mapM_Ok_fmap {E A B C} (f : B → result E C) (g : A → B) (h : A → C) l :
  (∀ x, x ∈ l → f (g x) = Ok (h x)) → mapM f (g <$> l) = Ok (h <$> l).
Proof.
  induction l as [|x l IH]; intros H; [done|].
  change (mapM f (g <$> x :: l)) with (y ← f (g x); ys ← mapM f (g <$> l); mret (y :: ys)).
  rewrite H by (by left). rewrite IH by (intros y Hy; apply H; by right). done.
Qed.

Lemma btree_insert_keys {A} k (v : A) m x : x ∈ (btree_insert k v m).*1 ↔ x = k ∨ x ∈ m.*1.
Proof.
  induction m as [|[k' v'] m IH]; simpl; [set_solver|].
  case_decide; [subst; set_solver|]. case_decide; [set_solver|]. csimpl. set_solver.
Qed.

Definition key_le {A} (a b : string * A) : Prop := str_le a.1 b.1.
#[export] Instance key_le_dec {A} (a b : string * A) : Decision (key_le a b).
Proof. unfold key_le. apply _. Defined.
#[export] Instance key_le_trans {A} : Transitive (@key_le A).
Proof. intros a b c. unfold key_le. by etrans. Qed.

(** A sorted map with distinct keys. *)
Definition btree_ok {A} (m : list (string * A)) : Prop := StronglySorted key_le m ∧ NoDup m.*1.

Lemma btree_insert_ok {A} k (v : A) m : btree_ok m → btree_ok (btree_insert k v m).
Proof.
  intros [Hs Hd]. induction m as [|[k' v'] m IH]; simpl.
  { split; [repeat constructor|]. apply NoDup_singleton. }
  inversion Hs as [|? ? Hs' Hall]; subst. inversion Hd as [|? ? Hnin Hd']; subst.
  case_decide as E; [subst; split; [by constructor|done]|].
  case_decide as L.
  - split.
    + constructor; [done|]. constructor; [done|]. eapply Forall_impl; [exact Hall|].
      intros y Hy. unfold key_le in *. simpl in *. by etrans.
    + constructor; [|done]. simpl. intros [?|Hin]%elem_of_cons; [done|].
      apply list_elem_of_fmap in Hin as ([k2 v2] & -> & Hin).
      rewrite Forall_forall in Hall. specialize (Hall _ Hin). unfold key_le in Hall. simpl in *.
      apply E. by apply (anti_symm str_le).
  - destruct (IH Hs' Hd') as [IH1 IH2]. split.
    + constructor; [done|]. apply Forall_forall. intros [x y] Hx.
      assert (x = k ∨ x ∈ m.*1) as [->|Hin].
      { apply (btree_insert_keys k v). by apply (list_elem_of_fmap_2 fst _ (x, y)). }
      * unfold key_le. simpl. by destruct (total str_le k k').
      * apply list_elem_of_fmap in Hin as ([x2 y2] & -> & Hin).
        rewrite Forall_forall in Hall. by apply (Hall _ Hin).
    + constructor; [|done]. change (k' ∉ (btree_insert k v m).*1). rewrite btree_insert_keys. intros [?|?]; [by subst|done].
Qed.

Lemma btree_collect_from_ok {A} (l : list (string * A)) m :
  btree_ok m → btree_ok (foldl (λ m p, btree_insert p.1 p.2 m) m l).
Proof. revert m. induction l as [|p l IH]; intros m Hm; simpl; [done|]. by apply IH, btree_insert_ok. Qed.

Lemma btree_collect_ok {A} (l : list (string * A)) : btree_ok (btree_collect l).
Proof. apply btree_collect_from_ok. split; constructor. Qed.

Lemma btree_insert_new {A} k (v : A) m : k ∉ m.*1 → btree_insert k v m ≡ₚ (k, v) :: m.
Proof.
  induction m as [|[k' v'] m IH]; simpl; [done|]. intros [Hk Hm]%not_elem_of_cons.
  rewrite decide_False by done. case_decide; [done|]. rewrite IH by done. apply Permutation_swap.
Qed.

(** Entries with distinct keys are all kept. *)
Lemma btree_collect_perm {A} (l : list (string * A)) : NoDup l.*1 → btree_collect l ≡ₚ l.
Proof.
  unfold btree_collect. assert (∀ m, NoDup (m ++ l).*1 →
    foldl (λ m p, btree_insert p.1 p.2 m) m l ≡ₚ m ++ l) as H; [|apply (H [])].
  induction l as [|[k v] l IH]; intros m Hnd; simpl; [by rewrite app_nil_r|].
  assert (k ∉ m.*1) as Hk.
  { rewrite fmap_app in Hnd. apply NoDup_app in Hnd as (_ & Hd & _). intros Hin. apply (Hd k Hin). by left. }
  rewrite IH.
  - rewrite btree_insert_new by done. by rewrite <- Permutation_middle.
  - rewrite btree_insert_new by done. by rewrite (Permutation_middle m l (k, v)).
Qed.

Lemma btree_unique {A} (a b : list (string * A)) : btree_ok a → btree_ok b → a ≡ₚ b → a = b.
Proof.
  intros [Ha Hda] [Hb _] Hp. apply (Sorted_unique_strong key_le); [|by apply StronglySorted_Sorted..|done].
  intros [k v] [k' v'] Hx Hy H1 H2. unfold key_le in *. simpl in *.
  assert (k = k') as -> by (by apply (anti_symm str_le)). f_equal.
  rewrite <- Hp in Hy. apply list_elem_of_lookup in Hx as (i & Hi). apply list_elem_of_lookup in Hy as (j & Hj).
  assert (i = j) as ->; [|congruence].
  apply (NoDup_lookup a.*1 i j k'); rewrite ?list_lookup_fmap, ?Hi, ?Hj; done.
Qed.

(** A map is the collection of its own entries. *)
Lemma btree_collect_id {A} (m : list (string * A)) : btree_ok m → btree_collect m = m.
Proof.
  intros Hm. apply btree_unique; [apply btree_collect_ok|done|]. apply btree_collect_perm, Hm.
Qed.

(** A written map is read back. *)
Lemma de_map_written {A} (f : YValue → de A) (g : A → YValue) (m : list (string * A)) :
  btree_ok m → (∀ p, p ∈ m → f (g p.2) = Ok p.2) →
  de_map f (YMap (prod_map id g <$> m)) = Ok m.
Proof.
  intros Hm Hf. simpl. rewrite (mapM_Ok_fmap _ _ id).
  - rewrite list_fmap_id. unfold fmap, result_fmap. by rewrite btree_collect_id.
  - intros [k v] Hp. specialize (Hf _ Hp). simpl in *. by rewrite Hf.
Qed.
