(* ===== verification/YamlText.v ===== *)
(** * An instance of the YAML text layer and of humantime

    The laws [Serde] and [Durations] ask of [serde_yaml] and [humantime] can be
    met: the text of a tree is the decimal number of its encoding, the text of a
    duration its nanoseconds. *)
From Stdlib Require Import SpecFloat.
From stdpp Require Import countable.
From S2P Require Import Prelude Std Coll F64 Text Durations Serde.

Definition ns_humantime : Humantime := {|
  format_duration d := show d;
  humantime_parse s := parse_uint Duration.MAX s |}.

Lemma ns_humantime_laws : HumantimeLaws ns_humantime.
Proof.
  constructor.
  - intros s d Hd%parse_uint_range. exact Hd.
  - intros d Hd. by apply parse_uint_show.
Qed.

(** ** Trees are countable *)
Definition float_code : Type := bool + bool + unit + bool * positive * Z.
Definition float_encode (f : f64) : float_code :=
  match f with
  | S754_zero s => inl (inl (inl s))
  | S754_infinity s => inl (inl (inr s))
  | S754_nan => inl (inr tt)
  | S754_finite s m e => inr (s, m, e)
  end.
Definition float_decode (c : float_code) : f64 :=
  match c with
  | inl (inl (inl s)) => S754_zero s
  | inl (inl (inr s)) => S754_infinity s
  | inl (inr tt) => S754_nan
  | inr (s, m, e) => S754_finite s m e
  end.

(** A leaf: a scalar, or the key of an entry. *)
Definition leaf : Type := unit + bool + Z + Z + float_code + string.

Fixpoint to_tree (v : YValue) : gen_tree leaf :=
  match v with
  | YNull => GenLeaf (inl (inl (inl (inl (inl tt)))))
  | YBool b => GenLeaf (inl (inl (inl (inl (inr b)))))
  | YUint n => GenLeaf (inl (inl (inl (inr n))))
  | YInt n => GenLeaf (inl (inl (inr n)))
  | YFloat f => GenLeaf (inl (inr (float_encode f)))
  | YStr s => GenLeaf (inr s)
  | YSeq l => GenNode 0 (to_tree <$> l)
  | YMap l => GenNode 1 ((λ p, GenNode 2 [GenLeaf (inr p.1); to_tree p.2]) <$> l)
  end.

Fixpoint of_tree (t : gen_tree leaf) : YValue :=
  match t with
  | GenLeaf (inl (inl (inl (inl (inl tt))))) => YNull
  | GenLeaf (inl (inl (inl (inl (inr b))))) => YBool b
  | GenLeaf (inl (inl (inl (inr n)))) => YUint n
  | GenLeaf (inl (inl (inr n))) => YInt n
  | GenLeaf (inl (inr c)) => YFloat (float_decode c)
  | GenLeaf (inr s) => YStr s
  | GenNode 0 l => YSeq (of_tree <$> l)
  | GenNode _ l => YMap ((λ t, match t with
      | GenNode _ [GenLeaf (inr k); v] => (k, of_tree v)
      | _ => (EmptyString, YNull)
      end) <$> l)
  end.

(** Induction with the sub-trees of a sequence or mapping. *)
Fixpoint YValue_nested (P : YValue → Prop) (Hleaf : ∀ v, match v with YSeq _ | YMap _ => True | _ => P v end)
    (Hseq : ∀ l, Forall P l → P (YSeq l)) (Hmap : ∀ l, Forall P l.*2 → P (YMap l)) (v : YValue) : P v :=
  match v as v return P v with
  | YSeq l => Hseq l ((fix go (l : list YValue) : Forall P l :=
      match l with [] => Forall_nil_2 P | v :: l => Forall_cons_2 P v l (YValue_nested P Hleaf Hseq Hmap v) (go l) end) l)
  | YMap l => Hmap l ((fix go (l : list (string * YValue)) : Forall P l.*2 :=
      match l with
      | [] => Forall_nil_2 P
      | p :: l => Forall_cons_2 P p.2 l.*2 (YValue_nested P Hleaf Hseq Hmap p.2) (go l)
      end) l)
  | YNull => Hleaf YNull
  | YBool b => Hleaf (YBool b)
  | YUint n => Hleaf (YUint n)
  | YInt n => Hleaf (YInt n)
  | YFloat f => Hleaf (YFloat f)
  | YStr s => Hleaf (YStr s)
  end.

Lemma of_to_tree v : of_tree (to_tree v) = v.
Proof.
  revert v. apply YValue_nested; [intros v|intros l IH|intros l IH].
  - destruct v as [|b|n|n|f|s|l|l]; try done. simpl. by destruct f.
  - simpl. f_equal. rewrite <- list_fmap_compose.
    induction IH as [|v l Hv _ IH]; [done|]. csimpl. by rewrite Hv, IH.
  - simpl. f_equal. rewrite <- list_fmap_compose.
    induction l as [|[k v] l IHl]; [done|]. apply Forall_cons in IH as [Hv IH]. csimpl. simpl in Hv.
    by rewrite Hv, IHl.
Qed.

Definition tree_text : YamlText := {|
  yaml_float f := show (Zpos (encode (float_encode f)));
  yaml_to_string v := show (Zpos (encode (to_tree v)));
  yaml_from_str s :=
    match digits_val 0 s with
    | Some (Zpos p) => of_tree <$> ok_or (decode p) "not a tree"%string
    | _ => Err "not a number"%string
    end |}.

Lemma tree_text_laws : YamlLaws tree_text.
Proof.
  constructor. intros v _. simpl. rewrite show_val by done. rewrite decode_encode. simpl.
  by rewrite of_to_tree.
Qed.
