(* ===== verification/ScenarioYaml.v ===== *)
(** * Scenarios in YAML (wrkr/src/scenario_yaml.rs)

    The file format of [wrkr scenario export] and [--scenario FILE.yml]: the
    data, its readers and writers, the export of resolved scenarios and the
    loading of a file into script options. *)
From Stdlib Require Import Ascii SpecFloat.
From S2P Require Import Prelude Std Coll F64 Text Config Options Thresholds Paths Durations Serde.

Local Open Scope string_scope.

(** ** Data

    A [YamlDuration] is its duration, a [BTreeMap] its sorted entries. *)
Record StageYaml := mkStageYaml { sy_target : Z; sy_duration : Z }.

Record ScenarioYaml := mkScenarioYaml {
  y_name : option string;
  y_exec : option string;
  y_tags : list (string * string);
  y_executor : option string;
  y_vus : option Z;
  y_iterations : option Z;
  y_duration : option Z;
  y_start_vus : option Z;
  y_stages : list StageYaml;
  y_start_rate : option Z;
  y_time_unit : option Z;
  y_pre_allocated_vus : option Z;
  y_max_vus : option Z }.

Inductive ThresholdExprYaml := One (e : string) | Many (l : list string).
Abbreviation ThresholdsYaml := (list (string * ThresholdExprYaml)).

Inductive ScenarioDocYaml :=
  | Multi (scenarios : list ScenarioYaml) (thresholds : ThresholdsYaml)
  | Nested (scenario : ScenarioYaml) (thresholds : ThresholdsYaml)
  | Flat (scenario : ScenarioYaml) (thresholds : ThresholdsYaml).

Section yaml.
Context {H : Humantime} {Y : YamlText}.

(** ** Writing ([Serialize]) *)
Definition duration_value (d : Z) : YValue := YStr (format_duration d).
Definition stage_value (s : StageYaml) : YValue :=
  YMap [("target", YUint (sy_target s)); ("duration", duration_value (sy_duration s))].
Definition tags_value (tags : list (string * string)) : YValue := YMap (prod_map id YStr <$> tags).
Definition scenario_value (s : ScenarioYaml) : YValue :=
  YMap (opt_entry "name" YStr (y_name s)
    ++ opt_entry "exec" YStr (y_exec s)
    ++ opt_entry "tags" tags_value (nonempty (y_tags s))
    ++ opt_entry "executor" YStr (y_executor s)
    ++ opt_entry "vus" YUint (y_vus s)
    ++ opt_entry "iterations" YUint (y_iterations s)
    ++ opt_entry "duration" duration_value (y_duration s)
    ++ opt_entry "startVUs" YUint (y_start_vus s)
    ++ opt_entry "stages" (λ l, YSeq (stage_value <$> l)) (nonempty (y_stages s))
    ++ opt_entry "startRate" YUint (y_start_rate s)
    ++ opt_entry "timeUnit" duration_value (y_time_unit s)
    ++ opt_entry "preAllocatedVUs" YUint (y_pre_allocated_vus s)
    ++ opt_entry "maxVUs" YUint (y_max_vus s))%list.

Definition expr_value (e : ThresholdExprYaml) : YValue :=
  match e with One s => YStr s | Many l => YSeq (YStr <$> l) end.
Definition thresholds_value (t : ThresholdsYaml) : YValue := YMap (prod_map id expr_value <$> t).

(** [ScenarioDocYamlMulti]. *)
Definition multi_value (scenarios : list ScenarioYaml) (thresholds : ThresholdsYaml) : YValue :=
  YMap (("scenarios", YSeq (scenario_value <$> scenarios))
    :: opt_entry "thresholds" thresholds_value (nonempty thresholds)).

(** ** Reading ([Deserialize]) *)
Definition is_finite (f : f64) : bool :=
  match f with S754_infinity _ | S754_nan => false | _ => true end.

(** The visitor of [YamlDuration]. *)
Definition de_duration (v : YValue) : de Z :=
  match v with
  | YUint n => Ok (Duration.from_secs n)
  | YInt n => if (n <=? 0)%Z then Err DErr else Ok (Duration.from_secs n)
  | YFloat f =>
      if negb (is_finite f) || fle f f_zero then Err DErr else ok_or (from_secs_f64 f) DPanic
  | YStr s => ok_or (humantime_parse s) DErr
  | _ => Err DErr
  end.

(** [deserialize_tags]: scalars as text, anything else dropped. *)
Definition tag_text (v : YValue) : option string :=
  match v with
  | YBool b => Some (if b then "true" else "false")
  | YUint n => Some (show n)
  | YInt n => Some ("-" ++ show (- n))
  | YFloat f => Some (yaml_float f)
  | YStr s => Some s
  | YNull | YSeq _ | YMap _ => None
  end.
Definition deserialize_tags (v : YValue) : de (list (string * string)) :=
  match v with
  | YMap l => Ok (btree_collect (omap (λ p, pair p.1 <$> tag_text p.2) (btree_collect l)))
  | _ => Err DErr
  end.

Definition stage_conv (k : string) : option (YValue → de Z) :=
  if decide (k = "target") then Some de_u64
  else if decide (k = "duration") then Some de_duration
  else None.
Definition de_stage (v : YValue) : de StageYaml :=
  r ← de_struct stage_conv ["target"; "duration"] 1 v;
  target ← ok_or (get_field "target" r) DErr;
  Ok (mkStageYaml target (default Duration.ZERO (get_field "duration" r))).

Inductive ScenarioField :=
  | FStr (o : option string)
  | FTags (l : list (string * string))
  | FNum (o : option Z)
  | FStages (l : list StageYaml).

Definition scenario_fields : list string :=
  ["name"; "exec"; "tags"; "executor"; "vus"; "iterations"; "duration"; "startVUs"; "stages";
   "startRate"; "timeUnit"; "preAllocatedVUs"; "maxVUs"].

Definition scenario_conv (k : string) : option (YValue → de ScenarioField) :=
  if decide (k ∈ ["name"; "exec"; "executor"]) then Some (λ v, FStr <$> de_option de_string v)
  else if decide (k = "tags") then Some (λ v, FTags <$> deserialize_tags v)
  else if decide (k ∈ ["vus"; "iterations"; "startVUs"; "startRate"; "preAllocatedVUs"; "maxVUs"]) then
    Some (λ v, FNum <$> de_option de_u64 v)
  else if decide (k ∈ ["duration"; "timeUnit"]) then Some (λ v, FNum <$> de_option de_duration v)
  else if decide (k = "stages") then Some (λ v, FStages <$> de_vec de_stage v)
  else None.

Definition str_field (k : string) (r : list (string * ScenarioField)) : option string :=
  match get_field k r with Some (FStr o) => o | _ => None end.
Definition num_field (k : string) (r : list (string * ScenarioField)) : option Z :=
  match get_field k r with Some (FNum o) => o | _ => None end.

Definition make_scenario (r : list (string * ScenarioField)) : ScenarioYaml :=
  mkScenarioYaml (str_field "name" r) (str_field "exec" r)
    (match get_field "tags" r with Some (FTags l) => l | _ => [] end)
    (str_field "executor" r) (num_field "vus" r) (num_field "iterations" r)
    (num_field "duration" r) (num_field "startVUs" r)
    (match get_field "stages" r with Some (FStages l) => l | _ => [] end)
    (num_field "startRate" r) (num_field "timeUnit" r) (num_field "preAllocatedVUs" r)
    (num_field "maxVUs" r).

Definition de_scenario (v : YValue) : de ScenarioYaml :=
  make_scenario <$> de_struct scenario_conv scenario_fields 13 v.

Definition de_threshold_expr (v : YValue) : de ThresholdExprYaml :=
  or_else (One <$> de_string v) (Many <$> de_vec de_string v).

Inductive DocField :=
  | FScenarios (l : list ScenarioYaml)
  | FScenario (s : ScenarioYaml)
  | FThresholds (t : ThresholdsYaml).

Definition thresholds_conv : YValue → de DocField := λ v, FThresholds <$> de_map de_threshold_expr v.
Definition thresholds_of (r : list (string * DocField)) : ThresholdsYaml :=
  match get_field "thresholds" r with Some (FThresholds t) => t | _ => [] end.

Definition multi_conv (k : string) : option (YValue → de DocField) :=
  if decide (k = "scenarios") then Some (λ v, FScenarios <$> de_vec de_scenario v)
  else if decide (k = "thresholds") then Some thresholds_conv
  else None.
Definition de_multi (v : YValue) : de ScenarioDocYaml :=
  r ← de_struct multi_conv ["scenarios"; "thresholds"] 1 v;
  match get_field "scenarios" r with
  | Some (FScenarios l) => Ok (Multi l (thresholds_of r))
  | _ => Err DErr
  end.

Definition nested_conv (k : string) : option (YValue → de DocField) :=
  if decide (k = "scenario") then Some (λ v, FScenario <$> de_scenario v)
  else if decide (k = "thresholds") then Some thresholds_conv
  else None.
Definition de_nested (v : YValue) : de ScenarioDocYaml :=
  r ← de_struct nested_conv ["scenario"; "thresholds"] 1 v;
  match get_field "scenario" r with
  | Some (FScenario s) => Ok (Nested s (thresholds_of r))
  | _ => Err DErr
  end.

(** With [flatten] only a mapping is read: the own field as it comes, then the
    scenario from the other entries. *)
Definition flat_conv (k : string) : option (YValue → de DocField) :=
  if decide (k = "thresholds") then Some thresholds_conv else None.
Definition de_flat (v : YValue) : de ScenarioDocYaml :=
  match v with
  | YMap l =>
      r ← visit_map flat_conv l [];
      s ← visit_map scenario_conv l [];
      Ok (Flat (make_scenario s) (thresholds_of r))
  | _ => Err DErr
  end.

Definition de_doc (v : YValue) : de ScenarioDocYaml :=
  or_else (de_multi v) (or_else (de_nested v) (de_flat v)).

(** ** Loading ([load_script_options_from_yaml]) *)
Inductive LoadError :=
  | LParse (msg : string)
  | LPanic
  | LThresholdKey (key msg : string)
  | LThresholdEmpty (key : string).

Definition looks_like_yaml_path (raw : string) : bool :=
  match lowercase <$> extension raw with
  | Some ext => bool_decide (ext = "yml") || bool_decide (ext = "yaml")
  | None => false
  end.

Definition scenario_yaml_into_options (scenario : ScenarioYaml) (default_name : string) : ScenarioOptions :=
  mkScenarioOptions (default default_name (y_name scenario)) (y_exec scenario) (y_tags scenario)
    (y_executor scenario) (y_vus scenario) (y_iterations scenario) (y_duration scenario)
    (y_start_vus scenario)
    ((λ s, mkStage (sy_duration s) (sy_target s)) <$> y_stages scenario)
    (y_start_rate scenario) (y_time_unit scenario) (y_pre_allocated_vus scenario) (y_max_vus scenario).

Definition parse_threshold_entry (p : string * ThresholdExprYaml) : result LoadError ThresholdSet :=
  '(metric, tags) ← map_err (LThresholdKey p.1) (parse_threshold_metric_key p.1);
  let expressions := match p.2 with One s => [s] | Many v => v end in
  if is_empty expressions then Err (LThresholdEmpty p.1) else Ok (mkThresholdSet metric tags expressions).
Definition parse_thresholds_map (raw : ThresholdsYaml) : result LoadError (list ThresholdSet) :=
  mapM parse_threshold_entry raw.

Definition default_name (path : string) (total idx : nat) (name : option string) : string :=
  if (total <=? 1)%nat then default "main" (or name (file_stem path))
  else default ("scenario_" ++ show (Z.of_nat idx + 1)) name.

Definition doc_scenarios (doc : ScenarioDocYaml) : list ScenarioYaml :=
  match doc with Multi l _ => l | Nested s _ | Flat s _ => [s] end.
Definition doc_thresholds (doc : ScenarioDocYaml) : ThresholdsYaml :=
  match doc with Multi _ t | Nested _ t | Flat _ t => t end.

Definition options_of_doc (path : string) (doc : ScenarioDocYaml) : result LoadError ScriptOptions :=
  let scenarios_yaml := doc_scenarios doc in
  let total := length scenarios_yaml in
  let scenarios :=
    imap (λ idx s, scenario_yaml_into_options s (default_name path total idx (y_name s))) scenarios_yaml in
  thresholds ← parse_thresholds_map (doc_thresholds doc);
  Ok (mkScriptOptions None None None scenarios thresholds).

(** From the text of the file at [path]. *)
Definition load_script_options (path text : string) : result LoadError ScriptOptions :=
  v ← map_err LParse (yaml_from_str text);
  doc ← map_err (λ e, match e with
                      | DErr => LParse "data did not match any variant of untagged enum ScenarioDocYaml"
                      | DPanic => LPanic
                      end) (de_doc v);
  options_of_doc path doc.

(** ** Exporting *)
Definition stage_yaml (s : Stage) : StageYaml := mkStageYaml (st_target s) (st_duration s).

(** The scenario of [build_doc_from_resolved_scenario]. *)
Definition build_scenario (s : ScenarioConfig) : ScenarioYaml :=
  let tags := btree_collect (mc_scenario_tags (sc_metrics_ctx s)) in
  let name := Some (mc_scenario (sc_metrics_ctx s)) in
  let exec := Some (sc_exec s) in
  match sc_executor s with
  | ConstantVus vus =>
      mkScenarioYaml name exec tags (Some "constant-vus") (Some vus) (sc_iterations s) (sc_duration s)
        None [] None None None None
  | RampingVus start_vus stages =>
      mkScenarioYaml name exec tags (Some "ramping-vus") None None None (Some start_vus)
        (stage_yaml <$> stages) None None None None
  | RampingArrivalRate start_rate time_unit pre_allocated_vus max_vus stages =>
      mkScenarioYaml name exec tags (Some "ramping-arrival-rate") None None None None
        (stage_yaml <$> stages) (Some start_rate) (Some time_unit) (Some pre_allocated_vus) (Some max_vus)
  end.

(** [Vec<String>::join]. *)
Fixpoint join_with (sep : string) (l : list string) : string :=
  match l with [] => "" | [s] => s | s :: l => s ++ sep ++ join_with sep l end.

Definition render_metric_key (metric : string) (tags : list (string * string)) : string :=
  if is_empty tags then metric
  else
    let selector := join_with "," ((λ p, p.1 ++ "=" ++ p.2) <$> tags) in
    metric ++ "{" ++ selector ++ "}".

Definition threshold_entry (s : ThresholdSet) : string * ThresholdExprYaml :=
  (render_metric_key (ts_metric s) (ts_tags s),
   match ts_expressions s with [e] => One e | l => Many l end).
Definition render_thresholds (sets : list ThresholdSet) : ThresholdsYaml :=
  btree_collect (threshold_entry <$> sets).

Definition build_doc_from_resolved_scenario (s : ScenarioConfig) (thresholds : list ThresholdSet) :
    ScenarioDocYaml := Flat (build_scenario s) (render_thresholds thresholds).

(** [build_doc_from_resolved_scenarios], written as text ([write_yaml_file]). *)
Definition build_doc_from_resolved_scenarios (scenarios : list ScenarioConfig)
    (thresholds : list ThresholdSet) : list ScenarioYaml * ThresholdsYaml :=
  (build_scenario <$> scenarios, render_thresholds thresholds).
Definition export_text (scenarios : list ScenarioConfig) (thresholds : list ThresholdSet) : string :=
  let '(s, t) := build_doc_from_resolved_scenarios scenarios thresholds in
  yaml_to_string (multi_value s t).

(** ** Reading back what was written *)
Definition scenario_yaml_ok (s : ScenarioYaml) : Prop :=
  btree_ok (y_tags s) ∧
  (∀ n, n ∈ [y_vus s; y_iterations s; y_start_vus s; y_start_rate s; y_pre_allocated_vus s; y_max_vus s]
        → from_option in_u64 True n) ∧
  (∀ d, d ∈ [y_duration s; y_time_unit s] → from_option Duration.valid True d) ∧
  Forall (λ st, in_u64 (sy_target st) ∧ Duration.valid (sy_duration st)) (y_stages s).


Context {HL : HumantimeLaws H} {YL : YamlLaws Y}.

Lemma duration_read d : Duration.valid d → de_duration (duration_value d) = Ok d.
Proof. intros Hd. simpl. by rewrite humantime_roundtrip. Qed.

Lemma stage_read s : Duration.valid (sy_duration s) → de_stage (stage_value s) = Ok s.
Proof.
  intros Hd. unfold de_stage, stage_value, de_struct.
  rewrite (visit_map_reads _ _ [("target", sy_target s); ("duration", sy_duration s)]).
  - simpl. by destruct s.
  - repeat constructor; simpl; eexists; (split; [reflexivity|]); [done|by apply duration_read].
  - repeat constructor; set_solver.
Qed.

(** The entries of a scenario, as read. *)
Definition scenario_typed (s : ScenarioYaml) : list (string * ScenarioField) :=
  opt_entry "name" (FStr ∘ Some) (y_name s)
    ++ opt_entry "exec" (FStr ∘ Some) (y_exec s)
    ++ opt_entry "tags" FTags (nonempty (y_tags s))
    ++ opt_entry "executor" (FStr ∘ Some) (y_executor s)
    ++ opt_entry "vus" (FNum ∘ Some) (y_vus s)
    ++ opt_entry "iterations" (FNum ∘ Some) (y_iterations s)
    ++ opt_entry "duration" (FNum ∘ Some) (y_duration s)
    ++ opt_entry "startVUs" (FNum ∘ Some) (y_start_vus s)
    ++ opt_entry "stages" FStages (nonempty (y_stages s))
    ++ opt_entry "startRate" (FNum ∘ Some) (y_start_rate s)
    ++ opt_entry "timeUnit" (FNum ∘ Some) (y_time_unit s)
    ++ opt_entry "preAllocatedVUs" (FNum ∘ Some) (y_pre_allocated_vus s)
    ++ opt_entry "maxVUs" (FNum ∘ Some) (y_max_vus s).

Definition reads {V} (conv : string → option (YValue → de V)) (e : string * YValue) (t : string * V) : Prop :=
  e.1 = t.1 ∧ ∃ f, conv e.1 = Some f ∧ f e.2 = Ok t.2.

Lemma opt_reads {A V} (conv : string → option (YValue → de V)) k (g : A → YValue) (h : A → V) o es ts :
  (∀ x, o = Some x → ∃ f, conv k = Some f ∧ f (g x) = Ok (h x)) → Forall2 (reads conv) es ts →
  Forall2 (reads conv) (opt_entry k g o ++ es)%list (opt_entry k h o ++ ts)%list.
Proof. intros Ho Hr. destruct o as [x|]; [|done]. constructor; [|done]. split; [done|]. by apply Ho. Qed.

Lemma opt_keys {A B} k (f : A → B) o (l : list (string * B)) names :
  l.*1 `sublist_of` names → (opt_entry k f o ++ l)%list.*1 `sublist_of` (k :: names).
Proof. destruct o; simpl; [by apply sublist_skip|by apply sublist_cons]. Qed.

Lemma get_opt_end {A B} k k' (f : A → B) o : k ≠ k' → get_field k (opt_entry k' f o) = None.
Proof. intros Hk. destruct o; simpl; [by rewrite decide_False|done]. Qed.

Lemma tags_read m : btree_ok m → deserialize_tags (tags_value m) = Ok m.
Proof.
  intros Hm. unfold deserialize_tags, tags_value. f_equal.
  assert (btree_ok (prod_map id YStr <$> m)) as Hm'.
  { destruct Hm as [Hs Hn]. split.
    - induction Hs as [|p l Hs IH Hf]; [constructor|]. csimpl. inversion Hn; subst. constructor; [by apply IH|].
      by apply Forall_fmap.
    - by rewrite <- list_fmap_compose. }
  rewrite (btree_collect_id _ Hm').
  transitivity (btree_collect m); [|by apply btree_collect_id]. f_equal. clear.
  induction m as [|[k v] m IH]; [done|]. csimpl. by rewrite IH.
Qed.

Lemma scenario_entries_read s :
  scenario_yaml_ok s → ∃ es, scenario_value s = YMap es ∧ Forall2 (reads scenario_conv) es (scenario_typed s).
Proof.
  intros (Ht & Hn & Hd & Hst). eexists. split; [reflexivity|]. unfold scenario_typed.
  rewrite <- (app_nil_r (opt_entry "maxVUs" _ _)).
  rewrite <- (app_nil_r (opt_entry (B := ScenarioField) "maxVUs" _ _)).
  repeat (apply opt_reads; [intros x Hx; eexists; (split; [reflexivity|])|]); [..|constructor];
    try reflexivity.
  - destruct (y_tags s) as [|p l] eqn:E; [done|]. injection Hx as <-. rewrite <- E in *.
    by rewrite tags_read.
  - change (FNum <$> (Some <$> de_duration (duration_value x)) = Ok (FNum (Some x))).
    rewrite duration_read; [done|]. apply (Hd (Some x)). rewrite Hx. by left.
  - destruct (y_stages s) as [|p l] eqn:E; [done|]. injection Hx as <-. rewrite <- E in *.
    unfold de_vec. rewrite (mapM_Ok_fmap _ _ id); [by rewrite list_fmap_id|].
    intros st Hin. apply stage_read. rewrite Forall_forall in Hst. by apply Hst.
  - change (FNum <$> (Some <$> de_duration (duration_value x)) = Ok (FNum (Some x))).
    rewrite duration_read; [done|]. apply (Hd (Some x)). rewrite Hx. right. by left.
Qed.

Lemma scenario_typed_keys s : (scenario_typed s).*1 `sublist_of` scenario_fields.
Proof.
  unfold scenario_typed, scenario_fields. repeat (apply opt_keys).
  destruct (y_max_vus s); simpl; repeat constructor.
Qed.

Ltac get_fields :=
  repeat first [rewrite get_opt_skip by done | rewrite get_opt_end by done | rewrite get_opt_none
    | rewrite get_opt_some].

Lemma make_scenario_typed s : make_scenario (scenario_typed s) = s.
Proof.
  unfold make_scenario, str_field, num_field, scenario_typed. destruct s; simpl y_name; cbn -[opt_entry get_field].
  f_equal; get_fields; try (match goal with
    | |- context [get_field _ (opt_entry _ _ (nonempty ?l) ++ _)%list] => destruct l; simpl nonempty
    | |- context [opt_entry _ _ ?o] => destruct o
    end); get_fields; done.
Qed.

Lemma scenario_read s : scenario_yaml_ok s → de_scenario (scenario_value s) = Ok s.
Proof.
  intros Hs. destruct (scenario_entries_read s Hs) as (es & -> & Hes).
  unfold de_scenario, de_struct. rewrite (visit_map_reads _ _ (scenario_typed s)); [|exact Hes|].
  - simpl. by rewrite make_scenario_typed.
  - eapply sublist_NoDup; [|apply scenario_typed_keys]. repeat constructor; set_solver.
Qed.
End yaml.
