(* ===== verification/YamlProps.v ===== *)
(** * Exporting scenarios and loading them again

    A resolved run written as YAML and read back is the same run; a document
    that does not read as what it says it is reads as something else. *)
From Stdlib Require Import Ascii.
From S2P Require Import Prelude Std Coll Text Config Options Thresholds Paths Durations Serde YamlText ScenarioYaml.

Local Open Scope string_scope.

Section yaml.
Context {H : Humantime} {Y : YamlText} {HL : HumantimeLaws H} {YL : YamlLaws Y}.

(** ** The document *)
Lemma opt_wf {A} k (g : A → YValue) o (l : list (string * YValue)) :
  (∀ x, o = Some x → wf_value (g x)) → Forall wf_value l.*2 → Forall wf_value (opt_entry k g o ++ l)%list.*2.
Proof. intros Ho Hl. destruct o as [x|]; [|done]. constructor; [by apply Ho|done]. Qed.

Lemma prod_map_wf {A} (g : A → YValue) (l : list (string * A)) :
  NoDup l.*1 → (∀ p, p ∈ l → wf_value (g p.2)) → wf_value (YMap (prod_map id g <$> l)).
Proof.
  intros Hnd Hg. apply wf_map. rewrite <- !list_fmap_compose. split; [exact Hnd|].
  apply Forall_fmap, Forall_forall. exact Hg.
Qed.

Lemma nonempty_Some {A} (l k : list A) : nonempty l = Some k → k = l.
Proof. destruct l; [done|]. by intros [= <-]. Qed.

Lemma scenario_wf s : scenario_yaml_ok s → wf_value (scenario_value s).
Proof.
  intros Hs. destruct (scenario_entries_read s Hs) as (es & E & Hes). rewrite E. apply wf_map. split.
  - assert (es.*1 = (scenario_typed s).*1) as ->.
    { clear E. induction Hes as [|e t es ts [He _] _ IH]; [done|]. csimpl. by rewrite He, IH. }
    eapply sublist_NoDup; [|apply scenario_typed_keys]. repeat constructor; set_solver.
  - injection E as <-. destruct Hs as (Ht & Hn & Hd & Hst).
    rewrite <- (app_nil_r (opt_entry "maxVUs" _ _)).
    repeat (apply opt_wf; [intros x Hx; try exact I|]); [..|constructor].
    1: { apply nonempty_Some in Hx as ->. apply prod_map_wf; [apply Ht|done]. }
    4: { apply nonempty_Some in Hx as ->. apply wf_seq, Forall_fmap. eapply Forall_impl; [exact Hst|].
         intros st [Hu _]. simpl. split_and!; try done. repeat constructor; set_solver. }
    all: apply (Hn (Some x)); rewrite Hx; set_solver.
Qed.

Lemma expr_read e : de_threshold_expr (expr_value e) = Ok e.
Proof.
  destruct e as [s|l]; [done|]. unfold de_threshold_expr. simpl.
  rewrite (mapM_Ok_fmap _ _ id); [by rewrite list_fmap_id|done].
Qed.

Lemma thresholds_read t : btree_ok t → thresholds_conv (thresholds_value t) = Ok (FThresholds t).
Proof.
  intros Ht. unfold thresholds_conv, thresholds_value. rewrite de_map_written; [done|done|].
  intros p _. apply expr_read.
Qed.

Lemma thresholds_wf t : btree_ok t → wf_value (thresholds_value t).
Proof.
  intros [_ Hnd]. apply prod_map_wf; [done|]. intros [k []] _; [done|]. simpl.
  apply (proj2 (wf_seq _)). by apply Forall_fmap, Forall_true.
Qed.

Lemma multi_wf ss t : Forall scenario_yaml_ok ss → btree_ok t → wf_value (multi_value ss t).
Proof.
  intros Hss Ht. unfold multi_value. apply wf_map. split.
  - destruct t; repeat constructor; set_solver.
  - constructor.
    + apply wf_seq, Forall_fmap. eapply Forall_impl; [exact Hss|]. apply scenario_wf.
    + rewrite <- (app_nil_r (opt_entry _ _ _)). apply opt_wf; [|constructor].
      intros x ->%nonempty_Some. by apply thresholds_wf.
Qed.

Lemma multi_read ss t : Forall scenario_yaml_ok ss → btree_ok t → de_doc (multi_value ss t) = Ok (Multi ss t).
Proof.
  intros Hss Ht. unfold de_doc, de_multi, de_struct, multi_value.
  rewrite (visit_map_reads _ _ (("scenarios", FScenarios ss) :: opt_entry "thresholds" FThresholds (nonempty t))).
  - cbn [app mbind result_bind get_field]. rewrite decide_True by done. unfold thresholds_of. simpl.
    by destruct t.
  - constructor.
    + split; [done|]. eexists; split; [reflexivity|]. unfold de_vec. simpl.
      rewrite (mapM_Ok_fmap _ _ id); [by rewrite list_fmap_id|].
      intros s Hs. apply scenario_read. rewrite Forall_forall in Hss. by apply Hss.
    + rewrite <- (app_nil_r (opt_entry "thresholds" thresholds_value _)).
      rewrite <- (app_nil_r (opt_entry "thresholds" FThresholds _)).
      apply (opt_reads multi_conv); [|constructor]. intros x ->%nonempty_Some.
      exists thresholds_conv. split; [done|]. by apply thresholds_read.
  - destruct t; repeat constructor; set_solver.
Qed.

(** ** Scenarios *)

(** The numbers of a resolved scenario fit their types. *)
Definition config_fits (c : ScenarioConfig) : Prop :=
  (from_option in_u64 True (sc_iterations c) ∧ from_option Duration.valid True (sc_duration c)) ∧
  let stages_fit stages := Forall (λ s, in_u64 (st_target s) ∧ Duration.valid (st_duration s)) stages in
  match sc_executor c with
  | ConstantVus vus => in_u64 vus
  | RampingVus start stages => in_u64 start ∧ stages_fit stages
  | RampingArrivalRate rate unit pre max stages =>
      (in_u64 rate ∧ Duration.valid unit) ∧ (in_u64 pre ∧ in_u64 max) ∧ stages_fit stages
  end.

Lemma build_scenario_ok c : config_fits c → scenario_yaml_ok (build_scenario c).
Proof.
  intros [[Hi Hd] He]. unfold scenario_yaml_ok, build_scenario.
  assert (∀ stages, Forall (λ s, in_u64 (st_target s) ∧ Duration.valid (st_duration s)) stages →
    Forall (λ st, in_u64 (sy_target st) ∧ Duration.valid (sy_duration st)) (stage_yaml <$> stages)) as Hst
    by (intros; by apply Forall_fmap).
  destruct (sc_executor c) as [vus|start stages|rate unit pre max stages]; simpl in *;
    (split; [apply btree_collect_ok|]); repeat setoid_rewrite elem_of_cons; setoid_rewrite elem_of_nil.
  - split_and!; [naive_solver|naive_solver|constructor].
  - split_and!; [naive_solver|naive_solver|naive_solver].
  - split_and!; [naive_solver|naive_solver|naive_solver].
Qed.

(** A scenario with its tags as a map keeps them: sorted, the last of each key. *)
Definition with_tag_map (c : ScenarioConfig) : ScenarioConfig :=
  mkScenarioConfig (sc_exec c)
    (mkMetricsContext (mc_scenario (sc_metrics_ctx c)) (btree_collect (mc_scenario_tags (sc_metrics_ctx c))))
    (sc_executor c) (sc_iterations c) (sc_duration c).

Lemma stages_back (stages : list Stage) :
  (λ s, mkStage (sy_duration s) (sy_target s)) <$> (stage_yaml <$> stages) = stages.
Proof. rewrite <- list_fmap_compose. rewrite <- (list_fmap_id stages) at 2. apply list_fmap_ext. by intros i []. Qed.

Lemma resolve_exported opts name c :
  op_vus opts = None → op_iterations opts = None → op_duration opts = None → valid_scenario c →
  resolve_scenario opts (mkRunConfig None None None)
    (scenario_yaml_into_options (build_scenario c) name) = Ok (with_tag_map c).
Proof.
  intros Hov Hoi Hod Hv. destruct c as [exec [sc tags] executor iters dur].
  unfold build_scenario, scenario_yaml_into_options, resolve_scenario, with_tag_map.
  destruct executor as [vus|start stages|rate unit pre max stages]; simpl in *.
  - destruct Hv as [Hvus Hiter]. unfold constant_scenario. simpl. rewrite ?Hov, Hoi, Hod.
    assert ((vus =? 0)%Z = false) as -> by lia.
    assert (or dur None = dur) as -> by (by destruct dur).
    assert (or iters None = iters) as -> by (by destruct iters).
    assert (is_zero_opt iters = false) as -> by (destruct iters as [n|]; [specialize (Hiter n eq_refl); simpl; lia|done]).
    done.
  - destruct Hv as (Hi & Hne & Hs & Hm & Hd & Ht). simpl in *. subst. unfold ramping_vus_scenario. simpl.
    rewrite Hoi, stages_back, (is_empty_false stages) by done.
    assert ((Z.max (max_stage stages) start =? 0)%Z = false) as -> by lia.
    assert (Duration.is_zero (total_stages stages) = false) as -> by (apply Z.eqb_neq; lia).
    done.
  - destruct Hv as (Hi & Hne & Hs & Hm & Hp & Hd & Ht). simpl in *. subst.
    unfold ramping_arrival_rate_scenario. simpl. rewrite Hoi, stages_back, (is_empty_false stages) by done.
    assert (Duration.is_zero unit = false) as -> by (apply Z.eqb_neq; lia).
    assert ((pre =? 0)%Z = false) as -> by lia. assert ((max <? pre)%Z = false) as -> by lia.
    assert (Duration.is_zero (total_stages stages) = false) as -> by (apply Z.eqb_neq; lia).
    done.
Qed.

Lemma resolve_all opts cs (name : nat → ScenarioYaml → string) :
  op_vus opts = None → op_iterations opts = None → op_duration opts = None → Forall valid_scenario cs →
  mapM (resolve_scenario opts (mkRunConfig None None None))
    (imap (λ idx s, scenario_yaml_into_options s (name idx s)) (build_scenario <$> cs))
  = Ok (with_tag_map <$> cs).
Proof.
  intros Hov Hoi Hod Hv. revert name. induction Hv as [|c cs Hc _ IH]; intros name; [done|].
  csimpl. rewrite resolve_exported by done. cbn [mbind result_bind].
  specialize (IH (name ∘ S)). unfold compose in *. exact (f_equal (λ m, m ≫= λ k, mret (with_tag_map c :: k)) IH).
Qed.

(** ** Thresholds *)

(** A set as [parse_threshold_metric_key] gives it, with something to check. *)
Definition set_ok (s : ThresholdSet) : Prop :=
  (ts_metric s ≠ "" ∧ is_simple (ts_metric s) = true) ∧
  (Forall tag_ok (ts_tags s) ∧ NoDup (ts_tags s).*1 ∧ merge_sort tag_le (ts_tags s) = ts_tags s) ∧
  ts_expressions s ≠ [].

Lemma join_pairs tags : tags ≠ [] → join_with "," ((λ p, p.1 ++ "=" ++ p.2) <$> tags) = render_pairs tags.
Proof.
  induction tags as [|p tags IH]; [done|]. intros _. destruct tags as [|q tags]; [done|].
  csimpl in *. rewrite IH by done. done.
Qed.

Lemma key_read s :
  set_ok s → parse_threshold_metric_key (render_metric_key (ts_metric s) (ts_tags s)) = Ok (ts_metric s, ts_tags s).
Proof.
  intros ([Hne Hsm] & (Ht & Hnd & Hsort) & _). unfold render_metric_key.
  destruct (decide (ts_tags s = [])) as [E|E].
  - rewrite E. simpl. by apply parse_plain.
  - rewrite is_empty_false by done. cbv zeta. rewrite join_pairs by done.
    change (parse_threshold_metric_key (render_key (ts_metric s) (ts_tags s)) = Ok (ts_metric s, ts_tags s)).
    rewrite parse_render by done. by rewrite Hsort.
Qed.

Lemma entry_read s : set_ok s → parse_threshold_entry (threshold_entry s) = Ok s.
Proof.
  intros Hs. unfold parse_threshold_entry, threshold_entry. simpl. rewrite key_read by done.
  cbn [map_err mbind result_bind]. destruct Hs as (_ & _ & He). destruct s as [m t es]. simpl in *.
  destruct es as [|e [|e' es]]; done.
Qed.

Lemma thresholds_back sets :
  Forall set_ok sets → NoDup ((λ s, (ts_metric s, ts_tags s)) <$> sets) →
  ∃ sets', parse_thresholds_map (render_thresholds sets) = Ok sets' ∧ sets' ≡ₚ sets.
Proof.
  intros Hok Hnd. unfold render_thresholds.
  assert (NoDup (threshold_entry <$> sets).*1) as Hk.
  { rewrite <- list_fmap_compose. apply NoDup_fmap_2_strong; [|by eapply NoDup_fmap_1].
    intros a b Ha Hb E. simpl in E. rewrite Forall_forall in Hok.
    pose proof (key_read a (Hok a Ha)) as Ra. pose proof (key_read b (Hok b Hb)) as Rb.
    rewrite E, Rb in Ra. injection Ra as E1 E2.
    apply list_elem_of_lookup in Ha as (i & Hi). apply list_elem_of_lookup in Hb as (j & Hj).
    assert (i = j) as ->; [|congruence].
    apply (NoDup_lookup _ i j (ts_metric a, ts_tags a) Hnd); rewrite list_lookup_fmap, ?Hi, ?Hj; simpl; congruence. }
  destruct (Permutation_map_inv threshold_entry _ (btree_collect_perm _ Hk))
    as (sets' & E & Hp).
  exists sets'. split; [|done]. unfold parse_thresholds_map. rewrite E. clear E.
  change (map threshold_entry sets') with (threshold_entry <$> sets').
  assert (Forall set_ok sets') as Hok' by (by rewrite <- Hp).
  rewrite (mapM_Ok_fmap _ _ id); [by rewrite list_fmap_id|].
  intros s Hs. apply entry_read. rewrite Forall_forall in Hok'. by apply Hok'.
Qed.

(** ** Properties *)

(** C32. A run exported to YAML and loaded again is the same run: the file reads
    without an error, resolving it without command-line overrides gives the
    scenarios it was exported from (their tags as a map), and it has the same
    thresholds.  Scenarios are any the resolution accepts whose numbers fit
    their types; thresholds are distinct and expressible in the key syntax. *)
Theorem export_load_roundtrip path scenarios thresholds :
  scenarios ≠ [] → Forall valid_scenario scenarios → Forall config_fits scenarios →
  Forall set_ok thresholds → NoDup ((λ s, (ts_metric s, ts_tags s)) <$> thresholds) →
  ∃ opts, load_script_options path (export_text scenarios thresholds) = Ok opts ∧
    scenarios_from_options opts (mkRunConfig None None None) = Ok (with_tag_map <$> scenarios) ∧
    op_thresholds opts ≡ₚ thresholds.
Proof.
  intros Hne Hv Hf Hts Hnd. destruct (thresholds_back thresholds Hts Hnd) as (sets & Hsets & Hp).
  assert (Forall scenario_yaml_ok (build_scenario <$> scenarios)) as Hok.
  { apply Forall_fmap. eapply Forall_impl; [exact Hf|]. apply build_scenario_ok. }
  pose proof (btree_collect_ok (threshold_entry <$> thresholds)) as Hb.
  unfold load_script_options, export_text. simpl.
  rewrite yaml_roundtrip by (by apply multi_wf). cbn [map_err mbind result_bind].
  rewrite multi_read by done. cbn [map_err mbind result_bind].
  unfold options_of_doc. simpl. rewrite Hsets. eexists. split; [reflexivity|]. split; [|done].
  unfold scenarios_from_options. simpl. rewrite is_empty_false by (by destruct scenarios). simpl.
  by rewrite resolve_all.
Qed.

(** *** A document that is not what it says *)
Lemma conv_unknown k : k ∉ scenario_fields → scenario_conv k = None.
Proof.
  unfold scenario_fields. intros Hk. unfold scenario_conv.
  repeat (rewrite decide_False by set_solver). done.
Qed.

Lemma visit_unknown {V} (conv : string → option (YValue → de V)) l acc :
  Forall (λ k, conv k = None) l.*1 → visit_map conv l acc = Ok acc.
Proof.
  induction l as [|[k v] l IH]; [done|]. intros [Hk Hl]%Forall_cons. simpl in *. rewrite Hk. by apply IH.
Qed.

(** C36. A mapping that reads neither as a list of scenarios nor as a nested
    scenario, say because one value has the wrong type, is not an error: if it
    has no scenario field of its own, it loads as one scenario that declares
    nothing, which runs [Default] once with one VU. *)
Theorem malformed_loads_as_default path text l :
  yaml_from_str text = Ok (YMap l) →
  de_multi (YMap l) = Err DErr → de_nested (YMap l) = Err DErr →
  Forall (λ k, k ∉ scenario_fields ∧ k ≠ "thresholds") l.*1 →
  ∃ opts c, load_script_options path text = Ok opts ∧
    scenarios_from_options opts (mkRunConfig None None None) = Ok [c] ∧
    sc_executor c = ConstantVus 1 ∧ sc_exec c = "Default" ∧
    sc_iterations c = None ∧ sc_duration c = None ∧ op_thresholds opts = [].
Proof.
  intros Ht Hm Hn Hk. unfold load_script_options. rewrite Ht. cbn [map_err mbind result_bind].
  unfold de_doc. rewrite Hm, Hn. cbn [or_else de_flat].
  rewrite (visit_unknown scenario_conv), (visit_unknown flat_conv).
  - simpl. eexists _, _. repeat split.
  - eapply Forall_impl; [exact Hk|]. intros k [_ Hth]. unfold flat_conv. by rewrite decide_False.
  - eapply Forall_impl; [exact Hk|]. intros k [Hf _]. by apply conv_unknown.
Qed.
End yaml.

(** ** Witnesses *)
#[local] Existing Instances ns_humantime tree_text ns_humantime_laws tree_text_laws.

Definition demo_rate : ScenarioConfig :=
  mkScenarioConfig "Rate" (mkMetricsContext "rate" [("tier", "core"); ("env", "ci")])
    (RampingArrivalRate 5 (Duration.from_secs 1) 2 5 [mkStage (Duration.from_secs 3) 20]) None
    (Some (Duration.from_secs 3)).
Definition demo_const : ScenarioConfig :=
  mkScenarioConfig "Default" (mkMetricsContext "const" []) (ConstantVus 5) (Some 10)
    (Some (Duration.from_secs 2)).
Definition demo_set : ThresholdSet :=
  mkThresholdSet "http_req_duration" [("scenario", "const")] ["p(95)<200"].

Lemma export_load_roundtrip_witness :
  ∃ opts, load_script_options "s.yaml" (export_text [demo_rate; demo_const] [demo_set]) = Ok opts ∧
    scenarios_from_options opts (mkRunConfig None None None) =
      Ok (with_tag_map <$> [demo_rate; demo_const]) ∧ op_thresholds opts ≡ₚ [demo_set].
Proof.
  apply (export_load_roundtrip "s.yaml" [demo_rate; demo_const] [demo_set]).
  - discriminate.
  - each ltac:(vm_compute; repeat split; first [discriminate|by intros ? [= <-]]).
  - apply Forall_cons_2; [|apply Forall_singleton].
    + split; [split; [exact I|closed_ineq]|]. split; [split; closed_ineq|].
      split; [split; closed_ineq|]. each ltac:(split; closed_ineq).
    + split; [split; closed_ineq|closed_ineq].
  - each ltac:(split; [by split|]; split; [|discriminate]; split; [each (by split_and!)|]; split; [|reflexivity];
      apply NoDup_singleton).
  - apply NoDup_singleton.
Defined.

(** A list of scenarios with a count given as a string. *)
Definition demo_bad : YValue :=
  YMap [("scenarios", YSeq [YMap [("name", YStr "checkout"); ("vus", YStr "50")]])].

Lemma malformed_loads_as_default_witness :
  ∃ opts c, load_script_options "s.yaml" (yaml_to_string demo_bad) = Ok opts ∧
    scenarios_from_options opts (mkRunConfig None None None) = Ok [c] ∧
    sc_executor c = ConstantVus 1 ∧ sc_exec c = "Default" ∧
    sc_iterations c = None ∧ sc_duration c = None ∧ op_thresholds opts = [].
Proof.
  apply (malformed_loads_as_default "s.yaml" _
    [("scenarios", YSeq [YMap [("name", YStr "checkout"); ("vus", YStr "50")]])]).
  - vm_compute. reflexivity.
  - reflexivity.
  - reflexivity.
  - each ltac:(split; [vm_compute; intros ?; set_solver|discriminate]).
Defined.
