(* ===== verification/JsonOut.v ===== *)
(** * The NDJSON output (wrkr/src/output/json.rs)

    The progress and summary lines as records; [serde_json] writes them.  The
    checks of a summary line are not those of the scenario summaries: they are
    worked out again from the metric series. *)
From S2P Require Import Prelude Coll Std F64 Config Metrics Registry Text Thresholds ThresholdsEval.
From S2P Require Import Serde Summary ScenarioYaml Loops Progress.

Local Open Scope string_scope.

Definition NDJSON_SCHEMA : string := "wrkr.ndjson.v1".

(** ** Progress lines *)
Record JsonProgressExecutor := mkJsonExecutor {
  je_kind : string;
  je_vus_active : Z;
  je_vus_max : option Z;
  je_dropped_iterations_total : option Z }.

Record JsonProgressLatencySeconds := mkJsonLatency {
  jl_mean : f64; jl_stdev : f64; jl_max : f64; jl_p50 : f64; jl_p75 : f64; jl_p90 : f64; jl_p99 : f64;
  jl_stdev_pct : f64 }.

Record JsonProgressMetrics := mkJsonMetrics {
  jm_requests_per_sec : f64;
  jm_bytes_received_per_sec : Z;
  jm_bytes_sent_per_sec : Z;
  jm_total_requests : Z;
  jm_total_failed_requests : Z;
  jm_total_iterations : Z;
  jm_total_bytes_received : Z;
  jm_total_bytes_sent : Z;
  jm_checks_failed_total : Z;
  jm_latency_seconds : JsonProgressLatencySeconds;
  jm_req_per_sec_avg : f64;
  jm_req_per_sec_stdev : f64;
  jm_req_per_sec_max : f64;
  jm_req_per_sec_stdev_pct : f64 }.

Record JsonProgressLine := mkProgressLine {
  jp_schema : string;
  jp_kind : string;
  jp_tick : Z;
  jp_elapsed_seconds : f64;
  jp_interval_seconds : f64;
  jp_scenario : string;
  jp_exec : string;
  jp_executor : JsonProgressExecutor;
  jp_metrics : JsonProgressMetrics }.

Definition scenario_progress_vus (p : ScenarioProgress) : Z * option Z * option Z :=
  match p with
  | PConstantVus vus _ => (vus, Some vus, None)
  | PRampingVus _ stage => (default 0%Z (sg_current_target <$> stage), None, None)
  | PRampingArrivalRate _ _ _ active_vus max_vus dropped => (active_vus, Some max_vus, Some dropped)
  end.

Definition scenario_progress_kind (p : ScenarioProgress) : string :=
  match p with
  | PConstantVus _ _ => "constant-vus"
  | PRampingVus _ _ => "ramping-vus"
  | PRampingArrivalRate _ _ _ _ _ _ => "ramping-arrival-rate"
  end.

Definition us_to_secs (v_us : f64) : f64 := fdiv v_us (of_Z 1000000).

Definition build_progress_line (u : ProgressUpdate) : JsonProgressLine :=
  let '(current_vus, max_vus, dropped) := scenario_progress_vus (u_progress u) in
  let m := u_metrics u in
  let u64_us v := us_to_secs (of_Z v) in
  mkProgressLine NDJSON_SCHEMA "progress" (u_tick u) (as_secs_f64 (u_elapsed u)) (as_secs_f64 (u_interval u))
    (u_scenario u) (u_exec u)
    (mkJsonExecutor (scenario_progress_kind (u_progress u)) current_vus max_vus dropped)
    (mkJsonMetrics (lm_rps_now m) (lm_bytes_received_per_sec_now m) (lm_bytes_sent_per_sec_now m)
       (lm_requests_total m) (lm_failed_requests_total m) (lm_iterations_total m)
       (lm_bytes_received_total m) (lm_bytes_sent_total m) (lm_checks_failed_total m)
       (mkJsonLatency (us_to_secs (lm_latency_mean m)) (us_to_secs (lm_latency_stdev m))
          (u64_us (lm_latency_max m)) (u64_us (lm_latency_p50 m)) (u64_us (lm_latency_p75 m))
          (u64_us (lm_latency_p90 m)) (u64_us (lm_latency_p99 m)) (lm_latency_stdev_pct m))
       (lm_req_per_sec_avg m) (lm_req_per_sec_stdev m) (lm_req_per_sec_max m) (lm_req_per_sec_stdev_pct m)).

(** ** Checks, from the metric series *)
Record JsonCheckSeriesSummary := mkCheckSeries {
  jc_name : string;
  jc_group : option string;
  jc_tags : list (string * string);
  jc_passed : Z;
  jc_failed : Z }.

Record JsonChecksSummary := mkChecks {
  jk_total : Z;
  jk_passed : Z;
  jk_failed : Z;
  jk_by_series : list JsonCheckSeriesSummary }.

(** What the loop over a series' tags collects. *)
Record Scan := mkScan {
  sn_scenario : option string;
  sn_name : option string;
  sn_status : option string;
  sn_group : option string;
  sn_tags : list (string * string) }.

Definition scan_tag (s : Scan) (p : string * string) : Scan :=
  let '(k, v) := p in
  if decide (k = "scenario") then mkScan (Some v) (sn_name s) (sn_status s) (sn_group s) (sn_tags s)
  else if decide (k = "name") then mkScan (sn_scenario s) (Some v) (sn_status s) (sn_group s) (sn_tags s)
  else if decide (k = "status") then mkScan (sn_scenario s) (sn_name s) (Some v) (sn_group s) (sn_tags s)
  else if decide (k = "group") then mkScan (sn_scenario s) (sn_name s) (sn_status s) (Some v) (sn_tags s)
  else mkScan (sn_scenario s) (sn_name s) (sn_status s) (sn_group s) (sn_tags s ++ [(k, v)]).
Definition scan (tags : list (string * string)) : Scan := foldl scan_tag (mkScan None None None None []) tags.

(** [SeriesKey]: scenario, name, group and the other tags in order. *)
Definition SeriesKey : Type := string * string * option string * list (string * string).

(** [Acc]: passed and failed. *)
Definition add_status (status : string) (n : Z) (acc : Z * Z) : Z * Z :=
  if decide (status = "pass") then (u64_sat_add acc.1 n, acc.2)
  else if decide (status = "fail") then (acc.1, u64_sat_add acc.2 n)
  else acc.

Definition add_series (by_key : gmap SeriesKey (Z * Z)) (m : MetricSeriesSummary) : gmap SeriesKey (Z * Z) :=
  if decide (ms_name m ≠ "checks") then by_key
  else
    match ms_kind m, ms_values m with
    | MetricKind.Counter, MetricValue.Counter n =>
        let s := scan (ms_tags m) in
        match sn_scenario s, sn_name s, sn_status s with
        | Some scenario, Some name, Some status =>
            let key := (scenario, name, sn_group s, merge_sort tag_le (sn_tags s)) in
            <[key := add_status status n (default (0, 0)%Z (by_key !! key))]> by_key
        | _, _, _ => by_key
        end
    | _, _ => by_key
    end.

Definition empty_checks : JsonChecksSummary := mkChecks 0 0 0 [].

Definition add_entry (by_scenario : gmap string JsonChecksSummary) (e : SeriesKey * (Z * Z)) :
    gmap string JsonChecksSummary :=
  let '((scenario, name, group, tags), (passed, failed)) := e in
  let series := mkCheckSeries name group (btree_collect tags) passed failed in
  let c := default empty_checks (by_scenario !! scenario) in
  <[scenario := mkChecks (u64_sat_add (jk_total c) (u64_sat_add passed failed))
                  (u64_sat_add (jk_passed c) passed) (u64_sat_add (jk_failed c) failed)
                  (jk_by_series c ++ [series])]> by_scenario.

(** The order of the series: name, group, the tags as text. *)
Definition sort_key (s : JsonCheckSeriesSummary) : string * string * string :=
  (jc_name s, default "" (jc_group s), join_with "," ((λ p, p.1 ++ "=" ++ p.2) <$> jc_tags s)).
Definition series_le (a b : JsonCheckSeriesSummary) : Prop :=
  let '(n1, g1, t1) := sort_key a in
  let '(n2, g2, t2) := sort_key b in
  if decide (n1 = n2) then (if decide (g1 = g2) then str_le t1 t2 else str_le g1 g2) else str_le n1 n2.
#[export] Instance series_le_dec a b : Decision (series_le a b).
Proof. unfold series_le. simpl. repeat case_decide; apply _. Defined.

Definition sort_series (c : JsonChecksSummary) : JsonChecksSummary :=
  mkChecks (jk_total c) (jk_passed c) (jk_failed c) (merge_sort series_le (jk_by_series c)).

Definition parse_checks_from_metric_series `{MapIter} (metrics : list MetricSeriesSummary) :
    gmap string JsonChecksSummary :=
  let by_key := foldl add_series ∅ metrics in
  sort_series <$> foldl add_entry ∅ (map_iter by_key).

(** ** Summary lines *)
Record JsonStage := mkJsonStage { js_duration_seconds : f64; js_target : Z }.

Record JsonScenarioExecutorConfig := mkExecutorConfig {
  jx_kind : string;
  jx_vus : option Z;
  jx_start_vus : option Z;
  jx_stages : option (list JsonStage);
  jx_start_rate : option Z;
  jx_time_unit_seconds : option f64;
  jx_pre_allocated_vus : option Z;
  jx_max_vus : option Z }.

Record JsonLatencySummarySeconds := mkLatencySummary {
  jls_p50 : option f64; jls_p75 : option f64; jls_p90 : option f64; jls_p95 : option f64; jls_p99 : option f64;
  jls_min : option f64; jls_max : option f64; jls_mean : option f64; jls_stdev : option f64;
  jls_count : Z }.

Record JsonScenarioSummary := mkJsonScenario {
  jss_scenario : string;
  jss_exec : option string;
  jss_executor : option JsonScenarioExecutorConfig;
  jss_requests_total : Z;
  jss_failed_requests_total : Z;
  jss_bytes_received_total : Z;
  jss_bytes_sent_total : Z;
  jss_iterations_total : Z;
  jss_checks : option JsonChecksSummary;
  jss_latency_seconds : option JsonLatencySummarySeconds }.

Record JsonTotals := mkTotals {
  jt_requests_total : Z;
  jt_failed_requests_total : Z;
  jt_bytes_received_total : Z;
  jt_bytes_sent_total : Z;
  jt_iterations_total : Z;
  jt_checks_failed_total : Z }.

Record JsonThresholdViolation := mkJsonViolation {
  jv_metric : string;
  jv_tags : list (string * string);
  jv_expression : string;
  jv_observed : option f64 }.

Record JsonThresholdsSummary := mkThresholdsSummary { jh_violations : list JsonThresholdViolation }.

Record JsonSummaryLine := mkSummaryLine {
  jy_schema : string;
  jy_kind : string;
  jy_scenarios : list JsonScenarioSummary;
  jy_totals : JsonTotals;
  jy_thresholds : JsonThresholdsSummary }.

Definition json_stage (s : Stage) : JsonStage := mkJsonStage (as_secs_f64 (st_duration s)) (st_target s).

Definition executor_config (cfg : ScenarioConfig) : JsonScenarioExecutorConfig :=
  match sc_executor cfg with
  | ConstantVus vus => mkExecutorConfig "constant-vus" (Some vus) None None None None None None
  | RampingVus start_vus stages =>
      mkExecutorConfig "ramping-vus" None (Some start_vus) (Some (json_stage <$> stages)) None None None None
  | RampingArrivalRate start_rate time_unit pre_allocated_vus max_vus stages =>
      mkExecutorConfig "ramping-arrival-rate" None None (Some (json_stage <$> stages)) (Some start_rate)
        (Some (as_secs_f64 time_unit)) (Some pre_allocated_vus) (Some max_vus)
  end.

Definition latency_seconds (l : HistogramSummary) : JsonLatencySummarySeconds :=
  mkLatencySummary (us_to_secs <$> hs_p50 l) (us_to_secs <$> hs_p75 l) (us_to_secs <$> hs_p90 l)
    (us_to_secs <$> hs_p95 l) (us_to_secs <$> hs_p99 l) (us_to_secs <$> hs_min l) (us_to_secs <$> hs_max l)
    (us_to_secs <$> hs_mean l) (us_to_secs <$> hs_stdev l) (hs_count l).

(** The failed checks the totals count for a scenario. *)
Definition checks_failed_of (checks : option JsonChecksSummary) (s : ScenarioSummary) : Z :=
  default (su_checks_failed_total s) (jk_failed <$> checks).

Definition add_totals (t : JsonTotals) (checks : option JsonChecksSummary) (s : ScenarioSummary) : JsonTotals :=
  mkTotals (u64_sat_add (jt_requests_total t) (su_requests_total s))
    (u64_sat_add (jt_failed_requests_total t) (su_failed_requests_total s))
    (u64_sat_add (jt_bytes_received_total t) (su_bytes_received_total s))
    (u64_sat_add (jt_bytes_sent_total t) (su_bytes_sent_total s))
    (u64_sat_add (jt_iterations_total t) (su_iterations_total s))
    (u64_sat_add (jt_checks_failed_total t) (checks_failed_of checks s)).

Definition json_scenario (scenarios : option (list ScenarioConfig)) (checks : option JsonChecksSummary)
    (s : ScenarioSummary) : JsonScenarioSummary :=
  let cfg := cfgs ← scenarios;
             List.find (λ c, bool_decide (mc_scenario (sc_metrics_ctx c) = su_scenario s)) cfgs in
  mkJsonScenario (su_scenario s) (sc_exec <$> cfg) (executor_config <$> cfg)
    (su_requests_total s) (su_failed_requests_total s) (su_bytes_received_total s) (su_bytes_sent_total s)
    (su_iterations_total s) checks (latency_seconds <$> su_latency s).

Definition json_violation (v : ThresholdViolation) : JsonThresholdViolation :=
  mkJsonViolation (tv_metric v) (btree_collect (tv_tags v)) (tv_expression v) (tv_observed v).

(** The closure over the scenarios also adds to the totals. *)
Fixpoint json_scenarios (checks_by_scenario : gmap string JsonChecksSummary)
    (scenarios : option (list ScenarioConfig)) (l : list ScenarioSummary) (totals : JsonTotals) :
    list JsonScenarioSummary * JsonTotals :=
  match l with
  | [] => ([], totals)
  | s :: l =>
      let checks := checks_by_scenario !! su_scenario s in
      let '(rest, totals) := json_scenarios checks_by_scenario scenarios l (add_totals totals checks s) in
      (json_scenario scenarios checks s :: rest, totals)
  end.

Definition build_summary_line `{MapIter} (summary : RunSummary) (scenarios : option (list ScenarioConfig)) :
    JsonSummaryLine :=
  let checks_by_scenario := parse_checks_from_metric_series (ru_metrics summary) in
  let '(l, totals) := json_scenarios checks_by_scenario scenarios (ru_scenarios summary) (mkTotals 0 0 0 0 0 0) in
  mkSummaryLine NDJSON_SCHEMA "summary" l totals
    (mkThresholdsSummary (json_violation <$> ru_threshold_violations summary)).

(** The formatter keeps the scenarios of the first header. *)
Record JsonOutput := mkJsonOutput { jo_scenarios : option (list ScenarioConfig) }.
Definition new_json_output : JsonOutput := mkJsonOutput None.
Definition print_header (o : JsonOutput) (scenarios : list ScenarioConfig) : JsonOutput :=
  match jo_scenarios o with Some _ => o | None => mkJsonOutput (Some scenarios) end.
Definition print_summary `{MapIter} (o : JsonOutput) (summary : RunSummary) : JsonSummaryLine :=
  build_summary_line summary (jo_scenarios o).

(** ** The checks are the sums over the series *)

(** A complete check series: what it says of which scenario. *)
Definition check_series (m : MetricSeriesSummary) : option (string * string * Z) :=
  if decide (ms_name m ≠ "checks") then None
  else
    match ms_kind m, ms_values m with
    | MetricKind.Counter, MetricValue.Counter n =>
        let s := scan (ms_tags m) in
        scenario ← sn_scenario s; name ← sn_name s; status ← sn_status s; Some (scenario, status, n)
    | _, _ => None
    end.

Definition series_sum (sc status : string) (metrics : list MetricSeriesSummary) : Z :=
  sumf (λ m, match check_series m with
             | Some (sc', st, n) => if bool_decide (sc' = sc ∧ st = status) then n else 0%Z
             | None => 0%Z
             end) metrics.
