(* ===== verification/JsonProps.v ===== *)
(** * What the summary line says

    The checks worked out from the metric series are those that were recorded,
    and agree with the scenario summaries the exit code is decided on. *)
From S2P Require Import Prelude Coll Std F64 Config Key Tags Metrics Registry Agg Requests Checks Text Thresholds.
From S2P Require Import ThresholdsEval Summary Exit Report ReportProps Serde ScenarioYaml Loops Progress JsonOut.

Local Open Scope string_scope.

(** ** The sums of [parse_checks_from_metric_series] *)

(** One of the two counts of an entry, with the status it counts. *)
Inductive side : (Z * Z → Z) → string → Prop :=
  | side_passed : side fst "pass"
  | side_failed : side snd "fail".

Definition key_scenario (k : SeriesKey) : string := k.1.1.1.

Definition part (proj : Z * Z → Z) (sc : string) (m : gmap SeriesKey (Z * Z)) : Z :=
  map_sum_on (λ k, bool_decide (key_scenario k = sc)) (proj <$> m).

Definition nonneg_pairs (m : gmap SeriesKey (Z * Z)) : Prop := ∀ k p, m !! k = Some p → (0 ≤ p.1 ∧ 0 ≤ p.2)%Z.

Lemma part_insert proj sc m k v :
  part proj sc (<[k := v]> m) =
  (part proj sc m + (if bool_decide (key_scenario k = sc) then proj v - default 0 (proj <$> m !! k) else 0))%Z.
Proof. unfold part. rewrite fmap_insert, map_sum_on_insert, lookup_fmap. done. Qed.

Lemma part_lookup_le proj status sc m k p :
  side proj status → nonneg_pairs m → m !! k = Some p → key_scenario k = sc → (0 ≤ proj p ≤ part proj sc m)%Z.
Proof.
  intros Hs Hm Hk Hsc. assert (∀ k p, m !! k = Some p → 0 ≤ proj p)%Z as Hn.
  { intros k' p' H'. destruct (Hm k' p' H'). by destruct Hs. }
  split; [by eapply Hn|]. unfold part, map_sum_on.
  etrans; [|apply (sumf_elem_le (λ x : SeriesKey * Z, if bool_decide (key_scenario x.1 = sc) then x.2 else 0)%Z _ (k, proj p))].
  - simpl. by rewrite bool_decide_true.
  - intros [k' v] Hin%elem_of_map_to_list. simpl. rewrite lookup_fmap in Hin.
    destruct (m !! k') as [p'|] eqn:E; simplify_eq/=. case_bool_decide; [by eapply Hn|done].
  - apply elem_of_map_to_list. by rewrite lookup_fmap, Hk.
Qed.

Definition counts_ok (m : MetricSeriesSummary) : Prop :=
  match ms_values m with MetricValue.Counter n => (0 ≤ n)%Z | _ => True end.

(** What a series adds to one side of a scenario. *)
Definition contribution (sc status : string) (m : MetricSeriesSummary) : Z :=
  match check_series m with
  | Some (sc', st, n) => if bool_decide (sc' = sc ∧ st = status) then n else 0%Z
  | None => 0%Z
  end.

Lemma contribution_nonneg sc status m : counts_ok m → (0 ≤ contribution sc status m)%Z.
Proof.
  unfold contribution, check_series, counts_ok. intros Hm. case_decide; [done|].
  destruct (ms_kind m), (ms_values m); try done.
  destruct (sn_scenario _), (sn_name _), (sn_status _); simpl; try done. by case_bool_decide.
Qed.

(** How a series changes the map of keys. *)
Lemma add_series_None m : check_series m = None → ∀ by_key, add_series by_key m = by_key.
Proof.
  unfold check_series, add_series. intros Hm by_key. case_decide; [done|].
  destruct (ms_kind m), (ms_values m); try done. cbv zeta in *.
  destruct (sn_scenario (scan (ms_tags m))), (sn_name (scan (ms_tags m))), (sn_status (scan (ms_tags m))); done.
Qed.

Lemma add_series_Some m sc status n :
  check_series m = Some (sc, status, n) →
  ∃ k, key_scenario k = sc ∧ ms_values m = MetricValue.Counter n ∧ ∀ by_key,
    add_series by_key m = <[k := add_status status n (default (0, 0)%Z (by_key !! k))]> by_key.
Proof.
  unfold check_series, add_series. case_decide; [done|].
  destruct (ms_kind m), (ms_values m); try done. cbv zeta.
  destruct (sn_scenario (scan (ms_tags m))), (sn_name (scan (ms_tags m))), (sn_status (scan (ms_tags m))); try done.
  simpl. intros [= <- <- <-].
  eexists (_, _, _, _). split_and!; [reflexivity|reflexivity|]. intros by_key. reflexivity.
Qed.

Lemma add_status_side proj st0 status n acc :
  side proj st0 → proj (add_status status n acc) =
    if decide (status = st0) then u64_sat_add (proj acc) n else proj acc.
Proof. intros []; unfold add_status; simpl; repeat case_decide; simpl; congruence. Qed.

Lemma add_status_nonneg status n acc :
  (0 ≤ n → 0 ≤ acc.1 ∧ 0 ≤ acc.2 → 0 ≤ (add_status status n acc).1 ∧ 0 ≤ (add_status status n acc).2)%Z.
Proof. unfold add_status. intros. repeat case_decide; simpl; ints_lia. Qed.

Lemma default_nonneg m k : nonneg_pairs m →
  (0 ≤ (default (0, 0) (m !! k)).1 ∧ 0 ≤ (default (0, 0) (m !! k)).2)%Z.
Proof. intros Hm. destruct (m !! k) as [p|] eqn:E; simpl; [by eapply Hm|lia]. Qed.

Lemma add_series_step proj st0 sc by_key m :
  side proj st0 → nonneg_pairs by_key → counts_ok m →
  (part proj sc by_key + contribution sc st0 m ≤ u64_max)%Z →
  nonneg_pairs (add_series by_key m) ∧
  part proj sc (add_series by_key m) = (part proj sc by_key + contribution sc st0 m)%Z.
Proof.
  intros Hs Hn Hm. unfold contribution. destruct (check_series m) as [[[sc' status] n]|] eqn:E.
  2: { rewrite add_series_None by done. intros _. split; [done|lia]. }
  destruct (add_series_Some _ _ _ _ E) as (k & Hk & Hv & ->). unfold counts_ok in Hm. rewrite Hv in Hm.
  pose proof (default_nonneg by_key k Hn) as Hd. intros Hmax. split.
  - intros k' p. destruct (decide (k = k')) as [<-|Hne].
    + rewrite lookup_insert_eq. intros [= <-]. by apply add_status_nonneg.
    + rewrite lookup_insert_ne by done. apply Hn.
  - rewrite part_insert, (add_status_side proj st0) by done. rewrite Hk.
    assert (default 0%Z (proj <$> by_key !! k) = proj (default (0, 0)%Z (by_key !! k))) as ->.
    { destruct (by_key !! k); simpl; [done|by destruct Hs]. }
    destruct (decide (sc' = sc)) as [->|Hne]; [|rewrite !bool_decide_false by tauto; lia].
    rewrite (bool_decide_true (sc = sc)) by done.
    destruct (decide (status = st0)) as [->|Hne']; [|rewrite bool_decide_false by tauto; lia].
    rewrite bool_decide_true in * by done.
    assert (proj (default (0, 0)%Z (by_key !! k)) ≤ part proj sc by_key)%Z as Hle.
    { destruct (by_key !! k) as [p|] eqn:Ek; simpl.
      - by apply (part_lookup_le proj st0 sc by_key k p).
      - assert (proj (0, 0)%Z = 0%Z) as -> by (by destruct Hs). unfold part, map_sum_on. apply sumf_nonneg.
        intros [k' v] Hin%elem_of_map_to_list. simpl. rewrite lookup_fmap in Hin.
        destruct (by_key !! k') as [p'|] eqn:E'; simplify_eq/=. destruct (Hn k' p' E').
        case_bool_decide; [by destruct Hs|done]. }
    unfold u64_sat_add. rewrite Z.min_r by lia. lia.
Qed.

Lemma series_sum_eq sc status metrics : series_sum sc status metrics = sumf (contribution sc status) metrics.
Proof. done. Qed.

Lemma by_key_sum proj st0 sc metrics :
  side proj st0 → Forall counts_ok metrics → (series_sum sc st0 metrics ≤ u64_max)%Z →
  nonneg_pairs (foldl add_series ∅ metrics) ∧
  part proj sc (foldl add_series ∅ metrics) = series_sum sc st0 metrics.
Proof.
  intros Hs Hm Hmax. rewrite Forall_forall in Hm.
  assert (part proj sc ∅ = 0%Z) as Hz by (unfold part; rewrite fmap_empty; apply map_sum_on_empty).
  destruct (foldl_exact (part proj sc) nonneg_pairs add_series (contribution sc st0) metrics ∅) as [H1 H2].
  - intros m x Hx Hn Hle. apply (add_series_step proj st0); auto.
  - intros k p. by rewrite lookup_empty.
  - intros x Hx. by apply contribution_nonneg, Hm.
  - rewrite Hz. rewrite series_sum_eq in Hmax. lia.
  - split; [done|]. rewrite H2, Hz. by rewrite series_sum_eq.
Qed.

(** The second loop adds the keys up by scenario. *)
Definition figure (f : JsonChecksSummary → Z) (sc : string) (m : gmap string JsonChecksSummary) : Z :=
  default 0%Z (f <$> m !! sc).

Lemma add_entry_figures sc m k v :
  let m' := add_entry m (k, v) in
  let add f x := if bool_decide (key_scenario k = sc) then u64_sat_add (figure f sc m) x else figure f sc m in
  figure jk_passed sc m' = add jk_passed v.1 ∧ figure jk_failed sc m' = add jk_failed v.2 ∧
  figure jk_total sc m' = add jk_total (u64_sat_add v.1 v.2).
Proof.
  destruct k as [[[sc' name] group] tags], v as [p f]. unfold figure, key_scenario. simpl.
  destruct (decide (sc' = sc)) as [->|Hne].
  - rewrite lookup_insert_eq, bool_decide_true by done. simpl. by destruct (m !! sc).
  - by rewrite lookup_insert_ne, bool_decide_false by done.
Qed.

Definition entry_part (proj : Z * Z → Z) (sc : string) (e : SeriesKey * (Z * Z)) : Z :=
  if bool_decide (key_scenario e.1 = sc) then proj e.2 else 0%Z.

Lemma part_entries proj sc m : part proj sc m = sumf (entry_part proj sc) (map_to_list m).
Proof.
  unfold part, map_sum_on. rewrite map_to_list_fmap. induction (map_to_list m) as [|[k v] l IH]; [done|].
  rewrite fmap_cons, !sumf_cons, IH. done.
Qed.

(** The sums of a side over the entries, in whatever order they come. *)
Lemma entries_sum proj st0 sc metrics `{MapIter} :
  side proj st0 → Forall counts_ok metrics → (series_sum sc st0 metrics ≤ u64_max)%Z →
  sumf (entry_part proj sc) (map_iter (foldl add_series ∅ metrics)) = series_sum sc st0 metrics ∧
  ∀ e, e ∈ map_iter (foldl add_series ∅ metrics) → (0 ≤ entry_part proj sc e)%Z.
Proof.
  intros Hs Hm Hmax. destruct (by_key_sum proj st0 sc metrics Hs Hm Hmax) as [Hn Hsum]. split.
  - by rewrite map_iter_perm, <- part_entries.
  - intros [k v] He%elem_of_map_iter. destruct (Hn k v He). unfold entry_part. simpl.
    case_bool_decide; [by destruct Hs|done].
Qed.

Lemma figure_sort f sc m :
  (∀ c, f (sort_series c) = f c) → figure f sc (sort_series <$> m) = figure f sc m.
Proof. intros Hf. unfold figure. rewrite lookup_fmap. destruct (m !! sc) as [c|]; simpl; [apply Hf|done]. Qed.

(** The checks of a scenario are the sums over its check series. *)
Lemma checks_sums `{MapIter} metrics sc :
  Forall counts_ok metrics → (series_sum sc "pass" metrics + series_sum sc "fail" metrics ≤ u64_max)%Z →
  let m := parse_checks_from_metric_series metrics in
  figure jk_passed sc m = series_sum sc "pass" metrics ∧
  figure jk_failed sc m = series_sum sc "fail" metrics ∧
  figure jk_total sc m = (series_sum sc "pass" metrics + series_sum sc "fail" metrics)%Z.
Proof.
  intros Hm Hmax. assert (∀ st, 0 ≤ series_sum sc st metrics)%Z as Hpos.
  { intros st. rewrite series_sum_eq. apply sumf_nonneg. intros x Hx. apply contribution_nonneg.
    rewrite Forall_forall in Hm. by apply Hm. }
  pose proof (Hpos "pass"). pose proof (Hpos "fail").
  destruct (entries_sum fst "pass" sc metrics side_passed Hm ltac:(lia)) as [Sp Pp].
  destruct (entries_sum snd "fail" sc metrics side_failed Hm ltac:(lia)) as [Sf Pf].
  unfold parse_checks_from_metric_series. cbv zeta. set (l := map_iter _) in *.
  rewrite !figure_sort by done.
  assert (∀ f, figure f sc ∅ = 0%Z) as Hz by (intros f; unfold figure; by rewrite lookup_empty).
  assert (sumf (λ e, entry_part fst sc e + entry_part snd sc e)%Z l
    = series_sum sc "pass" metrics + series_sum sc "fail" metrics)%Z as St.
  { rewrite <- Sp, <- Sf. clear. induction l as [|e l IH]; [done|]. rewrite !sumf_cons, IH. lia. }
  split_and!.
  - rewrite <- Sp.
    destruct (foldl_exact (figure jk_passed sc) (λ _, True) add_entry (entry_part fst sc) l ∅) as [_ ->];
      [|done|done|rewrite Hz; lia|by rewrite Hz].
    intros m [k v] _ _ Hle. split; [done|]. destruct (add_entry_figures sc m k v) as (-> & _ & _).
    unfold entry_part in *. simpl in *. case_bool_decide; [unfold u64_sat_add|]; lia.
  - rewrite <- Sf.
    destruct (foldl_exact (figure jk_failed sc) (λ _, True) add_entry (entry_part snd sc) l ∅) as [_ ->];
      [|done|done|rewrite Hz; lia|by rewrite Hz].
    intros m [k v] _ _ Hle. split; [done|]. destruct (add_entry_figures sc m k v) as (_ & -> & _).
    unfold entry_part in *. simpl in *. case_bool_decide; [unfold u64_sat_add|]; lia.
  - rewrite <- St.
    destruct (foldl_exact (figure jk_total sc) (λ m, 0 ≤ figure jk_total sc m)%Z add_entry
      (λ e, entry_part fst sc e + entry_part snd sc e)%Z l ∅) as [_ ->];
      [|by rewrite Hz|intros e He; specialize (Pp e He); specialize (Pf e He); lia|rewrite Hz; lia|by rewrite Hz].
    intros m [k v] He Hinv Hle. specialize (Pp _ He). specialize (Pf _ He).
    destruct (add_entry_figures sc m k v) as (_ & _ & ->). unfold entry_part in *. simpl in *.
    case_bool_decide; [unfold u64_sat_add|]; lia.
Qed.

(** ** The series of the checks metric *)
Local Open Scope Z_scope.

Lemma sumf_bind {A B} (f : B → Z) (g : A → list B) l : sumf f (l ≫= g) = sumf (λ x, sumf f (g x)) l.
Proof. induction l as [|x l IH]; [done|]. rewrite bind_cons, sumf_app, sumf_cons. by rewrite IH. Qed.

Lemma sumf_fmap {A B} (f : B → Z) (g : A → B) l : sumf f (g <$> l) = sumf (λ x, f (g x)) l.
Proof. induction l as [|x l IH]; [done|]. rewrite fmap_cons, !sumf_cons. by rewrite IH. Qed.

Lemma sumf_map_single {A} (f : Z * A → Z) (m : gmap Z A) k x :
  m !! k = Some x → (∀ k' x', k' ≠ k → m !! k' = Some x' → f (k', x') = 0) →
  sumf f (map_to_list m) = f (k, x).
Proof.
  intros Hk Hz. rewrite <- (map_to_list_delete m k x Hk), sumf_cons, sumf_zero; [lia|].
  intros [k' x'] [Hne Hk']%elem_of_map_to_list%lookup_delete_Some. by apply Hz.
Qed.

Section json.
Context {H : HistOps} {M : MapIter}.

(** The tags of a series as text. *)
Definition resolved (r : Registry) (t : TagSet) : list (string * string) :=
  (λ '(k, v), (resolve_or_default (reg_interner r) k, resolve_or_default (reg_interner r) v)) <$> t.

Lemma pair_ids_resolved r l t : registry_wf r → Forall2 (pair_ids r) l t → resolved r t = l.
Proof.
  intros Hwf. unfold resolved. induction 1 as [|[k v] [a b] l t [Hk Hv] Hl IH]; [done|].
  rewrite fmap_cons, IH. simpl in *. unfold resolve_or_default.
  by rewrite (wf_resolve _ _ _ (wf_interner _ Hwf) Hk), (wf_resolve _ _ _ (wf_interner _ Hwf) Hv).
Qed.

(** What the loop finds under a key that appears once. *)
Lemma scan_sole (get_ : Scan → option string) k v tags s :
  (∀ s p, get_ (scan_tag s p) = if decide (p.1 = k) then Some p.2 else get_ s) →
  get_ s = Some v ∨ (k, v) ∈ tags → (∀ v', (k, v') ∈ tags → v' = v) →
  get_ (foldl scan_tag s tags) = Some v.
Proof.
  intros Hg. revert s. induction tags as [|[k' v'] tags IH]; intros s Hin Hu; cbn [foldl].
  - destruct Hin as [Hs|Hin]; [done|set_solver].
  - apply IH; [|intros w Hw; apply Hu; set_solver]. rewrite Hg. cbn [fst snd]. destruct (decide (k' = k)) as [->|Hne].
    + left. f_equal. apply Hu. set_solver.
    + destruct Hin as [Hs|[[= -> ->]|Hin]%elem_of_cons]; [by left|done|by right].
Qed.

Lemma scan_found k get_ v tags :
  (k, get_) ∈ [("scenario", sn_scenario); ("name", sn_name); ("status", sn_status)] →
  sole k v tags → get_ (scan tags) = Some v.
Proof.
  intros Hk [Hin Hu]. apply (scan_sole get_ k); [|by right|done]. intros s [k' v'].
  repeat (apply elem_of_cons in Hk as [[= -> ->]|Hk]; [unfold scan_tag; simpl; repeat case_decide; simplify_eq/=; done|]).
  set_solver.
Qed.

(** The check series of the scenario with that status. *)
Definition check_tags (r : Registry) (sc status : string) (t : TagSet) : bool :=
  let s := scan (resolved r t) in
  match sn_scenario s, sn_name s, sn_status s with
  | Some sc', Some _, Some st => bool_decide (sc' = sc ∧ st = status)
  | _, _, _ => false
  end.

(** The checks of a run with that verdict. *)
Definition check_of (sc : string) (verdict : bool) (e : Event) : Z :=
  match e with
  | EvCheck ctx _ _ passed => if bool_decide (mc_scenario ctx = sc) && eqb passed verdict then 1 else 0
  | _ => 0
  end.
Definition status_of (verdict : bool) : string := if verdict then "pass" else "fail".

Lemma recorded_checks_def evs r :
  recorded evs r → ∃ def, reg_defs r !! Z.to_nat (ri_checks run_ids) = Some def ∧ md_kind def = MetricKind.Counter ∧
    resolve (md_name def) (reg_interner r) = Some "checks".
Proof.
  intros (opss & [_ D [l Hl] _] & _). rewrite D.
  assert (∃ def, reg_defs run_start !! Z.to_nat (ri_checks run_ids) = Some def ∧ md_kind def = MetricKind.Counter ∧
    resolve (md_name def) (reg_interner run_start) = Some "checks") as (def & H1 & H2 & H3).
  { eexists. split_and!; [vm_compute; reflexivity..]. }
  exists def. split_and!; [done..|]. unfold resolve in *. rewrite Hl. by apply lookup_app_l_Some.
Qed.

(** A series named checks is one of the checks metric. *)
Lemma contribution_other r id def p sc status evs :
  recorded evs r → reg_defs r !! Z.to_nat id = Some def → 0 ≤ id → id ≠ ri_checks run_ids →
  contribution sc status (summarize_one r def p) = 0.
Proof.
  intros Hr Hd Hid Hne. destruct (recorded_wf _ _ Hr) as [Hwf _].
  destruct (recorded_checks_def _ _ Hr) as (cdef & Hc & _ & Hn).
  assert (0 ≤ ri_checks run_ids) as Hpos by (by rewrite run_ids_eq).
  unfold contribution, check_series. case_decide as Heq; [done|]. exfalso.
  simpl in Heq. unfold resolve_or_default in Heq.
  assert (∃ s, resolve (md_name def) (reg_interner r) = Some s) as [s Hs].
  { destruct (wf_named _ Hwf def) as [H0 H1]; [by eapply list_elem_of_lookup_2|].
    apply lookup_lt_is_Some. lia. }
  rewrite Hs in Heq. simpl in Heq. subst s.
  assert (md_name def = md_name cdef) as Hsame.
  { pose proof (wf_named _ Hwf def (list_elem_of_lookup_2 _ _ _ Hd)) as [D0 _].
    pose proof (wf_named _ Hwf cdef (list_elem_of_lookup_2 _ _ _ Hc)) as [C0 _].
    pose proof (proj2 (Key.wf_map _ (wf_interner _ Hwf) "checks" (md_name def)) (conj D0 Hs)) as Q1.
    pose proof (proj2 (Key.wf_map _ (wf_interner _ Hwf) "checks" (md_name cdef)) (conj C0 Hn)) as Q2. congruence. }
  assert (Z.to_nat id = Z.to_nat (ri_checks run_ids)) as Hi; [|lia].
  apply (NoDup_lookup (md_name <$> reg_defs r) _ _ (md_name def) (wf_names _ Hwf)); rewrite list_lookup_fmap.
  - by rewrite Hd.
  - by rewrite Hc, Hsame.
Qed.

Lemma contribution_checks r def p sc status :
  md_kind def = MetricKind.Counter → resolve (md_name def) (reg_interner r) = Some "checks" →
  cell_typed (reg_heap r) p.2 → storage_kind p.2 = MetricKind.Counter →
  contribution sc status (summarize_one r def p) = series_val count_of (check_tags r sc status) (reg_heap r) p.
Proof.
  intros Hk Hn Ht Hs. unfold contribution, check_series, series_val, check_tags, cell_val.
  assert (ms_name (summarize_one r def p) = "checks") as Hname by (simpl; unfold resolve_or_default; by rewrite Hn).
  case_decide; [done|].
  change (ms_tags (summarize_one r def p)) with (resolved r p.1).
  unfold summarize_one. cbn [ms_kind ms_values]. rewrite Hk.
  destruct p as [t [a|a|a|a]]; simpl in *; try done. unfold load_counter.
  destruct (sn_scenario _), (sn_name _), (sn_status _); simpl; try done.
Qed.

(** What the summary line's checks add up is what the registry holds. *)
Lemma series_sum_checks evs r sc status :
  recorded evs r →
  series_sum sc status (summarize r) = metric_sum count_of (check_tags r sc status) (ri_checks run_ids) r.
Proof.
  intros Hr. destruct (recorded_wf _ _ Hr) as [Hwf _].
  destruct (recorded_checks_def _ _ Hr) as (cdef & Hc & Hkind & Hn).
  rewrite series_sum_eq. unfold summarize. rewrite merge_sort_Permutation. unfold summaries.
  rewrite sumf_bind, map_iter_perm.
  assert (is_Some (reg_storage r !! ri_checks run_ids)) as [sm Hsm].
  { apply (wf_storage _ Hwf). split; [by rewrite run_ids_eq|eexists; exact Hc]. }
  rewrite (sumf_map_single _ (reg_storage r) _ sm Hsm).
  - unfold metric_sum. cbn beta iota.
    rewrite Hc, Hsm, sumf_fmap, map_iter_perm. cbn [default].
    apply sumf_ext. intros [t s] Hin%elem_of_map_to_list.
    destruct (wf_series _ Hwf (ri_checks run_ids) t s) as (Ht & d & Hd & Hk).
    { apply storage_at_Some. by exists sm. }
    simplify_eq. apply contribution_checks; [done..|simpl; congruence].
  - intros id sm' Hne Hsm'. destruct (reg_defs r !! Z.to_nat id) as [def|] eqn:Hd; [|done].
    rewrite sumf_fmap. apply sumf_zero. intros p _. eapply contribution_other; [done..| |done].
    apply (wf_storage _ Hwf). by rewrite Hsm'.
Qed.

(** ** The checks of a recorded run *)
Lemma check_tags_verdict r sc verdict ctx name p t :
  registry_wf r → sole_tag r t "scenario" (mc_scenario ctx) → sole_tag r t "name" name →
  sole_tag r t "status" (status_of p) →
  check_tags r sc (status_of verdict) t = bool_decide (mc_scenario ctx = sc) && eqb p verdict.
Proof.
  intros Hwf (l & Hl & Hs) (l2 & Hl2 & Hn) (l3 & Hl3 & Ht). unfold check_tags.
  rewrite (pair_ids_resolved r l t Hwf Hl).
  rewrite <- (pair_ids_resolved r l t Hwf Hl), (pair_ids_resolved r l2 t Hwf Hl2) in Hs.
  assert (l = l2) as <- by (by rewrite <- (pair_ids_resolved r l t Hwf Hl), (pair_ids_resolved r l2 t Hwf Hl2)).
  assert (l = l3) as <- by (by rewrite <- (pair_ids_resolved r l t Hwf Hl), (pair_ids_resolved r l3 t Hwf Hl3)).
  rewrite (scan_found "scenario" sn_scenario (mc_scenario ctx)), (scan_found "name" sn_name name),
    (scan_found "status" sn_status (status_of p)) by (done || set_solver).
  rewrite bool_decide_and. f_equal. by destruct p, verdict.
Qed.

Lemma check_status_total evs r sc verdict :
  recorded evs r → Forall event_ok evs → sumf cost evs ≤ u64_max →
  series_sum sc (status_of verdict) (summarize r) = sumf (check_of sc verdict) evs.
Proof.
  intros Hr Hok Hmax. destruct (recorded_wf _ _ Hr) as [Hwf Hids].
  rewrite (series_sum_checks evs) by done.
  apply (events_total evs r _ _ (check_of sc verdict) Hr Hok Hmax); [apply run_start_ids_ok|].
  intros e ops He. destruct (distinct_ids _ (ro_distinct _ _ Hids)) as (Hnd & Hd1 & Hd2).
  destruct e as [s extra|s extra|ctx g name p]; simpl in He |- *.
  - destruct He as (tp & tk & -> & _). apply eff_sample_other. intros Hc. by destruct (Hd1 _ Hc).
  - destruct He as (t & -> & _). rewrite eff_single. by rewrite bool_decide_false.
  - destruct He as (t & -> & _ & _ & _ & S1 & S2 & S3). rewrite eff_single, bool_decide_true by done.
    by rewrite (check_tags_verdict r sc verdict ctx name p).
Qed.

Lemma checks_bounded sc evs : Forall event_ok evs →
  sumf (check_of sc true) evs + sumf (check_of sc false) evs ≤ sumf cost evs.
Proof.
  induction 1 as [|e evs He _ IH]; [done|]. rewrite !sumf_cons.
  destruct e as [s x|s x|ctx g n []]; simpl in *; [unfold sample_ok in *; ints_lia|lia| |]; case_bool_decide; simpl; lia.
Qed.

Lemma summarize_counts_ok evs r : recorded evs r → Forall counts_ok (summarize r).
Proof.
  intros Hr. destruct (recorded_wf _ _ Hr) as [Hwf _]. apply Forall_forall.
  intros x Hx. unfold summarize in Hx. rewrite merge_sort_Permutation in Hx. unfold summaries in Hx.
  apply list_elem_of_bind in Hx as ([id sm] & Hx & _). destruct (reg_defs r !! Z.to_nat id); [|set_solver].
  apply list_elem_of_fmap in Hx as ([t s] & -> & _). unfold counts_ok. destruct s as [a|a|a|a]; simpl; try done.
  - unfold load_counter. destruct (reg_heap r !! a) as [c|] eqn:Hc; [|done].
    pose proof (proj1 (Forall_forall _ _) (wf_cells _ Hwf) c (list_elem_of_lookup_2 _ _ _ Hc)) as Hrange.
    destruct c; simpl in *; ints_lia.
  - by destruct (load_rate _ _).
Qed.

(** The figures of the summary line, per scenario. *)
Lemma json_checks evs r sc :
  recorded evs r → Forall event_ok evs → sumf cost evs ≤ u64_max →
  let m := parse_checks_from_metric_series (summarize r) in
  figure jk_passed sc m = sumf (check_of sc true) evs ∧
  figure jk_failed sc m = sumf (check_of sc false) evs ∧
  figure jk_total sc m = sumf (check_of sc true) evs + sumf (check_of sc false) evs.
Proof.
  intros Hr Hok Hmax m. pose proof (checks_bounded sc evs Hok).
  pose proof (check_status_total evs r sc true Hr Hok Hmax) as Hp.
  pose proof (check_status_total evs r sc false Hr Hok Hmax) as Hf. simpl in Hp, Hf.
  destruct (checks_sums (summarize r) sc) as (E1 & E2 & E3); [by eapply summarize_counts_ok|lia|].
  fold m in E1, E2, E3. by rewrite E1, E2, E3, Hp, Hf.
Qed.

Lemma check_of_failed sc evs : sumf (check_of sc false) evs = checks_tally (λ _, true) sc evs.
Proof.
  apply sumf_ext. intros e _. destruct e as [| |ctx g n p]; simpl; [done..|]. rewrite andb_true_r. by destruct p.
Qed.

Lemma scenario_summaries_recorded evs c names r :
  recorded evs r → Forall event_ok evs → sumf cost evs ≤ u64_max → computer_ok c r →
  let '(l, r') := scenario_summaries c names r in
  reg_capacity r' → recorded evs r'.
Proof.
  revert r. induction names as [|name names IH]; intros r Hr Hok Hmax Hc; simpl; [done|].
  pose proof (scenario_summary_correct evs c name r Hr Hok Hmax Hc) as Hs.
  destruct (compute_scenario_summary c name r) as [s r1].
  pose proof (scenario_summaries_strings c names r1) as Hl. specialize (IH r1).
  destruct (scenario_summaries c names r1) as [l r2]. simpl in Hl. intros Hcap.
  destruct (Hs (capacity_mono _ _ Hl Hcap)) as (Hs1 & E & Hr1).
  apply IH; [done|done|done| |done]. eapply computer_ok_effect; [apply (recorded_wf _ _ Hr)|done|done].
Qed.

Lemma end_of_run_recorded evs names :
  Forall event_ok evs → sumf cost evs ≤ u64_max →
  let '(l, r') := end_of_run names (run_events run_ids evs run_start) in
  reg_capacity r' → recorded evs r' ∧ Forall2 (summary_ok evs) names l.
Proof.
  intros Hok Hmax. pose proof (end_of_run_correct evs names Hok Hmax) as Hl.
  pose proof (λ Hcap, proj1 (recorded_events [] evs run_start recorded_start Hok Hcap)) as Hr.
  set (r := run_events run_ids evs run_start) in *. unfold end_of_run in *.
  pose proof (λ Hrec, new_computer_ok evs r Hrec) as Hc.
  pose proof (new_computer_strings (ri_requests run_ids) (ri_iterations run_ids) (ri_checks run_ids) r) as L1.
  destruct (new_computer _ _ _ r) as [c r1].
  pose proof (λ Hrec Hck, scenario_summaries_recorded evs c names r1 Hrec Hok Hmax Hck) as Hs.
  pose proof (scenario_summaries_strings c names r1) as L2.
  destruct (scenario_summaries c names r1) as [l r2]. simpl in L1, L2. intros Hcap.
  pose proof (capacity_mono _ _ L2 Hcap) as C1. pose proof (capacity_mono _ _ L1 C1) as C0.
  destruct (Hc (Hr C0) C1) as [Hr1 Hck]. split; [by apply Hs|by apply Hl].
Qed.

(** ** The line *)

(** What the line says of a scenario. *)
Record json_scenario_ok (evs : list Event) (name : string) (s : JsonScenarioSummary) : Prop := {
  jo_scenario : jss_scenario s = name;
  jo_requests : jss_requests_total s = tally requests_of name evs;
  jo_failed : jss_failed_requests_total s = tally failures_of name evs;
  jo_received : jss_bytes_received_total s = tally received_of name evs;
  jo_sent : jss_bytes_sent_total s = tally sent_of name evs;
  jo_iterations : jss_iterations_total s = tally iterations_of name evs;
  jo_passed_checks : default 0 (jk_passed <$> jss_checks s) = sumf (check_of name true) evs;
  jo_failed_checks : default 0 (jk_failed <$> jss_checks s) = sumf (check_of name false) evs;
  jo_checks : default 0 (jk_total <$> jss_checks s) =
    sumf (check_of name true) evs + sumf (check_of name false) evs }.

Lemma json_scenarios_fst checks cfgs l t :
  (json_scenarios checks cfgs l t).1 = (λ s, json_scenario cfgs (checks !! su_scenario s) s) <$> l.
Proof.
  revert t. induction l as [|s l IH]; intros t; [done|]. rewrite fmap_cons, <- (IH (add_totals t (checks !! su_scenario s) s)).
  simpl. by destruct (json_scenarios _ _ l _).
Qed.

Lemma json_scenarios_snd checks cfgs l t :
  (json_scenarios checks cfgs l t).2 = foldl (λ t s, add_totals t (checks !! su_scenario s) s) t l.
Proof.
  revert t. induction l as [|s l IH]; intros t; [done|]. simpl. rewrite <- IH.
  by destruct (json_scenarios _ _ l _).
Qed.

(** A total is the saturated sum of what the scenarios report. *)
Lemma total_names checks cfgs names l (get : JsonTotals → Z) (f : ScenarioSummary → Z) (g : string → Z) :
  Forall2 (λ name s, f s = g name) names l → (∀ name, 0 ≤ g name) →
  (∀ t s, get (add_totals t (checks !! su_scenario s) s) = u64_sat_add (get t) (f s)) →
  get (mkTotals 0 0 0 0 0 0) = 0 →
  get (json_scenarios checks cfgs l (mkTotals 0 0 0 0 0 0)).2 = Z.min u64_max (sumf g names).
Proof.
  intros Hl Hg Hs H0. rewrite json_scenarios_snd, (foldl_sat get _ f), H0.
  - f_equal. simpl. induction Hl as [|name s names l Hf Hl IH]; [done|]. rewrite !sumf_cons, Hf. lia.
  - intros. by apply Hs.
  - rewrite H0. ints_lia.
  - intros s [i Hi]%list_elem_of_lookup_1. by destruct (Forall2_lookup_r _ _ _ _ _ Hl Hi) as (name & _ & ->).
Qed.

Lemma tallies_nonneg f sc evs :
  Forall event_ok evs → f ∈ [requests_of; failures_of; received_of; sent_of; iterations_of] → 0 ≤ tally f sc evs.
Proof.
  intros Hok Hf. apply tally_nonneg. intros e He. pose proof (proj1 (Forall_forall _ _) Hok e He) as Hk.
  pose proof (event_amounts e Hk).
  repeat (apply elem_of_cons in Hf as [->|Hf]; [try lia; destruct e as [s x|s x|ctx g n p]; simpl; try lia;
    by destruct (rq_ok s)|]). set_solver.
Qed.

Lemma check_of_nonneg sc verdict evs : 0 ≤ sumf (check_of sc verdict) evs.
Proof. apply sumf_nonneg. intros e _. destruct e; simpl; [done..|]. by destruct (_ && _). Qed.

(** The totals, of all the scenarios of the line. *)
Record json_totals_ok (evs : list Event) (names : list string) (t : JsonTotals) : Prop := {
  to_requests : jt_requests_total t = Z.min u64_max (sumf (λ name, tally requests_of name evs) names);
  to_failed : jt_failed_requests_total t = Z.min u64_max (sumf (λ name, tally failures_of name evs) names);
  to_received : jt_bytes_received_total t = Z.min u64_max (sumf (λ name, tally received_of name evs) names);
  to_sent : jt_bytes_sent_total t = Z.min u64_max (sumf (λ name, tally sent_of name evs) names);
  to_iterations : jt_iterations_total t = Z.min u64_max (sumf (λ name, tally iterations_of name evs) names);
  to_checks : jt_checks_failed_total t = Z.min u64_max (sumf (λ name, sumf (check_of name false) evs) names) }.

Lemma json_scenario_correct evs r cfgs name s :
  recorded evs r → Forall event_ok evs → sumf cost evs ≤ u64_max → summary_ok evs name s →
  let checks := parse_checks_from_metric_series (summarize r) !! su_scenario s in
  json_scenario_ok evs name (json_scenario cfgs checks s) ∧
  checks_failed_of checks s = sumf (check_of name false) evs.
Proof.
  intros Hr Hok Hmax [Hname [F1 F2 F3 F4 F5 F6 _]] checks.
  destruct (json_checks evs r name Hr Hok Hmax) as (Hp & Hf & Ht). cbv zeta in *. unfold figure in *.
  rewrite <- Hname in Hp, Hf, Ht. fold checks in Hp, Hf, Ht. rewrite Hname in Hp, Hf, Ht. split.
  - by split.
  - unfold checks_failed_of. destruct checks as [c|]; simpl in *; [done|]. by rewrite F6, <- check_of_failed.
Qed.

Lemma json_totals_correct evs r cfgs names l :
  recorded evs r → Forall event_ok evs → sumf cost evs ≤ u64_max → Forall2 (summary_ok evs) names l →
  let checks := parse_checks_from_metric_series (summarize r) in
  json_totals_ok evs names (json_scenarios checks cfgs l (mkTotals 0 0 0 0 0 0)).2.
Proof.
  intros Hr Hok Hmax Hl checks.
  assert (∀ (get : JsonTotals → Z) (f : ScenarioSummary → Z) (g : string → Z),
    (∀ name s, summary_ok evs name s → f s = g name) → (∀ name, 0 ≤ g name) →
    (∀ t s, get (add_totals t (checks !! su_scenario s) s) = u64_sat_add (get t) (f s)) →
    get (mkTotals 0 0 0 0 0 0) = 0 →
    get (json_scenarios checks cfgs l (mkTotals 0 0 0 0 0 0)).2 = Z.min u64_max (sumf g names)) as Hall.
  { intros get f g Hfg Hg Hs H0. apply (total_names checks cfgs names l get f g); [|done..].
    eapply Forall2_impl; [exact Hl|]. exact Hfg. }
  split; [eapply Hall; [by intros name s [_ []]|intros; apply tallies_nonneg; [done|set_solver]|done..] ..|].
  eapply (Hall _ (λ s, checks_failed_of (checks !! su_scenario s) s)); [|intros; apply check_of_nonneg|done..].
  intros name s Hs. by apply (json_scenario_correct evs r cfgs name s).
Qed.

Lemma checks_gate evs names l total :
  Forall2 (summary_ok evs) names l →
  total = Z.min u64_max (sumf (λ name, sumf (check_of name false) evs) names) →
  (0 <? total) = existsb (λ s, 0 <? su_checks_failed_total s) l.
Proof.
  intros Hl ->. assert (0 < u64_max) as Hu by (vm_compute; reflexivity).
  induction Hl as [|name s names l [_ Hf] Hl IH]; [by rewrite Z.min_r|].
  rewrite sumf_cons. simpl. rewrite <- IH, (fg_checks _ _ _ _ _ _ _ _ _ Hf), <- check_of_failed.
  pose proof (check_of_nonneg name false evs).
  pose proof (sumf_nonneg (λ name, sumf (check_of name false) evs) names ltac:(intros; apply check_of_nonneg)).
  apply eq_true_iff_eq. rewrite orb_true_iff, !Z.ltb_lt. lia.
Qed.

(** C30. The summary line tells what happened.  For a run recorded from the start
    and reported, the NDJSON summary has a line for each scenario name, in
    order, with its requests, failures, bytes and iterations and with the
    passed, failed and all checks it counts again from the metric series; the
    totals are the saturated sums over the scenarios; and the exit code is the
    one a reader of the line would work out from its failed checks and its
    violations. *)
Theorem json_line_exact evs names thresholds output summary :
  Forall event_ok evs → sumf cost evs ≤ u64_max →
  let r := run_events run_ids evs run_start in
  reg_capacity (end_of_run names r).2 →
  build_run_summary (ri_requests run_ids) (ri_iterations run_ids) (ri_checks run_ids) names thresholds r
    = Ok summary →
  let line := print_summary output summary in
  Forall2 (json_scenario_ok evs) names (jy_scenarios line) ∧
  json_totals_ok evs names (jy_totals line) ∧
  summary_exit summary =
    from_quality_gates (0 <? jt_checks_failed_total (jy_totals line))
      (negb (is_empty (jh_violations (jy_thresholds line)))).
Proof.
  intros Hok Hmax r Hcap. rewrite build_run_summary_eq.
  pose proof (end_of_run_recorded evs names Hok Hmax) as Hs. fold r in Hs.
  destruct (end_of_run names r) as [l r']. destruct (Hs Hcap) as [Hr Hl].
  destruct (evaluate_thresholds r' thresholds) as [violations|e]; simpl; [|done]. intros [= <-].
  pose proof (json_totals_correct evs r' (jo_scenarios output) names l Hr Hok Hmax Hl) as Ht. cbv zeta in Ht.
  unfold print_summary, build_summary_line. cbn [ru_metrics ru_scenarios ru_threshold_violations].
  pose proof (json_scenarios_fst (parse_checks_from_metric_series (summarize r')) (jo_scenarios output) l (mkTotals 0 0 0 0 0 0)) as Hf.
  destruct (json_scenarios _ _ l _) as [js totals]. simpl in *. subst js. split_and!; [|done|].
  - apply Forall2_fmap_r. eapply Forall2_impl; [exact Hl|]. intros name s Hn.
    by apply (json_scenario_correct evs r' (jo_scenarios output) name s).
  - unfold summary_exit. simpl. f_equal; [|by destruct violations].
    symmetry. by apply (checks_gate evs names), to_checks.
Qed.
End json.

(** ** Witness *)
Lemma json_line_exact_witness :
  jy_totals (print_summary new_json_output demo_summary) = mkTotals 2 1 17 4 1 2 ∧
  json_totals_ok demo_events ["a"; "b"] (jy_totals (print_summary new_json_output demo_summary)).
Proof.
  split; [vm_compute; reflexivity|].
  apply (json_line_exact demo_events ["a"; "b"] [] new_json_output demo_summary demo_events_ok
    ltac:(vm_compute; discriminate) demo_capacity demo_report_ok).
Defined.
