(* ===== verification/Lua.v ===== *)
(** * Lua values as the bindings see them (wrkr-lua; the mlua crate's interface)

    The interpreter and its Rust binding are third-party code: [LuaValue] are
    the kinds of [mlua::Value] the code tells apart, and what it does with a
    table is a class of operations.  A Lua string is its bytes, a Lua number its
    64-bit pattern, as in Value.v. *)
From Stdlib Require Import Ascii.
From S2P Require Import Prelude Coll F64 Text Value Coerce.

Local Open Scope Z_scope.

(** ** Values *)

(** [LOther]: functions, threads, userdata. *)
Inductive LuaValue (T : Type) :=
  | LNil
  | LBoolean (b : bool)
  | LInteger (i : Z)
  | LNumber (bits : Z)
  | LString (s : string)
  | LTable (t : T)
  | LOther.
Arguments LNil {T}.
Arguments LBoolean {T} b.
Arguments LInteger {T} i.
Arguments LNumber {T} bits.
Arguments LString {T} s.
Arguments LTable {T} t.
Arguments LOther {T}.

(** [wrkr_lua::Error].  [Panic] stands for a panic of the standard library,
    which no caller catches. *)
Module LuaError.
Inductive t :=
  | Lua (msg : string) | Io (msg : string) | Core (msg : string)
  | MissingDefault | MissingExec (name : string)
  | MissingScriptPath (path : string) | InvalidPath (path : string)
  | InvalidIterations | InvalidVus | InvalidExecutor | InvalidStages | InvalidDuration
  | InvalidTimeUnit | InvalidScenarioTags | InvalidThresholds | InvalidMetricName | InvalidMetricValue
  | Panic.
End LuaError.

(** ** Tables

    [Table::get::<Value>] and [set] honour metamethods, so that they can fail
    with a script's error; [pairs] and [sequence_values] yield results.  A fresh
    table is written only by its owner until it is handed out, so [set] gives
    the table after the write.  [coerce_string] is Lua's conversion of a number
    to a string. *)
Class LuaTables (T : Type) := {
  tbl_get : T → string → result string (LuaValue T);
  tbl_pairs : T → list (result string (LuaValue T * LuaValue T));
  sequence_values : T → list (result string (LuaValue T));
  create_table : T;
  tbl_set : LuaValue T → LuaValue T → T → result string T;
  coerce_string : Z → string }.

(** The keys the bindings write. *)
Definition key_ok {T} (k : LuaValue T) : Prop :=
  match k with LBoolean _ | LInteger _ | LString _ => True | _ => False end.

(** What the Lua manual says of a table without metatable, whose entries are
    [es]: the order of a traversal is not specified. *)
Class LuaLaws (T : Type) {L : LuaTables T} := {
  plain : T → list (LuaValue T * LuaValue T) → Prop;
  plain_new : plain create_table [];
  plain_set t es k v : plain t es → key_ok k → k ∉ es.*1 → v ≠ LNil →
    ∃ t', tbl_set k v t = Ok t' ∧ plain t' (es ++ [(k, v)]);
  plain_set_nil t es k : plain t es → key_ok k → k ∉ es.*1 → ∃ t', tbl_set k LNil t = Ok t' ∧ plain t' es;
  plain_reset t es1 es2 k v v' : plain t (es1 ++ (k, v) :: es2) → key_ok k → k ∉ es1.*1 → v' ≠ LNil →
    ∃ t', tbl_set k v' t = Ok t' ∧ plain t' (es1 ++ (k, v') :: es2);
  plain_pairs t es : plain t es → ∃ l, l ≡ₚ es ∧ tbl_pairs t = Ok <$> l;
  plain_get t es k v : plain t es → NoDup es.*1 → (LString k, v) ∈ es → tbl_get t k = Ok v;
  plain_get_absent t es k : plain t es → LString k ∉ es.*1 → tbl_get t k = Ok LNil;
  plain_sequence t es vs : plain t es → NoDup es.*1 →
    (∀ i v, vs !! i = Some v → (LInteger (Z.of_nat i + 1), v) ∈ es ∧ v ≠ LNil) →
    LInteger (Z.of_nat (length vs) + 1) ∉ es.*1 → sequence_values t = Ok <$> vs }.

(** ** Conversions *)
Section conversions.
Context {T : Type} {L : LuaTables T}.

(** [?] on a [mlua::Result]. *)
Definition lua_try {A} (r : result string A) : result LuaError.t A :=
  match r with Ok a => Ok a | Err e => Err (LuaError.Lua e) end.

(** [t.get::<Table>(key).ok()]. *)
Definition get_table (t : T) (key : string) : option T :=
  match tbl_get t key with Ok (LTable t') => Some t' | _ => None end.

(** [FromLua] for [String]: UTF-8 strings, and numbers as Lua prints them. *)
Definition string_of_lua (v : LuaValue T) : option string :=
  match v with
  | LString s => from_utf8 (as_bytes s)
  | LInteger i => Some (show_Z i)
  | LNumber n => Some (coerce_string n)
  | _ => None
  end.

(** [t.get::<String>(key).ok()]. *)
Definition get_string (t : T) (key : string) : option string :=
  match tbl_get t key with Ok v => string_of_lua v | Err _ => None end.
End conversions.

(** ** [String::from_utf8_lossy]: every maximal prefix of an ill-formed
    sequence becomes one U+FFFD *)
Definition replacement : list Z := [0xEF; 0xBF; 0xBD].

Fixpoint lossy (l : list Z) : list Z :=
  match l with
  | [] => []
  | b0 :: l0 =>
      if b0 <? 0x80 then b0 :: lossy l0
      else
        let two := (0xC2 <=? b0) && (b0 <=? 0xDF) in
        let three b1 := (b0 =? 0xE0) && (0xA0 <=? b1) && (b1 <=? 0xBF)
                        || (0xE1 <=? b0) && (b0 <=? 0xEC) && cont b1
                        || (b0 =? 0xED) && (0x80 <=? b1) && (b1 <=? 0x9F)
                        || (0xEE <=? b0) && (b0 <=? 0xEF) && cont b1 in
        let four b1 := (b0 =? 0xF0) && (0x90 <=? b1) && (b1 <=? 0xBF)
                       || (0xF1 <=? b0) && (b0 <=? 0xF3) && cont b1
                       || (b0 =? 0xF4) && (0x80 <=? b1) && (b1 <=? 0x8F) in
        match l0 with
        | [] => replacement
        | b1 :: l1 =>
            if two && cont b1 then b0 :: b1 :: lossy l1
            else if three b1 then
              match l1 with
              | [] => replacement
              | b2 :: l2 => if cont b2 then b0 :: b1 :: b2 :: lossy l2 else replacement ++ lossy l1
              end
            else if four b1 then
              match l1 with
              | [] => replacement
              | b2 :: l2 =>
                  if cont b2 then
                    match l2 with
                    | [] => replacement
                    | b3 :: l3 =>
                        if cont b3 then b0 :: b1 :: b2 :: b3 :: lossy l3 else replacement ++ lossy l2
                    end
                  else replacement ++ lossy l1
              end
            else replacement ++ lossy l0
        end
  end.

(** [mlua::String::to_string_lossy]. *)
Definition to_string_lossy (s : string) : string := of_bytes (lossy (as_bytes s)).

Example lossy_truncated : lossy [0x41; 0xE2; 0x82; 0x42; 0xFF] = [0x41; 0xEF; 0xBF; 0xBD; 0x42; 0xEF; 0xBF; 0xBD].
Proof. reflexivity. Qed.

(** Well-formed text is left as it is. *)
Lemma lossy_valid l : utf8_valid l = true → lossy l = l.
Proof.
  remember (length l) as n eqn:Hn. assert (length l ≤ n)%nat as Hle by lia. clear Hn. revert l Hle.
  induction n as [|n IH]; intros [|b0 l] Hle; simpl in *; [done|lia|done|].
  destruct (Z.ltb_spec b0 0x80); [intros Hv; f_equal; apply IH; [lia|done]|].
  destruct l as [|b1 l]; [done|].
  destruct (_ && _ && cont b1) eqn:E2; [intros Hv; do 2 f_equal; apply IH; [simpl in *; lia|done]|].
  destruct l as [|b2 l]; [done|].
  destruct (_ || _ || _ || _) eqn:E3; simpl.
  { destruct (cont b2); [intros Hv; do 3 f_equal; apply IH; [simpl in *; lia|done]|].
    destruct l as [|b3 l]; [done|]. by rewrite andb_false_r. }
  destruct l as [|b3 l]; [done|].
  destruct ((b0 =? 0xF0) && (0x90 <=? b1) && (b1 <=? 0xBF) || (0xF1 <=? b0) && (b0 <=? 0xF3) && cont b1
    || (b0 =? 0xF4) && (0x80 <=? b1) && (b1 <=? 0x8F)); [|done].
  destruct (cont b2); [|done]. destruct (cont b3); [|done].
  intros Hv. do 4 f_equal. apply IH; [simpl in *; lia|done].
Qed.

Lemma to_string_lossy_valid s : utf8_valid (as_bytes s) = true → to_string_lossy s = s.
Proof. intros Hs. unfold to_string_lossy. by rewrite lossy_valid, of_as_bytes. Qed.

(** ** A concrete instance: tables as trees of entries *)
Inductive Tree := Node (es : list (LuaValue Tree * LuaValue Tree)).
Definition entries (t : Tree) : list (LuaValue Tree * LuaValue Tree) := let 'Node es := t in es.

(** Tables as keys are distinct objects. *)
Definition key_eqb (a b : LuaValue Tree) : bool :=
  match a, b with
  | LBoolean x, LBoolean y => eqb x y
  | LInteger x, LInteger y => x =? y
  | LNumber x, LNumber y => x =? y
  | LString x, LString y => bool_decide (x = y)
  | _, _ => false
  end.
Fixpoint tree_find (k : LuaValue Tree) (es : list (LuaValue Tree * LuaValue Tree)) : LuaValue Tree :=
  match es with [] => LNil | (k', v) :: es => if key_eqb k k' then v else tree_find k es end.
Definition is_nil {T} (v : LuaValue T) : bool := match v with LNil => true | _ => false end.
Fixpoint tree_set (k v : LuaValue Tree) (es : list (LuaValue Tree * LuaValue Tree)) :=
  match es with
  | [] => if is_nil v then [] else [(k, v)]
  | (k', v') :: es =>
      if key_eqb k k' then (if is_nil v then es else (k, v) :: es) else (k', v') :: tree_set k v es
  end.
Fixpoint tree_seq (fuel : nat) (i : Z) (es : list (LuaValue Tree * LuaValue Tree)) : list (LuaValue Tree) :=
  match fuel with
  | O => []
  | S fuel => match tree_find (LInteger i) es with LNil => [] | v => v :: tree_seq fuel (i + 1) es end
  end.

#[export] Instance tree_tables : LuaTables Tree := {|
  tbl_get t k := Ok (tree_find (LString k) (entries t));
  tbl_pairs t := Ok <$> entries t;
  sequence_values t := Ok <$> tree_seq (length (entries t)) 1 (entries t);
  create_table := Node [];
  tbl_set k v t :=
    match k with
    | LNil => Err "index is nil"%string
    | _ => Ok (Node (tree_set k v (entries t)))
    end;
  coerce_string n := show_f64 (f64_from_bits n) |}.

Lemma key_eqb_eq a b : key_ok a → key_eqb a b = true ↔ a = b.
Proof.
  destruct a, b; simpl; try done; intros _.
  - rewrite eqb_true_iff. naive_solver.
  - rewrite Z.eqb_eq. naive_solver.
  - rewrite bool_decide_eq_true. naive_solver.
Qed.

Lemma tree_find_absent k es : key_ok k → k ∉ es.*1 → tree_find k es = LNil.
Proof.
  intros Hk. induction es as [|[k' v] es IH]; simpl; intros Hn; [done|].
  destruct (key_eqb k k') eqn:E; [apply key_eqb_eq in E; set_solver|apply IH; set_solver].
Qed.

Lemma tree_find_in k v es : key_ok k → NoDup es.*1 → (k, v) ∈ es → tree_find k es = v.
Proof.
  intros Hk. induction es as [|[k' v'] es IH]; simpl; intros Hnd Hin; [set_solver|].
  apply NoDup_cons in Hnd as [Hk' Hnd]. destruct (key_eqb k k') eqn:E.
  - apply key_eqb_eq in E as ->; [|done]. apply elem_of_cons in Hin as [[= ->]|Hin]; [done|].
    exfalso. apply Hk'. apply list_elem_of_fmap. by exists (k', v).
  - apply elem_of_cons in Hin as [[= -> ->]|Hin]; [|by apply IH].
    by rewrite (proj2 (key_eqb_eq k' k' Hk)) in E.
Qed.

Lemma tree_set_new k v es : key_ok k → k ∉ es.*1 → v ≠ LNil → tree_set k v es = es ++ [(k, v)].
Proof.
  intros Hk. induction es as [|[k' v'] es IH]; simpl; intros Hn Hv; [by destruct v|].
  destruct (key_eqb k k') eqn:E; [apply key_eqb_eq in E; set_solver|]. rewrite IH by set_solver. done.
Qed.

Lemma tree_set_old k v v' es1 es2 :
  key_ok k → k ∉ es1.*1 → v' ≠ LNil → tree_set k v' (es1 ++ (k, v) :: es2) = es1 ++ (k, v') :: es2.
Proof.
  intros Hk. induction es1 as [|[k1 v1] es1 IH]; simpl; intros Hn Hv.
  - rewrite (proj2 (key_eqb_eq k k Hk)) by done. by destruct v'.
  - destruct (key_eqb k k1) eqn:E; [apply key_eqb_eq in E; set_solver|]. rewrite IH by set_solver. done.
Qed.

Lemma tree_set_nil k es : key_ok k → k ∉ es.*1 → tree_set k LNil es = es.
Proof.
  intros Hk. induction es as [|[k' v'] es IH]; simpl; intros Hn; [done|].
  destruct (key_eqb k k') eqn:E; [apply key_eqb_eq in E; set_solver|]. by rewrite IH by set_solver.
Qed.

Lemma tree_seq_spec fuel es vs i :
  NoDup es.*1 → (∀ j v, vs !! j = Some v → (LInteger (i + Z.of_nat j), v) ∈ es ∧ v ≠ LNil) →
  LInteger (i + Z.of_nat (length vs)) ∉ es.*1 → (length vs ≤ fuel)%nat → tree_seq fuel i es = vs.
Proof.
  intros Hnd. revert i fuel. induction vs as [|v vs IH]; intros i fuel Hvs Hend Hf.
  - rewrite Z.add_0_r in Hend. destruct fuel as [|fuel]; simpl; [done|].
    by rewrite tree_find_absent.
  - destruct fuel as [|fuel]; simpl in *; [lia|].
    destruct (Hvs 0%nat v eq_refl) as [Hin Hv]. rewrite Z.add_0_r in Hin.
    rewrite (tree_find_in _ v) by done.
    rewrite (IH (i + 1)); [by destruct v| | |lia].
    + intros j w Hj. replace (i + 1 + Z.of_nat j) with (i + Z.of_nat (S j)) by lia. by apply Hvs.
    + replace (i + 1 + Z.of_nat (length vs)) with (i + Z.of_nat (S (length vs))) by lia. done.
Qed.

#[export] Instance tree_laws : LuaLaws Tree.
Proof.
  refine {| plain t es := entries t = es |}.
  - done.
  - intros t es k v <- Hk Hn Hv. exists (Node (entries t ++ [(k, v)])). split; [|done]. simpl.
    rewrite tree_set_new by done. by destruct k.
  - intros t es k <- Hk Hn. exists (Node (entries t)). split; [|done]. simpl.
    rewrite tree_set_nil by done. by destruct k.
  - intros t es1 es2 k v v' Hes Hk Hn Hv. exists (Node (es1 ++ (k, v') :: es2)). split; [|done]. simpl.
    rewrite Hes, tree_set_old by done. by destruct k.
  - intros t es <-. by exists (entries t).
  - intros t es k v <- Hnd Hin. simpl. by rewrite (tree_find_in _ v).
  - intros t es k <- Hn. simpl. by rewrite tree_find_absent.
  - intros t es vs <- Hnd Hvs Hend. simpl. f_equal. apply tree_seq_spec; [done| | |].
    + intros j v Hj. rewrite Z.add_comm. by apply Hvs.
    + by rewrite Z.add_comm.
    + rewrite <- (length_fmap fst (entries t)).
      assert ((λ i, LInteger (T := Tree) (Z.of_nat i + 1)) <$> seq 0 (length vs) ⊆+ (entries t).*1) as Hs.
      { apply NoDup_submseteq.
        - apply NoDup_fmap_2; [|apply NoDup_seq]. intros a b [= Hab]. lia.
        - intros x (i & -> & Hi)%list_elem_of_fmap. apply elem_of_seq in Hi.
          destruct (lookup_lt_is_Some_2 vs i ltac:(lia)) as [v Hv]. apply list_elem_of_fmap.
          exists (LInteger (Z.of_nat i + 1), v). split; [done|]. by apply Hvs. }
      apply submseteq_length in Hs. by rewrite length_fmap, length_seq in Hs.
Defined.
