(* ===== verification/LuaValues.v ===== *)
(** * Between Lua values and dynamic values (wrkr-lua/src/value_util.rs)

    [lua_to_value] and [value_to_lua], used for the shared store and for gRPC
    messages.  The depth is the code's own limit of 64. *)
From S2P Require Import Prelude Coll F64 Text Value Coerce Lua.

Local Open Scope Z_scope.

Inductive Int64Repr := ReprInteger | ReprString.

Section values.
Context {T : Type} {L : LuaTables T}.

(** ** [lua_to_value] *)

(** [s.to_str()], or the lossy text. *)
Definition text_of (s : string) : string := default (to_string_lossy s) (from_utf8 (as_bytes s)).

(** The local variables of [table_to_value].  [ts_object] is [None] once its
    entries have moved to the map. *)
Record TableState := mkState {
  ts_only_pos_int_keys : bool;
  ts_max_idx : nat;
  ts_array : list (option Value);
  ts_saw_string : bool;
  ts_saw_other : bool;
  ts_object : option (list (string * Value));
  ts_map : option (list (MapKey * Value)) }.

Definition start_state : TableState := mkState true 0 [] false false (Some []) None.

(** The loop of [ensure_map] over the array values, which it takes. *)
Fixpoint array_entries (i : Z) (values : list (option Value)) : list (MapKey * Value) :=
  match values with
  | [] => []
  | Some v :: r => (KeyU64 i, v) :: array_entries (i + 1) r
  | None :: r => array_entries (i + 1) r
  end.

Definition insert_all (l : list (MapKey * Value)) (m : list (MapKey * Value)) : list (MapKey * Value) :=
  foldl (λ m p, map_insert p.1 p.2 m) m l.

Definition ensure_map (s : TableState) : list (MapKey * Value) * TableState :=
  match ts_map s with
  | Some m => (m, s)
  | None =>
      let m := match ts_object s with
               | Some obj => insert_all ((λ p, (KeyString p.1, p.2)) <$> obj) []
               | None => []
               end in
      let m := insert_all (array_entries 1 (ts_array s)) m in
      (m, mkState (ts_only_pos_int_keys s) (ts_max_idx s) ((λ _, None) <$> ts_array s) (ts_saw_string s)
             (ts_saw_other s) None (Some m))
  end.

(** [ensure_map(..)?.insert(key, v)]. *)
Definition map_put (key : MapKey) (v : Value) (s : TableState) : TableState :=
  let '(m, s) := ensure_map s in
  mkState (ts_only_pos_int_keys s) (ts_max_idx s) (ts_array s) (ts_saw_string s) (ts_saw_other s)
    (ts_object s) (Some (map_insert key v m)).

Definition no_pos_ints (s : TableState) : TableState :=
  mkState false (ts_max_idx s) (ts_array s) (ts_saw_string s) (ts_saw_other s) (ts_object s) (ts_map s).
Definition see_string (s : TableState) : TableState :=
  mkState (ts_only_pos_int_keys s) (ts_max_idx s) (ts_array s) true (ts_saw_other s) (ts_object s) (ts_map s).
Definition see_other (s : TableState) : TableState :=
  mkState (ts_only_pos_int_keys s) (ts_max_idx s) (ts_array s) (ts_saw_string s) true (ts_object s) (ts_map s).

(** [resize_with(idx, || None)] when it is shorter. *)
Definition grow (idx : nat) (l : list (option Value)) : list (option Value) :=
  l ++ replicate (idx - length l) None.

Definition is_none {A} (o : option A) : bool := match o with None => true | Some _ => false end.

(** One entry of the table, its value already converted. *)
Definition add_entry (s : TableState) (k : LuaValue T) (v : Value) : result string TableState :=
  match k with
  | LInteger i =>
      let s := see_other s in
      if (1 <=? i) && ts_only_pos_int_keys s && is_none (ts_map s) then
        let idx := Z.to_nat i in
        let array := grow idx (ts_array s) in
        match array !! (idx - 1)%nat with
        | Some (Some _) => Err "duplicate array index"%string
        | _ =>
            Ok (mkState (ts_only_pos_int_keys s) (Nat.max (ts_max_idx s) idx) (<[(idx - 1)%nat := Some v]> array)
                  (ts_saw_string s) (ts_saw_other s) (ts_object s) (ts_map s))
        end
      else
        let s := if i <? 1 then no_pos_ints s else s in
        Ok (map_put (if 0 <=? i then KeyU64 i else KeyI64 i) v s)
  | LString str =>
      let s := no_pos_ints (see_string s) in
      let key := text_of str in
      match ts_map s with
      | Some m => Ok (map_put (KeyString key) v s)
      | None =>
          if negb (is_empty (ts_array s)) then Ok (map_put (KeyString key) v s)
          else
            match ts_object s with
            | Some obj =>
                Ok (mkState (ts_only_pos_int_keys s) (ts_max_idx s) (ts_array s) (ts_saw_string s) (ts_saw_other s)
                      (Some (map_insert key v obj)) (ts_map s))
            | None => Err "internal: object map missing"%string
            end
      end
  | LBoolean b => Ok (map_put (KeyBool b) v (no_pos_ints (see_other s)))
  | _ => Ok (no_pos_ints (see_other s))
  end.

Fixpoint read_entries (read : LuaValue T → result string Value)
    (l : list (result string (LuaValue T * LuaValue T))) (s : TableState) : result string TableState :=
  match l with
  | [] => Ok s
  | item :: l =>
      kv ← item;
      v ← read kv.2;
      s ← add_entry s kv.1 v;
      read_entries read l s
  end.

(** What follows the loop. *)
Definition finish (s : TableState) : result string Value :=
  match ts_map s with
  | Some m => Ok (VMap m)
  | None =>
      if ts_only_pos_int_keys s then
        if (ts_max_idx s =? 0)%nat then Ok (VArray [])
        else if negb (length (ts_array s) =? ts_max_idx s)%nat || existsb is_none (ts_array s) then
          Err "sparse arrays are not supported"%string
        else VArray <$> ok_or (mapM id (ts_array s)) "sparse arrays are not supported"%string
      else if ts_saw_string s && negb (ts_saw_other s) then Ok (VObject (default [] (ts_object s)))
      else Ok (VMap [])
  end.

(** [table_to_value], given the reader of values one level down. *)
Definition table_to_value (read : LuaValue T → result string Value) (t : T) : result string Value :=
  s ← read_entries read (tbl_pairs t) start_state;
  finish s.

Fixpoint lua_to_value_inner (depth : nat) (value : LuaValue T) : result string Value :=
  match depth with
  | O => Err "value too deep"%string
  | S depth1 =>
      match value with
      | LNil => Ok VNull
      | LBoolean v => Ok (VBool v)
      | LInteger v => Ok (VI64 v)
      | LNumber v => Ok (VF64 v)
      | LString s => Ok (VString (text_of s))
      | LTable t =>
          match depth1 with
          | O => Err "value too deep"%string
          | S depth2 => table_to_value (lua_to_value_inner depth2) t
          end
      | LOther => Err "unsupported value type"%string
      end
  end.

Definition lua_to_value (value : LuaValue T) (_ : Int64Repr) : result string Value :=
  lua_to_value_inner 64 value.

(** ** [value_to_lua] *)
Definition lua_int (repr : Int64Repr) (i : Z) : LuaValue T :=
  match repr with ReprInteger => LInteger i | ReprString => LString (show_Z i) end.
Definition lua_uint (repr : Int64Repr) (u : Z) : LuaValue T :=
  match repr with
  | ReprInteger => if u <=? i64_max then LInteger u else LString (show_Z u)
  | ReprString => LString (show_Z u)
  end.

Definition lua_key (repr : Int64Repr) (k : MapKey) : LuaValue T :=
  match k with
  | KeyBool b => LBoolean b
  | KeyI64 i => lua_int repr i
  | KeyU64 u => lua_uint repr u
  | KeyString s => LString s
  end.

(** The loops over the items: the key, then the built value, into the table. *)
Fixpoint set_all {K} (key : K → LuaValue T) (build : Value → result string (LuaValue T)) (items : list (K * Value))
    (t : T) : result string T :=
  match items with
  | [] => Ok t
  | (k, v) :: items =>
      lv ← build v;
      t ← tbl_set (key k) lv t;
      set_all key build items t
  end.

Definition indexed (items : list Value) : list (Z * Value) :=
  imap (λ idx v, (Z.of_nat idx + 1, v)) items.

Fixpoint build (repr : Int64Repr) (depth : nat) (value : Value) : result string (LuaValue T) :=
  match depth with
  | O => Err "value too deep"%string
  | S depth =>
      match value with
      | VNull => Ok LNil
      | VBool v => Ok (LBoolean v)
      | VI64 v => Ok (lua_int repr v)
      | VU64 v => Ok (lua_uint repr v)
      | VF64 v => Ok (LNumber v)
      | VString s => Ok (LString s)
      | VBytes b => Ok (LString (of_bytes b))
      | VArray items => LTable <$> set_all LInteger (build repr depth) (indexed items) create_table
      | VObject items => LTable <$> set_all LString (build repr depth) items create_table
      | VMap items => LTable <$> set_all (lua_key repr) (build repr depth) items create_table
      end
  end.

Definition value_to_lua (value : Value) (repr : Int64Repr) : result string (LuaValue T) := build repr 64 value.
End values.
