(* ===== verification/LuaValuesProps.v ===== *)
(** * Properties of the conversions between Lua and dynamic values

    What a script stores it gets back, and the case in which it does not. *)
From S2P Require Import Prelude Coll F64 Text Value Coerce Lua LuaValues.

Local Open Scope Z_scope.

(** ** The entries of the array values *)
Lemma array_entries_app i l1 l2 :
  array_entries i (l1 ++ l2) = array_entries i l1 ++ array_entries (i + Z.of_nat (length l1)) l2.
Proof.
  revert i. induction l1 as [|o l1 IH]; intros i; simpl; [by rewrite Z.add_0_r|].
  replace (i + Z.of_nat (S (length l1))) with (i + 1 + Z.of_nat (length l1)) by lia.
  destruct o; [|apply IH]. by rewrite IH.
Qed.

Lemma array_entries_none i n : array_entries i (replicate n None) = [].
Proof. revert i. induction n as [|n IH]; intros i; simpl; [done|apply IH]. Qed.

Lemma array_entries_in j l k v :
  (k, v) ∈ array_entries j l ↔ ∃ i, l !! i = Some (Some v) ∧ k = KeyU64 (j + Z.of_nat i).
Proof.
  revert j. induction l as [|o l IH]; intros j; simpl.
  { split; [set_solver|]. by intros (i & Hi & _). }
  assert ((k, v) ∈ array_entries (j + 1) l ↔ ∃ i, (o :: l) !! S i = Some (Some v) ∧ k = KeyU64 (j + Z.of_nat (S i))) as Hr.
  { rewrite IH. split; intros (i & Hi & ->); exists i; (split; [done|f_equal; lia]). }
  destruct o as [w|].
  - rewrite elem_of_cons, Hr. split.
    + intros [[= -> ->]|(i & Hi & ->)]; [exists 0%nat; split; [done|f_equal; lia]|by exists (S i)].
    + intros ([|i] & Hi & ->); [left; simplify_eq/=; do 2 f_equal; lia|right; by exists i].
  - rewrite Hr. split; [intros (i & Hi & ->); by exists (S i)|].
    intros ([|i] & Hi & ->); [done|by exists i].
Qed.

(** Writing an empty slot adds its entry. *)
Lemma array_entries_insert l i v :
  l !! i = Some None →
  array_entries 1 (<[i := Some v]> l) ≡ₚ array_entries 1 l ++ [(KeyU64 (Z.of_nat i + 1), v)].
Proof.
  intros Hi. pose proof (lookup_lt_Some _ _ _ Hi) as Hlt.
  rewrite insert_take_drop by done. rewrite <- (take_drop_middle l i None Hi) at 3.
  rewrite !array_entries_app. simpl. rewrite length_take, Nat.min_l by lia.
  replace (1 + Z.of_nat i) with (Z.of_nat i + 1) by lia.
  rewrite <- app_assoc. f_equiv. rewrite Permutation_app_comm. done.
Qed.

Lemma grow_lookup idx l : (1 ≤ idx)%nat → ∃ o, grow idx l !! (idx - 1)%nat = Some o ∧ (o = None ∨ l !! (idx - 1)%nat = Some o).
Proof.
  intros Hidx. unfold grow. destruct (l !! (idx - 1)%nat) as [o|] eqn:E.
  - exists o. split; [|by right]. by apply lookup_app_l_Some.
  - exists None. split; [|by left]. apply lookup_ge_None in E. rewrite lookup_app_r by done.
    apply lookup_replicate_2. lia.
Qed.

Lemma grow_length idx l : length (grow idx l) = Nat.max (length l) idx.
Proof. unfold grow. rewrite length_app, length_replicate. lia. Qed.

Lemma grow_entries idx l : array_entries 1 (grow idx l) = array_entries 1 l.
Proof. unfold grow. by rewrite array_entries_app, array_entries_none, app_nil_r. Qed.

(** ** The entries a state holds *)
Definition content (s : TableState) : list (MapKey * Value) :=
  match ts_map s with
  | Some m => m
  | None => ((λ p, (KeyString p.1, p.2)) <$> default [] (ts_object s)) ++ array_entries 1 (ts_array s)
  end.

Lemma insert_all_new l m : NoDup (m ++ l).*1 → insert_all l m = m ++ l.
Proof.
  unfold insert_all. revert m. induction l as [|[k v] l IH]; intros m Hnd; simpl; [by rewrite app_nil_r|].
  assert (k ∉ m.*1) as Hk.
  { rewrite fmap_app, fmap_cons in Hnd. apply NoDup_app in Hnd as (_ & Hd & _). intros Hin. apply (Hd k Hin). set_solver. }
  rewrite map_insert_new, IH by (try done; by rewrite <- app_assoc). by rewrite <- app_assoc.
Qed.

Lemma ensure_map_content s : NoDup (content s).*1 → (ensure_map s).1 = content s.
Proof.
  unfold ensure_map, content. destruct (ts_map s); [done|]. simpl. intros Hnd.
  assert (NoDup ((λ p : string * Value, (KeyString p.1, p.2)) <$> default [] (ts_object s)).*1) as Ho.
  { rewrite fmap_app in Hnd. by apply NoDup_app in Hnd as [Hnd _]. }
  destruct (ts_object s) as [obj|]; simpl in *.
  - rewrite (insert_all_new _ []) by done. by rewrite insert_all_new.
  - by rewrite insert_all_new.
Qed.

Lemma map_put_content k v s : NoDup (content s).*1 → k ∉ (content s).*1 →
  ts_map (map_put k v s) = Some (content s ++ [(k, v)]) ∧
  ts_only_pos_int_keys (map_put k v s) = ts_only_pos_int_keys s.
Proof.
  intros Hnd Hk. pose proof (ensure_map_content s Hnd) as He. unfold map_put.
  assert (ts_only_pos_int_keys (ensure_map s).2 = ts_only_pos_int_keys s) as Hp by (unfold ensure_map; by destruct (ts_map s)).
  destruct (ensure_map s) as [m s']. simpl in *. subst m. by rewrite map_insert_new.
Qed.

(** ** The invariant of the loop *)
Definition is_str (k : MapKey) : bool := match k with KeyString _ => true | _ => false end.
Definition is_pos (k : MapKey) : bool := match k with KeyU64 u => 1 <=? u | _ => false end.
Definition is_special (k : MapKey) : bool := negb (is_str k) && negb (is_pos k).

(** The keys are those of neither an array nor an object. *)
Definition needs_map (ks : list MapKey) : bool :=
  existsb is_special ks || existsb is_str ks && existsb is_pos ks.

Inductive loop_inv (s : TableState) (done : list (MapKey * Value)) : Prop :=
  | inv_map m : ts_map s = Some m → m ≡ₚ done → ts_only_pos_int_keys s = false → needs_map done.*1 = true →
      loop_inv s done
  | inv_array : ts_map s = None → ts_only_pos_int_keys s = true → ts_object s = Some [] →
      ts_max_idx s = length (ts_array s) → array_entries 1 (ts_array s) ≡ₚ done →
      (∀ o, last (ts_array s) = Some o → o ≠ None) →
      (ts_array s = [] → ts_saw_other s = false) → loop_inv s done
  | inv_object o : ts_map s = None → ts_only_pos_int_keys s = false → ts_array s = [] → ts_saw_string s = true →
      ts_saw_other s = false → ts_object s = Some o → done ≠ [] →
      ((λ p, (KeyString p.1, p.2)) <$> o) = done → loop_inv s done.

Lemma start_inv : loop_inv start_state [].
Proof. by apply inv_array. Qed.

Lemma loop_inv_content s done : loop_inv s done → content s ≡ₚ done.
Proof.
  unfold content. intros [m -> Hm _ _| -> _ -> _ Ha _ _|o -> _ -> _ _ -> _ <-]; [done|by simpl|].
  simpl. by rewrite app_nil_r.
Qed.

Lemma existsb_app_r {A} (f : A → bool) l x : f x = true → existsb f (l ++ [x]) = true.
Proof. intros Hx. rewrite existsb_app. simpl. by rewrite Hx, orb_true_r. Qed.

Lemma needs_map_app ks k : needs_map ks = true → needs_map (ks ++ [k]) = true.
Proof.
  unfold needs_map. rewrite !existsb_app. simpl. rewrite !orb_false_r.
  destruct (existsb is_special ks), (existsb is_str ks), (existsb is_pos ks); simpl; try done.
  all: by rewrite ?orb_true_r.
Qed.

(** The lookup key of a Lua key. *)
Definition lkey {T} (k : LuaValue T) : option MapKey :=
  match k with
  | LInteger i => Some (if 0 <=? i then KeyU64 i else KeyI64 i)
  | LString s => Some (KeyString (text_of s))
  | LBoolean b => Some (KeyBool b)
  | _ => None
  end.

(** Moving to the map, or staying there. *)
Lemma map_step_inv s s' done (k : MapKey) v :
  loop_inv s done → NoDup done.*1 → k ∉ done.*1 → content s' = content s → ts_only_pos_int_keys s' = false →
  needs_map (done ++ [(k, v)]).*1 = true → loop_inv (map_put k v s') (done ++ [(k, v)]).
Proof.
  intros Hi Hnd Hk Hc Hp Hn. pose proof (loop_inv_content _ _ Hi) as Hperm. rewrite <- Hc in Hperm.
  destruct (map_put_content k v s') as [Hm Hq]; [by rewrite Hperm|by rewrite Hperm|].
  apply (inv_map _ _ (content s' ++ [(k, v)])); [done|by rewrite Hperm|congruence|done].
Qed.

Lemma needs_map_str_pos ks k : existsb is_str ks = true → is_pos k = true → needs_map (ks ++ [k]) = true.
Proof. intros H1 H2. unfold needs_map. rewrite !existsb_app, H1. simpl. rewrite H2. by rewrite !orb_true_r. Qed.
Lemma needs_map_pos_str ks k : existsb is_pos ks = true → is_str k = true → needs_map (ks ++ [k]) = true.
Proof. intros H1 H2. unfold needs_map. rewrite !existsb_app, H1. simpl. rewrite H2. by rewrite !orb_true_r. Qed.
Lemma needs_map_special ks k : is_special k = true → needs_map (ks ++ [k]) = true.
Proof. intros H. unfold needs_map. by rewrite existsb_app_r. Qed.

(** An object has a string key, an array that is not empty a positive one. *)
Lemma object_has_str {A} (o : list (string * A)) :
  ((λ p : string * A, (KeyString p.1, p.2)) <$> o) ≠ [] →
  existsb is_str ((λ p : string * A, (KeyString p.1, p.2)) <$> o).*1 = true.
Proof. by destruct o. Qed.

Lemma array_has_pos l done :
  l ≠ [] → (∀ o, last l = Some o → o ≠ None) → array_entries 1 l ≡ₚ done → existsb is_pos done.*1 = true.
Proof.
  intros Hl Hlast Hd. destruct (last l) as [[v|]|] eqn:E; [| |by apply last_None in E].
  - rewrite last_lookup in E. apply existsb_exists.
    exists (KeyU64 (1 + Z.of_nat (pred (length l)))). split; [|apply Z.leb_le; lia].
    apply list_elem_of_In, list_elem_of_fmap. eexists (_, v). split; [reflexivity|]. rewrite <- Hd.
    apply array_entries_in. by exists (pred (length l)).
  - by destruct (Hlast None eq_refl).
Qed.

Section step.
Context {T : Type}.

Lemma array_step s done i v :
  loop_inv s done → ts_only_pos_int_keys s = true → ts_map s = None → 1 ≤ i → KeyU64 i ∉ done.*1 →
  ∃ s', add_entry (T := T) s (LInteger i) v = Ok s' ∧ loop_inv s' (done ++ [(KeyU64 i, v)]).
Proof.
  intros [m Hm|Hm Hp Ho Hx Ha Hl Hs|o Hm Hp]; [congruence| |congruence]. intros _ _ Hi Hk.
  simpl. rewrite Hp, Hm, (proj2 (Z.leb_le 1 i) Hi). simpl.
  assert (Z.of_nat (Z.to_nat i) = i) as Hz by lia. set (idx := Z.to_nat i) in *. clearbody idx.
  assert (1 ≤ idx)%nat as Hidx by lia.
  destruct (grow_lookup idx (ts_array s) Hidx) as (o & Hg & Hor). rewrite Hg.
  destruct o as [w|].
  { exfalso. destruct Hor as [[=]|Hw]. apply Hk. apply list_elem_of_fmap. exists (KeyU64 i, w).
    split; [done|]. rewrite <- Ha. apply array_entries_in. exists (idx - 1)%nat. split; [done|]. f_equal. lia. }
  eexists. split; [reflexivity|]. apply inv_array; simpl; try done.
  - rewrite length_insert, grow_length. lia.
  - rewrite array_entries_insert by done. rewrite grow_entries, Ha.
    replace (Z.of_nat (idx - 1) + 1) with i by lia. done.
  - intros o. rewrite last_lookup, length_insert, grow_length.
    destruct (decide (Nat.max (length (ts_array s)) idx = idx)) as [E|E].
    + rewrite E. replace (pred idx) with (idx - 1)%nat by lia.
      rewrite list_lookup_insert_eq by (rewrite grow_length; lia). by intros [= <-].
    + rewrite Nat.max_l by lia. destruct (decide (pred (length (ts_array s)) = idx - 1)%nat) as [->|Hne].
      * rewrite list_lookup_insert_eq by (rewrite grow_length; lia). by intros [= <-].
      * rewrite list_lookup_insert_ne by lia. unfold grow. rewrite lookup_app_l by lia.
        rewrite <- last_lookup. apply Hl.
  - intros He. apply (f_equal length) in He. rewrite length_insert, grow_length in He. simpl in He. lia.
Qed.

Lemma add_entry_step s done (k : LuaValue T) mk v :
  loop_inv s done → NoDup done.*1 → lkey k = Some mk → mk ∉ done.*1 →
  ∃ s', add_entry s k v = Ok s' ∧ loop_inv s' (done ++ [(mk, v)]).
Proof.
  intros Hi Hnd Hk Hn.
  assert (∀ f, content (f s) = content s → ts_only_pos_int_keys (f s) = false →
    needs_map (done.*1 ++ [mk]) = true → loop_inv (map_put mk v (f s)) (done ++ [(mk, v)])) as Hput.
  { intros f Hc Hp Hm. apply (map_step_inv s); [done..|]. by rewrite fmap_app. }
  destruct k as [|b|i|n|str|t|]; simpl in Hk; try done; injection Hk as <-.
  - simpl. eexists. split; [reflexivity|]. apply (Hput (λ s, no_pos_ints (see_other s))); [done..|].
    by apply needs_map_special.
  - destruct (decide (1 ≤ i ∧ ts_only_pos_int_keys s = true ∧ ts_map s = None)) as [(H1 & H2 & H3)|Hc].
    { rewrite (proj2 (Z.leb_le 0 i)) in * by lia. by apply array_step. }
    simpl. assert ((1 <=? i) && ts_only_pos_int_keys s && is_none (ts_map s) = false) as ->.
    { destruct (Z.leb_spec 1 i), (ts_only_pos_int_keys s), (ts_map s); simpl; try done. exfalso. by apply Hc. }
    eexists. split; [reflexivity|].
    destruct (Z.ltb_spec i 1) as [Hlt|Hge].
    + apply (Hput (λ s, no_pos_ints (see_other s))); [done..|]. apply needs_map_special.
      destruct (Z.leb_spec 0 i); unfold is_special; simpl; [|done].
      by rewrite (proj2 (Z.leb_gt 1 i)).
    + rewrite (proj2 (Z.leb_le 0 i)) in * by lia.
      destruct Hi as [m Hm Hp Hf Hnm|Hm Hp|o Hm Hp Ha Hs Hso Ho Hne Hd].
      * apply (Hput see_other); [done..|]. by apply needs_map_app.
      * exfalso. by apply Hc.
      * apply (Hput see_other); [done..|]. apply needs_map_str_pos; [|by apply Z.leb_le].
        subst done. by apply object_has_str.
  - cbn [add_entry]. cbv zeta.
    destruct Hi as [m Hm Hp Hf Hnm|Hm Hp Ho Hx Ha Hl Hso|o Hm Hp Ha Hs Hso Ho Hne Hd].
    + change (ts_map (no_pos_ints (see_string s))) with (ts_map s). rewrite Hm.
      eexists. split; [reflexivity|]. apply (Hput (λ s, no_pos_ints (see_string s))); [done..|].
      by apply needs_map_app.
    + change (ts_map (no_pos_ints (see_string s))) with (ts_map s).
      change (ts_array (no_pos_ints (see_string s))) with (ts_array s).
      change (ts_object (no_pos_ints (see_string s))) with (ts_object s). rewrite Hm, Ho.
      destruct (ts_array s) as [|a l] eqn:Earr; simpl.
      * eexists. split; [reflexivity|]. simpl in Ha. apply Permutation_nil_l in Ha as <-.
        eapply inv_object; simpl; try done. by apply Hso.
      * eexists. split; [reflexivity|]. apply (Hput (λ s, no_pos_ints (see_string s))); [done..|].
        apply needs_map_pos_str; [|done]. by apply (array_has_pos (a :: l)).
    + change (ts_map (no_pos_ints (see_string s))) with (ts_map s).
      change (ts_array (no_pos_ints (see_string s))) with (ts_array s).
      change (ts_object (no_pos_ints (see_string s))) with (ts_object s). rewrite Hm, Ha, Ho. simpl.
      eexists. split; [reflexivity|].
      assert (text_of str ∉ o.*1) as Hno.
      { intros Hin. apply Hn. subst done. rewrite <- list_fmap_compose.
        apply list_elem_of_fmap in Hin as ([x y] & -> & Hin). apply list_elem_of_fmap. by exists (x, y). }
      rewrite map_insert_new by done. eapply inv_object; simpl; try done.
      * by destruct done.
      * rewrite fmap_app. by f_equal.
Qed.
End step.

(** ** What follows the loop *)
Lemma needs_map_spec ks :
  needs_map ks = true ↔ (∃ k, k ∈ ks ∧ is_special k = true) ∨
    (∃ k, k ∈ ks ∧ is_str k = true) ∧ (∃ k, k ∈ ks ∧ is_pos k = true).
Proof.
  unfold needs_map. rewrite orb_true_iff, andb_true_iff, !existsb_exists.
  by setoid_rewrite <- list_elem_of_In.
Qed.

Lemma needs_map_pos ks : (∀ k, k ∈ ks → is_pos k = true) → needs_map ks = false.
Proof.
  intros Hk. apply not_true_iff_false. rewrite needs_map_spec.
  intros [(k & Hin & Hs)|[(k & Hin & Hs) _]]; specialize (Hk k Hin); destruct k; simpl in *; try done.
  unfold is_special in Hs. simpl in Hs. by rewrite Hk in Hs.
Qed.

Lemma needs_map_str ks : (∀ k, k ∈ ks → is_str k = true) → needs_map ks = false.
Proof.
  intros Hk. apply not_true_iff_false. rewrite needs_map_spec.
  intros [(k & Hin & Hs)|[_ (k & Hin & Hs)]]; specialize (Hk k Hin); by destruct k.
Qed.

Lemma array_keys l done k : array_entries 1 l ≡ₚ done → k ∈ done.*1 → is_pos k = true.
Proof.
  intros Hd ([k' v] & -> & Hin)%list_elem_of_fmap. rewrite <- Hd in Hin.
  apply array_entries_in in Hin as (i & _ & ->). apply Z.leb_le. lia.
Qed.

Lemma object_keys {A} (o : list (string * A)) k :
  k ∈ ((λ p : string * A, (KeyString p.1, p.2)) <$> o).*1 → is_str k = true.
Proof. rewrite <- list_fmap_compose. intros (p & -> & _)%list_elem_of_fmap. done. Qed.

Lemma finish_map s es : loop_inv s es → needs_map es.*1 = true → ∃ m, finish s = Ok (VMap m) ∧ m ≡ₚ es.
Proof.
  intros [m Hm Hp _ _|_ _ _ _ Ha _ _|o _ _ _ _ _ _ _ Hd] Hn.
  - exists m. unfold finish. by rewrite Hm.
  - rewrite needs_map_pos in Hn; [done|]. intros k. by apply (array_keys (ts_array s)).
  - subst es. rewrite needs_map_str in Hn; [done|]. intros k. by apply (object_keys o).
Qed.

Lemma finish_object s es : loop_inv s es → es ≠ [] → (∀ k, k ∈ es.*1 → is_str k = true) →
  ∃ o, finish s = Ok (VObject o) ∧ ((λ p, (KeyString p.1, p.2)) <$> o) = es.
Proof.
  intros [m _ _ _ Hn|_ _ _ _ Ha Hl _|o Hm Hp _ Hs Hso Ho _ Hd] Hne Hk.
  - by rewrite needs_map_str in Hn.
  - destruct es as [|[k v] es]; [done|]. pose proof (Hk k ltac:(set_solver)).
    pose proof (array_keys _ _ k Ha ltac:(set_solver)). by destruct k.
  - exists o. unfold finish. by rewrite Hm, Hp, Hs, Hso, Ho.
Qed.

Definition array_es (vs : list Value) : list (MapKey * Value) :=
  imap (λ i v, (KeyU64 (Z.of_nat i + 1), v)) vs.

Lemma array_es_in vs k v : (k, v) ∈ array_es vs ↔ ∃ i, vs !! i = Some v ∧ k = KeyU64 (1 + Z.of_nat i).
Proof.
  unfold array_es. rewrite elem_of_lookup_imap. split.
  - intros (i & x & [= -> ->] & Hi). exists i. split; [done|]. f_equal. lia.
  - intros (i & Hi & ->). exists i, v. split; [|done]. do 2 f_equal. lia.
Qed.

Lemma finish_array s es vs : loop_inv s es → es ≡ₚ array_es vs → finish s = Ok (VArray vs).
Proof.
  intros Hi Hes.
  assert (∀ k, k ∈ es.*1 → is_pos k = true) as Hk.
  { intros k ([k' v] & -> & Hin)%list_elem_of_fmap. rewrite Hes in Hin.
    apply array_es_in in Hin as (i & _ & ->). apply Z.leb_le. lia. }
  destruct Hi as [m _ _ _ Hn|Hm Hp _ Hx Ha Hl _|o _ _ _ _ _ _ Hne Hd].
  { by rewrite needs_map_pos in Hn. }
  2: { destruct o as [|[k v] o]; [by subst es|]. subst es. by specialize (Hk (KeyString k) ltac:(set_solver)). }
  assert (∀ i v, ts_array s !! i = Some (Some v) ↔ vs !! i = Some v) as Hlook.
  { intros i v. rewrite Hes in Ha. split.
    - intros Hi. assert ((KeyU64 (1 + Z.of_nat i), v) ∈ array_es vs) as Hin.
      { rewrite <- Ha. apply array_entries_in. by exists i. }
      apply array_es_in in Hin as (j & Hj & [= Hij]). by replace i with j by lia.
    - intros Hi. assert ((KeyU64 (1 + Z.of_nat i), v) ∈ array_entries 1 (ts_array s)) as Hin.
      { rewrite Ha. apply array_es_in. by exists i. }
      apply array_entries_in in Hin as (j & Hj & [= Hij]). by replace i with j by lia. }
  assert (length (ts_array s) = length vs) as Hlen.
  { apply Nat.le_antisymm.
    - destruct (last (ts_array s)) as [[v|]|] eqn:E; [|by destruct (Hl None)|apply last_None in E as ->; simpl; lia].
      rewrite last_lookup in E. apply Hlook, lookup_lt_Some in E. lia.
    - destruct (decide (length vs = 0%nat)); [lia|].
      destruct (lookup_lt_is_Some_2 vs (pred (length vs)) ltac:(lia)) as [v Hv].
      apply Hlook, lookup_lt_Some in Hv. lia. }
  assert (ts_array s = Some <$> vs) as Harr.
  { apply list_eq. intros i. rewrite list_lookup_fmap. destruct (vs !! i) as [v|] eqn:E; simpl.
    - by apply Hlook.
    - apply lookup_ge_None. apply lookup_ge_None in E. lia. }
  unfold finish. rewrite Hm, Hp, Hx, Harr, length_fmap. simpl.
  destruct (Nat.eqb_spec (length vs) 0) as [H0|H0]; [by destruct vs|].
  rewrite Nat.eqb_refl. simpl.
  assert (existsb is_none (Some <$> vs) = false) as -> by (clear; by induction vs).
  assert (mapM id (Some <$> vs) = Some vs) as ->; [|done].
  clear. induction vs as [|v vs IH]; [done|]. rewrite fmap_cons. simpl. by rewrite IH.
Qed.

(** ** The whole loop *)
Section loop.
Context {T : Type} {L : LuaTables T} {LL : LuaLaws T}.

Lemma read_entries_spec read (l : list (LuaValue T * LuaValue T)) es s done :
  loop_inv s done → NoDup (done ++ es).*1 →
  Forall2 (λ kv e, lkey kv.1 = Some e.1 ∧ read kv.2 = Ok e.2) l es →
  ∃ s', read_entries read (Ok <$> l) s = Ok s' ∧ loop_inv s' (done ++ es).
Proof.
  intros Hi Hnd Hl. revert s done Hi Hnd.
  induction Hl as [|[k lv] [mk v] l es [Hk Hr] Hl IH]; intros s done Hi Hnd.
  { exists s. by rewrite app_nil_r. }
  simpl in Hk, Hr. rewrite fmap_app, fmap_cons in Hnd. pose proof Hnd as (H1 & H2 & H3)%NoDup_app.
  destruct (add_entry_step s done k mk v) as (s' & Hs & Hi'); [done..| |].
  { intros Hin. apply (H2 mk Hin). set_solver. }
  rewrite fmap_cons. cbn [read_entries fst snd]. simpl. rewrite Hr. simpl. rewrite Hs. simpl.
  destruct (IH s' (done ++ [(mk, v)]) Hi') as (s2 & E & Hi2).
  - rewrite <- app_assoc. simpl. by rewrite fmap_app, fmap_cons.
  - exists s2. split; [done|]. by rewrite <- app_assoc in Hi2.
Qed.

Lemma set_all_spec {K} (key : K → LuaValue T) f (items : list (K * Value)) t es :
  plain t es → (∀ k, k ∈ items.*1 → key_ok (key k)) → NoDup (es.*1 ++ (key <$> items.*1)) →
  (∀ v, v ∈ items.*2 → ∃ lv, f v = Ok lv ∧ lv ≠ LNil) →
  ∃ t' new, set_all key f items t = Ok t' ∧ plain t' (es ++ new) ∧
    Forall2 (λ it kv, kv.1 = key it.1 ∧ f it.2 = Ok kv.2) items new.
Proof.
  revert t es. induction items as [|[k v] items IH]; intros t es Ht Hk Hnd Hf.
  { exists t, []. rewrite app_nil_r. by split_and!. }
  destruct (Hf v ltac:(set_solver)) as (lv & Hlv & Hnil).
  rewrite !fmap_cons in Hnd. simpl in Hnd. pose proof Hnd as (N1 & N2 & N3)%NoDup_app.
  destruct (plain_set t es (key k) lv Ht) as (t1 & Hs & Ht1); [apply Hk; set_solver| |done|].
  { intros Hin. apply (N2 _ Hin). set_solver. }
  destruct (IH t1 (es ++ [(key k, lv)]) Ht1) as (t' & new & Ht' & Hp & Hall).
  - intros k' Hk'. apply Hk. set_solver.
  - rewrite fmap_app. simpl. by rewrite <- app_assoc.
  - intros v' Hv'. apply Hf. set_solver.
  - exists t', ((key k, lv) :: new). cbn [set_all]. rewrite Hlv. simpl. rewrite Hs. simpl. split_and!; [done| |].
    + by rewrite <- app_assoc in Hp.
    + constructor; [done|done].
Qed.
End loop.

(** ** Equal up to the order of entries, at every depth *)
Inductive same : Value → Value → Prop :=
  | same_refl v : same v v
  | same_array l l' : Forall2 same l l' → same (VArray l) (VArray l')
  | same_object m m1 m' : Forall2 (λ a b : string * Value, a.1 = b.1 ∧ same a.2 b.2) m m1 → m1 ≡ₚ m' →
      same (VObject m) (VObject m')
  | same_map m m1 m' : Forall2 (λ a b : MapKey * Value, a.1 = b.1 ∧ same a.2 b.2) m m1 → m1 ≡ₚ m' →
      same (VMap m) (VMap m').

(** ** The values that keep their shape in Lua

    Text is UTF-8; integers are signed; a null is not inside a container; an
    object has entries; a map has a key that is neither a string nor a positive
    integer, or keys of both sorts.  The depth is what [lua_to_value_inner] reads. *)
Definition key_clean (k : MapKey) : Prop :=
  match k with
  | KeyBool _ => True
  | KeyI64 i => i64_min ≤ i < 0
  | KeyU64 u => 0 ≤ u ≤ i64_max
  | KeyString s => utf8_valid (as_bytes s) = true
  end.

Fixpoint lua_clean (depth : nat) (v : Value) : Prop :=
  match depth with
  | O => False
  | S depth1 =>
      let inner v := match depth1 with O => False | S depth2 => v ≠ VNull ∧ lua_clean depth2 v end in
      match v with
      | VNull | VBool _ | VI64 _ | VF64 _ => True
      | VString s => utf8_valid (as_bytes s) = true
      | VArray items => (0 < depth1)%nat ∧ Forall inner items
      | VObject m =>
          (0 < depth1)%nat ∧ m ≠ [] ∧ NoDup m.*1 ∧
          Forall (λ p, utf8_valid (as_bytes p.1) = true ∧ inner p.2) m
      | VMap m =>
          (0 < depth1)%nat ∧ NoDup m.*1 ∧ needs_map m.*1 = true ∧
          Forall (λ p, key_clean p.1 ∧ inner p.2) m
      | VU64 _ | VBytes _ => False
      end
  end.

Lemma text_of_valid s : utf8_valid (as_bytes s) = true → text_of s = s.
Proof. intros Hs. unfold text_of. by rewrite from_utf8_str. Qed.

Lemma lkey_clean {T} (k : MapKey) : key_clean k →
  key_ok (lua_key (T := T) ReprInteger k) ∧ lkey (lua_key (T := T) ReprInteger k) = Some k.
Proof.
  destruct k as [b|i|u|s]; simpl.
  - done.
  - intros Hi. by rewrite (proj2 (Z.leb_gt 0 i)) by lia.
  - intros Hu. unfold lua_uint. rewrite (proj2 (Z.leb_le u i64_max)) by lia. simpl.
    by rewrite (proj2 (Z.leb_le 0 u)) by lia.
  - intros Hs. by rewrite text_of_valid.
Qed.

Lemma Forall2_perm_l {A B} (R : A → B → Prop) l l' k :
  Forall2 R l k → l ≡ₚ l' → ∃ k', Forall2 R l' k' ∧ k ≡ₚ k'.
Proof.
  intros Hf Hp. revert k Hf. induction Hp as [|x l l' _ IH|x y l|l1 l2 l3 _ IH1 _ IH2]; intros k Hf.
  - inversion Hf; subst. by exists [].
  - inversion Hf as [|? y ? k' Hxy Hk]; subst. destruct (IH k' Hk) as (k2 & H1 & H2).
    exists (y :: k2). split; [by constructor|by f_equiv].
  - inversion Hf as [|? a ? k1 Ha Hk1]; subst. inversion Hk1 as [|? b ? k2 Hb Hk2]; subst.
    exists (b :: a :: k2). split; [by repeat constructor|constructor].
  - destruct (IH1 k Hf) as (k2 & H1 & H2). destruct (IH2 k2 H1) as (k3 & H3 & H4).
    exists k3. split; [done|by etrans].
Qed.

Section roundtrip.
Context {T : Type} {L : LuaTables T} {LL : LuaLaws T}.

(** A table that was written is read back. *)
Lemma table_back {K} (key : K → LuaValue T) (mk : K → MapKey) f read (items : list (K * Value)) :
  (∀ k, k ∈ items.*1 → key_ok (key k) ∧ lkey (key k) = Some (mk k)) → NoDup (mk <$> items.*1) →
  (∀ v, v ∈ items.*2 → ∃ lv, f v = Ok lv ∧ lv ≠ LNil ∧ ∃ v', read lv = Ok v' ∧ same v v') →
  ∃ t es0 es s, set_all key f items create_table = Ok t ∧
    read_entries read (tbl_pairs t) start_state = Ok s ∧ loop_inv s es ∧ es ≡ₚ es0 ∧
    Forall2 (λ it e, mk it.1 = e.1 ∧ same it.2 e.2) items es0.
Proof.
  intros Hk Hnd Hf.
  destruct (set_all_spec key f items create_table [] plain_new) as (t & new & Ht & Hp & Hall).
  { intros k Hin. by apply Hk. }
  { simpl. apply (NoDup_fmap_1 lkey).
    assert (lkey <$> (key <$> items.*1) = Some <$> (mk <$> items.*1)) as ->.
    { clear -Hk. induction items.*1 as [|k ks IH]; [done|]. rewrite !fmap_cons, IH by set_solver.
      f_equal. apply Hk. set_solver. }
    by apply NoDup_fmap_2; [apply _|]. }
  { intros v Hv. destruct (Hf v Hv) as (lv & H1 & H2 & _). by exists lv. }
  simpl in Hp. destruct (plain_pairs t new Hp) as (l & Hl & Hpairs).
  assert (∃ es0, Forall2 (λ it e, mk it.1 = e.1 ∧ same it.2 e.2) items es0 ∧
    Forall2 (λ kv e, lkey kv.1 = Some e.1 ∧ read kv.2 = Ok e.2) new es0) as (es0 & H1 & H2).
  { clear -Hall Hk Hf. induction Hall as [|[k v] [lk lv] items new [E1 E2] Hall IH]; [by exists []|]. simpl in *. subst lk.
    destruct IH as (es0 & H1 & H2); [set_solver|set_solver|].
    destruct (Hf v ltac:(set_solver)) as (lv' & F1 & _ & v' & F2 & F3).
    destruct (Hk k ltac:(set_solver)) as [_ Hlk]. rewrite E2 in F1. injection F1 as <-.
    exists ((mk k, v') :: es0). split; by constructor. }
  destruct (Forall2_perm_l _ new l es0 H2 (symmetry Hl)) as (es & H3 & H4).
  destruct (read_entries_spec read l es start_state []) as (s & Hs & Hi).
  - apply start_inv.
  - simpl. rewrite <- H4. assert (es0.*1 = mk <$> items.*1) as ->; [|done].
    clear -H1. induction H1 as [|[k v] [k' v'] items es [E _] _ IH]; [done|]. rewrite !fmap_cons. simpl in *. by f_equal.
  - done.
  - exists t, es0, es, s. split_and!; [done|by rewrite Hpairs|done|done|done].
Qed.

Lemma array_keys_in (items : list Value) k : k ∈ (indexed items).*1 → 1 ≤ k.
Proof.
  intros ([i v] & -> & Hin)%list_elem_of_fmap. apply elem_of_lookup_imap in Hin as (j & x & [= -> ->] & _). simpl. lia.
Qed.

Lemma indexed_values (items : list Value) v : v ∈ (indexed items).*2 → v ∈ items.
Proof.
  intros ([i x] & -> & Hin)%list_elem_of_fmap. apply elem_of_lookup_imap in Hin as (j & y & [= -> ->] & Hj).
  by eapply list_elem_of_lookup_2.
Qed.

Definition int_key (i : Z) : MapKey := if 0 <=? i then KeyU64 i else KeyI64 i.

Lemma indexed_NoDup (items : list Value) : NoDup (int_key <$> (indexed items).*1).
Proof.
  apply NoDup_alt. intros i j k. rewrite <- list_fmap_compose, !list_lookup_fmap. unfold indexed.
  rewrite !list_lookup_imap. destruct (items !! i), (items !! j); simpl; try done.
  unfold int_key. repeat case_match; intros [= <-]; try done. all: intros [= Hij]; lia.
Qed.

(** What was read of an array's entries. *)
Lemma indexed_entries items es0 :
  Forall2 (λ (it : Z * Value) (e : MapKey * Value), int_key it.1 = e.1 ∧ same it.2 e.2) (indexed items) es0 →
  es0 = array_es es0.*2 ∧ Forall2 same items es0.*2.
Proof.
  intros Hf. pose proof (Forall2_length _ _ _ Hf) as Hlen. unfold indexed in Hlen. rewrite length_imap in Hlen.
  assert (∀ i v e, items !! i = Some v → es0 !! i = Some e → e.1 = KeyU64 (Z.of_nat i + 1) ∧ same v e.2) as Hi.
  { intros i v e Hv He. destruct (Forall2_lookup_r _ _ _ _ _ Hf He) as (it & Hit & Hk & Hs).
    unfold indexed in Hit. rewrite list_lookup_imap, Hv in Hit. injection Hit as <-. simpl in *. split; [|done].
    rewrite <- Hk. unfold int_key. by rewrite (proj2 (Z.leb_le 0 _)) by lia. }
  split.
  - apply list_eq. intros i. unfold array_es. rewrite list_lookup_imap, list_lookup_fmap.
    destruct (es0 !! i) as [[k v]|] eqn:E; [|done]. simpl.
    destruct (lookup_lt_is_Some_2 items i) as [x Hx]; [apply lookup_lt_Some in E; lia|].
    destruct (Hi i x (k, v) Hx E) as [H1 _]. simpl in H1. by subst k.
  - apply Forall2_same_length_lookup_2; [by rewrite length_fmap|]. intros i x y Hx Hy.
    rewrite list_lookup_fmap in Hy. destruct (es0 !! i) as [e|] eqn:E; [|done]. injection Hy as <-.
    by apply (Hi i).
Qed.

Lemma Forall2_keys {K} (mk : K → MapKey) (items : list (K * Value)) es0 :
  Forall2 (λ it (e : MapKey * Value), mk it.1 = e.1 ∧ same it.2 e.2) items es0 → es0.*1 = mk <$> items.*1.
Proof. induction 1 as [|[k v] e items es0 [Hk _] _ IH]; [done|]. rewrite !fmap_cons. simpl in *. by f_equal. Qed.

Lemma needs_map_perm ks ks' : ks ≡ₚ ks' → needs_map ks = needs_map ks'.
Proof. intros Hp. apply eq_true_iff_eq. rewrite !needs_map_spec. by setoid_rewrite Hp. Qed.

Lemma value_back d v D :
  lua_clean d v → (d ≤ D)%nat →
  ∃ lv, build (T := T) ReprInteger D v = Ok lv ∧ (v ≠ VNull → lv ≠ LNil) ∧
    ∃ v', lua_to_value_inner d lv = Ok v' ∧ same v v'.
Proof.
  revert v D. induction d as [d IH] using lt_wf_ind. intros v D Hv Hd.
  destruct d as [|d1]; [done|]. destruct D as [|D]; [lia|].
  assert (∀ x d2, d1 = S d2 → x ≠ VNull ∧ lua_clean d2 x → ∃ lv, build (T := T) ReprInteger D x = Ok lv ∧ lv ≠ LNil ∧
    ∃ v', lua_to_value_inner d2 lv = Ok v' ∧ same x v') as Hin.
  { intros x d2 -> [Hx Hc]. destruct (IH d2 ltac:(lia) x D Hc ltac:(lia)) as (lv & H1 & H2 & H3).
    exists lv. split_and!; auto. }
  destruct v as [|b|i|u|f|s|b|items|m|m]; cbn [lua_clean] in Hv; try done.
  1-4: eexists; split_and!; [reflexivity|done|]; eexists; split; [reflexivity|apply same_refl].
  - eexists. split_and!; [reflexivity|done|]. exists (VString s). split; [|apply same_refl].
    simpl. by rewrite text_of_valid.
  - destruct Hv as [Hpos Hx]. rewrite Forall_forall in Hx. destruct d1 as [|d2]; [lia|].
    destruct (table_back LInteger int_key (build ReprInteger D) (lua_to_value_inner d2) (indexed items))
      as (t & es0 & es & st & Ht & Hr & Hi & Hes & Hall).
    + intros k Hk. split; [done|]. done.
    + apply indexed_NoDup.
    + intros v Hv%indexed_values. apply (Hin v d2 eq_refl). by apply Hx.
    + destruct (indexed_entries items es0 Hall) as [He Hsame].
      exists (LTable t). cbn [build]. rewrite Ht. split_and!; [done|done|]. exists (VArray es0.*2).
      split; [|by apply same_array]. simpl. unfold table_to_value. rewrite Hr. simpl.
      apply (finish_array st es); [done|]. by rewrite Hes, <- He.
  - destruct Hv as (Hpos & Hne & Hnd & Hx). rewrite Forall_forall in Hx. destruct d1 as [|d2]; [lia|].
    destruct (table_back LString KeyString (build ReprInteger D) (lua_to_value_inner d2) m)
      as (t & es0 & es & st & Ht & Hr & Hi & Hes & Hall).
    + intros k ([k' v] & -> & Hk)%list_elem_of_fmap. destruct (Hx _ Hk) as [Htext _]. split; [done|].
      simpl in *. by rewrite text_of_valid.
    + by apply NoDup_fmap_2; [intros a b [= ->]|].
    + intros v ([k v'] & -> & Hk)%list_elem_of_fmap. apply (Hin v' d2 eq_refl). by apply (Hx _ Hk).
    + destruct (finish_object st es) as (o & Ho & Hoes); [done| | |].
      * intros ->. apply Permutation_nil_l in Hes as <-. inversion Hall; subst. done.
      * intros k Hk. rewrite Hes, (Forall2_keys _ _ _ Hall) in Hk. by apply list_elem_of_fmap in Hk as (? & -> & _).
      * exists (LTable t). cbn [build]. rewrite Ht. split_and!; [done|done|]. exists (VObject o).
        split; [simpl; unfold table_to_value; by rewrite Hr|].
        rewrite <- Hoes in Hes. destruct (Permutation_map_inv _ _ (symmetry Hes)) as (o3 & He & Hp).
        apply (same_object m o3); [|done]. rewrite He in Hall. apply Forall2_fmap_r in Hall.
        eapply Forall2_impl; [exact Hall|]. intros a b [[= H1] H2]. done.
  - destruct Hv as (Hpos & Hnd & Hn & Hx). rewrite Forall_forall in Hx. destruct d1 as [|d2]; [lia|].
    destruct (table_back (lua_key ReprInteger) id (build ReprInteger D) (lua_to_value_inner d2) m)
      as (t & es0 & es & st & Ht & Hr & Hi & Hes & Hall).
    + intros k ([k' v] & -> & Hk)%list_elem_of_fmap. apply lkey_clean. by apply (Hx _ Hk).
    + by rewrite list_fmap_id.
    + intros v ([k v'] & -> & Hk)%list_elem_of_fmap. apply (Hin v' d2 eq_refl). by apply (Hx _ Hk).
    + destruct (finish_map st es) as (m' & Hm' & Hmes); [done| |].
      * rewrite (needs_map_perm _ (es0.*1)) by (by rewrite Hes). by rewrite (Forall2_keys _ _ _ Hall), list_fmap_id.
      * exists (LTable t). cbn [build]. rewrite Ht. split_and!; [done|done|]. exists (VMap m').
        split; [simpl; unfold table_to_value; by rewrite Hr|].
        apply (same_map m es0); [done|]. by rewrite Hmes, Hes.
Qed.


(** ** Keys of other kinds *)
Definition unsupported (k : LuaValue T) : Prop :=
  match k with LBoolean _ | LInteger _ | LString _ => False | _ => True end.

(** After string keys and unsupported ones only. *)
Definition dropping (s : TableState) (seen : Prop) : Prop :=
  ts_map s = None ∧ ts_array s = [] ∧ (∃ o, ts_object s = Some o) ∧
  (seen → ts_only_pos_int_keys s = false ∧ ts_saw_other s = true).

Lemma dropping_step s seen (k : LuaValue T) v :
  dropping s seen → (∃ str, k = LString str) ∨ unsupported k →
  ∃ s', add_entry s k v = Ok s' ∧ dropping s' (seen ∨ unsupported k).
Proof.
  intros (Hm & Ha & [o Ho] & Hs) [[str ->]|Hk].
  - cbn [add_entry]. cbv zeta. simpl. rewrite Hm, Ha, Ho. simpl. eexists. split; [reflexivity|].
    split_and!; simpl; [done..|by eexists|]. intros [H|[]]. by destruct (Hs H).
  - exists (no_pos_ints (see_other s)). split; [by destruct k|].
    split_and!; simpl; [done..|by exists o|done].
Qed.

Lemma dropping_loop read (l : list (LuaValue T * LuaValue T)) s seen :
  dropping s seen →
  (∀ k v, (k, v) ∈ l → ((∃ str, k = LString str) ∨ unsupported k) ∧ ∃ x, read v = Ok x) →
  ∃ s', read_entries read (Ok <$> l) s = Ok s' ∧ dropping s' (seen ∨ ∃ k v, (k, v) ∈ l ∧ unsupported k).
Proof.
  revert s seen. induction l as [|[k v] l IH]; intros s seen Hd Hl.
  - exists s. split; [done|]. destruct Hd as (H1 & H2 & H3 & H4). split_and!; [done..|].
    intros [H|(k & v & Hin & _)]; [by apply H4|set_solver].
  - destruct (Hl k v ltac:(set_solver)) as [Hk [x Hx]].
    destruct (dropping_step s seen k x Hd Hk) as (s1 & E & Hd1).
    destruct (IH s1 _ Hd1) as (s2 & E2 & H1 & H2 & H3 & H4); [intros k' v' Hin; apply Hl; set_solver|].
    exists s2. rewrite fmap_cons. cbn [read_entries]. simpl. rewrite Hx. simpl. rewrite E. simpl. split; [done|].
    split_and!; [done..|]. intros [H|(k' & v' & Hin & Hu)]; apply H4; [by left; left|].
    apply elem_of_cons in Hin as [[= -> ->]|Hin]; [by left; right|]. right. by exists k', v'.
Qed.

(** C34. Entries are lost.  When a table has, beside string keys, a key of a kind
    that cannot be stored (a float, a table, a function), all its entries are
    dropped: it reads as the empty map, although the comment at that place
    speaks of tables without stored entries. *)
Theorem unsupported_key_loses_entries t es repr :
  plain t es →
  (∀ k v, (k, v) ∈ es → ((∃ str, k = LString str) ∨ unsupported k) ∧ ∃ x, lua_to_value_inner 62 v = Ok x) →
  (∃ k v, (k, v) ∈ es ∧ unsupported k) →
  lua_to_value (LTable t) repr = Ok (VMap []).
Proof.
  intros Hp Hk (k & v & Hin & Hu). destruct (plain_pairs t es Hp) as (l & Hl & Hpairs).
  change (table_to_value (lua_to_value_inner 62) t = Ok (VMap [])). unfold table_to_value. rewrite Hpairs.
  destruct (dropping_loop (lua_to_value_inner 62) l start_state False) as (s & E & Hm & Ha & Ho & Hs).
  - split_and!; [done..|by eexists|done].
  - intros k' v' Hin'. apply Hk. by rewrite <- Hl.
  - rewrite E. simpl. unfold finish. rewrite Hm. destruct Hs as [-> ->]; [|by rewrite andb_false_r].
    right. exists k, v. by rewrite Hl.
Qed.
End roundtrip.

(** ** Witnesses *)
Definition stored : Value :=
  VObject [("ids", VArray [VI64 1; VString "x"; VBool true]);
           ("flags", VMap [(KeyU64 0, VF64 0); (KeyBool true, VObject [("n", VI64 (-5))])])]%string.

(** Bottom-up rules, which do not unfold the depth. *)
Lemma clean_array d items : Forall (λ x, x ≠ VNull ∧ lua_clean d x) items → lua_clean (S (S d)) (VArray items).
Proof. split; [lia|done]. Qed.
Lemma clean_object d m : m ≠ [] → NoDup m.*1 →
  Forall (λ p, utf8_valid (as_bytes p.1) = true ∧ p.2 ≠ VNull ∧ lua_clean d p.2) m → lua_clean (S (S d)) (VObject m).
Proof. intros. split; [lia|done]. Qed.
Lemma clean_map d m : NoDup m.*1 → needs_map m.*1 = true →
  Forall (λ p, key_clean p.1 ∧ p.2 ≠ VNull ∧ lua_clean d p.2) m → lua_clean (S (S d)) (VMap m).
Proof. intros. split; [lia|done]. Qed.

Lemma clean_leaf d v : match v with VBool _ | VI64 _ | VF64 _ => True | _ => False end → v ≠ VNull ∧ lua_clean (S d) v.
Proof. by destruct v. Qed.
Lemma clean_string d s : utf8_valid (as_bytes s) = true → VString s ≠ VNull ∧ lua_clean (S d) (VString s).
Proof. done. Qed.

Lemma stored_clean : lua_clean 64 stored.
Proof.
  apply clean_object; [done|by apply (bool_decide_unpack _)|].
  repeat (apply Forall_cons; split); [split; [done|split; [done|]]..|by apply Forall_nil].
  - apply clean_array. repeat (apply Forall_cons; split); [| | |by apply Forall_nil].
    + by apply clean_leaf.
    + by apply clean_string.
    + by apply clean_leaf.
  - apply clean_map; [by apply (bool_decide_unpack _)|done|].
    repeat (apply Forall_cons; split); [| |by apply Forall_nil].
    + split; [by vm_compute|by apply clean_leaf].
    + split; [done|]. split; [done|]. apply clean_object; [done|by apply (bool_decide_unpack _)|].
      apply Forall_cons; split; [|by apply Forall_nil]. split; [done|by apply clean_leaf].
Qed.


Definition lossy_table : Tree := Node [(LString "user", LString "ann"); (LNumber 4609434218613702656, LInteger 1)]%string.

Lemma unsupported_key_loses_entries_witness :
  lua_to_value (LTable lossy_table) ReprInteger = Ok (VMap []).
Proof.
  apply (unsupported_key_loses_entries lossy_table (entries lossy_table)); [done| |].
  - intros k v Hin. apply elem_of_cons in Hin as [[= -> ->]|Hin].
    + split; [left; by eexists|]. eexists. reflexivity.
    + apply elem_of_cons in Hin as [[= -> ->]|Hin]; [|set_solver]. split; [by right|]. eexists. reflexivity.
  - eexists _, _. split; [right; left|done].
Defined.

(** The loss can depend on the order of the traversal: the same entries, with
    the float key last and first. *)
Example order_matters :
  lua_to_value (LTable (Node [(LInteger 1, LInteger 7); (LNumber 4609434218613702656, LInteger 1)])) ReprInteger
    = Ok (VMap []) ∧
  lua_to_value (LTable (Node [(LNumber 4609434218613702656, LInteger 1); (LInteger 1, LInteger 7)])) ReprInteger
    = Ok (VMap [(KeyU64 1, VI64 7)]).
Proof. split; reflexivity. Qed.
