(* ===== verification/LuaOptions.v ===== *)
(** * Options a Lua script declares (wrkr-lua/src/options.rs)

    [parse_script_options] reads the global table [Options] of a script that
    has been run: the run itself is the interpreter's, its globals an argument. *)
From Stdlib Require Import SpecFloat.
From S2P Require Import Prelude Std Coll F64 Config Text Thresholds Value Coerce Durations Lua.

Local Open Scope Z_scope.

(** [f.fract() == 0.0] and [f.is_finite()]. *)
Definition trunc_f (f : f64) : f64 :=
  match f with
  | S754_finite s m e => if 0 <=? e then f else signed s (Z.shiftr (Zpos m) (- e))
  | _ => f
  end.
Definition fract_is_zero (f : f64) : bool := feq (fsub f (trunc_f f)) f_zero.
Definition f_is_finite (f : f64) : bool :=
  match f with S754_zero _ | S754_finite _ _ _ => true | _ => false end.

Section options.
Context {T : Type} {L : LuaTables T} {Hu : Humantime}.

Local Notation result A := (result LuaError.t A).

(** ** Numbers *)

(** [get_vus] and [get_iterations]: the same but for the key and the error. *)
Definition get_count (key : string) (err : LuaError.t) (t : T) : result (option Z) :=
  match tbl_get t key with
  | Err _ => Ok None
  | Ok v =>
      match v with
      | LNil => Ok None
      | LInteger i => if 0 <? i then Ok (Some i) else Err err
      | LNumber n =>
          let f := f64_from_bits n in
          if fract_is_zero f && fgt f f_zero then Ok (Some (F64.to_u64 f)) else Err err
      | _ => Err err
      end
  end.
Definition get_vus : T → result (option Z) := get_count "vus" LuaError.InvalidVus.
Definition get_iterations : T → result (option Z) := get_count "iterations" LuaError.InvalidIterations.

(** The arms of [get_duration] and [get_duration_any] for a value that is not
    nil. *)
Definition duration_of (err : LuaError.t) (v : LuaValue T) : result Z :=
  match v with
  | LNumber n =>
      let f := f64_from_bits n in
      if fgt f f_zero then ok_or (from_secs_f64 f) LuaError.Panic else Err err
  | LInteger i => if 0 <? i then Ok (Duration.from_secs i) else Err err
  | LString s => ok_or (humantime_parse (to_string_lossy s)) err
  | _ => Err err
  end.

Definition get_duration (t : T) : result (option Z) :=
  match tbl_get t "duration" with
  | Err _ => Ok None
  | Ok LNil => Ok None
  | Ok v => Some <$> duration_of LuaError.InvalidDuration v
  end.

(** The loops over alternative keys: an error or a nil moves on. *)
Fixpoint get_any {A} (read : LuaValue T → result A) (keys : list string) (t : T) : result (option A) :=
  match keys with
  | [] => Ok None
  | key :: keys =>
      match tbl_get t key with
      | Err _ => get_any read keys t
      | Ok LNil => get_any read keys t
      | Ok v => Some <$> read v
      end
  end.

Definition get_string_any : list string → T → result (option string) :=
  get_any (λ v, match v with LString s => Ok (to_string_lossy s) | _ => Err LuaError.InvalidExecutor end).

Definition get_duration_any : list string → T → result (option Z) := get_any (duration_of LuaError.InvalidTimeUnit).

Definition u64_of (allow_zero : bool) (v : LuaValue T) : result Z :=
  match v with
  | LInteger i => if (if allow_zero then 0 <=? i else 0 <? i) then Ok i else Err LuaError.InvalidStages
  | LNumber n =>
      let f := f64_from_bits n in
      if negb (fract_is_zero f) then Err LuaError.InvalidStages
      else if (if allow_zero then fge f f_zero else fgt f f_zero) then Ok (F64.to_u64 f)
      else Err LuaError.InvalidStages
  | _ => Err LuaError.InvalidStages
  end.
Definition get_u64_any (keys : list string) (t : T) (allow_zero : bool) : result (option Z) :=
  get_any (u64_of allow_zero) keys t.

(** ** Tables *)

(** [t.get(key)], with a missing table as an empty list. *)
Definition get_list {A} (key : string) (err : LuaError.t) (read : T → result (list A)) (t : T) : result (list A) :=
  match tbl_get t key with
  | Err _ => Ok []
  | Ok LNil => Ok []
  | Ok (LTable t') => read t'
  | Ok _ => Err err
  end.

(** A [for] loop that pushes at most one item per step, with [?] on the step. *)
Fixpoint collect {X A} (f : X → result (option A)) (l : list (Prelude.result string X)) : result (list A) :=
  match l with
  | [] => Ok []
  | x :: l =>
      x ← lua_try x;
      o ← f x;
      rest ← collect f l;
      Ok (match o with Some a => a :: rest | None => rest end)
  end.

(** A scalar as tag text. *)
Definition scalar_text (v : LuaValue T) : option string :=
  match v with
  | LString s => Some (to_string_lossy s)
  | LInteger i => Some (show_Z i)
  | LNumber n => if f_is_finite (f64_from_bits n) then Some (show_f64 (f64_from_bits n)) else None
  | LBoolean b => Some (if b then "true" else "false")%string
  | _ => None
  end.

Definition scenario_tag (p : LuaValue T * LuaValue T) : result (option (string * string)) :=
  Ok (match p.1 with
      | LString k => v ← scalar_text p.2; Some (to_string_lossy k, v)
      | _ => None
      end).
Definition get_scenario_tags : T → result (list (string * string)) :=
  get_list "tags" LuaError.InvalidScenarioTags (λ tbl, collect scenario_tag (tbl_pairs tbl)).

Definition stage_of (v : LuaValue T) : result (option Stage) :=
  match v with
  | LTable stage_tbl =>
      duration ← get_duration stage_tbl;
      duration ← ok_or duration LuaError.InvalidStages;
      target ← get_u64_any ["target"%string] stage_tbl true;
      target ← ok_or target LuaError.InvalidStages;
      Ok (Some (mkStage duration target))
  | _ => Err LuaError.InvalidStages
  end.
Definition get_stages : T → result (list Stage) :=
  get_list "stages" LuaError.InvalidStages (λ tbl, collect stage_of (sequence_values tbl)).

Definition expression_of (v : LuaValue T) : result (option string) :=
  match v with LString s => Ok (Some (to_string_lossy s)) | _ => Err LuaError.InvalidThresholds end.

Definition threshold_of (p : LuaValue T * LuaValue T) : result (option ThresholdSet) :=
  match p.1 with
  | LString k =>
      match parse_threshold_metric_key (to_string_lossy k) with
      | Err _ => Err LuaError.InvalidThresholds
      | Ok (metric, tags) =>
          expressions ← match p.2 with
                        | LString s => Ok [to_string_lossy s]
                        | LTable list => collect expression_of (sequence_values list)
                        | _ => Err LuaError.InvalidThresholds
                        end;
          if is_empty expressions then Err LuaError.InvalidThresholds
          else Ok (Some (mkThresholdSet metric tags expressions))
      end
  | _ => Ok None
  end.
Definition get_thresholds : T → result (list ThresholdSet) :=
  get_list "thresholds" LuaError.InvalidThresholds (λ tbl, collect threshold_of (tbl_pairs tbl)).

(** ** Scenarios *)
Definition scenario_of (p : LuaValue T * LuaValue T) : result (option ScenarioOptions) :=
  match p with
  | (LString name, LTable t) =>
      let exec := get_string t "exec" in
      tags ← get_scenario_tags t;
      executor ← get_string_any ["executor"%string] t;
      vus ← get_vus t;
      iterations ← get_iterations t;
      duration ← get_duration t;
      start_vus ← get_u64_any ["start_vus"; "startVUs"]%string t true;
      start_rate ← get_u64_any ["start_rate"; "startRate"]%string t true;
      time_unit ← get_duration_any ["time_unit"; "timeUnit"]%string t;
      pre_allocated_vus ← get_u64_any ["pre_allocated_vus"; "preAllocatedVUs"]%string t false;
      max_vus ← get_u64_any ["max_vus"; "maxVUs"]%string t false;
      stages ← get_stages t;
      Ok (Some (mkScenarioOptions (to_string_lossy name) exec tags executor vus iterations duration
        start_vus stages start_rate time_unit pre_allocated_vus max_vus))
  | _ => Ok None
  end.

(** [parse_script_options], after the script has run. *)
Definition parse_script_options (globals : T) : result ScriptOptions :=
  match get_table globals "Options" with
  | None => Ok (mkScriptOptions None None None [] [])
  | Some options =>
      let scenarios_table := get_table options "scenarios" in
      vus ← get_vus options;
      iterations ← get_iterations options;
      duration ← get_duration options;
      thresholds ← get_thresholds options;
      scenarios ← match scenarios_table with
                  | Some tbl => collect scenario_of (tbl_pairs tbl)
                  | None => Ok []
                  end;
      Ok (mkScriptOptions vus iterations duration scenarios thresholds)
  end.
End options.
