(* ===== verification/LuaOptionsProps.v ===== *)
(** * Properties of the Lua options reader

    Whatever the reader accepts is in range, and a script that declares its
    options in the documented form gets those options. *)
From Stdlib Require Import SpecFloat.
From S2P Require Import Prelude Std Coll F64 Config Text Thresholds Value Coerce Durations YamlText Lua LuaOptions.

Local Open Scope Z_scope.

(** ** Numbers *)

(** A positive number without fractional part is at least one. *)
Lemma whole_positive f : fract_is_zero f = true → fgt f f_zero = true → 1 ≤ F64.to_u64 f ≤ u64_max.
Proof.
  intros Hf Hp. pose proof (to_u64_range f) as Hr. split; [|apply Hr].
  destruct f as [s|[]| |s m e]; [done..|]. destruct s; [done|].
  assert (1 ≤ trunc (S754_finite false m e)) as Ht; [|unfold F64.to_u64; ints; lia].
  unfold fract_is_zero, trunc_f in Hf. unfold trunc. destruct (Z.leb_spec 0 e).
  - rewrite Z.shiftl_mul_pow2 by done. pose proof (Z.pow_pos_nonneg 2 e). lia.
  - destruct (decide (Z.shiftr (Z.pos m) (- e) = 0)) as [Hz|Hz].
    + rewrite Hz in Hf. done.
    + pose proof (proj2 (Z.shiftr_nonneg (Z.pos m) (- e))). lia.
Qed.

#[local] Opaque f64_from_bits from_secs_f64 F64.to_u64 fgt fge fract_is_zero.

Definition opt_all {A} (P : A → Prop) (o : option A) : Prop := match o with Some a => P a | None => True end.

Lemma fmap_Ok {E A B} (f : A → B) (r : result E A) b : f <$> r = Ok b ↔ ∃ a, r = Ok a ∧ b = f a.
Proof. destruct r; naive_solver. Qed.

Lemma ok_or_Ok {E A} (o : option A) (e : E) a : ok_or o e = Ok a ↔ o = Some a.
Proof. destruct o; naive_solver. Qed.

Section props.
Context {T : Type} {L : LuaTables T} {Hu : Humantime} {HL : HumantimeLaws Hu}.

Definition positive (n : Z) : Prop := 1 ≤ n ≤ u64_max.

Definition stage_ok (s : Stage) : Prop := Duration.valid (st_duration s) ∧ in_u64 (st_target s).
Definition threshold_ok (t : ThresholdSet) : Prop :=
  ts_expressions t ≠ [] ∧ ∃ key, parse_threshold_metric_key key = Ok (ts_metric t, ts_tags t).

Record scenario_ok (s : ScenarioOptions) : Prop := {
  so_vus_ok : opt_all positive (so_vus s);
  so_iterations_ok : opt_all positive (so_iterations s);
  so_duration_ok : opt_all Duration.valid (so_duration s);
  so_start_vus_ok : opt_all in_u64 (so_start_vus s);
  so_start_rate_ok : opt_all in_u64 (so_start_rate s);
  so_time_unit_ok : opt_all Duration.valid (so_time_unit s);
  so_pre_allocated_ok : opt_all positive (so_pre_allocated_vus s);
  so_max_vus_ok : opt_all positive (so_max_vus s);
  so_stages_ok : Forall stage_ok (so_stages s) }.

Record options_ok (o : ScriptOptions) : Prop := {
  op_vus_ok : opt_all positive (op_vus o);
  op_iterations_ok : opt_all positive (op_iterations o);
  op_duration_ok : opt_all Duration.valid (op_duration o);
  op_scenarios_ok : Forall scenario_ok (op_scenarios o);
  op_thresholds_ok : Forall threshold_ok (op_thresholds o) }.

(** Integers of the interpreter are signed 64-bit. *)
Definition ints_i64 : Prop := ∀ t k i, tbl_get (T := T) t k = Ok (LInteger i) → i ≤ i64_max.

(** ** What each reader accepts *)
Section accepted.
Hypothesis Hints : ints_i64.

Lemma get_count_ok key err t o : get_count key err t = Ok o → opt_all positive o.
Proof.
  unfold get_count. destruct (tbl_get t key) as [v|] eqn:E; [|by intros [= <-]].
  destruct v as [|b|i|n|s|t'|]; try done; [by intros [= <-]| |].
  - pose proof (Hints _ _ _ E) as Hi. destruct (Z.ltb_spec 0 i); [|done]. intros [= <-]. unfold positive; simpl. ints; lia.
  - destruct (fract_is_zero _ && _) eqn:En; [|done]. apply andb_true_iff in En as [H1 H2].
    pose proof (whole_positive _ H1 H2) as Hw. revert Hw. generalize (F64.to_u64 (f64_from_bits n)).
    by intros z Hz [= <-].
Qed.

Lemma from_secs_valid i : 0 < i ≤ i64_max → Duration.valid (Duration.from_secs i).
Proof. unfold Duration.valid, Duration.from_secs, Duration.MAX, Duration.NANOS_PER_SEC. ints. lia. Qed.

Lemma duration_of_ok t k err v d : tbl_get t k = Ok v → duration_of err v = Ok d → Duration.valid d.
Proof.
  intros E. destruct v as [|b|i|n|s|t'|]; simpl; try done.
  - pose proof (Hints _ _ _ E) as Hi. destruct (Z.ltb_spec 0 i); [|done]. intros [= <-]. by apply from_secs_valid.
  - destruct (fgt _ _); [|done]. rewrite ok_or_Ok. apply from_secs_f64_valid.
  - rewrite ok_or_Ok. apply humantime_valid.
Qed.

Lemma get_duration_ok t o : get_duration t = Ok o → opt_all Duration.valid o.
Proof.
  unfold get_duration. destruct (tbl_get t "duration") as [v|] eqn:E; [|by intros [= <-]].
  destruct v; try (intros (d & Hd & ->)%fmap_Ok; by eapply duration_of_ok). by intros [= <-].
Qed.

Lemma get_any_ok {A} (P : A → Prop) (read : LuaValue T → result LuaError.t A) keys t o :
  (∀ k v a, tbl_get t k = Ok v → read v = Ok a → P a) → get_any read keys t = Ok o → opt_all P o.
Proof.
  intros Hr. induction keys as [|key keys IH]; simpl; [by intros [= <-]|].
  destruct (tbl_get t key) as [v|] eqn:E; [|done].
  destruct v; try done; intros (d & Hd & ->)%fmap_Ok; by eapply Hr.
Qed.

Lemma get_u64_ok keys t (zero : bool) o :
  get_u64_any keys t zero = Ok o → opt_all (λ n, (if zero then 0 else 1) ≤ n ≤ u64_max) o.
Proof.
  apply get_any_ok. intros k v a E. destruct v as [|b|i|n|s|t'|]; simpl; try done.
  - pose proof (Hints _ _ _ E) as Hi. destruct zero; [destruct (Z.leb_spec 0 i)|destruct (Z.ltb_spec 0 i)]; try done;
      intros [= <-]; ints; lia.
  - destruct (fract_is_zero _) eqn:Ef; simpl; [|done]. destruct zero.
    + destruct (fge _ _); [|done]. pose proof (to_u64_range (f64_from_bits n)) as Hw. revert Hw.
      generalize (F64.to_u64 (f64_from_bits n)). by intros z Hz [= <-].
    + destruct (fgt _ _) eqn:Eg; [|done]. pose proof (whole_positive _ Ef Eg) as Hw. revert Hw.
      generalize (F64.to_u64 (f64_from_bits n)). by intros z Hz [= <-].
Qed.

Lemma collect_ok {X A} (P : A → Prop) (f : X → result LuaError.t (option A)) l out :
  (∀ x a, f x = Ok (Some a) → P a) → collect f l = Ok out → Forall P out.
Proof.
  intros Hf. revert out. induction l as [|x l IH]; intros out; simpl; [by intros [= <-]|].
  rewrite bind_Ok. intros (y & _ & H). apply bind_Ok in H as (o & Ho & H). apply bind_Ok in H as (rest & Hr & [= <-]).
  destruct o; [constructor|]; eauto.
Qed.

Lemma get_list_ok {A} (P : A → Prop) key err (read : T → result LuaError.t (list A)) t out :
  (∀ t' l, read t' = Ok l → Forall P l) → get_list key err read t = Ok out → Forall P out.
Proof.
  intros Hr. unfold get_list. destruct (tbl_get t key) as [v|]; [|by intros [= <-]].
  destruct v; try done; [by intros [= <-]|apply Hr].
Qed.

Lemma stage_of_ok v s : stage_of v = Ok (Some s) → stage_ok s.
Proof.
  destruct v as [| | | | |t|]; simpl; try done. rewrite bind_Ok. intros (d & Hd & H).
  apply bind_Ok in H as (d' & Hd' & H). apply bind_Ok in H as (n & Hn & H). apply bind_Ok in H as (n' & Hn' & [= <-]).
  apply ok_or_Ok in Hd' as ->. apply ok_or_Ok in Hn' as ->. split; simpl.
  - apply (get_duration_ok _ _ Hd).
  - apply (get_u64_ok _ _ _ _ Hn).
Qed.

Lemma threshold_of_ok p s : threshold_of p = Ok (Some s) → threshold_ok s.
Proof.
  destruct p as [k v]. unfold threshold_of. simpl. destruct k as [| | | |k| |]; try done.
  destruct (parse_threshold_metric_key (to_string_lossy k)) as [[metric tags]|] eqn:E; [|done].
  rewrite bind_Ok. intros (ex & Hex & H). destruct ex as [|e ex]; simpl in H; [done|]. injection H as <-.
  split; [done|by eexists].
Qed.

Lemma scenario_of_ok p s : scenario_of p = Ok (Some s) → scenario_ok s.
Proof.
  destruct p as [k v]. unfold scenario_of. destruct k as [| | | |k| |]; try done. destruct v as [| | | | |t|]; try done.
  repeat (rewrite bind_Ok; intros (? & ? & H); revert H). intros [= <-]. split; simpl.
  - by eapply get_count_ok.
  - by eapply get_count_ok.
  - by eapply get_duration_ok.
  - by eapply (get_u64_ok _ _ true).
  - by eapply (get_u64_ok _ _ true).
  - eapply get_any_ok; [|done]. intros *. apply duration_of_ok.
  - by eapply (get_u64_ok _ _ false).
  - by eapply (get_u64_ok _ _ false).
  - eapply get_list_ok; [|done]. intros t' l. apply collect_ok. apply stage_of_ok.
Qed.
End accepted.

(** What the reader accepts is in range: from any script, whatever its
    tables hold, either an error is reported or every count is positive and
    fits 64 bits, every duration is one, every stage has a duration and a
    target, and every threshold set comes from a well-formed key and has an
    expression. *)
Theorem lua_options_valid globals o : ints_i64 → parse_script_options globals = Ok o → options_ok o.
Proof.
  intros Hi. unfold parse_script_options. destruct (get_table globals "Options") as [t|]; [|by intros [= <-]].
  repeat (rewrite bind_Ok; intros (? & ? & H); revert H). intros [= <-]. split; simpl.
  - by eapply get_count_ok.
  - by eapply get_count_ok.
  - by eapply get_duration_ok.
  - destruct (get_table t "scenarios"); [|by simplify_eq; constructor].
    eapply collect_ok; [|done]. by apply scenario_of_ok.
  - eapply get_list_ok; [|done]. intros t' l. apply collect_ok. apply threshold_of_ok.
Qed.

(** ** Scripts that declare their options in the documented form *)

Definition text (s : string) : Prop := utf8_valid (as_bytes s) = true.
Definition opt_lua {A} (f : A → LuaValue T) (o : option A) : LuaValue T :=
  match o with Some a => f a | None => LNil end.

(** The first of [keys] that has a value has [v]; for nil, none has one. *)
Inductive under (t : T) (v : LuaValue T) : list string → Prop :=
  | under_none : v = LNil → under t v []
  | under_here k keys : tbl_get t k = Ok v → v ≠ LNil → under t v (k :: keys)
  | under_later k keys : tbl_get t k = Ok LNil → under t v keys → under t v (k :: keys).

(** A duration, written as text or as whole seconds. *)
Inductive duration_as : option Z → LuaValue T → Prop :=
  | duration_absent : duration_as None LNil
  | duration_text s d : text s → humantime_parse s = Some d → duration_as (Some d) (LString s)
  | duration_secs i : 0 < i → duration_as (Some (Duration.from_secs i)) (LInteger i).

Inductive count_as (low : Z) : option Z → LuaValue T → Prop :=
  | count_absent : count_as low None LNil
  | count_int n : low ≤ n → count_as low (Some n) (LInteger n).

(** A list under a key; none may be left out. *)
Definition list_as {A X} (t : T) (key : string) (steps : T → list (result string X)) (as_ : A → X → Prop)
    (l : list A) : Prop :=
  tbl_get t key = Ok LNil ∧ l = [] ∨
  ∃ tbl xs, tbl_get t key = Ok (LTable tbl) ∧ steps tbl = Ok <$> xs ∧ Forall2 as_ l xs.

Definition text_as (s : string) (v : LuaValue T) : Prop := v = LString s ∧ text s.

Definition stage_as (s : Stage) (v : LuaValue T) : Prop :=
  ∃ t d n, v = LTable t ∧ tbl_get t "duration" = Ok d ∧ duration_as (Some (st_duration s)) d ∧
    tbl_get t "target" = Ok n ∧ count_as 0 (Some (st_target s)) n.

Definition tag_as (tag : string * string) (p : LuaValue T * LuaValue T) : Prop := text_as tag.1 p.1 ∧ text_as tag.2 p.2.

Definition threshold_as (s : ThresholdSet) (p : LuaValue T * LuaValue T) : Prop :=
  ∃ key, text_as key p.1 ∧ parse_threshold_metric_key key = Ok (ts_metric s, ts_tags s) ∧ ts_expressions s ≠ [] ∧
    ((∃ e, ts_expressions s = [e] ∧ text_as e p.2) ∨
     (∃ tbl xs, p.2 = LTable tbl ∧ sequence_values tbl = Ok <$> xs ∧ Forall2 text_as (ts_expressions s) xs)).

(** The entries of a scenario's table; a key in camel case is looked at when
    the one in snake case is absent. *)
Record scenario_as (s : ScenarioOptions) (t : T) : Prop := {
  sa_exec : tbl_get t "exec" = Ok (opt_lua LString (so_exec s)) ∧ opt_all text (so_exec s);
  sa_tags : list_as t "tags" tbl_pairs tag_as (so_tags s);
  sa_executor : tbl_get t "executor" = Ok (opt_lua LString (so_executor s)) ∧ opt_all text (so_executor s);
  sa_vus : ∃ v, tbl_get t "vus" = Ok v ∧ count_as 1 (so_vus s) v;
  sa_iterations : ∃ v, tbl_get t "iterations" = Ok v ∧ count_as 1 (so_iterations s) v;
  sa_duration : ∃ v, tbl_get t "duration" = Ok v ∧ duration_as (so_duration s) v;
  sa_start_vus : ∃ v, under t v ["start_vus"; "startVUs"]%string ∧ count_as 0 (so_start_vus s) v;
  sa_start_rate : ∃ v, under t v ["start_rate"; "startRate"]%string ∧ count_as 0 (so_start_rate s) v;
  sa_time_unit : ∃ v, under t v ["time_unit"; "timeUnit"]%string ∧ duration_as (so_time_unit s) v;
  sa_pre_allocated : ∃ v, under t v ["pre_allocated_vus"; "preAllocatedVUs"]%string ∧
    count_as 1 (so_pre_allocated_vus s) v;
  sa_max_vus : ∃ v, under t v ["max_vus"; "maxVUs"]%string ∧ count_as 1 (so_max_vus s) v;
  sa_stages : list_as t "stages" sequence_values stage_as (so_stages s) }.

Definition scenario_entry (s : ScenarioOptions) (p : LuaValue T * LuaValue T) : Prop :=
  text_as (so_name s) p.1 ∧ ∃ t, p.2 = LTable t ∧ scenario_as s t.

Record options_as (o : ScriptOptions) (t : T) : Prop := {
  oa_vus : ∃ v, tbl_get t "vus" = Ok v ∧ count_as 1 (op_vus o) v;
  oa_iterations : ∃ v, tbl_get t "iterations" = Ok v ∧ count_as 1 (op_iterations o) v;
  oa_duration : ∃ v, tbl_get t "duration" = Ok v ∧ duration_as (op_duration o) v;
  oa_scenarios : list_as t "scenarios" tbl_pairs scenario_entry (op_scenarios o);
  oa_thresholds : list_as t "thresholds" tbl_pairs threshold_as (op_thresholds o) }.

Lemma text_read s v : text_as s v → ∃ k, v = LString k ∧ to_string_lossy k = s.
Proof. intros [-> Hs]. exists s. split; [done|by apply to_string_lossy_valid]. Qed.

Lemma count_read key err t v o : tbl_get t key = Ok v → count_as 1 o v → get_count key err t = Ok o.
Proof.
  unfold get_count. intros ->. intros [|n Hn]; [done|]. by rewrite (proj2 (Z.ltb_lt 0 n)) by lia.
Qed.

Lemma duration_of_read err v d : duration_as (Some d) v → duration_of err v = Ok d.
Proof.
  inversion 1 as [|s d' Hs Hd|i Hi]; subst; simpl.
  - rewrite to_string_lossy_valid by done. by rewrite Hd.
  - by rewrite (proj2 (Z.ltb_lt 0 i)).
Qed.

Lemma lua_duration_read t v o : tbl_get t "duration" = Ok v → duration_as o v → get_duration t = Ok o.
Proof.
  unfold get_duration. intros -> Hd. destruct o as [d|]; [|by inversion Hd].
  pose proof (duration_of_read LuaError.InvalidDuration v d Hd) as Hr. inversion Hd; subst; by rewrite Hr.
Qed.

Lemma any_read {A} (read : LuaValue T → result LuaError.t A) keys t v o :
  under t v keys → (v = LNil ∧ o = None ∨ v ≠ LNil ∧ ∃ a, o = Some a ∧ read v = Ok a) →
  get_any read keys t = Ok o.
Proof.
  intros Hun Ho. induction Hun as [Hn|k keys Hk Hn|k keys Hk Hun IH]; simpl.
  - destruct Ho as [[_ ->]|[H _]]; done.
  - rewrite Hk. destruct Ho as [[H _]|[_ (a & -> & Hr)]]; [done|]. destruct v; try done; by rewrite Hr.
  - by rewrite Hk.
Qed.

Lemma u64_read keys t v o (zero : bool) :
  under t v keys → count_as (if zero then 0 else 1) o v → get_u64_any keys t zero = Ok o.
Proof.
  intros Hun Hc. apply (any_read _ _ _ v); [done|]. destruct Hc as [|n Hn]; [by left|]. right. split; [done|].
  exists n. split; [done|]. simpl. destruct zero.
  - by rewrite (proj2 (Z.leb_le 0 n)).
  - by rewrite (proj2 (Z.ltb_lt 0 n)) by lia.
Qed.

Lemma time_unit_read keys t v o : under t v keys → duration_as o v → get_duration_any keys t = Ok o.
Proof.
  intros Hun Hd. apply (any_read _ _ _ v); [done|]. destruct o as [d|].
  - right. split; [by inversion Hd|]. exists d. split; [done|]. by apply duration_of_read.
  - left. by inversion Hd.
Qed.

Lemma string_read key t o : tbl_get t key = Ok (opt_lua LString o) → opt_all text o → get_string_any [key] t = Ok o.
Proof.
  intros Hk Ho. apply (any_read _ _ _ (opt_lua LString o)).
  - destruct o; [by apply under_here|by apply under_later; [|apply under_none]].
  - destruct o as [s|]; [|by left]. right. split; [done|]. exists s. split; [done|]. simpl.
    by rewrite to_string_lossy_valid.
Qed.

Lemma collect_read {A X} (as_ : A → X → Prop) (f : X → result LuaError.t (option A)) l xs :
  (∀ a x, as_ a x → f x = Ok (Some a)) → Forall2 as_ l xs → collect f (Ok <$> xs) = Ok l.
Proof.
  intros Hf. induction 1 as [|a x l xs Ha Hl IH]; [done|]. rewrite fmap_cons. simpl.
  by rewrite (Hf a x Ha), IH.
Qed.

Lemma list_read {A X} (as_ : A → X → Prop) (f : X → result LuaError.t (option A)) key err steps t l :
  (∀ a x, as_ a x → f x = Ok (Some a)) → list_as t key steps as_ l →
  get_list key err (λ tbl, collect f (steps tbl)) t = Ok l.
Proof.
  unfold get_list. intros Hf [[-> ->]|(tbl & xs & -> & -> & Hl)]; [done|]. by apply (collect_read as_).
Qed.

Lemma tag_read tag p : tag_as tag p → scenario_tag p = Ok (Some tag).
Proof.
  destruct tag as [k v], p as [pk pv]. intros [Hk Hv]. simpl in Hk, Hv.
  apply text_read in Hk as (k' & -> & <-), Hv as (v' & -> & <-). done.
Qed.

Lemma lua_stage_read s v : stage_as s v → stage_of v = Ok (Some s).
Proof.
  intros (t & d & n & -> & Hd & Hda & Hn & Hna). unfold stage_of.
  rewrite (lua_duration_read t d (Some (st_duration s))) by done. simpl.
  rewrite (u64_read ["target"%string] t n (Some (st_target s)) true); [by destruct s| |done].
  apply under_here; [done|]. by inversion Hna.
Qed.

Lemma threshold_read s p : threshold_as s p → threshold_of p = Ok (Some s).
Proof.
  destruct s as [metric tags ex], p as [pk pv]. intros (key & Hk & Hp & Hne & Hex). simpl in *.
  apply text_read in Hk as (k & -> & <-). unfold threshold_of. simpl. rewrite Hp.
  assert (∀ l, l = ex → (if is_empty l then Err LuaError.InvalidThresholds
    else Ok (Some (mkThresholdSet metric tags l))) = Ok (Some (mkThresholdSet metric tags ex))) as Hl.
  { intros l ->. by destruct ex. }
  destruct Hex as [(e & -> & (e' & -> & <-)%text_read)|(tbl & xs & -> & Hs & Hf)].
  - done.
  - rewrite Hs, (collect_read text_as expression_of ex xs); [simpl; by apply Hl| |done].
    intros a x (y & -> & <-)%text_read. done.
Qed.

Lemma exec_read t o : tbl_get t "exec" = Ok (opt_lua LString o) → opt_all text o → get_string t "exec" = o.
Proof.
  unfold get_string. intros -> Ho. destruct o as [s|]; [|done]. simpl. by rewrite from_utf8_str.
Qed.

Lemma lua_scenario_read s p : scenario_entry s p → scenario_of p = Ok (Some s).
Proof.
  destruct p as [pk pv]. intros [Hn (t & Ht & S)]. simpl in Hn, Ht.
  apply text_read in Hn as (k & -> & Hk). subst pv. unfold scenario_of.
  destruct S as [[X1 X2] Htags [E1 E2] (v1 & V1 & V2) (v2 & I1 & I2) (v3 & D1 & D2) (v4 & A1 & A2) (v5 & B1 & B2)
    (v6 & C1 & C2) (v7 & F1 & F2) (v8 & G1 & G2) Hst].
  unfold get_scenario_tags, get_stages, get_vus, get_iterations.
  rewrite (list_read tag_as scenario_tag _ _ _ _ (so_tags s) tag_read Htags). simpl.
  rewrite (string_read _ _ _ E1 E2). simpl. rewrite (count_read _ _ _ _ _ V1 V2). simpl.
  rewrite (count_read _ _ _ _ _ I1 I2). simpl. rewrite (lua_duration_read _ _ _ D1 D2). simpl.
  rewrite (u64_read _ _ _ _ true A1 A2). simpl. rewrite (u64_read _ _ _ _ true B1 B2). simpl.
  rewrite (time_unit_read _ _ _ _ C1 C2). simpl. rewrite (u64_read _ _ _ _ false F1 F2). simpl.
  rewrite (u64_read _ _ _ _ false G1 G2). simpl.
  rewrite (list_read stage_as stage_of _ _ _ _ (so_stages s) lua_stage_read Hst). simpl.
  rewrite (exec_read _ _ X1 X2), Hk. by destruct s.
Qed.

End props.

(** ** Witnesses *)
Definition kv (k : string) (v : LuaValue Tree) : LuaValue Tree * LuaValue Tree := (LString k, v).
Definition lua_seq (l : list (LuaValue Tree)) : LuaValue Tree :=
  LTable (Node (imap (λ i v, (LInteger (Z.of_nat i + 1), v)) l)).

Definition demo_scenario : Tree := Node
  [kv "executor" (LString "ramping-vus"); kv "exec" (LString "main"); kv "startVUs" (LInteger 0);
   kv "tags" (LTable (Node [kv "env" (LString "prod")]));
   kv "stages" (lua_seq [LTable (Node [kv "duration" (LString "2000000000"); kv "target" (LInteger 5)]);
                         LTable (Node [kv "duration" (LInteger 3); kv "target" (LInteger 0)])])]%string.
Definition demo_script : Tree := Node
  [kv "vus" (LInteger 4); kv "duration" (LInteger 10);
   kv "scenarios" (LTable (Node [kv "load" (LTable demo_scenario)]));
   kv "thresholds" (LTable (Node [kv "http_req_duration" (lua_seq [LString "p(95)<300"; LString "avg<100"])]))]%string.
Definition demo_globals : Tree := Node [kv "Options" (LTable demo_script)]%string.

Definition demo_options : ScriptOptions :=
  mkScriptOptions (Some 4) None (Some (10 * 10 ^ 9))
    [mkScenarioOptions "load" (Some "main") [("env", "prod")] (Some "ramping-vus") None None None (Some 0)
       [mkStage (2 * 10 ^ 9) 5; mkStage (3 * 10 ^ 9) 0] None None None None]
    [mkThresholdSet "http_req_duration" [] ["p(95)<300"; "avg<100"]]%string.

Local Existing Instance ns_humantime.

Lemma demo_options_as : options_as (Hu := ns_humantime) demo_options demo_script.
Proof.
  split; simpl.
  - eexists. split; [reflexivity|]. by constructor.
  - eexists. split; [reflexivity|]. by constructor.
  - eexists. split; [reflexivity|]. apply (duration_secs 10). lia.
  - right. eexists _, [_]. split_and!; [reflexivity|reflexivity|]. repeat constructor; simpl.
    exists demo_scenario. split; [reflexivity|]. split; simpl.
    + done.
    + right. eexists _, [_]. split_and!; [reflexivity|reflexivity|]. repeat constructor.
    + done.
    + eexists. split; [reflexivity|]. by constructor.
    + eexists. split; [reflexivity|]. by constructor.
    + eexists. split; [reflexivity|]. by constructor.
    + exists (LInteger 0). split; [apply under_later; [done|]; by apply under_here|by constructor].
    + exists LNil. split; [repeat (apply under_later; [done|]); by constructor|by constructor].
    + exists LNil. split; [repeat (apply under_later; [done|]); by constructor|by constructor].
    + exists LNil. split; [repeat (apply under_later; [done|]); by constructor|by constructor].
    + exists LNil. split; [repeat (apply under_later; [done|]); by constructor|by constructor].
    + right. eexists _, [_; _]. split_and!; [reflexivity|reflexivity|]. repeat constructor.
      * eexists _, _, _. split_and!; [reflexivity|reflexivity| |reflexivity|by constructor].
        apply duration_text; [done|vm_compute; reflexivity].
      * eexists _, _, _. split_and!; [reflexivity|reflexivity| |reflexivity|by constructor].
        by apply (duration_secs 3).
  - right. eexists _, [_]. split_and!; [reflexivity|reflexivity|]. repeat constructor.
    exists "http_req_duration"%string. split_and!; [done|reflexivity|done|]. right.
    eexists _, [_; _]. split_and!; [reflexivity|reflexivity|]. repeat constructor.
Qed.


(** The same tables, without integers beyond 64 bits. *)
Definition i64_tables : LuaTables Tree := {|
  tbl_get t k :=
    match tbl_get t k with
    | Ok (LInteger i) => if i <=? i64_max then Ok (LInteger i) else Err "integer overflow"%string
    | r => r
    end;
  tbl_pairs := tbl_pairs;
  sequence_values := sequence_values;
  create_table := create_table;
  tbl_set := tbl_set;
  coerce_string := coerce_string |}.

Lemma lua_options_valid_witness :
  @parse_script_options Tree i64_tables ns_humantime demo_globals = Ok demo_options ∧ options_ok demo_options.
Proof.
  assert (@parse_script_options Tree i64_tables ns_humantime demo_globals = Ok demo_options) as Hp
    by (vm_compute; reflexivity).
  split; [exact Hp|]. apply (@lua_options_valid Tree i64_tables ns_humantime ns_humantime_laws demo_globals _); [|exact Hp].
  intros t k i. simpl. destruct (tree_find (LString k) (entries t)) as [|b|j|n|s|t'|]; try done.
  destruct (Z.leb_spec j i64_max); [|done]. by intros [= <-].
Defined.
