(* ===== verification/HttpClient.v ===== *)
(** * The HTTP client (wrkr-http: util.rs, estimate.rs, types.rs, error.rs, client.rs)

    What is sent for a request, how its size and that of the answer are
    estimated, and the errors.  Parsing a URL, the syntax of header names and
    values, and the connection are third-party: a class of operations, and the
    answer of the server as an argument. *)
From S2P Require Import Prelude Coll Std Text Value Coerce Serde Lua.

Local Open Scope Z_scope.

(** ** Interfaces *)

(** The [url], [hyper] and [http] crates. *)
Class HttpLib := {
  Url : Type;
  url_parse : string → option Url;
  url_scheme : Url → string;
  url_host_str : Url → option string;
  url_port : Url → option Z;
  url_join : Url → string → option Url;
  url_append_pairs : Url → list (string * string) → Url;
  url_to_string : Url → string;
  (** [hyper::Uri], as its path and query *)
  uri_parse : string → option (option string);
  header_name_ok : string → bool;
  header_value_ok : string → bool }.

(** ** Types *)
Record HttpRequest := mkHttpRequest {
  hq_method : string;
  hq_url : string;
  hq_headers : list (string * string);
  hq_body : string;
  hq_timeout : option Z }.

Record HttpResponse := mkHttpResponse {
  hp_status : Z;
  hp_body : string;
  hp_headers : list (string * string);
  hp_bytes_sent : Z;
  hp_bytes_received : Z }.

Definition http_get (url : string) : HttpRequest := mkHttpRequest "GET" url [] "" None.
Definition http_post (url body : string) : HttpRequest := mkHttpRequest "POST" url [] body None.

Definition body_utf8 (r : HttpResponse) : option string := from_utf8 (as_bytes (hp_body r)).

Inductive HttpTransportErrorKind :=
  | KInvalidUrl | KUnsupportedScheme | KRequestBuild | KHeaderName | KHeaderValue | KRequest | KTimeout | KBodyRead.

(** The [snake_case] names. *)
Definition kind_to_string (k : HttpTransportErrorKind) : string :=
  match k with
  | KInvalidUrl => "invalid_url" | KUnsupportedScheme => "unsupported_scheme" | KRequestBuild => "request_build"
  | KHeaderName => "header_name" | KHeaderValue => "header_value" | KRequest => "request" | KTimeout => "timeout"
  | KBodyRead => "body_read"
  end.

Inductive HttpError :=
  | EInvalidUrl (url : string)
  | EUnsupportedScheme (url : string)
  | ERequestBuild (msg : string)
  | EHeaderName (msg : string)
  | EHeaderValue (msg : string)
  | ERequest (msg : string)
  | ETimeout (d : Z)
  | EBodyRead (msg : string).

Definition transport_error_kind (e : HttpError) : HttpTransportErrorKind :=
  match e with
  | EInvalidUrl _ => KInvalidUrl
  | EUnsupportedScheme _ => KUnsupportedScheme
  | ERequestBuild _ => KRequestBuild
  | EHeaderName _ => KHeaderName
  | EHeaderValue _ => KHeaderValue
  | ERequest _ => KRequest
  | ETimeout _ => KTimeout
  | EBodyRead _ => KBodyRead
  end.

(** ** util.rs *)
Definition has_header (headers : list (string * string)) (name : string) : bool :=
  existsb (λ p, eq_ignore_ascii_case p.1 name) headers.

Definition slen (s : string) : Z := Z.of_nat (len s).

Inductive Version := HTTP_09 | HTTP_10 | HTTP_11 | HTTP_2 | HTTP_3.
Definition version_str (v : Version) : string :=
  match v with
  | HTTP_10 => "HTTP/1.0" | HTTP_11 => "HTTP/1.1" | HTTP_2 => "HTTP/2" | HTTP_3 => "HTTP/3"
  | HTTP_09 => "HTTP/1.1"
  end.

Section client.
Context {HL : HttpLib}.

Definition host_header_value (parsed : Url) : option string :=
  host ← url_host_str parsed;
  Some (match url_port parsed with
        | Some port => if (port =? 80)%Z then host else host ++ ":" ++ show port
        | None => host
        end)%string.

(** ** estimate.rs *)
Definition estimate_http1_header_bytes (name value : string) : Z :=
  u64_sat_add (u64_sat_add (u64_sat_add (slen name) 2) (slen value)) 2.

(** [uri]: the path and query of the [Uri]. *)
Definition estimate_http1_request_line_bytes (method : string) (uri : option string) : Z :=
  let path_len := slen (default "/" uri)%string in
  u64_sat_add (u64_sat_add (u64_sat_add (u64_sat_add (u64_sat_add (slen method) 1) path_len) 1) (slen "HTTP/1.1")) 2.

Definition estimate_http_request_bytes_parts (method url : string) (headers : list (string * string))
    (body_len : Z) : result HttpError Z :=
  parsed ← ok_or (url_parse url) (EInvalidUrl url);
  if negb (bool_decide (url_scheme parsed = "http"))%string && negb (bool_decide (url_scheme parsed = "https"))%string
  then Err (EUnsupportedScheme url)
  else
    uri ← ok_or (uri_parse url) (EInvalidUrl url);
    let bytes := u64_sat_add 0 (estimate_http1_request_line_bytes method uri) in
    let bytes := foldl (λ b p, u64_sat_add b (estimate_http1_header_bytes p.1 p.2)) bytes headers in
    let bytes :=
      if negb (has_header headers "host") then
        match host_header_value parsed with
        | Some host => u64_sat_add bytes (estimate_http1_header_bytes "host" host)
        | None => bytes
        end
      else bytes in
    let bytes :=
      if negb (body_len =? 0) && negb (has_header headers "content-length") then
        u64_sat_add bytes (estimate_http1_header_bytes "content-length" (show body_len))
      else bytes in
    Ok (u64_sat_add (u64_sat_add bytes 2) body_len).

Definition estimate_http_request_bytes (req : HttpRequest) : result HttpError Z :=
  estimate_http_request_bytes_parts (hq_method req) (hq_url req) (hq_headers req) (slen (hq_body req)).

(** [status.as_str()]: three digits. *)
Definition estimate_http1_status_line_bytes (version : Version) (status : Z) : Z :=
  u64_sat_add (u64_sat_add (u64_sat_add (slen (version_str version)) 1) (slen (show status))) 2.

Definition estimate_http1_response_head_bytes (version : Version) (status : Z) (headers : list (string * string)) : Z :=
  let bytes := u64_sat_add 0 (estimate_http1_status_line_bytes version status) in
  let bytes := foldl (λ b p, u64_sat_add b (estimate_http1_header_bytes p.1 p.2)) bytes headers in
  u64_sat_add bytes 2.

(** ** client.rs *)

(** What the builder makes: the implicit headers first. *)
Record WireRequest := mkWire {
  wr_method : string;
  wr_uri : option string;
  wr_headers : list (string * string);
  wr_body : string }.

(** The answer: the head, then the body, which can fail on its own. *)
Record Answer := mkAnswer {
  an_version : Version;
  an_status : Z;
  an_headers : list (string * string);
  an_body : result string string }.

Definition implicit_headers (parsed : Url) (req : HttpRequest) : list (string * string) :=
  (if negb (has_header (hq_headers req) "host") then
     match host_header_value parsed with Some host => [("host", host)] | None => [] end
   else []) ++
  (if negb (bool_decide (hq_body req = "")) && negb (has_header (hq_headers req) "content-length") then
     [("content-length", show (slen (hq_body req)))]
   else [])%string.

(** The loop over the headers, each name and value checked in turn. *)
Fixpoint check_headers (headers : list (string * string)) : result HttpError unit :=
  match headers with
  | [] => Ok tt
  | (k, v) :: headers =>
      if negb (header_name_ok k) then Err (EHeaderName "invalid HTTP header name")
      else if negb (header_value_ok v) then Err (EHeaderValue "failed to parse header value")
      else check_headers headers
  end.

(** A bad implicit header is kept by the builder and reported by [body]. *)
Definition build_request (parsed : Url) (uri : option string) (req : HttpRequest) : result HttpError WireRequest :=
  let implicit := implicit_headers parsed req in
  _ ← check_headers (hq_headers req);
  if forallb (λ p, header_value_ok p.2) implicit then
    Ok (mkWire (hq_method req) uri (implicit ++ hq_headers req) (hq_body req))
  else Err (ERequestBuild "failed to parse header value").

(** [merged.entry(key).and_modify(..).or_insert(v)]. *)
Definition merge_header (m : list (string * string)) (p : string * string) : list (string * string) :=
  let key := lowercase p.1 in
  let v := to_string_lossy p.2 in
  match map_get key m with
  | Some cur => btree_insert key (if bool_decide (cur = "") then cur ++ v else cur ++ ", " ++ v)%string m
  | None => btree_insert key v m
  end.

(** [inner]: the head of the answer and how long it takes to come. *)
Definition request (inner : WireRequest → Z * result string Answer) (req : HttpRequest) : result HttpError HttpResponse :=
  parsed ← ok_or (url_parse (hq_url req)) (EInvalidUrl (hq_url req));
  if negb (bool_decide (url_scheme parsed = "http"))%string && negb (bool_decide (url_scheme parsed = "https"))%string
  then Err (EUnsupportedScheme (hq_url req))
  else
    bytes_sent ← estimate_http_request_bytes_parts (hq_method req) (hq_url req) (hq_headers req) (slen (hq_body req));
    uri ← ok_or (uri_parse (hq_url req)) (EInvalidUrl (hq_url req));
    wire ← build_request parsed uri req;
    let '(after, res) := inner wire in
    res ← match hq_timeout req with
          | Some timeout => if after <=? timeout then map_err ERequest res else Err (ETimeout timeout)
          | None => map_err ERequest res
          end;
    let headers := foldl merge_header [] (an_headers res) in
    let head_bytes := estimate_http1_response_head_bytes (an_version res) (an_status res) (an_headers res) in
    body ← map_err EBodyRead (an_body res);
    Ok (mkHttpResponse (an_status res) body headers bytes_sent (u64_sat_add head_bytes (slen body))).

(** ** The estimates are the sizes of the HTTP/1.1 text *)
Definition crlf : string := String (chr 13) (String (chr 10) "").
Definition header_line (p : string * string) : string := (p.1 ++ ": " ++ p.2 ++ crlf)%string.
Definition header_text (headers : list (string * string)) : string := foldr (λ p s, header_line p ++ s)%string "" headers.

Definition request_text (w : WireRequest) : string :=
  (wr_method w ++ " " ++ default "/" (wr_uri w) ++ " HTTP/1.1" ++ crlf ++ header_text (wr_headers w) ++ crlf ++ wr_body w)%string.

(** Without reason phrase. *)
Definition response_text (version : Version) (status : Z) (headers : list (string * string)) (body : string) : string :=
  (version_str version ++ " " ++ show status ++ crlf ++ header_text headers ++ crlf ++ body)%string.

Lemma slen_app a b : slen (a ++ b) = slen a + slen b.
Proof. unfold slen. rewrite len_app. lia. Qed.
Lemma slen_nonneg s : 0 ≤ slen s.
Proof. unfold slen. lia. Qed.
Lemma slen_crlf : slen crlf = 2.
Proof. done. Qed.

Lemma cap_add a b : 0 ≤ a → 0 ≤ b → u64_sat_add (Z.min u64_max a) b = Z.min u64_max (a + b).
Proof. ints. lia. Qed.
Lemma cap_add_r a b : 0 ≤ a → 0 ≤ b → u64_sat_add (Z.min u64_max a) (Z.min u64_max b) = Z.min u64_max (a + b).
Proof. ints. lia. Qed.
Lemma cap_plain a b : u64_sat_add a b = Z.min u64_max (a + b).
Proof. done. Qed.

Lemma header_line_len p : slen (header_line p) = slen p.1 + 2 + slen p.2 + 2.
Proof. unfold header_line. rewrite !slen_app, slen_crlf. change (slen ": ") with 2. lia. Qed.

Lemma header_bytes p : estimate_http1_header_bytes p.1 p.2 = Z.min u64_max (slen (header_line p)).
Proof.
  unfold estimate_http1_header_bytes. pose proof (slen_nonneg p.1). pose proof (slen_nonneg p.2).
  rewrite header_line_len, (cap_plain (slen p.1) 2), !cap_add by lia. done.
Qed.

Lemma header_bytes_pair name value :
  estimate_http1_header_bytes name value = Z.min u64_max (slen (header_line (name, value))).
Proof. apply (header_bytes (name, value)). Qed.

Lemma header_text_app a b : header_text (a ++ b) = (header_text a ++ header_text b)%string.
Proof. induction a as [|p a IH]; [done|]. simpl. by rewrite IH, string_app_assoc. Qed.

Lemma headers_bytes headers b : 0 ≤ b →
  foldl (λ b p, u64_sat_add b (estimate_http1_header_bytes p.1 p.2)) (Z.min u64_max b) headers
    = Z.min u64_max (b + slen (header_text headers)).
Proof.
  revert b. induction headers as [|p headers IH]; intros b Hb; simpl.
  - change (slen "") with 0. by rewrite Z.add_0_r.
  - pose proof (slen_nonneg (header_line p)). rewrite header_bytes, cap_add_r, IH by lia.
    rewrite slen_app. f_equal. lia.
Qed.

Lemma request_line_bytes method uri :
  estimate_http1_request_line_bytes method uri
    = Z.min u64_max (slen (method ++ " " ++ default "/" uri ++ " HTTP/1.1" ++ crlf)%string).
Proof.
  unfold estimate_http1_request_line_bytes. rewrite !slen_app, slen_crlf.
  change (slen " HTTP/1.1") with 9. change (slen "HTTP/1.1") with 8. change (slen " ") with 1.
  pose proof (slen_nonneg method). pose proof (slen_nonneg (default "/" uri)%string).
  rewrite (cap_plain (slen method) 1), !cap_add by lia. f_equal. lia.
Qed.

Lemma empty_body b : (slen b =? 0) = bool_decide (b = "")%string.
Proof. destruct b as [|c b]; [done|]. rewrite bool_decide_false by done. apply Z.eqb_neq. unfold slen. simpl. lia. Qed.

(** The estimate counts the headers the builder adds. *)
Lemma estimate_wire parsed uri req w n :
  url_parse (hq_url req) = Some parsed → uri_parse (hq_url req) = Some uri → build_request parsed uri req = Ok w →
  estimate_http_request_bytes_parts (hq_method req) (hq_url req) (hq_headers req) (slen (hq_body req)) = Ok n →
  n = Z.min u64_max (slen (request_text w)).
Proof.
  unfold estimate_http_request_bytes_parts, build_request. intros -> Hu Hb. simpl.
  destruct (_ && _); [done|]. rewrite Hu. simpl. intros [= <-].
  apply bind_Ok in Hb as (u & _ & Hw). destruct (forallb _ _); [|done]. injection Hw as <-.
  unfold request_text. cbn [wr_method wr_uri wr_headers wr_body]. rewrite header_text_app.
  set (line := (hq_method req ++ " " ++ default "/" uri ++ " HTTP/1.1" ++ crlf)%string).
  pose proof (slen_nonneg line). pose proof (slen_nonneg (header_text (hq_headers req))).
  pose proof (slen_nonneg (hq_body req)).
  rewrite request_line_bytes. fold line. rewrite (cap_plain 0), Z.add_0_l.
  rewrite (Z.min_r u64_max (Z.min _ _)) by lia. rewrite headers_bytes by done.
  unfold implicit_headers. rewrite header_text_app, empty_body.
  destruct (negb (has_header (hq_headers req) "host")), (host_header_value parsed) as [host|],
    (negb (bool_decide (hq_body req = "")%string) && negb (has_header (hq_headers req) "content-length")).
  all: rewrite ?header_bytes_pair.
  all: repeat match goal with |- context [slen (header_line ?p)] =>
    lazymatch goal with H : 0 ≤ slen (header_line p) |- _ => fail | _ => pose proof (slen_nonneg (header_line p)) end end.
  all: rewrite ?cap_add_r, ?cap_add by lia.
  all: f_equal; rewrite <- !string_app_assoc; fold line; unfold line; cbn [header_text foldr].
  all: rewrite !slen_app, ?slen_crlf; change (slen "") with 0; lia.
Qed.

Lemma head_bytes version status headers :
  estimate_http1_response_head_bytes version status headers
    = Z.min u64_max (slen (version_str version ++ " " ++ show status ++ crlf ++ header_text headers ++ crlf)%string).
Proof.
  unfold estimate_http1_response_head_bytes, estimate_http1_status_line_bytes.
  pose proof (slen_nonneg (version_str version)). pose proof (slen_nonneg (show status)).
  pose proof (slen_nonneg (header_text headers)).
  rewrite (cap_plain (slen (version_str version)) 1), !cap_add by lia.
  rewrite (cap_plain 0), Z.add_0_l, (Z.min_r u64_max (Z.min _ _)) by lia.
  rewrite headers_bytes, cap_add by lia. rewrite !slen_app, slen_crlf. change (slen " ") with 1. f_equal. lia.
Qed.

(** An answer comes from a request that was built and an answer that was read. *)
Lemma request_inv inner req resp :
  request inner req = Ok resp →
  ∃ parsed uri w ans body,
    url_parse (hq_url req) = Some parsed ∧ uri_parse (hq_url req) = Some uri ∧
    build_request parsed uri req = Ok w ∧ (inner w).2 = Ok ans ∧ an_body ans = Ok body ∧
    resp = mkHttpResponse (an_status ans) body (foldl merge_header [] (an_headers ans))
      (Z.min u64_max (slen (request_text w)))
      (u64_sat_add (estimate_http1_response_head_bytes (an_version ans) (an_status ans) (an_headers ans)) (slen body)).
Proof.
  unfold request. destruct (url_parse (hq_url req)) as [parsed|] eqn:Hp; simpl; [|done].
  destruct (negb _ && negb _); [done|]. rewrite bind_Ok. intros (n & Hn & H).
  destruct (uri_parse (hq_url req)) as [uri|] eqn:Hu; simpl in H; [|done].
  apply bind_Ok in H as (w & Hw & H). destruct (inner w) as [after res] eqn:Hi.
  apply bind_Ok in H as (ans & Ha & H). apply bind_Ok in H as (body & Hb & [= <-]).
  assert (res = Ok ans) as ->.
  { destruct (hq_timeout req) as [t|]; [destruct (after <=? t); [|done]|]; destruct res; simpl in Ha; congruence. }
  assert (an_body ans = Ok body) as Hbody by (destruct (an_body ans); simpl in Hb; congruence).
  exists parsed, uri, w, ans, body. rewrite Hi. split_and!; try done.
  by rewrite <- (estimate_wire parsed uri req w n Hp Hu Hw Hn).
Qed.

Lemma merge_headers_ok l m : btree_ok m → btree_ok (foldl merge_header m l).
Proof.
  revert m. induction l as [|p l IH]; intros m Hm; simpl; [done|]. apply IH. unfold merge_header.
  destruct (map_get _ m); by apply btree_insert_ok.
Qed.

(** What the callers rely on. *)
Lemma answer_sane inner req resp :
  request inner req = Ok resp →
  0 ≤ hp_bytes_sent resp ∧ 0 ≤ hp_bytes_received resp ∧ btree_ok (hp_headers resp).
Proof.
  intros (parsed & uri & w & ans & body & _ & _ & _ & _ & _ & ->)%request_inv. simpl.
  rewrite head_bytes, cap_add by apply slen_nonneg. pose proof (slen_nonneg (request_text w)).
  pose proof (slen_nonneg body). split_and!; [ints; lia| |apply merge_headers_ok; split; constructor].
  match goal with |- context [slen ?x + _] => pose proof (slen_nonneg x) end. ints. lia.
Qed.

(** The byte counts of a request are the sizes of its HTTP/1.1 text.  When
    the client answers, the bytes sent are the length of the request line,
    the headers of the very request it built (the implicit host and
    content-length included), the empty line and the body, and the bytes
    received the length of the status line, headers, empty line and body of the
    answer, both capped at 64 bits. *)
Theorem byte_counts_exact inner req resp :
  request inner req = Ok resp →
  ∃ parsed uri w ans body,
    url_parse (hq_url req) = Some parsed ∧ uri_parse (hq_url req) = Some uri ∧
    build_request parsed uri req = Ok w ∧ (inner w).2 = Ok ans ∧ an_body ans = Ok body ∧
    hp_status resp = an_status ans ∧ hp_body resp = body ∧
    hp_bytes_sent resp = Z.min u64_max (slen (request_text w)) ∧
    hp_bytes_received resp =
      Z.min u64_max (slen (response_text (an_version ans) (an_status ans) (an_headers ans) body)).
Proof.
  intros (parsed & uri & w & ans & body & Hp & Hu & Hw & Hi & Hb & ->)%request_inv.
  exists parsed, uri, w, ans, body. split_and!; try done; simpl.
  rewrite head_bytes, cap_add by apply slen_nonneg. unfold response_text. f_equal.
  rewrite !slen_app, slen_crlf. lia.
Qed.
End client.

(** ** Witness *)
#[local] Instance demo_lib : HttpLib := {|
  Url := string;
  url_parse s := Some s;
  url_scheme _ := "http";
  url_host_str _ := Some "localhost";
  url_port _ := Some 8080;
  url_join _ s := Some s;
  url_append_pairs u _ := u;
  url_to_string u := u;
  uri_parse _ := Some (Some "/login");
  header_name_ok _ := true;
  header_value_ok _ := true |}%string.

Definition demo_request : HttpRequest := mkHttpRequest "POST" "http://localhost:8080/login" [("accept", "*/*")] "hello" None.
Definition demo_inner (w : WireRequest) : Z * result string Answer :=
  (5, Ok (mkAnswer HTTP_11 200 [("x", "1"); ("x", "2")] (Ok "ok")))%string.
Definition demo_response : HttpResponse := mkHttpResponse 200 "ok" [("x", "1, 2")] 83 30.

Lemma byte_counts_exact_witness :
  hp_bytes_sent demo_response = 83 ∧
  ∃ parsed uri w ans body,
    url_parse (hq_url demo_request) = Some parsed ∧ uri_parse (hq_url demo_request) = Some uri ∧
    build_request parsed uri demo_request = Ok w ∧ (demo_inner w).2 = Ok ans ∧ an_body ans = Ok body ∧
    hp_status demo_response = an_status ans ∧ hp_body demo_response = body ∧
    hp_bytes_sent demo_response = Z.min u64_max (slen (request_text w)) ∧
    hp_bytes_received demo_response =
      Z.min u64_max (slen (response_text (an_version ans) (an_status ans) (an_headers ans) body)).
Proof. split; [done|]. apply byte_counts_exact. vm_compute. reflexivity. Defined.
