(* ===== verification/HttpModule.v ===== *)
(** * The module [wrkr/http] of a script (wrkr-lua/src/modules/http.rs, http/opts.rs,
    http/url.rs, http/result.rs)

    One call: the options are read, the URL and the tags put together, the
    request sent by the client of HttpClient.v and recorded, and the answer
    made a table.  Other users may record between the call and its recording,
    so the registry is the one at that moment. *)
From Stdlib Require Import SpecFloat.
From S2P Require Import Prelude Coll Std F64 Config Text Key Tags Metrics Registry Agg Requests Checks Serde.
From S2P Require Import Thresholds ThresholdsEval Summary Report Value Coerce Durations YamlText Lua LuaOptions HttpClient.

Local Open Scope Z_scope.

(** [Debug] of a [Duration]: the largest unit, the fraction without trailing
    zeros. *)
Fixpoint trim_zeros (fuel : nat) (frac digits : Z) : Z * Z :=
  match fuel with
  | O => (frac, digits)
  | S fuel => if frac mod 10 =? 0 then trim_zeros fuel (frac / 10) (digits - 1) else (frac, digits)
  end.
Definition pad_left (width : nat) (s : string) : string := (zeros (width - len s) ++ s)%string.
Definition decimal (int frac digits : Z) (suffix : string) : string :=
  if frac =? 0 then (show int ++ suffix)%string
  else
    let '(frac, digits) := trim_zeros 9 frac digits in
    (show int ++ "." ++ pad_left (Z.to_nat digits) (show frac) ++ suffix)%string.
Definition debug_duration (d : Z) : string :=
  if Duration.NANOS_PER_SEC <=? d then decimal (d / 10 ^ 9) (d mod 10 ^ 9) 9 "s"
  else if 10 ^ 6 <=? d then decimal (d / 10 ^ 6) (d mod 10 ^ 6) 6 "ms"
  else if 10 ^ 3 <=? d then decimal (d / 10 ^ 3) (d mod 10 ^ 3) 3 (micro_s)
  else show d ++ "ns".

(** error.rs: the messages. *)
Definition http_error_to_string (e : HttpError) : string :=
  match e with
  | EInvalidUrl u => "invalid url: " ++ u
  | EUnsupportedScheme u => "unsupported URL scheme: " ++ u ++ " (only http:// and https:// are supported)"
  | ERequestBuild m => "http request build failed: " ++ m
  | EHeaderName m => "invalid http header name: " ++ m
  | EHeaderValue m => "invalid http header value: " ++ m
  | ERequest m => "http request failed: " ++ m
  | ETimeout d => "http request timed out after " ++ debug_duration d
  | EBodyRead m => "failed to read response body: " ++ m
  end%string.

Section module.
Context {T : Type} {L : LuaTables T} {Hu : Humantime} {HL : HttpLib} {H : HistOps} {M : MapIter}.

Local Notation result A := (result LuaError.t A).

(** ** opts.rs *)
Record HttpRequestOptions := mkHttpOptions {
  ho_headers : list (string * string);
  ho_params : list (string * string);
  ho_timeout : option Z;
  ho_tags : list (string * string);
  ho_name : option string }.

(** The values of headers and parameters; tags also take booleans. *)
Definition plain_text (v : LuaValue T) : option string :=
  match v with
  | LString s => Some (Lua.to_string_lossy s)
  | LInteger i => Some (show_Z i)
  | LNumber n => Some (show_f64 (f64_from_bits n))
  | _ => None
  end.
Definition tag_text (v : LuaValue T) : option string :=
  match v with
  | LBoolean b => Some (if b then "true" else "false")%string
  | _ => plain_text v
  end.

Definition text_pair (text : LuaValue T → option string) (p : LuaValue T * LuaValue T) :
    result (option (string * string)) :=
  Ok (match p.1 with LString k => v ← text p.2; Some (Lua.to_string_lossy k, v) | _ => None end).

(** [if let Ok(t) = opts.get::<Table>(key)] and the loop over its pairs. *)
Definition text_pairs (text : LuaValue T → option string) (key : string) (opts : T) : result (list (string * string)) :=
  match get_table opts key with
  | Some t => collect (text_pair text) (tbl_pairs t)
  | None => Ok []
  end.

Definition parse_timeout (v : Prelude.result string (LuaValue T)) : result (option Z) :=
  match v with
  | Err _ | Ok LNil => Ok None
  | Ok v => Some <$> duration_of LuaError.InvalidDuration v
  end.

Definition parse_name (v : Prelude.result string (LuaValue T)) : option string :=
  match v with Ok v => plain_text v | Err _ => None end.

Definition parse_http_opts (opts : option T) : result HttpRequestOptions :=
  match opts with
  | None => Ok (mkHttpOptions [] [] None [] None)
  | Some opts =>
      headers ← text_pairs plain_text "headers" opts;
      params ← text_pairs plain_text "params" opts;
      timeout ← parse_timeout (tbl_get opts "timeout");
      tags ← text_pairs tag_text "tags" opts;
      Ok (mkHttpOptions headers params timeout tags (parse_name (tbl_get opts "name")))
  end.

(** ** url.rs *)
Definition EnvVars : Type := list (string * string).
Definition env_get (env : EnvVars) (key : string) : option string :=
  snd <$> List.find (λ p, bool_decide (p.1 = key)) env.

Definition resolve_base_url (env : EnvVars) (url : string) : string :=
  match find "://" url with
  | Some _ => url
  | None =>
      match env_get env "BASE_URL" with
      | None => url
      | Some base =>
          match url_parse base with
          | None => url
          | Some base_url => default url (url_to_string <$> url_join base_url url)
          end
      end
  end.

Definition apply_params_owned (url : string) (params : list (string * string)) : string :=
  if is_empty params then url
  else match url_parse url with
       | None => url
       | Some u => url_to_string (url_append_pairs u params)
       end.

(** Without a scheme the parameters are dropped, whatever the base. *)
Lemma relative_url_loses_params env url params :
  url_parse url = None → resolve_base_url env (apply_params_owned url params) = resolve_base_url env url.
Proof. unfold apply_params_owned. intros ->. by destruct (is_empty params). Qed.

(** ** result.rs *)
Record HttpLuaResponse := mkLuaResponse {
  lr_status : Z;
  lr_body : string;
  lr_headers : list (string * string);
  lr_error : option string }.

Definition response_ok (res : HttpResponse) : HttpLuaResponse :=
  mkLuaResponse (hp_status res) (default "" (body_utf8 res))%string (hp_headers res) None.
Definition response_err (err : HttpError) : HttpLuaResponse :=
  mkLuaResponse 0 "" [] (Some (http_error_to_string err)).

Definition set_key (key : string) (v : LuaValue T) (t : T) : result T := lua_try (tbl_set (LString key) v t).

Fixpoint set_strings (l : list (string * string)) (t : T) : result T :=
  match l with
  | [] => Ok t
  | (k, v) :: l => t ← set_key k (LString v) t; set_strings l t
  end.

Definition into_lua_table (r : HttpLuaResponse) : result T :=
  t ← set_key "status" (LInteger (lr_status r)) create_table;
  t ← set_key "body" (LString (lr_body r)) t;
  headers ← set_strings (lr_headers r) create_table;
  t ← set_key "headers" (LTable headers) t;
  match lr_error r with Some e => set_key "error" (LString e) t | None => Ok t end.

(** ** http.rs *)

(** [tags.retain(|(k, _)| k != key); tags.push((key, v))]. *)
Definition replace_tag (key v : string) (tags : list (string * string)) : list (string * string) :=
  filter (λ p, p.1 ≠ key) tags ++ [(key, v)].

Definition http_tags (ctx : MetricsContext) (group : option string) (method : string) (opts : HttpRequestOptions) :
    list (string * string) :=
  let tags := replace_tag "method" method (ho_tags opts) in
  let tags := match ho_name opts with Some name => replace_tag "name" name tags | None => tags end in
  let tags := merge_scenario_tags_if_missing ctx ["scenario"; "protocol"; "error_kind"; "group"]%string tags in
  match group with
  | Some g => if has_key "group" tags then tags else tags ++ [("group"%string, g)]
  | None => tags
  end.

Definition add_content_type (value : string) (headers : list (string * string)) : list (string * string) :=
  if has_header headers "content-type" then headers else headers ++ [("content-type"%string, value)].

(** The headers and the bytes of the body; [json_encode] is serde's. *)
Definition body_bytes (json_encode : LuaValue T → Prelude.result string string) (body : option (LuaValue T))
    (headers : list (string * string)) : result (list (string * string) * string) :=
  match body with
  | None | Some LNil => Ok (headers, ""%string)
  | Some (LString s) => Ok (add_content_type "text/plain; charset=utf-8" headers, s)
  | Some v =>
      bytes ← lua_try (json_encode v);
      Ok (add_content_type "application/json; charset=utf-8" headers, bytes)
  end.

Definition request_sample (ctx : MetricsContext) (elapsed : Z) (res : Prelude.result HttpError HttpResponse) :
    RequestSample :=
  match res with
  | Ok r => mkSample (mc_scenario ctx) Http true elapsed (hp_bytes_received r) (hp_bytes_sent r) None
  | Err e => mkSample (mc_scenario ctx) Http false elapsed 0 0 (Some (kind_to_string (transport_error_kind e)))
  end.

(** [request_impl]: [client] answers the request, [elapsed] later, when the
    registry is [r]. *)
Definition request_impl (json_encode : LuaValue T → Prelude.result string string) (env : EnvVars)
    (ids : RequestMetricIds) (ctx : MetricsContext) (group : option string)
    (client : HttpRequest → Prelude.result HttpError HttpResponse) (elapsed : Z)
    (method url : string) (body : option (LuaValue T)) (opts : option T) (r : Registry) : result T * Registry :=
  match parse_http_opts opts with
  | Err e => (Err e, r)
  | Ok opts =>
      let request_url := resolve_base_url env (apply_params_owned url (ho_params opts)) in
      let extra_tags := http_tags ctx group method opts in
      match body_bytes json_encode body (ho_headers opts) with
      | Err e => (Err e, r)
      | Ok (headers, bytes) =>
          let res := client (mkHttpRequest method request_url headers bytes (ho_timeout opts)) in
          let r := record_request ids (request_sample ctx elapsed res) extra_tags r in
          (into_lua_table match res with Ok res => response_ok res | Err e => response_err e end, r)
      end
  end.
End module.

(** ** What a script sees *)
Section view.
Context {T : Type} {L : LuaTables T} {W : LuaLaws T}.

Lemma set_key_plain key v t es :
  plain t es → LString key ∉ es.*1 → v ≠ LNil → ∃ t', set_key key v t = Ok t' ∧ plain t' (es ++ [(LString key, v)]).
Proof.
  intros Hp Hn Hv. destruct (plain_set t es (LString key) v Hp I Hn Hv) as (t' & Ht & Hp').
  exists t'. unfold set_key. by rewrite Ht.
Qed.

Definition string_entries (l : list (string * string)) : list (LuaValue T * LuaValue T) :=
  (λ p, (LString p.1, LString p.2)) <$> l.

Lemma string_entries_keys l k : LString k ∈ (string_entries l).*1 ↔ k ∈ l.*1.
Proof.
  unfold string_entries. induction l as [|[k' v'] l IH]; csimpl; [set_solver|].
  rewrite !elem_of_cons, IH. split; (intros [Heq|?]; [left; congruence|by right]).
Qed.

Lemma set_strings_plain l t es :
  plain t es → NoDup l.*1 → (∀ k, k ∈ l.*1 → LString k ∉ es.*1) →
  ∃ t', set_strings l t = Ok t' ∧ plain t' (es ++ string_entries l).
Proof.
  revert t es. induction l as [|[k v] l IH]; intros t es Hp Hd Hn; simpl.
  { exists t. unfold string_entries. csimpl. by rewrite app_nil_r. }
  csimpl in *. apply NoDup_cons in Hd as [Hk Hd].
  destruct (set_key_plain k (LString v) t es) as (t1 & -> & Hp1); [done|apply Hn; by left|done|]. simpl.
  destruct (IH t1 _ Hp1 Hd) as (t' & Ht & Hp').
  - intros k' Hk'. rewrite fmap_app, elem_of_app. csimpl. intros [Hin|Hin]; [by eapply Hn; [right|]|].
    apply list_elem_of_singleton in Hin as [= ->]. done.
  - exists t'. split; [done|]. unfold string_entries in *. csimpl. by rewrite <- app_assoc in Hp'.
Qed.

Lemma string_entries_NoDup l : NoDup l.*1 → NoDup (string_entries l).*1.
Proof.
  induction l as [|[k v] l IH]; csimpl; [constructor|]. intros [Hk Hd]%NoDup_cons. constructor; [|by apply IH].
  by rewrite string_entries_keys.
Qed.

(** The table of a response holds its parts, and the headers by name. *)
Lemma response_table r :
  NoDup (lr_headers r).*1 →
  ∃ t h, into_lua_table r = Ok t ∧
    tbl_get t "status" = Ok (LInteger (lr_status r)) ∧ tbl_get t "body" = Ok (LString (lr_body r)) ∧
    tbl_get t "headers" = Ok (LTable h) ∧
    (∀ k v, (k, v) ∈ lr_headers r → tbl_get h k = Ok (LString v)) ∧
    tbl_get t "error" = Ok match lr_error r with Some e => LString e | None => LNil end.
Proof.
  intros Hd. unfold into_lua_table.
  destruct (set_key_plain "status" (LInteger (lr_status r)) create_table [] plain_new) as (t1 & -> & P1); [set_solver|done|].
  simpl. destruct (set_key_plain "body" (LString (lr_body r)) t1 _ P1) as (t2 & -> & P2); [set_solver|done|].
  destruct (set_strings_plain (lr_headers r) create_table [] plain_new Hd) as (h & -> & Ph); [set_solver|].
  simpl. destruct (set_key_plain "headers" (LTable h) t2 _ P2) as (t3 & -> & P3); [set_solver|done|].
  simpl in *. assert (∀ k v, (k, v) ∈ lr_headers r → tbl_get h k = Ok (LString v)) as Hh.
  { intros k v Hin. eapply plain_get; [exact Ph|by apply string_entries_NoDup|].
    apply list_elem_of_fmap. by exists (k, v). }
  destruct (lr_error r) as [e|].
  - destruct (set_key_plain "error" (LString e) t3 _ P3) as (t4 & -> & P4); [set_solver|done|].
    exists t4, h. simpl in P4.
    assert (NoDup [LString "status"; LString "body"; LString "headers"; @LString T "error"]) as Hn.
    { repeat (apply NoDup_cons; split; [set_solver|]). apply NoDup_nil_2. }
    split_and!; try done; (eapply plain_get; [exact P4|exact Hn|set_solver]).
  - exists t3, h.
    assert (NoDup [LString "status"; LString "body"; @LString T "headers"]) as Hn.
    { repeat (apply NoDup_cons; split; [set_solver|]). apply NoDup_nil_2. }
    split_and!; try done; [eapply plain_get; [exact P3|exact Hn|set_solver]..|].
    eapply plain_get_absent; [exact P3|set_solver].
Qed.
End view.

(** ** Tags *)
Lemma sole_replace k v tags : sole k v (replace_tag k v tags).
Proof.
  unfold replace_tag. split; [apply elem_of_app; right; set_solver|].
  intros v' [[Hk _]%list_elem_of_filter|[= ->]%list_elem_of_singleton]%elem_of_app; done.
Qed.

Lemma sole_replace_other k v k' v' tags : sole k v tags → k' ≠ k → sole k v (replace_tag k' v' tags).
Proof.
  intros [Hin Hu] Hk. unfold replace_tag. split.
  - apply elem_of_app. left. apply list_elem_of_filter. split; [done|done].
  - intros w [[_ Hw]%list_elem_of_filter|[= -> ->]%list_elem_of_singleton]%elem_of_app; [by apply Hu|done].
Qed.

Lemma has_key_replace k k' v' tags : k' ≠ k → has_key k tags = false → has_key k (replace_tag k' v' tags) = false.
Proof.
  rewrite !has_key_false. intros Hk Hn v. unfold replace_tag.
  intros [[_ Hw]%list_elem_of_filter|[= -> ->]%list_elem_of_singleton]%elem_of_app; [by eapply Hn|done].
Qed.

(** What the tags of a request say. *)
Lemma http_tags_sole ctx group method o :
  let tags := http_tags ctx group method o in
  sole "method" method tags ∧
  (∀ name, ho_name o = Some name → sole "name" name tags) ∧
  (∀ g, group = Some g → has_key "group" (ho_tags o) = false → sole "group" g tags).
Proof.
  cbv zeta. unfold http_tags. set (t1 := replace_tag "method" method (ho_tags o)).
  set (t2 := match ho_name o with Some name => replace_tag "name" name t1 | None => t1 end).
  set (t3 := merge_scenario_tags_if_missing ctx _ t2).
  assert (∀ k v, sole k v t2 → k ≠ "group"%string → sole k v match group with
    | Some g => if has_key "group" t3 then t3 else t3 ++ [("group"%string, g)] | None => t3 end) as Hfin.
  { intros k v Hs Hk. assert (sole k v t3) as H3 by by apply sole_merge.
    destruct group as [g|]; [|done]. destruct (has_key "group" t3) eqn:E; [done|]. by apply sole_add. }
  split_and!.
  - apply Hfin; [|done]. unfold t2. destruct (ho_name o) as [name|]; [apply sole_replace_other; [|done]|];
      apply sole_replace.
  - intros name Hn. apply Hfin; [|done]. unfold t2. rewrite Hn. apply sole_replace.
  - intros g -> Hk. assert (has_key "group" t3 = false) as H3; [|rewrite H3; by apply sole_absent].
    apply has_key_merge; [set_solver|]. unfold t2. destruct (ho_name o); repeat (apply has_key_replace; [done|]); done.
Qed.

Section recorded.
Context {T : Type} {L : LuaTables T} {W : LuaLaws T} {Hu : Humantime} {HL : HttpLib} {H : HistOps} {M : MapIter}.

(** The total of a counter over the series that satisfy [pred]. *)
Definition counted (ids : RequestMetricIds) (s : RequestSample) (tp : TagSet) (r r' : Registry) : Prop :=
  ∀ m pred, m ∈ scoped ids → metric_sum count_of (λ _, true) m r + weight ids m s ≤ u64_max →
    metric_sum count_of pred m r' = metric_sum count_of pred m r + if pred tp then weight ids m s else 0.

Lemma recorded_counted ids s extra r :
  registry_wf r → ids_ok ids r → sample_ok s → reg_capacity (record_request ids s extra r) →
  ∃ tp, registry_wf (record_request ids s extra r) ∧ counted ids s tp r (record_request ids s extra r) ∧
    has_tag (record_request ids s extra r) tp "scenario" (rq_scenario s) ∧
    has_tag (record_request ids s extra r) tp "protocol" (as_str (rq_protocol s)) ∧
    ∀ k v, k ∉ request_reserved → sole k v extra → has_tag (record_request ids s extra r) tp k v.
Proof.
  intros Hwf Hids Hs Hcap. destruct (record_request_tags ids s extra r Hwf Hids Hs Hcap) as (tp & tk & E & Ht).
  pose proof Hids as (Hc & Hnd & _). exists tp. split_and!.
  - apply E.
  - intros m pred Hm Hmax. rewrite <- (eff_sample ids tp tk s m pred Hnd Hm). apply E.
    + apply (proj1 (Forall_forall _ _) Hc). unfold scoped, counters in *. set_solver.
    + by rewrite (eff_sample ids tp tk s m (λ _, true) Hnd Hm).
  - apply Ht; [apply elem_of_app; left; set_solver|].
    intros v' [Hb|[Hf _]%list_elem_of_filter]%elem_of_app; set_solver.
  - apply Ht; [apply elem_of_app; left; set_solver|].
    intros v' [Hb|[Hf _]%list_elem_of_filter]%elem_of_app; set_solver.
  - intros k v Hk [Hin Hu']. apply Ht; [apply elem_of_app; right; by apply list_elem_of_filter|].
    intros v' [Hb|[_ Hf]%list_elem_of_filter]%elem_of_app; [set_solver|by apply Hu'].
Qed.

(** A request sent through the client is recorded once. *)
Definition request_seen (ids : RequestMetricIds) (ctx : MetricsContext) (group : option string) (elapsed : Z)
    (method : string) (o : HttpRequestOptions) (res : Prelude.result HttpError HttpResponse) (r r' : Registry) : Prop :=
  ∃ tp, registry_wf r' ∧ counted ids
      match res with
      | Ok a => mkSample (mc_scenario ctx) Http true elapsed (hp_bytes_received a) (hp_bytes_sent a) None
      | Err e => mkSample (mc_scenario ctx) Http false elapsed 0 0 (Some (kind_to_string (transport_error_kind e)))
      end tp r r' ∧
    has_tag r' tp "scenario" (mc_scenario ctx) ∧ has_tag r' tp "protocol" "http" ∧ has_tag r' tp "method" method ∧
    (∀ name, ho_name o = Some name → has_tag r' tp "name" name) ∧
    (∀ g, group = Some g → has_key "group" (ho_tags o) = false → has_tag r' tp "group" g).

(** What the script gets for an answer or an error. *)
Definition answer_seen (res : Prelude.result HttpError HttpResponse) (out : result LuaError.t T) : Prop :=
  ∃ t h, out = Ok t ∧ tbl_get t "headers" = Ok (LTable h) ∧
    match res with
    | Ok a => tbl_get t "status" = Ok (LInteger (hp_status a)) ∧
        tbl_get t "body" = Ok (LString (default "" (body_utf8 a))%string) ∧ tbl_get t "error" = Ok LNil ∧
        ∀ k v, (k, v) ∈ hp_headers a → tbl_get h k = Ok (LString v)
    | Err e => tbl_get t "status" = Ok (LInteger 0) ∧ tbl_get t "body" = Ok (LString "") ∧
        tbl_get t "error" = Ok (LString (http_error_to_string e))
    end.

End recorded.

(** ** Witness *)
#[local] Existing Instance demo_lib.
Definition demo_ctx : MetricsContext := mkMetricsContext "main" [("team", "a"); ("group", "x")]%string.
Definition demo_opts : Tree := Node [(LString "name", LString "login"); (LString "timeout", LInteger 2)].
Definition demo_json (v : LuaValue Tree) : Prelude.result string string := Err "cannot encode"%string.

