(* ===== verification/MetricsModule.v ===== *)
(** * The modules [wrkr/group] and [wrkr/metrics] of a script
    (wrkr-lua/src/modules/group.rs, metrics.rs, metrics/opts.rs)

    A group is a named slot of the interpreter's registry, saved around the
    call of the group's function.  A custom metric is registered by name; an
    [add] resolves its tags, fetches the handle of the series and then looks at
    the value. *)
From Stdlib Require Import SpecFloat.
From S2P Require Import Prelude Coll Std F64 Config Text Key Tags Metrics Registry Agg Requests Checks.
From S2P Require Import Thresholds ThresholdsEval Summary Report Coerce Lua LuaOptions.

Local Open Scope Z_scope.

(** ** Groups *)
Section group.
Context {T : Type}.

(** The value in the slot. *)
Definition current_group (slot : LuaValue T) : option string :=
  match slot with LString s => Some (Lua.to_string_lossy s) | _ => None end.

Definition set_current_group (group : option string) : LuaValue T :=
  match group with None => LNil | Some g => LString g end.

(** [group.group(name, f)]: [f] is any function on the interpreter, whose state
    is [St] and the slot. *)
Definition group_call {St A : Type} (name : string) (f : St * LuaValue T → result LuaError.t A * (St * LuaValue T))
    (st : St * LuaValue T) : result LuaError.t A * (St * LuaValue T) :=
  let prev := current_group st.2 in
  let '(res, st) := f (st.1, set_current_group (Some name)) in
  (res, (st.1, set_current_group prev)).

(** Whatever the function does, and whether or not it fails: the group is the
    given one when it starts and the previous one after it. *)
Lemma group_scoped {St A} name (f : St * LuaValue T → result LuaError.t A * (St * LuaValue T)) st :
  utf8_valid (as_bytes name) = true →
  (∀ prev, current_group st.2 = Some prev → utf8_valid (as_bytes prev) = true) →
  current_group (set_current_group (Some name)) = Some name ∧
  current_group (group_call name f st).2.2 = current_group st.2 ∧
  (group_call name f st).1 = (f (st.1, set_current_group (Some name))).1 ∧
  (group_call name f st).2.1 = (f (st.1, set_current_group (Some name))).2.1.
Proof.
  intros Hn Hp. unfold group_call. split; [simpl; by rewrite to_string_lossy_valid|].
  destruct (f _) as [res st']. simpl. split_and!; [|done..].
  destruct (current_group st.2) as [prev|] eqn:E; simpl; [|done].
  rewrite to_string_lossy_valid; [done|by apply Hp].
Qed.
End group.

Section metrics.
Context {T : Type} {L : LuaTables T} {H : HistOps} {M : MapIter}.

Local Notation result A := (result LuaError.t A).

(** ** metrics/opts.rs *)

(** Pairs that fail or are no strings to scalars are skipped. *)
Definition tag_of_pair (p : Prelude.result string (LuaValue T * LuaValue T)) : option (string * string) :=
  match p with
  | Ok (LString k, v) => v ← scalar_text v; Some (Lua.to_string_lossy k, v)
  | _ => None
  end.
Definition tags_from_lua (tags : option T) : list (string * string) :=
  match tags with None => [] | Some tags => omap tag_of_pair (tbl_pairs tags) end.

Definition add_group_tag_if_missing (group : option string) (tags : list (string * string)) : list (string * string) :=
  if has_key "group" tags then tags
  else match group with Some g => tags ++ [("group"%string, g)] | None => tags end.

(** [MetricAddLuaArgs::parse]: the tags. *)
Definition add_tags (ctx : MetricsContext) (group : option string) (tags : option T) : list (string * string) :=
  add_group_tag_if_missing group (merge_base_tags_if_missing ctx ["group"%string] (tags_from_lua tags)).

(** ** metrics.rs *)

(** The [match] on the kind of the table and the value: what is called on the
    handle. *)
Definition add_value (kind : MetricKind.t) (v : LuaValue T) : result (MetricHandle.t → list Cell → list Cell) :=
  match kind, v with
  | MetricKind.Counter, LInteger i =>
      if 0 <=? i then Ok (λ h, increment h i) else Err LuaError.InvalidMetricValue
  | MetricKind.Counter, LNumber n =>
      let n := f64_from_bits n in
      if negb (f_is_finite n) || flt n f_zero || negb (fract_is_zero n) || fgt n (of_Z u64_max)
      then Err LuaError.InvalidMetricValue
      else Ok (λ h, increment h (F64.to_u64 n))
  | MetricKind.Gauge, LInteger i => Ok (λ h, increment_gauge h i)
  | MetricKind.Gauge, LNumber n =>
      let n := f64_from_bits n in
      if negb (f_is_finite n) || negb (fract_is_zero n) || flt n (of_Z (- 2 ^ 63)) || fgt n (of_Z (2 ^ 63 - 1))
      then Err LuaError.InvalidMetricValue
      else Ok (λ h, increment_gauge h (F64.to_i64 n))
  | MetricKind.Rate, LBoolean b => Ok (λ h, add_rate h (if b then 1 else 0) 1)
  | MetricKind.Histogram, LInteger i =>
      if 0 <=? i then Ok (λ h, observe_histogram h i) else Err LuaError.InvalidMetricValue
  | MetricKind.Histogram, LNumber n =>
      let n := f64_from_bits n in
      if negb (f_is_finite n) || flt n f_zero || fgt n (of_Z u64_max)
      then Err LuaError.InvalidMetricValue
      else Ok (λ h, observe_histogram h (F64.to_u64 (F64.round n)))
  | _, _ => Err LuaError.InvalidMetricValue
  end.

(** [metric:add(value, tags)] of the table of [metric] and [kind]. *)
Definition metric_add (metric : MetricId) (kind : MetricKind.t) (ctx : MetricsContext) (group : option string)
    (value : LuaValue T) (tags : option T) (r : Registry) : result unit * Registry :=
  let '(tags, r) := resolve_tags (add_tags ctx group tags) r in
  match get_handle metric tags r with
  | (None, r) => (Ok tt, r)
  | (Some handle, r) =>
      match add_value kind value with
      | Ok f => (Ok tt, with_heap r (f handle (reg_heap r)))
      | Err e => (Err e, r)
      end
  end.

(** [metrics.Counter(name)] and its peers. *)
Definition make_metric (kind : MetricKind.t) (name : string) (r : Registry) : result MetricId * Registry :=
  if bool_decide (trim name = "")%string then (Err LuaError.InvalidMetricName, r)
  else let '(id, r) := register name kind r in (Ok id, r).
End metrics.

(** ** What an [add] does to the cells *)
Section cells.
Context {T : Type} {L : LuaTables T} {H : HistOps} {M : MapIter}.

#[local] Existing Instance MetricKind.eq_dec.

(** The cell of a series. *)
Definition cell_at (r : Registry) (id : MetricId) (tags : TagSet) : option Cell :=
  s ← storage_at r id tags; reg_heap r !! MetricStorage.location s.

Definition fresh_of (kind : MetricKind.t) : Cell :=
  match kind with
  | MetricKind.Counter => CCounter 0
  | MetricKind.Gauge => CGauge 0
  | MetricKind.Rate => CRate 0 0
  | MetricKind.Histogram => CHist new_default_histogram
  end.

(** What a value of the kind is worth. *)
Definition change (kind : MetricKind.t) (v : LuaValue T) : Cell → Cell :=
  match kind, v with
  | MetricKind.Counter, LInteger i => counter_fetch_add i
  | MetricKind.Counter, LNumber n => counter_fetch_add (F64.to_u64 (f64_from_bits n))
  | MetricKind.Gauge, LInteger i => gauge_fetch_add i
  | MetricKind.Gauge, LNumber n => gauge_fetch_add (F64.to_i64 (f64_from_bits n))
  | MetricKind.Rate, LBoolean b => rate_add (if b then 1 else 0) 1
  | MetricKind.Histogram, LInteger i => hist_observe i
  | MetricKind.Histogram, LNumber n => hist_observe (F64.to_u64 (F64.round (f64_from_bits n)))
  | _, _ => λ c, c
  end.

Lemma update_cell_id a h : update_cell a (λ c, c) h = h.
Proof. unfold update_cell. apply list_alter_id. done. Qed.

#[local] Opaque f64_from_bits F64.to_u64 F64.to_i64 F64.round f_is_finite fract_is_zero flt fgt.

(** The operation on the handle of a series of kind [k]: nothing when the kinds
    differ. *)
Lemma add_value_cell kind (v : LuaValue T) f s h :
  add_value kind v = Ok f →
  f (storage_to_handle s) h
    = update_cell (MetricStorage.location s) (if bool_decide (kind = storage_kind s) then change kind v else λ c, c) h.
Proof.
  intros Hf. unfold add_value, change in *.
  destruct kind, v; try done; repeat (match type of Hf with (if ?b then _ else _) = _ => destruct b; try done end);
    injection Hf as <-; destruct s; simpl;
    first [reflexivity | symmetry; apply update_cell_id].
Qed.

Lemma change_keeps kind v : keeps_type (change kind v).
Proof.
  assert (keeps_type (λ c : Cell, c)) as Hid by (intros []; done).
  destruct kind, v; simpl; auto using counter_fetch_add_keeps, gauge_fetch_add_keeps, rate_add_keeps, hist_observe_keeps.
Qed.

(** Resolving touches the interner only. *)
Lemma resolve_pairs_keeps tags r : ∃ i, (resolve_pairs tags r).2 = with_interner r i.
Proof.
  revert r. induction tags as [|[k v] tags IH]; intros r; simpl.
  { exists (reg_interner r). by destruct r. }
  unfold resolve_key. destruct (get_or_intern k _) as [kid i1]. destruct (get_or_intern v _) as [vid i2].
  destruct (IH (with_interner (with_interner r i1) i2)) as [i Hi].
  destruct (resolve_pairs tags _) as [l r3]. simpl in *. subst. by exists i.
Qed.
Lemma resolve_tags_keeps tags r : ∃ i, (resolve_tags tags r).2 = with_interner r i.
Proof.
  destruct (resolve_pairs_keeps tags r) as [i Hi]. unfold resolve_tags.
  destruct (resolve_pairs tags r). by exists i.
Qed.

(** A handle: the series exists afterwards, fresh if it did not, and no other
    cell changes. *)
Lemma get_handle_cells metric tags r d :
  registry_wf r → 0 ≤ metric → reg_defs r !! Z.to_nat metric = Some d →
  ∃ s r1, get_handle metric tags r = (Some (storage_to_handle s), r1) ∧
    registry_wf r1 ∧ reg_defs r1 = reg_defs r ∧ reg_interner r1 = reg_interner r ∧
    storage_at r1 metric tags = Some s ∧ storage_kind s = md_kind d ∧
    cell_at r1 metric tags = Some (default (fresh_of (md_kind d)) (cell_at r metric tags)) ∧
    ∀ id t, (id, t) ≠ (metric, tags) → cell_at r1 id t = cell_at r id t.
Proof.
  intros Hwf H0 Hd. pose proof (get_handle_spec metric tags r Hwf) as Hg.
  destruct (get_handle metric tags r) as [[h|] r1].
  2:{ destruct Hg as (_ & _ & _ & _ & Hn). destruct (proj2 (wf_storage _ Hwf metric)) as [? Hs]; [|congruence].
      split; [done|by eexists]. }
  destruct Hg as (Hwf1 & Hdefs & Hint & s & Hs & -> & Hother & Hcase). exists s, r1.
  destruct (wf_series _ Hwf1 _ _ _ Hs) as (Htyped & d' & Hd' & Hk).
  rewrite Hdefs, Hd in Hd'. injection Hd' as <-.
  assert (cell_at r1 metric tags = Some (default (fresh_of (md_kind d)) (cell_at r metric tags)) ∧
    ∀ id t, (id, t) ≠ (metric, tags) → cell_at r1 id t = cell_at r id t) as [Hcell Hcells].
  2:{ by split_and!. }
  destruct Hcase as [->|(Hnone & (c & Hheap & Hc) & Hloc & _)].
  - split; [|done]. unfold cell_at. rewrite Hs. simpl.
    destruct (lookup_lt_is_Some_2 (reg_heap r) (MetricStorage.location s)) as [c Hcl]; [by eapply series_lt|].
    by rewrite Hcl.
  - split.
    + unfold cell_at. rewrite Hs, Hnone. simpl. rewrite Hheap, Hloc, lookup_app_r, Nat.sub_diag by done.
      simpl. f_equal. rewrite Hheap in Htyped. rewrite <- Hk. clear -Hc Htyped Hloc.
      destruct s; simpl in *; rewrite Hloc, lookup_app_r, Nat.sub_diag in Htyped by done; simpl in *;
        naive_solver.
    + intros id t Hne. unfold cell_at. rewrite Hother by done.
      destruct (storage_at r id t) as [s'|] eqn:E; simpl; [|done].
      rewrite Hheap, lookup_app_l; [done|]. by eapply series_lt.
Qed.

(** Writing a cell of one series leaves the others. *)
Lemma update_cell_cells r s metric tags f :
  registry_wf r → storage_at r metric tags = Some s →
  let r' := with_heap r (update_cell (MetricStorage.location s) f (reg_heap r)) in
  cell_at r' metric tags = f <$> cell_at r metric tags ∧
  ∀ id t, (id, t) ≠ (metric, tags) → cell_at r' id t = cell_at r id t.
Proof.
  intros Hwf Hs. unfold cell_at. simpl. split.
  - change (storage_at (with_heap r _) metric tags) with (storage_at r metric tags). rewrite Hs. simpl.
    by rewrite lookup_update_cell, decide_True by done.
  - intros id t Hne. change (storage_at (with_heap r _) id t) with (storage_at r id t).
    destruct (storage_at r id t) as [s'|] eqn:E; simpl; [|done].
    rewrite lookup_update_cell, decide_False; [done|]. intros El.
    destruct (wf_disjoint _ Hwf _ _ _ _ _ _ E Hs) as [-> ->]; done.
Qed.

Lemma get_handle_strings metric tags r : strings (get_handle metric tags r).2 = strings r.
Proof. unfold strings. by rewrite get_handle_interner. Qed.

Lemma add_value_error kind (v : LuaValue T) e : add_value kind v = Err e → e = LuaError.InvalidMetricValue.
Proof.
  intros Hf. unfold add_value in Hf. destruct kind, v; try congruence;
    repeat (match type of Hf with (if ?b then _ else _) = _ => destruct b; try congruence end).
Qed.

(** The script's own tags are kept; the scenario and the group are added when
    it gave none. *)
Lemma add_tags_sole ctx group (tags : option T) :
  (∀ k v, sole k v (tags_from_lua tags) → sole k v (add_tags ctx group tags)) ∧
  (has_key "scenario" (tags_from_lua tags) = false → sole "scenario" (mc_scenario ctx) (add_tags ctx group tags)) ∧
  (∀ g, group = Some g → has_key "group" (tags_from_lua tags) = false → sole "group" g (add_tags ctx group tags)).
Proof.
  unfold add_tags, add_group_tag_if_missing, merge_base_tags_if_missing. set (own := tags_from_lua tags).
  rewrite (bool_decide_false ("scenario"%string ∈ ["group"%string])) by set_solver.
  change (negb false && negb (has_key "scenario" own)) with (negb (has_key "scenario" own)).
  set (base := if negb (has_key "scenario" own) then _ else own).
  set (all := merge_scenario_tags_if_missing ctx ["group"%string] base).
  assert (∀ k v, sole k v all → sole k v (if has_key "group" all then all
    else match group with Some g => all ++ [("group"%string, g)] | None => all end)) as Hfin.
  { intros k v Hs. destruct (has_key "group" all) eqn:E; [done|]. destruct group; [by apply sole_add|done]. }
  split_and!.
  - intros k v Hs. apply Hfin, sole_merge. unfold base. destruct (has_key "scenario" own) eqn:E; [done|]. by apply sole_add.
  - intros Hn. apply Hfin, sole_merge. unfold base. rewrite Hn. by apply sole_absent.
  - intros g -> Hn. assert (has_key "group" all = false) as ->; [|apply sole_absent].
    all: apply has_key_merge; [set_solver|]; unfold base; destruct (has_key "scenario" own); [done|]; simpl.
    all: rewrite has_key_false in *; intros v [Hin|[=]%list_elem_of_singleton]%elem_of_app; by eapply Hn.
Qed.

End cells.

(** ** Witness *)
Definition demo_metrics : Registry := (register "orders" MetricKind.Counter start).2.
Definition demo_metrics_tags : option Tree := Some (Node [(LString "route", LString "/buy"); (LInteger 1, LString "x")]).

Lemma demo_metrics_wf : registry_wf demo_metrics.
Proof.
  pose proof (register_spec "orders" MetricKind.Counter start start_wf ltac:(by vm_compute) ltac:(by vm_compute)) as Hs.
  unfold demo_metrics. destruct (register _ _ _). apply Hs.
Qed.

