(* ===== verification/GrpcClient.v ===== *)
(** * The gRPC client (wrkr-grpc: types.rs, kind.rs, error.rs, metadata.rs,
    codec_bytes.rs, client.rs)

    Opening the channels, and one unary call over one of them: the metadata, the
    choice of the channel, the outcome.  The transport is tonic's: endpoints and
    channels are a class of operations, what a channel answers an argument. *)
From S2P Require Import Prelude Coll Std Text Value Coerce Lua Wire Codec.

Local Open Scope Z_scope.

(** ** kind.rs, error.rs *)
Inductive GrpcTransportErrorKind :=
  | GInvalidEndpoint | GConnect | GMetadataKey | GMetadataValue | GInvalidMethodPath | GEncode | GDecode.

Definition grpc_kind_to_string (k : GrpcTransportErrorKind) : string :=
  match k with
  | GInvalidEndpoint => "invalid_endpoint" | GConnect => "connect" | GMetadataKey => "metadata_key"
  | GMetadataValue => "metadata_value" | GInvalidMethodPath => "invalid_method_path" | GEncode => "encode"
  | GDecode => "decode"
  end.

Inductive GrpcError :=
  | GeInvalidEndpoint (msg : string)
  | GeConnect (msg : string)
  | GeMetadataKey (key : string)
  | GeMetadataValue (key value : string)
  | GeInvalidMethodPath
  | GeEncode (msg : string)
  | GeDecode (msg : string).

Definition grpc_error_to_string (e : GrpcError) : string :=
  match e with
  | GeInvalidEndpoint m => "invalid endpoint: " ++ m
  | GeConnect m => "failed to connect: " ++ m
  | GeMetadataKey k => "invalid metadata key: " ++ k
  | GeMetadataValue k v => "invalid metadata value for '" ++ k ++ "': " ++ v
  | GeInvalidMethodPath => "invalid gRPC method path"
  | GeEncode m => "failed to encode request: " ++ m
  | GeDecode m => "failed to decode response: " ++ m
  end%string.

Definition grpc_error_kind (e : GrpcError) : GrpcTransportErrorKind :=
  match e with
  | GeInvalidEndpoint _ => GInvalidEndpoint
  | GeConnect _ => GConnect
  | GeMetadataKey _ => GMetadataKey
  | GeMetadataValue _ _ => GMetadataValue
  | GeInvalidMethodPath => GInvalidMethodPath
  | GeEncode _ => GEncode
  | GeDecode _ => GDecode
  end.

(** ** types.rs *)
Record TlsConfig := mkTls {
  ca_pem : option string;
  identity_pem : option string;
  identity_key_pem : option string;
  domain_name : option string;
  insecure_skip_verify : bool }.
Record ConnectOptions := mkConnectOptions { co_timeout : option Z; co_tls : option TlsConfig }.
Record InvokeOptions := mkInvokeOptions { io_timeout : option Z; io_metadata : list (string * string) }.
Record UnaryResult := mkUnary {
  ur_ok : bool;
  ur_status : option Z;
  ur_message : option string;
  ur_error : option string;
  ur_kind : option GrpcTransportErrorKind;
  ur_response : Value;
  ur_headers : list (string * string);
  ur_trailers : list (string * string);
  ur_elapsed : Z;
  ur_bytes_sent : Z;
  ur_bytes_received : Z }.

#[export] Instance TlsConfig_eq_dec : EqDecision TlsConfig.
Proof. solve_decision. Defined.
#[export] Instance ConnectOptions_eq_dec : EqDecision ConnectOptions.
Proof. solve_decision. Defined.

(** ** Interface *)

(** [tonic::Status], [MetadataMap] entries: ASCII ones with a text if the value
    is visible ASCII, and binary ones. *)
Record Status := mkStatus { st_code : Z; st_message : string; st_metadata : list (string * option string); st_text : string }.

(** What [ClientTlsConfig] is given. *)
Record ClientTls := mkClientTls { ct_domain : option string; ct_ca : option string; ct_identity : option (string * string) }.

Class GrpcLib := {
  Endpoint : Type;
  Channel : Type;
  from_shared : string → result string Endpoint;
  (** [tcp_nodelay], [buffer_size], [http2_adaptive_window] *)
  tuned : Endpoint → Endpoint;
  connect_timeout : Z → Endpoint → Endpoint;
  tls_config : ClientTls → Endpoint → result string Endpoint;
  (** the key as the map keeps it *)
  metadata_key : string → option string;
  metadata_value_ok : string → bool;
  (** the status of a response stream that ends without a message *)
  missing_message : Status }.

(** metadata.rs: the readable ASCII pairs. *)
Definition metadata_to_pairs (md : list (string * option string)) : list (string * string) :=
  omap (λ p, v ← p.2; Some (p.1, v)) md.

(** ** codec_bytes.rs *)
Definition encode_bytes (item : list Z) : list Z := item.
Definition decode_bytes (src : list Z) : option (list Z) := if is_empty src then None else Some src.

Section client.
Context {GL : GrpcLib}.

(** ** client.rs *)
Record GrpcClient := mkClient { channels : list Channel; rr : Z }.

Definition client_tls (tls : TlsConfig) : ClientTls :=
  mkClientTls (domain_name tls) (ca_pem tls)
    match identity_pem tls, identity_key_pem tls with Some c, Some k => Some (c, k) | _, _ => None end.

(** The endpoint of a target; both conversions of its errors are [?]. *)
Definition endpoint_of (target : string) (opts : ConnectOptions) : result GrpcError Endpoint :=
  let uri :=
    match find "://" target with
    | Some _ => target
    | None => if co_tls opts then "https://" ++ target else "http://" ++ target
    end%string in
  endpoint ← map_err GeInvalidEndpoint (from_shared uri);
  let endpoint := tuned endpoint in
  let endpoint := match co_timeout opts with Some t => connect_timeout t endpoint | None => endpoint end in
  match co_tls opts with
  | Some tls => map_err GeInvalidEndpoint (tls_config (client_tls tls) endpoint)
  | None => Ok endpoint
  end.

(** The loop that opens the channels: [dial] answers the attempts in turn. *)
Fixpoint connect_channels (dial : nat → Endpoint → result string Channel) (endpoint : Endpoint) (i n : nat) :
    result GrpcError (list Channel) :=
  match n with
  | O => Ok []
  | S n =>
      channel ← map_err GeConnect (dial i endpoint);
      rest ← connect_channels dial endpoint (S i) n;
      Ok (channel :: rest)
  end.

Definition connect_pooled (dial : nat → Endpoint → result string Channel) (target : string) (opts : ConnectOptions)
    (pool_size : Z) : result GrpcError GrpcClient :=
  let pool_size := Z.max pool_size 1 in
  endpoint ← endpoint_of target opts;
  channels ← connect_channels dial endpoint 0 (Z.to_nat pool_size);
  Ok (mkClient channels 0).

Definition connect (dial : nat → Endpoint → result string Channel) (target : string) (opts : ConnectOptions) :
    result GrpcError GrpcClient := connect_pooled dial target opts 1.

(** The loop over the metadata: [insert] replaces the values of a key. *)
Fixpoint insert_metadata (metadata md : list (string * string)) : result GrpcError (list (string * string)) :=
  match metadata with
  | [] => Ok md
  | (k, v) :: metadata =>
      key ← ok_or (metadata_key k) (GeMetadataKey k);
      if metadata_value_ok v then insert_metadata metadata (map_insert key v md)
      else Err (GeMetadataValue k v)
  end.

(** A request as tonic sends it. *)
Record GrpcRequest := mkGrpcRequest { gr_timeout : option Z; gr_metadata : list (string * string); gr_message : list Z }.

(** What a channel does with it: it is not ready, or the server ends with a
    status, or with a message. *)
Inductive Exchange :=
  | NotReady (msg : string)
  | Refused (status : Status)
  | Answered (metadata : list (string * option string)) (message : list Z).

Context {E : Type} {ED : EnumDescriptor E}.

Definition status_result (status : Status) (elapsed bytes_sent : Z) : UnaryResult :=
  mkUnary false (Some (st_code status)) (Some (st_message status)) (Some (st_text status)) None VNull []
    (metadata_to_pairs (st_metadata status)) elapsed bytes_sent 0.

(** [rr.fetch_add(1)], and the channel it selects. *)
Definition pick (client : GrpcClient) : nat * GrpcClient :=
  (Z.to_nat (rr client mod Z.of_nat (length (channels client))), mkClient (channels client) (u64_wrap_add (rr client) 1)).

(** [unary_inner]: the counter of the client is advanced once the request is
    built. *)
Definition unary_inner (exchange : option Channel → GrpcRequest → Exchange) (elapsed : Z) (client : GrpcClient)
    (method : @GrpcMethod E) (req_bytes : list Z) (opts : InvokeOptions) : result GrpcError UnaryResult * GrpcClient :=
  let bytes_sent := Z.of_nat (length req_bytes) in
  match insert_metadata (io_metadata opts) [] with
  | Err e => (Err e, client)
  | Ok md =>
      let '(i, client) := pick client in
      let channel := channels client !! i in
      (match exchange channel (mkGrpcRequest (io_timeout opts) md (encode_bytes req_bytes)) with
       | NotReady m => Err (GeConnect m)
       | Refused status => Ok (status_result status elapsed bytes_sent)
       | Answered metadata message =>
           match decode_bytes message with
           | None => Ok (status_result missing_message elapsed bytes_sent)
           | Some decoded =>
               response ← map_err GeDecode (decode_value_for_method method decoded);
               Ok (mkUnary true (Some 0) None None None response (metadata_to_pairs metadata) [] elapsed bytes_sent
                     (Z.of_nat (length decoded)))
           end
       end, client)
  end.

Definition encode_unary_request (method : @GrpcMethod E) (value : Value) : result GrpcError (list Z) :=
  map_err GeEncode (encode_value_for_method method value).

Definition unary (exchange : option Channel → GrpcRequest → Exchange) (elapsed : Z) (client : GrpcClient)
    (method : @GrpcMethod E) (req : Value) (opts : InvokeOptions) : result GrpcError UnaryResult * GrpcClient :=
  match map_err GeEncode (encode_value_for_method method req) with
  | Err e => (Err e, client)
  | Ok bytes => unary_inner exchange elapsed client method bytes opts
  end.

Definition unary_bytes := unary_inner.

(** ** The metadata of a request *)

(** Of several values for a key only the last is sent. *)
Lemma insert_metadata_last metadata md md' :
  insert_metadata metadata md = Ok md' →
  ∀ key, map_get key md' =
    match last (filter (λ p, metadata_key p.1 = Some key) metadata) with Some p => Some p.2 | None => map_get key md end.
Proof.
  revert md. induction metadata as [|[k v] metadata IH]; intros md; simpl.
  { intros [= ->] key. done. }
  destruct (metadata_key k) as [key'|] eqn:Hk; simpl; [|done]. destruct (metadata_value_ok v); [|done].
  intros Hi key. rewrite (IH _ Hi key), filter_cons, map_get_insert. simpl. rewrite Hk.
  destruct (decide (Some key' = Some key)) as [[= ->]|Hne].
  - rewrite last_cons, decide_True by done. by destruct (last _).
  - rewrite decide_False by congruence. done.
Qed.

(** ** The pool *)
Lemma connect_channels_length dial endpoint i n l :
  connect_channels dial endpoint i n = Ok l → length l = n.
Proof.
  revert i l. induction n as [|n IH]; intros i l; simpl; [by intros [= <-]|].
  rewrite bind_Ok. intros (c & _ & Hr). apply bind_Ok in Hr as (rest & Hr & [= <-]). simpl. f_equal. by eapply IH.
Qed.

Lemma connect_pooled_inv dial target opts pool_size c :
  connect_pooled dial target opts pool_size = Ok c →
  length (channels c) = Z.to_nat (Z.max pool_size 1) ∧ rr c = 0.
Proof.
  unfold connect_pooled. rewrite bind_Ok. intros (e & _ & Hc). apply bind_Ok in Hc as (l & Hl & [= <-]).
  split; [|done]. by eapply connect_channels_length.
Qed.

(** The channels of [n] calls. *)
Fixpoint picks (n : nat) (c : GrpcClient) : list nat :=
  match n with O => [] | S n => let '(i, c) := pick c in i :: picks n c end.

Lemma picks_spec n c :
  0 ≤ rr c → rr c + Z.of_nat n ≤ 2 ^ 64 →
  picks n c = (λ j, Z.to_nat ((rr c + Z.of_nat j) mod Z.of_nat (length (channels c)))) <$> seq 0 n.
Proof.
  revert c. induction n as [|n IH]; intros c H0 Hn; [done|]. csimpl. rewrite Z.add_0_r. f_equal.
  rewrite <- fmap_S_seq, <- list_fmap_compose.
  destruct (decide (rr c + 1 < 2 ^ 64)) as [Hlt|Hge].
  - assert (u64_wrap_add (rr c) 1 = rr c + 1) as Hw by (unfold u64_wrap_add, as_u64; apply Z.mod_small; lia).
    rewrite IH; simpl; rewrite Hw; [|lia..]. apply list_fmap_ext. intros i j _. simpl. do 2 f_equal. lia.
  - assert (n = 0%nat) as -> by lia. done.
Qed.

(** One turn takes each channel once. *)
Lemma one_turn r len :
  (0 < len)%nat → 0 ≤ r → ((λ j, Z.to_nat ((r + Z.of_nat j) mod Z.of_nat len)) <$> seq 0 len) ≡ₚ seq 0 len.
Proof.
  intros Hl Hr. apply NoDup_Permutation_bis.
  - apply NoDup_ListNoDup, NoDup_fmap_2_strong; [|apply NoDup_seq]. intros x y Hx%elem_of_seq Hy%elem_of_seq Heq.
    apply Z2Nat.inj in Heq; [|apply Z.mod_pos_bound; lia..].
    rewrite (Z.mod_eq (r + Z.of_nat x)), (Z.mod_eq (r + Z.of_nat y)) in Heq by lia.
    set (a := (r + Z.of_nat x) / Z.of_nat len) in *. set (b := (r + Z.of_nat y) / Z.of_nat len) in *.
    assert (a = b) by nia. nia.
  - rewrite length_fmap. done.
  - intros x Hx%list_elem_of_In%list_elem_of_fmap. destruct Hx as (j & -> & _).
    apply list_elem_of_In, elem_of_seq. pose proof (Z.mod_pos_bound (r + Z.of_nat j) (Z.of_nat len)). lia.
Qed.

Lemma picks_app n m c : picks (n + m) c = picks n c ++ picks m (Nat.iter n (λ c, (pick c).2) c).
Proof.
  revert c. induction n as [|n IH]; intros c; [done|]. cbn [picks Nat.add app]. rewrite Nat.iter_succ_r.
  destruct (pick c) as [i c'] . simpl. by rewrite IH.
Qed.

(** The pool is shared evenly.  A connected client has as many channels as
    asked for, at least one; every call finds its channel; and in [k] turns of
    that many calls, counted over all VUs, each channel serves exactly [k],
    as long as the 64-bit counter does not wrap. *)
Theorem round_robin_fair dial target opts pool_size c k :
  connect_pooled dial target opts pool_size = Ok c →
  let n := length (channels c) in
  Z.of_nat n = Z.max pool_size 1 ∧
  (∀ m i, i ∈ picks m c → is_Some (channels c !! i)) ∧
  (Z.of_nat (k * n) ≤ 2 ^ 64 → picks (k * n) c ≡ₚ concat (replicate k (seq 0 n))).
Proof.
  intros (Hlen & Hrr)%connect_pooled_inv. cbv zeta.
  assert (0 < length (channels c))%nat as Hpos by lia. split_and!.
  - lia.
  - intros m. revert Hpos. clear. revert c. induction m as [|m IH]; intros c Hpos i; [set_solver|].
    cbn [picks pick]. intros [->|Hi]%elem_of_cons.
    + apply lookup_lt_is_Some. pose proof (Z.mod_pos_bound (rr c) (Z.of_nat (length (channels c)))). lia.
    + by apply (IH (mkClient (channels c) (u64_wrap_add (rr c) 1))) in Hi.
  - intros Hk. rewrite picks_spec, Hrr by lia. clear Hlen Hk Hrr. induction k as [|k IH]; [done|].
    replace (S k * length (channels c))%nat with (k * length (channels c) + length (channels c))%nat by lia.
    rewrite seq_app, fmap_app, IH, replicate_S_end, concat_app. f_equiv.
    set (n := length (channels c)) in *. simpl. rewrite app_nil_r, <- (one_turn (Z.of_nat (k * n)) n) by lia.
    replace (seq (k * n) n) with (Nat.add (k * n) <$> seq 0 n) by (rewrite fmap_add_seq; f_equal; lia).
    rewrite <- list_fmap_compose. apply reflexive_eq, list_fmap_ext.
    intros i j _. simpl. do 2 f_equal. lia.
Qed.
End client.

(** ** Witness *)
#[local] Instance demo_grpc : GrpcLib := {|
  Endpoint := string;
  Channel := nat;
  from_shared s := Ok s;
  tuned e := e;
  connect_timeout _ e := e;
  tls_config _ e := Ok e;
  metadata_key k := Some (lowercase k);
  metadata_value_ok _ := true;
  missing_message := mkStatus 13 "Missing response message." [] "Missing response message." |}%string.

Definition demo_dial (i : nat) (e : Endpoint) : result string Channel := Ok (i : @Channel demo_grpc).
Definition demo_client : GrpcClient := mkClient [0; 1; 2]%nat 0.

Lemma round_robin_fair_witness :
  connect_pooled demo_dial "localhost:50051" (mkConnectOptions None None) 3 = Ok demo_client ∧
  Z.of_nat 3 = 3 ∧ (∀ m i, i ∈ picks m demo_client → is_Some (channels demo_client !! i)) ∧
  picks 6 demo_client ≡ₚ [0; 1; 2; 0; 1; 2]%nat.
Proof.
  assert (connect_pooled demo_dial "localhost:50051" (mkConnectOptions None None) 3 = Ok demo_client) as Hc by reflexivity.
  split; [exact Hc|].
  destruct (round_robin_fair demo_dial "localhost:50051" (mkConnectOptions None None) 3 demo_client 2 Hc) as (H1 & H2 & H3).
  split; [exact H1|]. split; [exact H2|]. apply H3. simpl. lia.
Defined.

(** Two values for a key: the second is sent. *)
Example metadata_values : insert_metadata [("X", "a"); ("x", "b")] [] = Ok [("x", "b")]%string.
Proof. reflexivity. Qed.

(** A message whose fields all have their default has no bytes; its answer is
    taken for a missing one. *)
Lemma empty_message_refused {E} `{EnumDescriptor E} exchange elapsed client (method : @GrpcMethod E) req opts md :
  insert_metadata (io_metadata opts) [] = Ok md →
  let '(i, client') := pick client in
  exchange (channels client' !! i) (mkGrpcRequest (io_timeout opts) md req) = Answered [] [] →
  (unary_inner exchange elapsed client method req opts).1
    = Ok (status_result missing_message elapsed (Z.of_nat (length req))).
Proof. intros Hmd. simpl. intros He. unfold unary_inner. rewrite Hmd. simpl. unfold encode_bytes. by rewrite He. Qed.
