(* ===== verification/SharedGrpc.v ===== *)
(** * The gRPC client VUs share (wrkr-grpc/src/shared.rs)

    VUs that ask for the same pool size get the same client object: its schema
    is compiled once, its channels are opened once, and its methods are cached.
    The VUs' calls interleave at the accesses to the shared cells: the load lock,
    the write-once cells of the specification and the schema, the cache, the
    lock of the connection's specification and the cell of the connection.

    Running protoc and reading files, and dialling, are answers of the world,
    which may change from step to step. *)
From S2P Require Import Prelude Std Coll Text Value Codec Proto Paths GrpcClient.

Local Open Scope Z_scope.

(** ** Data *)
Record LoadSpec := mkLoadSpec { include_paths : list string; proto_file : string }.

(** [PathBuf]s compare by their components. *)
Definition load_spec_eqb (a b : LoadSpec) : bool :=
  bool_decide (components <$> include_paths a = components <$> include_paths b) &&
  bool_decide (components (proto_file a) = components (proto_file b)).

(** [ConnectSpecTls] has the fields of [TlsConfig]. *)
Record ConnectSpec := mkConnectSpec { cs_target : string; cs_timeout : option Z; cs_tls : option TlsConfig }.

#[export] Instance ConnectSpec_eq_dec : EqDecision ConnectSpec.
Proof. solve_decision. Defined.

Definition connect_spec_of (target : string) (opts : ConnectOptions) : ConnectSpec :=
  mkConnectSpec target (co_timeout opts) (co_tls opts).

Inductive SharedError :=
  | LoadSpecMismatch | ConnectSpecMismatch | NotLoaded
  | CompileError (msg : string) | MethodError (e : Proto.Error)
  | ClientError (e : GrpcError).

(** [(vus / 8).clamp(16, 64).max(1)]. *)
Definition default_pool_size (max_vus : Z) : Z := Z.max (Z.max 16 (Z.min 64 (max_vus / 8))) 1.

(** [Registry::get_or_create]: the clients created so far by pool size, a client
    named by its number. *)
Definition get_or_create (pool_size : Z) (inner : gmap Z nat) : nat * gmap Z nat :=
  let key := Z.max pool_size 1 in
  match inner !! key with
  | Some client => (client, inner)
  | None => (size inner, <[key := size inner]> inner)
  end.

Section shared.
Context {E : Type} {ED : EnumDescriptor E} {GL : GrpcLib} (fuel : nat).

Abbreviation Schema := (DescriptorPool E).
Abbreviation Method := (@GrpcMethod E).

Definition schema_method (schema : Schema) (full_method : string) : Prelude.result Proto.Error Method :=
  @Proto.method E schema fuel full_method.

(** ** The object *)
Record Shared := mkShared {
  sh_pool_size : Z;
  sh_holder : option nat;          (* who holds [load_lock] *)
  sh_load_spec : option LoadSpec;
  sh_schema : option Schema;
  sh_methods : gmap string Method;
  sh_connect_spec : option ConnectSpec;
  sh_connecting : option nat;      (* who initialises the [OnceCell] *)
  sh_client : option GrpcClient }.

Definition new_shared (pool_size : Z) : Shared := mkShared (Z.max pool_size 1) None None None ∅ None None None.

Definition with_load (holder : option nat) (spec : option LoadSpec) (schema : option Schema) (methods : gmap string Method)
    (s : Shared) : Shared :=
  mkShared (sh_pool_size s) holder spec schema methods (sh_connect_spec s) (sh_connecting s) (sh_client s).
Definition with_holder (holder : option nat) (s : Shared) : Shared :=
  with_load holder (sh_load_spec s) (sh_schema s) (sh_methods s) s.
Definition with_methods (methods : gmap string Method) (s : Shared) : Shared :=
  with_load (sh_holder s) (sh_load_spec s) (sh_schema s) methods s.
Definition with_connect (spec : option ConnectSpec) (connecting : option nat) (client : option GrpcClient) (s : Shared) :
    Shared :=
  mkShared (sh_pool_size s) (sh_holder s) (sh_load_spec s) (sh_schema s) (sh_methods s) spec connecting client.

(** [OnceLock::set]. *)
Definition set_once {A} (a : A) (cell : option A) : option A := match cell with Some b => Some b | None => Some a end.

(** What the world answers. *)
Record World := mkWorld {
  w_compile : LoadSpec → result string Schema;
  w_dial : nat → Endpoint → result string Channel }.

(** ** The calls, from access to access *)
Inductive pc :=
  | LoadCall (spec : LoadSpec)
  | LoadHeld (spec : LoadSpec)                        (* the lock is taken *)
  | LoadCompiled (spec : LoadSpec) (schema : Schema)
  | LoadStored (spec : LoadSpec) (schema : Schema)    (* [load_spec] is set *)
  | LoadClear (spec : LoadSpec)                       (* [schema] is set *)
  | LoadDone (spec : LoadSpec) (res : result SharedError unit)
  | MethodCall (name : string)
  | MethodMiss (name : string)                        (* not in the cache *)
  | MethodBuilt (name : string) (method : Method)
  | MethodDone (name : string) (res : result SharedError Method)
  | ConnectCall (target : string) (opts : ConnectOptions)
  | ConnectAllowed (target : string) (opts : ConnectOptions)   (* the specification is the recorded one *)
  | Connecting (target : string) (opts : ConnectOptions)       (* inside [get_or_try_init] *)
  | ConnectDone (target : string) (opts : ConnectOptions) (res : result SharedError unit).

Definition thread_step (w : World) (i : nat) (s : Shared) (p : pc) : option (Shared * pc) :=
  match p with
  | LoadCall spec =>
      match sh_holder s with None => Some (with_holder (Some i) s, LoadHeld spec) | Some _ => None end
  | LoadHeld spec =>
      match sh_load_spec s with
      | Some existing =>
          Some (with_holder None s,
                LoadDone spec (if negb (load_spec_eqb existing spec) then Err LoadSpecMismatch else Ok tt))
      | None =>
          match w_compile w spec with
          | Err e => Some (with_holder None s, LoadDone spec (Err (CompileError e)))
          | Ok schema => Some (s, LoadCompiled spec schema)
          end
      end
  | LoadCompiled spec schema =>
      Some (with_load (sh_holder s) (set_once spec (sh_load_spec s)) (sh_schema s) (sh_methods s) s, LoadStored spec schema)
  | LoadStored spec schema =>
      Some (with_load (sh_holder s) (sh_load_spec s) (set_once schema (sh_schema s)) (sh_methods s) s, LoadClear spec)
  | LoadClear spec => Some (with_load None (sh_load_spec s) (sh_schema s) ∅ s, LoadDone spec (Ok tt))
  | MethodCall name =>
      match sh_methods s !! name with
      | Some existing => Some (s, MethodDone name (Ok existing))
      | None => Some (s, MethodMiss name)
      end
  | MethodMiss name =>
      match sh_schema s with
      | None => Some (s, MethodDone name (Err NotLoaded))
      | Some schema =>
          match schema_method schema name with
          | Err e => Some (s, MethodDone name (Err (MethodError e)))
          | Ok method => Some (s, MethodBuilt name method)
          end
      end
  | MethodBuilt name method =>
      match sh_methods s !! name with
      | Some existing => Some (s, MethodDone name (Ok existing))
      | None => Some (with_methods (<[name := method]> (sh_methods s)) s, MethodDone name (Ok method))
      end
  | ConnectCall target opts =>
      let spec := connect_spec_of target opts in
      match sh_connect_spec s with
      | Some existing =>
          if negb (bool_decide (existing = spec)) then Some (s, ConnectDone target opts (Err ConnectSpecMismatch))
          else Some (s, ConnectAllowed target opts)
      | None => Some (with_connect (Some spec) (sh_connecting s) (sh_client s) s, ConnectAllowed target opts)
      end
  | ConnectAllowed target opts =>
      match sh_client s with
      | Some _ => Some (s, ConnectDone target opts (Ok tt))
      | None =>
          match sh_connecting s with
          | Some _ => None
          | None => Some (with_connect (sh_connect_spec s) (Some i) (sh_client s) s, Connecting target opts)
          end
      end
  | Connecting target opts =>
      match connect_pooled (w_dial w) target opts (sh_pool_size s) with
      | Ok client => Some (with_connect (sh_connect_spec s) None (Some client) s, ConnectDone target opts (Ok tt))
      | Err e => Some (with_connect (sh_connect_spec s) None (sh_client s) s, ConnectDone target opts (Err (ClientError e)))
      end
  | LoadDone _ _ | MethodDone _ _ | ConnectDone _ _ _ => None
  end.

Record Config := mkConfig { cf_shared : Shared; cf_threads : list pc }.

(** The worlds there can be. *)
Context (possible : World → Prop).

Inductive step : Config → Config → Prop :=
  | step_thread w s s' ts i p p' :
      possible w → ts !! i = Some p → thread_step w i s p = Some (s', p') →
      step (mkConfig s ts) (mkConfig s' (<[i := p']> ts)).

Definition starts (p : pc) : Prop :=
  match p with LoadCall _ | MethodCall _ | ConnectCall _ _ => True | _ => False end.
Definition finished (p : pc) : Prop :=
  match p with LoadDone _ _ | MethodDone _ _ | ConnectDone _ _ _ => True | _ => False end.

#[export] Instance finished_dec p : Decision (finished p).
Proof. destruct p; simpl; apply _. Defined.

Definition reachable (pool_size : Z) (cf : Config) : Prop :=
  ∃ ts, Forall starts ts ∧ rtc step (mkConfig (new_shared pool_size) ts) cf.

(** ** Invariant *)
Definition compiled (spec : LoadSpec) (schema : Schema) : Prop := ∃ w, possible w ∧ w_compile w spec = Ok schema.
Definition dialled (pool_size : Z) (target : string) (opts : ConnectOptions) (client : GrpcClient) : Prop :=
  ∃ w, possible w ∧ connect_pooled (w_dial w) target opts pool_size = Ok client.

(** The schema is there, and compiled from a specification the given one equals. *)
Definition loaded (s : Shared) (spec : LoadSpec) : Prop :=
  ∃ spec0 schema, sh_load_spec s = Some spec0 ∧ (spec0 = spec ∨ load_spec_eqb spec0 spec = true) ∧
    sh_schema s = Some schema ∧ compiled spec0 schema.
Definition known (s : Shared) (name : string) (method : Method) : Prop :=
  ∃ schema, sh_schema s = Some schema ∧ schema_method schema name = Ok method.
Definition connected (s : Shared) (target : string) (opts : ConnectOptions) : Prop :=
  sh_connect_spec s = Some (connect_spec_of target opts) ∧
  ∃ client, sh_client s = Some client ∧ dialled (sh_pool_size s) target opts client.

Definition loading (p : pc) : bool :=
  match p with LoadHeld _ | LoadCompiled _ _ | LoadStored _ _ | LoadClear _ => true | _ => false end.
Definition dialling (p : pc) : bool := match p with Connecting _ _ => true | _ => false end.

(** What a call that has returned was told. *)
Definition result_ok (s : Shared) (p : pc) : Prop :=
  match p with
  | LoadDone spec (Ok _) => loaded s spec
  | LoadDone spec (Err LoadSpecMismatch) => ∃ spec0, sh_load_spec s = Some spec0 ∧ load_spec_eqb spec0 spec = false
  | LoadDone spec (Err e) => ∃ w msg, possible w ∧ w_compile w spec = Err msg ∧ e = CompileError msg
  | MethodDone name (Ok method) => known s name method
  | MethodDone name (Err e) =>
      e = NotLoaded ∨ ∃ schema e', sh_schema s = Some schema ∧ schema_method schema name = Err e' ∧ e = MethodError e'
  | ConnectDone target opts (Ok _) => connected s target opts
  | ConnectDone target opts (Err ConnectSpecMismatch) =>
      ∃ spec, sh_connect_spec s = Some spec ∧ spec ≠ connect_spec_of target opts
  | ConnectDone target opts (Err e) =>
      ∃ w e', possible w ∧ connect_pooled (w_dial w) target opts (sh_pool_size s) = Err e' ∧ e = ClientError e'
  | _ => False
  end.

(** What a call knows at its point. *)
Definition point_ok (s : Shared) (p : pc) : Prop :=
  match p with
  | LoadHeld _ => ∀ spec0, sh_load_spec s = Some spec0 → loaded s spec0
  | LoadCall _ | MethodCall _ | MethodMiss _ | ConnectCall _ _ => True
  | LoadCompiled spec schema => sh_load_spec s = None ∧ compiled spec schema
  | LoadStored spec schema => sh_load_spec s = Some spec ∧ sh_schema s = None ∧ compiled spec schema
  | LoadClear spec => loaded s spec
  | MethodBuilt name method => known s name method
  | ConnectAllowed target opts => sh_connect_spec s = Some (connect_spec_of target opts)
  | Connecting target opts => sh_connect_spec s = Some (connect_spec_of target opts) ∧ sh_client s = None
  | LoadDone _ _ | MethodDone _ _ | ConnectDone _ _ _ => result_ok s p
  end.

(** The locks are held by calls inside them, and by no other. *)
Record locks_ok (s : Shared) (ts : list pc) : Prop := {
  lk_loading i p : ts !! i = Some p → loading p = true → sh_holder s = Some i;
  lk_dialling i p : ts !! i = Some p → dialling p = true → sh_connecting s = Some i;
  lk_holder i : sh_holder s = Some i → ∃ p, ts !! i = Some p ∧ loading p = true;
  lk_connecting i : sh_connecting s = Some i → ∃ p, ts !! i = Some p ∧ dialling p = true }.

Record inv (cf : Config) : Prop := {
  iv_locks : locks_ok (cf_shared cf) (cf_threads cf);
  iv_points i p : cf_threads cf !! i = Some p → point_ok (cf_shared cf) p;
  (** the schema is set after its specification, by the holder of the lock *)
  iv_free : sh_holder (cf_shared cf) = None → ∀ spec, sh_load_spec (cf_shared cf) = Some spec → loaded (cf_shared cf) spec;
  iv_schema schema : sh_schema (cf_shared cf) = Some schema → is_Some (sh_load_spec (cf_shared cf));
  iv_cache name method : sh_methods (cf_shared cf) !! name = Some method → known (cf_shared cf) name method;
  iv_client client : sh_client (cf_shared cf) = Some client →
    ∃ target opts, sh_connect_spec (cf_shared cf) = Some (connect_spec_of target opts) ∧
      dialled (sh_pool_size (cf_shared cf)) target opts client }.

(** What another call may rely on across a step. *)
Record keeps (i : nat) (s s' : Shared) : Prop := {
  kp_pool : sh_pool_size s' = sh_pool_size s;
  kp_spec spec : sh_load_spec s = Some spec → sh_load_spec s' = Some spec;
  kp_schema schema : sh_schema s = Some schema → sh_schema s' = Some schema;
  kp_connect spec : sh_connect_spec s = Some spec → sh_connect_spec s' = Some spec;
  kp_client client : sh_client s = Some client → sh_client s' = Some client;
  kp_holding : sh_holder s = Some i → sh_holder s' = Some i ∧ sh_load_spec s' = sh_load_spec s ∧ sh_schema s' = sh_schema s;
  kp_connecting : sh_connecting s = Some i → sh_connecting s' = Some i ∧ sh_client s' = sh_client s }.

Lemma loaded_keeps i s s' spec : keeps i s s' → loaded s spec → loaded s' spec.
Proof.
  intros K (spec0 & schema & H1 & H2 & H3 & H4). exists spec0, schema.
  split_and!; [by eapply kp_spec|done|by eapply kp_schema|done].
Qed.

Lemma point_keeps i s s' p :
  keeps i s s' → (loading p = true → sh_holder s = Some i) → (dialling p = true → sh_connecting s = Some i) →
  point_ok s p → point_ok s' p.
Proof.
  intros K Hl Hd. pose proof (kp_pool _ _ _ K) as Hpool.
  assert (∀ target opts, connected s target opts → connected s' target opts) as Kc.
  { intros target opts (Hs & c & Hc & Hx). split; [by eapply kp_connect|]. exists c. rewrite Hpool.
    split; [by eapply kp_client|done]. }
  assert (∀ name method, known s name method → known s' name method) as Km.
  { intros name method (schema & Hs & Hm). exists schema. split; [by eapply kp_schema|done]. }
  destruct p as [|spec|spec schema|spec schema|spec|spec [|e]| | | |name [|e]| |target opts|target opts|target opts [|e]];
    simpl in *; try done; auto.
  - intros Hp spec0. destruct (kp_holding _ _ _ K (Hl eq_refl)) as (_ & -> & _). intros H0.
    by eapply loaded_keeps, Hp.
  - destruct (kp_holding _ _ _ K (Hl eq_refl)) as (_ & -> & _). done.
  - destruct (kp_holding _ _ _ K (Hl eq_refl)) as (_ & -> & ->). done.
  - by apply (loaded_keeps i s s').
  - by apply (loaded_keeps i s s').
  - destruct e; try done. intros (spec0 & H1 & H2). exists spec0. split; [by eapply kp_spec|done].
  - intros [?|(schema & e' & H1 & H2)]; [by left|right]. exists schema, e'. split; [by eapply kp_schema|done].
  - by apply (kp_connect i s s').
  - destruct (kp_connecting _ _ _ K (Hd eq_refl)) as (_ & ->). intros [H1 H2]. split; [by eapply kp_connect|done].
  - rewrite Hpool. destruct e; try done. intros (spec0 & H1 & H2). exists spec0. split; [by eapply kp_connect|done].
Qed.

Ltac invert_step Hs :=
  unfold thread_step in Hs;
  repeat match type of Hs with
  | context [match ?x with _ => _ end] => let Ex := fresh "Ex" in destruct x eqn:Ex in Hs; try discriminate Hs
  end; first [discriminate Hs | injection Hs as <- <-].

(** A step changes what others hold locks for only while nobody else holds
    them, and sets cells only once. *)
Lemma shared_step_keeps w i s p s' p' j :
  thread_step w i s p = Some (s', p') → point_ok s p →
  (loading p = true → sh_holder s = Some i) → (dialling p = true → sh_connecting s = Some i) → j ≠ i → keeps j s s'.
Proof.
  intros Hs Hp Hl Hd Hj. destruct p; invert_step Hs; split; simpl in *; try done;
    try (specialize (Hl eq_refl)); try (specialize (Hd eq_refl)); try (intros; congruence); try (intros; split; congruence).
  - by intros ? ->.
  - by intros ? ->.
  - destruct Hp as [_ Hn]. intros c Hc. congruence.
Qed.

(** The lock of a call is the one its point needs, before and after. *)
Lemma shared_step_locks w i s p s' p' ts :
  thread_step w i s p = Some (s', p') → ts !! i = Some p → locks_ok s ts → locks_ok s' (<[i := p']> ts).
Proof.
  intros Hs Hi [L1 L2 L3 L4].
  assert (i < length ts)%nat as Hlt by by eapply lookup_lt_Some.
  assert ((loading p = false ∧ loading p' = true → sh_holder s = None) ∧
    sh_holder s' = (if loading p' then Some i else if loading p then None else sh_holder s)) as [A1 A2].
  { specialize (L1 i p Hi). destruct p; invert_step Hs; simpl in *; try (specialize (L1 eq_refl)); split; auto; intros [? ?]; done. }
  assert ((dialling p = false ∧ dialling p' = true → sh_connecting s = None) ∧
    sh_connecting s' = (if dialling p' then Some i else if dialling p then None else sh_connecting s)) as [B1 B2].
  { specialize (L2 i p Hi). destruct p; invert_step Hs; simpl in *; try (specialize (L2 eq_refl)); split; auto; intros [? ?]; done. }
  split.
  - intros j q [(-> & -> & _)|(Hne & Hj)]%list_lookup_insert_Some Hq; [by rewrite A2, Hq|].
    pose proof (L1 j q Hj Hq) as Hh. rewrite A2. destruct (loading p') eqn:E1, (loading p) eqn:E2; try done;
      exfalso; [specialize (L1 i p Hi E2); congruence|rewrite A1 in Hh by done; done|specialize (L1 i p Hi E2); congruence].
  - intros j q [(-> & -> & _)|(Hne & Hj)]%list_lookup_insert_Some Hq; [by rewrite B2, Hq|].
    pose proof (L2 j q Hj Hq) as Hh. rewrite B2. destruct (dialling p') eqn:E1, (dialling p) eqn:E2; try done;
      exfalso; [specialize (L2 i p Hi E2); congruence|rewrite B1 in Hh by done; done|specialize (L2 i p Hi E2); congruence].
  - intros j. rewrite A2. destruct (loading p') eqn:E1.
    + intros [= <-]. exists p'. by rewrite list_lookup_insert_eq.
    + destruct (loading p) eqn:E2; [done|]. intros Hj. destruct (L3 j Hj) as (q & Hq & Hl). exists q.
      split; [|done]. rewrite list_lookup_insert_ne; [done|]. intros ->. congruence.
  - intros j. rewrite B2. destruct (dialling p') eqn:E1.
    + intros [= <-]. exists p'. by rewrite list_lookup_insert_eq.
    + destruct (dialling p) eqn:E2; [done|]. intros Hj. destruct (L4 j Hj) as (q & Hq & Hl). exists q.
      split; [|done]. rewrite list_lookup_insert_ne; [done|]. intros ->. congruence.
Qed.

Lemma loaded_same s s' spec :
  sh_load_spec s' = sh_load_spec s → sh_schema s' = sh_schema s → loaded s spec → loaded s' spec.
Proof. unfold loaded. by intros -> ->. Qed.

(** What the call knows after its own step. *)
Lemma shared_step_point w i s p s' p' ts :
  possible w → inv (mkConfig s ts) → ts !! i = Some p → thread_step w i s p = Some (s', p') → point_ok s' p'.
Proof.
  intros Hw [Hl Hp Hfree Hsch Hcache Hclient] Hi Hs. simpl in *. specialize (Hp i p Hi).
  destruct p as [spec|spec|spec schema|spec schema|spec|spec r|name|name|name m|name r|t o|t o|t o|t o r];
    invert_step Hs; simpl in *.
  - intros spec0 H0. by apply Hfree.
  - exists l. split; [done|]. by apply negb_true_iff.
  - destruct (Hp l Ex) as (spec0 & schema & H0 & _ & H1 & H2). assert (spec0 = l) as -> by congruence.
    exists l, schema. split_and!; [done|right; by apply negb_false_iff|done|done].
  - split; [done|]. by exists w.
  - by exists w, e.
  - destruct Hp as [H1 H2]. rewrite H1. split; [done|]. split; [|done].
    destruct (sh_schema s) as [sch|] eqn:E1; [|done]. destruct (Hsch sch eq_refl) as [? ?]. congruence.
  - destruct Hp as (H1 & H2 & H3). exists spec, schema. simpl. rewrite H1, H2. split_and!; [done|by left|done|done].
  - by apply (loaded_same s).
  - by apply Hcache.
  - done.
  - by exists d.
  - right. by exists d, e.
  - by left.
  - by apply Hcache.
  - done.
  - exists c. split; [done|]. by apply negb_true_iff, bool_decide_eq_false in Ex0.
  - apply negb_false_iff, bool_decide_eq_true in Ex0. congruence.
  - done.
  - destruct (Hclient g Ex) as (t' & o' & H1 & H2). split; [done|]. exists g. split; [done|].
    rewrite H1 in Hp. unfold connect_spec_of in Hp. destruct o, o'; simpl in *. by simplify_eq.
  - done.
  - split; [apply Hp|]. exists a. split; [done|]. by exists w.
  - by exists w, e.
Qed.

Lemma shared_step_inv cf cf' : inv cf → step cf cf' → inv cf'.
Proof.
  intros Hinv Hst. destruct Hst as [w s s' ts i p p' Hw Hi Hs].
  pose proof (shared_step_point w i s p s' p' ts Hw Hinv Hi Hs) as Hme.
  destruct Hinv as [Hl Hp Hfree Hsch Hcache Hclient]. simpl in *.
  pose proof (lk_loading _ _ Hl i p Hi) as Hli. pose proof (lk_dialling _ _ Hl i p Hi) as Hdi.
  pose proof (λ j, shared_step_keeps w i s p s' p' j Hs (Hp i p Hi) Hli Hdi) as Hk.
  pose proof (Hp i p Hi) as Hpi. split; simpl.
  - by eapply shared_step_locks.
  - intros j q [(-> & -> & _)|(Hne & Hj)]%list_lookup_insert_Some; [done|].
    eapply point_keeps; [by apply Hk|by apply (lk_loading _ _ Hl)|by apply (lk_dialling _ _ Hl)|by eapply Hp].
  - clear Hk. destruct p; invert_step Hs; simpl in *; try done; try (intros _; done).
    + intros Hn. specialize (Hli eq_refl). congruence.
    + intros Hn. specialize (Hli eq_refl). congruence.
    + intros _ spec0 H0. destruct Hpi as (spec1 & schema & H1 & H2 & H3 & H4).
      exists spec1, schema. split_and!; [done|left; congruence|done|done].
  - destruct p; invert_step Hs; simpl in *; try done.
    + intros sch Hsc. destruct (sh_load_spec s); by eexists.
    + intros sch _. destruct Hpi as (-> & _). by eexists.
  - assert (∀ name method, known s name method → known s' name method) as Km.
    { intros name method (schema & H1 & H2). exists schema. split; [|done].
      eapply (kp_schema _ _ _ (Hk (S i) ltac:(lia))). done. }
    intros name method Hn. destruct p as [spec|spec|spec schema|spec schema|spec|spec r|n|n|n m|n r|t o|t o|t o|t o r];
      invert_step Hs; simpl in *; try (apply Km, Hcache; done); try done.
    apply lookup_insert_Some in Hn as [[<- <-]|[_ Hn]]; [done|by apply Hcache].
  - intros client. pose proof (Hk (S i) ltac:(lia)) as K.
    rewrite (kp_pool _ _ _ K). pose proof (kp_connect _ _ _ K) as Kc.
    assert (sh_client s' = Some client → sh_client s = Some client ∨
      ∃ t o, sh_connect_spec s = Some (connect_spec_of t o) ∧ dialled (sh_pool_size s) t o client) as Hc.
    { clear Hme K Kc Hk. destruct p as [spec|spec|spec schema|spec schema|spec|spec r|n|n|n m|n r|t o|t o|t o|t o r];
        invert_step Hs; simpl in *; auto; [done|]. intros [= <-]. right. exists t, o. split; [apply Hpi|by exists w]. }
    intros Hc'. destruct (Hc Hc') as [Hold|(t & o & H1 & H2)].
    + destruct (Hclient client Hold) as (t & o & H1 & H2). exists t, o. split; [by apply Kc|done].
    + exists t, o. split; [by apply Kc|done].
Qed.

Lemma shared_start_inv pool_size ts : Forall starts ts → inv (mkConfig (new_shared pool_size) ts).
Proof.
  intros Hts. assert (∀ i p, ts !! i = Some p → starts p) as Hst by (intros i p; by apply Forall_lookup_1).
  split; simpl; try done.
  - split; simpl; try done; intros i p Hi%Hst Hp; by destruct p.
  - intros i p Hi%Hst. by destruct p.
Qed.

Lemma shared_reachable_inv pool_size cf : reachable pool_size cf → inv cf.
Proof.
  intros (ts & Hts & Hst). pose proof (shared_start_inv pool_size ts Hts) as H0. clear Hts.
  induction Hst as [|cf1 cf2 cf3 H1 H2 IH]; [done|]. apply IH. by eapply shared_step_inv.
Qed.

(** A call that has returned stays as it is. *)
Lemma shared_step_finished cf cf' i p :
  step cf cf' → finished p → cf_threads cf !! i = Some p → cf_threads cf' !! i = Some p.
Proof.
  intros [w s s' ts j q q' Hw Hj Hs] Hp Hi. simpl in *. rewrite list_lookup_insert_ne; [done|].
  intros ->. assert (q = p) as -> by congruence. by destruct p.
Qed.

(** ** Every call returns *)

(** The steps a call has left, at most. *)
Definition rank (p : pc) : nat :=
  match p with
  | LoadCall _ => 5 | LoadHeld _ => 4 | LoadCompiled _ _ => 3 | LoadStored _ _ => 2 | LoadClear _ => 1
  | MethodCall _ => 3 | MethodMiss _ => 2 | MethodBuilt _ _ => 1
  | ConnectCall _ _ => 3 | ConnectAllowed _ _ => 2 | Connecting _ _ => 1
  | LoadDone _ _ | MethodDone _ _ | ConnectDone _ _ _ => 0
  end.
Definition total_rank (ts : list pc) : nat := sum_list (rank <$> ts).

Lemma total_rank_insert ts i p p' :
  ts !! i = Some p → (total_rank (<[i := p']> ts) + rank p = total_rank ts + rank p')%nat.
Proof.
  unfold total_rank. revert i. induction ts as [|q ts IH]; intros [|i]; csimpl; try done.
  - intros [= ->]. lia.
  - intros Hi. specialize (IH i Hi). lia.
Qed.

Lemma shared_step_rank cf cf' : step cf cf' → (total_rank (cf_threads cf') < total_rank (cf_threads cf))%nat.
Proof.
  intros [w s s' ts i p p' Hw Hi Hs]. simpl. pose proof (total_rank_insert ts i p p' Hi).
  assert (rank p' < rank p)%nat; [|lia]. destruct p; invert_step Hs; simpl; try lia; by destruct (negb _); simpl; lia.
Qed.

Lemma rank_starts ts : Forall starts ts → (total_rank ts ≤ 5 * length ts)%nat.
Proof.
  unfold total_rank. induction 1 as [|p ts Hp _ IH]; csimpl; [lia|].
  assert (rank p ≤ 5)%nat by (by destruct p; simpl; try lia). lia.
Qed.

Lemma shared_step_keeps_cells cf cf' :
  inv cf → step cf cf' → keeps (length (cf_threads cf)) (cf_shared cf) (cf_shared cf').
Proof.
  intros Hinv Hst. destruct Hst as [w s s' ts i p p' Hw Hi Hs]. simpl in *. destruct Hinv as [Hl Hp _ _ _ _]. simpl in *.
  apply (shared_step_keeps w i s p s' p' _ Hs); [exact (Hp i p Hi)|by apply (lk_loading _ _ Hl)|by apply (lk_dialling _ _ Hl)|].
  apply lookup_lt_Some in Hi. lia.
Qed.

(** A call holding a lock can always go on. *)
Lemma holder_steps w i s p : loading p = true ∨ dialling p = true → is_Some (thread_step w i s p).
Proof.
  intros Hp. destruct p; simpl in *; try (destruct Hp; done); repeat case_match; by eexists.
Qed.

Lemma shared_can_step w s ts :
  possible w → inv (mkConfig s ts) → (∀ p, p ∈ ts → finished p) ∨ ∃ cf', step (mkConfig s ts) cf'.
Proof.
  intros Hw [Hl _ _ _ _ _]. simpl in Hl.
  assert (∀ i p, ts !! i = Some p → is_Some (thread_step w i s p) → ∃ cf', step (mkConfig s ts) cf') as Hgo.
  { intros i p Hi [[s' p'] Hs]. eexists. by eapply step_thread. }
  destruct (decide (Forall finished ts)) as [Hall|Hex]; [left; by apply Forall_forall|right].
  apply not_Forall_Exists in Hex; [|apply _]. apply Exists_exists in Hex as (p & Hin & Hp).
  apply list_elem_of_lookup in Hin as [i Hi].
  destruct (thread_step w i s p) as [[s' p']|] eqn:Hs; [by eapply Hgo; [|rewrite Hs]|].
  assert ((∃ j, sh_holder s = Some j) ∨ ∃ j, sh_connecting s = Some j) as [[j Hj]|[j Hj]].
  { destruct p; simpl in *; repeat case_match; try done; eauto; by destruct Hp. }
  - destruct (lk_holder _ _ Hl j Hj) as (q & Hq & Hlq). eapply Hgo; [done|]. apply holder_steps. by left.
  - destruct (lk_connecting _ _ Hl j Hj) as (q & Hq & Hlq). eapply Hgo; [done|]. apply holder_steps. by right.
Qed.

(** C22. The shared client is loaded once and connected once.  In every
    interleaving, what a finished call was told is true, and stays true however
    the run goes on: a load that succeeded has an equal specification compiled to
    the schema, a rejected one a different one; a method is what the schema gives
    for its name, also from the cache; a connection that succeeded has the very
    target and options the one client was dialled with, a rejected one others.
    The schema and the client never change once they are there. *)
Theorem shared_client_once pool_size cf cf' :
  reachable pool_size cf → rtc step cf cf' →
  (∀ i p, cf_threads cf !! i = Some p → finished p →
    cf_threads cf' !! i = Some p ∧ result_ok (cf_shared cf') p) ∧
  (∀ schema, sh_schema (cf_shared cf) = Some schema → sh_schema (cf_shared cf') = Some schema) ∧
  (∀ client, sh_client (cf_shared cf) = Some client → sh_client (cf_shared cf') = Some client).
Proof.
  intros Hr%shared_reachable_inv Hst. assert (inv cf') as Hinv'.
  { clear -Hr Hst. induction Hst; [done|]. apply IHHst. by eapply shared_step_inv. }
  split_and!.
  - intros i p Hi Hp. assert (cf_threads cf' !! i = Some p) as Hi'.
    { clear -Hst Hi Hp. induction Hst as [|a b c Hab _ IH]; [done|]. by apply IH, (shared_step_finished a b). }
    split; [done|]. pose proof (iv_points _ Hinv' i p Hi') as Hpt. by destruct p.
  - intros schema Hs. induction Hst as [|a b c Hab _ IH]; [done|].
    apply IH; [by apply (shared_step_inv a)|done|]. by eapply (shared_step_keeps_cells a b).
  - intros client Hc. induction Hst as [|a b c Hab _ IH]; [done|].
    apply IH; [by apply (shared_step_inv a)|done|]. by eapply (shared_step_keeps_cells a b).
Qed.

(** Every call on the shared client returns.  However the calls interleave
    and whatever protoc and the servers answer, there are at most five steps per
    call, and while a call has not returned some call can go on: neither the
    load lock nor the connection being opened is ever waited for in vain. *)
Theorem shared_calls_return pool_size ts n cf :
  (∃ w, possible w) → Forall starts ts → nsteps step n (mkConfig (new_shared pool_size) ts) cf →
  (n ≤ 5 * length ts)%nat ∧ ((∀ p, p ∈ cf_threads cf → finished p) ∨ ∃ cf', step cf cf').
Proof.
  intros [w Hw] Hts Hn. split.
  - etrans; [|by apply rank_starts]. clear Hts.
    assert (n + total_rank (cf_threads cf) ≤ total_rank ts)%nat; [|lia].
    change ts with (cf_threads (mkConfig (new_shared pool_size) ts)). induction Hn as [|n a b c Hab _ IH]; [done|].
    apply shared_step_rank in Hab. lia.
  - assert (inv cf) as Hinv by (apply (shared_reachable_inv pool_size); exists ts; split; [done|by apply (rtc_nsteps_2 n)]).
    clear Hts Hn. destruct cf as [s l]. by apply (shared_can_step w).
Qed.
End shared.

(** ** Witnesses *)
Section demo.
#[local] Existing Instances Proto.Demo.color demo_grpc.

Definition demo_world : World (E := unit) := mkWorld (λ _, Ok Proto.Demo.pool) demo_dial.
Definition demo_possible (w : World (E := unit)) : Prop := w = demo_world.

Definition demo_spec : LoadSpec := mkLoadSpec ["protos"] "protos/echo.proto".
Definition demo_opts : ConnectOptions := mkConnectOptions None None.
Definition demo_calls : list (pc (E := unit)) :=
  [LoadCall demo_spec; LoadCall (mkLoadSpec ["protos/."] "protos//echo.proto"); MethodCall "Echo/Req";
   ConnectCall "a" demo_opts; ConnectCall "b" demo_opts]%string.

(** A run by schedule. *)
Fixpoint run (sched : list nat) (cf : Config (E := unit)) : option Config :=
  match sched with
  | [] => Some cf
  | i :: sched =>
      p ← cf_threads cf !! i;
      '(s, p) ← thread_step 5 demo_world i (cf_shared cf) p;
      run sched (mkConfig s (<[i := p]> (cf_threads cf)))
  end.

Lemma shared_run_steps sched cf cf' : run sched cf = Some cf' → rtc (step 5 demo_possible) cf cf'.
Proof.
  revert cf. induction sched as [|i sched IH]; intros cf; cbn [run].
  { intros [= ->]. apply rtc_refl. }
  destruct cf as [s ts]. cbn [cf_threads cf_shared]. destruct (ts !! i) as [p|] eqn:Hi; [|done]. cbn [mbind option_bind].
  destruct (thread_step 5 demo_world i s p) as [[s' p']|] eqn:Hs; [|done]. cbn [mbind option_bind]. intros Hr.
  eapply rtc_l; [|by apply IH]. by apply (step_thread 5 demo_possible demo_world s s' ts i p p').
Qed.

(** The second load meets the first one's specification, the second connection
    another target. *)
Definition demo_done : list (pc (E := unit)) :=
  [LoadDone demo_spec (Ok tt); LoadDone (mkLoadSpec ["protos/."] "protos//echo.proto") (Ok tt);
   MethodDone "Echo/Req" (Ok Proto.Demo.echo); ConnectDone "a" demo_opts (Ok tt);
   ConnectDone "b" demo_opts (Err ConnectSpecMismatch)]%string.

Definition demo_config : Config :=
  default (mkConfig (new_shared 16) []) (run [0; 3; 0; 4; 0; 3; 0; 3; 0; 1; 2; 1; 2; 2]%nat (mkConfig (new_shared 16) demo_calls)).

Lemma demo_config_done : cf_threads demo_config = demo_done.
Proof. vm_compute. reflexivity. Qed.

Lemma shared_demo_reachable : reachable 5 demo_possible 16 demo_config.
Proof.
  exists demo_calls. split; [by repeat constructor|]. apply (shared_run_steps [0; 3; 0; 4; 0; 3; 0; 3; 0; 1; 2; 1; 2; 2]%nat).
  vm_compute. reflexivity.
Qed.

Lemma shared_client_once_witness :
  loaded demo_possible (cf_shared demo_config) (mkLoadSpec ["protos/."] "protos//echo.proto") ∧
  known 5 (cf_shared demo_config) "Echo/Req" Proto.Demo.echo ∧
  connected demo_possible (cf_shared demo_config) "a" demo_opts ∧
  ∃ spec, sh_connect_spec (cf_shared demo_config) = Some spec ∧ spec ≠ connect_spec_of "b" demo_opts.
Proof.
  destruct (shared_client_once 5 demo_possible 16 demo_config demo_config shared_demo_reachable (rtc_refl _ _)) as [Hr _].
  rewrite demo_config_done in Hr. split_and!.
  - exact (proj2 (Hr 1%nat _ eq_refl I)).
  - exact (proj2 (Hr 2%nat _ eq_refl I)).
  - exact (proj2 (Hr 3%nat _ eq_refl I)).
  - exact (proj2 (Hr 4%nat _ eq_refl I)).
Defined.

Lemma shared_calls_return_witness :
  (0 ≤ 5 * length demo_calls)%nat ∧
  ((∀ p, p ∈ demo_calls → finished p) ∨ ∃ cf', step 5 demo_possible (mkConfig (new_shared 16) demo_calls) cf').
Proof.
  apply (shared_calls_return 5 demo_possible 16 demo_calls 0 (mkConfig (new_shared 16) demo_calls)).
  - by exists demo_world.
  - by repeat constructor.
  - apply nsteps_O.
Defined.
End demo.

(** ** Who shares *)

(** Clients of one pool size are one; of different sizes they differ. *)
Definition numbers_ok (inner : gmap Z nat) : Prop :=
  (∀ k n, inner !! k = Some n → (n < size inner)%nat) ∧
  (∀ k k' n, inner !! k = Some n → inner !! k' = Some n → k = k').

Lemma get_or_create_spec pool_size inner :
  numbers_ok inner →
  let '(client, inner') := get_or_create pool_size inner in
  numbers_ok inner' ∧ inner ⊆ inner' ∧ inner' !! Z.max pool_size 1 = Some client.
Proof.
  intros [H1 H2]. unfold get_or_create. destruct (inner !! Z.max pool_size 1) as [c|] eqn:E; [by split_and!|].
  split_and!; [split| |by rewrite lookup_insert_eq].
  - intros k n. rewrite map_size_insert_None by done. intros [[<- <-]|[_ Hk]]%lookup_insert_Some; [lia|].
    specialize (H1 k n Hk). lia.
  - intros k k' n [[<- <-]|[_ Hk]]%lookup_insert_Some [[<- He]|[_ Hk']]%lookup_insert_Some; try done.
    + specialize (H1 k' _ Hk'). lia.
    + subst. specialize (H1 k _ Hk). lia.
    + by eapply H2.
  - by apply insert_subseteq.
Qed.
