(* ===== verification/GrpcModule.v ===== *)
(** * The module [wrkr/grpc] of a script (wrkr-lua/src/modules/grpc/opts.rs,
    client.rs, path.rs, result.rs)

    The options of its calls, the table of an invocation's result, and one
    [client:invoke]: what is checked before anything is sent, the call of
    GrpcClient.v and its recording. *)
From S2P Require Import Prelude Coll Std F64 Config Text Key Tags Metrics Registry Agg Requests Checks.
From S2P Require Import Thresholds ThresholdsEval Summary Report Value Coerce Durations YamlText Wire Codec Proto Paths.
From S2P Require Import Lua LuaValues LuaOptions HttpClient HttpModule GrpcClient SharedGrpc.

Local Open Scope Z_scope.

(** path.rs *)
Definition resolve_path (script_path p : string) : string :=
  if is_absolute p then p else match parent script_path with Some dir => join dir p | None => p end.

Section module.
Context {T : Type} {L : LuaTables T} {Hu : Humantime}.
(** mlua's message for a value that does not convert to the type named. *)
Context (conversion_error : string → string).

Local Notation result A := (result LuaError.t A).

(** ** Conversions of mlua *)
Definition from_lua {A} (type : string) (conv : LuaValue T → option A) (v : LuaValue T) : result A :=
  ok_or (conv v) (LuaError.Lua (conversion_error type)).

(** [opts.get::<Option<A>>(key)?]. *)
Definition get_opt {A} (type : string) (conv : LuaValue T → option A) (opts : T) (key : string) : result (option A) :=
  v ← lua_try (tbl_get opts key);
  match v with LNil => Ok None | v => Some <$> from_lua type conv v end.

Definition bytes_of_lua (v : LuaValue T) : option string :=
  match v with
  | LString s => Some s
  | LInteger i => Some (show_Z i)
  | LNumber n => Some (coerce_string n)
  | _ => None
  end.
Definition bool_of_lua (v : LuaValue T) : option bool := Some (match v with LBoolean b => b | _ => true end).
Definition table_of_lua (v : LuaValue T) : option T := match v with LTable t => Some t | _ => None end.

Definition external {A} (msg : string) : result A := Err (LuaError.Lua msg).

(** ** opts.rs *)
Definition parse_duration (v : string) : result Z :=
  ok_or (humantime_parse v) (LuaError.Lua ("invalid duration '" ++ v ++ "'")).

Definition get_duration_opt (opts : T) : result (option Z) :=
  v ← get_opt "String" string_of_lua opts "timeout";
  match v with Some v => Some <$> parse_duration v | None => Ok None end.

Definition parse_pool_size (opts : T) (max_vus : Z) : result (option Z) :=
  pool_val ← lua_try (tbl_get opts "pool_size");
  match pool_val with
  | LNil => Ok None
  | _ =>
      raw_value ← match pool_val with
        | LInteger i => Ok i
        | LNumber n =>
            let n := f64_from_bits n in
            if negb (f_is_finite n) || negb (fract_is_zero n)
            then external "grpc.Client.new: pool_size must be a finite integer"
            else Ok (F64.to_i64 n)
        | _ => external "grpc.Client.new: pool_size must be a number"
        end;
      if raw_value <=? 0 then external "grpc.Client.new: pool_size must be a positive integer"
      else
        let max_pool := Z.max 1 (Z.min 1024 max_vus) in
        if max_pool <? raw_value
        then external ("grpc.Client.new: pool_size must be between 1 and " ++ show max_pool)
        else Ok (Some raw_value)
  end.

Definition parse_client_new (opts : option T) (max_vus : Z) : result (option Z) :=
  match opts with None => Ok None | Some opts => parse_pool_size opts max_vus end.

(** [TlsLuaOptions::parse] and [into_tls_config]. *)
Definition parse_tls (tls_tbl : T) : result TlsConfig :=
  server_name ← get_opt "String" string_of_lua tls_tbl "server_name";
  insecure_skip_verify ← get_opt "bool" bool_of_lua tls_tbl "insecure_skip_verify";
  ca ← get_opt "string" bytes_of_lua tls_tbl "ca";
  cert ← get_opt "string" bytes_of_lua tls_tbl "cert";
  key ← get_opt "string" bytes_of_lua tls_tbl "key";
  Ok (mkTls ca cert key server_name (default false insecure_skip_verify)).

(** [ConnectLuaOptions::parse] and [into_connect_options]. *)
Definition parse_connect (opts : option T) : result ConnectOptions :=
  match opts with
  | None => Ok (mkConnectOptions None None)
  | Some opts =>
      timeout ← get_duration_opt opts;
      tls ← get_opt "table" table_of_lua opts "tls";
      tls ← match tls with Some t => Some <$> parse_tls t | None => Ok None end;
      Ok (mkConnectOptions timeout tls)
  end.

(** One pair of the metadata: a string, or the strings of an array. *)
Definition metadata_of_pair (p : LuaValue T * LuaValue T) : result (option (list (string * string))) :=
  match p with
  | (LString k, LString s) => Ok (Some [(Lua.to_string_lossy k, Lua.to_string_lossy s)])
  | (LString k, LTable arr) =>
      let key := Lua.to_string_lossy k in
      Some <$> collect (λ v, Ok (match v with LString s => Some (key, Lua.to_string_lossy s) | _ => None end))
        (sequence_values arr)
  | _ => Ok None
  end.
Definition parse_metadata (opts : T) : result (list (string * string)) :=
  match get_table opts "metadata" with
  | None => Ok []
  | Some md_tbl => (λ l, concat l) <$> collect metadata_of_pair (tbl_pairs md_tbl)
  end.

Definition parse_tags (opts : T) : result (list (string * string)) := text_pairs tag_text "tags" opts.

Record InvokeLuaOptions := mkInvokeLua {
  il_tags : list (string * string);
  il_timeout : option Z;
  il_metadata : list (string * string);
  il_int64 : Int64Repr }.

Definition parse_invoke (opts : option T) : result InvokeLuaOptions :=
  match opts with
  | None => Ok (mkInvokeLua [] None [] ReprInteger)
  | Some opts =>
      tags ← parse_tags opts;
      timeout ← get_duration_opt opts;
      metadata ← parse_metadata opts;
      int64 ← get_opt "String" string_of_lua opts "int64";
      int64_repr ← match int64 with
        | None => Ok ReprInteger
        | Some s =>
            if bool_decide (s = "integer")%string then Ok ReprInteger
            else if bool_decide (s = "string")%string then Ok ReprString
            else external "grpc invoke opts.int64 must be 'integer' or 'string'"
        end;
      Ok (mkInvokeLua tags timeout metadata int64_repr)
  end.

(** ** result.rs *)
Record InvokeLuaResult := mkInvokeResult {
  ir_ok : bool;
  ir_status : option Z;
  ir_message : option string;
  ir_error_kind : option string;
  ir_error : option string;
  ir_response : option Value }.

(** The results without an answer. *)
Definition failed_result (kind error : string) : InvokeLuaResult :=
  mkInvokeResult false None None (Some kind) (Some error) None.
Definition not_connected : InvokeLuaResult := failed_result "not_connected" "grpc client: call connect() first".
Definition invalid_method : InvokeLuaResult := failed_result "invalid_method" "grpc client: method name must be utf-8".
Definition not_loaded : InvokeLuaResult := failed_result "not_loaded" "grpc client: call load() first".
Definition encode_error (err : string) : InvokeLuaResult := failed_result "encode" err.
Definition transport_error (kind : GrpcTransportErrorKind) (err : string) : InvokeLuaResult :=
  failed_result (grpc_kind_to_string kind) err.

Definition from_unary_result (res : UnaryResult) : InvokeLuaResult :=
  mkInvokeResult (ur_ok res) (ur_status res) (ur_message res) (grpc_kind_to_string <$> ur_kind res) (ur_error res)
    (Some (ur_response res)).

Definition set_opt (key : string) (v : option (LuaValue T)) (t : T) : result T :=
  match v with Some v => set_key key v t | None => Ok t end.

Definition invoke_table (r : InvokeLuaResult) (int64_repr : Int64Repr) : result T :=
  t ← set_key "ok" (LBoolean (ir_ok r)) create_table;
  t ← set_key "status" match ir_status r with Some status => LInteger status | None => LNil end t;
  t ← set_opt "message" (LString <$> ir_message r) t;
  t ← set_opt "error_kind" (LString <$> ir_error_kind r) t;
  t ← set_opt "error" (LString <$> ir_error r) t;
  match ir_response r with
  | Some response => resp ← lua_try (value_to_lua response int64_repr); set_key "response" resp t
  | None => Ok t
  end.

(** ** client.rs *)

(** [grpc.Client.new(opts)]: the shared client of the pool size. *)
Definition client_new (opts : option T) (max_vus : Z) (registry : gmap Z nat) : result (nat * gmap Z nat) :=
  parsed ← parse_client_new opts max_vus;
  Ok (get_or_create (default (default_pool_size max_vus) parsed) registry).

(** The argument of [client:load(paths, file)]. *)
Definition load_spec (script_path : string) (paths : T) (file : string) : result LoadSpec :=
  include_paths ← collect (λ v, (λ p, Some (resolve_path script_path p)) <$> from_lua "String" string_of_lua v)
    (sequence_values paths);
  Ok (mkLoadSpec include_paths (resolve_path script_path file)).

Context {GL : GrpcLib} {E : Type} {ED : EnumDescriptor E} {H : HistOps} {M : MapIter}.

Definition grpc_tags (ctx : MetricsContext) (group : option string) (tags : list (string * string)) :
    list (string * string) :=
  let tags := merge_scenario_tags_if_missing ctx ["scenario"; "protocol"; "error_kind"; "group"]%string tags in
  match group with
  | Some g => if has_key "group" tags then tags else tags ++ [("group"%string, g)]
  | None => tags
  end.

(** The request's bytes, or the message of the error. *)
Definition request_bytes (method : @GrpcMethod E) (req : LuaValue T) : Prelude.result string (list Z) :=
  match req with
  | LString s => Ok (as_bytes s)
  | other =>
      req_value ← lua_to_value other ReprString;
      map_err grpc_error_to_string (encode_unary_request method req_value)
  end.

Definition unary_sample (ctx : MetricsContext) (elapsed sent : Z) (res : Prelude.result GrpcError UnaryResult) :
    RequestSample :=
  match res with
  | Ok res => mkSample (mc_scenario ctx) Grpc true elapsed (ur_bytes_received res) (ur_bytes_sent res) None
  | Err e => mkSample (mc_scenario ctx) Grpc false elapsed 0 sent (Some (grpc_kind_to_string (grpc_error_kind e)))
  end.

(** [client:invoke(full_method, req, opts)]: [client] and [method] are what the
    shared client holds at that moment, [r] the registry when the answer comes. *)
Definition invoke (ids : RequestMetricIds) (ctx : MetricsContext) (group : option string)
    (exchange : option Channel → GrpcRequest → Exchange) (elapsed : Z)
    (client : option GrpcClient) (lookup : string → Prelude.result SharedError (@GrpcMethod E))
    (full_method : string) (req : LuaValue T) (opts : option T) (r : Registry) :
    result T * option GrpcClient * Registry :=
  match client with
  | None => (invoke_table not_connected ReprInteger, client, r)
  | Some cl =>
      match from_utf8 (as_bytes full_method) with
      | None => (invoke_table invalid_method ReprInteger, client, r)
      | Some full_method =>
          match lookup full_method with
          | Err _ => (invoke_table not_loaded ReprInteger, client, r)
          | Ok method =>
              match parse_invoke opts with
              | Err e => (Err e, client, r)
              | Ok parsed =>
                  let extra_tags := grpc_tags ctx group (il_tags parsed) in
                  match request_bytes method req with
                  | Err e => (invoke_table (encode_error e) ReprInteger, client, r)
                  | Ok req_bytes =>
                      let '(res, cl) := unary_bytes exchange elapsed cl method req_bytes
                        (mkInvokeOptions (il_timeout parsed) (il_metadata parsed)) in
                      let r := record_request ids
                        (unary_sample ctx elapsed (Z.of_nat (length req_bytes)) res) extra_tags r in
                      (match res with
                       | Ok res => invoke_table (from_unary_result res) (il_int64 parsed)
                       | Err e => invoke_table (transport_error (grpc_error_kind e) (grpc_error_to_string e)) ReprInteger
                       end, Some cl, r)
                  end
              end
          end
      end
  end.

(** [client:encode(full_method, req)]: the bytes, or nil and a message. *)
Definition encode (lookup : string → Prelude.result SharedError (@GrpcMethod E)) (full_method : string)
    (req : LuaValue T) : list (LuaValue T) :=
  match from_utf8 (as_bytes full_method) with
  | None => [LNil; LString "grpc client: method name must be utf-8"]
  | Some full_method =>
      match lookup full_method with
      | Err _ => [LNil; LString "grpc client: call load() first"]
      | Ok method =>
          match lua_to_value req ReprString with
          | Err e => [LNil; LString e]
          | Ok req_value =>
              match encode_unary_request method req_value with
              | Ok bytes => [LString (of_bytes bytes)]
              | Err e => [LNil; LString (grpc_error_to_string e)]
              end
          end
      end
  end.
End module.

(** ** What a script sees *)
#[local] Opaque value_to_lua.
Section view.
Context {T : Type} {L : LuaTables T} {W : LuaLaws T}.

Definition opt_entry (key : string) (o : option (LuaValue T)) : list (LuaValue T * LuaValue T) :=
  match o with Some LNil | None => [] | Some v => [(LString key, v)] end.

Lemma set_opt_plain key o t es :
  plain t es → LString key ∉ es.*1 → ∃ t', set_opt key o t = Ok t' ∧ plain t' (es ++ opt_entry key o).
Proof.
  intros Hp Hn. destruct o as [v|]; simpl; [|exists t; by rewrite app_nil_r].
  assert (v = LNil ∨ v ≠ LNil) as [->|Hv] by (destruct v; first [by left | by right]).
  - destruct (plain_set_nil t es (LString key) Hp I Hn) as (t' & Ht & Hp'). exists t'.
    unfold set_key. rewrite Ht. by rewrite app_nil_r.
  - destruct (set_key_plain key v t es Hp Hn Hv) as (t' & Ht & Hp'). exists t'. split; [done|]. by destruct v.
Qed.

(** The keys of a result's table. *)
Definition result_entries (r : InvokeLuaResult) (resp : option (LuaValue T)) : list (LuaValue T * LuaValue T) :=
  opt_entry "ok" (Some (LBoolean (ir_ok r))) ++ opt_entry "status" (LInteger <$> ir_status r) ++
  opt_entry "message" (LString <$> ir_message r) ++ opt_entry "error_kind" (LString <$> ir_error_kind r) ++
  opt_entry "error" (LString <$> ir_error r) ++ opt_entry "response" resp.

Lemma opt_entry_key key o k : k ∈ (opt_entry key o).*1 → k = LString key.
Proof. destruct o as [[]|]; csimpl; set_solver. Qed.

Lemma opt_entry_NoDup key o : NoDup (opt_entry key o).*1.
Proof. destruct o as [[]|]; csimpl; first [apply NoDup_nil_2 | apply NoDup_singleton]. Qed.

Lemma result_entries_NoDup r resp : NoDup (result_entries r resp).*1.
Proof.
  unfold result_entries. rewrite !fmap_app.
  repeat (apply NoDup_app; split_and!; [apply opt_entry_NoDup| |]); [..|apply opt_entry_NoDup].
  all: intros k Hk; apply opt_entry_key in Hk as ->; rewrite ?elem_of_app; intros Hin; repeat match type of Hin with _ ∨ _ => destruct Hin as [Hin|Hin] end;
    by apply opt_entry_key in Hin.
Qed.

(** A key that is set reads as its value, and one that is not as nil. *)
Lemma result_get t r resp key v :
  plain t (result_entries r resp) →
  (key, v) ∈ [("ok", Some (LBoolean (ir_ok r))); ("status", LInteger <$> ir_status r);
    ("message", LString <$> ir_message r); ("error_kind", LString <$> ir_error_kind r);
    ("error", LString <$> ir_error r); ("response", resp)]%string →
  tbl_get t key = Ok (default LNil v).
Proof.
  intros Hp Hin. pose proof (result_entries_NoDup r resp) as Hnd.
  assert (opt_entry key v = [] ∨ opt_entry key v ≠ []) as [Hnil|Hne] by (destruct (opt_entry key v); auto).
  - assert (default LNil v = LNil) as -> by (by destruct v as [[]|]).
    eapply plain_get_absent; [exact Hp|]. unfold result_entries. rewrite !fmap_app, !elem_of_app.
    intros Hk. assert (∀ key' o, LString key ∈ (opt_entry key' o).*1 → key = key') as Hkey
      by (intros key' o Hx%opt_entry_key; congruence).
    repeat (apply elem_of_cons in Hin as [Hin|Hin]); [injection Hin as -> ->..|by apply elem_of_nil in Hin];
      repeat match type of Hk with _ ∨ _ => destruct Hk as [Hk|Hk] end; try (by apply Hkey in Hk); rewrite Hnil in Hk; by apply elem_of_nil in Hk.
  - eapply plain_get; [exact Hp|done|].
    assert ((LString key, default LNil v) ∈ opt_entry key v) as Hv by (destruct v as [[]|]; simpl in *; set_solver).
    unfold result_entries. rewrite !elem_of_app.
    repeat (apply elem_of_cons in Hin as [Hin|Hin]); [injection Hin as -> ->..|by apply elem_of_nil in Hin]; tauto.
Qed.

Lemma status_entry st : set_key "status" match st with Some status => LInteger status | None => LNil end
  = set_opt "status" (Some match st with Some status => LInteger status | None => LNil end).
Proof. done. Qed.

(** The table exists when the response converts. *)
Lemma invoke_table_plain r repr :
  match match ir_response r with Some v => Some <$> value_to_lua v repr | None => Ok None end with
  | Err e => invoke_table r repr = Err (LuaError.Lua e)
  | Ok resp => ∃ t, invoke_table r repr = Ok t ∧ plain t (result_entries r resp)
  end.
Proof.
  unfold invoke_table. destruct (set_opt_plain "ok" (Some (LBoolean (ir_ok r))) create_table [] plain_new) as (t1 & H1 & P1);
    [set_solver|]. change (set_key "ok" (LBoolean (ir_ok r)) create_table) with
    (set_opt "ok" (Some (LBoolean (ir_ok r))) create_table). rewrite H1. simpl.
  assert (∀ key o key', LString key' ∈ (opt_entry key o).*1 → key' = key) as Hkey
    by (intros key o key' Hx%opt_entry_key; congruence).
  rewrite status_entry.
  destruct (set_opt_plain "status" (Some match ir_status r with Some status => LInteger status | None => LNil end) t1 _ P1)
    as (t2 & H2 & P2); [simpl; set_solver|]. rewrite H2. simpl.
  destruct (set_opt_plain "message" (LString <$> ir_message r) t2 _ P2) as (t3 & H3 & P3).
  { rewrite !fmap_app, !elem_of_app. intros [Hx|Hx]; [set_solver|]. by apply Hkey in Hx. }
  rewrite H3. simpl. destruct (set_opt_plain "error_kind" (LString <$> ir_error_kind r) t3 _ P3) as (t4 & H4 & P4).
  { rewrite !fmap_app, !elem_of_app. intros [[Hx|Hx]|Hx]; [set_solver|by apply Hkey in Hx..]. }
  rewrite H4. simpl. destruct (set_opt_plain "error" (LString <$> ir_error r) t4 _ P4) as (t5 & H5 & P5).
  { rewrite !fmap_app, !elem_of_app. intros [[[Hx|Hx]|Hx]|Hx]; [set_solver|by apply Hkey in Hx..]. }
  rewrite H5. simpl.
  destruct (ir_response r) as [v|] eqn:Er; simpl.
  - destruct (value_to_lua v repr) as [resp|e]; simpl; [|done].
    destruct (set_opt_plain "response" (Some resp) t5 _ P5) as (t6 & H6 & P6).
    { rewrite !fmap_app, !elem_of_app. intros [[[[Hx|Hx]|Hx]|Hx]|Hx]; [set_solver|by apply Hkey in Hx..]. }
    exists t6. split; [done|]. unfold result_entries. rewrite <- !app_assoc in P6.
    by destruct (ir_status r).
  - exists t5. split; [done|]. unfold result_entries. simpl. rewrite <- !app_assoc in P5.
    destruct (ir_status r); simpl in *; by rewrite app_nil_r.
Qed.

Lemma invoke_table_response r repr v :
  ir_response r = Some v →
  match value_to_lua v repr with
  | Err e => invoke_table r repr = Err (LuaError.Lua e)
  | Ok resp => ∃ t, invoke_table r repr = Ok t ∧ plain t (result_entries r (Some resp))
  end.
Proof.
  intros Hr. pose proof (invoke_table_plain r repr) as Ht. rewrite Hr in Ht.
  destruct (value_to_lua v repr); exact Ht.
Qed.
End view.

Lemma grpc_tags_sole ctx group tags :
  (∀ k v, sole k v tags → sole k v (grpc_tags ctx group tags)) ∧
  (∀ g, group = Some g → has_key "group" tags = false → sole "group" g (grpc_tags ctx group tags)).
Proof.
  unfold grpc_tags. set (all := merge_scenario_tags_if_missing ctx _ tags). split.
  - intros k v Hs. assert (sole k v all) as Ha by by apply sole_merge.
    destruct group as [g|]; [|done]. destruct (has_key "group" all) eqn:E; [done|]. by apply sole_add.
  - intros g -> Hn. assert (has_key "group" all = false) as Ha by (apply has_key_merge; [set_solver|done]).
    rewrite Ha. by apply sole_absent.
Qed.

Section recorded.
Context {T : Type} {L : LuaTables T} {W : LuaLaws T} {Hu : Humantime} (conversion_error : string → string).
Context {GL : GrpcLib} {E : Type} {ED : EnumDescriptor E} {H : HistOps} {M : MapIter}.

Lemma unary_sizes exchange elapsed cl (method : @GrpcMethod E) req opts res cl' :
  unary_inner exchange elapsed cl method req opts = (Ok res, cl') →
  ur_bytes_sent res = Z.of_nat (length req) ∧ 0 ≤ ur_bytes_received res ∧ ur_kind res = None.
Proof.
  unfold unary_inner. destruct (insert_metadata _ _); [|done]. simpl. destruct (exchange _ _) as [m|st|md msg]; [done| |].
  - intros [= <- _]. simpl. split_and!; [done|lia|done].
  - destruct (decode_bytes msg) as [decoded|]; simpl.
    + destruct (map_err GeDecode _) as [resp|]; simpl; [|done]. intros [= <- _]. simpl. split_and!; [done|lia|done].
    + intros [= <- _]. simpl. split_and!; [done|lia|done].
Qed.

(** The script gets a failure table. *)
Definition failure_seen (kind error : string) (out : result LuaError.t T) : Prop :=
  ∃ t, out = Ok t ∧ tbl_get t "ok" = Ok (LBoolean false) ∧ tbl_get t "status" = Ok LNil ∧
    tbl_get t "error_kind" = Ok (LString kind) ∧ tbl_get t "error" = Ok (LString error) ∧
    tbl_get t "response" = Ok LNil.

Lemma failure_table kind error : failure_seen kind error (invoke_table (failed_result kind error) ReprInteger).
Proof.
  destruct (invoke_table_plain (failed_result kind error) ReprInteger) as (t & Ht & P). exists t.
  pose proof (λ k v, result_get t _ None k v P) as Hg. simpl in Hg.
  split_and!; [done|by apply (Hg _ (Some _)); set_solver|by apply (Hg _ None); set_solver|
    by apply (Hg _ (Some _)); set_solver|by apply (Hg _ (Some _)); set_solver|by apply (Hg _ None); set_solver].
Qed.

(** The script gets the result of the call, or the error of a response that does
    not convert. *)
Definition result_seen (res : UnaryResult) (repr : Int64Repr) (out : result LuaError.t T) : Prop :=
  match value_to_lua (ur_response res) repr with
  | Err e => out = Err (LuaError.Lua e)
  | Ok resp => ∃ t, out = Ok t ∧ tbl_get t "ok" = Ok (LBoolean (ur_ok res)) ∧
      tbl_get t "status" = Ok (default LNil (LInteger <$> ur_status res)) ∧
      tbl_get t "message" = Ok (default LNil (LString <$> ur_message res)) ∧
      tbl_get t "error" = Ok (default LNil (LString <$> ur_error res)) ∧ tbl_get t "response" = Ok resp
  end.

Lemma result_table res repr : result_seen res repr (invoke_table (from_unary_result res) repr).
Proof.
  pose proof (invoke_table_response (from_unary_result res) repr (ur_response res) eq_refl) as Ht. unfold result_seen.
  destruct (value_to_lua (ur_response res) repr) as [resp|e]; [|done].
  destruct Ht as (t & Ht & P). exists t. pose proof (λ k v, result_get t _ (Some resp) k v P) as Hg.
  cbn [from_unary_result ir_ok ir_status ir_message ir_error_kind ir_error] in Hg.
  split_and!; [done|by apply (Hg _ (Some _)); set_solver|by apply Hg; set_solver|by apply Hg; set_solver|
    by apply Hg; set_solver|by apply (Hg _ (Some _)); set_solver].
Qed.

Definition invoke_recorded (ids : RequestMetricIds) (ctx : MetricsContext) (group : option string)
    (tags : list (string * string)) (s : RequestSample) (r r' : Registry) : Prop :=
  ∃ tp, registry_wf r' ∧ counted ids s tp r r' ∧
    has_tag r' tp "scenario" (mc_scenario ctx) ∧ has_tag r' tp "protocol" "grpc" ∧
    (∀ k v, k ∉ request_reserved → sole k v tags → has_tag r' tp k v) ∧
    (∀ g, group = Some g → has_key "group" tags = false → has_tag r' tp "group" g).

End recorded.

(** ** Witness *)
Section demo.
#[local] Existing Instances Proto.Demo.color demo_grpc.

Definition demo_grpc_opts : option Tree := Some (Node [(LString "tags", LTable (Node [(LString "route", LString "echo")]))]).
Definition demo_exchange (c : option Channel) (q : GrpcRequest) : Exchange := Answered [] [10; 1; 97].
Definition demo_lookup (name : string) : Prelude.result SharedError (@GrpcMethod unit) := Ok Proto.Demo.echo.
Definition demo_invoked : Prelude.result LuaError.t Tree * option GrpcClient * Registry :=
  invoke (Hu := ns_humantime) (λ t, t) start_ids (mkMetricsContext "main" [("team", "a")]%string) (Some "g"%string)
    demo_exchange 1000 (Some demo_client) demo_lookup "Echo/Req" (LString "ab") demo_grpc_opts start.

End demo.
