(* ===== verification/SharedModule.v ===== *)
(** * The module wrkr/shared (wrkr-lua/src/modules/shared.rs, shared/opts.rs,
    shared/result.rs)

    The functions a script calls, over the store of Store.v, the barriers it
    holds (Barrier.v) and the conversions of LuaValues.v.  What a script does
    between its calls is left open: a VU may make any call at any time.  The
    calls and their answers are kept in order. *)
From S2P Require Import Prelude Coll Value Text Barrier Store Lua LuaValues.

Local Open Scope Z_scope.

(** A call with its arguments as mlua hands them over. *)
Inductive Call (T : Type) :=
  | CallGet (key : string)
  | CallSetValue (key : string) (value : LuaValue T)
  | CallDeleteKey (key : string)
  | CallIncrBy (key : string) (delta : option Z)
  | CallCounter (key : string)
  | CallWaitFor (key : string)
  | CallBarrier (name : string) (parties : Z).
Arguments CallGet {T} key.
Arguments CallSetValue {T} key value.
Arguments CallDeleteKey {T} key.
Arguments CallIncrBy {T} key delta.
Arguments CallCounter {T} key.
Arguments CallWaitFor {T} key.
Arguments CallBarrier {T} name parties.

Definition barrier_error_text (e : SharedBarrierError) : string :=
  match e with
  | InvalidParties => "invalid barrier parties (must be > 0)"
  | PartiesMismatch expected got =>
      "barrier parties mismatch (expected " ++ show expected ++ ", got " ++ show got ++ ")"
  end%string.

Section shared_module.
Context {T : Type} {L : LuaTables T} {W : WatchOps} {B : BarrierOps}.

Definition Answer : Type := result string (LuaValue T).

(** result.rs *)
Definition shared_value_to_lua (value : option Value) : Answer :=
  match value with None => Ok LNil | Some value => value_to_lua value ReprInteger end.

(** opts.rs, [SharedSetLuaArgs::parse]. *)
Definition parse_set (key : string) (value : LuaValue T) : result string (string * Value) :=
  value ← lua_to_value value ReprInteger; Ok (key, value).

(** The store and the objects behind the barriers it numbers. *)
Record Shared := mkShared { sh_store : Inner; sh_barriers : gmap nat barrier }.

(** A VU between calls, inside a method of the store, or at a barrier. *)
Inductive VuState :=
  | Script
  | InStore (p : pc) (c : Call T)
  | AtBarrier (id : nat) (c : Call T)
  | InBarrier (id : nat) (t : ticket) (c : Call T).

(** [barrier_wait] up to the wait: a new entry has a new [Barrier]. *)
Definition enter_barrier (name : string) (parties : Z) (sh : Shared) : result SharedBarrierError nat * Shared :=
  let '(r, store) := barrier_enter name parties (sh_store sh) in
  let made := negb (Nat.eqb (in_next_barrier store) (in_next_barrier (sh_store sh))) in
  (r, mkShared store
        (if made then <[in_next_barrier (sh_store sh) := barrier_new parties]> (sh_barriers sh) else sh_barriers sh)).

(** The call up to its first suspension; [Some] answer if it has none. *)
Definition begin_call (c : Call T) (sh : Shared) : Shared * VuState * option Answer :=
  match c with
  | CallGet key => (sh, Script, Some (shared_value_to_lua (get key (sh_store sh))))
  | CallSetValue key value =>
      match parse_set key value with
      | Err e => (sh, Script, Some (Err e))
      | Ok (key, value) => (sh, InStore (CallSet key value) c, None)
      end
  | CallDeleteKey key => (sh, InStore (CallDelete key) c, None)
  | CallIncrBy key delta => (sh, InStore (CallIncr key (default 1 delta)) c, None)
  | CallCounter key => (sh, Script, Some (Ok (LInteger (get_counter key (sh_store sh)))))
  | CallWaitFor key => (sh, InStore (CallWait key) c, None)
  | CallBarrier name parties =>
      match enter_barrier name parties sh with
      | (Err e, sh) => (sh, Script, Some (Err (barrier_error_text e)))
      | (Ok id, sh) => (sh, AtBarrier id c, None)
      end
  end.

(** What the method's result becomes: [wait] reads the key again. *)
Definition method_answer (c : Call T) (r : option Z) (sh : Shared) : Answer :=
  match c with
  | CallIncrBy _ _ => Ok (LInteger (default 0 r))
  | CallWaitFor key => shared_value_to_lua (get key (sh_store sh))
  | _ => Ok LNil
  end.

(** The next step of a suspended call; [None] while it is blocked. *)
Definition resume_call (st : VuState) (sh : Shared) : option (Shared * VuState * option Answer) :=
  match st with
  | Script => None
  | InStore (Returned r) c => Some (sh, Script, Some (method_answer c r sh))
  | InStore p c => '(store, p) ← thread_step (sh_store sh) p; Some (mkShared store (sh_barriers sh), InStore p c, None)
  | AtBarrier id c =>
      b ← sh_barriers sh !! id;
      let '(t, b) := arrive b in Some (mkShared (sh_store sh) (<[id := b]> (sh_barriers sh)), InBarrier id t c, None)
  | InBarrier id t c =>
      b ← sh_barriers sh !! id;
      if released b t then Some (sh, Script, Some (Ok LNil)) else None
  end.

Inductive Event :=
  | Called (vu : nat) (c : Call T)
  | Answered (vu : nat) (c : Call T) (r : Answer).

Record World := mkWorld { w_shared : Shared; w_vus : list VuState; w_events : list Event }.

Definition call_of (st : VuState) : option (Call T) :=
  match st with Script => None | InStore _ c | AtBarrier _ c | InBarrier _ _ c => Some c end.

Definition answered (i : nat) (c : Call T) (a : option Answer) : list Event :=
  match a with Some a => [Answered i c a] | None => [] end.

Inductive world_step : World → World → Prop :=
  | step_call sh vus h i c sh' st a :
      vus !! i = Some Script → begin_call c sh = (sh', st, a) →
      world_step (mkWorld sh vus h) (mkWorld sh' (<[i := st]> vus) (h ++ Called i c :: answered i c a))
  | step_resume sh vus h i st c sh' st' a :
      vus !! i = Some st → call_of st = Some c → resume_call st sh = Some (sh', st', a) →
      world_step (mkWorld sh vus h) (mkWorld sh' (<[i := st']> vus) (h ++ answered i c a)).

Definition fresh (vus : nat) : World := mkWorld (mkShared empty_store ∅) (replicate vus Script) [].
Definition world_reachable (w : World) : Prop := ∃ vus, rtc world_step (fresh vus) w.

(** The same as a function: the VUs in the order they move, each with the call
    it makes if it is between calls. *)
Definition move (w : World) (m : nat * option (Call T)) : option World :=
  let '(i, c) := m in
  let 'mkWorld sh vus h := w in
  st ← vus !! i;
  match c with
  | Some c =>
      match st with
      | Script => let '(sh', st', a) := begin_call c sh in Some (mkWorld sh' (<[i := st']> vus) (h ++ Called i c :: answered i c a))
      | _ => None
      end
  | None =>
      c ← call_of st;
      '(sh', st', a) ← resume_call st sh;
      Some (mkWorld sh' (<[i := st']> vus) (h ++ answered i c a))
  end.

Fixpoint moves (l : list (nat * option (Call T))) (w : World) : option World :=
  match l with [] => Some w | m :: l => w ← move w m; moves l w end.

Lemma move_step w m w' : move w m = Some w' → world_step w w'.
Proof.
  destruct w as [sh vus h], m as [i [c|]]; simpl; destruct (vus !! i) as [st|] eqn:Hi; try done; simpl.
  - destruct st; try done. destruct (begin_call c sh) as [[sh' st'] a] eqn:Hb. intros [= <-]. by econstructor.
  - destruct (call_of st) as [c|] eqn:Hc; [|done]. simpl.
    destruct (resume_call st sh) as [[[sh' st'] a]|] eqn:Hr; [|done]. intros [= <-]. by econstructor.
Qed.

Lemma moves_reachable l vus w : moves l (fresh vus) = Some w → world_reachable w.
Proof.
  intros Hm. exists vus. revert Hm. generalize (fresh vus). induction l as [|m l IH]; intros w0; simpl; [by intros [= ->]|].
  destruct (move w0 m) as [w1|] eqn:E; [|done]. intros Hl%IH. eapply rtc_l; [by eapply move_step|done].
Qed.

(** ** Equations the properties use *)
Lemma shared_eta (sh : Shared) : mkShared (sh_store sh) (sh_barriers sh) = sh.
Proof. by destruct sh. Qed.

Lemma resume_method p c (sh : Shared) : (¬ ∃ r, p = Returned r) →
  resume_call (InStore p c) sh =
  ('(store, p) ← thread_step (sh_store sh) p; Some (mkShared store (sh_barriers sh), InStore p c, None)).
Proof. intros Hp. destruct p; try done. by destruct Hp; eexists. Qed.
End shared_module.
