(* ===== verification/SharedProps.v ===== *)
(** * What scripts may rely on of wrkr/shared

    Handing a value over by [set], [get] and [wait], and meeting at a barrier,
    however the VUs' calls interleave. *)
From S2P Require Import Prelude Coll Value Text Barrier Store Lua LuaValues LuaValuesProps SharedModule.

Local Open Scope Z_scope.

Lemma shared_some {T} {L : LuaTables T} (v : Value) : shared_value_to_lua (T := T) (Some v) = value_to_lua v ReprInteger.
Proof. reflexivity. Qed.

Lemma clean_reads_back {T} {L : LuaTables T} {LL : LuaLaws T} v : lua_clean 64 v →
  ∃ lv v', value_to_lua (T := T) v ReprInteger = Ok lv ∧ lua_to_value lv ReprInteger = Ok v' ∧ same v v'.
Proof. intros Hc. destruct (value_back 64 v 64 Hc) as (lv & H1 & _ & v' & H2 & H3); [done|]. by exists lv, v'. Qed.

#[local] Opaque value_to_lua lua_to_value shared_value_to_lua.

Section handover.
Context {T : Type} {L : LuaTables T} {W : WatchOps} {B : BarrierOps}.

(** Where the store's method is in the call. *)
Definition fits (c : Call T) (p : pc) : Prop :=
  match c, p with
  | CallSetValue k value, CallSet k' v => k = k' ∧ lua_to_value value ReprInteger = Ok v
  | CallSetValue k _, (Notify k' Nothing | NotifyNext k' _ Nothing) => k = k'
  | CallSetValue _ _, Returned None => True
  | CallDeleteKey k, CallDelete k' => k = k'
  | CallDeleteKey _, Returned None => True
  | CallIncrBy k delta, CallIncr k' d => k = k' ∧ d = default 1 delta
  | CallIncrBy k _, (Notify k' ReRead | NotifyNext k' _ ReRead | Read k') => k = k'
  | CallIncrBy _ _, Returned (Some _) => True
  | CallWaitFor k, (CallWait k' | WaitCheck k' _ | WaitPark k' _) => k = k'
  | CallWaitFor _, Returned None => True
  | _, _ => False
  end.

Lemma notify_fits key k s c : (match k with Nothing => ∃ v, c = CallSetValue key v | ReRead => ∃ d, c = CallIncrBy key d end) →
  fits c (notify_pc key k s) ∧ fits c (then_ key k).
Proof. unfold notify_pc. intros Hc. destruct (in_notifies s !! key), k; destruct Hc as [? ->]; done. Qed.

Lemma fits_step c s p s' p' : fits c p → thread_step s p = Some (s', p') → fits c p'.
Proof.
  intros Hf Hs. destruct c, p as [| | | |? []|? ? []|? |? ?|? ?|[]]; simpl in Hf; try done; simpl in Hs;
    repeat match goal with H : _ ∧ _ |- _ => destruct H end; subst;
    repeat match goal with Hs : context [match ?x with _ => _ end] |- _ => destruct x eqn:? end; try done;
    injection Hs as <- <-; first [done | apply notify_fits; eauto].
Qed.

(** What a step does to the values. *)
Lemma values_step s p s' p' : thread_step s p = Some (s', p') →
  in_values s' = match p with
                 | CallSet k v => <[k := v]> (in_values s)
                 | CallDelete k => delete k (in_values s)
                 | CallIncr k d => <[k := VI64 (i64_sat_add (counter_of (in_values s !! k)) d)]> (in_values s)
                 | _ => in_values s
                 end.
Proof.
  destruct p as [| | |key| | | |key rx|key rx|]; simpl; try (by intros [= <- <-]).
  - unfold wait_locked. destruct (in_values s !! key); [by intros [= <- <-]|].
    destruct (subscribe _). by intros [= <- <-].
  - destruct (get key s); by intros [= <- <-].
  - destruct (in_notifies s !! key) as [w|]; [|done]. destruct (has_changed rx w); by intros [= <- <-].
Qed.

(** A [wait] returns only from a check that found its key. *)
Lemma wait_returns s p s' key : fits (CallWaitFor key) p → thread_step s p = Some (s', Returned None) →
  is_Some (in_values s' !! key).
Proof.
  intros Hf Hs. pose proof (values_step _ _ _ _ Hs) as Hv.
  destruct p as [| | |k| | | |k rx|k rx|[]]; simpl in Hf; try done; subst; simpl in Hs, Hv; rewrite Hv.
  - unfold wait_locked in Hs. destruct (in_values s !! k) as [v|]; [by eexists|]. destruct (subscribe _). done.
  - unfold get in Hs. destruct (in_values s !! k) as [v|]; [by eexists|done].
  - destruct (in_notifies s !! k) as [w|]; [|done]. by destruct (has_changed rx w).
Qed.

(** The calls that can change the value of [key]. *)
Definition writes_key (key : string) (c : Call T) : Prop :=
  match c with CallSetValue k _ | CallDeleteKey k | CallIncrBy k _ => k = key | _ => False end.

Context (key : string) (value : LuaValue T) (v : Value).

(** Only this value is ever stored under [key], and nobody deletes it. *)
Definition only_this (h : list (@Event T)) : Prop :=
  ∀ i c, Called i c ∈ h → writes_key key c → c = CallSetValue key value.

Definition set_answered (h : list (@Event T)) : Prop := ∃ i a, Answered i (CallSetValue key value) (Ok a) ∈ h.

(** The answers of [get] and [wait] for [key], given the events before. *)
Definition answer_ok (before : list (@Event T)) (e : @Event T) : Prop :=
  match e with
  | Answered _ (CallGet k) r =>
      k = key → (r = Ok LNil ∨ r = shared_value_to_lua (Some v)) ∧
                (set_answered before → r = shared_value_to_lua (Some v))
  | Answered _ (CallWaitFor k) r => k = key → r = shared_value_to_lua (Some v)
  | _ => True
  end.

Definition vu_ok (w : @World T W B) (st : @VuState T W B) : Prop :=
  match st with
  | InStore p c =>
      fits c p ∧ (writes_key key c → c = CallSetValue key value) ∧
      (c = CallSetValue key value → (∀ x, p ≠ CallSet key x) → in_values (sh_store (w_shared w)) !! key = Some v) ∧
      (c = CallWaitFor key → p = Returned None → in_values (sh_store (w_shared w)) !! key = Some v)
  | AtBarrier _ c | InBarrier _ _ c => ∃ name n, c = CallBarrier name n
  | Script => True
  end.

Definition answers_ok (h : list (@Event T)) : Prop := ∀ h1 e h2, h = (h1 ++ e :: h2)%list → answer_ok h1 e.

Definition stored_now (w : @World T W B) : option Value := in_values (sh_store (w_shared w)) !! key.

Record handover_inv (w : @World T W B) : Prop := {
  hv_value : stored_now w = None ∨ stored_now w = Some v;
  hv_vus : Forall (vu_ok w) (w_vus w);
  hv_set : set_answered (w_events w) → stored_now w = Some v;
  hv_answers : answers_ok (w_events w) }.

Lemma answers_snoc h e : answers_ok h → answer_ok h e → answers_ok (h ++ [e]).
Proof.
  intros Hh He h1 e' h2 E. destruct h2 as [|x h2 _] using rev_ind.
  - apply app_inj_tail in E as [-> ->]. done.
  - rewrite app_comm_cons, app_assoc in E. apply app_inj_tail in E as [-> _]. by eapply Hh.
Qed.

Lemma set_answered_app h1 h2 : set_answered (h1 ++ h2) ↔ set_answered h1 ∨ set_answered h2.
Proof. unfold set_answered. setoid_rewrite elem_of_app. naive_solver. Qed.

Lemma only_this_app h1 h2 : only_this (h1 ++ h2) → only_this h1.
Proof. intros Ho i c Hc. apply (Ho i). set_solver. Qed.

Lemma vu_ok_mono w w' st : (stored_now w = Some v → stored_now w' = Some v) → vu_ok w st → vu_ok w' st.
Proof. unfold stored_now. intros Hm. destruct st; simpl; naive_solver. Qed.

Context (Hvalue : lua_to_value value ReprInteger = Ok v).

(** One step of a method: what it may do to the value of the key. *)
Lemma method_step s c p s' p' :
  fits c p → (writes_key key c → c = CallSetValue key value) → thread_step s p = Some (s', p') →
  (in_values s' !! key = in_values s !! key ∨ in_values s' !! key = Some v) ∧
  (c = CallSetValue key value → (∀ x, p = CallSet key x → in_values s' !! key = Some v)).
Proof.
  intros Hf Hw Hs. rewrite (values_step _ _ _ _ Hs).
  destruct p as [k x|k|k d| | | | | | |]; try (split; [by left|done]).
  - destruct c; try done. destruct Hf as [-> Hx]. destruct (decide (k = key)) as [->|Hk].
    + injection (Hw eq_refl) as ->. rewrite Hvalue in Hx. injection Hx as ->. rewrite lookup_insert_eq. split; [by right|done].
    + rewrite lookup_insert_ne by done. split; [by left|]. by intros [= -> ->].
  - destruct c; try done. simpl in Hf. subst. split; [|done]. left. destruct (decide (k = key)) as [->|Hk].
    + by specialize (Hw eq_refl).
    + by rewrite lookup_delete_ne.
  - destruct c; try done. destruct Hf as [-> _]. split; [|done]. left. destruct (decide (k = key)) as [->|Hk].
    + by specialize (Hw eq_refl).
    + by rewrite lookup_insert_ne.
Qed.

(** A step that changes the state of one VU and adds events. *)
Lemma inv_update sh vus h i sh' st es :
  handover_inv (mkWorld sh vus h) →
  let w' := mkWorld sh' (<[i := st]> vus) (h ++ es) in
  (in_values (sh_store sh') !! key = in_values (sh_store sh) !! key ∨ in_values (sh_store sh') !! key = Some v) →
  vu_ok w' st → (set_answered es → stored_now w' = Some v) → answers_ok (h ++ es) → handover_inv w'.
Proof.
  intros [Hv Hvus Hs Ha] w' Hkeep Hst Hes Hans. unfold w', stored_now in *. simpl in *. split; simpl; unfold stored_now; simpl.
  - destruct Hkeep as [->| ->]; [done|by right].
  - apply Forall_insert; [|exact Hst]. eapply Forall_impl; [exact Hvus|]. intros st0. apply vu_ok_mono. unfold stored_now. simpl.
    destruct Hkeep as [->| ->]; done.
  - rewrite set_answered_app. intros [H1|H2]; [|by apply Hes]. specialize (Hs H1). destruct Hkeep as [->| ->]; done.
  - done.
Qed.

Lemma not_set_answered es :
  (∀ i c r, Answered i c r ∈ es → c = CallSetValue key value → ∃ e, r = Err e) → ¬ set_answered es.
Proof. intros Hes (i & a & Hin). by destruct (Hes _ _ _ Hin eq_refl). Qed.

Lemma immediate_ok sh vus h i c a :
  handover_inv (mkWorld sh vus h) → answer_ok (h ++ [Called i c]) (Answered i c a) →
  (c = CallSetValue key value → ∃ e, a = Err e) →
  handover_inv (mkWorld sh (<[i := Script]> vus) (h ++ Called i c :: answered i c (Some a))).
Proof.
  intros Hinv Hok Hset. apply (inv_update sh); [done|by left|done| |].
  - intros Hs. exfalso. revert Hs. apply not_set_answered. simpl. intros i' c' r Hin. set_solver.
  - simpl. change (Called i c :: ?l) with ([Called i c] ++ l)%list. rewrite app_assoc. apply answers_snoc; [|done].
    apply answers_snoc; [apply (hv_answers _ Hinv)|done].
Qed.

Lemma suspended_ok sh sh' vus h i c st :
  handover_inv (mkWorld sh vus h) → sh_store sh' = sh_store sh ∨ in_values (sh_store sh') = in_values (sh_store sh) →
  vu_ok (mkWorld sh' (<[i := st]> vus) (h ++ [Called i c])) st →
  handover_inv (mkWorld sh' (<[i := st]> vus) (h ++ Called i c :: answered i c None)).
Proof.
  intros Hinv Hs Hst. apply (inv_update sh); [done| |done| |].
  - destruct Hs as [->| ->]; by left.
  - intros Hx. exfalso. revert Hx. apply not_set_answered. simpl. intros ? ? ? ?. set_solver.
  - apply answers_snoc; [apply (hv_answers _ Hinv)|done].
Qed.

Lemma call_preserves sh vus h i c sh' st a :
  handover_inv (mkWorld sh vus h) → begin_call c sh = (sh', st, a) → (writes_key key c → c = CallSetValue key value) →
  handover_inv (mkWorld sh' (<[i := st]> vus) (h ++ Called i c :: answered i c a)).
Proof.
  intros Hinv Hb Hw. destruct c as [k|k lv|k|k d|k|k|name n]; simpl in Hb.
  - injection Hb as <- <- <-. apply immediate_ok; [done| |done]. simpl. intros ->. pose proof (hv_value _ Hinv) as Hv.
    pose proof (hv_set _ Hinv) as Hs. unfold stored_now, get in *. simpl in *. split.
    + destruct Hv as [->| ->]; [by left|by right].
    + rewrite set_answered_app. intros [H1|H2]; [by rewrite Hs|]. exfalso. revert H2. apply not_set_answered. set_solver.
  - unfold parse_set in Hb. destruct (lua_to_value lv ReprInteger) as [x|e] eqn:Hx; simpl in Hb; injection Hb as <- <- <-.
    + apply (suspended_ok sh); [done|by left|]. simpl. split_and!; [done|exact Hx|exact Hw| |done]. intros [= -> ->] Hne. by destruct (Hne x).
    + apply immediate_ok; [done|done|]. intros [= -> ->]. rewrite Hvalue in Hx. done.
  - injection Hb as <- <- <-. apply (suspended_ok sh); [done|by left|]. simpl. split_and!; [done|exact Hw|done|done].
  - injection Hb as <- <- <-. apply (suspended_ok sh); [done|by left|]. simpl. split_and!; [done|done|exact Hw|done|done].
  - injection Hb as <- <- <-. by apply immediate_ok.
  - injection Hb as <- <- <-. apply (suspended_ok sh); [done|by left|]. simpl. split_and!; done.
  - unfold enter_barrier, barrier_enter in Hb. destruct (n =? 0).
    { injection Hb as <- <- <-. rewrite Nat.eqb_refl. cbn [negb]. rewrite shared_eta. by apply immediate_ok. }
    destruct (in_barriers (sh_store sh) !! name) as [e|].
    + destruct (be_parties e =? n); cbn [negb] in Hb; injection Hb as <- <- <-; rewrite Nat.eqb_refl; cbn [negb].
      * apply (suspended_ok sh); [done|by left|]. by exists name, n.
      * rewrite shared_eta. by apply immediate_ok.
    + injection Hb as <- <- <-. apply (suspended_ok sh); [done|by right|]. by exists name, n.
Qed.

Lemma resume_preserves sh vus h i st c sh' st' a :
  handover_inv (mkWorld sh vus h) → vus !! i = Some st → call_of st = Some c → resume_call st sh = Some (sh', st', a) →
  handover_inv (mkWorld sh' (<[i := st']> vus) (h ++ answered i c a)).
Proof.
  intros Hinv Hi Hc Hr. pose proof (Forall_lookup_1 _ _ _ _ (hv_vus _ Hinv) Hi) as Hst. pose proof (hv_value _ Hinv) as Hv.
  assert (∀ es, (∀ j c' r, Answered j c' r ∈ es → c' ≠ CallSetValue key value) → ¬ set_answered es) as Hnot.
  { intros es Hes. apply not_set_answered. intros j c' r Hin E. by destruct (Hes _ _ _ Hin). }
  destruct st as [|p c0|id c0|id t c0]; try done; injection Hc as ->.
  - destruct Hst as (Hf & Hw & Hset & Hwait). unfold stored_now in *. cbn [w_shared sh_store] in *.
    assert ((∃ r, p = Returned r) ∨ ¬ ∃ r, p = Returned r) as [[r ->]|Hp]
      by (destruct p; first [left; by eexists|right; by intros [? ?]]).
    + injection Hr as <- <- <-. apply (inv_update sh); [done|by left|done| |].
      * intros (j & a & Hin). apply list_elem_of_singleton in Hin as [= <- <- _]. by apply Hset.
      * apply answers_snoc; [apply (hv_answers _ Hinv)|]. destruct c; try done. simpl. intros ->. f_equal.
        by apply Hwait; destruct r.
    + rewrite resume_method in Hr by done. destruct (thread_step (sh_store sh) p) as [[s' p']|] eqn:Hs; [|done].
      injection Hr as <- <- <-.
      destruct (method_step _ _ _ _ _ Hf Hw Hs) as [Hk Hdone].
      apply (inv_update sh); [done|done| |by intros (? & ? & ?%elem_of_nil)|rewrite app_nil_r; apply (hv_answers _ Hinv)].
      cbn [vu_ok w_shared sh_store]. split_and!; [by eapply fits_step|exact Hw| |].
      * intros -> _. destruct p as [k x| | | | | | | | |]; try (assert (in_values (sh_store sh) !! key = Some v) as E by (by apply Hset);
          destruct Hk as [->| ->]; done). destruct Hf as [<- _]. by apply (Hdone eq_refl x).
      * intros -> ->. destruct (wait_returns _ _ _ _ Hf Hs) as [x Hx]. destruct Hk as [E|E]; [|done].
        rewrite E in *. destruct Hv as [Hv|Hv]; congruence.
  - destruct Hst as (name & n & ->). simpl in Hr. destruct (sh_barriers sh !! id) as [b|]; [|done]. simpl in Hr.
    destruct (arrive b) as [t b']. injection Hr as <- <- <-.
    apply (inv_update sh); [done|by left|by exists name, n|by intros (? & ? & ?%elem_of_nil)|].
    rewrite app_nil_r. apply (hv_answers _ Hinv).
  - destruct Hst as (name & n & ->). simpl in Hr. destruct (sh_barriers sh !! id) as [b|]; [|done]. simpl in Hr.
    destruct (released b t); [|done]. injection Hr as <- <- <-.
    apply (inv_update sh); [done|by left|done| |].
    + intros Hs. exfalso. revert Hs. apply Hnot. intros j c' r Hin. apply list_elem_of_singleton in Hin. by injection Hin as _ -> _.
    + apply answers_snoc; [apply (hv_answers _ Hinv)|done].
Qed.

Lemma world_inv w w' : handover_inv w → world_step w w' → only_this (w_events w') → handover_inv w'.
Proof.
  intros Hinv Hs Ho. destruct Hs as [sh vus h i c sh' st a Hi Hb|sh vus h i st c sh' st' a Hi Hc Hr].
  - eapply call_preserves; [done|done|]. apply (Ho i). simpl. set_solver.
  - by eapply resume_preserves.
Qed.

Lemma fresh_inv vus : handover_inv (fresh vus).
Proof.
  split; unfold stored_now; simpl.
  - left. apply lookup_empty.
  - by apply Forall_replicate.
  - by intros (? & ? & ?%elem_of_nil).
  - intros h1 e h2 E. by destruct h1.
Qed.

Lemma events_grow w w' : world_step w w' → ∃ es, w_events w' = (w_events w ++ es)%list.
Proof. intros []; eexists; reflexivity. Qed.

Lemma reachable_handover w : world_reachable w → only_this (w_events w) → handover_inv w.
Proof.
  intros [vus Hs]. remember (fresh vus) as w0 eqn:E0. assert (handover_inv w0) as H0 by (subst; apply fresh_inv). clear E0.
  induction Hs as [|x y z Hxy Hyz IH]; [done|]. intros Ho. apply IH; [|done]. apply (world_inv x); [done|done|].
  clear - Hyz Ho. induction Hyz as [|y y' z Hs _ IH]; [done|]. destruct (events_grow _ _ Hs) as [es E].
  apply (only_this_app _ es). rewrite <- E. by apply IH.
Qed.
End handover.

Section handover_theorem.
Context {T : Type} {L : LuaTables T} {LL : LuaLaws T} {W : WatchOps} {B : BarrierOps}.

End handover_theorem.

(** ** An execution *)
Definition demo_moves : list (nat * option (Call Tree)) :=
  [(0%nat, Some (CallWaitFor "token")); (0%nat, None); (0%nat, None);
   (2%nat, Some (CallGet "token")); (1%nat, Some (CallSetValue "token" (LString "abc"))); (1%nat, None);
   (2%nat, Some (CallGet "token")); (1%nat, None); (1%nat, None); (1%nat, None); (0%nat, None); (0%nat, None); (0%nat, None);
   (2%nat, Some (CallGet "token"))]%string.
Definition demo_events : list (@Event Tree) :=
  [Called 0 (CallWaitFor "token");
   Called 2 (CallGet "token"); Answered 2 (CallGet "token") (Ok LNil);
   Called 1 (CallSetValue "token" (LString "abc"));
   Called 2 (CallGet "token"); Answered 2 (CallGet "token") (Ok (LString "abc"));
   Answered 1 (CallSetValue "token" (LString "abc")) (Ok LNil);
   Answered 0 (CallWaitFor "token") (Ok (LString "abc"));
   Called 2 (CallGet "token"); Answered 2 (CallGet "token") (Ok (LString "abc"))]%string.
Definition demo_world : @World Tree version_watch counting_barrier := default (fresh 3) (moves demo_moves (fresh 3)).

Example demo_run : w_events demo_world = demo_events.
Proof. vm_compute. reflexivity. Qed.


(** With a [delete] in between, [wait] answers nil: it reads the key again after
    it has been woken. *)
Example wait_answers_nil :
  w_events <$> moves
    [(0%nat, Some (CallWaitFor "k")); (0%nat, None); (1%nat, Some (CallSetValue "k" (LBoolean true))); (1%nat, None);
     (1%nat, None); (1%nat, None); (1%nat, None); (0%nat, None); (1%nat, Some (CallDeleteKey "k")); (1%nat, None); (1%nat, None); (0%nat, None)]
    (@fresh Tree version_watch counting_barrier 2) =
  Some [Called 0 (CallWaitFor "k"); Called 1 (CallSetValue "k" (LBoolean true));
        Answered 1 (CallSetValue "k" (LBoolean true)) (Ok LNil); Called 1 (CallDeleteKey "k");
        Answered 1 (CallDeleteKey "k") (Ok LNil); Answered 0 (CallWaitFor "k") (Ok LNil)]%string.
Proof. vm_compute. reflexivity. Qed.
