(* ===== verification/SharedBarrier.v ===== *)
(** * Barriers of wrkr/shared

    Nobody passes a barrier before as many VUs have called it as it has parties,
    and when that many have, nobody waits any longer. *)
From S2P Require Import Prelude Coll Value Text Barrier Store Lua LuaValues SharedModule.

Local Open Scope Z_scope.

Section meeting.
Context {T : Type} {L : LuaTables T} {W : WatchOps} {B : BarrierOps} {BL : BarrierLaws B}.

(** The calls of the barrier [name] for [n] parties. *)
Definition calls_barrier (name : string) (n : Z) (e : @Event T) : Z :=
  match e with Called _ (CallBarrier name' n') => if decide (name' = name ∧ n' = n) then 1 else 0 | _ => 0 end.
Definition called (name : string) (n : Z) (h : list (@Event T)) : Z := sumf (calls_barrier name n) h.

(** The VUs that have found the barrier and not yet arrived. *)
Definition before_barrier (id : nat) (st : @VuState T W B) : Z :=
  match st with AtBarrier id' _ => if decide (id' = id) then 1 else 0 | _ => 0 end.

(** The number of parties is unsigned. *)
Definition parties_unsigned (h : list (@Event T)) : Prop := ∀ i name n, Called i (CallBarrier name n) ∈ h → 0 ≤ n.

Definition entry_ok (w : @World T W B) (name : string) (e : BarrierEntry) : Prop :=
  (be_barrier e < in_next_barrier (sh_store (w_shared w)))%nat ∧ 1 ≤ be_parties e ∧
  ∃ b, sh_barriers (w_shared w) !! be_barrier e = Some b ∧ parties b = be_parties e ∧
       arrivals b + sumf (before_barrier (be_barrier e)) (w_vus w) = called name (be_parties e) (w_events w).

Definition barriers_of (w : @World T W B) : gmap string BarrierEntry := in_barriers (sh_store (w_shared w)).

Definition vu_meets (w : @World T W B) (st : @VuState T W B) : Prop :=
  match st with
  | Script => True
  | InStore _ c => ∀ name n, c ≠ CallBarrier name n
  | AtBarrier id c => ∃ name e, barriers_of w !! name = Some e ∧ be_barrier e = id ∧ c = CallBarrier name (be_parties e)
  | InBarrier id t c =>
      ∃ name e b, barriers_of w !! name = Some e ∧ be_barrier e = id ∧ c = CallBarrier name (be_parties e) ∧
        sh_barriers (w_shared w) !! id = Some b ∧ (first b t ∨ parties b < arrivals b)
  end.

Record meeting_inv (w : @World T W B) : Prop := {
  mi_entries name e : barriers_of w !! name = Some e → entry_ok w name e;
  mi_apart name1 name2 e1 e2 : barriers_of w !! name1 = Some e1 → barriers_of w !! name2 = Some e2 →
    be_barrier e1 = be_barrier e2 → name1 = name2;
  mi_none name n : barriers_of w !! name = None → n ≠ 0 → called name n (w_events w) = 0;
  mi_vus : Forall (vu_meets w) (w_vus w);
  mi_passed i name n a : Answered i (CallBarrier name n) (Ok a) ∈ w_events w → n ≤ called name n (w_events w) }.

Lemma called_app name n h1 h2 : called name n (h1 ++ h2) = called name n h1 + called name n h2.
Proof. unfold called. apply sumf_app. Qed.

Lemma called_nonneg name n h : 0 ≤ called name n h.
Proof. apply sumf_nonneg. intros [? []|]; intros; simpl; try lia. case_decide; lia. Qed.

(** Steps that concern no barrier. *)
Lemma other_step sh vus h i st st' sh' es :
  meeting_inv (mkWorld sh vus h) → vus !! i = Some st →
  in_barriers (sh_store sh') = in_barriers (sh_store sh) → in_next_barrier (sh_store sh') = in_next_barrier (sh_store sh) →
  sh_barriers sh' = sh_barriers sh → (∀ id, before_barrier id st = 0 ∧ before_barrier id st' = 0) →
  vu_meets (mkWorld sh vus h) st' →
  (∀ name n, called name n es = 0 ∨ (n = 0 ∨ ∃ e, in_barriers (sh_store sh) !! name = Some e ∧ be_parties e ≠ n)) →
  (∀ j name n a, Answered j (CallBarrier name n) (Ok a) ∈ es → n ≤ called name n h) →
  meeting_inv (mkWorld sh' (<[i := st']> vus) (h ++ es)).
Proof.
  intros [He Ha Hn Hv Hp] Hi E1 E2 E3 Hst Hst' Hes Hans.
  unfold barriers_of in *. simpl in *. split; unfold barriers_of; simpl; rewrite ?E1.
  - intros name e Hname. destruct (He _ _ Hname) as (H1 & H2 & b & Hb & Hpar & Harr). unfold entry_ok in *. simpl in *.
    rewrite E2, E3. split_and!; [done|done|]. exists b. split_and!; [done|done|].
    rewrite (sumf_insert _ _ i st) by done. destruct (Hst (be_barrier e)) as [-> ->]. rewrite called_app.
    destruct (Hes name (be_parties e)) as [->|[?|(e' & He' & Hne)]]; [lia|lia|congruence].
  - done.
  - intros name n Hnone Hn0. rewrite called_app, Hn by done. destruct (Hes name n) as [->|[?|(e' & He' & _)]]; [lia|done|congruence].
  - apply Forall_insert.
    + eapply Forall_impl; [exact Hv|]. intros st0. unfold vu_meets, barriers_of. simpl. by rewrite E1, E3.
    + revert Hst'. unfold vu_meets, barriers_of. simpl. by rewrite E1, E3.
  - intros j name n a [Hj|Hj]%elem_of_app; rewrite called_app; pose proof (called_nonneg name n es).
    + specialize (Hp _ _ _ _ Hj). lia.
    + specialize (Hans _ _ _ _ Hj). lia.
Qed.

Lemma called_other i c a name n : (∀ name n, c ≠ CallBarrier name n) → called name n (Called i c :: answered i c a) = 0.
Proof. unfold called. intros Hc. destruct a, c as [| | | | | |nm np]; try done; by destruct (Hc nm np). Qed.

Lemma called_one i name n a name' n' :
  called name' n' (Called i (CallBarrier name n) :: answered i (CallBarrier name n) a) = if decide (name = name' ∧ n = n') then 1 else 0.
Proof. unfold called. destruct a; simpl; case_decide; lia. Qed.

Lemma called_snoc i name n name' n' h :
  called name' n' (h ++ [Called i (CallBarrier name n)]) = called name' n' h + if decide (name = name' ∧ n = n') then 1 else 0.
Proof. rewrite called_app. f_equal. apply (called_one i name n None). Qed.

Lemma before_enter vus i id c id' : vus !! i = Some Script →
  sumf (before_barrier id') (<[i := AtBarrier id c]> vus) = sumf (before_barrier id') vus + if decide (id = id') then 1 else 0.
Proof. intros Hi. rewrite (sumf_insert _ _ i Script) by done. simpl. lia. Qed.

Lemma passed_snoc w i c : meeting_inv w →
  ∀ j name n a, Answered j (CallBarrier name n) (Ok a) ∈ w_events w ++ [Called i c] → n ≤ called name n (w_events w ++ [Called i c]).
Proof.
  intros Hinv j name n a [Hj|Hj]%elem_of_app; [|by apply list_elem_of_singleton in Hj].
  apply (mi_passed _ Hinv) in Hj. rewrite called_app. pose proof (called_nonneg name n [Called i c]). lia.
Qed.

(** The barrier is there. *)
Lemma found_step sh vus h i name e :
  meeting_inv (mkWorld sh vus h) → vus !! i = Some Script → in_barriers (sh_store sh) !! name = Some e →
  let c := CallBarrier name (be_parties e) in
  meeting_inv (mkWorld sh (<[i := AtBarrier (be_barrier e) c]> vus) (h ++ [Called i c])).
Proof.
  intros Hinv Hi Hname c. pose proof (passed_snoc _ i c Hinv) as Hpass. destruct Hinv as [He Ha Hn Hv _].
  unfold barriers_of in *. simpl in *. split; unfold barriers_of; simpl; [| done | |  | done].
  - intros name' e' Hname'. destruct (He _ _ Hname') as (H1 & H2 & b & Hb & Hpb & Harr). split_and!; [done|done|].
    exists b. split_and!; [done|done|]. simpl in *. unfold c. rewrite called_snoc, before_enter by done.
    assert (be_barrier e = be_barrier e' ↔ name = name' ∧ be_parties e = be_parties e') as Heq.
    { split; [intros Hid; pose proof (Ha _ _ _ _ Hname Hname' Hid) as <-; by simplify_eq|]. intros [<- _]. by simplify_eq. }
    repeat case_decide; try lia; tauto.
  - intros name' n' Hnone Hn'. unfold c. rewrite called_snoc, Hn by done. case_decide as E; [|lia]. destruct E as [<- _]. congruence.
  - apply Forall_insert; [eapply Forall_impl; [exact Hv|done]|]. by exists name, e.
Qed.

(** What a new entry of the map of barriers leaves as it was. *)
Lemma new_entry_keeps sh vus h name n (id := in_next_barrier (sh_store sh)) h' vus' :
  meeting_inv (mkWorld sh vus h) → in_barriers (sh_store sh) !! name = None →
  let sh' := mkShared (mkInner (in_values (sh_store sh)) (in_notifies (sh_store sh))
                         (<[name := mkBarrierEntry n id]> (in_barriers (sh_store sh))) (S id))
                      (<[id := barrier_new n]> (sh_barriers sh)) in
  (∀ name1 name2 e1 e2, barriers_of (mkWorld sh' vus' h') !! name1 = Some e1 → barriers_of (mkWorld sh' vus' h') !! name2 = Some e2 →
    be_barrier e1 = be_barrier e2 → name1 = name2) ∧
  Forall (vu_meets (mkWorld sh' vus' h')) vus ∧
  (∀ name' e', in_barriers (sh_store sh) !! name' = Some e' → be_barrier e' ≠ id).
Proof.
  intros [He Ha Hn Hv _] Hname sh'. unfold barriers_of in *. simpl in *.
  assert (∀ name' e', in_barriers (sh_store sh) !! name' = Some e' → be_barrier e' ≠ id) as Hold.
  { intros name' e' Hname'. destruct (He _ _ Hname') as (H1 & _). simpl in H1. unfold id. lia. }
  split_and!; [| |done].
  - intros name1 name2 e1 e2 H1 H2 Hid.
    destruct (decide (name = name1)) as [<-|N1], (decide (name = name2)) as [<-|N2]; try done;
      rewrite ?lookup_insert_eq, ?lookup_insert_ne in * by done; simplify_eq; simpl in *.
    + by destruct (Hold _ _ H2).
    + by destruct (Hold _ _ H1).
    + by eapply Ha.
  - eapply Forall_impl; [exact Hv|]. intros [| |id' c|id' t c]; simpl; unfold barriers_of; simpl; try done.
    + intros (name' & e & Hname' & Hrest). exists name', e. by rewrite lookup_insert_ne by congruence.
    + intros (name' & e & b & Hname' & Hid & Hc & Hb & Hf). exists name', e, b. subst id'.
      rewrite !lookup_insert_ne by (congruence || (symmetry; by eapply Hold)). by split_and!.
Qed.

(** The barrier is made. *)
Lemma made_step sh vus h i name n (id := in_next_barrier (sh_store sh)) :
  meeting_inv (mkWorld sh vus h) → vus !! i = Some Script → 1 ≤ n → in_barriers (sh_store sh) !! name = None →
  let c := CallBarrier name n in
  meeting_inv (mkWorld (mkShared (mkInner (in_values (sh_store sh)) (in_notifies (sh_store sh))
                                   (<[name := mkBarrierEntry n id]> (in_barriers (sh_store sh))) (S id))
                                 (<[id := barrier_new n]> (sh_barriers sh)))
                       (<[i := AtBarrier id c]> vus) (h ++ [Called i c])).
Proof.
  intros Hinv Hi H1n Hname c. pose proof (passed_snoc _ i c Hinv) as Hpass.
  destruct (new_entry_keeps sh vus h name n (h ++ [Called i c]) (<[i := AtBarrier id c]> vus) Hinv Hname) as (Hapart & Hvus & Hold).
  fold id in Hapart, Hvus, Hold. destruct Hinv as [He _ Hn Hv _]. unfold barriers_of in *. simpl in *.
  split; unfold barriers_of; simpl; [|exact Hapart| | |exact Hpass].
  - intros name' e' Hname'. unfold entry_ok. simpl. unfold c. rewrite called_snoc, before_enter by done.
    destruct (decide (name = name')) as [<-|Hne].
    + rewrite lookup_insert_eq in Hname'. injection Hname' as <-. simpl. split_and!; [lia|lia|].
      exists (barrier_new n). rewrite lookup_insert_eq, parties_new, arrivals_new, Hn by (done || lia).
      split_and!; [done|done|]. rewrite !decide_True by done.
      assert (sumf (before_barrier id) vus = 0) as ->; [|lia]. apply sumf_zero. intros st Hst.
      rewrite Forall_forall in Hv. specialize (Hv st Hst). destruct st as [| |id' c'|]; try done. simpl in *.
      destruct Hv as (name' & e & Hname'' & <- & _). rewrite decide_False; [done|]. by eapply Hold.
    + rewrite lookup_insert_ne in Hname' by done. pose proof (Hold _ _ Hname') as Hid.
      destruct (He _ _ Hname') as (H1 & H2 & b & Hb & Hpb & Harr). simpl in *. split_and!; [unfold id; lia|done|].
      exists b. rewrite lookup_insert_ne by done. split_and!; [done|done|]. rewrite !decide_False by naive_solver. lia.
  - intros name' n' Hnone Hn'. destruct (decide (name = name')) as [<-|Hne]; [by rewrite lookup_insert_eq in Hnone|].
    rewrite lookup_insert_ne in Hnone by done. unfold c. rewrite called_snoc, Hn by done. rewrite decide_False by naive_solver. lia.
  - apply Forall_insert; [exact Hvus|]. simpl. unfold barriers_of. simpl. exists name, (mkBarrierEntry n id). by rewrite lookup_insert_eq.
Qed.

Lemma call_meets sh vus h i c sh' st a :
  meeting_inv (mkWorld sh vus h) → vus !! i = Some Script → begin_call c sh = (sh', st, a) →
  (∀ name n, c = CallBarrier name n → 0 ≤ n) →
  meeting_inv (mkWorld sh' (<[i := st]> vus) (h ++ Called i c :: answered i c a)).
Proof.
  intros Hinv Hi Hb H0.
  assert ((∀ name n, c ≠ CallBarrier name n) → sh' = sh → (∀ id, before_barrier id st = 0) → vu_meets (mkWorld sh vus h) st →
    meeting_inv (mkWorld sh' (<[i := st]> vus) (h ++ Called i c :: answered i c a))) as Hother.
  { intros Hc -> Hst Hm. apply (other_step sh vus h i Script); try done.
    - intros name n. left. by apply called_other.
    - intros j name n x Hj. apply elem_of_cons in Hj as [Hj|Hj]; [done|]. destruct a; [|by apply elem_of_nil in Hj].
      apply list_elem_of_singleton in Hj. injection Hj as _ E _. by destruct (Hc name n). }
  destruct c as [k|k lv|k|k d|k|k|name n]; simpl in Hb; [injection Hb as <- <- <-; by apply Hother| |
    injection Hb as <- <- <-; by apply Hother..|].
  { unfold parse_set in Hb. destruct (lua_to_value lv ReprInteger); simpl in Hb; injection Hb as <- <- <-; by apply Hother. }
  assert (∀ e, (n = 0 ∨ ∃ e, in_barriers (sh_store sh) !! name = Some e ∧ be_parties e ≠ n) →
    meeting_inv (mkWorld sh (<[i := Script]> vus) (h ++ Called i (CallBarrier name n) :: answered i (CallBarrier name n) (Some (Err e))))) as Hrefused.
  { intros e Hbad. apply (other_step sh vus h i Script); try done.
    - intros name' n'. rewrite called_one. case_decide as E; [|by left]. destruct E as [<- <-]. by right.
    - intros j name' n' x Hj. set_solver. }
  specialize (H0 _ _ eq_refl). unfold enter_barrier, barrier_enter in Hb. destruct (Z.eqb_spec n 0) as [->|Hn0].
  { injection Hb as <- <- <-. rewrite Nat.eqb_refl. cbn [negb]. rewrite shared_eta. apply Hrefused. by left. }
  destruct (in_barriers (sh_store sh) !! name) as [e|] eqn:Hname.
  - destruct (Z.eqb_spec (be_parties e) n) as [<-|Hne]; cbn [negb] in Hb; injection Hb as <- <- <-;
      rewrite Nat.eqb_refl; cbn [negb]; rewrite shared_eta.
    + by apply found_step.
    + apply Hrefused. right. by exists e.
  - assert (Nat.eqb (S (in_next_barrier (sh_store sh))) (in_next_barrier (sh_store sh)) = false) as Hs by (apply Nat.eqb_neq; lia).
    cbn [in_next_barrier] in Hb. rewrite Hs in Hb. cbn [negb] in Hb. injection Hb as <- <- <-.
    apply made_step; try done. lia.
Qed.

(** ** Arriving and leaving *)
Lemma arrive_step sh vus h i id c b :
  meeting_inv (mkWorld sh vus h) → vus !! i = Some (AtBarrier id c) → sh_barriers sh !! id = Some b →
  meeting_inv (mkWorld (mkShared (sh_store sh) (<[id := (arrive b).2]> (sh_barriers sh)))
                       (<[i := InBarrier id (arrive b).1 c]> vus) h).
Proof.
  intros [He Ha Hn Hv Hp] Hi Hb. pose proof (Forall_lookup_1 _ _ _ _ Hv Hi) as Hme. unfold barriers_of in *. simpl in *.
  split; unfold barriers_of; simpl; [|done|done| |done].
  - intros name e Hname. destruct (He _ _ Hname) as (H1 & H2 & b0 & Hb0 & Hpb & Harr). split_and!; [done|done|]. simpl in *.
    rewrite (sumf_insert _ _ i (AtBarrier id c)) by done. simpl. destruct (decide (id = be_barrier e)) as [->|Hid].
    + rewrite Hb in Hb0. injection Hb0 as <-. exists (arrive b).2. rewrite lookup_insert_eq, parties_arrive, arrivals_arrive.
      split_and!; [done|done|lia].
    + exists b0. rewrite lookup_insert_ne by done. split_and!; [done|done|lia].
  - apply Forall_insert.
    + eapply Forall_impl; [exact Hv|]. intros [| |id' c'|id' t c']; simpl; unfold barriers_of; simpl; try done.
      intros (name & e & b0 & Hname & Hid & Hc & Hb0 & Hf). destruct (decide (id = id')) as [->|Hne].
      * rewrite Hb in Hb0. injection Hb0 as <-. exists name, e, (arrive b).2. rewrite lookup_insert_eq.
        split_and!; try done. rewrite parties_arrive, arrivals_arrive. destruct Hf as [Hf|Hf]; [left; by apply first_mono|right; lia].
      * exists name, e, b0. by rewrite lookup_insert_ne by done.
    + destruct Hme as (name & e & Hname & <- & ->). exists name, e, (arrive b).2. simpl. rewrite lookup_insert_eq.
      split_and!; try done. rewrite parties_arrive, arrivals_arrive.
      destruct (decide (arrivals b < parties b)); [left; by apply first_arrive|right; lia].
Qed.

(** Whoever is released leaves behind as many arrivals as there are parties. *)
Lemma released_enough w name e id t b :
  meeting_inv w → barriers_of w !! name = Some e → be_barrier e = id → sh_barriers (w_shared w) !! id = Some b →
  first b t ∨ parties b < arrivals b → released b t = true → be_parties e ≤ called name (be_parties e) (w_events w).
Proof.
  intros Hinv Hname <- Hb Hf Hr. destruct (mi_entries _ Hinv _ _ Hname) as (_ & _ & b0 & Hb0 & Hp & Harr).
  rewrite Hb in Hb0. injection Hb0 as <-.
  assert (0 ≤ sumf (before_barrier (be_barrier e)) (w_vus w)) as H0
    by (apply sumf_nonneg; intros [] _; simpl; try lia; case_decide; lia).
  assert (parties b ≤ arrivals b) by (destruct Hf as [Hf|]; [by apply (released_first b t Hf)|lia]). lia.
Qed.

Lemma store_keeps_barriers s p s' p' : thread_step s p = Some (s', p') →
  in_barriers s' = in_barriers s ∧ in_next_barrier s' = in_next_barrier s.
Proof.
  destruct p as [| | |key| | | |key rx|key rx|]; simpl; try (by intros [= <- <-]).
  - unfold wait_locked. destruct (in_values s !! key); [by intros [= <- <-]|]. destruct (subscribe _). by intros [= <- <-].
  - destruct (get key s); by intros [= <- <-].
  - destruct (in_notifies s !! key) as [w|]; [|done]. destruct (has_changed rx w); by intros [= <- <-].
Qed.

Lemma resume_meets sh vus h i st c sh' st' a :
  meeting_inv (mkWorld sh vus h) → vus !! i = Some st → call_of st = Some c → resume_call st sh = Some (sh', st', a) →
  meeting_inv (mkWorld sh' (<[i := st']> vus) (h ++ answered i c a)).
Proof.
  intros Hinv Hi Hc Hr. pose proof (Forall_lookup_1 _ _ _ _ (mi_vus _ Hinv) Hi) as Hme.
  assert (∀ name n, called name n (answered i c a) = 0) as Hzero by (intros; by destruct a).
  destruct st as [|p c0|id c0|id t c0]; try done; injection Hc as ->; simpl in Hme.
  - assert (in_barriers (sh_store sh') = in_barriers (sh_store sh) ∧ in_next_barrier (sh_store sh') = in_next_barrier (sh_store sh) ∧
      sh_barriers sh' = sh_barriers sh ∧ (∀ id, before_barrier id st' = 0) ∧ vu_meets (mkWorld sh vus h) st') as (E1 & E2 & E3 & E4 & E5).
    { assert ((∃ r, p = Returned r) ∨ ¬ ∃ r, p = Returned r) as [[r ->]|Hp]
        by (destruct p; first [left; by eexists|right; by intros [? ?]]).
      - by injection Hr as <- <- <-.
      - rewrite resume_method in Hr by done. destruct (thread_step (sh_store sh) p) as [[s' p']|] eqn:Hs; [|done].
        injection Hr as <- <- <-. by destruct (store_keeps_barriers _ _ _ _ Hs). }
    apply (other_step sh vus h i (InStore p c)); try done.
    + intros name n. by left.
    + intros j name n x Hj. destruct a; [|by apply elem_of_nil in Hj]. apply list_elem_of_singleton in Hj.
      injection Hj as _ E _. by destruct (Hme name n).
  - simpl in Hr. destruct (sh_barriers sh !! id) as [b|] eqn:Hb; [|done]. simpl in Hr. rewrite (surjective_pairing (arrive b)) in Hr.
    injection Hr as <- <- <-. simpl. rewrite app_nil_r. by apply arrive_step.
  - destruct Hme as (name & e & b & Hname & Hid & -> & Hb & Hf). simpl in Hr, Hb. rewrite Hb in Hr. simpl in Hr.
    destruct (released b t) eqn:Hrel; [|done]. injection Hr as <- <- <-.
    apply (other_step sh vus h i (InBarrier id t (CallBarrier name (be_parties e)))); try done.
    + intros name' n'. by left.
    + intros j name' n' x Hj. apply list_elem_of_singleton in Hj. injection Hj as _ -> -> _.
      by apply (released_enough (mkWorld sh vus h) name e id t b).
Qed.

Lemma reachable_meeting w : world_reachable w → parties_unsigned (w_events w) → meeting_inv w.
Proof.
  intros [vus Hs]. remember (fresh vus) as w0 eqn:E0. assert (meeting_inv w0) as H0.
  { subst. split; unfold barriers_of; simpl; try (intros *; rewrite lookup_empty; done); [by apply Forall_replicate|].
    by intros i name n a ?%elem_of_nil. }
  clear E0. induction Hs as [|x y z Hxy Hyz IH]; [done|]. intros Ho. apply IH; [|done]. clear IH.
  assert (parties_unsigned (w_events y)) as Hy.
  { clear - Hyz Ho. induction Hyz as [|y y' z Hs _ IH]; [done|]. specialize (IH Ho). intros i name n Hin. apply (IH i name n).
    destruct Hs; simpl in *; set_solver. }
  destruct Hxy as [sh vus' h i c sh' st a Hi Hb|sh vus' h i st c sh' st' a Hi Hc Hr].
  - apply (call_meets sh); [done|done|done|]. intros name n ->. apply (Hy i name). simpl. set_solver.
  - by eapply resume_meets.
Qed.

(** C6. The named barrier of wrkr/shared.  No call of a barrier for [n] parties
    returns before [n] such calls have been made; and when [n] have been made and
    have all reached the barrier, none of them is blocked any longer, however
    the VUs' calls interleave. *)
Theorem shared_barrier_meets name n w :
  world_reachable w → parties_unsigned (w_events w) →
  (∀ i a, Answered i (CallBarrier name n) (Ok a) ∈ w_events w → n ≤ called name n (w_events w)) ∧
  ∀ i id t, w_vus w !! i = Some (InBarrier id t (CallBarrier name n)) →
    resume_call (InBarrier id t (CallBarrier name n)) (w_shared w) = None → called name n (w_events w) = n →
    ∃ j, w_vus w !! j = Some (AtBarrier id (CallBarrier name n)).
Proof.
  intros Hr Ho. pose proof (reachable_meeting w Hr Ho) as Hinv. split; [intros i a; apply (mi_passed _ Hinv)|].
  intros i id t Hi Hblocked Hcalled. pose proof (Forall_lookup_1 _ _ _ _ (mi_vus _ Hinv) Hi) as Hme. simpl in *.
  destruct Hme as (name' & e & b & Hname & <- & [= <- ->] & Hb & Hf). rewrite Hb in Hblocked. simpl in Hblocked.
  destruct (released b t) eqn:Hrel; [done|]. destruct (mi_entries _ Hinv _ _ Hname) as (_ & _ & b0 & Hb0 & Hp & Harr).
  rewrite Hb in Hb0. injection Hb0 as <-.
  assert (0 ≤ sumf (before_barrier (be_barrier e)) (w_vus w)) as H0
    by (apply sumf_nonneg; intros [] _; simpl; try lia; case_decide; lia).
  destruct Hf as [Hf|Hf]; [|lia]. assert (¬ parties b ≤ arrivals b) by (intros Hle; apply (released_first b t Hf) in Hle; congruence).
  destruct (sumf_pos (before_barrier (be_barrier e)) (w_vus w)) as (st & [j Hj]%list_elem_of_lookup_1 & Hst); [lia|].
  exists j. rewrite Hj. f_equal. destruct st as [| |id' c'|]; simpl in Hst; try lia.
  destruct (decide (id' = be_barrier e)) as [->|]; [|lia].
  pose proof (Forall_lookup_1 _ _ _ _ (mi_vus _ Hinv) Hj) as (name2 & e2 & Hname2 & Hid2 & ->).
  pose proof (mi_apart _ Hinv _ _ _ _ Hname2 Hname Hid2) as ->. rewrite Hname in Hname2. by injection Hname2 as ->.
Qed.
End meeting.

(** ** An execution: two VUs meet at "b"; a third with another number of parties
    is refused *)
Definition barrier_moves : list (nat * option (Call Tree)) :=
  [(0%nat, Some (CallBarrier "b" 2)); (0%nat, None); (2%nat, Some (CallBarrier "b" 3));
   (1%nat, Some (CallBarrier "b" 2)); (1%nat, None); (1%nat, None); (0%nat, None)]%string.
Definition barrier_world : @World Tree version_watch counting_barrier := default (fresh 3) (moves barrier_moves (fresh 3)).
Definition barrier_events : list (@Event Tree) :=
  [Called 0 (CallBarrier "b" 2); Called 2 (CallBarrier "b" 3);
   Answered 2 (CallBarrier "b" 3) (Err "barrier parties mismatch (expected 2, got 3)");
   Called 1 (CallBarrier "b" 2); Answered 1 (CallBarrier "b" 2) (Ok LNil); Answered 0 (CallBarrier "b" 2) (Ok LNil)]%string.

Example barrier_run : w_events barrier_world = barrier_events.
Proof. vm_compute. reflexivity. Qed.

(** The first of two to come is blocked. *)
Example barrier_blocks :
  moves (take 2 barrier_moves ++ [(0%nat, None)]) (@fresh Tree version_watch counting_barrier 3) = None.
Proof. vm_compute. reflexivity. Qed.

Lemma shared_barrier_meets_witness :
  (∀ i a, Answered i (CallBarrier "b" 2) (Ok a) ∈ w_events barrier_world → 2 ≤ called "b" 2 (w_events barrier_world)) ∧
  ∀ i id t, w_vus barrier_world !! i = Some (InBarrier id t (CallBarrier "b" 2)) →
    resume_call (InBarrier id t (CallBarrier "b" 2)) (w_shared barrier_world) = None → called "b" 2 (w_events barrier_world) = 2 →
    ∃ j, w_vus barrier_world !! j = Some (AtBarrier id (CallBarrier "b" 2)).
Proof.
  apply (shared_barrier_meets "b" 2 barrier_world).
  - apply (moves_reachable barrier_moves 3). vm_compute. reflexivity.
  - intros i name n. rewrite barrier_run. unfold barrier_events. set_unfold.
    intros Hin. repeat (destruct Hin as [Hin|Hin]; [try done; by injection Hin as _ _ ->|]). done.
Defined.
