(* ===== verification/Loader.v ===== *)
(** * Loading scripts (wrkr-lua/src/loader.rs, modules/fs.rs)

    The search path a script's [require] uses, the name of its chunk, and
    [wrkr/fs]'s [read_file], which reads files next to the script only.  The
    operating system's answers are an interface. *)
From Stdlib Require Import Ascii.
From S2P Require Import Prelude Coll Std Text Value Coerce YamlText Paths Lua HttpModule GrpcModule.

Local Open Scope string_scope.

(** [Path::canonicalize] and [fs::read_to_string], with the messages of their
    errors. *)
Class Files := {
  canonicalize : string → Prelude.result string string;
  read_to_string : string → Prelude.result string string }.

(** What realpath(3) promises: an absolute path without [..]; the empty path is
    an error. *)
Class FilesLaws (F : Files) := {
  canonical_absolute p q : canonicalize p = Ok q → is_absolute q = true ∧ ParentDir ∉ components q;
  canonical_empty : ∃ e, canonicalize "" = Err e }.

Section loader.
Context {T : Type} {L : LuaTables T} {F : Files}.
(** mlua's message for a value that does not convert to the type named. *)
Context (conversion_error : string → string).

Local Notation result A := (result LuaError.t A).

(** ** The search path *)

(** [trim_end_matches(c)]. *)
Fixpoint trim_end_char (c : ascii) (s : string) : string :=
  match s with
  | EmptyString => EmptyString
  | String x r =>
      match trim_end_char c r with
      | EmptyString => if decide (x = c) then EmptyString else String x EmptyString
      | r => String x r
      end
  end.

Definition get_text (t : T) (key : string) : result string :=
  v ← lua_try (tbl_get t key); from_lua conversion_error "String" string_of_lua v.

Definition prepend_package_search_path (package : T) (key prefix : string) : result T :=
  let prefix := trim prefix in
  if decide (prefix = "") then Ok package
  else
    let prefix := trim_end_char ";" prefix in
    old ← get_text package key;
    set_key key (LString (prefix ++ ";" ++ old)) package.

Definition script_dir (script_path : string) : string := default "" (parent script_path).

Fixpoint replace_char (from to : ascii) (s : string) : string :=
  match s with
  | EmptyString => EmptyString
  | String x r => String (if decide (x = from) then to else x) (replace_char from to r)
  end.

Definition normalize_for_lua_path (path : string) : string := replace_char "\" "/" (to_string_lossy path).

Definition chunk_name (script_path : string) : string :=
  let p := match canonicalize script_path with Ok p => p | Err _ => script_path end in
  "@" ++ normalize_for_lua_path p.

(** [var] is [std::env::var], [package] the table of that name. *)
Definition first_var (var : string → option string) (a b : string) : option string :=
  match var a with Some v => Some v | None => var b end.

Definition prepend_var (var : string → option string) (a b key : string) (package : T) : result T :=
  match first_var var a b with
  | Some v => prepend_package_search_path package key v
  | None => Ok package
  end.

Definition configure_module_path (var : string → option string) (package : T) (script_path : string) : result T :=
  package ← prepend_var var "WRKR_LUA_PATH" "LUA_PATH" "path" package;
  package ← prepend_var var "WRKR_LUA_CPATH" "LUA_CPATH" "cpath" package;
  let dir := script_dir script_path in
  old_path ← get_text package "path";
  let dir := normalize_for_lua_path dir in
  let prefix := dir ++ "/?.lua;" ++ dir ++ "/?/init.lua;" in
  set_key "path" (LString (prefix ++ old_path)) package.

(** ** Files of a script *)

(** [Path::starts_with]: component by component. *)
Definition starts_with (path base : string) : bool := bool_decide (components base `prefix_of` components path).

Definition lua_io {A} (r : Prelude.result string A) : result A :=
  match r with Ok a => Ok a | Err e => Err (LuaError.Io e) end.

Definition read_script_relative_text (script_path rel : string) : result string :=
  if is_absolute rel then Err (LuaError.InvalidPath rel)
  else
    match parent script_path with
    | None => Err (LuaError.MissingScriptPath rel)
    | Some base_dir =>
        base_dir ← lua_io (canonicalize base_dir);
        candidate ← lua_io (canonicalize (join base_dir rel));
        if negb (starts_with candidate base_dir) then Err (LuaError.InvalidPath rel)
        else lua_io (read_to_string candidate)
    end.
End loader.

Example trim_end_1 : trim_end_char ";" "a;b;;" = "a;b". Proof. reflexivity. Qed.
Example normalize_1 : normalize_for_lua_path "a\b/c" = "a/b/c". Proof. reflexivity. Qed.

(** ** What [read_file] reads *)
Section contained.
Context {F : Files} {FL : FilesLaws F}.

(** The components of an absolute path without [..] after the first. *)
Lemma canonical_components p q :
  canonicalize p = Ok q → ∃ names, components q = RootDir :: (Normal <$> names) ∧ Forall entry_name names.
Proof.
  intros Hq. destruct (canonical_absolute p q Hq) as [Ha Hp]. pose proof (components_names q) as Hn.
  pose proof (split_nonempty "/" q) as Hne. unfold components in *.
  destruct (split "/" q) as [|x l]; [done|]. rewrite Ha in *.
  simpl in *. exists (normals (omap component_of l)). split; [|done]. f_equal. clear -Hp.
  assert (ParentDir ∉ omap component_of l) as Ho by set_solver. clear Hp.
  induction l as [|x l IH]; [done|]. csimpl in *. destruct (component_of x) as [c|] eqn:E; [|by apply IH].
  apply not_elem_of_cons in Ho as [Hc Ho]. destruct c as [| | |n]; csimpl.
  - unfold component_of in E. by repeat case_decide.
  - unfold component_of in E. by repeat case_decide.
  - done.
  - f_equal. by apply IH.
Qed.

(** C26. [read_file] gives a script the text of one file exactly: its name is
    relative, the script has a directory, both resolve, and the resolved file
    lies under the resolved directory, one or more plain names below it (or is
    the directory itself); nothing else is ever read. *)
Theorem read_file_contained script_path rel text :
  read_script_relative_text script_path rel = Ok text ↔
  ∃ dir base path names,
    is_absolute rel = false ∧ parent script_path = Some dir ∧ canonicalize dir = Ok base ∧
    canonicalize (join base rel) = Ok path ∧ read_to_string path = Ok text ∧
    components path = (components base ++ (Normal <$> names))%list ∧ Forall entry_name names ∧ ParentDir ∉ components path.
Proof.
  unfold read_script_relative_text. split.
  - destruct (is_absolute rel); [done|]. destruct (parent script_path) as [dir|]; [|done].
    destruct (canonicalize dir) as [base|] eqn:Hb; [|done]. simpl.
    destruct (canonicalize (join base rel)) as [path|] eqn:Hp; [|done]. simpl.
    destruct (starts_with path base) eqn:Hs; [|done]. simpl.
    destruct (read_to_string path) as [t|] eqn:Hr; [|done]. intros [= ->].
    unfold starts_with in Hs. apply bool_decide_eq_true in Hs as [rest Hrest].
    destruct (canonical_components _ _ Hb) as (nb & Eb & _). destruct (canonical_components _ _ Hp) as (np & Ep & Hnp).
    rewrite Eb, Ep in Hrest. injection Hrest as Hrest. apply fmap_app_inv in Hrest as (n1 & n2 & E1 & -> & ->). rewrite fmap_app, <- E1 in Ep.
    exists dir, base, path, n2. rewrite Eb, Ep. apply Forall_app in Hnp as [_ Hn2].
    destruct (canonical_absolute _ _ Hp) as [_ Hpar]. rewrite Ep in Hpar. split_and!; try done.
  - intros (dir & base & path & names & -> & -> & -> & Hp & Ht & Hc & _ & _). simpl. rewrite Hp. simpl.
    rewrite Ht. unfold starts_with. rewrite bool_decide_true; [done|]. by exists (Normal <$> names).
Qed.

End contained.

(** ** The search path *)
Section search.
Context {T : Type} {L : LuaTables T} {W : LuaLaws T} {F : Files}.
Context (conversion_error : string → string).

Lemma utf8_valid_app a b : utf8_valid a = true → utf8_valid b = true → utf8_valid (a ++ b)%list = true.
Proof.
  intros Ha Hb. remember (length a) as n eqn:Hn. assert (length a ≤ n)%nat as Hle by lia. clear Hn. revert a Ha Hle.
  induction n as [|n IH]; intros [|b0 a] Ha Hle; simpl in *; [done|lia|done|].
  destruct (b0 <? 0x80)%Z; [apply IH; [done|lia]|].
  destruct a as [|b1 a]; [done|]. simpl in *. destruct (_ && _ && cont b1); [apply IH; [done|lia]|].
  destruct a as [|b2 a]; [done|]. simpl in *. destruct (_ && cont b2); [apply IH; [done|lia]|].
  destruct a as [|b3 a]; [done|]. simpl in *. destruct (_ && cont b2 && cont b3); [|done]. apply IH; [done|lia].
Qed.

Lemma as_bytes_app a b : as_bytes (a ++ b) = (as_bytes a ++ as_bytes b)%list.
Proof. unfold as_bytes. induction a as [|c a IH]; [done|]. simpl in *. by rewrite IH. Qed.

Definition utf8 (s : string) : Prop := utf8_valid (as_bytes s) = true.

Lemma utf8_app a b : utf8 a → utf8 b → utf8 (a ++ b).
Proof. unfold utf8. rewrite as_bytes_app. apply utf8_valid_app. Qed.

(** Writing a field that is there. *)
Lemma set_key_old key v v' (t : T) es :
  plain t es → NoDup es.*1 → (LString key, v) ∈ es → v' ≠ LNil →
  ∃ t' es', set_key key v' t = Ok t' ∧ plain t' es' ∧ es'.*1 = es.*1 ∧ (LString key, v') ∈ es' ∧
    ∀ k w, k ≠ LString key → (k, w) ∈ es → (k, w) ∈ es'.
Proof.
  intros Hp Hnd Hin Hv. apply list_elem_of_split in Hin as (es1 & es2 & ->).
  rewrite fmap_app, fmap_cons in Hnd. simpl in Hnd. pose proof Hnd as (_ & Hn & _)%NoDup_app.
  assert (LString key ∉ es1.*1) as Hk by (intros Hk; apply (Hn _ Hk); by left).
  destruct (plain_reset t es1 es2 _ v v' Hp I Hk Hv) as (t' & Ht & Hp').
  exists t', (es1 ++ (LString key, v') :: es2)%list. unfold set_key. rewrite Ht. split_and!; [done|done| |set_solver|].
  - by rewrite !fmap_app.
  - intros k w Hkw Hin. rewrite !elem_of_app, !elem_of_cons in *. destruct Hin as [?|[?|?]]; [auto|congruence|auto].
Qed.

(** What a variable adds in front. *)
Definition search_part (o : option string) : string :=
  match o with
  | Some v => if decide (trim v = "") then "" else trim_end_char ";" (trim v) ++ ";"
  | None => ""
  end.

Lemma get_text_plain (t : T) es key s :
  plain t es → NoDup es.*1 → (LString key, LString s) ∈ es → utf8 s → get_text conversion_error t key = Ok s.
Proof.
  intros Hp Hnd Hin Hs. unfold get_text. rewrite (plain_get t es key (LString s)) by done. simpl.
  unfold from_lua. simpl. by rewrite from_utf8_str.
Qed.

Lemma prepend_plain var a b key (package : T) es old :
  plain package es → NoDup es.*1 → (LString key, LString old) ∈ es → utf8 old →
  utf8 (search_part (first_var var a b)) →
  ∃ p' es', prepend_var conversion_error var a b key package = Ok p' ∧ plain p' es' ∧ es'.*1 = es.*1 ∧
    (LString key, LString (search_part (first_var var a b) ++ old)) ∈ es' ∧
    ∀ k w, k ≠ LString key → (k, w) ∈ es → (k, w) ∈ es'.
Proof.
  intros Hp Hnd Hin Ho Hu. unfold prepend_var, search_part in *. destruct (first_var var a b) as [v|]; [|by exists package, es].
  unfold prepend_package_search_path. case_decide; [by exists package, es|].
  rewrite (get_text_plain package es key old) by done. cbn [mbind result_bind].
  destruct (set_key_old key (LString old) (LString (trim_end_char ";" (trim v) ++ ";" ++ old)) package es Hp Hnd Hin)
    as (t' & es' & H1 & H2 & H3 & H4 & H5); [done|]. exists t', es'. by rewrite string_app_assoc.
Qed.

(** The search path a script's [require] gets: the script's directory comes
    first, then what [WRKR_LUA_PATH] (or else [LUA_PATH]) names, then Lua's own
    path; C modules are searched where [WRKR_LUA_CPATH] (or else [LUA_CPATH])
    says and then where Lua does. *)
Lemma module_path_order var package es path cpath script_path :
  plain package es → NoDup es.*1 →
  (LString "path", LString path) ∈ es → (LString "cpath", LString cpath) ∈ es → utf8 path → utf8 cpath →
  utf8 (search_part (first_var var "WRKR_LUA_PATH" "LUA_PATH")) →
  utf8 (search_part (first_var var "WRKR_LUA_CPATH" "LUA_CPATH")) →
  ∃ package', configure_module_path conversion_error var package script_path = Ok package' ∧
    let dir := normalize_for_lua_path (default "" (parent script_path)) in
    tbl_get package' "path" = Ok (LString (dir ++ "/?.lua;" ++ dir ++ "/?/init.lua;" ++
      search_part (first_var var "WRKR_LUA_PATH" "LUA_PATH") ++ path)) ∧
    tbl_get package' "cpath" = Ok (LString (search_part (first_var var "WRKR_LUA_CPATH" "LUA_CPATH") ++ cpath)).
Proof.
  intros Hp Hnd Hpath Hcpath Up Uc U1 U2. unfold configure_module_path.
  destruct (prepend_plain var "WRKR_LUA_PATH" "LUA_PATH" "path" package es path) as (p1 & es1 & -> & P1 & N1 & I1 & K1);
    [done..|]. cbn [mbind result_bind]. rewrite <- N1 in Hnd.
  destruct (prepend_plain var "WRKR_LUA_CPATH" "LUA_CPATH" "cpath" p1 es1 cpath) as (p2 & es2 & -> & P2 & N2 & I2 & K2);
    [done|done|by apply K1|done|done|]. cbn [mbind result_bind]. rewrite <- N2 in Hnd.
  assert ((LString "path", LString (search_part (first_var var "WRKR_LUA_PATH" "LUA_PATH") ++ path)) ∈ es2) as I1' by by apply K2.
  rewrite (get_text_plain p2 es2 "path" _ P2 Hnd I1') by by apply utf8_app. cbn [mbind result_bind].
  match goal with |- context [set_key "path" (LString ?x) p2] =>
    destruct (set_key_old "path" _ (LString x) p2 es2 P2 Hnd I1') as (p3 & es3 & -> & P3 & N3 & I3 & K3); [done|] end.
  exists p3. cbv zeta. split; [done|]. rewrite <- N3 in Hnd. rewrite !string_app_assoc in I3. split.
  - eapply plain_get; [done|done|exact I3].
  - eapply plain_get; [done|done|by apply K3].
Qed.

(** A script named without a directory ([wrkr run main.lua]): no file can be
    read with [read_file], whatever its name, and [require] searches the root
    of the file system before anything else. *)
Theorem bare_script_directory {FL : FilesLaws F} var package es path cpath name :
  parent name = Some "" → plain package es → NoDup es.*1 →
  (LString "path", LString path) ∈ es → (LString "cpath", LString cpath) ∈ es → utf8 path → utf8 cpath →
  utf8 (search_part (first_var var "WRKR_LUA_PATH" "LUA_PATH")) →
  utf8 (search_part (first_var var "WRKR_LUA_CPATH" "LUA_CPATH")) →
  (∀ rel, ∃ e, read_script_relative_text name rel = Err e) ∧
  ∃ package' rest, configure_module_path conversion_error var package name = Ok package' ∧
    tbl_get package' "path" = Ok (LString ("/?.lua;/?/init.lua;" ++ rest)).
Proof.
  intros Hname Hp Hnd H1 H2 U1 U2 V1 V2. split.
  - intros rel. unfold read_script_relative_text. destruct (is_absolute rel); [by eexists|]. rewrite Hname.
    destruct canonical_empty as [e ->]. by eexists.
  - destruct (module_path_order var package es path cpath name) as (p' & E & Epath & _); [done..|].
    rewrite Hname in Epath. by exists p', (search_part (first_var var "WRKR_LUA_PATH" "LUA_PATH") ++ path).
Qed.
End search.

(** ** Witnesses *)
Definition demo_file (p : string) : Prelude.result string string :=
  if decide (p = "/s/data/payload.json") then Ok "{}" else Err "No such file or directory (os error 2)".
Definition demo_real (p : string) : Prelude.result string string :=
  if decide (p = "/s") then Ok "/s"
  else if decide (p = "/s/data/../data/payload.json") then Ok "/s/data/payload.json"
  else Err "No such file or directory (os error 2)".
Definition demo_files : Files := {| canonicalize := demo_real; read_to_string := demo_file |}.
#[local] Existing Instance demo_files.

#[local] Instance demo_files_laws : FilesLaws demo_files.
Proof.
  split.
  - intros p q. simpl. unfold demo_real. repeat case_decide; intros [= <-]; (split; [done|]);
      apply (bool_decide_unpack _); vm_compute; exact I.
  - by exists "No such file or directory (os error 2)".
Defined.

Lemma read_file_contained_witness :
  read_script_relative_text "/s/main.lua" "data/../data/payload.json" = Ok "{}".
Proof.
  apply (read_file_contained (F := demo_files) "/s/main.lua" "data/../data/payload.json" "{}").
  exists "/s", "/s", "/s/data/payload.json", ["data"; "payload.json"]%list.
  split_and!; try reflexivity.
  - repeat constructor; done.
  - apply (bool_decide_unpack _); vm_compute; exact I.
Defined.

Definition demo_package : Tree := Node [(LString "path", LString "./?.lua"); (LString "cpath", LString "./?.so")]%list.

Lemma bare_script_directory_witness :
  (∀ rel, ∃ e, read_script_relative_text "main.lua" rel = Err e) ∧
  ∃ package' rest, configure_module_path (λ _, "") (λ v, if decide (v = "LUA_PATH") then Some " lib/?.lua; " else None)
      demo_package "main.lua" = Ok package' ∧
    tbl_get package' "path" = Ok (LString ("/?.lua;/?/init.lua;" ++ rest)).
Proof.
  apply (bare_script_directory (F := demo_files) (λ _, "") (λ v, if decide (v = "LUA_PATH") then Some " lib/?.lua; " else None)
    demo_package (entries demo_package) "./?.lua" "./?.so" "main.lua"); try reflexivity.
  - apply NoDup_cons. split; [|apply NoDup_singleton]. intros [=]%list_elem_of_singleton.
  - left.
  - right. left.
Defined.
