(* ===== verification/Lifecycle.v ===== *)
(** * The hooks of a script (wrkr-lua/src/lifecycle.rs)

    [Setup], [Teardown] and [HandleSummary], each run in an interpreter of its
    own: the table [HandleSummary] gets and the outputs it asks for.  What the
    interpreter does is an interface, with the state of everything a script can
    change as its world. *)
From Stdlib Require Import SpecFloat.
From S2P Require Import Prelude Coll Std F64 Config Text Key Tags Metrics Registry Agg Requests Checks.
From S2P Require Import Thresholds ThresholdsEval Summary Report Value Coerce YamlText Paths.
From S2P Require Import Lua LuaOptions HttpModule GrpcModule Loader.

Local Open Scope Z_scope.

(** [vm_exec] is [init_lua], a fresh interpreter with the modules registered,
    and the run of the script's top level; it yields the globals.
    [vm_function g name] is [globals.get::<Function>(name).ok()]. *)
Class ScriptVM (T : Type) := {
  World : Type;
  LuaFn : Type;
  vm_exec : World → result LuaError.t T * World;
  vm_function : T → string → option LuaFn;
  vm_call : LuaFn → list (LuaValue T) → World → result string (LuaValue T) * World }.

Record HandleSummaryOutputs := mkOutputs {
  ou_stdout : option string;
  ou_stderr : option string;
  ou_files : list (string * string) }.

(** [s = s.saturating_add(..)], six times. *)
Record SummaryTotals := mkTotals {
  to_requests : Z; to_failed_requests : Z; to_bytes_received : Z; to_bytes_sent : Z;
  to_iterations : Z; to_checks_failed : Z }.

Definition add_scenario_totals (t : SummaryTotals) (s : ScenarioSummary) : SummaryTotals :=
  mkTotals (u64_sat_add (to_requests t) (su_requests_total s))
    (u64_sat_add (to_failed_requests t) (su_failed_requests_total s))
    (u64_sat_add (to_bytes_received t) (su_bytes_received_total s))
    (u64_sat_add (to_bytes_sent t) (su_bytes_sent_total s))
    (u64_sat_add (to_iterations t) (su_iterations_total s))
    (u64_sat_add (to_checks_failed t) (su_checks_failed_total s)).

Section lifecycle.
Context {T : Type} {L : LuaTables T} {V : ScriptVM T} {M : MapIter}.

Local Notation result A := (Prelude.result LuaError.t A).

(** ** Setup and Teardown *)
Definition run_hook (name : string) (w : World) : result unit * World :=
  let '(globals, w) := vm_exec w in
  match globals with
  | Err e => (Err e, w)
  | Ok globals =>
      match vm_function globals name with
      | None => (Ok tt, w)
      | Some hook => let '(r, w) := vm_call hook [] w in (lua_try ((λ _, tt) <$> r), w)
      end
  end.

Definition run_setup : World → result unit * World := run_hook "Setup".
Definition run_teardown : World → result unit * World := run_hook "Teardown".

(** ** The summary as a table *)

(** [IntoLua] for [u64]: what does not fit a Lua integer becomes a number. *)
Definition lua_u64 (u : Z) : LuaValue T := if u <=? i64_max then LInteger u else LNumber (f64_to_bits (of_Z u)).
Definition lua_f64 (f : f64) : LuaValue T := LNumber (f64_to_bits f).
Definition lua_opt_f64 (o : option f64) : LuaValue T := match o with Some f => lua_f64 f | None => LNil end.

(** [FromLua] for [u64] on what [lua_u64] writes. *)
Definition u64_of_lua (v : LuaValue T) : option Z :=
  match v with
  | LInteger i => if 0 <=? i then Some i else None
  | LNumber n =>
      let f := f64_from_bits n in
      if f_is_finite f && (-1 <? trunc f) && (trunc f <=? u64_max) then Some (trunc f) else None
  | _ => None
  end.

(** [t.set(k1, v1)?; t.set(k2, v2)?; ..]. *)
Fixpoint set_fields (fields : list (string * LuaValue T)) (t : T) : result T :=
  match fields with
  | [] => Ok t
  | (k, v) :: fields => t ← set_key k v t; set_fields fields t
  end.

Definition latency_fields (lat : HistogramSummary) : list (string * LuaValue T) :=
  [("p50", lua_opt_f64 (hs_p50 lat)); ("p75", lua_opt_f64 (hs_p75 lat)); ("p90", lua_opt_f64 (hs_p90 lat));
   ("p95", lua_opt_f64 (hs_p95 lat)); ("p99", lua_opt_f64 (hs_p99 lat)); ("min", lua_opt_f64 (hs_min lat));
   ("max", lua_opt_f64 (hs_max lat)); ("mean", lua_opt_f64 (hs_mean lat)); ("stdev", lua_opt_f64 (hs_stdev lat));
   ("count", lua_u64 (hs_count lat))]%string.

Definition scenario_fields (s : ScenarioSummary) : list (string * LuaValue T) :=
  [("scenario", LString (su_scenario s)); ("requests_total", lua_u64 (su_requests_total s));
   ("failed_requests_total", lua_u64 (su_failed_requests_total s));
   ("bytes_received_total", lua_u64 (su_bytes_received_total s));
   ("bytes_sent_total", lua_u64 (su_bytes_sent_total s)); ("iterations_total", lua_u64 (su_iterations_total s));
   ("checks_failed_total", lua_u64 (su_checks_failed_total s))]%string.

Definition scenario_table (s : ScenarioSummary) : result T :=
  t ← set_fields (scenario_fields s) create_table;
  checks ← set_fields (prod_map id lua_u64 <$> map_iter (su_checks_failed s)) create_table;
  t ← set_key "checks_failed" (LTable checks) t;
  match su_latency s with
  | Some lat => latency ← set_fields (latency_fields lat) create_table; set_key "latency" (LTable latency) t
  | None => Ok t
  end.

(** The loop over one scenario's failed checks. *)
Fixpoint add_checks (checks : list (string * Z)) (t : T) : result T :=
  match checks with
  | [] => Ok t
  | (name, count) :: checks =>
      let cur := match tbl_get t name with Ok v => u64_of_lua v | Err _ => None end in
      t ← set_key name (lua_u64 (u64_sat_add (default 0 cur) count)) t;
      add_checks checks t
  end.

Fixpoint add_scenarios (idx : Z) (scenarios : list ScenarioSummary) (acc : SummaryTotals * T * T) :
    result (SummaryTotals * T * T) :=
  match scenarios with
  | [] => Ok acc
  | s :: scenarios =>
      let '(totals, checks_failed, rows) := acc in
      let totals := add_scenario_totals totals s in
      checks_failed ← add_checks (map_iter (su_checks_failed s)) checks_failed;
      row ← scenario_table s;
      rows ← lua_try (tbl_set (lua_u64 (idx + 1)) (LTable row) rows);
      add_scenarios (idx + 1) scenarios (totals, checks_failed, rows)
  end.

Definition total_fields (t : SummaryTotals) : list (string * LuaValue T) :=
  [("requests_total", lua_u64 (to_requests t)); ("failed_requests_total", lua_u64 (to_failed_requests t));
   ("bytes_received_total", lua_u64 (to_bytes_received t)); ("bytes_sent_total", lua_u64 (to_bytes_sent t));
   ("iterations_total", lua_u64 (to_iterations t)); ("checks_failed_total", lua_u64 (to_checks_failed t))]%string.

Definition summary_table (summary : RunSummary) : result T :=
  '(totals, checks_failed, rows) ←
    add_scenarios 0 (ru_scenarios summary) (mkTotals 0 0 0 0 0 0, create_table, create_table);
  t ← set_fields (total_fields totals) create_table;
  t ← set_key "checks_failed" (LTable checks_failed) t;
  set_key "scenarios" (LTable rows) t.

(** ** What the hook asks for *)
Fixpoint read_outputs (pairs : list (Prelude.result string (LuaValue T * LuaValue T))) (out : HandleSummaryOutputs) :
    result HandleSummaryOutputs :=
  match pairs with
  | [] => Ok out
  | Err e :: _ => Err (LuaError.Lua e)
  | Ok (LString k, LString v) :: pairs =>
      let key := to_string_lossy k in
      let value := to_string_lossy v in
      read_outputs pairs
        (if decide (key = "stdout"%string) then mkOutputs (Some value) (ou_stderr out) (ou_files out)
         else if decide (key = "stderr"%string) then mkOutputs (ou_stdout out) (Some value) (ou_files out)
         else mkOutputs (ou_stdout out) (ou_stderr out) (ou_files out ++ [(key, value)]))
  | Ok _ :: pairs => read_outputs pairs out
  end.

Definition no_outputs : HandleSummaryOutputs := mkOutputs None None [].

Definition run_handle_summary (summary : RunSummary) (w : World) : result (option HandleSummaryOutputs) * World :=
  let '(globals, w) := vm_exec w in
  match globals with
  | Err e => (Err e, w)
  | Ok globals =>
      match vm_function globals "HandleSummary" with
      | None => (Ok None, w)
      | Some hook =>
          match summary_table summary with
          | Err e => (Err e, w)
          | Ok summary_tbl =>
              let '(out, w) := vm_call hook [LTable summary_tbl] w in
              (match out with
               | Err e => Err (LuaError.Lua e)
               | Ok (LTable out_tbl) => Some <$> read_outputs (tbl_pairs out_tbl) no_outputs
               | Ok _ => Ok (Some no_outputs)
               end, w)
          end
      end
  end.
End lifecycle.
