(* ===== verification/LifecycleProps.v ===== *)
(** * What [HandleSummary] is told and what it may ask for (Lifecycle.v) *)
From S2P Require Import Prelude Coll Std F64 Config Text Key Tags Metrics Registry Agg Requests Checks.
From S2P Require Import Thresholds ThresholdsEval Summary Report Value Coerce YamlText Paths.
From S2P Require Import Lua LuaOptions HttpModule GrpcModule Loader Lifecycle.

Local Open Scope Z_scope.

Section tables.
Context {T : Type} {L : LuaTables T} {W : LuaLaws T} {M : MapIter}.

(** The entries of fields: nil ones are not stored. *)
Definition field_entries (fields : list (string * LuaValue T)) : list (LuaValue T * LuaValue T) :=
  (λ p, (LString p.1, p.2)) <$> filter (λ p, is_nil p.2 = false) fields.

Lemma field_entries_key fields k : LString k ∈ (field_entries fields).*1 → k ∈ fields.*1.
Proof.
  unfold field_entries. rewrite <- list_fmap_compose. intros ([k' v] & [= ->] & [_ Hin]%list_elem_of_filter)%list_elem_of_fmap.
  apply list_elem_of_fmap. by exists (k', v).
Qed.

Lemma field_entries_NoDup fields : NoDup fields.*1 → NoDup (field_entries fields).*1.
Proof.
  unfold field_entries. induction fields as [|[k v] fields IH]; csimpl; [constructor|]. intros [Hk Hnd]%NoDup_cons.
  rewrite filter_cons. case_decide; [|by apply IH]. csimpl. apply NoDup_cons. split; [|by apply IH].
  intros Hin. apply Hk. by apply (field_entries_key fields).
Qed.

Lemma is_nil_true (v : LuaValue T) : is_nil v = true → v = LNil.
Proof. by destruct v. Qed.

Lemma set_fields_plain fields t es :
  plain t es → NoDup fields.*1 → (∀ k, k ∈ fields.*1 → LString k ∉ es.*1) →
  ∃ t', set_fields fields t = Ok t' ∧ plain t' (es ++ field_entries fields).
Proof.
  revert t es. induction fields as [|[k v] fields IH]; intros t es Hp Hnd Hn.
  { exists t. unfold field_entries. csimpl. by rewrite app_nil_r. }
  csimpl in *. apply NoDup_cons in Hnd as [Hk Hnd]. assert (LString k ∉ es.*1) as Hke by (apply Hn; by left).
  unfold field_entries. rewrite filter_cons. simpl. destruct (is_nil v) eqn:Hv.
  - rewrite decide_False by done. apply is_nil_true in Hv as ->.
    destruct (plain_set_nil t es (LString k) Hp I Hke) as (t1 & E & Hp1). unfold set_key. rewrite E. simpl.
    apply IH; [done|done|]. intros k' Hk'. apply Hn. by right.
  - rewrite decide_True by done. destruct (set_key_plain k v t es Hp Hke) as (t1 & -> & Hp1); [by destruct v|]. simpl.
    destruct (IH t1 _ Hp1 Hnd) as (t' & E & Hp').
    + intros k' Hk'. rewrite fmap_app, elem_of_app. csimpl. intros [Hin|Hin]; [by eapply Hn; [right|]|].
      apply list_elem_of_singleton in Hin as [= ->]. done.
    + exists t'. split; [done|]. csimpl. by rewrite <- app_assoc in Hp'.
Qed.

(** A table whose entries are these fields. *)
Definition has_fields (t : T) (fields : list (string * LuaValue T)) : Prop :=
  NoDup fields.*1 ∧ plain t (field_entries fields).

Lemma set_fields_new fields : NoDup fields.*1 → ∃ t, set_fields fields create_table = Ok t ∧ has_fields t fields.
Proof.
  intros Hnd. destruct (set_fields_plain fields create_table [] plain_new Hnd) as (t & E & Hp); [set_solver|].
  by exists t.
Qed.

Lemma set_key_fields k v t fields :
  has_fields t fields → k ∉ fields.*1 → v ≠ LNil → ∃ t', set_key k v t = Ok t' ∧ has_fields t' (fields ++ [(k, v)]).
Proof.
  intros [Hnd Hp] Hk Hv. destruct (set_key_plain k v t _ Hp) as (t' & E & Hp'); [|done|].
  { intros Hin. by apply Hk, field_entries_key. }
  exists t'. split; [done|]. split.
  - rewrite fmap_app. apply NoDup_app. split; [done|]. split; [|apply NoDup_singleton].
    intros x Hx [= ->]%list_elem_of_singleton. done.
  - unfold field_entries in *. rewrite filter_app, fmap_app.
    replace (filter _ [(k, v)]) with [(k, v)] by (by destruct v). done.
Qed.

Lemma fields_get t fields k v : has_fields t fields → (k, v) ∈ fields → tbl_get t k = Ok v.
Proof.
  intros [Hnd Hp] Hin. destruct (is_nil v) eqn:Hv.
  - apply is_nil_true in Hv as ->. eapply plain_get_absent; [exact Hp|]. unfold field_entries.
    rewrite <- list_fmap_compose. intros ([k' v'] & [= <-] & [Hf Hin']%list_elem_of_filter)%list_elem_of_fmap.
    apply list_elem_of_fmap_2 with (f := fst) in Hin as Hk.
    apply list_elem_of_lookup in Hin as [i Hi]. apply list_elem_of_lookup in Hin' as [j Hj].
    assert (i = j) as ->.
    { eapply (NoDup_lookup fields.*1); [done|by rewrite list_lookup_fmap, Hi|by rewrite list_lookup_fmap, Hj]. }
    by simplify_eq.
  - eapply plain_get; [exact Hp|by apply field_entries_NoDup|]. apply list_elem_of_fmap. exists (k, v).
    split; [done|]. by apply list_elem_of_filter.
Qed.

Lemma fields_get_absent t fields k : has_fields t fields → k ∉ fields.*1 → tbl_get t k = Ok LNil.
Proof. intros [Hnd Hp] Hk. eapply plain_get_absent; [exact Hp|]. by intros ?%field_entries_key. Qed.
End tables.

(** ** The checks by name *)
Section checks.
Context {T : Type} {L : LuaTables T} {W : LuaLaws T} {M : MapIter}.

Definition count_entries (l : list (string * Z)) : list (LuaValue T * LuaValue T) :=
  (λ p, (LString p.1, LInteger p.2)) <$> l.

(** The table holds the counts of [m]. *)
Definition counts (t : T) (m : gmap string Z) : Prop :=
  ∃ l, l ≡ₚ map_to_list m ∧ plain t (count_entries l).

Lemma count_entries_key l k : LString k ∈ (count_entries l).*1 ↔ k ∈ l.*1.
Proof.
  unfold count_entries. rewrite <- list_fmap_compose, !list_elem_of_fmap.
  split; intros ([k' v] & E & Hin); exists (k', v); simpl in *; [|by subst]. by simplify_eq.
Qed.

Lemma count_entries_NoDup l : NoDup l.*1 → NoDup (count_entries l).*1.
Proof.
  unfold count_entries. rewrite <- list_fmap_compose. intros Hnd.
  replace (fst ∘ _ <$> l) with (LString (T := T) <$> l.*1) by (by rewrite <- list_fmap_compose).
  apply NoDup_fmap_2; [|done]. by intros a b [= ->].
Qed.

Lemma counts_new : counts create_table ∅.
Proof. exists []. rewrite map_to_list_empty. split; [done|]. apply plain_new. Qed.

Lemma counts_get t m k :
  counts t m → tbl_get t k = Ok match m !! k with Some c => LInteger c | None => LNil end.
Proof.
  intros (l & Hl & Hp). assert (NoDup l.*1) as Hnd by (rewrite Hl; apply NoDup_fst_map_to_list).
  destruct (m !! k) as [c|] eqn:Hk.
  - eapply plain_get; [exact Hp|by apply count_entries_NoDup|]. apply list_elem_of_fmap. exists (k, c).
    split; [done|]. rewrite Hl. by apply elem_of_map_to_list.
  - eapply plain_get_absent; [exact Hp|]. rewrite count_entries_key, Hl.
    intros ([k' c] & E & Hin)%list_elem_of_fmap. apply elem_of_map_to_list in Hin. by simplify_eq/=.
Qed.

Lemma counts_set t m k c :
  counts t m → c ≤ i64_max → ∃ t', set_key k (lua_u64 c) t = Ok t' ∧ counts t' (<[k := c]> m).
Proof.
  intros (l & Hl & Hp) Hc. unfold lua_u64. rewrite (proj2 (Z.leb_le _ _)) by done.
  assert (NoDup l.*1) as Hnd by (rewrite Hl; apply NoDup_fst_map_to_list).
  destruct (m !! k) as [c0|] eqn:Hk.
  - assert ((k, c0) ∈ l) as Hin by (rewrite Hl; by apply elem_of_map_to_list).
    apply list_elem_of_split in Hin as (l1 & l2 & ->). unfold count_entries in Hp. rewrite fmap_app in Hp. csimpl in Hp.
    rewrite fmap_app, fmap_cons in Hnd. pose proof Hnd as (_ & Hn & _)%NoDup_app.
    destruct (plain_reset t (count_entries l1) (count_entries l2) (LString k) (LInteger c0) (LInteger c) Hp I)
      as (t' & E & Hp'); [|done|].
    { rewrite count_entries_key. intros Hx. apply (Hn _ Hx). by left. }
    exists t'. unfold set_key. rewrite E. split; [done|]. exists (l1 ++ (k, c) :: l2). split.
    + rewrite <- (insert_delete_eq m), map_to_list_insert by apply lookup_delete_eq.
      rewrite <- Permutation_middle. constructor. rewrite <- (insert_delete_id m k c0 Hk) in Hl.
      rewrite map_to_list_insert, <- Permutation_middle in Hl by apply lookup_delete_eq.
      by apply Permutation_cons_inv in Hl.
    + unfold count_entries in *. by rewrite fmap_app.
  - destruct (set_key_plain k (LInteger c) t _ Hp) as (t' & E & Hp'); [|done|].
    { rewrite count_entries_key, Hl. intros ([k' c'] & Ek & Hin)%list_elem_of_fmap.
      apply elem_of_map_to_list in Hin. by simplify_eq/=. }
    exists t'. split; [done|]. exists (l ++ [(k, c)]). split.
    + rewrite map_to_list_insert by done. by rewrite Hl, Permutation_app_comm.
    + unfold count_entries in *. by rewrite fmap_app.
Qed.

(** The sums a loop over counts leaves. *)
Definition add_count (m : gmap string Z) (p : string * Z) : gmap string Z :=
  <[p.1 := default 0 (m !! p.1) + p.2]> m.

Lemma add_count_lookup l m k :
  foldl add_count m l !! k =
  match m !! k, filter (λ p, p.1 = k) l with
  | None, [] => None
  | o, f => Some (default 0 o + sumf snd f)
  end.
Proof.
  revert m. induction l as [|[k' c] l IH]; intros m; cbn [foldl].
  { simpl. destruct (m !! k); simpl; [f_equal; unfold sumf; simpl; lia|done]. }
  rewrite IH, filter_cons. unfold add_count. simpl. destruct (decide (k' = k)) as [->|Hk].
  - rewrite lookup_insert_eq. cbn [default]. rewrite sumf_cons. simpl.
    destruct (m !! k) as [c0|]; simpl; [f_equal; lia|done].
  - by rewrite lookup_insert_ne.
Qed.

Lemma add_checks_counts l t m :
  counts t m → (∀ k c, (k, c) ∈ l → 0 ≤ c) → (∀ k c, m !! k = Some c → 0 ≤ c) →
  (∀ k c, foldl add_count m l !! k = Some c → c ≤ i64_max) →
  ∃ t', add_checks l t = Ok t' ∧ counts t' (foldl add_count m l).
Proof.
  revert t m. induction l as [|[k c] l IH]; intros t m Hm Hl Hpos Hmax; [by exists t|]. cbn [add_checks foldl].
  rewrite (counts_get t m k Hm). pose proof (Hl k c ltac:(by left)) as Hc.
  assert (match (Ok match m !! k with Some c => LInteger c | None => LNil end : result string (LuaValue T)) with
    | Ok v => u64_of_lua v | Err _ => None end = m !! k) as ->.
  { destruct (m !! k) as [c0|] eqn:Hk; simpl; [|done]. by rewrite (proj2 (Z.leb_le _ _)) by (by eapply Hpos). }
  assert (0 ≤ default 0 (m !! k)) as H0 by (destruct (m !! k) eqn:Hk; simpl; [by eapply Hpos|done]).
  assert (default 0 (m !! k) + c ≤ i64_max) as Hb.
  { cbn [foldl] in Hmax. pose proof (add_count_lookup l (add_count m (k, c)) k) as Hlk.
    assert (add_count m (k, c) !! k = Some (default 0 (m !! k) + c)) as E by apply lookup_insert_eq.
    rewrite E in Hlk. apply Hmax in Hlk. simpl in Hlk.
    assert (0 ≤ sumf snd (filter (λ p : string * Z, p.1 = k) l)); [|lia].
    apply sumf_nonneg. intros [k' c'] [_ Hin]%list_elem_of_filter. simpl. eapply (Hl k'). by right. }
  replace (u64_sat_add (default 0 (m !! k)) c) with (default 0 (m !! k) + c) by ints_lia.
  destruct (counts_set t m k _ Hm Hb) as (t1 & -> & Hm1). simpl. apply IH; [done| | |done].
  - intros k' c' Hin. eapply Hl. by right.
  - intros k' c'. unfold add_count. cbn [fst snd]. destruct (decide (k = k')) as [<-|Hk].
    + rewrite lookup_insert_eq. intros [= <-]. lia.
    + rewrite lookup_insert_ne by done. apply Hpos.
Qed.
End checks.

(** ** The whole table *)
Section summary.
Context {T : Type} {L : LuaTables T} {W : LuaLaws T} {M : MapIter}.

(** What one row tells of its scenario. *)
Definition row_tells (s : ScenarioSummary) (row : LuaValue T) : Prop :=
  ∃ t checks, row = LTable t ∧
    (∀ k v, (k, v) ∈ scenario_fields s → tbl_get t k = Ok v) ∧
    tbl_get t "checks_failed" = Ok (LTable checks) ∧
    (∀ name, tbl_get checks name = Ok match su_checks_failed s !! name with Some c => lua_u64 c | None => LNil end) ∧
    match su_latency s with
    | Some lat => ∃ tl, tbl_get t "latency" = Ok (LTable tl) ∧ ∀ k v, (k, v) ∈ latency_fields lat → tbl_get tl k = Ok v
    | None => tbl_get t "latency" = Ok LNil
    end.

Lemma scenario_table_tells s : ∃ t, scenario_table s = Ok t ∧ row_tells s (LTable t).
Proof.
  unfold scenario_table.
  destruct (set_fields_new (scenario_fields s)) as (t & -> & Ht); [by vm_compute; repeat constructor; set_solver|]. cbn [mbind result_bind].
  destruct (set_fields_new (prod_map id lua_u64 <$> map_iter (su_checks_failed s))) as (ck & -> & Hck).
  { rewrite <- list_fmap_compose. apply NoDup_fst_map_iter. }
  cbn [mbind result_bind]. destruct (set_key_fields "checks_failed" (LTable ck) t _ Ht) as (t1 & -> & Ht1); [set_solver|done|]. cbn [mbind result_bind].
  assert (∀ name, tbl_get ck name = Ok match su_checks_failed s !! name with Some c => lua_u64 c | None => LNil end) as Hchecks.
  { intros name. destruct (su_checks_failed s !! name) as [c|] eqn:Hn.
    - eapply fields_get; [exact Hck|]. apply list_elem_of_fmap. exists (name, c). split; [done|].
      by apply elem_of_map_iter.
    - eapply fields_get_absent; [exact Hck|]. rewrite <- list_fmap_compose.
      intros ([k c] & E & Hin)%list_elem_of_fmap. apply elem_of_map_iter in Hin. by simplify_eq/=. }
  destruct (su_latency s) as [lat|] eqn:Hlat.
  - destruct (set_fields_new (latency_fields lat)) as (tl & -> & Htl); [by vm_compute; repeat constructor; set_solver|].
    cbn [mbind result_bind]. destruct (set_key_fields "latency" (LTable tl) t1 _ Ht1) as (t2 & -> & Ht2); [set_solver|done|].
    exists t2. split; [done|]. exists t2, ck. split; [done|]. split_and!; [| |exact Hchecks|].
    + intros k v Hin. eapply fields_get; [exact Ht2|]. set_solver.
    + eapply fields_get; [exact Ht2|]. set_solver.
    + rewrite Hlat. exists tl. split; [eapply fields_get; [exact Ht2|]; set_solver|].
      intros k v Hin. by eapply fields_get.
  - exists t1. split; [done|]. exists t1, ck. split; [done|]. split_and!; [| |exact Hchecks|].
    + intros k v Hin. eapply fields_get; [exact Ht1|]. set_solver.
    + eapply fields_get; [exact Ht1|]. set_solver.
    + rewrite Hlat. eapply fields_get_absent; [exact Ht1|]. set_solver.
Qed.

(** *** The loop over the scenarios *)
Definition add_scenario_counts (m : gmap string Z) (s : ScenarioSummary) : gmap string Z :=
  foldl add_count m (map_iter (su_checks_failed s)).

Lemma filter_none {A} (P : A → Prop) `{!∀ x, Decision (P x)} l : (∀ x, x ∈ l → ¬ P x) → filter P l = [].
Proof.
  induction l as [|x l IH]; intros Hl; [done|]. rewrite filter_cons, decide_False by (apply Hl; by left).
  apply IH. intros y Hy. apply Hl. by right.
Qed.

Lemma filter_key (l : list (string * Z)) k c : NoDup l.*1 → (k, c) ∈ l → filter (λ p, p.1 = k) l = [(k, c)].
Proof.
  induction l as [|[k' c'] l IH]; csimpl; intros Hnd Hin; [by apply elem_of_nil in Hin|].
  apply NoDup_cons in Hnd as [Hk' Hnd]. rewrite filter_cons. simpl. apply elem_of_cons in Hin as [[= -> ->]|Hin].
  - rewrite decide_True by done. f_equal. apply filter_none. intros [k2 c2] Hin E. simpl in E. subst k2.
    apply Hk'. apply list_elem_of_fmap. by exists (k', c2).
  - rewrite decide_False; [by apply IH|]. intros ->. apply Hk'. apply list_elem_of_fmap. by exists (k, c).
Qed.

Lemma scenario_counts_lookup m s k :
  add_scenario_counts m s !! k =
  match m !! k, su_checks_failed s !! k with
  | None, None => None
  | o, o' => Some (default 0 o + default 0 o')
  end.
Proof.
  unfold add_scenario_counts. rewrite add_count_lookup. destruct (su_checks_failed s !! k) as [c|] eqn:Hc.
  - rewrite (filter_key _ k c); [|apply NoDup_fst_map_iter|by apply elem_of_map_iter].
    unfold sumf. simpl. destruct (m !! k); simpl; f_equal; lia.
  - rewrite filter_none.
    + unfold sumf. simpl. by destruct (m !! k).
    + intros [k' c] Hin. simpl. intros ->. apply elem_of_map_iter in Hin. by simplify_eq.
Qed.

(** The failed checks called [name], over all scenarios. *)
Definition named (name : string) (ss : list ScenarioSummary) : Z :=
  sumf (λ s, default 0 (su_checks_failed s !! name)) ss.
Definition has_check (name : string) (ss : list ScenarioSummary) : Prop :=
  Exists (λ s, is_Some (su_checks_failed s !! name)) ss.
#[export] Instance has_check_dec name ss : Decision (has_check name ss).
Proof. unfold has_check. apply _. Defined.

Lemma counts_of_all ss m k :
  foldl add_scenario_counts m ss !! k =
  match m !! k with
  | Some c => Some (c + named k ss)
  | None => if decide (has_check k ss) then Some (named k ss) else None
  end.
Proof.
  unfold named. revert m. induction ss as [|s ss IH]; intros m; cbn [foldl].
  - destruct (m !! k); [f_equal; unfold sumf; simpl; lia|]. by rewrite decide_False by (by intros ?%Exists_nil).
  - rewrite IH, scenario_counts_lookup, sumf_cons.
    destruct (m !! k) as [c|], (su_checks_failed s !! k) as [d|] eqn:Hd; cbn [from_option default id]; [f_equal; lia..| |].
    + rewrite decide_True; [f_equal; lia|]. left. by rewrite Hd.
    + destruct (decide (has_check k ss)) as [Hh|Hh]; [rewrite decide_True by (by right); f_equal; lia|].
      rewrite decide_False; [done|]. intros [[? Hs]|?]%Exists_cons; [by rewrite Hd in Hs|done].
Qed.

Definition row_entries (vs : list (LuaValue T)) : list (LuaValue T * LuaValue T) :=
  imap (λ i v, (LInteger (Z.of_nat i + 1), v)) vs.

Lemma row_entries_key vs k : k ∈ (row_entries vs).*1 → ∃ i, (i < length vs)%nat ∧ k = LInteger (Z.of_nat i + 1).
Proof.
  unfold row_entries. rewrite fmap_imap. intros Hk. apply elem_of_lookup_imap in Hk as (i & v & -> & Hi).
  exists i. split; [by eapply lookup_lt_Some|done].
Qed.

Lemma rows_sequence t vs : plain t (row_entries vs) → Forall (λ v, v ≠ LNil) vs → sequence_values t = Ok <$> vs.
Proof.
  intros Hp Hv. eapply plain_sequence; [exact Hp| | |].
  - apply NoDup_alt. intros i j k. unfold row_entries. rewrite fmap_imap, !list_lookup_imap. intros Hi Hj.
    destruct (vs !! i), (vs !! j); simplify_eq/=. lia.
  - intros i v Hi. split; [|by eapply (Forall_lookup_1 _ _ _ _ Hv)]. apply elem_of_lookup_imap. by exists i, v.
  - intros (i & Hi & [= E])%row_entries_key. lia.
Qed.

Definition counts_ok (s : ScenarioSummary) : Prop := ∀ name c, su_checks_failed s !! name = Some c → 0 ≤ c.

Lemma add_scenarios_spec ss totals ck rows m vs :
  counts ck m → plain rows (row_entries vs) → Forall counts_ok ss → (∀ k c, m !! k = Some c → 0 ≤ c) →
  (∀ k, default 0 (m !! k) + named k ss ≤ i64_max) → Z.of_nat (length vs) + Z.of_nat (length ss) ≤ i64_max →
  ∃ ck' rows' new, add_scenarios (Z.of_nat (length vs)) ss (totals, ck, rows) =
      Ok (foldl add_scenario_totals totals ss, ck', rows') ∧
    counts ck' (foldl add_scenario_counts m ss) ∧ plain rows' (row_entries (vs ++ new)) ∧ Forall2 row_tells ss new.
Proof.
  revert totals ck rows m vs. induction ss as [|s ss IH]; intros totals ck rows m vs Hck Hr Hok Hpos Hmax Hlen.
  { exists ck, rows, []. rewrite app_nil_r. by split_and!. }
  apply Forall_cons in Hok as [Hs Hok]. cbn [add_scenarios foldl].
  assert (∀ k, 0 ≤ named k ss) as Hn.
  { intros k. apply sumf_nonneg. intros s' Hs'. rewrite Forall_forall in Hok.
    destruct (su_checks_failed s' !! k) eqn:E; [by eapply (Hok s' Hs' k)|done]. }
  assert (∀ k c, add_scenario_counts m s !! k = Some c → 0 ≤ c ∧ c + named k ss ≤ i64_max) as Hstep.
  { intros k c. rewrite scenario_counts_lookup. specialize (Hmax k). unfold named in *. rewrite sumf_cons in Hmax.
    destruct (m !! k) as [c0|] eqn:Hm, (su_checks_failed s !! k) as [d|] eqn:Hd; intros [= <-]; simpl in *;
      try (pose proof (Hpos _ _ Hm)); try (pose proof (Hs _ _ Hd)); lia. }
  destruct (add_checks_counts (map_iter (su_checks_failed s)) ck m Hck) as (ck1 & -> & Hck1); [| done| |].
  { intros k c Hin%elem_of_map_iter. by eapply Hs. }
  { intros k c Hc. pose proof (Hstep k c Hc). specialize (Hn k). lia. }
  cbn [mbind result_bind]. destruct (scenario_table_tells s) as (row & -> & Hrow). cbn [mbind result_bind].
  cbn [length] in Hlen. assert (lua_u64 (Z.of_nat (length vs) + 1) = LInteger (T := T) (Z.of_nat (length vs) + 1)) as ->.
  { unfold lua_u64. rewrite (proj2 (Z.leb_le _ _)); [done|lia]. }
  destruct (plain_set rows _ (LInteger (Z.of_nat (length vs) + 1)) (LTable row) Hr I) as (rows1 & -> & Hr1); [|done|].
  { intros (i & Hi & [= E])%row_entries_key. lia. }
  cbn [mbind result_bind lua_try].
  destruct (IH (add_scenario_totals totals s) ck1 rows1 (add_scenario_counts m s) (vs ++ [LTable row]))
    as (ck' & rows' & new & E & H1 & H2 & H3); [done| |done| | | |].
  - unfold row_entries in *. rewrite imap_app. simpl. by rewrite Nat.add_0_r.
  - intros k c Hc. by destruct (Hstep k c Hc).
  - intros k. destruct (add_scenario_counts m s !! k) as [c|] eqn:Hc; [by destruct (Hstep k c Hc)|]. simpl.
    specialize (Hmax k). unfold named in *. rewrite sumf_cons in Hmax.
    destruct (m !! k) as [c0|] eqn:Hm; simpl in *.
    + rewrite scenario_counts_lookup, Hm in Hc. by destruct (su_checks_failed s !! k).
    + destruct (su_checks_failed s !! k) eqn:Hd; simpl in *; [pose proof (Hs _ _ Hd)|]; lia.
  - rewrite length_app. simpl. lia.
  - rewrite length_app in E. cbn [length] in E. replace (Z.of_nat (length vs + 1)) with (Z.of_nat (length vs) + 1) in E by lia.
    exists ck', rows', (LTable row :: new). rewrite E. rewrite <- app_assoc in H2. split_and!; [done|done|done|by constructor].
Qed.
End summary.

(** ** The hook *)
Definition totals_of : list (string * (ScenarioSummary → Z)) :=
  [("requests_total", su_requests_total); ("failed_requests_total", su_failed_requests_total);
   ("bytes_received_total", su_bytes_received_total); ("bytes_sent_total", su_bytes_sent_total);
   ("iterations_total", su_iterations_total); ("checks_failed_total", su_checks_failed_total)]%string.

Definition figures_nonneg (s : ScenarioSummary) : Prop := Forall (λ p, 0 ≤ p.2 s) totals_of ∧ counts_ok s.

Section hook.
Context {T : Type} {L : LuaTables T} {W : LuaLaws T} {V : ScriptVM T} {M : MapIter}.

(** What the table tells of the summary. *)
Definition summary_tells (summary : RunSummary) (t : T) : Prop :=
  (∀ k f, (k, f) ∈ totals_of → tbl_get t k = Ok (lua_u64 (Z.min u64_max (sumf f (ru_scenarios summary))))) ∧
  (∃ rows vs, tbl_get t "scenarios" = Ok (LTable rows) ∧ sequence_values rows = Ok <$> vs ∧
    Forall2 row_tells (ru_scenarios summary) vs) ∧
  ∃ checks, tbl_get t "checks_failed" = Ok (LTable checks) ∧
    ∀ name, tbl_get checks name =
      Ok (if decide (has_check name (ru_scenarios summary)) then LInteger (named name (ru_scenarios summary)) else LNil).

Lemma totals_exact (get : SummaryTotals → Z) k f (ss : list ScenarioSummary) t :
  (k, f) ∈ totals_of → (∀ t s, get (add_scenario_totals t s) = u64_sat_add (get t) (f s)) → in_u64 (get t) →
  Forall figures_nonneg ss →
  get (foldl add_scenario_totals t ss) = Z.min u64_max (get t + sumf f ss).
Proof.
  intros Hf Hget Ht Hss. apply foldl_sat; [by intros|done|]. intros s Hs. rewrite Forall_forall in Hss.
  destruct (Hss s Hs) as [Hp _]. rewrite Forall_forall in Hp. exact (Hp _ Hf).
Qed.

Lemma total_fields_exact ss :
  Forall figures_nonneg ss →
  total_fields (foldl add_scenario_totals (mkTotals 0 0 0 0 0 0) ss) =
  (λ p, (p.1, lua_u64 (T := T) (Z.min u64_max (sumf p.2 ss)))) <$> totals_of.
Proof.
  intros Hss. unfold total_fields, totals_of. csimpl.
  rewrite (totals_exact to_requests "requests_total" su_requests_total),
    (totals_exact to_failed_requests "failed_requests_total" su_failed_requests_total),
    (totals_exact to_bytes_received "bytes_received_total" su_bytes_received_total),
    (totals_exact to_bytes_sent "bytes_sent_total" su_bytes_sent_total),
    (totals_exact to_iterations "iterations_total" su_iterations_total),
    (totals_exact to_checks_failed "checks_failed_total" su_checks_failed_total); try done; unfold totals_of; set_solver.
Qed.

Lemma summary_table_tells summary :
  Forall figures_nonneg (ru_scenarios summary) → (∀ name, named name (ru_scenarios summary) ≤ i64_max) →
  Z.of_nat (length (ru_scenarios summary)) ≤ i64_max →
  ∃ t, summary_table summary = Ok t ∧ summary_tells summary t.
Proof.
  intros Hok Hmax Hlen. set (ss := ru_scenarios summary) in *. unfold summary_table. fold ss.
  destruct (add_scenarios_spec ss (mkTotals 0 0 0 0 0 0) create_table create_table ∅ []) as (ck & rows & vs & E & Hck & Hr & Hrows).
  - apply counts_new.
  - apply plain_new.
  - eapply Forall_impl; [exact Hok|]. by intros s [_ ?].
  - intros k c. by rewrite lookup_empty.
  - intros k. rewrite lookup_empty. simpl. specialize (Hmax k). lia.
  - simpl. lia.
  - change (Z.of_nat (length [])) with 0 in E. rewrite E. cbn [mbind result_bind]. clear E.
    destruct (set_fields_new (T := T) (total_fields (foldl add_scenario_totals (mkTotals 0 0 0 0 0 0) ss))) as (t & -> & Ht);
      [by vm_compute; repeat constructor; set_solver|]. cbn [mbind result_bind].
    destruct (set_key_fields "checks_failed" (LTable ck) t _ Ht) as (t1 & -> & Ht1); [set_solver|done|]. cbn [mbind result_bind].
    destruct (set_key_fields "scenarios" (LTable rows) t1 _ Ht1) as (t2 & -> & Ht2); [set_solver|done|].
    exists t2. split; [done|]. unfold summary_tells. fold ss. split_and!.
    + intros k f Hin. eapply fields_get; [exact Ht2|]. rewrite !elem_of_app. left; left.
      rewrite total_fields_exact by done. apply list_elem_of_fmap. by exists (k, f).
    + exists rows, vs. split_and!; [eapply fields_get; [exact Ht2|]; set_solver| |done].
      apply rows_sequence; [done|]. clear -Hrows. induction Hrows as [|s v ss vs (t & ck & -> & _)]; by constructor.
    + exists ck. split; [eapply fields_get; [exact Ht2|]; set_solver|]. intros name.
      rewrite (counts_get ck _ name Hck), counts_of_all, lookup_empty. by destruct (decide (has_check name ss)).
Qed.

(** The pairs of the table the hook returned whose key and value are strings. *)
Definition text_entries (ps : list (LuaValue T * LuaValue T)) : list (string * string) :=
  omap (λ p, match p with (LString k, LString v) => Some (to_string_lossy k, to_string_lossy v) | _ => None end) ps.
Definition last_named (key : string) (ps : list (LuaValue T * LuaValue T)) : option string :=
  snd <$> last (filter (λ p, p.1 = key) (text_entries ps)).
Definition other_named (ps : list (LuaValue T * LuaValue T)) : list (string * string) :=
  filter (λ p, p.1 ≠ "stdout" ∧ p.1 ≠ "stderr")%string (text_entries ps).

Definition or_else {A} (o o' : option A) : option A := match o with Some _ => o | None => o' end.

Definition add_output (out : HandleSummaryOutputs) (p : string * string) : HandleSummaryOutputs :=
  if decide (p.1 = "stdout"%string) then mkOutputs (Some p.2) (ou_stderr out) (ou_files out)
  else if decide (p.1 = "stderr"%string) then mkOutputs (ou_stdout out) (Some p.2) (ou_files out)
  else mkOutputs (ou_stdout out) (ou_stderr out) (ou_files out ++ [p]).

Lemma read_outputs_texts ps rest out :
  read_outputs ((Ok <$> ps) ++ rest) out = read_outputs rest (foldl add_output out (text_entries ps)).
Proof.
  revert out. unfold text_entries. induction ps as [|[k v] ps IH]; intros out; [done|].
  destruct k; csimpl; try (by rewrite IH). destruct v; csimpl; by rewrite IH.
Qed.

Lemma add_outputs_spec l out :
  foldl add_output out l =
  mkOutputs (or_else (snd <$> last (filter (λ p, p.1 = "stdout"%string) l)) (ou_stdout out))
    (or_else (snd <$> last (filter (λ p, p.1 = "stderr"%string) l)) (ou_stderr out))
    (ou_files out ++ filter (λ p, p.1 ≠ "stdout" ∧ p.1 ≠ "stderr")%string l).
Proof.
  induction l as [|[k v] l IH] using rev_ind; [simpl; rewrite app_nil_r; by destruct out|].
  rewrite foldl_snoc, IH, !filter_app. unfold add_output. simpl.
  destruct (decide (k = "stdout"%string)) as [->|H1]; [|destruct (decide (k = "stderr"%string)) as [->|H2]].
  - rewrite !filter_cons, !filter_nil. simpl. by rewrite !app_nil_r, last_snoc.
  - rewrite !filter_cons, !filter_nil. simpl. by rewrite !app_nil_r, last_snoc.
  - rewrite !filter_cons, !filter_nil. simpl. rewrite !decide_False, decide_True by done. by rewrite !app_nil_r, app_assoc.
Qed.

Lemma read_outputs_spec ps rest :
  read_outputs ((Ok <$> ps) ++ rest) no_outputs =
  read_outputs rest (mkOutputs (last_named "stdout" ps) (last_named "stderr" ps) (other_named ps)).
Proof.
  rewrite read_outputs_texts, add_outputs_spec. unfold last_named, other_named. simpl.
  by destruct (snd <$> last (filter (λ p, p.1 = "stdout"%string) _)), (snd <$> last (filter (λ p, p.1 = "stderr"%string) _)).
Qed.

(** What a run of the hook must do in the world [w]. *)
Definition hook_run (summary : RunSummary) (w : World) (r : result LuaError.t (option HandleSummaryOutputs)) (w' : World) :
    Prop :=
  match vm_exec w with
  | (Err e, w1) => r = Err e ∧ w' = w1
  | (Ok globals, w1) =>
      match vm_function globals "HandleSummary" with
      | None => r = Ok None ∧ w' = w1
      | Some hook => ∃ t, summary_tells summary t ∧ w' = (vm_call hook [LTable t] w1).2 ∧
          match (vm_call hook [LTable t] w1).1 with
          | Err e => r = Err (LuaError.Lua e)
          | Ok (LTable o) => ∀ ps rest, tbl_pairs o = (Ok <$> ps) ++ rest →
              match rest with
              | [] => r = Ok (Some (mkOutputs (last_named "stdout" ps) (last_named "stderr" ps) (other_named ps)))
              | Err e :: _ => r = Err (LuaError.Lua e)
              | Ok _ :: _ => True
              end
          | Ok _ => r = Ok (Some (mkOutputs None None []))
          end
      end
  end.

(** C25. [HandleSummary], where the script has it, is called once, in an
    interpreter of its own, with a table that tells the summary: the totals are
    the sums over the scenarios (capped at 64 bits), [scenarios] has a row per
    scenario, in order, with all its figures, and [checks_failed] counts the
    failed checks by name over all scenarios.  Of the table it returns the texts
    under [stdout] and [stderr] are the output and all other texts the files, in
    the order of the traversal; anything else is left out, and an error of the
    script or of the traversal is the error of the hook. *)
Theorem handle_summary_told summary w :
  Forall figures_nonneg (ru_scenarios summary) → (∀ name, named name (ru_scenarios summary) ≤ i64_max) →
  Z.of_nat (length (ru_scenarios summary)) ≤ i64_max →
  let '(r, w') := run_handle_summary summary w in hook_run summary w r w'.
Proof.
  intros Hok Hmax Hlen. unfold run_handle_summary, hook_run. destruct (vm_exec w) as [[globals|e] w1]; [|done].
  destruct (vm_function globals "HandleSummary") as [hook|]; [|done].
  destruct (summary_table_tells summary Hok Hmax Hlen) as (t & -> & Ht).
  destruct (vm_call hook [LTable t] w1) as [out w2] eqn:Hcall. exists t. rewrite Hcall. split_and!; [done|done|]. simpl.
  destruct out as [[]|e]; try done. intros ps rest ->. rewrite read_outputs_spec.
  by destruct rest as [|[]].
Qed.
End hook.

(** ** Witness *)
Definition demo_returned : Tree :=
  Node [(LString "stdout", LString "done"); (LInteger 1, LString "x"); (LString "out/a.json", LString "{}")]%string.
#[local] Instance demo_vm : ScriptVM Tree := {|
  World := list string;
  LuaFn := string;
  vm_exec w := (Ok (Node []), w ++ ["exec"%string]);
  vm_function _ name := Some name;
  vm_call f args w := (Ok (LTable demo_returned), w ++ [f]) |}.

Definition demo_row (name : string) (failed : Z) : ScenarioSummary :=
  mkScenarioSummary name 10 failed 2048 512 10 failed {[ "ok"%string := failed ]} None.
Definition demo_run : RunSummary := mkRunSummary [demo_row "a" 1; demo_row "b" 2] [] [].

Lemma demo_row_ok name failed : 0 ≤ failed → figures_nonneg (demo_row name failed).
Proof.
  intros Hf. split.
  - unfold totals_of. repeat (apply Forall_cons; split; [simpl; lia|]). by apply Forall_nil.
  - intros n c. simpl. rewrite lookup_singleton_Some. by intros [_ <-].
Qed.

Lemma handle_summary_told_witness :
  let '(r, w') := run_handle_summary (V := demo_vm) demo_run ([] : list string) in
  hook_run (V := demo_vm) demo_run ([] : list string) r w'.
Proof.
  apply (handle_summary_told (V := demo_vm) demo_run ([] : list string)).
  - apply Forall_cons; split; [|apply Forall_singleton]; by apply demo_row_ok.
  - intros name. unfold named, demo_run, demo_row, sumf. simpl. rewrite !lookup_singleton. by case_decide.
  - by vm_compute.
Defined.

Example demo_hook :
  run_handle_summary (V := demo_vm) demo_run ([] : list string) =
  (Ok (Some (mkOutputs (Some "done") None [("out/a.json", "{}")])), ["exec"; "HandleSummary"])%string.
Proof. vm_compute. reflexivity. Qed.
