(* ===== verification/RunCommand.v ===== *)
(** * The command [wrkr run] (wrkr/src/run.rs, run_support.rs, run_error.rs,
    runtime/, export_scenario.rs, main.rs, cli.rs)

    One execution of the program: the environment and the options put together,
    the hooks, the run and the reports in their order, and the exit code.  What
    is visible from outside is a list of actions. *)
From Stdlib Require Import Ascii.
From S2P Require Import Prelude Coll Std F64 Config Options Text Key Tags Metrics Registry Agg Requests Checks.
From S2P Require Import Thresholds ThresholdsEval Summary Exit Report Value Coerce Durations Serde YamlText ScenarioYaml Paths.
From S2P Require Import Lua LuaOptions HttpModule GrpcModule Loader Lifecycle.

Local Open Scope Z_scope.

(** cli.rs: the arguments, as clap has parsed them. *)
Inductive OutputFormat := HumanReadable | Json.

Record RunArgs := mkRunArgs {
  ra_script : string;
  ra_scenario : option string;
  ra_cfg : RunConfig;
  ra_env : list string;
  ra_output : OutputFormat }.

Record ExportScenarioArgs := mkExportArgs {
  ea_script : string;
  ea_cfg : RunConfig;
  ea_env : list string;
  ea_out : string }.

(** ** run_support.rs *)
Definition parse_env_override (s : string) : result string (string * string) :=
  match split_once "=" s with
  | None => Err ("invalid --env (expected KEY=VALUE): " ++ s)%string
  | Some (k, v) => if decide (k = ""%string) then Err ("invalid --env (empty KEY): " ++ s)%string else Ok (k, v)
  end.

Fixpoint insert_overrides (overrides : list string) (map : list (string * string)) :
    result string (list (string * string)) :=
  match overrides with
  | [] => Ok map
  | raw :: overrides => '(k, v) ← parse_env_override raw; insert_overrides overrides (btree_insert k v map)
  end.

(** [env] is what [std::env::vars] yields. *)
Definition merged_env (env : list (string * string)) (overrides : list string) : result string (list (string * string)) :=
  insert_overrides overrides (btree_collect env).

(** How an execution ends early; a panic ends the process with Rust's own code. *)
Inductive Failure := Failed (e : RunError) | Panicked.

Definition classify_runtime_error (e : LuaError.t) : Failure :=
  match e with
  | LuaError.InvalidIterations | LuaError.InvalidVus | LuaError.InvalidExecutor | LuaError.InvalidStages
  | LuaError.InvalidDuration | LuaError.InvalidTimeUnit | LuaError.InvalidScenarioTags | LuaError.InvalidThresholds =>
      Failed ErrInvalidInput
  | LuaError.Lua _ | LuaError.MissingDefault | LuaError.MissingExec _ | LuaError.MissingScriptPath _
  | LuaError.InvalidPath _ | LuaError.InvalidMetricName | LuaError.InvalidMetricValue => Failed ErrScriptError
  | LuaError.Core _ => Failed ErrInvalidInput
  | LuaError.Io _ => Failed ErrRuntimeError
  | LuaError.Panic => Panicked
  end.

Definition yaml_error (e : LoadError) : Failure := match e with LPanic => Panicked | _ => Failed ErrInvalidInput end.

(** The closure of the [map_err] on [run_scenarios]. *)
Definition core_error (e : Error) : Failure :=
  match e with EThresholdEval _ _ => Failed ErrInvalidInput | _ => Failed ErrScriptError end.

(** ** The surroundings: the process, the file system, and [run_scenarios],
    which the files up to RunProps.v model *)
Class Host (T : Type) {V : ScriptVM T} := {
  process_env : list (string * string);
  current_dir : result string string;
  read_file : string → result string string;
  write_file : string → string → option string;
  new_context : list (string * string) → string → string → World;
  run_scenarios : list ScenarioConfig → list ThresholdSet → World → result Error RunSummary * World;
  print_summary : OutputFormat → RunSummary → option string }.

Inductive Action :=
  | ASetup
  | AHeader (scenarios : list ScenarioConfig)
  | AScenarios (scenarios : list ScenarioConfig) (thresholds : list ThresholdSet)
  | ATeardown
  | AHandleSummary (summary : RunSummary)
  | AWrite (path content : string)
  | AStdout (s : string)
  | AStderr (s : string)
  | APrintSummary (summary : RunSummary).

Section command.
Context {T : Type} {L : LuaTables T} {V : ScriptVM T} {Hu : Humantime} {Y : YamlText} {M : MapIter} {O : Host T}.

(** Commands: the world goes through, the actions add up, an error ends them. *)
Definition Cmd (A : Type) : Type := World → list Action * result Failure A * World.

#[export] Instance cmd_ret : MRet Cmd := λ A a w, ([], Ok a, w).
#[export] Instance cmd_bind : MBind Cmd := λ A B f m w,
  match m w with
  | (acts, Ok a, w) => let '(acts', r, w) := f a w in (acts ++ acts', r, w)
  | (acts, Err e, w) => (acts, Err e, w)
  end.

Definition act (a : Action) : Cmd unit := λ w, ([a], Ok tt, w).
Definition lift {E A} (on_err : E → Failure) (r : result E A) : Cmd A := λ w, ([], map_err on_err r, w).
Definition script {E A} (on_err : E → Failure) (f : World → result E A * World) : Cmd A :=
  λ w, let '(r, w) := f w in ([], map_err on_err r, w).

Definition invalid_input {E} (_ : E) : Failure := Failed ErrInvalidInput.
Definition runtime_error {E} (_ : E) : Failure := Failed ErrRuntimeError.

(** runtime/factory.rs, [create_runtime]: the script's text. *)
Definition create_runtime (path : string) : result string string :=
  let ext := default ""%string (extension path) in
  script ← read_file path;
  if decide (ext = "lua"%string) then Ok script
  else Err ("unsupported script extension `" ++ ext ++ "`: " ++ path)%string.

(** [parse_script_options]: the script runs, then its options are read. *)
Definition script_options (w : World) : result LuaError.t ScriptOptions * World :=
  let '(globals, w) := vm_exec w in
  (match globals with Ok globals => LuaOptions.parse_script_options globals | Err e => Err e end, w).

Definition resolve (opts : ScriptOptions) (cfg : RunConfig) : Cmd (list ScenarioConfig) :=
  lift invalid_input (scenarios_from_options opts cfg).

(** [scenarios.retain(..)] and the test that something is left. *)
Definition retain_named (name : string) (scenarios : list ScenarioConfig) : Cmd (list ScenarioConfig) :=
  let scenarios := filter (λ s, mc_scenario (sc_metrics_ctx s) = name) scenarios in
  if is_empty scenarios then lift invalid_input (Err ("unknown scenario: " ++ name)%string) else mret scenarios.

Definition load_yaml (path : string) : Cmd ScriptOptions :=
  text ← lift invalid_input (read_file path);
  lift yaml_error (load_script_options path text).

Definition load_scenarios (scenario : option string) (cfg : RunConfig) : Cmd (ScriptOptions * list ScenarioConfig) :=
  match scenario with
  | None =>
      opts ← script classify_runtime_error script_options;
      scenarios ← resolve opts cfg;
      mret (opts, scenarios)
  | Some sel =>
      if looks_like_yaml_path sel then
        opts ← load_yaml sel;
        scenarios ← resolve opts cfg;
        mret (opts, scenarios)
      else
        opts ← script classify_runtime_error script_options;
        scenarios ← resolve opts cfg;
        scenarios ← retain_named sel scenarios;
        mret (opts, scenarios)
  end.

Definition act_opt (a : string → Action) (o : option string) : Cmd unit :=
  match o with Some s => act (a s) | None => mret tt end.

(** The files and texts of [HandleSummary]. *)
Definition write_files (cwd : string) (files : list (string * string)) : Cmd unit := λ w,
  let '(written, r) := write_output_files write_file cwd files in
  ((λ p, AWrite p.1 p.2) <$> written, map_err runtime_error r, w).

Definition emit_outputs (output : OutputFormat) (outputs : HandleSummaryOutputs) : Cmd unit :=
  cwd ← lift runtime_error current_dir;
  _ ← write_files cwd (ou_files outputs);
  match output with
  | HumanReadable => _ ← act_opt AStdout (ou_stdout outputs); act_opt AStderr (ou_stderr outputs)
  | Json => mret tt
  end.

Definition run_body (args : RunArgs) : Cmd ExitCode :=
  '(opts, scenarios) ← load_scenarios (ra_scenario args) (ra_cfg args);
  let thresholds := op_thresholds opts in
  _ ← act ASetup;
  _ ← script classify_runtime_error run_setup;
  _ ← act (AHeader scenarios);
  _ ← act (AScenarios scenarios thresholds);
  summary ← script core_error (run_scenarios scenarios thresholds);
  _ ← act ATeardown;
  _ ← script classify_runtime_error run_teardown;
  _ ← act (AHandleSummary summary);
  outputs ← script classify_runtime_error (run_handle_summary summary);
  _ ← match outputs with Some outputs => emit_outputs (ra_output args) outputs | None => mret tt end;
  _ ← act (APrintSummary summary);
  _ ← lift runtime_error (match print_summary (ra_output args) summary with Some msg => Err msg | None => Ok tt end);
  mret (summary_exit summary).

(** The context a script starts with. *)
Definition start_context (path : string) (overrides : list string) : result Failure World :=
  env ← map_err invalid_input (merged_env process_env overrides);
  script ← map_err invalid_input (create_runtime path);
  Ok (new_context env script path).

(** [run]. *)
Definition run (args : RunArgs) : list Action * result Failure ExitCode :=
  match start_context (ra_script args) (ra_env args) with
  | Err e => ([], Err e)
  | Ok w => (run_body args w).1
  end.

(** [export_scenario]: nothing of the script but its top level runs. *)
Definition export_body (args : ExportScenarioArgs) : Cmd ExitCode :=
  opts ← script classify_runtime_error script_options;
  scenarios ← resolve opts (ea_cfg args);
  let text := export_text scenarios (op_thresholds opts) in
  match write_file (ea_out args) text with
  | Some msg => lift runtime_error (Err msg)
  | None => _ ← act (AWrite (ea_out args) text); mret Success
  end.

Definition export_scenario (args : ExportScenarioArgs) : list Action * result Failure ExitCode :=
  match start_context (ea_script args) (ea_env args) with
  | Err e => ([], Err e)
  | Ok w => (export_body args w).1
  end.
End command.

(** main.rs: the process's exit code; 101 is Rust's for a panic. *)
Definition process_exit (r : result Failure ExitCode) : Z :=
  match r with
  | Ok code => as_i32 code
  | Err (Failed e) => as_i32 (exit_code e)
  | Err Panicked => 101
  end.
