(* ===== verification/RunCommandProps.v ===== *)
(** * What one execution of [wrkr run] does (RunCommand.v) *)
From Stdlib Require Import Ascii.
From S2P Require Import Prelude Coll Std F64 Config Options Text Key Tags Metrics Registry Agg Requests Checks.
From S2P Require Import Thresholds ThresholdsEval Summary Exit Report Value Coerce Durations Serde YamlText ScenarioYaml Paths.
From S2P Require Import Lua LuaOptions HttpModule GrpcModule Loader Lifecycle LifecycleProps RunCommand.

Local Open Scope Z_scope.

(** ** The environment *)

(** The last value of a key. *)
Definition last_value {A} (k : string) (l : list (string * A)) : option A := snd <$> last (filter (λ p, p.1 = k) l).

Lemma last_value_snoc {A} k k' (v : A) l :
  last_value k (l ++ [(k', v)]) = if decide (k' = k) then Some v else last_value k l.
Proof.
  unfold last_value. rewrite filter_app, filter_cons, filter_nil. simpl. case_decide; [by rewrite last_snoc|by rewrite app_nil_r].
Qed.

Lemma btree_insert_elem {A} k0 (v0 : A) m k v :
  btree_ok m → (k, v) ∈ btree_insert k0 v0 m ↔ (k = k0 ∧ v = v0) ∨ (k ≠ k0 ∧ (k, v) ∈ m).
Proof.
  unfold btree_ok. induction m as [|[k1 v1] m IH]; intros [Hs Hnd]; simpl.
  { rewrite list_elem_of_singleton, elem_of_nil. naive_solver. }
  csimpl in Hnd. apply NoDup_cons in Hnd as [Hk1 Hnd]. apply StronglySorted_inv in Hs as [Hs Hlt].
  assert (∀ v', (k1, v') ∉ m) as Hno by (intros v' Hin; apply Hk1; by apply (list_elem_of_fmap_2 fst _ (k1, v'))).
  case_decide as E; [subst; rewrite !elem_of_cons; naive_solver|]. case_decide as Hle.
  - assert (∀ v', (k0, v') ∉ m) as Hn0.
    { intros v' Hin. rewrite Forall_forall in Hlt. specialize (Hlt _ Hin). unfold key_le in Hlt. simpl in Hlt.
      apply E. by apply (anti_symm str_le). }
    rewrite !elem_of_cons. split; [|naive_solver]. intros [[= -> ->]|Hin]; [by left|right]. split; [|done].
    intros ->. destruct Hin as [[= -> ->]|Hin]; [done|by apply Hn0 in Hin].
  - rewrite !elem_of_cons, IH by done. naive_solver.
Qed.

Lemma btree_fold_values {A} (l : list (string * A)) k v :
  (k, v) ∈ btree_collect l ↔ last_value k l = Some v.
Proof.
  unfold btree_collect. revert k v. induction l as [|[k0 v0] l IH] using rev_ind; intros k v.
  { split; [by intros ?%elem_of_nil|done]. }
  rewrite foldl_snoc, btree_insert_elem by apply btree_collect_ok. rewrite IH, last_value_snoc. case_decide; naive_solver.
Qed.

Lemma insert_overrides_spec ovs m :
  match insert_overrides ovs m with
  | Ok m' => ∃ given, Forall2 (λ raw p, parse_env_override raw = Ok p) ovs given ∧
      m' = foldl (λ m p, btree_insert p.1 p.2 m) m given
  | Err e => ∃ raw, raw ∈ ovs ∧ parse_env_override raw = Err e
  end.
Proof.
  revert m. induction ovs as [|raw ovs IH]; intros m; [by exists []|]. cbn [insert_overrides].
  destruct (parse_env_override raw) as [[k v]|e] eqn:Hp; cbn [mbind result_bind]; [|by exists raw; split; [left|]].
  specialize (IH (btree_insert k v m)). destruct (insert_overrides ovs (btree_insert k v m)) as [m'|e].
  - destruct IH as (given & Hg & ->). exists ((k, v) :: given). by split; [constructor|].
  - destruct IH as (raw' & Hin & He). exists raw'. by split; [right|].
Qed.

Lemma split_once_eq c s a b : split_once c s = Some (a, b) ↔ s = (a ++ String c b)%string ∧ has_char c a = false.
Proof.
  revert a b. induction s as [|x s IH]; intros a b; simpl.
  { split; [done|]. by destruct a; intros [? _]. }
  case_decide as E.
  - subst. split; [by intros [= <- <-]|]. intros [H Ha]. destruct a as [|y a]; simpl in *; [by injection H as <-|].
    injection H as <- _. by rewrite decide_True in Ha.
  - split.
    + destruct (split_once c s) as [[a' b']|]; [|done]. intros [= <- <-].
      destruct (proj1 (IH a' b') eq_refl) as [-> Ha]. simpl. by rewrite decide_False.
    + intros [H Ha]. destruct a as [|y a]; simpl in *; [by injection H as ->|]. injection H as -> ->.
      case_decide; [done|]. by rewrite (proj2 (IH a b) (conj eq_refl Ha)).
Qed.

Lemma parse_env_override_spec s k v :
  parse_env_override s = Ok (k, v) ↔ s = (k ++ "=" ++ v)%string ∧ k ≠ ""%string ∧ has_char "=" k = false.
Proof.
  unfold parse_env_override. destruct (split_once "=" s) as [[a b]|] eqn:E.
  - apply split_once_eq in E as [-> Ha]. case_decide as Hk.
    + subst. split; [done|]. intros (H & Hne & Hc). destruct k as [|c k]; [done|]. simpl in H. injection H as <- _.
      done.
    + split; [intros [= -> ->]; by split_and!|]. intros (H & _ & Hc).
      assert (Some (a, b) = Some (k, v)) as [= -> ->]; [|done].
      rewrite <- (proj2 (split_once_eq "=" _ a b) (conj eq_refl Ha)). by apply split_once_eq.
  - split; [done|]. intros (H & _ & Hc). assert (split_once "=" s = Some (k, v)) as Hx by by apply split_once_eq.
    by rewrite Hx in E.
Qed.

(** The environment a script sees has one value per name: the last one given
    with [--env NAME=VALUE] if there is one, else the process's; an argument
    without [=] or with an empty name is refused and nothing runs. *)
Theorem env_overrides_win env overrides :
  match merged_env env overrides with
  | Ok m => ∃ given, Forall2 (λ raw p, raw = (p.1 ++ "=" ++ p.2)%string ∧ p.1 ≠ ""%string ∧ has_char "=" p.1 = false)
                       overrides given ∧
      btree_ok m ∧
      ∀ k v, (k, v) ∈ m ↔
        match last_value k given with Some w => v = w | None => last_value k env = Some v end
  | Err _ => ∃ raw, raw ∈ overrides ∧ ∀ k v, raw = (k ++ "=" ++ v)%string → has_char "=" k = false → k = ""%string
  end.
Proof.
  unfold merged_env. pose proof (insert_overrides_spec overrides (btree_collect env)) as Hi.
  destruct (insert_overrides overrides (btree_collect env)) as [m|e].
  - destruct Hi as (given & Hg & ->). exists given. split_and!.
    + eapply Forall2_impl; [exact Hg|]. intros raw [k v] H. by apply parse_env_override_spec.
    + apply btree_collect_from_ok, btree_collect_ok.
    + intros k v. assert (foldl (λ m p, btree_insert p.1 p.2 m) (btree_collect env) given = btree_collect (env ++ given)) as ->
        by (unfold btree_collect; by rewrite foldl_app).
      rewrite btree_fold_values. unfold last_value. rewrite filter_app.
      set (f := filter _ given). clearbody f. destruct f as [|x f _] using rev_ind; [by rewrite app_nil_r|].
      rewrite app_assoc, !last_snoc. simpl. naive_solver.
  - destruct Hi as (raw & Hin & He). exists raw. split; [done|]. intros k v Hr Hc.
    destruct (decide (k = ""%string)) as [|Hk]; [done|].
    by rewrite (proj2 (parse_env_override_spec raw k v) (conj Hr (conj Hk Hc))) in He.
Qed.

(** ** The stages *)
Section stages.
Context {T : Type} {L : LuaTables T} {V : ScriptVM T} {Hu : Humantime} {Y : YamlText} {M : MapIter} {O : Host T}.

(** Where the options come from: the YAML file named, or else the script. *)
Definition options_from (args : RunArgs) (opts : ScriptOptions) : Prop :=
  match ra_scenario args with
  | Some sel => if looks_like_yaml_path sel
                then ∃ text, read_file sel = Ok text ∧ load_script_options sel text = Ok opts
                else ∃ w, start_context (ra_script args) (ra_env args) = Ok w ∧ (script_options w).1 = Ok opts
  | None => ∃ w, start_context (ra_script args) (ra_env args) = Ok w ∧ (script_options w).1 = Ok opts
  end.

(** The scenarios chosen: all, or those with the name given. *)
Definition chosen (args : RunArgs) (all scs : list ScenarioConfig) : Prop :=
  match ra_scenario args with
  | Some sel => if looks_like_yaml_path sel then scs = all
                else scs = filter (λ s, mc_scenario (sc_metrics_ctx s) = sel) all ∧ scs ≠ []
  | None => scs = all
  end.

(** Loading shows nothing, and what it yields comes from the options. *)
Lemma load_scenarios_spec args w :
  start_context (ra_script args) (ra_env args) = Ok w →
  ∃ r w', load_scenarios (ra_scenario args) (ra_cfg args) w = ([], r, w') ∧
    match r with
    | Ok (opts, scs) => options_from args opts ∧
        ∃ all, scenarios_from_options opts (ra_cfg args) = Ok all ∧ chosen args all scs
    | Err _ => True
    end.
Proof.
  intros Hstart. unfold load_scenarios, options_from, chosen. destruct (ra_scenario args) as [sel|].
  - unfold load_yaml, retain_named, mbind, cmd_bind, script, resolve, lift, mret, cmd_ret.
    destruct (looks_like_yaml_path sel).
    + destruct (read_file sel) as [text|e] eqn:Hr; simpl; [|by eexists _, _].
      destruct (load_script_options sel text) as [opts|e] eqn:Hl; simpl; [|by eexists _, _].
      destruct (scenarios_from_options opts (ra_cfg args)) as [all|e] eqn:Hall; simpl; [|by eexists _, _].
      eexists _, _. split; [done|]. split; [by exists text|]. by exists all.
    + destruct (script_options w) as [[opts|e] w1] eqn:Ho; simpl; [|by eexists _, _].
      destruct (scenarios_from_options opts (ra_cfg args)) as [all|e] eqn:Hall; simpl; [|by eexists _, _].
      destruct (is_empty _) eqn:He; simpl; [by eexists _, _|].
      eexists _, _. split; [done|]. split; [exists w; by rewrite Ho|]. exists all. split; [done|]. split; [done|].
      intros E. by rewrite E in He.
  - unfold mbind, cmd_bind, script, resolve, lift, mret, cmd_ret.
    destruct (script_options w) as [[opts|e] w1] eqn:Ho; simpl; [|by eexists _, _].
    destruct (scenarios_from_options opts (ra_cfg args)) as [all|e] eqn:Hall; simpl; [|by eexists _, _].
    eexists _, _. split; [done|]. split; [exists w; by rewrite Ho|]. by exists all.
Qed.

(** The actions of a complete run; [tail] are the files and texts of the hook. *)
Definition planned (scs : list ScenarioConfig) (ths : list ThresholdSet) (summary : RunSummary) (tail : list Action) :
    list Action :=
  [ASetup; AHeader scs; AScenarios scs ths; ATeardown; AHandleSummary summary] ++ tail ++ [APrintSummary summary].

(** What the hook's outputs may show: files the sanitiser lets through, under
    the working directory, and texts only in the human-readable format. *)
Definition hook_shows (output : OutputFormat) (outputs : option HandleSummaryOutputs) (tail : list Action) : Prop :=
  match outputs with
  | None => tail = []
  | Some o => ∃ cwd, current_dir = Ok cwd ∧
      tail = ((λ p, AWrite p.1 p.2) <$> (write_output_files write_file cwd (ou_files o)).1) ++
        match output with
        | HumanReadable => option_list (AStdout <$> ou_stdout o) ++ option_list (AStderr <$> ou_stderr o)
        | Json => []
        end
  end.

(** Which failure an action can be the last one before. *)
Definition blamed (a : Action) (f : Failure) : Prop :=
  match a with
  | ASetup | ATeardown => ∃ e, f = classify_runtime_error e
  | AScenarios _ _ => f = Failed ErrInvalidInput ∨ f = Failed ErrScriptError
  | AHandleSummary _ => f = Failed ErrRuntimeError ∨ ∃ e, f = classify_runtime_error e
  | AWrite _ _ | APrintSummary _ => f = Failed ErrRuntimeError
  | AHeader _ | AStdout _ | AStderr _ => False
  end.

Lemma emit_outputs_spec output o w :
  ∃ acts r, emit_outputs output o w = (acts, r, w) ∧
    match r with
    | Ok _ => hook_shows output (Some o) acts
    | Err f => f = Failed ErrRuntimeError ∧ Forall (λ a, ∃ p c, a = AWrite p c) acts
    end.
Proof.
  unfold emit_outputs, write_files, mbind, cmd_bind, lift, hook_shows. destruct current_dir as [cwd|e]; simpl; [|by eexists _, _].
  destruct (write_output_files write_file cwd (ou_files o)) as [written [[]|e]] eqn:Hw; simpl.
  - destruct output.
    + unfold act_opt, act, mret, cmd_ret. destruct (ou_stdout o), (ou_stderr o); simpl; eexists _, _; (split; [done|]); exists cwd; rewrite Hw; done.
    + unfold mret, cmd_ret. eexists _, _. split; [done|]. exists cwd. by rewrite Hw.
  - eexists _, _. split; [done|]. split; [done|]. apply Forall_forall. intros a ([p c] & -> & _)%list_elem_of_fmap. eauto.
Qed.

(** What a run that got past its options went through. *)
Definition went_through (args : RunArgs) (acts : list Action) (r : result Failure ExitCode) : Prop :=
  ∃ opts all scs summary outputs tail,
    options_from args opts ∧ scenarios_from_options opts (ra_cfg args) = Ok all ∧ chosen args all scs ∧
    acts `prefix_of` planned scs (op_thresholds opts) summary tail ∧
    (ATeardown ∈ acts → ∃ w w', run_scenarios scs (op_thresholds opts) w = (Ok summary, w')) ∧
    (APrintSummary summary ∈ acts →
      ∃ w w', run_handle_summary summary w = (Ok outputs, w') ∧ hook_shows (ra_output args) outputs tail) ∧
    match r with
    | Ok code => acts = planned scs (op_thresholds opts) summary tail ∧ code = summary_exit summary
    | Err f => ∃ a, last acts = Some a ∧ blamed a f
    end.

(** The part after the run of the scenarios. *)
Definition after_run (args : RunArgs) (summary : RunSummary) : Cmd ExitCode :=
  _ ← act ATeardown;
  _ ← script classify_runtime_error run_teardown;
  _ ← act (AHandleSummary summary);
  outputs ← script classify_runtime_error (run_handle_summary summary);
  _ ← match outputs with Some outputs => emit_outputs (ra_output args) outputs | None => mret tt end;
  _ ← act (APrintSummary summary);
  _ ← lift runtime_error (match print_summary (ra_output args) summary with Some msg => Err msg | None => Ok tt end);
  mret (summary_exit summary).

Lemma emit_spec output outputs w :
  ∃ acts r, (match outputs with Some o => emit_outputs output o | None => mret tt end : Cmd unit) w = (acts, r, w) ∧
    match r with
    | Ok _ => hook_shows output outputs acts
    | Err f => f = Failed ErrRuntimeError ∧ Forall (λ a, ∃ p c, a = AWrite p c) acts
    end.
Proof. destruct outputs as [o|]; [apply emit_outputs_spec|]. by exists [], (Ok tt). Qed.

Lemma after_run_spec args summary w :
  ∃ outputs tail acts r w', after_run args summary w = (acts, r, w') ∧
    acts `prefix_of` [ATeardown; AHandleSummary summary] ++ tail ++ [APrintSummary summary] ∧
    (APrintSummary summary ∈ acts →
      ∃ w w', run_handle_summary summary w = (Ok outputs, w') ∧ hook_shows (ra_output args) outputs tail) ∧
    match r with
    | Ok code => acts = [ATeardown; AHandleSummary summary] ++ tail ++ [APrintSummary summary] ∧ code = summary_exit summary
    | Err f => ∃ a, last acts = Some a ∧ blamed a f
    end.
Proof.
  unfold after_run, mbind, cmd_bind, act, script, lift.
  destruct (run_teardown w) as [[[]|e] w2]; cbn [map_err app].
  2:{ eexists None, [], _, _, _. split; [reflexivity|]. split_and!; [by eexists|set_solver|].
      exists ATeardown. split; [done|]. by exists e. }
  destruct (run_handle_summary summary w2) as [[outputs|e] w3] eqn:Hhook; cbn [map_err app].
  2:{ eexists None, [], _, _, _. split; [reflexivity|]. split_and!; [by eexists|set_solver|].
      exists (AHandleSummary summary). split; [done|]. right. by exists e. }
  destruct (emit_spec (ra_output args) outputs w3) as (acts & r & -> & Hr). destruct r as [[]|f]; cbn [app].
  2:{ destruct Hr as [-> Hacts]. eexists outputs, acts, _, _, _. split; [reflexivity|]. split_and!.
      - exists [APrintSummary summary]. done.
      - intros Hin. exfalso. rewrite Forall_forall in Hacts. rewrite !elem_of_cons in Hin.
        destruct Hin as [?|[?|(p & c & ?)%Hacts]]; done.
      - destruct acts as [|a acts _] using rev_ind; [exists (AHandleSummary summary); by split; [|left]|].
        apply Forall_app in Hacts as [_ (p & c & ->)%Forall_singleton]. exists (AWrite p c).
        split; [|done]. by rewrite !app_comm_cons, last_snoc. }
  destruct (print_summary (ra_output args) summary) as [msg|]; cbn [map_err app mret cmd_ret].
  - eexists outputs, acts, _, _, _. split; [reflexivity|]. split_and!.
    + exists []. by rewrite app_nil_r.
    + intros _. eauto.
    + exists (APrintSummary summary). split; [|done]. by rewrite !app_comm_cons, last_snoc.
  - eexists outputs, acts, _, _, _. split; [reflexivity|]. split_and!; [|by eauto|done|done].
    exists []. by rewrite app_nil_r.
Qed.

Lemma run_body_split args :
  run_body args =
  ('(opts, scenarios) ← load_scenarios (ra_scenario args) (ra_cfg args);
   _ ← act ASetup;
   _ ← script classify_runtime_error run_setup;
   _ ← act (AHeader scenarios);
   _ ← act (AScenarios scenarios (op_thresholds opts));
   summary ← script core_error (run_scenarios scenarios (op_thresholds opts));
   after_run args summary).
Proof. reflexivity. Qed.

End stages.

(** ** An execution *)
#[local] Existing Instance demo_vm.
#[local] Existing Instances ns_humantime tree_text.
#[local] Instance demo_host : Host Tree := {|
  process_env := [("HOME", "/root"); ("A", "1")]%string;
  current_dir := Ok "/w"%string;
  read_file p := if decide (p = "s/main.lua"%string) then Ok "-- script"%string else Err "not found"%string;
  write_file _ _ := None;
  new_context env _ _ := fst <$> env;
  run_scenarios _ _ w := (Ok demo_run, w ++ ["run"%string]);
  print_summary _ _ := None |}.

Definition demo_args (sel : option string) (env : list string) : RunArgs :=
  mkRunArgs "s/main.lua" sel (mkRunConfig None (Some 3) None) env HumanReadable.
Definition demo_scenario : ScenarioConfig :=
  mkScenarioConfig "Default" (mkMetricsContext "Default" []) (ConstantVus 3) (Some 1) None.

Example demo_execution :
  run (T := Tree) (demo_args None ["A=2"; "B="]%string) =
  (planned [demo_scenario] [] demo_run [AWrite "/w/out/a.json" "{}"; AStdout "done"], Ok ChecksFailed).
Proof. vm_compute. reflexivity. Qed.

Example demo_unknown : process_exit (run (T := Tree) (demo_args (Some "x"%string) [])).2 = 30.
Proof. vm_compute. reflexivity. Qed.
