(* ===== verification/HumanOut.v ===== *)
(** * Human-readable output (wrkr/src/output/human.rs, human/format.rs,
    human/summary.rs, human/progress.rs)

    The text of the summary as a list of lines, the header, the lines on
    violated thresholds, and the state behind the progress bars.  Drawing the
    bars is the indicatif crate's. *)
From Stdlib Require Import Ascii SpecFloat.
From S2P Require Import Prelude Coll Std F64 Config Text Key Tags Metrics Registry Agg Requests Checks.
From S2P Require Import Thresholds ThresholdsEval Summary Loops Progress Value Coerce Durations Serde YamlText ScenarioYaml.
From S2P Require Import HttpClient HttpModule Lua LuaOptions Lifecycle.

Local Open Scope Z_scope.

(** ** Comparisons ([Ord]) and the stable [sort_by] *)
Definition then_cmp (a b : comparison) : comparison := match a with Eq => b | c => c end.
Definition opt_cmp (a b : option string) : comparison :=
  match a, b with
  | None, None => Eq
  | None, Some _ => Lt
  | Some _, None => Gt
  | Some a, Some b => String.compare a b
  end.
Definition pair_cmp (a b : string * string) : comparison := then_cmp (String.compare a.1 b.1) (String.compare a.2 b.2).
Fixpoint list_cmp {A} (cmp : A → A → comparison) (a b : list A) : comparison :=
  match a, b with
  | [], [] => Eq
  | [], _ :: _ => Lt
  | _ :: _, [] => Gt
  | x :: a, y :: b => then_cmp (cmp x y) (list_cmp cmp a b)
  end.

(** An element goes before those it does not exceed, so equal ones keep their
    order. *)
Fixpoint insert_by {A} (cmp : A → A → comparison) (x : A) (l : list A) : list A :=
  match l with
  | [] => [x]
  | y :: l' => match cmp x y with Gt => y :: insert_by cmp x l' | _ => x :: l end
  end.
Definition sort_by {A} (cmp : A → A → comparison) (l : list A) : list A := foldr (insert_by cmp) [] l.

(** ** [{:.n}] of an [f64]: the decimal with [n] places nearest to its exact
    value, ties to even *)
Definition scaled (digits : nat) (m e : Z) : Z :=
  if 0 <=? e then m * 10 ^ Z.of_nat digits * 2 ^ e else round_half_even (m * 10 ^ Z.of_nat digits) (2 ^ (- e)).
Definition fixed_text (digits : nat) (n : Z) : string :=
  match digits with
  | O => show n
  | _ => show (n / 10 ^ Z.of_nat digits) ++ "." ++ pad_left digits (show (n mod 10 ^ Z.of_nat digits))
  end%string.
Definition show_fixed (digits : nat) (f : f64) : string :=
  match f with
  | S754_nan => "NaN"
  | S754_infinity s => if s then "-inf" else "inf"
  | S754_zero s => (if s then "-" else "") ++ fixed_text digits 0
  | S754_finite s m e => (if s then "-" else "") ++ fixed_text digits (scaled digits (Zpos m) e)
  end%string.

(** ** format.rs *)
Definition KIB : Z := 1024.
Definition MIB : Z := 1024 * 1024.
Definition GIB : Z := 1024 * 1024 * 1024.

Definition format_bytes (b : Z) : string :=
  if GIB <=? b then show_fixed 2 (fdiv (of_Z b) (of_Z GIB)) ++ "GiB"
  else if MIB <=? b then show_fixed 2 (fdiv (of_Z b) (of_Z MIB)) ++ "MiB"
  else if KIB <=? b then show_fixed 2 (fdiv (of_Z b) (of_Z KIB)) ++ "KiB"
  else show b ++ "B".

Definition format_tags_inline (tags : list (string * string)) (exclude : list string) : string :=
  let filtered := sort_by pair_cmp (filter (λ p, p.1 ∉ exclude) tags) in
  if is_empty filtered then ""
  else ("{" ++ join_with " " ((λ p, p.1 ++ "=" ++ p.2) <$> filtered) ++ "}")%string.

Definition format_rate (v : f64) : string := if f_is_finite v then show_fixed 0 v else "0".

Definition format_duration_from_micros (us : f64) : string :=
  if negb (f_is_finite us) then "-"
  else
    let us := fmax us f_zero in
    if flt us (of_Z 1000) then show_fixed 2 us ++ micro_s
    else
      let ms := fdiv us (of_Z 1000) in
      if flt ms (of_Z 1000) then show_fixed 2 ms ++ "ms"
      else
        let s := fdiv ms (of_Z 1000) in
        if flt s (of_Z 60) then show_fixed 2 s ++ "s" else show_fixed 2 (fdiv s (of_Z 60)) ++ "m".

Definition format_duration_from_micros_opt (us : option f64) : string :=
  match us with Some us => format_duration_from_micros us | None => "-" end.

(** Of a [Duration]. *)
Definition format_duration (d : Z) : string :=
  format_duration_from_micros
    (fadd (fmul (of_Z (d / Duration.NANOS_PER_SEC)) (of_Z 1000000)) (of_Z (d mod Duration.NANOS_PER_SEC / 1000))).

Example bytes_1 : format_bytes 2048 = "2.00KiB"%string. Proof. vm_compute. reflexivity. Qed.
Example bytes_2 : format_bytes 1023 = "1023B"%string. Proof. reflexivity. Qed.
Example bytes_3 : format_bytes 1611661312 = "1.50GiB"%string. Proof. vm_compute. reflexivity. Qed.
Example fixed_1 : show_fixed 0 (of_decimal false 25 (-1)) = "2"%string. Proof. vm_compute. reflexivity. Qed.
Example fixed_2 : show_fixed 3 (fdiv (of_Z 2) (of_Z 3)) = "0.667"%string. Proof. vm_compute. reflexivity. Qed.
Example duration_1 : format_duration (90 * Duration.NANOS_PER_SEC) = "1.50m"%string. Proof. vm_compute. reflexivity. Qed.

(** ** summary.rs: the text as its lines *)
Definition text_of_lines (lines : list string) : string := foldr (λ l acc, l ++ String newline acc)%string ""%string lines.

Section render.
Context {M : MapIter}.

Definition histogram_text (h : HistogramSummary) : string :=
  ("p50=" ++ format_duration_from_micros_opt (hs_p50 h) ++ " p90=" ++ format_duration_from_micros_opt (hs_p90 h) ++
   " p99=" ++ format_duration_from_micros_opt (hs_p99 h) ++ " mean=" ++ format_duration_from_micros_opt (hs_mean h) ++
   " max=" ++ format_duration_from_micros_opt (hs_max h) ++ " (n=" ++ show (hs_count h) ++ ")")%string.

(** The greatest counts first, then by name. *)
Definition failed_cmp (a b : string * Z) : comparison := then_cmp (Z.compare b.2 a.2) (String.compare a.1 b.1).

Definition scenario_lines (s : ScenarioSummary) : list string :=
  (["scenario: " ++ su_scenario s;
    "  requests: " ++ show (su_requests_total s) ++ " (failed " ++ show (su_failed_requests_total s) ++ ")";
    "  iterations: " ++ show (su_iterations_total s);
    "  bytes: recv " ++ format_bytes (su_bytes_received_total s) ++ " sent " ++ format_bytes (su_bytes_sent_total s)]%string ++
   (if 0 <? su_checks_failed_total s then
      ("  checks_failed_total: " ++ show (su_checks_failed_total s))%string ::
      ((λ p, "    " ++ p.1 ++ ": " ++ show p.2)%string <$> sort_by failed_cmp (map_iter (su_checks_failed s)))
    else []) ++
   [match su_latency s with Some h => "  latency = " ++ histogram_text h | None => "  latency: n/a" end; ""]%string)%list.

(** [Totals], over all scenarios. *)
Definition human_totals (ss : list ScenarioSummary) : SummaryTotals :=
  foldl add_scenario_totals (mkTotals 0 0 0 0 0 0) ss.

Definition totals_lines (t : SummaryTotals) (run_elapsed : option Z) : list string :=
  (["totals";
    "  requests: " ++ show (to_requests t) ++ " (failed " ++ show (to_failed_requests t) ++ ")";
    "  iterations: " ++ show (to_iterations t);
    "  bytes: recv " ++ format_bytes (to_bytes_received t) ++ " sent " ++ format_bytes (to_bytes_sent t)]%string ++
   match run_elapsed with
   | Some elapsed =>
       let secs := fmax (as_secs_f64 elapsed) (of_decimal false 1 (-9)) in
       let rps := fdiv (of_Z (to_requests t)) secs in
       let tps := fdiv (of_Z (u64_sat_add (to_bytes_received t) (to_bytes_sent t))) secs in
       ["  rates: rps=" ++ format_rate rps ++ " tps=" ++ format_bytes (F64.to_u64 (round tps)) ++ "/s"]%string
   | None => []
   end ++
   ["  checks_failed_total: " ++ show (to_checks_failed t)]%string)%list.

(** *** Checks *)

(** Scenario, group, name and the tags but for scenario, name and status. *)
Definition CheckKey : Type := string * option string * string * list (string * string).

(** The last value of a tag: the loop over the tags overwrites. *)
Definition tag_value (key : string) (tags : list (string * string)) : option string :=
  foldl (λ acc p, if decide (p.1 = key) then Some p.2 else acc) None tags.

Definition check_key (tags : list (string * string)) : option (CheckKey * string) :=
  scenario ← tag_value "scenario" tags;
  name ← tag_value "name" tags;
  let status := default "unknown"%string (tag_value "status" tags) in
  Some ((scenario, tag_value "group" tags, name, filter (λ p, p.1 ∉ ["scenario"; "name"; "status"]%string) tags), status).

(** Pass and fail. *)
Definition count_check (status : string) (count : Z) (c : Z * Z) : Z * Z :=
  if decide (status = "pass"%string) then (u64_sat_add c.1 count, c.2)
  else if decide (status = "fail"%string) then (c.1, u64_sat_add c.2 count)
  else c.

Definition collect_check (by_key : gmap CheckKey (Z * Z)) (s : MetricSeriesSummary) : gmap CheckKey (Z * Z) :=
  if decide (ms_name s = "checks"%string) then
    match ms_values s with
    | MetricValue.Counter count =>
        match check_key (ms_tags s) with
        | Some (key, status) => <[key := count_check status count (default (0, 0) (by_key !! key))]> by_key
        | None => by_key
        end
    | _ => by_key
    end
  else by_key.

Definition check_cmp (a b : CheckKey * (Z * Z)) : comparison :=
  let '((sa, ga, na, ta), _) := a in
  let '((sb, gb, nb, tb), _) := b in
  then_cmp (String.compare sa sb) (then_cmp (opt_cmp ga gb) (then_cmp (String.compare na nb) (list_cmp pair_cmp ta tb))).

Definition check_rows (series : list MetricSeriesSummary) : list (CheckKey * (Z * Z)) :=
  sort_by check_cmp (map_iter (foldl collect_check ∅ series)).

Definition check_line (row : CheckKey * (Z * Z)) : string :=
  let '((_, _, name, tags), (pass, fail)) := row in
  ("    " ++ name ++ format_tags_inline tags [] ++ ": pass=" ++ show pass ++ " fail=" ++ show fail ++
   " [" ++ (if (0 <? fail)%Z then "FAIL" else "OK") ++ "]")%string.

Definition group_line (group : option string) : string :=
  match group with Some g => "  group: " ++ g | None => "  group: -" end.

(** The rows under headings that change with the scenario and the group. *)
Fixpoint check_lines (rows : list (CheckKey * (Z * Z))) (current_scenario : option string)
    (current_group : option (option string)) : list string :=
  match rows with
  | [] => []
  | ((scenario, group, name, tags), c) as row :: rows =>
      let same := bool_decide (current_scenario = Some scenario) in
      let current_group := if same then current_group else None in
      (if same then [] else ["scenario: " ++ scenario]%string) ++
      (if decide (current_group = Some group) then [] else [group_line group]) ++
      check_line row :: check_lines rows (Some scenario) (Some group)
  end%list.

Definition render_checks (series : list MetricSeriesSummary) : list string :=
  let rows := check_rows series in
  if is_empty rows then [] else ""%string :: "checks"%string :: check_lines rows None None.
End render.

(** *** Metrics *)
Definition SectionKey : Type := string * option string.
Definition section_cmp (a b : SectionKey) : comparison := then_cmp (String.compare a.1 b.1) (opt_cmp a.2 b.2).

Definition section_key (tags : list (string * string)) : SectionKey :=
  (default "global"%string (tag_value "scenario" tags), tag_value "group" tags).

(** [BTreeMap::entry(key).or_default().push(s)]. *)
Fixpoint push_section (key : SectionKey) (s : MetricSeriesSummary) (m : list (SectionKey * list MetricSeriesSummary)) :
    list (SectionKey * list MetricSeriesSummary) :=
  match m with
  | [] => [(key, [s])]
  | (k, rows) :: m' =>
      match section_cmp key k with
      | Eq => (k, rows ++ [s]) :: m'
      | Lt => (key, [s]) :: m
      | Gt => (k, rows) :: push_section key s m'
      end
  end.

Definition add_metric (m : list (SectionKey * list MetricSeriesSummary)) (s : MetricSeriesSummary) :
    list (SectionKey * list MetricSeriesSummary) :=
  if decide (ms_name s = "checks"%string) then m else push_section (section_key (ms_tags s)) s m.

Definition sections (series : list MetricSeriesSummary) : list (SectionKey * list MetricSeriesSummary) :=
  foldl add_metric [] series.

Definition metric_cmp (a b : MetricSeriesSummary) : comparison :=
  then_cmp (String.compare (ms_name a) (ms_name b)) (list_cmp pair_cmp (ms_tags a) (ms_tags b)).

Definition inline_tags (s : MetricSeriesSummary) : string := format_tags_inline (ms_tags s) ["scenario"; "group"]%string.

(** The gauges called [name], by their tags. *)
Definition gauges_named (name : string) (rows : list MetricSeriesSummary) : gmap string Z :=
  foldl (λ m s, match ms_values s with
                | MetricValue.Gauge v => if decide (ms_name s = name) then <[inline_tags s := v]> m else m
                | _ => m
                end) ∅ rows.

Definition metric_line (s : MetricSeriesSummary) : string :=
  ("    " ++ ms_name s ++ inline_tags s ++ " = " ++
   match ms_values s with
   | MetricValue.Counter v => show v
   | MetricValue.Gauge v => show_Z v
   | MetricValue.Rate total hits rate =>
       "hits=" ++ show hits ++ " total=" ++ show total ++
       match rate with Some rate => " rate=" ++ show_fixed 3 rate | None => "" end
   | MetricValue.Histogram h => histogram_text h
   end)%string.

(** [vu_active] is shown with its peak, and the peak not again. *)
Definition metric_row (ends peaks : gmap string Z) (s : MetricSeriesSummary) : list string :=
  let tags_s := inline_tags s in
  if decide (ms_name s = "vu_active_max"%string ∧ is_Some (ends !! tags_s)) then []
  else
    match ms_values s, peaks !! tags_s with
    | MetricValue.Gauge v, Some peak =>
        if decide (ms_name s = "vu_active"%string)
        then [("    " ++ ms_name s ++ tags_s ++ " = end=" ++ show_Z v ++ " peak=" ++ show_Z peak)%string]
        else [metric_line s]
    | _, _ => [metric_line s]
    end.

Definition section_lines (sec : SectionKey * list MetricSeriesSummary) : list string :=
  let '((scenario, group), rows) := sec in
  let rows := sort_by metric_cmp rows in
  let vu_active_end := gauges_named "vu_active" rows in
  let vu_active_peak := gauges_named "vu_active_max" rows in
  (["scenario: " ++ scenario; group_line group]%string ++
   (rows ≫= metric_row vu_active_end vu_active_peak) ++ [""%string])%list.

Definition render_metrics (series : list MetricSeriesSummary) : list string :=
  let secs := sections series in
  if is_empty secs then [] else ""%string :: "metrics"%string :: (secs ≫= section_lines).

(** *** [render] *)
Definition render_series `{MapIter} (metrics : list MetricSeriesSummary) : list string :=
  if is_empty metrics then [] else render_checks metrics ++ render_metrics metrics.

Definition render `{MapIter} (summary : RunSummary) (run_elapsed : option Z) : list string :=
  if is_empty (ru_scenarios summary) then "summary: no scenarios"%string :: render_series (ru_metrics summary)
  else
    (["summary"%string] ++ (ru_scenarios summary ≫= scenario_lines) ++
     totals_lines (human_totals (ru_scenarios summary)) run_elapsed ++ render_series (ru_metrics summary))%list.

(** ** human.rs *)

(** [{:?}] of the options in the header. *)
Definition debug_opt {A} (text : A → string) (o : option A) : string :=
  match o with Some a => "Some(" ++ text a ++ ")" | None => "None" end.

Definition human_header (script_path : string) (scenarios : list ScenarioConfig) : list string :=
  (("script: " ++ script_path)%string ::
   ((λ s, "scenario: " ++ mc_scenario (sc_metrics_ctx s) ++ " exec=" ++ sc_exec s ++
          " iterations=" ++ debug_opt show (sc_iterations s) ++
          " duration=" ++ debug_opt debug_duration (sc_duration s))%string <$> scenarios) ++
   (if is_empty scenarios then [] else [""%string]))%list.

(** The lines on standard error. *)
Definition violation_line (v : ThresholdViolation) : string :=
  let key := if is_empty (tv_tags v) then tv_metric v
             else (tv_metric v ++ "{" ++ join_with "," ((λ p, p.1 ++ "=" ++ p.2) <$> tv_tags v) ++ "}")%string in
  ("  " ++ key ++ ": " ++ tv_expression v ++
   match tv_observed v with Some obs => " (observed " ++ show_f64 obs ++ ")" | None => " (missing series)" end)%string.
Definition violation_lines (vs : list ThresholdViolation) : list string :=
  if is_empty vs then [] else "thresholds failed:"%string :: (violation_line <$> vs).

(** *** Progress *)
Inductive ProgressBarKind := Spinner | Bar.
#[export] Instance ProgressBarKind_eq_dec : EqDecision ProgressBarKind.
Proof. solve_decision. Defined.

(** What a bar shows; a spinner has no length. *)
Record ProgressBar := mkBar { pb_kind : ProgressBarKind; pb_message : string; pb_length : Z; pb_position : Z }.

Record HumanState := mkHuman {
  hu_max_elapsed_ms : Z;
  hu_prev_iters : gmap string Z;
  hu_prev_errors : gmap string Z;
  hu_bars : gmap string ProgressBar }.

(** [Inner::get_or_create_bar]. *)
Definition get_or_create_bar (scenario : string) (total_duration : option Z) (bars : gmap string ProgressBar) : ProgressBar :=
  let desired_kind := match total_duration with Some _ => Bar | None => Spinner end in
  match bars !! scenario with
  | Some b => if decide (pb_kind b = desired_kind) then b else mkBar desired_kind "" 0 0
  | None => mkBar desired_kind "" 0 0
  end.

(** [HumanProgress::update]. *)
Definition update_bar (scenario : string) (total_duration : option Z) (elapsed : Z) (message : string)
    (bars : gmap string ProgressBar) : gmap string ProgressBar :=
  let pb := get_or_create_bar scenario total_duration bars in
  let pb := match total_duration with
            | Some total =>
                let total_ms := as_u64 (total / 10 ^ 6) in
                let elapsed_ms := as_u64 (elapsed / 10 ^ 6) in
                mkBar (pb_kind pb) message total_ms (Z.min elapsed_ms total_ms)
            | None => mkBar (pb_kind pb) message (pb_length pb) (pb_position pb)
            end in
  <[scenario := pb]> bars.

(** The totals at the previous update, replaced by the new ones. *)
Definition errors_total (m : LiveMetrics) : Z := u64_sat_add (lm_failed_requests_total m) (lm_checks_failed_total m).

Definition rates_text (u : ProgressUpdate) (prev_iters prev_errors : option Z) : string :=
  let m := u_metrics u in
  let dt := fmax (as_secs_f64 (u_interval u)) (of_decimal false 1 (-9)) in
  let iters_per_sec := fdiv (of_Z (u64_sat_sub (lm_iterations_total m) (default 0 prev_iters))) dt in
  let errors_delta := u64_sat_sub (errors_total m) (default 0 prev_errors) in
  let throughput := u64_sat_add (lm_bytes_received_per_sec_now m) (lm_bytes_sent_per_sec_now m) in
  (" iters/s=" ++ format_rate iters_per_sec ++ " rps=" ++ format_rate (lm_rps_now m) ++
   " tps=" ++ format_bytes throughput ++ "/s errors=" ++ show errors_delta ++ "/" ++ show (errors_total m))%string.

Definition show_nat (n : nat) : string := show (Z.of_nat n).

(** The duration of the bar and its message. *)
Definition bar_text (u : ProgressUpdate) (rates : string) : option Z * string :=
  let elapsed := format_duration (u_elapsed u) in
  match u_progress u with
  | PConstantVus vus duration => (duration, "vus=" ++ show vus ++ " elapsed=" ++ elapsed ++ rates)
  | PRampingVus total stage =>
      (Some total,
       match stage with
       | Some st => "stage=" ++ show_nat (sg_stage st) ++ "/" ++ show_nat (sg_stages st) ++
                    " target=" ++ show (sg_current_target st) ++ " elapsed=" ++ elapsed ++
                    " stage_remaining=" ++ format_duration (sg_stage_remaining st) ++ rates
       | None => "elapsed=" ++ elapsed ++ rates
       end)
  | PRampingArrivalRate _ total stage active_vus max_vus dropped =>
      (Some total,
       "active_vus=" ++ show active_vus ++ "/" ++ show max_vus ++ " dropped=" ++ show dropped ++
       " elapsed=" ++ elapsed ++ rates ++
       match stage with
       | Some st => " stage=" ++ show_nat (sg_stage st) ++ "/" ++ show_nat (sg_stages st) ++
                    " target=" ++ show (sg_current_target st)
       | None => ""
       end)
  end%string.

(** One call of the progress closure; the loop on [max_elapsed_ms] raises it to
    the greatest value given. *)
Definition human_progress (u : ProgressUpdate) (s : HumanState) : HumanState :=
  let elapsed_ms := as_u64 (u_elapsed u / 10 ^ 6) in
  let rates := rates_text u (hu_prev_iters s !! u_scenario u) (hu_prev_errors s !! u_scenario u) in
  let '(total, message) := bar_text u rates in
  mkHuman (Z.max (hu_max_elapsed_ms s) elapsed_ms)
    (<[u_scenario u := lm_iterations_total (u_metrics u)]> (hu_prev_iters s))
    (<[u_scenario u := errors_total (u_metrics u)]> (hu_prev_errors s))
    (update_bar (u_scenario u) total (u_elapsed u) message (hu_bars s)).

(** [print_summary]: the bars are cleared; the lines on standard output and
    standard error. *)
Definition human_summary `{MapIter} (s : HumanState) (summary : RunSummary) : list string * list string * HumanState :=
  let run_elapsed := if 0 <? hu_max_elapsed_ms s then Some (Duration.from_millis (hu_max_elapsed_ms s)) else None in
  (render summary run_elapsed, violation_lines (ru_threshold_violations summary),
   mkHuman (hu_max_elapsed_ms s) (hu_prev_iters s) (hu_prev_errors s) ∅).
