(* ===== verification/HumanProps.v ===== *)
(** * What the human-readable summary shows (HumanOut.v) *)
From Stdlib Require Import SpecFloat.
From S2P Require Import Prelude Coll Std F64 Config Text Key Tags Metrics Registry Agg Requests Checks.
From S2P Require Import Thresholds ThresholdsEval Summary Loops Progress Value Coerce Durations Serde YamlText ScenarioYaml.
From S2P Require Import HttpClient HttpModule Lua LuaOptions Lifecycle LifecycleProps HumanOut.

Local Open Scope Z_scope.

(** ** Sorting *)
Lemma insert_by_perm {A} cmp (x : A) l : insert_by cmp x l ≡ₚ x :: l.
Proof. induction l as [|y l IH]; simpl; [done|]. destruct (cmp x y); [done..|]. rewrite IH. apply Permutation_swap. Qed.

Lemma sort_by_perm {A} cmp (l : list A) : sort_by cmp l ≡ₚ l.
Proof. induction l as [|x l IH]; simpl; [done|]. by rewrite insert_by_perm, IH. Qed.

(** ** The checks *)

(** What a series says of which check. *)
Definition says (s : MetricSeriesSummary) : option (CheckKey * string * Z) :=
  if decide (ms_name s = "checks"%string) then
    match ms_values s with
    | MetricValue.Counter n => '(key, status) ← check_key (ms_tags s); Some (key, status, n)
    | _ => None
    end
  else None.

Definition said (key : CheckKey) (status : string) (series : list MetricSeriesSummary) : Z :=
  sumf (λ s, match says s with
             | Some (k, st, n) => if decide (k = key ∧ st = status) then n else 0
             | None => 0
             end) series.
Definition mentioned (key : CheckKey) (series : list MetricSeriesSummary) : Prop :=
  Exists (λ s, fst ∘ fst <$> says s = Some key) series.
#[export] Instance mentioned_dec key series : Decision (mentioned key series).
Proof. unfold mentioned. apply _. Defined.

Lemma collect_says by_key s :
  collect_check by_key s =
  match says s with
  | Some (key, status, n) => <[key := count_check status n (default (0, 0) (by_key !! key))]> by_key
  | None => by_key
  end.
Proof.
  unfold collect_check, says. case_decide; [|done]. destruct (ms_values s); try done.
  by destruct (check_key (ms_tags s)) as [[key status]|].
Qed.

Definition count_nonneg (s : MetricSeriesSummary) : Prop := ∀ key st n, says s = Some (key, st, n) → 0 ≤ n.

Lemma said_nonneg key st series : Forall count_nonneg series → 0 ≤ said key st series.
Proof.
  intros Hs. apply sumf_nonneg. intros s Hin. rewrite Forall_forall in Hs. destruct (says s) as [[[k st'] n]|] eqn:E; [|done].
  case_decide; [by eapply Hs|done].
Qed.

Lemma count_check_spec st n c a b :
  0 ≤ n → 0 ≤ a → 0 ≤ b → c = (Z.min u64_max a, Z.min u64_max b) →
  count_check st n c = (Z.min u64_max (a + if decide (st = "pass"%string) then n else 0),
                        Z.min u64_max (b + if decide (st = "fail"%string) then n else 0)).
Proof.
  intros Hn Ha Hb ->. unfold count_check. destruct (decide (st = "pass"%string)) as [->|Hp].
  - rewrite decide_False by done. rewrite Z.add_0_r. simpl. f_equal. ints_lia.
  - rewrite Z.add_0_r. case_decide; [|by rewrite Z.add_0_r]. simpl. f_equal. ints_lia.
Qed.

Lemma said_snoc key st series s :
  said key st (series ++ [s]) =
  said key st series + match says s with
                       | Some (k, st', n) => if decide (k = key ∧ st' = st) then n else 0
                       | None => 0
                       end.
Proof. unfold said. rewrite sumf_app. unfold sumf at 2. simpl. lia. Qed.

(** The two counts of every check. *)
Lemma collected_counts series key :
  Forall count_nonneg series →
  default (0, 0) (foldl collect_check ∅ series !! key) =
  (Z.min u64_max (said key "pass" series), Z.min u64_max (said key "fail" series)).
Proof.
  induction series as [|s series IH] using rev_ind; intros Hs; [done|].
  apply Forall_app in Hs as [Hs Hn]. rewrite Forall_singleton in Hn. rewrite foldl_snoc, collect_says, !said_snoc.
  destruct (says s) as [[[k st] n]|] eqn:E; [|rewrite !Z.add_0_r; by apply IH].
  destruct (decide (k = key)) as [->|Hk].
  - rewrite lookup_insert_eq. simpl.
    rewrite (count_check_spec st n _ (said key "pass" series) (said key "fail" series)); [|by eapply Hn|by apply said_nonneg..|by apply IH].
    assert (∀ st0, (if decide (st = st0) then n else 0) = if decide (key = key ∧ st = st0) then n else 0) as Hd
      by (intros st0; repeat case_decide; tauto).
    by rewrite !Hd.
  - rewrite lookup_insert_ne by done. rewrite !(decide_False (P := k = key ∧ _)) by tauto. rewrite !Z.add_0_r. by apply IH.
Qed.

Lemma collected_mentioned series key : is_Some (foldl collect_check ∅ series !! key) ↔ mentioned key series.
Proof.
  unfold mentioned. induction series as [|s series IH] using rev_ind.
  { cbn [foldl]. rewrite lookup_empty, Exists_nil. split; [by intros []|done]. }
  rewrite foldl_snoc, collect_says, Exists_app, Exists_cons, Exists_nil, <- IH.
  destruct (says s) as [[[k st] n]|]; simpl; [|naive_solver].
  rewrite lookup_insert_is_Some'. naive_solver.
Qed.

Lemma check_rows_spec `{MapIter} series key p f :
  Forall count_nonneg series →
  (key, (p, f)) ∈ check_rows series ↔
  mentioned key series ∧ p = Z.min u64_max (said key "pass" series) ∧ f = Z.min u64_max (said key "fail" series).
Proof.
  intros Hs. unfold check_rows. rewrite sort_by_perm, elem_of_map_iter, <- collected_mentioned.
  pose proof (collected_counts series key Hs) as Hc. destruct (_ !! key) as [c|]; simpl in *; [|naive_solver].
  subst c. naive_solver.
Qed.

Lemma check_rows_NoDup `{MapIter} series : NoDup (check_rows series).*1.
Proof. unfold check_rows. rewrite sort_by_perm. apply NoDup_fst_map_iter. Qed.

(** Every row gives its line, in order; the other lines are headings. *)
Lemma check_lines_rows rows cs cg : (check_line <$> rows) `sublist_of` check_lines rows cs cg.
Proof.
  revert cs cg. induction rows as [|[[[[sc g] n] tags] c] rows IH]; intros cs cg; [constructor|].
  rewrite fmap_cons. cbn [check_lines]. apply sublist_inserts_l, sublist_inserts_l, sublist_skip, IH.
Qed.

(** Reading the headings: the scenario and the group a line stands under. *)
Definition read_heading (st : option string * option string) (line : string) : option string * option string :=
  match strip_prefix "scenario: " line with
  | Some sc => (Some sc, None)
  | None => match strip_prefix "  group: " line with Some g => (st.1, Some g) | None => st end
  end.
Definition group_name (g : option string) : string := default "-"%string g.

Lemma read_check_line st row : read_heading st (check_line row) = st.
Proof. by destruct row as [[[[sc g] n] tags] [p f]]. Qed.

Lemma read_group_line st g : read_heading st (group_line g) = (st.1, Some (group_name g)).
Proof. by destruct g. Qed.

Lemma check_lines_under pre row post cs cg :
  ∃ l1 l2, check_lines (pre ++ row :: post) cs cg = (l1 ++ check_line row :: l2)%list ∧
    foldl read_heading (cs, group_name <$> cg) l1 = (Some row.1.1.1.1, Some (group_name row.1.1.1.2)).
Proof.
  revert cs cg. assert (∀ r cs cg rows, ∃ h, check_lines (r :: rows) cs cg =
      (h ++ check_line r :: check_lines rows (Some (r.1.1.1.1 : string)) (Some r.1.1.1.2))%list ∧
      foldl read_heading (cs, group_name <$> cg) h = (Some r.1.1.1.1, Some (group_name r.1.1.1.2))) as Hone.
  { intros [[[[sc g] n] tags] c] cs cg rows. cbn [check_lines fst snd].
    set (cg' := if bool_decide (cs = Some sc) then cg else None).
    exists ((if bool_decide (cs = Some sc) then [] else [("scenario: " ++ sc)%string]) ++
      (if decide (cg' = Some g) then [] else [group_line g]))%list. split; [by rewrite <- app_assoc|].
    rewrite foldl_app.
    assert (foldl read_heading (cs, group_name <$> cg) (if bool_decide (cs = Some sc) then [] else [("scenario: " ++ sc)%string])
      = (Some sc, group_name <$> cg')) as ->.
    { unfold cg'. case_bool_decide as E; [by rewrite E|]. simpl. unfold read_heading. by rewrite strip_prefix_app. }
    case_decide as E; [by rewrite E|]. simpl. by rewrite read_group_line. }
  induction pre as [|r pre IH]; intros cs cg; cbn [app].
  - destruct (Hone row cs cg post) as (h & E & Hh). eauto.
  - destruct (Hone r cs cg (pre ++ row :: post)) as (h & E & Hh).
    destruct (IH (Some r.1.1.1.1) (Some r.1.1.1.2)) as (l1 & l2 & E2 & Hl).
    exists (h ++ check_line r :: l1)%list, l2. rewrite E, E2. split; [by rewrite <- app_assoc|].
    rewrite foldl_app, Hh. simpl. rewrite read_check_line. exact Hl.
Qed.

Section checks.
Context {M : MapIter}.

End checks.

(** ** The metrics *)
Lemma then_cmp_eq a b : then_cmp a b = Eq ↔ a = Eq ∧ b = Eq.
Proof. destruct a, b; naive_solver. Qed.

Lemma section_cmp_eq a b : section_cmp a b = Eq → a = b.
Proof.
  destruct a as [s g], b as [s' g']. unfold section_cmp. rewrite then_cmp_eq. simpl.
  intros [->%String.compare_eq_iff Hg]. f_equal. destruct g, g'; try done. simpl in Hg.
  by apply String.compare_eq_iff in Hg as ->.
Qed.

Lemma push_section_perm key s m : (push_section key s m ≫= snd) ≡ₚ s :: (m ≫= snd).
Proof.
  induction m as [|[k rows] m IH]; [done|]. cbn [push_section]. destruct (section_cmp key k); cbn [mbind list_bind snd].
  - rewrite <- app_assoc. simpl. symmetry. apply Permutation_middle.
  - done.
  - unfold mbind in IH. rewrite IH. symmetry. apply Permutation_middle.
Qed.

(** A section holds the series of its key. *)
Definition sections_ok (m : list (SectionKey * list MetricSeriesSummary)) : Prop :=
  Forall (λ sec, Forall (λ s, section_key (ms_tags s) = sec.1) sec.2) m.

Lemma push_section_ok s m : sections_ok m → sections_ok (push_section (section_key (ms_tags s)) s m).
Proof.
  unfold sections_ok. induction 1 as [|[k rows] m Hk Hm IH]; [by repeat constructor|]. cbn [push_section].
  destruct (section_cmp _ k) eqn:E.
  - apply section_cmp_eq in E as <-. constructor; [|done]. simpl. apply Forall_app_2; [done|by constructor].
  - constructor; [by repeat constructor|by constructor].
  - by constructor.
Qed.

Lemma sections_spec series :
  sections_ok (sections series) ∧ (sections series ≫= snd) ≡ₚ filter (λ s, ms_name s ≠ "checks"%string) series.
Proof.
  unfold sections. induction series as [|s series [IH1 IH2]] using rev_ind; [by split; [constructor|]|].
  rewrite foldl_snoc, filter_app, filter_cons, filter_nil. unfold add_metric at 1 3. case_decide as E.
  - rewrite decide_False by tauto. by rewrite app_nil_r.
  - rewrite decide_True by done. split; [by apply push_section_ok|]. by rewrite push_section_perm, IH2, Permutation_app_comm.
Qed.

Lemma gauges_named_Some name rows k v :
  gauges_named name rows !! k = Some v →
  ∃ s, s ∈ rows ∧ ms_name s = name ∧ ms_values s = MetricValue.Gauge v ∧ inline_tags s = k.
Proof.
  unfold gauges_named. induction rows as [|s rows IH] using rev_ind; [cbn [foldl]; by rewrite lookup_empty|].
  rewrite foldl_snoc. set (m := foldl _ ∅ rows) in *. clearbody m.
  assert (m !! k = Some v → ∃ s', s' ∈ rows ++ [s] ∧ ms_name s' = name ∧ ms_values s' = MetricValue.Gauge v ∧ inline_tags s' = k)
    as Hold by (intros (s' & ? & ?)%IH; exists s'; split; [set_solver|done]).
  destruct (ms_values s) as [|g| |] eqn:Hv; [exact Hold| |exact Hold..]. case_decide; [|exact Hold].
  destruct (decide (inline_tags s = k)) as [<-|Hk]; [|by rewrite lookup_insert_ne].
  rewrite lookup_insert_eq. intros [= <-]. exists s. split; [set_solver|done].
Qed.

(** Two series of one section with the same further tags. *)
Definition beside (s s' : MetricSeriesSummary) : Prop :=
  section_key (ms_tags s') = section_key (ms_tags s) ∧ inline_tags s' = inline_tags s.

(** The line of a series, and when it has none. *)
Definition shown_as (series : list MetricSeriesSummary) (s : MetricSeriesSummary) (line : string) : Prop :=
  line = metric_line s ∨
  ms_name s = "vu_active"%string ∧ ∃ now peak s', ms_values s = MetricValue.Gauge now ∧ s' ∈ series ∧ beside s s' ∧
    ms_name s' = "vu_active_max"%string ∧ ms_values s' = MetricValue.Gauge peak ∧
    line = ("    vu_active" ++ inline_tags s ++ " = end=" ++ show_Z now ++ " peak=" ++ show_Z peak)%string.
Definition hidden (series : list MetricSeriesSummary) (s : MetricSeriesSummary) : Prop :=
  ms_name s = "vu_active_max"%string ∧ ∃ s', s' ∈ series ∧ beside s s' ∧ ms_name s' = "vu_active"%string.

Lemma metric_row_spec series rows s :
  s ∈ rows → Forall (λ s', s' ∈ series ∧ section_key (ms_tags s') = section_key (ms_tags s)) rows →
  let lines := metric_row (gauges_named "vu_active" rows) (gauges_named "vu_active_max" rows) s in
  (lines = [] ∧ hidden series s) ∨ ∃ line, lines = [line] ∧ shown_as series s line.
Proof.
  intros Hs Hrows. cbv zeta. unfold metric_row. rewrite Forall_forall in Hrows. case_decide as Hh.
  - left. destruct Hh as [Hn [v Hv]]. split; [done|]. split; [done|].
    apply gauges_named_Some in Hv as (s' & Hin & Hname & _ & Ht). exists s'. destruct (Hrows s' Hin). by split_and!.
  - right. destruct (ms_values s) as [|now| |] eqn:Hv; try (eexists; split; [done|by left]).
    destruct (gauges_named "vu_active_max" rows !! inline_tags s) as [peak|] eqn:Hp; [|eexists; split; [done|by left]].
    case_decide as Ha; [|eexists; split; [done|by left]]. eexists. split; [done|]. right. split; [done|].
    apply gauges_named_Some in Hp as (s' & Hin & Hname & Hv' & Ht). exists now, peak, s'. destruct (Hrows s' Hin).
    split_and!; try done. by rewrite Ha.
Qed.

Lemma read_metric_lines (series : list MetricSeriesSummary) rows s st :
  s ∈ rows → Forall (λ s', s' ∈ series ∧ section_key (ms_tags s') = section_key (ms_tags s)) rows →
  foldl read_heading st (metric_row (gauges_named "vu_active" rows) (gauges_named "vu_active_max" rows) s) = st.
Proof.
  intros Hs Hr. unfold metric_row. case_decide; [done|].
  destruct (ms_values s); destruct (gauges_named "vu_active_max" rows !! inline_tags s); try case_decide; done.
Qed.

(** A member of a list of lists of lines, and what comes before it. *)
Lemma bind_split {A} (f : A → list string) l x line :
  x ∈ l → f x = [line] → ∃ a b, (l ≫= f) = ((a ≫= f) ++ line :: (b ≫= f))%list ∧ a ⊆ l.
Proof.
  intros Hx Hf. apply list_elem_of_split in Hx as (a & b & ->). exists a, b. rewrite bind_app. cbn [mbind list_bind].
  rewrite Hf. split; [done|]. set_solver.
Qed.

Lemma read_quiet {A} (f : A → list string) a st :
  (∀ x, x ∈ a → ∀ st, foldl read_heading st (f x) = st) → foldl read_heading st (a ≫= f) = st.
Proof.
  induction a as [|x a IH]; intros Ha; [done|]. cbn [mbind list_bind]. rewrite foldl_app, Ha by (by left).
  apply IH. intros y Hy. apply Ha. by right.
Qed.

(** Every metric series that is not one of checks is shown under the headings of
    its scenario and group, on one line; only a peak of the active VUs that its
    gauge's line already gives is left out. *)
Lemma human_metrics_exact (series : list MetricSeriesSummary) s :
  s ∈ series → ms_name s ≠ "checks"%string →
  hidden series s ∨
  ∃ l1 line l2, render_metrics series = (l1 ++ line :: l2)%list ∧ shown_as series s line ∧
    foldl read_heading (None, None) l1 =
      (Some (section_key (ms_tags s)).1, Some (group_name (section_key (ms_tags s)).2)).
Proof.
  intros Hin Hn. destruct (sections_spec series) as [Hok Hperm]. unfold render_metrics.
  assert (s ∈ sections series ≫= snd) as Hs by (rewrite Hperm; by apply list_elem_of_filter).
  apply list_elem_of_bind in Hs as ([k rows] & Hs & Hsec). simpl in Hs.
  apply list_elem_of_split in Hsec as (a & b & Esec). rewrite Esec in *.
  rewrite is_empty_false by (by destruct a). rewrite bind_app. cbn [mbind list_bind].
  assert (Forall (λ s', s' ∈ series ∧ section_key (ms_tags s') = section_key (ms_tags s)) (sort_by metric_cmp rows)) as Hrows.
  { apply Forall_forall. intros s'. rewrite sort_by_perm. intros Hs'.
    unfold sections_ok in Hok. rewrite Forall_forall in Hok. specialize (Hok (k, rows) ltac:(set_solver)).
    rewrite Forall_forall in Hok. simpl in Hok. split; [|by rewrite (Hok s'), (Hok s)].
    assert (s' ∈ filter (λ s, ms_name s ≠ "checks"%string) series) as [_ ?]%list_elem_of_filter; [|done].
    rewrite <- Hperm. apply list_elem_of_bind. exists (k, rows). set_solver. }
  assert (section_key (ms_tags s) = k) as Hk.
  { unfold sections_ok in Hok. rewrite Forall_forall in Hok. specialize (Hok (k, rows) ltac:(set_solver)).
    rewrite Forall_forall in Hok. by apply Hok. }
  assert (s ∈ sort_by metric_cmp rows) as Hs' by by rewrite sort_by_perm.
  destruct (metric_row_spec series _ s Hs' Hrows) as [[_ Hh]|(line & Hline & Hshown)]; [by left|right].
  destruct (bind_split _ _ _ _ Hs' Hline) as (ra & rb & Erows & Hra). destruct k as [scenario group].
  set (f := metric_row _ _) in Erows.
  match goal with |- context [section_lines ?sec] => assert (section_lines sec =
    (["scenario: " ++ scenario; group_line group]%string ++ ((ra ≫= f) ++ line :: (rb ≫= f)) ++ [""%string])%list) as ->
    by (unfold section_lines; by rewrite <- Erows) end.
  exists ([""; "metrics"]%string ++ (a ≫= section_lines) ++ ["scenario: " ++ scenario; group_line group]%string ++
    (ra ≫= f))%list, line, ((rb ≫= f) ++ [""%string] ++ (b ≫= section_lines))%list.
  split; [repeat (cbn [app]; rewrite <- app_assoc); done|]. split; [done|].
  rewrite !foldl_app, Hk. cbn [foldl]. set (st := foldl _ _ (a ≫= _)). rewrite read_group_line.
  assert (read_heading st ("scenario: " ++ scenario)%string = (Some scenario, None)) as ->
    by (unfold read_heading; by rewrite strip_prefix_app).
  apply read_quiet. intros x Hx st'. apply (read_metric_lines series); [by apply Hra|].
  apply Forall_forall. intros s' Hs2. rewrite Forall_forall in Hrows. destruct (Hrows s' Hs2) as [? E].
  split; [done|]. rewrite E. symmetry. by apply Hrows, Hra.
Qed.

(** ** The totals and the bars *)
Lemma human_totals_exact ss :
  Forall figures_nonneg ss →
  human_totals ss =
  mkTotals (Z.min u64_max (sumf su_requests_total ss)) (Z.min u64_max (sumf su_failed_requests_total ss))
    (Z.min u64_max (sumf su_bytes_received_total ss)) (Z.min u64_max (sumf su_bytes_sent_total ss))
    (Z.min u64_max (sumf su_iterations_total ss)) (Z.min u64_max (sumf su_checks_failed_total ss)).
Proof.
  intros Hss. unfold human_totals. set (t := foldl _ _ ss).
  assert (t = mkTotals (to_requests t) (to_failed_requests t) (to_bytes_received t) (to_bytes_sent t) (to_iterations t)
    (to_checks_failed t)) as -> by (by destruct t). unfold t.
  rewrite (totals_exact to_requests "requests_total" su_requests_total),
    (totals_exact to_failed_requests "failed_requests_total" su_failed_requests_total),
    (totals_exact to_bytes_received "bytes_received_total" su_bytes_received_total),
    (totals_exact to_bytes_sent "bytes_sent_total" su_bytes_sent_total),
    (totals_exact to_iterations "iterations_total" su_iterations_total),
    (totals_exact to_checks_failed "checks_failed_total" su_checks_failed_total); try done; unfold totals_of; set_solver.
Qed.

(** A scenario with a known duration has a bar within its length, another one a
    spinner; the bars of other scenarios stay. *)
Lemma human_progress_bar u s :
  ∃ b, hu_bars (human_progress u s) !! u_scenario u = Some b ∧
    (pb_kind b = Bar ↔ is_Some (bar_text u (rates_text u (hu_prev_iters s !! u_scenario u) (hu_prev_errors s !! u_scenario u))).1) ∧
    (pb_kind b = Bar → pb_position b ≤ pb_length b) ∧
    ∀ other, other ≠ u_scenario u → hu_bars (human_progress u s) !! other = hu_bars s !! other.
Proof.
  unfold human_progress. destruct (bar_text u _) as [total message]. simpl. unfold update_bar.
  eexists. rewrite lookup_insert_eq. split; [done|].
  assert (pb_kind (get_or_create_bar (u_scenario u) total (hu_bars s)) = match total with Some _ => Bar | None => Spinner end) as Hk.
  { unfold get_or_create_bar. destruct (hu_bars s !! u_scenario u) as [b|]; [|done]. by case_decide. }
  split_and!; [| |intros other Ho; by rewrite lookup_insert_ne].
  - destruct total; simpl; rewrite Hk; split; done.
  - destruct total; simpl; [lia|]. by rewrite Hk.
Qed.

(** ** Witness *)
Definition demo_check (status : string) (n : Z) : MetricSeriesSummary :=
  mkSeriesSummary "checks" MetricKind.Counter
    [("scenario", "Default"); ("group", "g1"); ("name", "status is 200"); ("status", status); ("region", "eu")]%string
    (MetricValue.Counter n).
Definition demo_gauge (name : string) (v : Z) : MetricSeriesSummary :=
  mkSeriesSummary name MetricKind.Gauge [("scenario", "Default")]%string (MetricValue.Gauge v).
Definition demo_series : list MetricSeriesSummary :=
  [demo_check "pass" 10; demo_gauge "vu_active_max" 10; demo_check "fail" 2; demo_gauge "vu_active" 0].

Example demo_text : render (mkRunSummary [] demo_series []) None =
  ["summary: no scenarios"; ""; "checks"; "scenario: Default"; "  group: g1";
   "    status is 200{group=g1 region=eu}: pass=10 fail=2 [FAIL]";
   ""; "metrics"; "scenario: Default"; "  group: -"; "    vu_active = end=0 peak=10"; ""]%string.
Proof. vm_compute. reflexivity. Qed.

