(* ===== verification/Init.v ===== *)
(** * The command [wrkr init] (wrkr/src/init.rs, init/lua.rs, init/fs.rs,
    script_language.rs)

    Which files it writes and which it leaves alone.  The texts of the templates
    and of the editor stubs are arguments; so are the system's failures. *)
From Stdlib Require Import Ascii.
From S2P Require Import Prelude Std Coll Text Config Options Paths.

Local Open Scope string_scope.

(** script_language.rs: the one language there is. *)
Inductive ScriptLanguage := Lua.
Definition parse_script_language (s : string) : result string ScriptLanguage :=
  let s := trim s in
  if decide (s = "lua") then Ok Lua
  else Err ("unsupported script language '" ++ s ++ "'. Available languages: lua").

Record InitArgs := mkInitArgs {
  ia_dir : string;
  ia_force : bool;
  ia_vscode : bool;
  ia_lang : ScriptLanguage;
  ia_script : option string }.

(** The files by their place on the disk.  The system says which place a path
    names, whether something that is no file (a directory) stands there, and which
    calls fail: an error is [Some] message. *)
Notation FileTree := (gmap string string).
Class System := {
  resolve : string → string;
  occupied : string → bool;
  create_dir_all : string → option string;
  exists_fails : string → option string;
  write_fails : string → option string }.

(** The constants of lua.rs and the stubs of editor_stubs.rs. *)
Record Templates := mkTemplates {
  LUARC_JSON : string;
  VSCODE_EXTENSIONS_JSON : string;
  VSCODE_LAUNCH_JSON : string;
  EXAMPLE_SCRIPT_LUA : string;
  luals_stub_files : list (string * string) }.

Section init.
Context {S : System} (tpl : Templates).

Definition Step : Type := FileTree → result string unit * FileTree.
Definition and_then (a b : Step) : Step := λ fs, match a fs with (Ok _, fs) => b fs | (Err e, fs) => (Err e, fs) end.
Definition check (o : option string) : Step := λ fs, (match o with Some e => Err e | None => Ok tt end, fs).
Definition mkdir (p : string) : Step := check (create_dir_all p).

(** fs.rs, [write_file]. *)
Definition write_file (path contents : string) (force : bool) : Step := λ fs,
  let go :=
    and_then (match parent path with Some dir => mkdir dir | None => check None end)
      (λ fs, match write_fails path with Some e => (Err e, fs) | None => (Ok tt, <[resolve path := contents]> fs) end) in
  if force then go fs
  else match exists_fails path with
       | Some e => (Err e, fs)
       | None =>
           if bool_decide (is_Some (fs !! resolve path)) || occupied path then (Err ("refusing to overwrite existing file (use --force): " ++ path), fs)
           else go fs
       end.

Fixpoint write_all (files : list (string * string)) (force : bool) : Step :=
  match files with
  | [] => check None
  | (path, contents) :: files => and_then (write_file path contents force) (write_all files force)
  end.

(** lua.rs *)
Definition stubs_root (root : string) : string := join (join root ".wrkr") "lua-stubs".
Definition stub_files (root : string) : list (string * string) :=
  (prod_map (join (stubs_root root)) id <$> luals_stub_files tpl)%list.
Definition write_luals_stubs (root : string) (force : bool) : Step :=
  and_then (mkdir (stubs_root root)) (write_all (stub_files root) force).
Definition write_luarc (root : string) (force : bool) : Step :=
  write_file (join root ".luarc.json") (LUARC_JSON tpl) force.
Definition default_script_name : string := "script.lua".
Definition write_example_script (root name : string) (force : bool) : Step :=
  write_file (join root name) (EXAMPLE_SCRIPT_LUA tpl) force.
Definition write_vscode_recommendations (root : string) (force : bool) : Step :=
  let dir := join root ".vscode" in
  and_then (mkdir dir)
    (and_then (write_file (join dir "extensions.json") (VSCODE_EXTENSIONS_JSON tpl) force)
       (write_file (join dir "launch.json") (VSCODE_LAUNCH_JSON tpl) force)).

Definition scaffold (root : string) (args : InitArgs) : Step :=
  and_then (write_luals_stubs root (ia_force args))
    (and_then (write_luarc root (ia_force args))
       (and_then (write_example_script root (default default_script_name (ia_script args)) (ia_force args))
          (if ia_vscode args then write_vscode_recommendations root (ia_force args) else check None))).

Definition init (args : InitArgs) : Step :=
  and_then (mkdir (ia_dir args)) (match ia_lang args with Lua => scaffold (ia_dir args) args end).

(** ** What is written *)

(** The files after these writes. *)
Definition written (fs : FileTree) (files : list (string * string)) : FileTree :=
  foldl (λ fs p, <[p.1 := p.2]> fs) fs files.

(** Where these files stand. *)
Definition at_place (files : list (string * string)) : list (string * string) := (prod_map resolve id <$> files)%list.

(** A step that writes these files, in order, up to the first failure. *)
Definition writes (force : bool) (files : list (string * string)) (a : Step) : Prop :=
  ∀ fs, ∃ done rest, files = (done ++ rest)%list ∧ (a fs).2 = written fs done ∧
    ((a fs).1 = Ok tt → rest = []) ∧
    (force = false → NoDup done.*1 ∧ ∀ p, p ∈ done.*1 → fs !! p = None).

Lemma writes_check force o : writes force [] (check o).
Proof. intros fs. exists [], []. split_and!; [done..|]. intros _. split; [constructor|set_solver]. Qed.

Lemma written_other fs files p : p ∉ files.*1 → written fs files !! p = fs !! p.
Proof.
  unfold written. revert fs. induction files as [|[q c] files IH]; intros fs; csimpl; [done|].
  intros [Hq Hp]%not_elem_of_cons. rewrite IH by done. by apply lookup_insert_ne.
Qed.

Lemma written_in fs files p : p ∈ files.*1 → is_Some (written fs files !! p).
Proof.
  unfold written. induction files as [|[q c] files IH] using rev_ind; [by intros ?%elem_of_nil|].
  rewrite fmap_app, foldl_snoc, elem_of_app. simpl. destruct (decide (q = p)) as [->|Hq]; [by rewrite lookup_insert_eq|].
  rewrite lookup_insert_ne by done. intros [Hp|Hp]; [by apply IH|]. apply list_elem_of_singleton in Hp. congruence.
Qed.

Lemma writes_then force f1 f2 a b : writes force f1 a → writes force f2 b → writes force (f1 ++ f2)%list (and_then a b).
Proof.
  intros Ha Hb fs. destruct (Ha fs) as (d1 & r1 & -> & E1 & D1 & N1). unfold and_then.
  destruct (a fs) as [[[]|e] fs1]; simpl in *.
  - rewrite (D1 eq_refl) in *. clear D1. destruct (Hb fs1) as (d2 & r2 & -> & E2 & D2 & N2).
    exists (d1 ++ d2)%list, r2. rewrite app_nil_r. split_and!; [by rewrite app_assoc| |done|].
    + rewrite E2, E1. unfold written. by rewrite foldl_app.
    + intros Hf. destruct (N1 Hf) as [Nd1 Hn1], (N2 Hf) as [Nd2 Hn2]. rewrite fmap_app. split.
      * apply NoDup_app. split_and!; [done| |done]. intros p Hp1 Hp2. specialize (Hn2 p Hp2). rewrite E1 in Hn2.
        destruct (written_in fs d1 p Hp1) as [c Hc]. by rewrite Hc in Hn2.
      * intros p [Hp|Hp]%elem_of_app; [by apply Hn1|]. destruct (decide (p ∈ d1.*1)); [by apply Hn1|].
        specialize (Hn2 p Hp). by rewrite E1, written_other in Hn2.
  - exists d1, (r1 ++ f2)%list. split_and!; [by rewrite app_assoc|done|done|done].
Qed.

Lemma writes_file force p c : writes force (at_place [(p, c)]) (write_file p c force).
Proof.
  intros fs. unfold write_file. set (go := and_then _ _).
  assert (∀ fs, (go fs = (Ok tt, <[resolve p := c]> fs)) ∨ ∃ e, go fs = (Err e, fs)) as Hgo.
  { intros fs'. unfold go, and_then, mkdir, check. destruct (parent p) as [dir|].
    - destruct (create_dir_all dir); [right; eauto|]. destruct (write_fails p); eauto.
    - destruct (write_fails p); eauto. }
  assert (∀ (r : result string unit) (fs' : FileTree), (force = false → fs !! resolve p = None) → (r, fs') = go fs →
    ∃ done rest, at_place [(p, c)] = (done ++ rest)%list ∧ fs' = written fs done ∧ (r = Ok tt → rest = []) ∧
      (force = false → NoDup done.*1 ∧ ∀ q, q ∈ done.*1 → fs !! q = None)) as Hdo.
  { intros r fs' Hnone E. destruct (Hgo fs) as [E'|[e E']]; rewrite E' in E; injection E as -> ->.
    - exists (at_place [(p, c)]), []. split_and!; [done..|]. intros Hf. csimpl. split; [apply NoDup_singleton|].
      intros q ->%list_elem_of_singleton. by apply Hnone.
    - exists [], (at_place [(p, c)]). split_and!; [done..|]. intros _. split; [constructor|set_solver]. }
  assert (∀ e : string, ∃ done rest, at_place [(p, c)] = (done ++ rest)%list ∧ fs = written fs done ∧ (@Err string unit e = Ok tt → rest = []) ∧
      (force = false → NoDup done.*1 ∧ ∀ q, q ∈ done.*1 → fs !! q = None)) as Hno.
  { intros e. exists [], (at_place [(p, c)]). split_and!; [done..|]. intros _. split; [constructor|set_solver]. }
  destruct force; [destruct (go fs) eqn:E; by apply Hdo|].
  destruct (exists_fails p) as [e|]; [apply Hno|]. case_bool_decide as Hex; [apply Hno|]. destruct (occupied p); [apply Hno|].
  destruct (go fs) eqn:E. apply Hdo; [|done]. intros _. by apply eq_None_not_Some.
Qed.

Lemma writes_all force files : writes force (at_place files) (write_all files force).
Proof.
  induction files as [|[p c] files IH]; [apply writes_check|]. cbn [write_all].
  apply (writes_then force (at_place [(p, c)]) (at_place files)); [apply writes_file|done].
Qed.

(** The files a complete run writes, in order. *)
Definition planned_files (args : InitArgs) : list (string * string) :=
  let root := ia_dir args in
  (stub_files root ++
   [(join root ".luarc.json", LUARC_JSON tpl);
    (join root (default default_script_name (ia_script args)), EXAMPLE_SCRIPT_LUA tpl)] ++
   if ia_vscode args then
     [(join (join root ".vscode") "extensions.json", VSCODE_EXTENSIONS_JSON tpl);
      (join (join root ".vscode") "launch.json", VSCODE_LAUNCH_JSON tpl)]
   else [])%list.

Lemma writes_skip force files o a : writes force files a → writes force files (and_then (check o) a).
Proof. apply (writes_then force [] files), writes_check. Qed.

Lemma at_place_app f1 f2 : at_place (f1 ++ f2) = (at_place f1 ++ at_place f2)%list.
Proof. apply fmap_app. Qed.

Lemma writes_init args : writes (ia_force args) (at_place (planned_files args)) (init args).
Proof.
  unfold init, mkdir. apply writes_skip. destruct (ia_lang args). unfold scaffold, planned_files. cbv zeta.
  rewrite !at_place_app. apply writes_then; [apply writes_skip, writes_all|].
  apply (writes_then _ (at_place [_]) (_ :: _)); [apply writes_file|].
  apply (writes_then _ (at_place [_]) _); [apply writes_file|].
  destruct (ia_vscode args); [|apply writes_check]. apply writes_skip.
  apply (writes_then _ (at_place [_]) (at_place [_])); apply writes_file.
Qed.

(** What [wrkr init] writes: the editor stubs, the configuration, the example
    script under the name given and, if asked, the editor's recommendations, in
    this order and up to the first failure; everything else stays as it was, and
    without [--force] so does every file that existed. *)
Theorem init_writes args fs :
  let '(r, fs') := init args fs in
  ∃ done rest, at_place (planned_files args) = (done ++ rest)%list ∧ fs' = written fs done ∧ (r = Ok tt → rest = []) ∧
    (∀ p, p ∉ done.*1 → fs' !! p = fs !! p) ∧
    (ia_force args = false → ∀ p c, fs !! p = Some c → fs' !! p = Some c).
Proof.
  destruct (writes_init args fs) as (done & rest & Hp & E & Hr & Hf). destruct (init args fs) as [r fs']. simpl in *.
  exists done, rest. subst fs'. split_and!; [done|done|done|by intros; apply written_other|].
  intros Hforce p c Hc. destruct (Hf Hforce) as [_ Hn]. rewrite written_other; [done|]. intros Hin. by rewrite (Hn p Hin) in Hc.
Qed.
End init.

(** ** An example *)
#[local] Instance demo_system : System := {| resolve p := p; occupied _ := false; create_dir_all _ := None; exists_fails _ := None; write_fails _ := None |}.
Definition demo_templates : Templates := mkTemplates "{}" "[]" "[]" "-- script" [("wrkr.lua", "-- stub")]%list.

Example demo_init :
  (init demo_templates (mkInitArgs "w" false false Lua None) {[ "w/script.lua" := "mine" ]}) =
  (Err "refusing to overwrite existing file (use --force): w/script.lua",
   {[ "w/script.lua" := "mine"; "w/.wrkr/lua-stubs/wrkr.lua" := "-- stub"; "w/.luarc.json" := "{}" ]}).
Proof. vm_compute. reflexivity. Qed.
