(* ===== verification/TestServer.v ===== *)
(** * The test server (wrkr-testserver)

    The HTTP and gRPC server the project is tested and measured against: its
    handlers, the counters they keep, and the two aggregations of orders.
    Routing, the extractors, JSON and the sockets are the libraries': a request
    comes with its query and its parsed body as the extractors give them.
    [overflow_checks] is the compiler's option: an overflow panics with it and
    wraps without; a panic of a handler is [None]. *)
From Stdlib Require Import Ascii.
From S2P Require Import Prelude Coll Text.

Local Open Scope Z_scope.

(** ** lib.rs: counters *)
Inductive Counter := RequestsTotal | SawPostHeader | SawPostBody | SawJsonContentType.
#[export] Instance Counter_eq_dec : EqDecision Counter.
Proof. solve_decision. Defined.

Record TestServerStats := mkStats {
  requests_total : Z; saw_post_header : Z; saw_post_body : Z; saw_json_content_type : Z }.
Definition stats_default : TestServerStats := mkStats 0 0 0 0.

(** One [fetch_add]. *)
Definition inc (s : TestServerStats) (c : Counter) : TestServerStats :=
  let '(mkStats r h b j) := s in
  match c with
  | RequestsTotal => mkStats (u64_wrap_add r 1) h b j
  | SawPostHeader => mkStats r (u64_wrap_add h 1) b j
  | SawPostBody => mkStats r h (u64_wrap_add b 1) j
  | SawJsonContentType => mkStats r h b (u64_wrap_add j 1)
  end.

Record TestServerUrls := mkUrls {
  base_url : string; hello : string; plaintext : string; echo : string; slow : string; qp : string;
  analytics_aggregate : string }.
Definition urls_new (base : string) : TestServerUrls :=
  mkUrls base (base ++ "/hello") (base ++ "/plaintext") (base ++ "/echo") (base ++ "/slow") (base ++ "/qp")
    (base ++ "/analytics/aggregate").

(** ** The orders *)
Record OrderItem := mkItem { quantity : Z; category : string; price_cents : Z }.
Record AnalyticsOrder := mkOrder { status : Z; country : string; items : list OrderItem }.
Record AnalyticsAggregateRequest := mkAggregateRequest { client_id : string; orders : list AnalyticsOrder }.
Record Totals := mkAggregate {
  processed_orders : Z; amount_by_country : gmap string Z; quantity_by_category : gmap string Z }.
Definition no_totals : Totals := mkAggregate 0 ∅ ∅.

Section server.
Context (overflow_checks : bool).

(** A sum or product of machine integers. *)
Definition i32_result (x : Z) : option Z :=
  if bool_decide (in_i32 x) then Some x else if overflow_checks then None else Some (as_i32 x).
Definition i64_result (x : Z) : option Z :=
  if bool_decide (in_i64 x) then Some x else if overflow_checks then None else Some (as_i64 x).
Definition i64_sat_mul (a b : Z) : Z := Z.max i64_min (Z.min i64_max (a * b)).

(** [*map.entry(key).or_insert(0) += d]. *)
Definition entry_add (add : Z → option Z) (key : string) (d : Z) (m : gmap string Z) : option (gmap string Z) :=
  n ← add (default 0 (m !! key) + d); Some (<[key := n]> m).

Fixpoint http_items (l : list OrderItem) (amount : Z) (quantities : gmap string Z) : option (Z * gmap string Z) :=
  match l with
  | [] => Some (amount, quantities)
  | item :: l =>
      amount ← i64_result (amount + i64_sat_mul (price_cents item) (quantity item));
      quantities ← entry_add i32_result (category item) (quantity item) quantities;
      http_items l amount quantities
  end.

(** The loop of [handle_analytics_aggregate]. *)
Fixpoint http_orders (l : list AnalyticsOrder) (t : Totals) : option Totals :=
  match l with
  | [] => Some t
  | order :: l =>
      if negb (status order =? 1) then http_orders l t
      else
        processed ← i64_result (processed_orders t + 1);
        '(amount, quantities) ← http_items (items order) 0 (quantity_by_category t);
        amounts ← entry_add i64_result (country order) amount (amount_by_country t);
        http_orders l (mkAggregate processed amounts quantities)
  end.

(** ** grpc.rs *)
Fixpoint grpc_items (l : list OrderItem) (amount : Z) (quantities : gmap string Z) : option (Z * gmap string Z) :=
  match l with
  | [] => Some (amount, quantities)
  | item :: l =>
      product ← i64_result (price_cents item * quantity item);
      amount ← i64_result (amount + product);
      quantities ← entry_add i32_result (category item) (quantity item) quantities;
      grpc_items l amount quantities
  end.

Definition COMPLETED : Z := 1.

Fixpoint grpc_orders (l : list AnalyticsOrder) (t : Totals) : option Totals :=
  match l with
  | [] => Some t
  | order :: l =>
      if status order =? COMPLETED then
        processed ← i32_result (processed_orders t + 1);
        '(amount, quantities) ← grpc_items (items order) 0 (quantity_by_category t);
        amounts ← entry_add i64_result (country order) amount (amount_by_country t);
        grpc_orders l (mkAggregate processed amounts quantities)
      else grpc_orders l t
  end.

(** The client's id comes in the metadata; an unreadable one counts as none. *)
Definition aggregate_orders (x_client_id : option string) (l : list AnalyticsOrder) : option (string * Totals) :=
  totals ← grpc_orders l no_totals; Some (default "" x_client_id, totals).
Definition echo_grpc (message : string) : string := message.

(** ** HTTP handlers *)
Record HttpRequest := mkRequest {
  rq_method : string; rq_path : string; rq_query : list (string * string);
  rq_headers : list (string * string); rq_body : string }.
Record HttpResponse := mkResponse { rs_status : Z; rs_body : string }.

Context (from_slice : string → option AnalyticsAggregateRequest) (to_vec : string * Totals → option string).

(** [HeaderValue::to_str]: visible ASCII, space and tab. *)
Definition visible (c : ascii) : bool := ((32 <=? N_of_ascii c) && (N_of_ascii c <? 127) || (N_of_ascii c =? 9))%N.
Fixpoint all_visible (s : string) : bool :=
  match s with EmptyString => true | String c s => visible c && all_visible s end.

(** [headers.get(name).and_then(|v| v.to_str().ok())]; names are lower case in the
    map. *)
Definition header_str (name : string) (headers : list (string * string)) : option string :=
  p ← list_find (λ p, p.1 = name) headers;
  let v := p.2.2 in if all_visible v then Some v else None.

Definition header_counters (headers : list (string * string)) : list Counter :=
  (if bool_decide (header_str "x-test" headers = Some "1"%string) then [SawPostHeader] else []) ++
  match header_str "content-type" headers with
  | Some v => match strip_prefix "application/json" (lowercase v) with Some _ => [SawJsonContentType] | None => [] end
  | None => []
  end.

Definition ok (body : string) : option HttpResponse := Some (mkResponse 200 body).

(** A handler: what it counts, in order, and its answer. *)
Definition Handler : Type := HttpRequest → list Counter * option HttpResponse.

Definition handle_hello : Handler := λ _, ([RequestsTotal], ok "Hello World!").
Definition handle_plaintext : Handler := λ _, ([RequestsTotal], ok "Hello World!").
Definition handle_slow : Handler := λ _, ([RequestsTotal], ok "slow").
Definition handle_echo : Handler := λ r,
  (RequestsTotal :: header_counters (rq_headers r) ++ (if bool_decide (rq_body r = "ping"%string) then [SawPostBody] else []),
   ok (rq_body r)).
(** The query as a [HashMap]: the last value of a key is its value. *)
Definition handle_qp : Handler := λ r,
  ([RequestsTotal],
   Some (mkResponse (if bool_decide ((list_to_map (reverse (rq_query r)) : gmap string string) !! "foo"%string = Some "bar"%string)
                     then 200 else 400) "")).
Definition handle_analytics_aggregate : Handler := λ r,
  (RequestsTotal :: header_counters (rq_headers r),
   match from_slice (rq_body r) with
   | None => Some (mkResponse 400 "bad json")
   | Some req =>
       totals ← http_orders (orders req) no_totals;
       match to_vec (client_id req, totals) with
       | Some bytes => ok bytes
       | None => Some (mkResponse 500 "encode error")
       end
   end).

(** [router]; a [get] route answers HEAD as well. *)
Definition is_get (m : string) : bool := bool_decide (m = "GET"%string ∨ m = "HEAD"%string).
Definition router (m path : string) : option Handler :=
  if decide (path = "/hello"%string) then if is_get m then Some handle_hello else None
  else if decide (path = "/plaintext"%string) then if is_get m then Some handle_plaintext else None
  else if decide (path = "/slow"%string) then if is_get m then Some handle_slow else None
  else if decide (path = "/echo"%string) then Some handle_echo
  else if decide (path = "/analytics/aggregate"%string) then if decide (m = "POST"%string) then Some handle_analytics_aggregate else None
  else if decide (path = "/qp"%string) then if is_get m then Some handle_qp else None
  else None.
End server.

(** ** Starting and stopping: [TestServer::shutdown] and [drop] *)
Inductive Stop := SendShutdown | JoinTask | AbortTask.
Record Running := mkRunning { has_shutdown_tx : bool; has_task : bool }.
Definition started : Running := mkRunning true true.
Definition drop_server (s : Running) : list Stop := if has_shutdown_tx s && has_task s then [AbortTask] else [].
Definition shutdown (s : Running) : list Stop :=
  (if has_shutdown_tx s then [SendShutdown] else []) ++ (if has_task s then [JoinTask] else []) ++
  drop_server (mkRunning false false).

(** ** main.rs: the arguments *)
Inductive Startup (A : Type) := Help | Serve (addr : A).
Arguments Help {A}.
Arguments Serve {A} addr.

Fixpoint parse_args {A} (parse : string → result string A) (args : list string) (bind_addr : A) : result string (Startup A) :=
  match args with
  | [] => Ok (Serve bind_addr)
  | arg :: args =>
      if decide (arg = "--bind"%string) then
        match args with
        | [] => Err "--bind requires an address, e.g. 127.0.0.1:0"%string
        | addr :: args => bind_addr ← parse addr; parse_args parse args bind_addr
        end
      else if decide (arg = "-h"%string ∨ arg = "--help"%string) then Ok Help
      else Err ("unknown argument: " ++ arg)%string
  end.

(** ** The aggregations agree, and are what they are meant to be *)
Section aggregates.
Implicit Types (l : list AnalyticsOrder) (its : list OrderItem).

Definition order_amount its : Z := sumf (λ i, price_cents i * quantity i) its.
Definition completed l : list AnalyticsOrder := filter (λ o, status o = 1) l.
Definition country_amount (c : string) l : Z := sumf (λ o, if decide (country o = c) then order_amount (items o) else 0) l.
Definition category_quantity (c : string) its : Z := sumf (λ i, if decide (category i = c) then quantity i else 0) its.
Definition all_items l : list OrderItem := l ≫= items.

Lemma completed_cons o l : completed (o :: l) = if decide (status o = 1) then o :: completed l else completed l.
Proof. unfold completed. by rewrite filter_cons. Qed.

Lemma i64_checked c x y : i64_result true x = Some y → i64_result c x = Some y ∧ y = x ∧ in_i64 x.
Proof. unfold i64_result. case_bool_decide; [by intros [= <-]|done]. Qed.
Lemma i32_checked c x y : i32_result true x = Some y → i32_result c x = Some y ∧ y = x ∧ in_i32 x.
Proof. unfold i32_result. case_bool_decide; [by intros [= <-]|done]. Qed.

Lemma sat_mul_exact a b : in_i64 (a * b) → i64_sat_mul a b = a * b.
Proof. unfold i64_sat_mul. intros Hab. revert Hab. generalize (a * b). intros. ints_lia. Qed.

Lemma entry_checked (add : bool → Z → option Z) c key d m m' :
  (∀ x y, add true x = Some y → add c x = Some y ∧ y = x) → entry_add (add true) key d m = Some m' →
  entry_add (add c) key d m = Some m' ∧ m' = <[key := default 0 (m !! key) + d]> m.
Proof.
  intros Hadd. unfold entry_add. destruct (add true _) as [n|] eqn:E; simpl; [|done]. intros [= <-].
  apply Hadd in E as [-> ->]. done.
Qed.

(** A map after adding the amounts of a list under their keys. *)
Definition adds {A} (key : A → string) (amount : A → Z) (xs : list A) (m m' : gmap string Z) : Prop :=
  dom m' = dom m ∪ list_to_set (key <$> xs) ∧
  ∀ k, default 0 (m' !! k) = default 0 (m !! k) + sumf (λ x, if decide (key x = k) then amount x else 0) xs.

Lemma adds_nil {A} (key : A → string) amount m : adds key amount [] m m.
Proof. split; [set_solver|]. intros k. simpl. lia. Qed.
Lemma adds_cons {A} (key : A → string) amount x xs m m' :
  adds key amount xs (<[key x := default 0 (m !! key x) + amount x]> m) m' → adds key amount (x :: xs) m m'.
Proof.
  intros [Hd Hv]. split; [rewrite Hd; set_solver|]. intros k. rewrite Hv, sumf_cons. destruct (decide (key x = k)) as [<-|Hk].
  - rewrite lookup_insert_eq. simpl. lia.
  - rewrite lookup_insert_ne by done. lia.
Qed.
Lemma adds_app {A} (key : A → string) amount xs ys m m1 m2 :
  adds key amount xs m m1 → adds key amount ys m1 m2 → adds key amount (xs ++ ys) m m2.
Proof.
  intros [Hd1 Hv1] [Hd2 Hv2]. split; [rewrite Hd2, Hd1, fmap_app, list_to_set_app_L; set_solver|].
  intros k. rewrite Hv2, Hv1, sumf_app. lia.
Qed.

Lemma adds_fresh {A} (key : A → string) amount xs m k :
  adds key amount xs ∅ m →
  m !! k = if decide (k ∈ key <$> xs) then Some (sumf (λ x, if decide (key x = k) then amount x else 0) xs) else None.
Proof.
  intros [Hd Hv]. specialize (Hv k). rewrite lookup_empty in Hv. rewrite dom_empty_L in Hd. case_decide as Hk.
  - destruct (m !! k) eqn:E; [simpl in Hv; by f_equal|]. apply not_elem_of_dom in E. rewrite Hd in E. set_solver.
  - apply not_elem_of_dom. rewrite Hd. set_solver.
Qed.

Lemma items_agree c its a q r :
  grpc_items true its a q = Some r →
  http_items c its a q = Some r ∧ grpc_items c its a q = Some r ∧
  r.1 = a + order_amount its ∧ adds category quantity its q r.2.
Proof.
  revert a q. induction its as [|i its IH]; intros a q; cbn [grpc_items http_items].
  { intros [= <-]. split_and!; [done|done|unfold order_amount; simpl; lia|apply adds_nil]. }
  destruct (i64_result true (price_cents i * quantity i)) as [p|] eqn:Ep; [|done]. cbn [mbind option_bind].
  destruct (i64_checked c _ _ Ep) as (Ep' & -> & Hp). rewrite Ep', (sat_mul_exact _ _ Hp). cbn [mbind option_bind].
  destruct (i64_result true (a + _)) as [a'|] eqn:Ea; [|done]. cbn [mbind option_bind].
  destruct (i64_checked c _ _ Ea) as (Ea' & -> & _). rewrite Ea'. cbn [mbind option_bind].
  destruct (entry_add (i32_result true) _ _ _) as [q'|] eqn:Eq; [|done]. cbn [mbind option_bind].
  destruct (entry_checked i32_result c _ _ _ _ (λ x y H, let '(conj H1 (conj H2 _)) := i32_checked c x y H in conj H1 H2) Eq)
    as [-> ->]. cbn [mbind option_bind].
  intros Hr. destruct (IH _ _ Hr) as (-> & -> & Ha & Hq). split_and!; [done|done| |by apply adds_cons].
  rewrite Ha. unfold order_amount. rewrite sumf_cons. lia.
Qed.

(** What has been added up, given what there was. *)
Definition totals_add l (t r : Totals) : Prop :=
  processed_orders r = processed_orders t + Z.of_nat (length (completed l)) ∧
  adds country (λ o, order_amount (items o)) (completed l) (amount_by_country t) (amount_by_country r) ∧
  adds category quantity (all_items (completed l)) (quantity_by_category t) (quantity_by_category r).

Lemma orders_agree c l t r :
  grpc_orders true l t = Some r → http_orders c l t = Some r ∧ grpc_orders c l t = Some r ∧ totals_add l t r.
Proof.
  revert t. induction l as [|o l IH]; intros t; cbn [grpc_orders http_orders].
  { intros [= <-]. split_and!; [done|done|]. split_and!; [simpl; lia|apply adds_nil|apply adds_nil]. }
  unfold COMPLETED. destruct (Z.eqb_spec (status o) 1) as [Hs|Hs]; cbn [negb].
  - destruct (i32_result true _) as [n|] eqn:En; [|done]. cbn [mbind option_bind].
    destruct (i32_checked c _ _ En) as (En' & -> & Hn).
    assert (i64_result c (processed_orders t + 1) = Some (processed_orders t + 1)) as ->
      by (unfold i64_result; rewrite bool_decide_true; [done|ints_lia]).
    rewrite En'. cbn [mbind option_bind].
    destruct (grpc_items true _ _ _) as [[a q]|] eqn:Ei; [|done]. cbn [mbind option_bind].
    destruct (items_agree c _ _ _ _ Ei) as (-> & -> & Ha & Hq). cbn [mbind option_bind fst snd] in *.
    destruct (entry_add (i64_result true) _ _ _) as [m|] eqn:Em; [|done]. cbn [mbind option_bind].
    destruct (entry_checked i64_result c _ _ _ _ (λ x y H, let '(conj H1 (conj H2 _)) := i64_checked c x y H in conj H1 H2) Em)
      as [-> ->]. cbn [mbind option_bind].
    intros Hr. destruct (IH _ Hr) as (-> & -> & H1 & H2 & H3). simpl in *. split_and!; [done|done|].
    unfold totals_add. rewrite completed_cons, decide_True by done. cbn [length]. rewrite Nat2Z.inj_succ. split_and!; [lia| |].
    + apply (adds_cons country (λ o, order_amount (items o))). by rewrite <- (Z.add_0_l (order_amount _)), <- Ha.
    + unfold all_items in *. cbn [mbind list_bind]. by eapply adds_app.
  - intros Hr. destruct (IH _ Hr) as (-> & -> & Ht). split_and!; [done|done|].
    unfold totals_add. by rewrite completed_cons, decide_False by done.
Qed.

(** When nothing overflows, the HTTP and the gRPC service give the same totals:
    the number of completed orders, the amounts of their countries and the
    quantities of their categories. *)
Theorem aggregates_agree c l r :
  grpc_orders true l no_totals = Some r →
  http_orders c l no_totals = Some r ∧ grpc_orders c l no_totals = Some r ∧
  processed_orders r = Z.of_nat (length (completed l)) ∧
  (∀ k, amount_by_country r !! k =
    if decide (k ∈ country <$> completed l) then Some (country_amount k (completed l)) else None) ∧
  (∀ k, quantity_by_category r !! k =
    if decide (k ∈ category <$> all_items (completed l)) then Some (category_quantity k (all_items (completed l))) else None).
Proof.
  intros Hr. destruct (orders_agree c _ _ _ Hr) as (-> & -> & H1 & H2 & H3).
  split_and!; [done|done|by rewrite H1|intros k; by apply (adds_fresh country)|intros k; by apply (adds_fresh category)].
Qed.
End aggregates.

(** With an overflow they differ: the HTTP service saturates the product. *)
Example aggregates_differ :
  let l := [mkOrder 1 "DE" [mkItem 3 "Books" (2 ^ 62)]]%string in
  (http_orders false l no_totals ≫= λ t, amount_by_country t !! "DE"%string) = Some i64_max ∧
  (grpc_orders false l no_totals ≫= λ t, amount_by_country t !! "DE"%string) = Some (- 2 ^ 62) ∧
  grpc_orders true l no_totals = None.
Proof. vm_compute. done. Qed.

(** ** The counters *)
Definition counter (c : Counter) (s : TestServerStats) : Z :=
  match c with
  | RequestsTotal => requests_total s | SawPostHeader => saw_post_header s
  | SawPostBody => saw_post_body s | SawJsonContentType => saw_json_content_type s
  end.
Definition count (c : Counter) (l : list Counter) : Z := sumf (λ x, if decide (x = c) then 1 else 0) l.

Lemma counter_incs c s l : in_u64 (counter c s) → counter c (foldl inc s l) = as_u64 (counter c s + count c l).
Proof.
  intros Hs. induction l as [|x l IH] using rev_ind; [unfold count; cbn [foldl]; simpl; rewrite Z.add_0_r; by rewrite as_u64_small|].
  rewrite foldl_snoc. unfold count in *. rewrite sumf_app. set (s' := foldl inc s l) in *. clearbody s'.
  assert (counter c (inc s' x) = if decide (x = c) then u64_wrap_add (counter c s') 1 else counter c s') as ->
    by (destruct s', c, x; done).
  simpl. case_decide; rewrite IH; [|f_equal; lia]. unfold u64_wrap_add, as_u64. rewrite Zplus_mod_idemp_l. f_equal. lia.
Qed.

Lemma count_perm c l l' : l ≡ₚ l' → count c l = count c l'.
Proof. intros Hp. unfold count. by rewrite Hp. Qed.

Lemma count_handled {A} c (f : A → list Counter) (P : A → Prop) `{∀ r, Decision (P r)} rs :
  (∀ r, count c (f r) = if decide (P r) then 1 else 0) → count c (rs ≫= f) = Z.of_nat (length (filter P rs)).
Proof.
  intros Hone. induction rs as [|r rs IH]; [done|]. rewrite bind_cons, filter_cons. unfold count in *.
  rewrite sumf_app, IH, Hone. case_decide; cbn [length]; lia.
Qed.

Lemma count_headers hs : count RequestsTotal (header_counters hs) = 0 ∧ count SawPostBody (header_counters hs) = 0.
Proof.
  unfold header_counters. case_bool_decide; destruct (header_str "content-type" hs) as [v|]; try done;
    by destruct (strip_prefix _ (lowercase v)).
Qed.

Lemma router_counts checks from_slice to_vec m path h r :
  router checks from_slice to_vec m path = Some h →
  count RequestsTotal (h r).1 = 1 ∧
  count SawPostBody (h r).1 = if decide (path = "/echo"%string ∧ rq_body r = "ping"%string) then 1 else 0.
Proof.
  destruct (count_headers (rq_headers r)) as [H1 H2]. unfold count in *. intros Hh.
  assert (path ≠ "/echo"%string ∧ (h r).1 = RequestsTotal :: (if decide (path = "/analytics/aggregate"%string) then header_counters (rq_headers r) else [])
    ∨ path = "/echo"%string ∧ h = handle_echo) as [[Hp ->]|[-> ->]].
  { revert Hh. unfold router. repeat (case_decide; [subst; try destruct (is_get m); try (case_decide; [|done]); first
      [done|by intros [= <-]; right|by intros [= <-]; left]|]). done. }
  - rewrite (decide_False (P := path = _ ∧ _)) by tauto. rewrite !sumf_cons.
    destruct (decide (path = "/analytics/aggregate"%string)); rewrite ?H1, ?H2; done.
  - simpl. rewrite !sumf_app, H1, H2. case_bool_decide; [rewrite decide_True by done|rewrite decide_False by tauto]; done.
Qed.

(** However the handlers' increments interleave, every handled request is counted
    once, and the bodies "ping" of /echo as well. *)
Theorem requests_counted checks from_slice to_vec (rs : list HttpRequest) incs :
  let handled r := default ([], None) ((λ h, h r) <$> router checks from_slice to_vec (rq_method r) (rq_path r)) in
  incs ≡ₚ (rs ≫= λ r, (handled r).1) →
  requests_total (foldl inc stats_default incs) =
    as_u64 (Z.of_nat (length (filter (λ r, is_Some (router checks from_slice to_vec (rq_method r) (rq_path r))) rs))) ∧
  saw_post_body (foldl inc stats_default incs) =
    as_u64 (Z.of_nat (length (filter (λ r, rq_path r = "/echo"%string ∧ rq_body r = "ping"%string) rs))).
Proof.
  intros handled Hp.
  rewrite (counter_incs RequestsTotal stats_default), (counter_incs SawPostBody stats_default) by done. simpl counter.
  rewrite !Z.add_0_l. split; f_equal; rewrite (count_perm _ _ _ Hp); apply count_handled; intros r; unfold handled.
  - destruct (router _ _ _ _ _) as [h|] eqn:E; simpl.
    + by apply (router_counts _ _ _ _ _ _ r E).
    + done.
  - destruct (router _ _ _ _ _) as [h|] eqn:E; simpl.
    + by rewrite (proj2 (router_counts _ _ _ _ _ _ r E)).
    + rewrite decide_False; [done|]. intros [Hpath _]. by rewrite Hpath in E.
Qed.
