(* ===== verification/Modules.v ===== *)
(** * Registration of the script modules (wrkr-lua/src/modules.rs, and the loaders
    of modules/wrkr.rs, http.rs, grpc.rs, metrics.rs, check.rs, env.rs, fs.rs,
    json.rs, uuid.rs, vu.rs, group.rs, shared.rs, debug.rs; debugger.rs;
    editor_stubs.rs)

    What [require] gives a script: loaders in [package.preload], run at most once,
    whose tables hold functions.  Objects have an identity, their place in a
    heap; a function is named by the Rust closure behind it and what it captures,
    and its behaviour is the file's that models the closure. *)
From S2P Require Import Prelude Coll Text Metrics Registry.

Local Open Scope Z_scope.

(** ** Functions and objects *)

(** The closures handed to Lua. *)
Inductive Fn :=
  | HttpCall (method : string) (has_body : bool)   (* HttpModule.request_impl with this method *)
  | HttpRequestCall                                (* the same, the method is an argument *)
  | GrpcNew | RunChecks (metric : MetricId) | ReadFile | JsonEncode | JsonDecode | UuidV4 | VuId (id : Z)
  | GroupCall | SharedCall (name : string) | MakeMetric (kind : MetricKind.t) | DebugStart | DebugMaybeStart.

Inductive Field := FText (s : string) | FRef (addr : nat).
Inductive Object := OFn (f : Fn) | OTable (fields : list (string * Field)).

(** A registered loader, with what it captures. *)
Inductive Loader :=
  | LMetrics | LHttp | LGrpc | LEnv (vars : list (string * string)) | LCheck (metric : MetricId) | LFs | LDebug
  | LJson | LUuid | LVu (id : Z) | LGroup | LShared | LWrkr.

(** The interpreter's [package.preload] and [package.loaded]. *)
Record LuaState := mkLua { heap : list Object; preload : gmap string Loader; loaded : gmap string nat }.

Definition preload_set (name : string) (l : Loader) (st : LuaState) : LuaState :=
  mkLua (heap st) (<[name := l]> (preload st)) (loaded st).

Definition alloc (o : Object) (st : LuaState) : nat * LuaState :=
  (length (heap st), mkLua (heap st ++ [o]) (preload st) (loaded st)).

(** The functions of each module, in the order they are set. *)
Definition http_members : list (string * Fn) :=
  [("get", HttpCall "GET" false); ("post", HttpCall "POST" true); ("put", HttpCall "PUT" true);
   ("patch", HttpCall "PATCH" true); ("delete", HttpCall "DELETE" false); ("head", HttpCall "HEAD" false);
   ("options", HttpCall "OPTIONS" false); ("request", HttpRequestCall)]%string.
Definition metrics_members : list (string * Fn) :=
  [("Trend", MakeMetric MetricKind.Histogram); ("Counter", MakeMetric MetricKind.Counter);
   ("Gauge", MakeMetric MetricKind.Gauge); ("Rate", MakeMetric MetricKind.Rate)]%string.
Definition fs_members : list (string * Fn) := [("read_file", ReadFile)]%string.
Definition debug_members : list (string * Fn) := [("start", DebugStart); ("maybe_start", DebugMaybeStart)]%string.
Definition json_members : list (string * Fn) := [("encode", JsonEncode); ("decode", JsonDecode)]%string.
Definition uuid_members : list (string * Fn) := [("v4", UuidV4)]%string.
Definition vu_members (id : Z) : list (string * Fn) := [("id", VuId id)]%string.
Definition group_members : list (string * Fn) := [("group", GroupCall)]%string.
Definition shared_members : list (string * Fn) :=
  (λ n, (n, SharedCall n)) <$> ["get"; "set"; "delete"; "incr"; "counter"; "wait"; "barrier"]%string.

(** Create the functions, then the table. *)
Fixpoint alloc_members (ms : list (string * Fn)) (st : LuaState) : list (string * Field) * LuaState :=
  match ms with
  | [] => ([], st)
  | (name, f) :: ms =>
      let '(a, st) := alloc (OFn f) st in
      let '(fields, st) := alloc_members ms st in
      ((name, FRef a) :: fields, st)
  end.
Definition alloc_table (ms : list (string * Fn)) (st : LuaState) : nat * LuaState :=
  let '(fields, st) := alloc_members ms st in alloc (OTable fields) st.

(** [t.set] of a key set before replaces it. *)
Definition env_fields (vars : list (string * string)) : list (string * Field) :=
  foldl (λ fs p, (filter (λ q, q.1 ≠ p.1) fs) ++ [(p.1, FText p.2)]) [] vars.

(** wrkr/grpc: the table [Client] has one function. *)
Definition grpc_load (st : LuaState) : nat * LuaState :=
  let '(client, st) := alloc_table [("new"%string, GrpcNew)] st in alloc (OTable [("Client"%string, FRef client)]) st.

(** Every loader but that of the module [wrkr]. *)
Definition base_load (l : Loader) (st : LuaState) : nat * LuaState :=
  match l with
  | LHttp => alloc_table http_members st
  | LMetrics => alloc_table metrics_members st
  | LGrpc => grpc_load st
  | LEnv vars => alloc (OTable (env_fields vars)) st
  | LCheck metric => alloc (OFn (RunChecks metric)) st
  | LFs => alloc_table fs_members st
  | LDebug => alloc_table debug_members st
  | LJson => alloc_table json_members st
  | LUuid => alloc_table uuid_members st
  | LVu id => alloc_table (vu_members id) st
  | LGroup => alloc_table group_members st
  | LShared => alloc_table shared_members st
  | LWrkr => alloc_table [] st   (* see [require] *)
  end.

(** ** Features of the build, and what a VM is registered with *)
Section modules.
Context (http grpc : bool).

Record RegisterContext := mkRegister { rc_vu_id : Z; rc_env : list (string * string); rc_checks : MetricId }.

(** [register], in its order; [rc_checks] is the metric "checks" that check.rs
    registers. *)
Definition registrations (c : RegisterContext) : list (string * Loader) :=
  ([("wrkr/metrics", LMetrics)]%string ++ (if http then [("wrkr/http", LHttp)]%string else []) ++
   (if grpc then [("wrkr/grpc", LGrpc)]%string else []) ++
   [("wrkr/env", LEnv (rc_env c)); ("wrkr/check", LCheck (rc_checks c)); ("wrkr/fs", LFs); ("wrkr/debug", LDebug);
    ("wrkr/json", LJson); ("wrkr/uuid", LUuid); ("wrkr/vu", LVu (rc_vu_id c)); ("wrkr/group", LGroup);
    ("wrkr/shared", LShared); ("wrkr", LWrkr)]%string)%list.
Definition register_modules (c : RegisterContext) (st : LuaState) : LuaState :=
  foldl (λ st p, preload_set p.1 p.2 st) st (registrations c).

(** The parts of the module [wrkr], in the order it requires them. *)
Definition parts : list string :=
  ((if http then ["http"]%string else []) ++ (if grpc then ["grpc"]%string else []) ++
   ["check"; "env"; "fs"; "group"; "json"; "uuid"; "metrics"; "shared"; "vu"]%string)%list.
Definition full_name (part : string) : string := ("wrkr/" ++ part)%string.

(** [let x: Table = ..] or [Function]: only check is a function. *)
Definition has_type (part : string) (o : option Object) : bool :=
  match o with
  | Some (OTable _) => negb (bool_decide (part = "check"%string))
  | Some (OFn _) => bool_decide (part = "check"%string)
  | None => false
  end.

Definition not_found (name : string) : string := ("module '" ++ name ++ "' not found")%string.

(** [require] for the module's parts: loaded, else preloaded. *)
Definition require_base (name : string) (st : LuaState) : result string nat * LuaState :=
  match loaded st !! name with
  | Some a => (Ok a, st)
  | None =>
      match preload st !! name with
      | None | Some LWrkr => (Err (not_found name), st)
      | Some l => let '(a, st) := base_load l st in (Ok a, mkLua (heap st) (preload st) (<[name := a]> (loaded st)))
      end
  end.

(** modules/wrkr.rs *)
Fixpoint require_parts (ps : list string) (st : LuaState) : result string (list (string * Field)) * LuaState :=
  match ps with
  | [] => (Ok [], st)
  | p :: ps =>
      match require_base (full_name p) st with
      | (Err e, st) => (Err e, st)
      | (Ok a, st) =>
          if has_type p (heap st !! a) then
            match require_parts ps st with
            | (Err e, st) => (Err e, st)
            | (Ok fields, st) => (Ok ((p, FRef a) :: fields), st)
            end
          else (Err "error converting Lua value"%string, st)
      end
  end.

(** [require]: the scripts' own modules are found by the search path (Loader.v). *)
Definition require (name : string) (st : LuaState) : result string nat * LuaState :=
  match loaded st !! name, preload st !! name with
  | None, Some LWrkr =>
      match require_parts parts st with
      | (Err e, st) => (Err e, st)
      | (Ok fields, st) =>
          let '(a, st) := alloc (OTable fields) st in (Ok a, mkLua (heap st) (preload st) (<[name := a]> (loaded st)))
      end
  | _, _ => require_base name st
  end.

Definition requires (names : list string) (st : LuaState) : LuaState := foldl (λ st n, (require n st).2) st names.

(** ** editor_stubs.rs: the paths of the stub files *)
Definition stub_paths : list string :=
  (["wrkr/_types.lua"; "wrkr/check.lua"; "wrkr/debug.lua"; "wrkr/env.lua"; "wrkr/fs.lua"; "wrkr/group.lua";
    "wrkr/init.lua"; "wrkr/json.lua"; "wrkr/metrics.lua"; "wrkr/shared.lua"; "wrkr/uuid.lua"; "wrkr/vu.lua"]%string ++
   (if grpc then ["wrkr/grpc.lua"]%string else []) ++ (if http then ["wrkr/http.lua"]%string else []))%list.
(** The stub of a module; [wrkr] itself is a directory's init file. *)
Definition stub_of (name : string) : string := if decide (name = "wrkr"%string) then "wrkr/init.lua"%string else (name ++ ".lua")%string.
End modules.

(** ** debugger.rs *)
Definition env_truthy (v : option string) : bool :=
  match v with Some s => bool_decide (s ∈ ["1"; "true"; "TRUE"; "yes"; "YES"]%string) | None => false end.
Definition should_auto_start (var : string → option string) : bool :=
  env_truthy (var "LOCAL_LUA_DEBUGGER_VSCODE"%string) || env_truthy (var "WRKR_LUA_DEBUG"%string).
(** [maybe_start_debugger] of one VM: whether it attaches, and the process's flag;
    the swap is one atomic access. *)
Definition maybe_start_debugger (var : string → option string) (started : bool) : bool * bool :=
  if should_auto_start var then (negb started, true) else (false, started).
Fixpoint maybe_starts (vars : list (string → option string)) (started : bool) : list bool :=
  match vars with
  | [] => []
  | var :: vars => let '(attach, started) := maybe_start_debugger var started in attach :: maybe_starts vars started
  end.

Example debugger_once :
  maybe_starts (replicate 3 (λ k, if decide (k = "WRKR_LUA_DEBUG"%string) then Some "1"%string else None)) false = [true; false; false].
Proof. reflexivity. Qed.

(** ** One object per module *)
Section properties.
Context (http grpc : bool) (c : RegisterContext).

Definition registered : LuaState := register_modules http grpc c (mkLua [] ∅ ∅).

Lemma registered_names n l : (n, l) ∈ registrations http grpc c → preload registered !! n = Some l.
Proof.
  unfold registered, register_modules, registrations. destruct http, grpc; cbn [app]; intros Hin;
    repeat (apply elem_of_cons in Hin as [[= -> ->]|Hin]; [reflexivity|]); by apply elem_of_nil in Hin.
Qed.

Lemma only_wrkr n : preload registered !! n = Some LWrkr → n = "wrkr"%string.
Proof.
  unfold registered, register_modules, registrations. destruct http, grpc; cbn [app foldl preload_set preload];
    intros Hn; repeat (apply lookup_insert_Some in Hn as [[<- ?]|[_ Hn]]; [done|]); by rewrite lookup_empty in Hn.
Qed.

(** The parts of [wrkr] are registered, and have the type it asks for. *)
Lemma parts_registered p : p ∈ parts http grpc →
  ∃ l, preload registered !! full_name p = Some l ∧ l ≠ LWrkr ∧ (p = "check"%string ↔ ∃ m, l = LCheck m).
Proof.
  unfold parts, registered, register_modules, registrations. destruct http, grpc; cbn [app]; intros Hin;
    repeat (apply elem_of_cons in Hin as [->|Hin]; [eexists; split; [reflexivity|split; [done|]]; split; [try done; by eexists|by intros [? ?]]|]);
    by apply elem_of_nil in Hin.
Qed.

(** What is allocated and loaded stays. *)
Record grows (st st' : LuaState) : Prop := {
  gr_heap : heap st `prefix_of` heap st';
  gr_preload : preload st' = preload st;
  gr_loaded : loaded st ⊆ loaded st' }.
#[local] Instance grows_preorder : PreOrder grows.
Proof.
  split; [by split|]. intros x y z [H1 H2 H3] [H4 H5 H6]. split; [by etrans|congruence|by etrans].
Qed.

Definition shape (st : LuaState) (l : Loader) (a : nat) : Prop :=
  match l with
  | LCheck m => heap st !! a = Some (OFn (RunChecks m))
  | LWrkr => ∃ bs, heap st !! a = Some (OTable (zip (parts http grpc) (FRef <$> bs))) ∧
      Forall2 (λ p b, loaded st !! full_name p = Some b) (parts http grpc) bs
  | _ => ∃ fields, heap st !! a = Some (OTable fields)
  end.

Lemma shape_grows st st' l a : grows st st' → shape st l a → shape st' l a.
Proof.
  intros [Hh _ Hl]. assert (∀ o, heap st !! a = Some o → heap st' !! a = Some o) as Ha by (intros; by eapply prefix_lookup_Some).
  destruct l; simpl; try (by intros [? ?]; eexists; apply Ha); try apply Ha.
  intros (bs & H1 & H2). exists bs. split; [by apply Ha|]. eapply Forall2_impl; [exact H2|]. intros p b Hb.
  exact (lookup_weaken _ _ _ _ Hb Hl).
Qed.

Record modules_inv (st : LuaState) : Prop := {
  mo_preload : preload st = preload registered;
  mo_loaded n a : loaded st !! n = Some a → ∃ l, preload st !! n = Some l ∧ shape st l a }.

(** Running a loader. *)
Lemma alloc_grows o st : grows st (alloc o st).2.
Proof. split; simpl; [by apply prefix_app_r|done|done]. Qed.
Lemma alloc_at o st : heap (alloc o st).2 !! (alloc o st).1 = Some o.
Proof. simpl. by apply list_lookup_middle. Qed.

Lemma alloc_members_grows ms st : grows st (alloc_members ms st).2 ∧ loaded (alloc_members ms st).2 = loaded st.
Proof.
  revert st. induction ms as [|[n f] ms IH]; intros st; [done|]. cbn [alloc_members].
  pose proof (alloc_grows (OFn f) st) as Ha. destruct (alloc (OFn f) st) as [a st1] eqn:E. injection E as <- <-.
  specialize (IH (mkLua (heap st ++ [OFn f]) (preload st) (loaded st))). destruct (alloc_members ms _) as [fields st2].
  destruct IH as [H1 H2]. split; [by etrans|done].
Qed.

Lemma alloc_table_spec ms st : grows st (alloc_table ms st).2 ∧ loaded (alloc_table ms st).2 = loaded st ∧
  ∃ fields, heap (alloc_table ms st).2 !! (alloc_table ms st).1 = Some (OTable fields).
Proof.
  unfold alloc_table. destruct (alloc_members_grows ms st) as [H1 H2]. destruct (alloc_members ms st) as [fields st1].
  split; [etrans; [exact H1|apply alloc_grows]|]. split; [done|]. exists fields. apply alloc_at.
Qed.

Lemma base_load_spec l st : l ≠ LWrkr →
  grows st (base_load l st).2 ∧ loaded (base_load l st).2 = loaded st ∧ shape (base_load l st).2 l (base_load l st).1.
Proof.
  intros Hl. destruct l; try done; try (apply alloc_table_spec).
  - cbn [base_load]. unfold grpc_load. destruct (alloc_table_spec [("new"%string, GrpcNew)] st) as (H1 & H2 & _).
    destruct (alloc_table _ st) as [client st1]. split; [etrans; [exact H1|apply alloc_grows]|].
    split; [done|]. eexists. apply alloc_at.
  - split; [apply alloc_grows|]. split; [done|]. eexists. apply alloc_at.
  - split; [apply alloc_grows|]. split; [done|]. apply alloc_at.
Qed.

(** Recording a module just loaded. *)
Lemma record_loaded st st' n l a :
  modules_inv st → grows st st' → loaded st' = loaded st → preload st !! n = Some l → loaded st !! n = None →
  shape (mkLua (heap st') (preload st') (<[n := a]> (loaded st'))) l a →
  let st2 := mkLua (heap st') (preload st') (<[n := a]> (loaded st')) in modules_inv st2 ∧ grows st st2.
Proof.
  intros [Hp Hl] Hg El Hn Hnone Ha st2. assert (grows st st2) as Hg2.
  { destruct Hg as [H1 H2 H3]. split; simpl; [done|done|]. rewrite El. by apply insert_subseteq. }
  split; [|done]. split; [by rewrite <- Hp; apply Hg|]. intros n' a' Hn'. simpl in Hn'. rewrite (gr_preload _ _ Hg2).
  destruct (decide (n = n')) as [<-|Hne].
  - rewrite lookup_insert_eq in Hn'. injection Hn' as <-. by exists l.
  - rewrite lookup_insert_ne, El in Hn' by done. destruct (Hl _ _ Hn') as (l' & H1 & H2). exists l'.
    split; [done|]. by eapply shape_grows.
Qed.

Lemma require_base_spec n l st : modules_inv st → preload st !! n = Some l → l ≠ LWrkr →
  ∃ a st', require_base n st = (Ok a, st') ∧ modules_inv st' ∧ grows st st' ∧ loaded st' !! n = Some a ∧ shape st' l a.
Proof.
  intros Hinv Hn Hl. unfold require_base. destruct (loaded st !! n) as [a|] eqn:Ha.
  - exists a, st. destruct (mo_loaded _ Hinv _ _ Ha) as (l' & Hl' & Hs). rewrite Hn in Hl'. injection Hl' as <-. by split_and!.
  - rewrite Hn. destruct (base_load_spec l st Hl) as (Hg & El & Hs). destruct (base_load l st) as [a st'] eqn:E. simpl in *.
    exists a, (mkLua (heap st') (preload st') (<[n := a]> (loaded st'))).
    assert (shape (mkLua (heap st') (preload st') (<[n := a]> (loaded st'))) l a) as Hs' by (by destruct l).
    destruct (record_loaded st st' n l a Hinv Hg El Hn Ha Hs') as [H1 H2].
    split_and!; [by destruct l|done|done|by simpl; rewrite lookup_insert_eq|done].
Qed.

Lemma has_type_shape st p l a : (p = "check"%string ↔ ∃ m, l = LCheck m) → l ≠ LWrkr → shape st l a → has_type p (heap st !! a) = true.
Proof.
  intros Hp Hl Hs. unfold has_type. destruct (decide (p = "check"%string)) as [->|Hne].
  - destruct (proj1 Hp eq_refl) as [m ->]. simpl in Hs. by rewrite Hs.
  - assert (∃ fields, heap st !! a = Some (OTable fields)) as [fields ->].
    { destruct l; try done. destruct Hne. apply Hp. by eexists. }
    by rewrite bool_decide_false.
Qed.

Lemma require_parts_spec ps st : modules_inv st → (∀ p, p ∈ ps → p ∈ parts http grpc) →
  ∃ bs st', require_parts ps st = (Ok (zip ps (FRef <$> bs)), st') ∧ modules_inv st' ∧ grows st st' ∧
    Forall2 (λ p b, loaded st' !! full_name p = Some b) ps bs ∧ ("wrkr"%string ∉ full_name <$> ps → loaded st' !! "wrkr"%string = loaded st !! "wrkr"%string).
Proof.
  revert st. induction ps as [|p ps IH]; intros st Hinv Hps; cbn [require_parts].
  { exists [], st. by split_and!. }
  destruct (parts_registered p) as (l & Hl & Hne & Hc); [apply Hps; by left|]. rewrite <- (mo_preload _ Hinv) in Hl.
  destruct (require_base_spec _ l st Hinv Hl Hne) as (a & st1 & E & Hinv1 & Hg1 & Ha & Hs). rewrite E.
  rewrite (has_type_shape _ _ _ _ Hc Hne Hs).
  destruct (IH st1 Hinv1) as (bs & st2 & -> & Hinv2 & Hg2 & Hbs & Hw); [intros; apply Hps; by right|].
  exists (a :: bs), st2. split_and!; [done|done|by etrans| |].
  - constructor; [|done]. exact (lookup_weaken _ _ _ _ Ha (gr_loaded _ _ Hg2)).
  - intros Hnot. rewrite fmap_cons in Hnot. apply not_elem_of_cons in Hnot as [Hn1 Hn2]. rewrite (Hw Hn2).
    unfold require_base in E. destruct (loaded st !! full_name p); [by injection E as _ <-|]. rewrite Hl in E.
    destruct (base_load_spec l st Hne) as (_ & El & _). destruct (base_load l st) as [a' st'] eqn:Eb.
    destruct l; try done; injection E as _ <-; simpl in *; rewrite lookup_insert_ne by done; by rewrite El.
Qed.

Lemma wrkr_no_part : "wrkr"%string ∉ full_name <$> parts http grpc.
Proof. unfold parts. destruct http, grpc; by apply (bool_decide_unpack _). Qed.

(** [require] of a registered name. *)
Lemma require_spec n l st : modules_inv st → preload st !! n = Some l →
  ∃ a st', require http grpc n st = (Ok a, st') ∧ modules_inv st' ∧ grows st st' ∧ loaded st' !! n = Some a ∧ shape st' l a.
Proof.
  intros Hinv Hn. destruct (loaded st !! n) as [a|] eqn:Ha.
  - unfold require, require_base. rewrite Ha. exists a, st.
    destruct (mo_loaded _ Hinv _ _ Ha) as (l' & Hl' & Hs). rewrite Hn in Hl'. injection Hl' as <-. by split_and!.
  - assert (l = LWrkr ∨ l ≠ LWrkr) as [->|Hne] by (destruct l; by (left + right)).
    2: { unfold require; rewrite Ha, Hn; destruct l; try done; by apply require_base_spec. }
    unfold require. rewrite Ha, Hn.
    assert (n = "wrkr"%string) as ->.
    { clear -Hn Hinv. rewrite (mo_preload _ Hinv) in Hn. by apply only_wrkr. }
    destruct (require_parts_spec (parts http grpc) st Hinv) as (bs & st1 & -> & Hinv1 & Hg1 & Hbs & Hw); [done|].
    specialize (Hw wrkr_no_part). pose proof (alloc_grows (OTable (zip (parts http grpc) (FRef <$> bs))) st1) as Hg2.
    pose proof (alloc_at (OTable (zip (parts http grpc) (FRef <$> bs))) st1) as Hat.
    destruct (alloc _ st1) as [a st2] eqn:E. assert (loaded st2 = loaded st1) as El by by injection E as <- <-.
    simpl in Hg2, Hat. rewrite Ha in Hw. rewrite <- (gr_preload _ _ Hg1) in Hn.
    set (st3 := mkLua _ _ _). exists a, st3.
    assert (shape st3 LWrkr a) as Hs.
    { exists bs. split; [done|]. eapply Forall2_impl; [exact Hbs|]. intros p b Hb. simpl in Hb |- *. rewrite El.
      rewrite lookup_insert_ne; [done|]. intros Heq. rewrite <- Heq in Hb. congruence. }
    destruct (record_loaded st1 st2 "wrkr" LWrkr a Hinv1 Hg2 El Hn Hw Hs) as [H1 H2].
    split_and!; [done|done|by etrans|simpl; by rewrite lookup_insert_eq|done].
Qed.

(** Any [require], of a registered name or not. *)
Lemma require_any n st : modules_inv st → modules_inv (require http grpc n st).2 ∧ grows st (require http grpc n st).2.
Proof.
  intros Hinv. destruct (preload st !! n) as [l|] eqn:Hn.
  - by destruct (require_spec n l st Hinv Hn) as (a & st' & -> & H1 & H2 & _).
  - unfold require, require_base. rewrite Hn. by destruct (loaded st !! n).
Qed.

Lemma requires_any names st : modules_inv st → modules_inv (requires http grpc names st) ∧ grows st (requires http grpc names st).
Proof.
  unfold requires. revert st. induction names as [|n names IH]; intros st Hinv; [done|]. cbn [foldl].
  destruct (require_any n st Hinv) as [H1 H2]. destruct (IH _ H1) as [H3 H4]. split; [done|by etrans].
Qed.

Lemma registered_inv : modules_inv registered.
Proof. split; [done|]. unfold registered, register_modules. intros n a. set (st := foldl _ _ _).
  assert (loaded st = ∅) as ->; [|by rewrite lookup_empty]. unfold st.
  assert (∀ l st, loaded (foldl (λ st p, preload_set p.1 p.2 st) st l) = loaded st) as E; [|by rewrite E].
  induction l as [|p l IH]; intros st'; [done|]. cbn [foldl]. by rewrite IH.
Qed.

Lemma require_loaded n a st : loaded st !! n = Some a → (require http grpc n st).1 = Ok a.
Proof. intros Ha. unfold require, require_base. by rewrite Ha. Qed.

(** One object per module.  Whatever a script has required before, every
    registered name can be required and keeps answering the same object; and the
    table [wrkr] holds, under the parts' names, the very objects that requiring
    the parts answers, before and after. *)
Theorem modules_shared names names' n l :
  (n, l) ∈ registrations http grpc c →
  let st := requires http grpc names registered in
  ∃ a st', require http grpc n st = (Ok a, st') ∧ (require http grpc n (requires http grpc names' st')).1 = Ok a ∧
    (l = LWrkr → ∃ bs, heap st' !! a = Some (OTable (zip (parts http grpc) (FRef <$> bs))) ∧
      Forall2 (λ p b, (require http grpc (full_name p) (requires http grpc names' st')).1 = Ok b) (parts http grpc) bs) ∧
    (l ≠ LWrkr → ∀ m, l = LCheck m → heap st' !! a = Some (OFn (RunChecks m))).
Proof.
  intros Hreg%registered_names st. destruct (requires_any names registered registered_inv) as [Hinv Hg].
  fold st in Hinv, Hg. rewrite <- (mo_preload _ Hinv) in Hreg.
  destruct (require_spec n l st Hinv Hreg) as (a & st' & E & Hinv' & Hg' & Ha & Hs). exists a, st'. split; [done|].
  destruct (requires_any names' st' Hinv') as [_ Hg2]. pose proof (λ k b H, lookup_weaken _ _ k b H (gr_loaded _ _ Hg2)) as Hkeep.
  split; [by apply require_loaded, Hkeep|]. split.
  - intros ->. destruct Hs as (bs & H1 & H2). exists bs. split; [done|]. eapply Forall2_impl; [exact H2|].
    intros p b Hb. by apply require_loaded, Hkeep.
  - by intros _ m ->.
Qed.

(** Every registered module has a stub for editors, and besides the types there
    are no others. *)
Lemma stubs_are_the_modules : stub_paths http grpc ≡ₚ "wrkr/_types.lua"%string :: (stub_of <$> (registrations http grpc c).*1).
Proof. unfold stub_paths, registrations. destruct http, grpc; apply (bool_decide_unpack _); vm_compute; exact I. Qed.
End properties.

(** The debugger is attached at most once per process, and only on demand. *)
Lemma debugger_at_most_once vars started :
  sumf (λ b : bool, if b then 1 else 0) (maybe_starts vars started) ≤ (if started then 0 else 1).
Proof.
  revert started. induction vars as [|var vars IH]; intros started; [simpl; destruct started; lia|]. cbn [maybe_starts].
  unfold maybe_start_debugger. destruct (should_auto_start var); rewrite sumf_cons.
  - specialize (IH true). destruct started; simpl in *; lia.
  - specialize (IH started). simpl. lia.
Qed.

(** The editors' stub of [wrkr] has a field [debug]; the module has none. *)
Example wrkr_has_no_debug : "debug"%string ∉ parts true true.
Proof. by apply (bool_decide_unpack _). Qed.
