(* ===== verification/Protoc.v ===== *)
(** * Compiling a schema (wrkr-grpc/src/proto.rs, [ProtoSchema::compile_from_proto])

    Which protoc is run, with which include paths, and what its failures become.
    The environment, the disk, the process and the descriptor library are an
    interface; the runs of protoc that compile are kept in order. *)
From S2P Require Import Prelude Paths.

Local Open Scope string_scope.

(** [Error], the part this function can give. *)
Inductive Error :=
  | ProtocBin (msg : string)
  | ProtocIo (msg : string)
  | ProtocFailed (exit : Z) (stderr : string)
  | DescriptorPoolError (msg : string)
  | DescriptorDecode (msg : string).

Record Output := mkOutput { out_success : bool; out_code : option Z; out_stderr : string }.

(** [runnable program]: [program --version] could be started and succeeded. *)
Class ProtocHost := {
  env_var : string → option string;
  current_exe : option string;
  is_file : string → bool;
  runnable : string → bool;
  temp_file : result string string;
  run_protoc : string → list string → result string Output;
  read_bytes : string → result string string;
  FileDescriptorSet : Type;
  decode_set : string → result string FileDescriptorSet;
  Pool : Type;
  pool_of_set : FileDescriptorSet → result string Pool }.

Section compile.
Context {W : ProtocHost}.

(** [bundled_protoc_path], on Unix. *)
Definition bundled_protoc_path : option string :=
  exe ← current_exe;
  exe_dir ← parent exe;
  let candidate := join exe_dir "protoc" in
  if is_file candidate && runnable candidate then Some candidate else None.

Definition no_protoc : string :=
  "no runnable protoc found; install protoc and ensure it's on PATH, set PROTOC=/path/to/protoc, or place protoc next to the wrkr binary".

(** An empty [PROTOC] counts as none; the program it names is not tried out. *)
Definition resolve_protoc : result Error string :=
  match (p ← env_var "PROTOC"; if decide (p = "") then None else Some p) with
  | Some p => Ok p
  | None =>
      match bundled_protoc_path with
      | Some p => Ok p
      | None => if runnable "protoc" then Ok "protoc" else Err (ProtocBin no_protoc)
      end
  end.

Definition bundled_protoc_include_dir : option string :=
  exe ← current_exe;
  exe_dir ← parent exe;
  let candidate := join exe_dir "protoc-include" in
  if is_file (join (join (join candidate "google") "protobuf") "any.proto") then Some candidate else None.

(** The [retain] with a set of what has been seen; two [PathBuf]s are equal when
    their components are. *)
Fixpoint retain_new (seen : list (list Component)) (ps : list string) : list string :=
  match ps with
  | [] => []
  | p :: ps =>
      if decide (components p ∈ seen) then retain_new seen ps else p :: retain_new (components p :: seen) ps
  end.

Definition include_dirs (proto_file : string) (include_paths : list string) : list string :=
  retain_new [] (include_paths ++ option_list (parent proto_file) ++ option_list bundled_protoc_include_dir)%list.

Definition protoc_args (out_path proto_file : string) (dirs : list string) : list string :=
  (["--include_imports"; "--include_source_info"; ("--descriptor_set_out=" ++ out_path)%string] ++
   (dirs ≫= λ p, ["-I"; p]) ++ [proto_file])%list.

Definition map_err_to {A} (f : string → Error) (r : result string A) : result Error A :=
  match r with Ok a => Ok a | Err e => Err (f e) end.

(** The pool, and the runs that compile: the program and its arguments. *)
Definition compile_from_proto (proto_file : string) (include_paths : list string) :
    result Error Pool * list (string * list string) :=
  let dirs := include_dirs proto_file include_paths in
  match resolve_protoc with
  | Err e => (Err e, [])
  | Ok protoc =>
      match temp_file with
      | Err e => (Err (ProtocIo e), [])
      | Ok out_path =>
          let args := protoc_args out_path proto_file dirs in
          (output ← map_err_to ProtocIo (run_protoc protoc args);
           if negb (out_success output) then Err (ProtocFailed (default (-1)%Z (out_code output)) (out_stderr output))
           else
             bytes ← map_err_to ProtocIo (read_bytes out_path);
             fds ← map_err_to DescriptorDecode (decode_set bytes);
             map_err_to DescriptorPoolError (pool_of_set fds),
           [(protoc, args)])
      end
  end.

(** ** Properties *)

Lemma bundled_runs p : bundled_protoc_path = Some p → runnable p = true.
Proof.
  unfold bundled_protoc_path. destruct current_exe as [exe|]; [|done]. simpl. destruct (parent exe); [|done]. simpl.
  destruct (is_file _ && runnable _) eqn:Hb; [|done]. intros [= <-]. by apply andb_true_iff in Hb as [_ ?].
Qed.

(** Which program is chosen: the one named, else the one beside wrkr, else the
    path's; each but the first has been run once. *)
Lemma resolve_protoc_spec p :
  resolve_protoc = Ok p →
  (env_var "PROTOC" = Some p ∧ p ≠ "") ∨
  (env_var "PROTOC" = None ∨ env_var "PROTOC" = Some "") ∧ runnable p = true ∧
    (bundled_protoc_path = Some p ∨ bundled_protoc_path = None ∧ p = "protoc").
Proof.
  unfold resolve_protoc. pose proof bundled_runs as Hb.
  assert (match bundled_protoc_path with
    | Some p => Ok p | None => if runnable "protoc" then Ok "protoc" else Err (ProtocBin no_protoc) end = Ok p →
    runnable p = true ∧ (bundled_protoc_path = Some p ∨ bundled_protoc_path = None ∧ p = "protoc")) as Hrest.
  { destruct bundled_protoc_path as [b|]; [intros [= ->]; auto|]. destruct (runnable "protoc") eqn:Hr; [intros [= <-]; auto|done]. }
  destruct (env_var "PROTOC") as [q|]; simpl; [case_decide as Hq; [subst|intros [= ->]; by left]|]; auto.
Qed.

Lemma retain_new_spec seen ps :
  NoDup (components <$> retain_new seen ps) ∧ (∀ p, p ∈ retain_new seen ps → components p ∉ seen) ∧
  retain_new seen ps `sublist_of` ps ∧
  ∀ c, c ∈ seen ∨ c ∈ (components <$> ps) ↔ c ∈ seen ∨ c ∈ (components <$> retain_new seen ps).
Proof.
  revert seen. induction ps as [|p ps IH]; intros seen; simpl; [split_and!; [constructor|set_solver|constructor|done]|].
  case_decide as Hp.
  - destruct (IH seen) as (H1 & H2 & H3 & H4). split_and!; [done|done|by apply sublist_cons|].
    intros c. rewrite <- H4. set_solver.
  - destruct (IH (components p :: seen)) as (H1 & H2 & H3 & H4). split_and!; [| |by apply sublist_skip|].
    + rewrite fmap_cons. constructor; [|done]. intros (q & Hq & Hin)%list_elem_of_fmap. apply (H2 q Hin). rewrite Hq. by left.
    + intros q [->|Hq]%elem_of_cons; [done|]. specialize (H2 q Hq). set_solver.
    + intros c. rewrite fmap_cons. specialize (H4 c). set_solver.
Qed.

(** Compiling runs protoc at most once.  It is given every include path asked
    for, the schema's own directory and the bundled one, no directory twice, in
    that order; and a schema is there only if that run succeeded. *)
Theorem compile_runs_once proto_file include_paths r runs :
  compile_from_proto proto_file include_paths = (r, runs) →
  let wanted := (include_paths ++ option_list (parent proto_file) ++ option_list bundled_protoc_include_dir)%list in
  (runs = [] ∧ ∃ e, r = Err e) ∨
  ∃ protoc out_path dirs, runs = [(protoc, protoc_args out_path proto_file dirs)] ∧ resolve_protoc = Ok protoc ∧
    dirs `sublist_of` wanted ∧ NoDup (components <$> dirs) ∧
    (∀ p, p ∈ wanted → ∃ q, q ∈ dirs ∧ components q = components p) ∧
    (∀ pool, r = Ok pool → ∃ o, run_protoc protoc (protoc_args out_path proto_file dirs) = Ok o ∧ out_success o = true).
Proof.
  intros Hc wanted. unfold compile_from_proto in Hc. destruct resolve_protoc as [protoc|e]; [|injection Hc as <- <-; left; by split; [|eexists]].
  destruct temp_file as [out_path|e]; [|injection Hc as <- <-; left; by split; [|eexists]].
  injection Hc as Hr <-. right. exists protoc, out_path, (include_dirs proto_file include_paths).
  destruct (retain_new_spec [] wanted) as (H1 & _ & H3 & H4). split_and!; [done|done|done|done| |].
  - intros p Hp. destruct (proj1 (H4 (components p))) as [?%elem_of_nil|(q & Hq & Hin)%list_elem_of_fmap]; [right; by apply list_elem_of_fmap_2|done|].
    by exists q.
  - intros pool ->. destruct (run_protoc _ _) as [o|]; [|done]. exists o. split; [done|]. cbn [map_err_to mbind result_bind] in Hr.
    by destruct (out_success o).
Qed.
End compile.

(** A schema named without a directory: its directory is the empty path. *)
Example bare_schema_directory : parent "echo.proto" = Some "".
Proof. reflexivity. Qed.
